(* ===== verification/_CoqProject ===== *)
-Q . S2P
Prelude.v
Syntax.v
Lexer.v
Printer.v
LexerSpec.v
Parser.v
ParserSpec.v
DocumentSpec.v
PrintParse.v
Format.v
WitnessParse.v
Diagnostics.v
Source.v
SourceSpec.v
Json.v
Z3Ast.v
Lift.v
LiftRegistry.v
LiftRead.v
LiftSpec.v
Recorder.v
RecorderSpec.v
Observers.v
ObserversSpec.v
Z3Solver.v
Synthesis.v
EnumeratorSpec.v
SynthesisSpec.v
SynthesisSample.v
Z3Build.v
Z3Check.v
Z3Model.v
Z3Fixedpoint.v
Z3Horn.v
Runtime.v
Elaborate.v
Declare.v
Values.v
Predicate.v
PredicateCheck.v
Check.v
Bisimulation.v
Synthesize.v
Execute.v
Main.v
RuntimeSpec.v
ElaborateSpec.v
DeclareSpec.v
EnumSpec.v
FunctionSpec.v
StructuralSpec.v
CheckSpec.v
CheckSound.v
SynthesizeSpec.v
PredicateSpec.v
LayerSpec.v
InductionSpec.v
DeclarePredicateSpec.v
PredicateSound.v
Mentions.v
FixedpointSound.v
ValuesSpec.v
CheckRefuted.v
BisimulationSpec.v
Unasked.v
ExecuteSpec.v
ExecuteSound.v
MainSpec.v
RuntimeSample.v
RuntimeWitness.v
PredicateWitness.v
FixedpointWitness.v
BisimulationWitness.v
