(* ===== verification/Prelude.v ===== *)
(** * Fine: a verification development

    Fine (src/src/fine) is a small language on top of Z3: a source text declares
    enumerations, datatypes, tables, recursive functions, constrained views and
    inductive predicates, and asks for one result: a proof of a [check], a
    synthesized function, or a bisimulation relation.  A run can also be recorded
    as a trace of JSON lines, the rainfall, in which every Z3 term appears as a
    text that reads back to the identical term.

    ** The parts and their files

    - Syntax.v, Lexer.v, Parser.v model parser.h and parser.cpp: the syntax tree
      with its spans and node identifiers, the lexer, and the recursive-descent
      parser in a state-and-error monad.  LexerSpec.v, ParserSpec.v and
      DocumentSpec.v prove totality, spans, identifiers and the shape of what is
      returned; Printer.v and PrintParse.v are print_expression of runtime.cpp and
      its round trip; WitnessParse.v reads a printed `counterexample`.
    - Diagnostics.v is ParseError::format and SemanticError::format, with the
      index and length faults of the C++ strings.
    - Source.v and SourceSpec.v are source.cpp: SHA-256, proved equal to FIPS
      180-4, and source snapshots.
    - Z3Ast.v states what the C API does with terms (the class [Z3Laws]), and
      gives a concrete instance, [Structural].  Lift.v is rainfall_lift.cpp;
      LiftRegistry.v, LiftRead.v and LiftSpec.v prove its exactness.
    - Json.v, Recorder.v and RecorderSpec.v are rainfall.cpp: the recorder's state
      and each of its operations.  Observers.v and ObserversSpec.v are the clause,
      quantifier and fixedpoint observers and the replay of internal_rewrite.cpp.
    - Z3Solver.v states solvers, models and the meaning of terms; Synthesis.v is
      synthesis.cpp.  EnumeratorSpec.v and SynthesisSpec.v prove that candidates
      are enumerated fairly and that results are correct; SynthesisSample.v is an
      instance on which the hypotheses hold.
    - Z3Build.v, Z3Check.v and Z3Model.v state the sorts and the meaning of what
      the C++ API builds, of arrays and of models; Z3Fixedpoint.v is what Fine
      tells Z3's fixedpoint object, and Z3Horn.v reads its rules as Horn clauses
      and states what a query's answer means.  Runtime.v, Elaborate.v, Declare.v, Values.v,
      Check.v and Execute.v are runtime_internal.h, runtime.cpp and the lifting
      functions of bisimulation_runtime.cpp; Main.v is main.cpp.  A [TypePtr] is a
      position in a heap that only grows, so that [same] compares pointers; an
      operation is a function on [RuntimeState] that keeps its state when it
      throws.  RuntimeSpec.v states the invariant [runtime_ok]; ElaborateSpec.v,
      DeclareSpec.v, EnumSpec.v, FunctionSpec.v and StructuralSpec.v prove that
      every operation keeps it; CheckSpec.v and CheckSound.v that checks are sound;
      ValuesSpec.v and CheckRefuted.v that counterexamples come back as source;
      MainSpec.v what the process reports.
    - Predicate.v and PredicateCheck.v are predicate_runtime.cpp.  PredicateSpec.v
      says what a predicate means, the least relation its constructors generate;
      DeclarePredicateSpec.v what a declaration retains of its constructors;
      LayerSpec.v, InductionSpec.v and PredicateSound.v that an induction over
      them is sound; FixedpointSound.v that the rules given to the fixedpoint
      object are those constructors, and that its answers to memberships and
      invariants are right.
    - Bisimulation.v is execute_bisimulation of bisimulation_runtime.cpp, and
      BisimulationSpec.v shows that it implements the abstract [bisimulation].
      Synthesize.v is synthesis_runtime.cpp, and SynthesizeSpec.v shows that the
      printed program meets its specification.
    - ExecuteSpec.v and ExecuteSound.v compose these along a document; Unasked.v
      shows which operations leave the fixedpoint object alone, and Mentions.v
      that an expression without predicate calls elaborates to a term that
      applies no predicate.
      RuntimeSample.v instantiates the interfaces on structural terms, with a
      solver that recognizes some refutations; RuntimeWitness.v,
      PredicateWitness.v, FixedpointWitness.v and BisimulationWitness.v run
      documents on it from their text to their result.

    ** What the theorems show

    - Text: parsing is total, spans and node identifiers are right, expressions
      and counterexamples survive printing and parsing, diagnostics stay inside
      the source.
    - Terms: a lifted term reads back to the identical term; handles are stable; the recording is valid JSON lines,
      numbered consecutively; a clause is joined to its instance exactly once.
    - Types: the runtime is well formed after every declaration, elaboration gives
      terms of the right sort over the names in scope, a type has one pointer
      however often it is written, and an accepted recursive function recurses on
      direct fields.
    - Meaning: a verified check holds in every interpretation, the obligation of an
      induction implies its theorem, an induction over a predicate is true of all
      its members, memberships and invariants of least relations are answered
      truly (negative answers where no index contains a predicate call),
      admitted proofs stay valid along any document, a synthesized
      program satisfies its specification, and a solved table is a bisimulation that
      relates the initial states.

    ** Bounds and fuel

    The parser's recursion is bounded by the length of the source plus one, and the
    lexer's scans by the rest of the source: [parse_total] shows that [Diverge] is
    never returned.  SHA-256 runs as many rounds as the padded message has blocks.
    The enumerator's loop makes at most three steps per candidate, since a size
    with no candidate is followed by one that has some; the synthesizer's loops
    take a fuel argument and [run_correct] gives the fuel that is enough.  Machine
    integers are kept at their width where the code relies on it: 32-bit words in
    SHA-256, 64-bit sizes in the diagnostics and in a revision argument.

    ** Not modelled

    Z3 itself (everything outside src/src/fine) is not under this development: its
    calls are the classes named above, whose laws state documented behaviour, and
    the callbacks it makes to the observers are lists of events.  Files, the clock
    and the random device are inputs of Main.v.  The demo source is generated by
    the build. *)

From Stdlib Require Export Ascii String Lia.
From stdpp Require Export base numbers strings list.
Export stdpp.list_basics.list stdpp.list_relations.list stdpp.list_monad.list stdpp.list_misc.list.

Global Open Scope nat_scope.

(** ** Outcomes: a value, a thrown error, or exhausted fuel *)

Inductive outcome (E A : Type) : Type :=
| Ok (a : A)
| Err (e : E)
| Diverge.
Arguments Ok {E A} a.
Arguments Err {E A} e.
Arguments Diverge {E A}.

#[export] Instance outcome_ret {E} : MRet (outcome E) := fun A a => Ok a.
#[export] Instance outcome_bind {E} : MBind (outcome E) := fun A B k m =>
  match m with
  | Ok a => k a
  | Err e => Err e
  | Diverge => Diverge
  end.

Lemma bind_ok {E A B} (a : A) (k : A -> outcome E B) : Ok a ≫= k = k a.
Proof. done. Qed.

(** Weakest precondition of an outcome: it is never [Diverge], a value
    satisfies [Q] and an error satisfies [X]. *)
Definition owp {E A} (m : outcome E A) (Q : A -> Prop) (X : E -> Prop) : Prop :=
  match m with
  | Ok a => Q a
  | Err e => X e
  | Diverge => False
  end.

Lemma owp_bind {E A B} (m : outcome E A) (k : A -> outcome E B) Q X :
  owp m (fun a => owp (k a) Q X) X -> owp (m ≫= k) Q X.
Proof. by destruct m. Qed.

Lemma owp_mono {E A} (m : outcome E A) (Q Q' : A -> Prop) (X X' : E -> Prop) :
  owp m Q X -> (forall a, Q a -> Q' a) -> (forall e, X e -> X' e) -> owp m Q' X'.
Proof. destruct m; simpl; eauto. Qed.

(** ** Characters *)

Definition in_range (lo hi c : ascii) : bool :=
  (N_of_ascii lo <=? N_of_ascii c)%N && (N_of_ascii c <=? N_of_ascii hi)%N.

Definition is_digit (c : ascii) : bool := in_range "0" "9" c.

(** ** Strings as byte sequences *)

#[global] Arguments String.append !_ _ / : simpl nomatch.

Lemma append_assoc (a b c : string) : ((a ++ b) ++ c)%string = (a ++ b ++ c)%string.
Proof. induction a; simpl; congruence. Qed.

Lemma append_nil_r (a : string) : (a ++ "")%string = a.
Proof. induction a; simpl; congruence. Qed.

Lemma length_append (a b : string) : String.length (a ++ b) = String.length a + String.length b.
Proof. induction a; simpl; congruence. Qed.

Create Rewrite HintDb strings.
#[export] Hint Rewrite append_assoc append_nil_r length_append : strings.

Fixpoint all_chars (p : ascii -> bool) (s : string) : bool :=
  match s with EmptyString => true | String c s' => p c && all_chars p s' end.

Lemma all_chars_app p a b : all_chars p (a +:+ b) = all_chars p a && all_chars p b.
Proof. induction a as [|c a IH]; simpl; [done|]. by rewrite IH, andb_assoc. Qed.

Lemma append_inv_head (a b c : string) : a +:+ b = a +:+ c -> b = c.
Proof. induction a as [|x a IH]; simpl; [done|]. intros [= E]. auto. Qed.

Lemma concat_cons sep x y l : String.concat sep (x :: y :: l) = x +:+ sep +:+ String.concat sep (y :: l).
Proof. done. Qed.

(** A std::string read as a C string: what precedes its first NUL byte. *)
Fixpoint c_str (s : string) : string :=
  match s with
  | EmptyString => EmptyString
  | String c s' => if (c =? "000")%char then EmptyString else String c (c_str s')
  end.

Lemma c_str_whole s : all_chars (fun c => negb (c =? "000")%char) s = true -> c_str s = s.
Proof. induction s as [|c s IH]; simpl; [done|]. destruct (c =? "000")%char; [done|]. simpl. intros Hs. by rewrite IH. Qed.
