(* ===== verification/Syntax.v ===== *)
(** * Fine source syntax (src/src/fine/parser.h)

    The syntax nodes the parser builds, with the field names of the C++
    structures.  Only source syntax is retained: name and type resolution
    happen later.  [Expr] and [Type_] are, as in the code, one structure with
    a kind tag and the fields of every kind. *)

From S2P Require Import Prelude.

(** ** Source positions *)

Record SourcePosition := mkPosition { offset : nat; line : nat; column : nat }.

(** The default member initialisers of [SourcePosition]. *)
Definition start_position : SourcePosition :=
  {| offset := 0; line := 1; column := 1 |}.

Record SourceSpan := mkSpan { begin_ : SourcePosition; end_ : SourcePosition }.

Definition default_span : SourceSpan :=
  {| begin_ := start_position; end_ := start_position |}.

Record ParseError := mkParseError { error_span : SourceSpan; error_message : string }.

(** ** Types and expressions *)

Inductive TypeKind := TNamed | TTuple | TTable.
#[export] Instance TypeKind_eq_dec : EqDecision TypeKind.
Proof. solve_decision. Defined.

Inductive Type_ := mkType {
  type_kind : TypeKind;
  type_span : SourceSpan;
  type_name : string;
  type_arguments : list Type_
}.

Inductive ExprKind :=
| EName | EBoolean | EInteger | ETuple | ECall | EBinary | EConditional | EHole.
#[export] Instance ExprKind_eq_dec : EqDecision ExprKind.
Proof. solve_decision. Defined.

Inductive BinaryOp :=
| OpEqual | OpGreaterEqual | OpLessEqual | OpLogicalAnd | OpLogicalOr | OpAdd | OpSubtract.
#[export] Instance BinaryOp_eq_dec : EqDecision BinaryOp.
Proof. solve_decision. Defined.

Inductive Expr := mkExpr {
  kind : ExprKind;
  span : SourceSpan;
  name : string;
  boolean_value : bool;
  integer_text : string;
  binary_op : BinaryOp;
  elements : list Expr;
  node_id : nat
}.

(** ** Declarations *)

Record EnumField := mkEnumField {
  field_span : SourceSpan; field_name : string; field_type : Type_ }.

Record EnumCase := mkEnumCase {
  case_span : SourceSpan; case_name : string; case_fields : list EnumField }.

Record EnumDecl := mkEnumDecl {
  enum_span : SourceSpan; enum_name : string; enum_cases : list EnumCase }.

Record TableEntry := mkTableEntry {
  entry_span : SourceSpan; entry_key : Expr; entry_value : Expr }.

Record TableLiteral := mkTableLiteral {
  table_span : SourceSpan; table_default : Expr; table_entries : list TableEntry }.

Record LetDecl := mkLetDecl {
  let_span : SourceSpan; let_name : string; let_type : Type_; let_value : TableLiteral }.

Record ModelDecl := mkModelDecl {
  model_span : SourceSpan; model_name : string; model_type : Type_;
  model_value : option TableLiteral }.

Record NamedArgument := mkNamedArgument {
  argument_span : SourceSpan; argument_name : string; argument_value : Expr }.

Record SolveDecl := mkSolveDecl {
  solve_span : SourceSpan; solve_name : string; solve_takes : list NamedArgument;
  solve_gives : Expr }.

Record Parameter_ := mkParameter {
  parameter_span : SourceSpan; parameter_name : string; parameter_type : Type_ }.

Record ViewDecl := mkViewDecl {
  view_span : SourceSpan; view_name : string; view_parameters : list Parameter_;
  view_carrier : Type_; view_requirements : list Expr; view_witness : option Expr }.

Record ArbitraryPremise := mkArbitraryPremise {
  arbitrary_span : SourceSpan; arbitrary_binder : string; arbitrary_view : string;
  arbitrary_arguments : list Expr; arbitrary_premises : list Expr;
  arbitrary_node_id : nat }.

Record PredicateConstructor := mkPredicateConstructor {
  constructor_span : SourceSpan; constructor_name : string;
  constructor_parameters : list Parameter_; constructor_premises : list Expr;
  constructor_arbitrary : list ArbitraryPremise; constructor_result : Expr }.

Record PredicateDecl := mkPredicateDecl {
  predicate_span : SourceSpan; predicate_name : string;
  predicate_indices : list Parameter_;
  predicate_constructors : list PredicateConstructor }.

Record MatchBinding := mkMatchBinding { binding_span : SourceSpan; binding_name : string }.

Record MatchArm := mkMatchArm {
  arm_span : SourceSpan; arm_constructor : string; arm_bindings : list MatchBinding;
  arm_value : Expr }.

Record FunctionDecl := mkFunctionDecl {
  function_span : SourceSpan; function_name : string;
  function_parameters : list Parameter_; function_result_type : Type_;
  function_scrutinee : Expr; function_arms : list MatchArm }.

Record SynthDecl := mkSynthDecl {
  synth_span : SourceSpan; synth_name : string; synth_parameters : list Parameter_;
  synth_result_type : Type_; synth_scrutinee : option Expr;
  synth_arms : list MatchArm; synth_ensures : list Expr }.

Record CheckDecl := mkCheckDecl {
  check_span : SourceSpan; check_reusable : bool; check_name : string;
  check_parameters : list Parameter_; check_induction_parameter : option string;
  check_induction_span : option SourceSpan; check_predicate_induction : option Expr;
  check_assumes : list Expr; check_ensures : list Expr }.

Record CounterexampleEntry := mkCounterexampleEntry {
  cex_entry_span : SourceSpan; cex_entry_name : string; cex_entry_type : Type_;
  cex_entry_value : Expr }.

Record CounterexampleDecl := mkCounterexampleDecl {
  counterexample_span : SourceSpan; counterexample_name : string;
  counterexample_entries : list CounterexampleEntry }.

(** [std::variant] of the ten declaration structures.  Every structure ends
    with a [node_id] that [document] assigns to the variant after the
    declaration is complete; [declared] pairs the two. *)
Inductive Declaration :=
| DEnum (d : EnumDecl) | DLet (d : LetDecl) | DModel (d : ModelDecl)
| DSolve (d : SolveDecl) | DView (d : ViewDecl) | DPredicate (d : PredicateDecl)
| DFunction (d : FunctionDecl) | DSynth (d : SynthDecl) | DCheck (d : CheckDecl)
| DCounterexample (d : CounterexampleDecl).

Record declared := mkDeclared { declaration : Declaration; declaration_node_id : nat }.

Record Document := mkDocument { document_span : SourceSpan; declarations : list declared }.

(** ** Induction through the nested lists *)

Section ExprInd.
Context (P : Expr -> Prop).
Context (step : forall k s n b i o es id,
  Forall P es -> P (mkExpr k s n b i o es id)).

Fixpoint Expr_nested_ind (e : Expr) : P e :=
  match e with
  | mkExpr k s n b i o es id =>
      step k s n b i o es id
        ((fix go (l : list Expr) : Forall P l :=
            match l with
            | [] => Forall_nil_2 P
            | x :: l' => Forall_cons_2 P x l' (Expr_nested_ind x) (go l')
            end) es)
  end.
End ExprInd.

Section TypeInd.
Context (P : Type_ -> Prop).
Context (step : forall k s n l, Forall P l -> P (mkType k s n l)).

Fixpoint Type_nested_ind (t : Type_) : P t :=
  match t with
  | mkType k s n args =>
      step k s n args
        ((fix go (l : list Type_) : Forall P l :=
            match l with
            | [] => Forall_nil_2 P
            | x :: l' => Forall_cons_2 P x l' (Type_nested_ind x) (go l')
            end) args)
  end.
End TypeInd.
