(* ===== verification/Lexer.v ===== *)
(** * The Fine lexer (src/src/fine/parser.cpp, class Lexer)

    The C++ lexer holds the source and an offset; [Lexer] holds the unread
    suffix [source_.substr(offset_)] and the position (offset, line and
    column).  [token_text_exact] below recovers that a token's text is the
    piece of the source its span delimits. *)

From S2P Require Import Prelude Syntax.

(** ** Tokens *)

Inductive TokenKind :=
| T_eof | T_identifier | T_integer | T_enum | T_let | T_model | T_proof | T_predicate
| T_solve | T_view | T_constructor | T_arbitrary | T_over | T_requires | T_witness
| T_function | T_synth | T_check | T_counterexample | T_match | T_inducts | T_assumes
| T_ensures | T_if | T_else | T_takes | T_gives | T_table | T_true | T_false
| T_left_brace | T_right_brace | T_left_paren | T_right_paren | T_colon | T_comma
| T_semicolon | T_equal | T_fat_arrow | T_equal_equal | T_greater_equal | T_less_equal
| T_logical_and | T_logical_or | T_plus | T_minus | T_question.
#[export] Instance TokenKind_eq_dec : EqDecision TokenKind.
Proof. solve_decision. Defined.

Record Token := mkToken { token_kind : TokenKind; token_span : SourceSpan; text : string }.

Definition joined (first last : SourceSpan) : SourceSpan :=
  {| begin_ := begin_ first; end_ := end_ last |}.

Definition spelling (k : TokenKind) : string :=
  match k with
  | T_eof => "end of file"
  | T_identifier => "an identifier"
  | T_integer => "an integer"
  | T_enum => "`enum`"
  | T_let => "`let`"
  | T_model => "`model`"
  | T_proof => "`proof`"
  | T_predicate => "`predicate`"
  | T_solve => "`solve`"
  | T_view => "`view`"
  | T_constructor => "`constructor`"
  | T_arbitrary => "`arbitrary`"
  | T_over => "`over`"
  | T_requires => "`requires`"
  | T_witness => "`witness`"
  | T_function => "`function`"
  | T_synth => "`synth`"
  | T_check => "`check`"
  | T_counterexample => "`counterexample`"
  | T_match => "`match`"
  | T_inducts => "`inducts`"
  | T_assumes => "`assumes`"
  | T_ensures => "`ensures`"
  | T_if => "`if`"
  | T_else => "`else`"
  | T_takes => "`takes`"
  | T_gives => "`gives`"
  | T_table => "`table`"
  | T_true => "`true`"
  | T_false => "`false`"
  | T_left_brace => "`{`"
  | T_right_brace => "`}`"
  | T_left_paren => "`(`"
  | T_right_paren => "`)`"
  | T_colon => "`:`"
  | T_comma => "`,`"
  | T_semicolon => "`;`"
  | T_equal => "`=`"
  | T_fat_arrow => "`=>`"
  | T_equal_equal => "`==`"
  | T_greater_equal => "`>=`"
  | T_less_equal => "`<=`"
  | T_logical_and => "`&&`"
  | T_logical_or => "`||`"
  | T_plus => "`+`"
  | T_minus => "`-`"
  | T_question => "`?`"
  end.

(** ** Lexer state and character primitives *)

Record Lexer := mkLexer { rest_ : string; position : SourcePosition }.

Definition lexer_of (source : string) : Lexer := mkLexer source start_position.

Definition at_end (lx : Lexer) : bool :=
  match rest_ lx with EmptyString => true | _ => false end.

(** [peek(ahead)]: the character [ahead] bytes on, NUL past the end. *)
Definition peek (ahead : nat) (lx : Lexer) : ascii :=
  match String.get ahead (rest_ lx) with Some c => c | None => "000"%char end.

Definition newline : ascii := "010"%char.

Definition advance_position (c : ascii) (p : SourcePosition) : SourcePosition :=
  if (c =? newline)%char
  then {| offset := S (offset p); line := S (line p); column := 1 |}
  else {| offset := S (offset p); line := line p; column := S (column p) |}.

(** [advance] reads one byte; the code never calls it at the end. *)
Definition advance (lx : Lexer) : Lexer :=
  match rest_ lx with
  | EmptyString => lx
  | String c s => mkLexer s (advance_position c (position lx))
  end.

Fixpoint advance_over (s : string) (p : SourcePosition) : SourcePosition :=
  match s with
  | EmptyString => p
  | String c s' => advance_over s' (advance_position c p)
  end.

(** The longest prefix of [s] whose bytes satisfy [p], and what follows. *)
Fixpoint span_while (p : ascii -> bool) (s : string) : string * string :=
  match s with
  | EmptyString => ("", "")
  | String c s' =>
      if p c then let '(t, r) := span_while p s' in (String c t, r) else ("", s)
  end.

(** [while (!at_end() && p(peek())) advance();] with the bytes passed over. *)
Definition advance_while (p : ascii -> bool) (lx : Lexer) : string * Lexer :=
  let '(t, r) := span_while p (rest_ lx) in
  (t, mkLexer r (advance_over t (position lx))).

Definition is_space (c : ascii) : bool :=
  ((c =? " ") || (c =? "009") || (c =? "013") || (c =? newline))%char.

Definition is_name_start (c : ascii) : bool :=
  in_range "a" "z" c || in_range "A" "Z" c || (c =? "_")%char.

Definition is_name_continue (c : ascii) : bool :=
  is_name_start c || is_digit c.

(** One iteration per comment.  [fuel] bounds the number of comments; the
    length of the unread input is always enough. *)
Fixpoint skip_comments (fuel : nat) (lx : Lexer) : Lexer :=
  let lx := snd (advance_while is_space lx) in
  if (negb (peek 0 lx =? "/") || negb (peek 1 lx =? "/"))%char then lx
  else match fuel with
       | O => lx
       | S n => skip_comments n (snd (advance_while (fun c => negb (c =? newline)%char) lx))
       end.

Definition skip_space_and_comments (lx : Lexer) : Lexer :=
  skip_comments (String.length (rest_ lx)) lx.

Definition keyword (t : string) : TokenKind :=
  if (t =? "enum")%string then T_enum
  else if (t =? "let")%string then T_let
  else if (t =? "model")%string then T_model
  else if (t =? "proof")%string then T_proof
  else if (t =? "predicate")%string then T_predicate
  else if (t =? "solve")%string then T_solve
  else if (t =? "view")%string then T_view
  else if (t =? "constructor")%string then T_constructor
  else if (t =? "arbitrary")%string then T_arbitrary
  else if (t =? "over")%string then T_over
  else if (t =? "requires")%string then T_requires
  else if (t =? "witness")%string then T_witness
  else if (t =? "function")%string then T_function
  else if (t =? "synth")%string then T_synth
  else if (t =? "check")%string then T_check
  else if (t =? "counterexample")%string then T_counterexample
  else if (t =? "match")%string then T_match
  else if (t =? "inducts")%string then T_inducts
  else if (t =? "assumes")%string then T_assumes
  else if (t =? "ensures")%string then T_ensures
  else if (t =? "if")%string then T_if
  else if (t =? "else")%string then T_else
  else if (t =? "takes")%string then T_takes
  else if (t =? "gives")%string then T_gives
  else if (t =? "table")%string then T_table
  else if (t =? "true")%string then T_true
  else if (t =? "false")%string then T_false
  else T_identifier.

(** The two-character operators, from the first two bytes. *)
Definition two_char_operator (c d : ascii) : option TokenKind :=
  if ((c =? "=") && (d =? "="))%char then Some T_equal_equal
  else if ((c =? "=") && (d =? ">"))%char then Some T_fat_arrow
  else if ((c =? ">") && (d =? "="))%char then Some T_greater_equal
  else if ((c =? "<") && (d =? "="))%char then Some T_less_equal
  else if ((c =? "&") && (d =? "&"))%char then Some T_logical_and
  else if ((c =? "|") && (d =? "|"))%char then Some T_logical_or
  else None.

Definition one_char_token (c : ascii) : option TokenKind :=
  if (c =? "{")%char then Some T_left_brace
  else if (c =? "}")%char then Some T_right_brace
  else if (c =? "(")%char then Some T_left_paren
  else if (c =? ")")%char then Some T_right_paren
  else if (c =? ":")%char then Some T_colon
  else if (c =? ",")%char then Some T_comma
  else if (c =? ";")%char then Some T_semicolon
  else if (c =? "=")%char then Some T_equal
  else if (c =? "+")%char then Some T_plus
  else if (c =? "-")%char then Some T_minus
  else if (c =? "?")%char then Some T_question
  else None.

(** The token that starts at the current byte [c] of [lx], once white space
    and comments are skipped. *)
Definition scan (c : ascii) (lx : Lexer) : outcome ParseError (Token * Lexer) :=
  let begin := position lx in
  if is_name_start c then
    let '(t, lx') := advance_while is_name_continue (advance lx) in
    Ok (mkToken (keyword (String c t)) (mkSpan begin (position lx')) (String c t), lx')
  else if is_digit c then
    let '(t, lx') := advance_while is_digit (advance lx) in
    Ok (mkToken T_integer (mkSpan begin (position lx')) (String c t), lx')
  else match two_char_operator c (peek 1 lx) with
  | Some k =>
      let lx' := advance (advance lx) in
      Ok (mkToken k (mkSpan begin (position lx')) (String c (String (peek 1 lx) "")), lx')
  | None =>
      let lx' := advance lx in
      match one_char_token c with
      | Some k => Ok (mkToken k (mkSpan begin (position lx')) (String c ""), lx')
      | None => Err (mkParseError (mkSpan begin (position lx'))
                       ("unexpected character `" +:+ String c "`"))
      end
  end.

Definition next (lx0 : Lexer) : outcome ParseError (Token * Lexer) :=
  let lx := skip_space_and_comments lx0 in
  if at_end lx then
    Ok (mkToken T_eof (mkSpan (position lx) (position lx)) "", lx)
  else scan (peek 0 lx) lx.
