(* ===== verification/Printer.v ===== *)
(** * Printing Fine expressions (src/src/fine/runtime.cpp)

    [print_expression] is what the runtime writes when it returns a lifted
    term as Fine source; every witness it prints is parsed back. *)

From S2P Require Import Prelude Syntax Lexer.

Definition operator_text (op : BinaryOp) : string :=
  match op with
  | OpEqual => "=="
  | OpGreaterEqual => ">="
  | OpLessEqual => "<="
  | OpLogicalAnd => "&&"
  | OpLogicalOr => "||"
  | OpAdd => "+"
  | OpSubtract => "-"
  end.

(** The elements of a binary or conditional node are read by index; a node
    without them is outside the behaviour of the code and prints as "". *)
Fixpoint print_expression (e : Expr) : string :=
  match e with
  | mkExpr k _ n b i op es _ =>
      match k with
      | EName => n
      | EBoolean => if b then "true" else "false"
      | EInteger => i
      | ECall => n +:+ "(" +:+ String.concat ", " (List.map print_expression es) +:+ ")"
      | ETuple => "(" +:+ String.concat ", " (List.map print_expression es) +:+ ")"
      | EBinary =>
          match es with
          | l :: r :: _ => "(" +:+ print_expression l +:+ " " +:+ operator_text op +:+ " " +:+
                           print_expression r +:+ ")"
          | _ => ""
          end
      | EConditional =>
          match es with
          | c :: y :: z :: _ => "if " +:+ print_expression c +:+ " { " +:+ print_expression y +:+
                                " } else { " +:+ print_expression z +:+ " }"
          | _ => ""
          end
      | EHole => "?" +:+ n
      end
  end.

(** ** Expressions that have a source form *)

Definition is_name (n : string) : bool :=
  match n with
  | EmptyString => false
  | String c s => is_name_start c && all_chars is_name_continue s
  end.

(** A name the lexer reads as an identifier rather than a keyword. *)
Definition is_identifier (n : string) : bool :=
  is_name n && bool_decide (keyword n = T_identifier).

Definition is_numeral (i : string) : bool :=
  match i with EmptyString => false | _ => all_chars is_digit i end.

Definition is_integer (i : string) : bool :=
  match i with
  | String c s => if (c =? "-")%char then is_numeral s else is_numeral i
  | EmptyString => false
  end.

Definition kind_printable (k : ExprKind) (n i : string) (count : nat) : bool :=
  match k with
  | EName | EHole => is_identifier n && (count =? 0)
  | EBoolean => count =? 0
  | EInteger => is_integer i && (count =? 0)
  | ECall => is_identifier n
  | ETuple => 2 <=? count
  | EBinary => count =? 2
  | EConditional => count =? 3
  end.

Fixpoint printable (e : Expr) : bool :=
  match e with
  | mkExpr k _ n _ i _ es _ => kind_printable k n i (length es) && forallb printable es
  end.

(** What an expression says: its kind and the fields that kind uses, without
    spans and identifiers. *)
Fixpoint erase (e : Expr) : Expr :=
  match e with
  | mkExpr k _ n b i op es _ =>
      mkExpr k default_span
        (match k with EName | ECall | EHole => n | _ => "" end)
        (match k with EBoolean => b | _ => false end)
        (match k with EInteger => i | _ => "" end)
        (match k with EBinary => op | _ => OpEqual end)
        (List.map erase es) 0
  end.
