(* ===== verification/LexerSpec.v ===== *)
(** * Correctness of the Fine lexer

    A lexer state [lx] [reads] a source when its suffix and position are what
    scanning some prefix of the source leaves.  [next_spec] says that from
    such a state [next] returns a token whose span delimits exactly the
    token's text, with line and column those of its offset, and that every
    token but end-of-file consumes at least one byte. *)

From S2P Require Import Prelude Syntax Lexer Printer.

(** ** Positions *)

(** How many newlines a text has, and what follows the last one. *)
Fixpoint newlines (s : string) : nat :=
  match s with
  | EmptyString => 0
  | String c s' => if (c =? newline)%char then S (newlines s') else newlines s'
  end.
Fixpoint last_line (s : string) : string :=
  match s with
  | EmptyString => ""
  | String c s' => if newlines s' =? 0 then if (c =? newline)%char then s' else s else last_line s'
  end.

(** The line and column of offset [n]: lines are counted by the newlines before
    it, columns from the last of them, both from one. *)
Definition position_at (src : string) (n : nat) : SourcePosition :=
  let before := substring 0 n src in mkPosition n (S (newlines before)) (S (String.length (last_line before))).

Definition pos_ok (src : string) (p : SourcePosition) : Prop :=
  offset p <= String.length src /\ p = position_at src (offset p).

Definition span_ok (src : string) (s : SourceSpan) : Prop :=
  pos_ok src (begin_ s) /\ pos_ok src (end_ s) /\ offset (begin_ s) <= offset (end_ s).

(** The bytes of [src] a span delimits. *)
Definition slice (src : string) (s : SourceSpan) : string :=
  substring (offset (begin_ s)) (offset (end_ s) - offset (begin_ s)) src.

Lemma offset_advance_over s p : offset (advance_over s p) = offset p + String.length s.
Proof.
  revert p; induction s as [|c s IH]; intros p; simpl; [lia|].
  rewrite IH. unfold advance_position. destruct (c =? newline)%char; simpl; lia.
Qed.

Lemma substring_prefix a b : substring 0 (String.length a) (a +:+ b) = a.
Proof. induction a; simpl; [by destruct b|congruence]. Qed.

Lemma last_line_whole s : newlines s = 0 -> last_line s = s.
Proof. destruct s as [|c s]; [done|]. simpl. destruct (c =? newline)%char; [done|]. by intros ->. Qed.

Lemma advance_over_exact s p : advance_over s p =
  mkPosition (offset p + String.length s) (line p + newlines s)
    (if newlines s =? 0 then column p + String.length s else S (String.length (last_line s))).
Proof.
  revert p; induction s as [|c s IH]; intros [o l k]; simpl; [f_equal; lia|]. rewrite IH. unfold advance_position.
  destruct (c =? newline)%char; simpl; f_equal; try lia; destruct (newlines s =? 0); lia.
Qed.

Lemma position_at_scanned pre rest : advance_over pre start_position = position_at (pre +:+ rest) (String.length pre).
Proof.
  unfold position_at. rewrite substring_prefix, advance_over_exact. simpl. f_equal.
  destruct (Nat.eqb_spec (newlines pre) 0) as [E|]; [|done]. by rewrite last_line_whole.
Qed.

Lemma advance_over_app a b p : advance_over (a +:+ b) p = advance_over b (advance_over a p).
Proof. revert p; induction a; intros p; simpl; auto. Qed.

Lemma substring_middle a b c : substring (String.length a) (String.length b) (a +:+ b +:+ c) = b.
Proof. induction a; simpl; [apply substring_prefix|done]. Qed.

(** ** Lexer states of a source *)

Definition reads (src : string) (lx : Lexer) : Prop :=
  exists pre, src = pre +:+ rest_ lx /\ position lx = advance_over pre start_position.

Lemma reads_start src : reads src (lexer_of src).
Proof. by exists "". Qed.

Lemma reads_offset src lx :
  reads src lx -> offset (position lx) + String.length (rest_ lx) = String.length src.
Proof.
  intros (pre & -> & ->). rewrite offset_advance_over, length_append. simpl. lia.
Qed.

Lemma reads_pos_ok src lx : reads src lx -> pos_ok src (position lx).
Proof.
  intros H. split; [apply reads_offset in H; lia|].
  destruct H as (pre & -> & ->). rewrite offset_advance_over. apply position_at_scanned.
Qed.

(** [lx'] is [lx] after passing over the bytes [t]. *)
Definition passes (lx : Lexer) (t : string) (lx' : Lexer) : Prop :=
  rest_ lx = t +:+ rest_ lx' /\ position lx' = advance_over t (position lx).

Lemma passes_nil lx : passes lx "" lx.
Proof. done. Qed.

Lemma passes_app lx t lx' t' lx'' :
  passes lx t lx' -> passes lx' t' lx'' -> passes lx (t +:+ t') lx''.
Proof.
  intros [H1 H2] [H3 H4]. split; [by rewrite H1, H3, append_assoc|].
  by rewrite H4, H2, advance_over_app.
Qed.

Lemma passes_reads src lx t lx' : reads src lx -> passes lx t lx' -> reads src lx'.
Proof.
  intros (pre & -> & Hp) [Hr Hq]. exists (pre +:+ t).
  by rewrite Hr, Hq, Hp, append_assoc, advance_over_app.
Qed.

Lemma passes_offset lx t lx' :
  passes lx t lx' -> offset (position lx') = offset (position lx) + String.length t.
Proof. intros [_ ->]. apply offset_advance_over. Qed.

Lemma passes_slice src lx t lx' :
  reads src lx -> passes lx t lx' -> slice src (mkSpan (position lx) (position lx')) = t.
Proof.
  intros Hr Hp. pose proof (passes_offset _ _ _ Hp) as Ho. unfold slice; simpl.
  rewrite Ho. destruct Hr as (pre & -> & Hq). destruct Hp as [-> _].
  rewrite Hq, offset_advance_over. simpl.
  replace (String.length pre + String.length t - String.length pre) with (String.length t) by lia.
  apply substring_middle.
Qed.

Lemma passes_span_ok src lx t lx' :
  reads src lx -> passes lx t lx' -> span_ok src (mkSpan (position lx) (position lx')).
Proof.
  intros Hr Hp. split_and!; simpl; eauto using reads_pos_ok, passes_reads.
  rewrite (passes_offset _ _ _ Hp). lia.
Qed.

(** ** The scanning primitives *)

Lemma span_while_app p s t r : span_while p s = (t, r) -> s = t +:+ r.
Proof.
  revert t r; induction s as [|c s IH]; intros t r; simpl; [by intros [= <- <-]|].
  destruct (p c); [|by intros [= <- <-]].
  destruct (span_while p s) as [t' r'] eqn:E. intros [= <- <-]. simpl. f_equal. by apply IH.
Qed.

Lemma advance_while_passes p lx t lx' : advance_while p lx = (t, lx') -> passes lx t lx'.
Proof.
  unfold advance_while. destruct (span_while p (rest_ lx)) as [t' r] eqn:E.
  intros [= <- <-]. split; [|done]. by apply span_while_app in E.
Qed.

Lemma advance_passes lx c s : rest_ lx = String c s -> passes lx (String c "") (advance lx).
Proof. intros H. unfold passes, advance. by rewrite H. Qed.

Lemma skip_comments_passes n lx : exists t, passes lx t (skip_comments n lx).
Proof.
  revert lx; induction n as [|n IH]; intros lx; simpl;
    destruct (advance_while is_space lx) as [t lx1] eqn:E; simpl;
    apply advance_while_passes in E; destruct (_ || _); eauto.
  destruct (advance_while _ lx1) as [t' lx2] eqn:E'. simpl.
  apply advance_while_passes in E'. destruct (IH lx2) as [u Hu].
  eauto using passes_app.
Qed.

(** ** Tokens *)

(** The spelling of identifiers and integers. *)
Definition lexeme (k : TokenKind) (s : string) : Prop :=
  match k with T_identifier => is_identifier s = true | T_integer => is_numeral s = true | _ => True end.

Definition token_ok (src : string) (t : Token) : Prop :=
  span_ok src (token_span t) /\ text t = slice src (token_span t) /\ lexeme (token_kind t) (text t) /\
  (token_kind t <> T_eof -> offset (begin_ (token_span t)) < offset (end_ (token_span t))).

(** What [next] promises: the token read from [lx0], leaving [lx']. *)
Definition token_from (src : string) (lx0 : Lexer) (t : Token) (lx' : Lexer) : Prop :=
  reads src lx' /\ token_ok src t /\ end_ (token_span t) = position lx' /\
  offset (position lx0) <= offset (begin_ (token_span t)) /\
  (token_kind t = T_eof -> rest_ lx' = "").

Lemma keyword_not_eof t : keyword t <> T_eof.
Proof. unfold keyword. repeat case_match; done. Qed.

Lemma two_char_not_eof c d k : two_char_operator c d = Some k -> k <> T_eof.
Proof. unfold two_char_operator. repeat case_match; naive_solver. Qed.

Lemma one_char_not_eof c k : one_char_token c = Some k -> k <> T_eof.
Proof. unfold one_char_token. repeat case_match; naive_solver. Qed.

Lemma two_char_lexeme c d k s : two_char_operator c d = Some k -> lexeme k s.
Proof. unfold two_char_operator. repeat case_match; naive_solver. Qed.

Lemma one_char_lexeme c k s : one_char_token c = Some k -> lexeme k s.
Proof. unfold one_char_token. repeat case_match; naive_solver. Qed.

Lemma keyword_lexeme s : is_name s = true -> lexeme (keyword s) s.
Proof.
  intros Hs. destruct (keyword s) eqn:E; try done; simpl; [unfold is_identifier; by rewrite Hs, E|].
  revert E. unfold keyword. repeat case_match; done.
Qed.

Lemma advance_while_all p lx t lx' : advance_while p lx = (t, lx') -> all_chars p t = true.
Proof.
  unfold advance_while. destruct (span_while p (rest_ lx)) as [t' r] eqn:E. intros [= <- <-].
  revert t' r E. induction (rest_ lx) as [|c s IH]; intros t' r; simpl; [by intros [= <- <-]|].
  destruct (p c) eqn:Hc; [|by intros [= <- <-]]. destruct (span_while p s) as [u r'] eqn:E. intros [= <- <-].
  simpl. rewrite Hc. by eapply IH.
Qed.

Lemma two_char_nonzero c d k : two_char_operator c d = Some k -> d <> "000"%char.
Proof. intros H ->. revert H. unfold two_char_operator. simpl. by rewrite !andb_false_r. Qed.

(** A token spelled by the non-empty [t] between [lx] and [lx']. *)
Lemma token_of_passes src lx t lx' k :
  reads src lx -> passes lx t lx' -> t <> "" -> k <> T_eof -> lexeme k t ->
  token_from src lx (mkToken k (mkSpan (position lx) (position lx')) t) lx'.
Proof.
  intros Hr Hp Ht Hk Hl. pose proof (passes_offset _ _ _ Hp).
  split_and!; simpl; eauto using passes_reads; [|done].
  split_and!; simpl; eauto using passes_span_ok, eq_sym, passes_slice.
  intros _. destruct t; simpl in *; [done|lia].
Qed.

Lemma scan_spec src lx c s :
  reads src lx -> rest_ lx = String c s ->
  owp (scan c lx) (fun '(t, lx') => token_from src lx t lx') (fun e => span_ok src (error_span e)).
Proof.
  intros Hr Hs. pose proof (advance_passes _ _ _ Hs) as Ha. unfold scan.
  destruct (is_name_start c) eqn:Hc.
  { destruct (advance_while _ _) as [t lx'] eqn:E. pose proof (advance_while_all _ _ _ _ E) as Hall.
    apply advance_while_passes in E. simpl. apply token_of_passes; [done| |done|apply keyword_not_eof|].
    - apply (passes_app _ _ _ _ _ Ha E).
    - apply keyword_lexeme. simpl. by rewrite Hc, Hall. }
  destruct (is_digit c) eqn:Hd0.
  { destruct (advance_while _ _) as [t lx'] eqn:E. pose proof (advance_while_all _ _ _ _ E) as Hall.
    apply advance_while_passes in E. simpl. apply token_of_passes; [done| |done|done|].
    - apply (passes_app _ _ _ _ _ Ha E).
    - simpl. by rewrite Hd0, Hall. }
  destruct (two_char_operator c (peek 1 lx)) as [k|] eqn:E2; simpl.
  { pose proof (two_char_nonzero _ _ _ E2) as Hd. revert E2 Hd. unfold peek. rewrite Hs. simpl.
    destruct s as [|d s]; simpl; [done|]. intros E2 _.
    apply token_of_passes; eauto using two_char_not_eof, two_char_lexeme.
    apply (passes_app _ _ _ _ _ Ha). eapply advance_passes. unfold advance. by rewrite Hs. }
  destruct (one_char_token c) as [k|] eqn:E1; simpl; eauto using passes_span_ok.
  apply token_of_passes; eauto using one_char_not_eof, one_char_lexeme.
Qed.

Lemma next_spec src lx :
  reads src lx ->
  owp (next lx) (fun '(t, lx') => token_from src lx t lx') (fun e => span_ok src (error_span e)).
Proof.
  intros Hr. unfold next, skip_space_and_comments.
  destruct (skip_comments_passes (String.length (rest_ lx)) lx) as [t Hp].
  set (lx1 := skip_comments _ lx) in *. pose proof (passes_offset _ _ _ Hp) as Ho.
  pose proof (passes_reads _ _ _ _ Hr Hp) as Hr1. unfold at_end.
  destruct (rest_ lx1) as [|c s] eqn:E; simpl.
  { assert (pos_ok src (position lx1)) by by apply reads_pos_ok.
    split_and!; simpl; eauto; [|lia].
    split_and!; simpl; [split_and!; simpl; auto|..].
    - symmetry. apply (passes_slice src lx1 "" lx1); eauto using passes_nil.
    - done.
    - done. }
  unfold peek at 1. rewrite E. simpl.
  eapply owp_mono; [apply (scan_spec src lx1 c s); done| |done].
  intros [tk lx'] (?&?&?&?&?). split_and!; eauto. lia.
Qed.

(** ** White space and comments are skipped completely *)

(** No white space and no comment starts at the unread input. *)
Definition at_token (lx : Lexer) : Prop :=
  is_space (peek 0 lx) = false /\
  (peek 0 lx = "/"%char -> peek 1 lx <> "/"%char).

Lemma span_while_stops p s t r :
  span_while p s = (t, r) -> match r with String c _ => p c = false | EmptyString => True end.
Proof.
  revert t r; induction s as [|c s IH]; intros t r; simpl; [by intros [= <- <-]|].
  destruct (p c) eqn:E; [|by intros [= <- <-]].
  destruct (span_while p s) as [t' r'] eqn:E'. intros [= <- <-]. by eapply IH.
Qed.

Lemma skip_comments_at_token n lx :
  String.length (rest_ lx) <= n -> at_token (skip_comments n lx).
Proof.
  revert lx; induction n as [|n IH]; intros lx Hn; simpl;
    destruct (advance_while is_space lx) as [t lx1] eqn:E; simpl;
    pose proof (advance_while_passes _ _ _ _ E) as [Hr _];
    unfold advance_while in E; destruct (span_while _ _) as [t' r] eqn:E';
    injection E as <- <-; apply span_while_stops in E'; simpl in *;
    rewrite Hr, length_append in Hn.
  - destruct r; simpl in *; [done|lia].
  - destruct r as [|c r]; simpl in *; [done|].
    destruct (negb _ || negb _) eqn:Ec; simpl in *.
    + split; [done|]. intros H1 H2. by rewrite H1, H2 in Ec.
    + apply IH. apply orb_false_iff in Ec as [Ec _]. unfold peek in Ec; simpl in Ec.
      apply negb_false_iff, Ascii.eqb_eq in Ec as ->.
      destruct (advance_while _ _) as [u lx2] eqn:E2.
      pose proof (advance_while_passes _ _ _ _ E2) as [Hr2 _]. simpl in Hr2.
      simpl. unfold advance_while in E2. simpl in E2.
      destruct (span_while _ r) as [u' r'] eqn:E3 in E2. injection E2 as <- <-.
      simpl in *. apply span_while_app in E3. subst r. rewrite length_append in Hn. lia.
Qed.

(** The lexer's comment-skipping loop terminates with its work done: on
    every input it stops at a byte that starts neither white space nor a line
    comment, having consumed a prefix of the input and tracked its line and
    column. *)
Lemma skip_space_and_comments_complete (lx : Lexer) :
  at_token (skip_space_and_comments lx) /\
  exists t, passes lx t (skip_space_and_comments lx).
Proof.
  split; [by apply skip_comments_at_token|apply skip_comments_passes].
Qed.
