(* ===== verification/Parser.v ===== *)
(** * The Fine parser (src/src/fine/parser.cpp, class Parser)

    A recursive-descent parser with one token of look-ahead, as a state and
    error monad [P] over the lexer, the current token and the node counter.
    A C++ exception is [Err]; [Diverge] is exhausted fuel.  [fuel] bounds
    both the nesting depth and the iterations of every loop; [parse] and
    [parse_expression] supply more fuel than any input can use, which
    ParserSpec.v proves. *)

From S2P Require Import Prelude Syntax Lexer.

Record PState := mkPState {
  lexer_ : Lexer;
  current_ : Token;
  next_node_id_ : nat
}.

Definition P (A : Type) : Type := PState -> outcome ParseError (A * PState).

#[export] Instance P_ret : MRet P := fun A a st => Ok (a, st).
#[export] Instance P_bind : MBind P := fun A B k m st =>
  match m st with
  | Ok (a, st') => k a st'
  | Err e => Err e
  | Diverge => Diverge
  end.

Definition diverge {A} : P A := fun _ => Diverge.
Definition throw {A} (e : ParseError) : P A := fun _ => Err e.

(** ** Primitive operations of class Parser *)

Definition advance_token : P unit := fun st =>
  match next (lexer_ st) with
  | Ok (t, lx) => Ok (tt, mkPState lx t (next_node_id_ st))
  | Err e => Err e
  | Diverge => Diverge
  end.

Definition current : P Token := fun st => Ok (current_ st, st).

Definition current_kind : P TokenKind := fun st => Ok (token_kind (current_ st), st).

Definition fresh_id : P nat := fun st =>
  Ok (next_node_id_ st, mkPState (lexer_ st) (current_ st) (S (next_node_id_ st))).

Definition found (t : Token) : string :=
  if decide (token_kind t = T_eof) then "; found end of file"
  else "; found `" +:+ text t +:+ "`".

Definition fail {A} (message : string) : P A := fun st =>
  Err (mkParseError (token_span (current_ st)) (message +:+ found (current_ st))).

(** [take(kind, context)]; the empty context is the default argument. *)
Definition take_message (k : TokenKind) (context : string) : string :=
  "expected " +:+ spelling k +:+
  (if (context =? "")%string then "" else " " +:+ context).

Definition take (k : TokenKind) (context : string) : P Token :=
  t ← current;
  if decide (token_kind t = k) then (advance_token ;; mret t)
  else fail (take_message k context).

Definition accept (k : TokenKind) : P bool :=
  t ← current;
  if decide (token_kind t = k) then (advance_token ;; mret true) else mret false.

(** ** Loops *)

(** [while (current_.kind != stop) item();] collecting what [item] pushes. *)
Fixpoint until {A} (fuel : nat) (stop : TokenKind) (item : P A) : P (list A) :=
  k ← current_kind;
  if decide (k = stop) then mret []
  else match fuel with
       | O => diverge
       | S n => x ← item; xs ← until n stop item; mret (x :: xs)
       end.

(** [if (!accept(comma) && current_.kind != stop) fail(message);] *)
Definition separator (stop : TokenKind) (message : string) : P unit :=
  comma ← accept T_comma;
  if (comma : bool) then mret ()
  else k ← current_kind;
       if decide (k = stop) then mret () else fail message.

(** [while (accept(comma)) { if (current_.kind == right_paren) break; item(); }] *)
Fixpoint after_commas {A} (fuel : nat) (item : P A) : P (list A) :=
  comma ← accept T_comma;
  if (comma : bool) then
    k ← current_kind;
    if decide (k = T_right_paren) then mret []
    else match fuel with
         | O => diverge
         | S n => x ← item; xs ← after_commas n item; mret (x :: xs)
         end
  else mret [].

(** ** Types *)

Definition type_body (fuel : nat) (type : P Type_) : P Type_ :=
  k ← current_kind;
  if decide (k = T_left_paren) then
    first ← take T_left_paren "";
    a ← type;
    take T_comma "between tuple type elements" ;;
    b ← type;
    more ← after_commas fuel type;
    close ← take T_right_paren "to close the tuple type";
    mret (mkType TTuple (joined (token_span first) (token_span close)) "" (a :: b :: more))
  else
    name ← take T_identifier "as a type";
    k ← current_kind;
    if (negb (text name =? "Table")%string || negb (bool_decide (k = T_left_paren))) then
      mret (mkType TNamed (token_span name) (text name) [])
    else
      take T_left_paren "" ;;
      a ← type;
      take T_comma "between the table key and value types" ;;
      b ← type;
      close ← take T_right_paren "to close the table type";
      mret (mkType TTable (joined (token_span name) (token_span close)) "" [a; b]).

Fixpoint type (fuel : nat) : P Type_ :=
  match fuel with
  | O => diverge
  | S n => type_body n (type n)
  end.

(** ** Expressions *)

(** [identified] stores the next node identifier in a finished node. *)
Definition identified (e : nat -> Expr) : P Expr := id ← fresh_id; mret (e id).

Definition binary (op : BinaryOp) (left right : Expr) : P Expr :=
  identified (mkExpr EBinary (joined (span left) (span right)) "" false "" op [left; right]).

(** [for (;;) if (accept(op)) result = binary(op, result, operand()); else return result;] *)
Fixpoint left_associative (fuel : nat) (operator : TokenKind -> option BinaryOp)
    (operand : P Expr) (result : Expr) : P Expr :=
  k ← current_kind;
  match operator k with
  | None => mret result
  | Some op =>
      match fuel with
      | O => diverge
      | S n => advance_token ;;
               right ← operand;
               result' ← binary op result right;
               left_associative n operator operand result'
      end
  end.

Definition additive_op (k : TokenKind) : option BinaryOp :=
  match k with T_plus => Some OpAdd | T_minus => Some OpSubtract | _ => None end.
Definition relational_op (k : TokenKind) : option BinaryOp :=
  match k with T_greater_equal => Some OpGreaterEqual | T_less_equal => Some OpLessEqual
  | _ => None end.
Definition equality_op (k : TokenKind) : option BinaryOp :=
  match k with T_equal_equal => Some OpEqual | _ => None end.
Definition and_op (k : TokenKind) : option BinaryOp :=
  match k with T_logical_and => Some OpLogicalAnd | _ => None end.
Definition or_op (k : TokenKind) : option BinaryOp :=
  match k with T_logical_or => Some OpLogicalOr | _ => None end.

Section Expressions.
Context (fuel : nat) (expr : P Expr).

Definition hole : P Expr :=
  first ← take T_question "";
  name ← take T_identifier "as the hole name";
  identified (mkExpr EHole (joined (token_span first) (token_span name)) (text name)
                false "" OpEqual []).

Definition name_or_call : P Expr :=
  name ← take T_identifier "";
  call ← accept T_left_paren;
  if (call : bool) then
    args ← until fuel T_right_paren
      (e ← expr; separator T_right_paren "expected `,` or `)` after a call argument" ;; mret e);
    close ← take T_right_paren "to close the constructor call";
    identified (mkExpr ECall (joined (token_span name) (token_span close)) (text name)
                  false "" OpEqual args)
  else identified (mkExpr EName (token_span name) (text name) false "" OpEqual []).

Definition boolean : P Expr :=
  value ← current;
  advance_token ;;
  identified (mkExpr EBoolean (token_span value) "" (bool_decide (token_kind value = T_true))
                "" OpEqual []).

Definition integer : P Expr :=
  value ← take T_integer "";
  identified (mkExpr EInteger (token_span value) "" false (text value) OpEqual []).

Definition negative_integer : P Expr :=
  first ← take T_minus "";
  value ← take T_integer "after unary `-`";
  identified (mkExpr EInteger (joined (token_span first) (token_span value)) "" false
                ("-" +:+ text value) OpEqual []).

Definition conditional : P Expr :=
  first ← take T_if "";
  condition ← expr;
  take T_left_brace "before the true branch" ;;
  yes ← expr;
  take T_right_brace "after the true branch" ;;
  take T_else "after the true branch" ;;
  take T_left_brace "before the false branch" ;;
  no ← expr;
  close ← take T_right_brace "after the false branch";
  identified (mkExpr EConditional (joined (token_span first) (token_span close)) "" false ""
                OpEqual [condition; yes; no]).

Definition group_or_tuple : P Expr :=
  first ← take T_left_paren "";
  first_element ← expr;
  comma ← accept T_comma;
  if negb comma then
    take T_right_paren "to close the grouped expression" ;; mret first_element
  else
    second ← expr;
    more ← after_commas fuel expr;
    close ← take T_right_paren "to close the tuple";
    identified (mkExpr ETuple (joined (token_span first) (token_span close)) "" false ""
                  OpEqual (first_element :: second :: more)).

Definition primary : P Expr :=
  k ← current_kind;
  match k with
  | T_question => hole
  | T_identifier => name_or_call
  | T_true | T_false => boolean
  | T_integer => integer
  | T_minus => negative_integer
  | T_if => conditional
  | T_left_paren => group_or_tuple
  | _ => fail "expected a name, call, integer, Boolean, tuple, conditional, or hole expression"
  end.

Definition additive : P Expr :=
  e ← primary; left_associative fuel additive_op primary e.
Definition relational : P Expr :=
  e ← additive; left_associative fuel relational_op additive e.
Definition equality : P Expr :=
  e ← relational; left_associative fuel equality_op relational e.
Definition logical_and : P Expr :=
  e ← equality; left_associative fuel and_op equality e.
Definition logical_or : P Expr :=
  e ← logical_and; left_associative fuel or_op logical_and e.
End Expressions.

Fixpoint expr (fuel : nat) : P Expr :=
  match fuel with
  | O => diverge
  | S n => logical_or n (expr n)
  end.

(** ** Clauses shared by declarations *)

Section Declarations.
Context (fuel : nat).

Let type_ : P Type_ := type fuel.
Let expr_ : P Expr := expr fuel.

Definition parameter : P Parameter_ :=
  name ← take T_identifier "as a parameter name";
  take T_colon "after the parameter name" ;;
  ty ← type_;
  separator T_right_paren "expected `,` or `)` after a parameter" ;;
  mret (mkParameter (joined (token_span name) (type_span ty)) (text name) ty).

Definition parameters : P (list Parameter_) :=
  take T_left_paren "" ;;
  result ← until fuel T_right_paren parameter;
  take T_right_paren "" ;;
  mret result.

Definition named_argument : P NamedArgument :=
  name ← take T_identifier "as a named argument";
  take T_colon "after the argument name" ;;
  value ← expr_;
  separator T_right_paren "expected `,` or `)` after a named argument" ;;
  mret (mkNamedArgument (joined (token_span name) (span value)) (text name) value).

Definition arguments : P (list NamedArgument) :=
  take T_left_paren "" ;;
  result ← until fuel T_right_paren named_argument;
  take T_right_paren "" ;;
  mret result.

(** An expression followed by a semicolon. *)
Definition condition (after : string) : P Expr :=
  e ← expr_; take T_semicolon after ;; mret e.

Definition condition_block (keyword : TokenKind) (description : string) (allow_empty : bool)
    : P (list Expr) :=
  take keyword description ;;
  take T_left_brace "after the clause name" ;;
  result ← until fuel T_right_brace (condition "after a condition");
  (if negb allow_empty && bool_decide (result = [])
   then fail "the clause needs at least one condition" else mret tt) ;;
  take T_right_brace "to close the clause" ;;
  mret result.

Definition table_entry : P TableEntry :=
  k ← current_kind;
  if decide (k = T_eof) then fail "expected `}` to close the table literal"
  else
    key ← expr_;
    take T_colon "between a table key and value" ;;
    value ← expr_;
    separator T_right_brace "expected `,` or `}` after a table entry" ;;
    mret (mkTableEntry (joined (span key) (span value)) key value).

Definition table_literal : P TableLiteral :=
  first ← take T_table "as the value of a table binding";
  take T_left_paren "after `table`" ;;
  default_name ← take T_identifier "for the table option `default`";
  (if (text default_name =? "default")%string then mret tt
   else throw (mkParseError (token_span default_name)
     ("expected the table option `default`; found `" +:+ text default_name +:+ "`"))) ;;
  take T_colon "after `default`" ;;
  default_value ← expr_;
  take T_right_paren "after the default value" ;;
  take T_left_brace "to begin the table entries" ;;
  entries ← until fuel T_right_brace table_entry;
  close ← take T_right_brace "";
  mret (mkTableLiteral (joined (token_span first) (token_span close)) default_value entries).

(** ** Enumerations *)

Definition enum_field : P EnumField :=
  field_name ← take T_identifier "as a constructor field name";
  take T_colon "after the constructor field name" ;;
  field_type ← type_;
  separator T_right_paren "expected `,` or `)` after a constructor field" ;;
  mret (mkEnumField (joined (token_span field_name) (type_span field_type))
          (text field_name) field_type).

Definition enum_case : P EnumCase :=
  item ← take T_identifier "as an enum case";
  has_fields ← accept T_left_paren;
  if (has_fields : bool) then
    fields ← until fuel T_right_paren enum_field;
    close ← take T_right_paren "to close the constructor fields";
    mret (mkEnumCase (joined (token_span item) (token_span close)) (text item) fields)
  else mret (mkEnumCase (token_span item) (text item) []).

(** [for (;;) { case; if (!accept(comma)) break; if (current == right_brace) break; }] *)
Fixpoint enum_cases_loop (n : nat) : P (list EnumCase) :=
  c ← enum_case;
  comma ← accept T_comma;
  if negb comma then mret [c]
  else k ← current_kind;
       if decide (k = T_right_brace) then mret [c]
       else match n with
            | O => diverge
            | S n => cs ← enum_cases_loop n; mret (c :: cs)
            end.

Definition enum_decl : P EnumDecl :=
  first ← take T_enum "";
  name ← take T_identifier "after `enum`";
  take T_left_brace "after the enum name" ;;
  k ← current_kind;
  (if decide (k = T_right_brace) then fail "an enum needs at least one case" else mret tt) ;;
  cases ← enum_cases_loop fuel;
  close ← take T_right_brace "to close the enum";
  mret (mkEnumDecl (joined (token_span first) (token_span close)) (text name) cases).

(** ** Tables and models *)

Definition let_decl : P LetDecl :=
  first ← take T_let "";
  name ← take T_identifier "after `let`";
  take T_colon "after the binding name" ;;
  annotation ← type_;
  (if decide (type_kind annotation = TTable) then mret tt
   else fail "a `let` in this source slice must have a `Table(key, value)` type") ;;
  take T_equal "after the binding type" ;;
  value ← table_literal;
  close ← take T_semicolon "after the table literal";
  mret (mkLetDecl (joined (token_span first) (token_span close)) (text name) annotation value).

Definition model_decl : P ModelDecl :=
  first ← take T_model "";
  name ← take T_identifier "after `model`";
  take T_colon "after the model-hole name" ;;
  annotation ← type_;
  (if decide (type_kind annotation = TTable) then mret tt
   else fail "a `model` declaration must have an array-shaped `Table(key, value)` type") ;;
  has_value ← accept T_equal;
  value ← (if (has_value : bool) then v ← table_literal; mret (Some v) else mret None);
  close ← take T_semicolon "after the model declaration";
  mret (mkModelDecl (joined (token_span first) (token_span close)) (text name) annotation value).

(** ** Solve and view *)

Definition solve_decl : P SolveDecl :=
  first ← take T_solve "";
  name ← take T_identifier "after `solve`";
  take T_left_brace "after the solve name" ;;
  take T_takes "as the first solve clause" ;;
  takes ← arguments;
  take T_semicolon "after `takes(...)`" ;;
  take T_gives "after the `takes` clause" ;;
  take T_left_paren "after `gives`" ;;
  gives ← expr_;
  take T_right_paren "after the result expression" ;;
  take T_semicolon "after `gives(...)`" ;;
  close ← take T_right_brace "to close the solve declaration";
  mret (mkSolveDecl (joined (token_span first) (token_span close)) (text name) takes gives).

Definition view_decl : P ViewDecl :=
  first ← take T_view "";
  name ← take T_identifier "after `view`";
  params ← parameters;
  take T_over "after the view parameters" ;;
  carrier ← type_;
  take T_left_brace "after the view carrier" ;;
  requirements ← condition_block T_requires "as the view proposition" false;
  has_witness ← accept T_witness;
  witness ← (if (has_witness : bool)
             then e ← condition "after the view witness"; mret (Some e)
             else mret None);
  close ← take T_right_brace "to close the view declaration";
  mret (mkViewDecl (joined (token_span first) (token_span close)) (text name) params carrier
          requirements witness).

(** ** Predicates *)

Definition arbitrary_premise : P ArbitraryPremise :=
  arbitrary ← take T_arbitrary "";
  binder ← take T_identifier "as the arbitrary-fresh name";
  take T_colon "after the arbitrary-fresh name" ;;
  view ← take T_identifier "as a constrained view";
  take T_left_paren "after the constrained-view name" ;;
  args ← until fuel T_right_paren
    (e ← expr_;
     separator T_right_paren "expected `,` or `)` after a constrained-view argument" ;; mret e);
  take T_right_paren "to close the constrained-view arguments" ;;
  take T_left_brace "before the arbitrary-fresh premises" ;;
  scoped ← until fuel T_right_brace (condition "after an arbitrary-fresh premise");
  close ← take T_right_brace "to close the arbitrary-fresh premise";
  (if bool_decide (scoped = [])
   then fail "an arbitrary-fresh field needs at least one recursive premise" else mret tt) ;;
  id ← fresh_id;
  mret (mkArbitraryPremise (joined (token_span arbitrary) (token_span close)) (text binder)
          (text view) args scoped id).

(** One iteration of the [takes] loop: an ordinary premise or an arbitrary
    field; the code pushes each onto its own vector. *)
Definition takes_item : P (Expr + ArbitraryPremise) :=
  k ← current_kind;
  if decide (k = T_arbitrary) then a ← arbitrary_premise; mret (inr a)
  else e ← condition "after a predicate-constructor premise"; mret (inl e).

Definition ordinary (l : list (Expr + ArbitraryPremise)) : list Expr :=
  omap (fun x => match x with inl e => Some e | inr _ => None end) l.
Definition arbitraries (l : list (Expr + ArbitraryPremise)) : list ArbitraryPremise :=
  omap (fun x => match x with inl _ => None | inr a => Some a end) l.

Definition predicate_constructor : P PredicateConstructor :=
  constructor ← take T_constructor "in a predicate";
  constructor_name ← take T_identifier "after `constructor`";
  params ← parameters;
  take T_left_brace "after the constructor parameters" ;;
  take T_takes "as the first constructor clause" ;;
  take T_left_brace "after `takes`" ;;
  items ← until fuel T_right_brace takes_item;
  take T_right_brace "to close `takes`" ;;
  take T_gives "after `takes`" ;;
  result ← expr_;
  take T_semicolon "after the constructor result" ;;
  close ← take T_right_brace "to close the constructor";
  mret (mkPredicateConstructor (joined (token_span constructor) (token_span close))
          (text constructor_name) params (ordinary items) (arbitraries items) result).

Definition predicate_decl : P PredicateDecl :=
  first ← take T_predicate "";
  name ← take T_identifier "after `predicate`";
  indices ← parameters;
  (if bool_decide (indices = []) then fail "a predicate needs at least one index"
   else mret tt) ;;
  take T_left_brace "after the predicate indices" ;;
  constructors ← until fuel T_right_brace predicate_constructor;
  (if bool_decide (constructors = []) then fail "a predicate needs at least one constructor"
   else mret tt) ;;
  close ← take T_right_brace "to close the predicate";
  mret (mkPredicateDecl (joined (token_span first) (token_span close)) (text name) indices
          constructors).

(** ** Functions and synthesis *)

Definition match_binding : P MatchBinding :=
  binding ← take T_identifier "as a pattern binding";
  separator T_right_paren "expected `,` or `)` after a pattern binding" ;;
  mret (mkMatchBinding (token_span binding) (text binding)).

Definition match_arm : P MatchArm :=
  constructor ← take T_identifier "as a match constructor";
  has_bindings ← accept T_left_paren;
  pattern ← (if (has_bindings : bool) then
               bindings ← until fuel T_right_paren match_binding;
               close ← take T_right_paren "to close the pattern";
               mret (bindings, joined (token_span constructor) (token_span close))
             else mret ([], token_span constructor));
  take T_fat_arrow "after the match pattern" ;;
  value ← expr_;
  separator T_right_brace "expected `,` or `}` after a match arm" ;;
  mret (mkMatchArm (joined (pattern.2) (span value)) (text constructor) (pattern.1) value).

Definition function_decl : P FunctionDecl :=
  first ← take T_function "";
  name ← take T_identifier "after `function`";
  inputs ← parameters;
  take T_colon "before the function result type" ;;
  result_type ← type_;
  take T_left_brace "before the function body" ;;
  take T_match "as the function body" ;;
  scrutinee ← expr_;
  take T_left_brace "after the matched expression" ;;
  arms ← until fuel T_right_brace match_arm;
  (if bool_decide (arms = []) then fail "a function match needs at least one arm"
   else mret tt) ;;
  take T_right_brace "to close the match" ;;
  close ← take T_right_brace "to close the function";
  mret (mkFunctionDecl (joined (token_span first) (token_span close)) (text name) inputs
          result_type scrutinee arms).

Definition synth_match : P (option Expr * list MatchArm) :=
  k ← current_kind;
  if decide (k = T_match) then
    take T_match "" ;;
    scrutinee ← expr_;
    take T_left_brace "after the matched expression" ;;
    arms ← until fuel T_right_brace match_arm;
    (if bool_decide (arms = []) then fail "a synthesis match needs at least one arm"
     else mret tt) ;;
    take T_right_brace "to close the synthesis match" ;;
    mret (Some scrutinee, arms)
  else mret (None, []).

Definition synth_decl : P SynthDecl :=
  first ← take T_synth "";
  name ← take T_identifier "after `synth`";
  params ← parameters;
  take T_colon "before the synthesized result type" ;;
  result_type ← type_;
  take T_left_brace "before the synthesis specification" ;;
  matched ← synth_match;
  take T_ensures "as the synthesis specification" ;;
  take T_left_brace "after `ensures`" ;;
  ensures ← until fuel T_right_brace (condition "after an ensured condition");
  (if bool_decide (ensures = []) then fail "a synthesis declaration needs at least one condition"
   else mret tt) ;;
  take T_right_brace "to close `ensures`" ;;
  close ← take T_right_brace "to close the synthesis declaration";
  mret (mkSynthDecl (joined (token_span first) (token_span close)) (text name) params
          result_type (matched.1) (matched.2) ensures).

(** ** Checks and counterexamples *)

(** The [inducts(...)] clause: the parameter, its span, the predicate call. *)
Definition inducts_clause : P (option string * option SourceSpan * option Expr) :=
  k ← current_kind;
  if decide (k = T_inducts) then
    first_inducts ← take T_inducts "";
    take T_left_paren "after `inducts`" ;;
    target ← expr_;
    close_inducts ← take T_right_paren "after the induction parameter";
    take T_semicolon "after `inducts(...)`" ;;
    let induction_span := joined (token_span first_inducts) (token_span close_inducts) in
    match kind target with
    | EName => mret (Some (name target), Some induction_span, None)
    | ECall => mret (None, Some induction_span, Some target)
    | _ => throw (mkParseError induction_span
                    "`inducts` needs a parameter name or direct predicate call")
    end
  else mret (None, None, None).

Definition check_decl_after (first : Token) (reusable : bool) (keyword : string) : P CheckDecl :=
  name ← take T_identifier ("after `" +:+ keyword +:+ "`");
  inputs ← parameters;
  take T_left_brace ("before the " +:+ keyword +:+ " specification") ;;
  induction ← inducts_clause;
  assumes ← condition_block T_assumes "as the first check clause" true;
  ensures ← condition_block T_ensures "after `assumes`" false;
  close ← take T_right_brace "to close the check declaration";
  mret (mkCheckDecl (joined (token_span first) (token_span close)) reusable (text name) inputs
          (induction.1.1) (induction.1.2) (induction.2) assumes ensures).

Definition proof_decl : P CheckDecl :=
  first ← take T_proof ""; check_decl_after first true "proof".

Definition check_decl (reusable : bool) : P CheckDecl :=
  first ← take T_check ""; check_decl_after first reusable "check".

Definition counterexample_entry : P CounterexampleEntry :=
  entry_name ← take T_identifier "as an assignment name";
  take T_colon "after the assignment name" ;;
  entry_type ← type_;
  take T_equal "after the assignment type" ;;
  entry_value ← expr_;
  close ← take T_semicolon "after the assignment";
  mret (mkCounterexampleEntry (joined (token_span entry_name) (token_span close))
          (text entry_name) entry_type entry_value).

Definition counterexample_decl : P CounterexampleDecl :=
  first ← take T_counterexample "";
  name ← take T_identifier "after `counterexample`";
  take T_left_brace "before the assignments" ;;
  entries ← until fuel T_right_brace counterexample_entry;
  close ← take T_right_brace "to close the counterexample";
  mret (mkCounterexampleDecl (joined (token_span first) (token_span close)) (text name) entries).

(** ** Documents *)

Definition any_declaration : P Declaration :=
  k ← current_kind;
  match k with
  | T_enum => d ← enum_decl; mret (DEnum d)
  | T_let => d ← let_decl; mret (DLet d)
  | T_model => d ← model_decl; mret (DModel d)
  | T_proof => d ← proof_decl; mret (DCheck d)
  | T_predicate => d ← predicate_decl; mret (DPredicate d)
  | T_solve => d ← solve_decl; mret (DSolve d)
  | T_view => d ← view_decl; mret (DView d)
  | T_function => d ← function_decl; mret (DFunction d)
  | T_synth => d ← synth_decl; mret (DSynth d)
  | T_check => d ← check_decl false; mret (DCheck d)
  | T_counterexample => d ← counterexample_decl; mret (DCounterexample d)
  | _ => fail "expected a Fine declaration"
  end.

(** A declaration and the node identifier [document] gives it afterwards. *)
Definition declaration_item : P declared :=
  d ← any_declaration; id ← fresh_id; mret (mkDeclared d id).

Definition document : P Document :=
  first ← current;
  ds ← until fuel T_eof declaration_item;
  last ← current;
  mret (mkDocument (mkSpan (begin_ (token_span first)) (end_ (token_span last))) ds).

Definition expression_document : P Expr :=
  result ← expr_; take T_eof "after the expression" ;; mret result.
End Declarations.

(** ** Entry points *)

(** The [Parser] constructor reads the first token. *)
Definition run {A} (p : P A) (source : string) : outcome ParseError A :=
  match next (lexer_of source) with
  | Ok (t, lx) =>
      match p (mkPState lx t 0) with
      | Ok (a, _) => Ok a
      | Err e => Err e
      | Diverge => Diverge
      end
  | Err e => Err e
  | Diverge => Diverge
  end.

Definition enough_fuel (source : string) : nat := S (S (String.length source)).

Definition parse (source : string) : outcome ParseError Document :=
  run (document (enough_fuel source)) source.

Definition parse_expression (source : string) : outcome ParseError Expr :=
  run (expression_document (enough_fuel source)) source.
