(* ===== verification/ParserSpec.v ===== *)
(** * Totality and well-formedness of the Fine parser

    One specification, [spec], covers every parsing function: from a good
    state it never diverges while the fuel exceeds the measure of the state,
    an error carries a span inside the source, and a value has spans that lie
    between the tokens it was parsed from, node identifiers that were handed
    out while it was parsed, and the shape its kind demands. *)

From S2P Require Import Prelude Syntax Lexer Printer LexerSpec Parser.

(** ** What is checked of a syntax node *)

(** [spans_of] and [ids_of] list every span and node identifier of a value;
    [shape_of] is the arity discipline of its expressions. *)
Class Node (A : Type) := {
  spans_of : A -> list SourceSpan;
  ids_of : A -> list nat;
  shape_of : A -> Prop
}.

(** Identifiers drawn without repetition from the interval [i, j). *)
Definition ids_in (i j : nat) (l : list nat) : Prop :=
  NoDup l /\ Forall (fun n => i <= n < j) l.

Lemma ids_in_nil i j : ids_in i j [].
Proof. split; constructor. Qed.

Lemma ids_in_weaken i j i' j' l : ids_in i j l -> i' <= i -> j <= j' -> ids_in i' j' l.
Proof. intros [? H] ??. split; [done|]. eapply Forall_impl; [exact H|simpl; lia]. Qed.

Lemma ids_in_app i m j l1 l2 : ids_in i m l1 -> ids_in m j l2 -> i <= m -> m <= j ->
  ids_in i j (l1 ++ l2).
Proof.
  intros [N1 F1] [N2 F2] ??. rewrite Forall_forall in F1, F2. split.
  - apply NoDup_app. split_and!; [done| |done]. intros x H1 H2.
    apply F1 in H1. apply F2 in H2. lia.
  - apply Forall_app; split; apply Forall_forall; intros x Hx;
      [apply F1 in Hx|apply F2 in Hx]; lia.
Qed.

Lemma ids_in_single n : ids_in n (S n) [n].
Proof. split; [apply NoDup_singleton|by repeat constructor]. Qed.

Section WithSource.
Context (src : string).

(** The span lies in the source between the offsets [lo] and [hi]. *)
Definition span_in (lo hi : nat) (s : SourceSpan) : Prop :=
  span_ok src s /\ lo <= offset (begin_ s) /\ offset (end_ s) <= hi.

Definition node_ok {A} `{Node A} (lo hi i j : nat) (a : A) : Prop :=
  Forall (span_in lo hi) (spans_of a) /\ ids_in i j (ids_of a) /\ shape_of a.

Lemma span_in_weaken lo hi lo' hi' s :
  span_in lo hi s -> lo' <= lo -> hi <= hi' -> span_in lo' hi' s.
Proof. intros (?&?&?) ??. split_and!; [done|lia..]. Qed.

Lemma node_ok_weaken {A} `{Node A} lo hi i j lo' hi' i' j' (a : A) :
  node_ok lo hi i j a -> lo' <= lo -> hi <= hi' -> i' <= i -> j <= j' ->
  node_ok lo' hi' i' j' a.
Proof.
  intros (Hs & Hi & Hh) ????. split_and!; [|by eapply ids_in_weaken|done].
  eapply Forall_impl; [exact Hs|]. eauto using span_in_weaken.
Qed.

Lemma span_in_joined lo mid mid' hi a b :
  span_in lo mid a -> span_in mid' hi b -> mid <= mid' -> span_in lo hi (joined a b).
Proof.
  intros ((A1&A2&A3)&?&?) ((B1&B2&B3)&?&?) ?. split_and!; simpl; [split_and!|..]; simpl;
    auto; lia.
Qed.

(** ** Good parser states and their measure *)

Definition good (st : PState) : Prop :=
  reads src (lexer_ st) /\ token_ok src (current_ st) /\
  end_ (token_span (current_ st)) = position (lexer_ st) /\
  (token_kind (current_ st) = T_eof -> rest_ (lexer_ st) = "").

(** Decreases with every token read; zero at the end of the input. *)
Definition measure (st : PState) : nat :=
  if decide (token_kind (current_ st) = T_eof) then 0 else S (String.length (rest_ (lexer_ st))).

(** Where the current token begins. *)
Definition lo (st : PState) : nat := offset (begin_ (token_span (current_ st))).
Definition hi (st : PState) : nat := offset (end_ (token_span (current_ st))).

Definition error_ok (e : ParseError) : Prop := span_ok src (error_span e).

(** [st'] is reached from [st] by parsing. *)
Definition after (st st' : PState) : Prop :=
  good st' /\ measure st' <= measure st /\ lo st <= lo st' /\
  next_node_id_ st <= next_node_id_ st'.

Lemma after_refl st : good st -> after st st.
Proof. repeat split; auto. all: apply H. Qed.

Lemma after_trans st1 st2 st3 : after st1 st2 -> after st2 st3 -> after st1 st3.
Proof. intros (?&?&?&?) (?&?&?&?). split_and!; [done|lia..]. Qed.

Lemma good_lo_hi st : good st -> lo st <= hi st.
Proof. intros (_ & ((?&?&?)&?) & _). done. Qed.

Lemma good_span st : good st -> span_in (lo st) (hi st) (token_span (current_ st)).
Proof. intros (_ & (?&?) & _). split_and!; [done|unfold lo, hi; lia..]. Qed.

Lemma good_next st id t lx :
  good st -> token_from src (lexer_ st) t lx ->
  let st' := mkPState lx t id in
  good st' /\ hi st <= lo st' /\
  (token_kind (current_ st) <> T_eof -> measure st' < measure st) /\
  measure st' <= measure st.
Proof.
  intros (Hr & Ht & He & Hz) (Hr' & Ht' & He' & Hle & Hz'). simpl.
  assert (Hhi : hi st <= lo (mkPState lx t id)) by (unfold hi, lo; simpl; rewrite He; lia).
  pose proof (reads_offset _ _ Hr). pose proof (reads_offset _ _ Hr').
  split; [done|]. split; [done|].
  destruct Ht' as (_ & _ & _ & Hpos). rewrite He' in Hpos. unfold measure; simpl. split.
  - intros Hne. repeat case_decide; try done; [lia|]. specialize (Hpos ltac:(done)). lia.
  - repeat case_decide; try lia; specialize (Hpos ltac:(done)); [|lia].
    rewrite Hz in * by done. simpl in *. lia.
Qed.

(** ** Specifications and their composition *)

(** [p] parses an [A] whenever the measure is below [bound]; a [strict]
    parser reads at least one token. *)
Definition spec {A} `{Node A} (strict : bool) (bound : nat) (p : P A) : Prop :=
  forall st, good st -> measure st < bound ->
  owp (p st) (fun '(a, st') =>
    after st st' /\ (strict = true -> measure st' < measure st) /\
    node_ok (lo st) (lo st') (next_node_id_ st) (next_node_id_ st') a) error_ok.

Lemma pbind {A B} (p : P A) (k : A -> P B) st Q :
  owp (p st) (fun '(a, st') => owp (k a st') Q error_ok) error_ok ->
  owp ((p ≫= k) st) Q error_ok.
Proof. unfold mbind, P_bind. destruct (p st) as [[a st']|e|]; done. Qed.

Lemma pseq {A B} `{Node A} (p : P A) (k : A -> P B) st Q strict bound :
  spec strict bound p -> good st -> measure st < bound ->
  (forall a st', after st st' -> (strict = true -> measure st' < measure st) ->
     node_ok (lo st) (lo st') (next_node_id_ st) (next_node_id_ st') a ->
     owp (k a st') Q error_ok) ->
  owp ((p ≫= k) st) Q error_ok.
Proof.
  intros Hp Hg Hm Hk. apply pbind. eapply owp_mono; [by apply Hp| |done].
  intros [a st'] (?&?&?). by apply Hk.
Qed.

Lemma fail_ok {A} m st (Q : A * PState -> Prop) : good st -> owp (fail m st) Q error_ok.
Proof. intros (_ & (?&_) & _). done. Qed.

Lemma advance_token_ok st :
  good st ->
  owp (advance_token st) (fun '(_, st') =>
    good st' /\ hi st <= lo st' /\
    (token_kind (current_ st) <> T_eof -> measure st' < measure st) /\
    measure st' <= measure st /\ next_node_id_ st' = next_node_id_ st) error_ok.
Proof.
  intros Hg. unfold advance_token. destruct Hg as [Hr Hg'].
  pose proof (next_spec _ _ Hr) as Hn. destruct (next _) as [[t lx]|e|]; simpl in *; try done.
  destruct (good_next st (next_node_id_ st) t lx) as (?&?&?&?); [by split|done|].
  by split_and!.
Qed.
End WithSource.

(** ** Nodes *)

Definition no_node {A} : Node A :=
  {| spans_of _ := []; ids_of _ := []; shape_of _ := True |}.

#[export] Instance unit_node : Node unit := no_node.
#[export] Instance bool_node : Node bool := no_node.
#[export] Instance kind_node : Node TokenKind := no_node.

#[export] Instance token_node : Node Token :=
  {| spans_of t := [token_span t]; ids_of _ := []; shape_of _ := True |}.

#[export] Instance list_node {A} `{Node A} : Node (list A) :=
  {| spans_of l := l ≫= spans_of; ids_of l := l ≫= ids_of; shape_of l := Forall shape_of l |}.

#[export] Instance option_node {A} `{Node A} : Node (option A) :=
  {| spans_of o := from_option spans_of [] o; ids_of o := from_option ids_of [] o;
     shape_of o := from_option shape_of True o |}.

#[export] Instance prod_node {A B} `{Node A, Node B} : Node (A * B) :=
  {| spans_of p := spans_of p.1 ++ spans_of p.2; ids_of p := ids_of p.1 ++ ids_of p.2;
     shape_of p := shape_of p.1 /\ shape_of p.2 |}.

#[export] Instance sum_node {A B} `{Node A, Node B} : Node (A + B) :=
  {| spans_of s := match s with inl a => spans_of a | inr b => spans_of b end;
     ids_of s := match s with inl a => ids_of a | inr b => ids_of b end;
     shape_of s := match s with inl a => shape_of a | inr b => shape_of b end |}.

Fixpoint type_spans (t : Type_) : list SourceSpan :=
  type_span t :: (type_arguments t ≫= type_spans).

(** Tuples have at least two components, tables exactly two, names none. *)
Fixpoint type_shape (t : Type_) : bool :=
  match type_kind t with
  | TNamed => is_identifier (type_name t) && (length (type_arguments t) =? 0)
  | TTuple => 2 <=? length (type_arguments t)
  | TTable => length (type_arguments t) =? 2
  end && forallb type_shape (type_arguments t).

#[export] Instance type_node : Node Type_ :=
  {| spans_of := type_spans; ids_of _ := []; shape_of t := type_shape t |}.

Fixpoint expr_spans (e : Expr) : list SourceSpan :=
  span e :: (elements e ≫= expr_spans).

Fixpoint expr_ids (e : Expr) : list nat :=
  (elements e ≫= expr_ids) ++ [node_id e].

(** The number of elements each kind of expression has. *)
Definition element_count_ok (k : ExprKind) (n : nat) : bool :=
  match k with
  | EName | EBoolean | EInteger | EHole => n =? 0
  | ETuple => 2 <=? n
  | ECall => true
  | EBinary => n =? 2
  | EConditional => n =? 3
  end.

#[export] Instance expr_node : Node Expr :=
  {| spans_of := expr_spans; ids_of := expr_ids; shape_of e := printable e |}.

(** ** Automation *)

(** The sequencing facts of the parse so far, in the form [lia] reads. *)
Ltac open_facts :=
  repeat match goal with
  | H : after _ _ _ |- _ => destruct H as (? & ? & ? & ?)
  | H : true = true -> _ |- _ => specialize (H eq_refl)
  | H : false = true -> _ |- _ => clear H
  | H : node_ok _ _ _ _ _ _ |- _ => destruct H as (? & ? & ?)
  end; simpl in *.

Create HintDb parser.

Ltac solve_spans :=
  repeat rewrite ?bind_cons, ?app_nil_r, ?Forall_app, ?Forall_cons in *; destruct_and?;
  split_and?;
  lazymatch goal with
  | |- Forall _ [] => by constructor
  | |- Forall _ _ =>
      eapply Forall_impl; [eassumption|]; intros ??; eapply span_in_weaken; [eassumption|lia..]
  | |- span_in _ _ _ (joined _ _) =>
      eapply span_in_weaken;
        [eapply span_in_joined;
          [first [eassumption|eapply span_in_joined; [eassumption|eassumption|lia]]
          |eassumption|lia]|lia..]
  | |- span_in _ _ _ _ => eapply span_in_weaken; [eassumption|lia..]
  end.

Ltac solve_ids :=
  repeat rewrite ?bind_cons, ?app_nil_r in *; rewrite <- ?app_assoc;
  repeat first
    [ apply ids_in_nil
    | solve [eapply ids_in_weaken; [eassumption|lia..]]
    | solve [eapply ids_in_weaken; [apply ids_in_single|lia..]]
    | eapply ids_in_app; [eapply ids_in_weaken; [eassumption|lia|reflexivity]| |lia|lia]
    | rewrite app_assoc;
      eapply ids_in_app; [eapply ids_in_weaken; [eassumption|lia|reflexivity]| |lia|lia] ].

Ltac solve_after := split_and!; [assumption|lia..].

(** Close a specification at its [mret]. *)
Ltac pfinish :=
  simpl; split; [solve_after|split; [intros; lia|]];
  split; simpl; [solve_spans|split; [solve_ids|]].

Section Specs.
Context (src : string).
Implicit Types (st : PState) (n : nat).

Lemma take_spec k c n : k <> T_eof -> spec src true n (take k c).
Proof.
  intros Hk st Hg Hm. unfold take. apply pbind. simpl. case_decide as Hd; [|by apply fail_ok].
  apply pbind. eapply owp_mono; [by apply advance_token_ok| |done].
  intros [[] st'] (?&?&Hs&?&?). pose proof (good_span _ _ Hg). pose proof (good_lo_hi _ _ Hg).
  assert (measure st' < measure st) by (apply Hs; congruence).
  pfinish. done.
Qed.

Lemma pseq_take {B} k c (f : Token -> P B) st Q :
  k <> T_eof -> good src st ->
  (forall a st', after src st st' -> measure st' < measure st ->
     node_ok src (lo st) (lo st') (next_node_id_ st) (next_node_id_ st') a -> lexeme k (text a) ->
     owp (f a st') Q (error_ok src)) ->
  owp ((take k c ≫= f) st) Q (error_ok src).
Proof.
  intros Hk Hg Hf. apply pbind.
  assert (Hl : owp (take k c st) (fun '(a, _) => lexeme k (text a)) (fun _ => True)).
  { unfold take, mbind, P_bind. simpl. destruct (decide _) as [<-|]; [|done].
    destruct (advance_token st) as [[[] st1]|e|] eqn:E; [|done|].
    - destruct Hg as (_ & (_ & _ & Ht & _) & _). done.
    - pose proof (advance_token_ok src st Hg) as Ha. by rewrite E in Ha. }
  pose proof (take_spec k c (S (measure st)) Hk st Hg (Nat.lt_succ_diag_r _)) as Hs.
  destruct (take k c st) as [[a st']|e|]; simpl in *; [|done..].
  destruct Hs as (? & ? & ?). apply Hf; auto.
Qed.

Lemma take_eof_spec c n : spec src false n (take T_eof c).
Proof.
  intros st Hg Hm. unfold take. apply pbind. simpl. case_decide as Hd; [|by apply fail_ok].
  apply pbind. eapply owp_mono; [by apply advance_token_ok| |done].
  intros [[] st'] (?&?&Hs&?&?). pose proof (good_span _ _ Hg). pose proof (good_lo_hi _ _ Hg).
  pfinish. done.
Qed.

Lemma accept_spec k n : spec src false n (accept k).
Proof.
  intros st Hg Hm. unfold accept. apply pbind. simpl. case_decide as Hd.
  - apply pbind. eapply owp_mono; [by apply advance_token_ok| |done].
    intros [[] st'] (?&?&Hs&?&?). pose proof (good_lo_hi _ _ Hg). pfinish. done.
  - pfinish. done.
Qed.

Lemma current_kind_bind {B} (f : TokenKind -> P B) st Q :
  owp (f (token_kind (current_ st)) st) Q (error_ok src) ->
  owp ((current_kind ≫= f) st) Q (error_ok src).
Proof. intros. by apply pbind. Qed.

Lemma weaken_spec {A} `{Node A} b n (p : P A) : spec src true n p -> spec src b n p.
Proof.
  intros Hp st Hg Hm. eapply owp_mono; [by apply Hp| |done]. intros [a st'] (?&?&?). eauto.
Qed.

Lemma spec_le {A} `{Node A} b m n (p : P A) : spec src b n p -> m <= n -> spec src b m p.
Proof. intros Hp Hmn st Hg Hm. apply Hp; [done|lia]. Qed.
End Specs.

#[export] Hint Extern 1 (spec _ _ _ (take _ _)) => (apply take_spec; done) : parser.
#[export] Hint Resolve accept_spec : parser.

(** Run one parsing step through its specification; a token that is taken
    is spelled as its kind says. *)
Ltac pstep :=
  first
    [ eapply pseq_take; [done | assumption | intros ? ? ? ? ? ?; open_facts]
    | eapply pseq;
        [solve [eauto with parser] | assumption | first [apply Nat.lt_succ_diag_r | lia] | intros ? ? ? ? ?; open_facts] ].

Section Loops.
Context (src : string).
Implicit Types (st : PState) (n : nat).

Lemma separator_spec k m n : spec src false n (separator k m).
Proof.
  intros st Hg Hm. unfold separator. pstep. destruct a; [pfinish; done|].
  apply current_kind_bind. case_decide; [pfinish; done|by apply fail_ok].
Qed.

Lemma until_spec {A} `{Node A} n stop (item : P A) :
  spec src true n item -> spec src false n (until n stop item).
Proof.
  intros Hi. cut (forall f, f <= n -> spec src false f (until f stop item)).
  { intros H'. by apply H'. }
  induction f as [|f IH]; intros Hf st Hg Hm; simpl; apply current_kind_bind;
    (case_decide; [pfinish; constructor|]); [lia|].
  eapply pseq; [exact Hi|done|lia|intros x st1 ???; open_facts].
  eapply pseq; [apply IH; lia|done|lia|intros xs st2 ???; open_facts].
  pfinish. by constructor.
Qed.

Lemma after_commas_spec {A} `{Node A} n (item : P A) :
  spec src true n item -> spec src false n (after_commas n item).
Proof.
  intros Hi. cut (forall f, f <= n -> spec src false f (after_commas f item)).
  { intros H'. by apply H'. }
  induction f as [|f IH]; intros Hf st Hg Hm; [lia|]. simpl. pstep.
  destruct a; [|pfinish; constructor].
  apply current_kind_bind. case_decide; [pfinish; constructor|].
  eapply pseq; [exact Hi|done|lia|intros x st1 ???; open_facts].
  eapply pseq; [apply IH; lia|done|lia|intros xs st2 ???; open_facts].
  pfinish. by constructor.
Qed.
End Loops.

#[export] Hint Resolve separator_spec : parser.

Lemma separated_spec {A} `{Node A} src n (p : P A) stop m :
  spec src true n p -> spec src true n (e ← p; separator stop m ;; mret e).
Proof. intros Hp st Hg Hm. pstep. pstep. pfinish. done. Qed.
#[export] Hint Resolve separated_spec until_spec after_commas_spec : parser.

(** ** Types *)

Lemma forallb_shapes {A} (f : A -> bool) l : Forall (fun x => f x) l -> forallb f l.
Proof. intros H. by apply forallb_True. Qed.

Ltac solve_shape :=
  repeat match goal with
  | H : Forall _ _ |- _ => progress rewrite ?Forall_cons in H
  end; destruct_and?;
  repeat first [done | apply forallb_shapes; (done || constructor) | apply andb_True; split ].

Ltac solve_kind :=
  simpl in *; repeat match goal with H : ?b = true |- context [?b] => rewrite H end; done.

Section Types.
Context (src : string).

Lemma type_body_spec n (ty : P Type_) :
  spec src true n ty -> spec src true (S n) (type_body n ty).
Proof.
  intros Hty st Hg Hm. unfold type_body. apply current_kind_bind. case_decide.
  - pstep. pstep. pstep. pstep.
    pstep. pstep. pfinish. solve_shape.
  - pstep. apply current_kind_bind. destruct (_ || _) eqn:E.
    + pfinish. solve_kind.
    + pstep. pstep. pstep. pstep. pstep. pfinish. solve_shape.
Qed.

Lemma type_spec n : spec src true n (type n).
Proof.
  induction n as [|n IH]; [intros st _ Hm; lia|]. by apply type_body_spec.
Qed.
End Types.

#[export] Hint Resolve type_spec : parser.

(** ** Expressions *)

Section Exprs.
Context (src : string) (n : nat) (ex : P Expr).
Context (ex_spec : spec src true n ex).
#[local] Hint Resolve ex_spec : parser.

Lemma expr_span_ok l h i j (e : Expr) : node_ok src l h i j e -> span_in src l h (span e).
Proof. destruct e. intros (Hs & _). by inversion Hs. Qed.

(** The state after one identifier is handed out. *)
Definition bump (st : PState) : PState :=
  mkPState (lexer_ st) (current_ st) (S (next_node_id_ st)).

(** A finished node, given its span and its elements. *)
Lemma finished_ok st0 st k s nm b it op es :
  after src st0 st -> span_in src (lo st0) (lo st) s ->
  node_ok src (lo st0) (lo st) (next_node_id_ st0) (next_node_id_ st) es ->
  kind_printable k nm it (length es) ->
  after src st0 (bump st) /\
  node_ok src (lo st0) (lo st) (next_node_id_ st0) (S (next_node_id_ st))
    (mkExpr k s nm b it op es (next_node_id_ st)).
Proof.
  intros (?&?&?&?) Hs (Hs' & Hi & Hsh) Hc.
  split; [split_and!; [done|done|done|simpl; lia]|].
  split; simpl; [by constructor|]. split.
  - eapply ids_in_app; [exact Hi|apply ids_in_single|lia..].
  - apply andb_True; split; [done|]. by apply forallb_shapes.
Qed.

Lemma identified_ok st0 st k s nm b it op es :
  after src st0 st -> measure st < measure st0 ->
  span_in src (lo st0) (lo st) s ->
  node_ok src (lo st0) (lo st) (next_node_id_ st0) (next_node_id_ st) es ->
  kind_printable k nm it (length es) ->
  owp (identified (mkExpr k s nm b it op es) st) (fun '(a, st') =>
    after src st0 st' /\ (true = true -> measure st' < measure st0) /\
    node_ok src (lo st0) (lo st') (next_node_id_ st0) (next_node_id_ st') a) (error_ok src).
Proof.
  intros Ha Hm Hs Hes Hc.
  destruct (finished_ok st0 st k s nm b it op es) as [? ?]; [done..|].
  split; [done|]. by split.
Qed.

Ltac pnode :=
  apply identified_ok; [solve_after|lia|solve_spans| |solve_kind];
  split; simpl; [solve_spans|split; [solve_ids|repeat constructor; done]].

Lemma boolean_ok st :
  good src st -> token_kind (current_ st) <> T_eof ->
  owp (boolean st) (fun '(a, st') =>
    after src st st' /\ (true = true -> measure st' < measure st) /\
    node_ok src (lo st) (lo st') (next_node_id_ st) (next_node_id_ st') a) (error_ok src).
Proof.
  intros Hg Hk. unfold boolean. apply pbind. simpl. apply pbind.
  eapply owp_mono; [by apply advance_token_ok| |done].
  intros [[] st'] (?&?&Hs&?&?). specialize (Hs Hk).
  pose proof (good_span _ _ Hg). pose proof (good_lo_hi _ _ Hg). pnode.
Qed.

Lemma numeral_integer i : is_numeral i = true -> is_integer i = true.
Proof.
  destruct i as [|c s]; [done|]. intros Hi. unfold is_integer. destruct (Ascii.eqb_spec c "-") as [->|]; done.
Qed.

Lemma primary_spec : spec src true (S n) (primary n ex).
Proof.
  intros st Hg Hm. unfold primary. apply current_kind_bind.
  destruct (token_kind (current_ st)) eqn:Hk; try by apply fail_ok.
  - (* name or call *)
    unfold name_or_call. pstep. pstep. destruct a0; [|pnode].
    pstep. pstep. pnode.
  - unfold integer. pstep. pose proof (numeral_integer (text a) ltac:(assumption)). pnode.
  - (* conditional *)
    unfold conditional. do 9 pstep. pnode.
  - apply boolean_ok; [done|by rewrite Hk].
  - apply boolean_ok; [done|by rewrite Hk].
  - (* group or tuple *)
    unfold group_or_tuple. do 3 pstep. destruct a1; simpl.
    + pstep. pstep. pstep. pnode.
    + pstep. pfinish. done.
  - unfold negative_integer. do 2 pstep. pnode.
  - unfold hole. do 2 pstep. pnode.
Qed.

(** A loop of left-associative operators after its first operand [e], which
    was parsed from [st0]. *)
Lemma left_associative_ok f st0 st operator operand e :
  (forall k, is_Some (operator k) -> k <> T_eof) ->
  spec src true (S n) operand ->
  after src st0 st -> measure st < measure st0 -> measure st <= f -> f <= n ->
  node_ok src (lo st0) (lo st) (next_node_id_ st0) (next_node_id_ st) e ->
  owp (left_associative f operator operand e st) (fun '(a, st') =>
    after src st0 st' /\ (true = true -> measure st' < measure st0) /\
    node_ok src (lo st0) (lo st') (next_node_id_ st0) (next_node_id_ st') a) (error_ok src).
Proof.
  intros Hop Hspec. revert st e. induction f as [|f IH]; intros st e Ha Hm Hf Hfn He; simpl;
    apply current_kind_bind; destruct (operator _) as [op|] eqn:Ho; try done.
  - exfalso. unfold measure in Hf. case_decide as Hd; [|lia]. by eapply Hop.
  - apply pbind. eapply owp_mono; [apply (advance_token_ok src), Ha| |done].
    intros [[] st1] (?&?&Hs&?&?). specialize (Hs ltac:(eauto)).
    assert (lo st <= hi st) by (eapply good_lo_hi, Ha).
    eapply pseq; [exact Hspec|done|lia|intros r st2 Ha2 Hm2 Hr].
    pose proof (expr_span_ok _ _ _ _ _ He). pose proof (expr_span_ok _ _ _ _ _ Hr).
    apply pbind. simpl.
    destruct (finished_ok st0 st2 EBinary (joined (span e) (span r)) "" false "" op [e; r])
      as [Ha3 He3]; open_facts.
    + solve_after.
    + solve_spans.
    + split; simpl; [solve_spans|split; [solve_ids|by repeat constructor]].
    + done.
    + apply (IH (bump st2)); [done|unfold bump, measure in *; simpl in *; lia..|by split_and!].
Qed.

Lemma level_spec operator operand :
  (forall k, is_Some (operator k) -> k <> T_eof) ->
  spec src true (S n) operand ->
  spec src true (S n) (e ← operand; left_associative n operator operand e).
Proof.
  intros Hop Hspec st Hg Hm.
  eapply pseq; [exact Hspec|done|lia|intros e st1 Ha Hm1 He].
  apply left_associative_ok; auto. specialize (Hm1 eq_refl). lia.
Qed.

Lemma logical_or_spec : spec src true (S n) (logical_or n ex).
Proof.
  repeat (apply level_spec; [intros [] [??]; done|]). apply primary_spec.
Qed.
End Exprs.

Lemma expr_spec src n : spec src true n (expr n).
Proof.
  induction n as [|n IH]; [intros st _ Hm; lia|]. by apply logical_or_spec.
Qed.
#[export] Hint Resolve expr_spec : parser.

(** ** Declarations as nodes *)

#[export] Instance parameter_node : Node Parameter_ :=
  {| spans_of p := parameter_span p :: spans_of (parameter_type p); ids_of _ := [];
     shape_of p := is_identifier (parameter_name p) = true /\ shape_of (parameter_type p) |}.

#[export] Instance argument_node : Node NamedArgument :=
  {| spans_of a := argument_span a :: spans_of (argument_value a);
     ids_of a := ids_of (argument_value a); shape_of a := is_identifier (argument_name a) = true /\ shape_of (argument_value a) |}.

#[export] Instance entry_node : Node TableEntry :=
  {| spans_of t := entry_span t :: spans_of (entry_key t) ++ spans_of (entry_value t);
     ids_of t := ids_of (entry_key t) ++ ids_of (entry_value t);
     shape_of t := shape_of (entry_key t) /\ shape_of (entry_value t) |}.

#[export] Instance table_node : Node TableLiteral :=
  {| spans_of t := table_span t :: spans_of (table_default t) ++ spans_of (table_entries t);
     ids_of t := ids_of (table_default t) ++ ids_of (table_entries t);
     shape_of t := shape_of (table_default t) /\ shape_of (table_entries t) |}.

#[export] Instance field_node : Node EnumField :=
  {| spans_of f := field_span f :: spans_of (field_type f); ids_of _ := [];
     shape_of f := is_identifier (field_name f) = true /\ shape_of (field_type f) |}.

#[export] Instance case_node : Node EnumCase :=
  {| spans_of c := case_span c :: spans_of (case_fields c); ids_of c := ids_of (case_fields c);
     shape_of c := is_identifier (case_name c) = true /\ shape_of (case_fields c) |}.

#[export] Instance enum_node : Node EnumDecl :=
  {| spans_of d := enum_span d :: spans_of (enum_cases d); ids_of d := ids_of (enum_cases d);
     shape_of d := is_identifier (enum_name d) = true /\ enum_cases d <> [] /\ shape_of (enum_cases d) |}.

#[export] Instance let_node : Node LetDecl :=
  {| spans_of d := let_span d :: spans_of (let_type d) ++ spans_of (let_value d);
     ids_of d := ids_of (let_value d);
     shape_of d := is_identifier (let_name d) = true /\ type_kind (let_type d) = TTable /\ shape_of (let_type d) /\
                   shape_of (let_value d) |}.

#[export] Instance model_node : Node ModelDecl :=
  {| spans_of d := model_span d :: spans_of (model_type d) ++ spans_of (model_value d);
     ids_of d := ids_of (model_value d);
     shape_of d := is_identifier (model_name d) = true /\ type_kind (model_type d) = TTable /\ shape_of (model_type d) /\
                   shape_of (model_value d) |}.

#[export] Instance solve_node : Node SolveDecl :=
  {| spans_of d := solve_span d :: spans_of (solve_takes d) ++ spans_of (solve_gives d);
     ids_of d := ids_of (solve_takes d) ++ ids_of (solve_gives d);
     shape_of d := is_identifier (solve_name d) = true /\ shape_of (solve_takes d) /\ shape_of (solve_gives d) |}.

#[export] Instance view_node : Node ViewDecl :=
  {| spans_of d := view_span d :: spans_of (view_parameters d) ++ spans_of (view_carrier d) ++
                   spans_of (view_requirements d) ++ spans_of (view_witness d);
     ids_of d := ids_of (view_requirements d) ++ ids_of (view_witness d);
     shape_of d := is_identifier (view_name d) = true /\ shape_of (view_parameters d) /\ shape_of (view_carrier d) /\
                   view_requirements d <> [] /\ shape_of (view_requirements d) /\
                   shape_of (view_witness d) |}.

#[export] Instance arbitrary_node : Node ArbitraryPremise :=
  {| spans_of a := arbitrary_span a :: spans_of (arbitrary_arguments a) ++
                   spans_of (arbitrary_premises a);
     ids_of a := ids_of (arbitrary_arguments a) ++ ids_of (arbitrary_premises a) ++
                 [arbitrary_node_id a];
     shape_of a := shape_of (arbitrary_arguments a) /\ arbitrary_premises a <> [] /\
                   shape_of (arbitrary_premises a) |}.

#[export] Instance constructor_node : Node PredicateConstructor :=
  {| spans_of c := constructor_span c :: spans_of (constructor_parameters c) ++
       spans_of (constructor_premises c) ++ spans_of (constructor_arbitrary c) ++
       spans_of (constructor_result c);
     ids_of c := ids_of (constructor_premises c) ++ ids_of (constructor_arbitrary c) ++
                 ids_of (constructor_result c);
     shape_of c := is_identifier (constructor_name c) = true /\ shape_of (constructor_parameters c) /\ shape_of (constructor_premises c) /\
                   shape_of (constructor_arbitrary c) /\ shape_of (constructor_result c) |}.

#[export] Instance predicate_node : Node PredicateDecl :=
  {| spans_of d := predicate_span d :: spans_of (predicate_indices d) ++
                   spans_of (predicate_constructors d);
     ids_of d := ids_of (predicate_constructors d);
     shape_of d := is_identifier (predicate_name d) = true /\ predicate_indices d <> [] /\ shape_of (predicate_indices d) /\
                   predicate_constructors d <> [] /\ shape_of (predicate_constructors d) |}.

#[export] Instance binding_node : Node MatchBinding :=
  {| spans_of b := [binding_span b]; ids_of _ := []; shape_of b := is_identifier (binding_name b) = true |}.

#[export] Instance arm_node : Node MatchArm :=
  {| spans_of a := arm_span a :: spans_of (arm_bindings a) ++ spans_of (arm_value a);
     ids_of a := ids_of (arm_value a); shape_of a := is_identifier (arm_constructor a) = true /\ shape_of (arm_bindings a) /\ shape_of (arm_value a) |}.

#[export] Instance function_node : Node FunctionDecl :=
  {| spans_of d := function_span d :: spans_of (function_parameters d) ++
       spans_of (function_result_type d) ++ spans_of (function_scrutinee d) ++
       spans_of (function_arms d);
     ids_of d := ids_of (function_scrutinee d) ++ ids_of (function_arms d);
     shape_of d := is_identifier (function_name d) = true /\ shape_of (function_parameters d) /\ shape_of (function_result_type d) /\
       shape_of (function_scrutinee d) /\ function_arms d <> [] /\ shape_of (function_arms d) |}.

#[export] Instance synth_node : Node SynthDecl :=
  {| spans_of d := synth_span d :: spans_of (synth_parameters d) ++
       spans_of (synth_result_type d) ++ spans_of (synth_scrutinee d) ++
       spans_of (synth_arms d) ++ spans_of (synth_ensures d);
     ids_of d := ids_of (synth_scrutinee d) ++ ids_of (synth_arms d) ++ ids_of (synth_ensures d);
     shape_of d := is_identifier (synth_name d) = true /\ shape_of (synth_parameters d) /\ shape_of (synth_result_type d) /\
       shape_of (synth_scrutinee d) /\ shape_of (synth_arms d) /\
       (synth_scrutinee d = None <-> synth_arms d = []) /\
       synth_ensures d <> [] /\ shape_of (synth_ensures d) |}.

#[export] Instance check_node : Node CheckDecl :=
  {| spans_of d := check_span d :: spans_of (check_parameters d) ++
       from_option (fun s => [s]) [] (check_induction_span d) ++ spans_of (check_predicate_induction d) ++
       spans_of (check_assumes d) ++ spans_of (check_ensures d);
     ids_of d := ids_of (check_predicate_induction d) ++ ids_of (check_assumes d) ++
                 ids_of (check_ensures d);
     shape_of d := is_identifier (check_name d) = true /\ shape_of (check_parameters d) /\ shape_of (check_predicate_induction d) /\
       (forall e, check_predicate_induction d = Some e -> kind e = ECall) /\
       (is_Some (check_induction_parameter d) -> is_Some (check_induction_span d)) /\
       shape_of (check_assumes d) /\ check_ensures d <> [] /\ shape_of (check_ensures d) |}.

#[export] Instance cex_entry_node : Node CounterexampleEntry :=
  {| spans_of c := cex_entry_span c :: spans_of (cex_entry_type c) ++ spans_of (cex_entry_value c);
     ids_of c := ids_of (cex_entry_value c);
     shape_of c := is_identifier (cex_entry_name c) = true /\ shape_of (cex_entry_type c) /\ shape_of (cex_entry_value c) |}.

#[export] Instance counterexample_node : Node CounterexampleDecl :=
  {| spans_of d := counterexample_span d :: spans_of (counterexample_entries d);
     ids_of d := ids_of (counterexample_entries d);
     shape_of d := is_identifier (counterexample_name d) = true /\ shape_of (counterexample_entries d) |}.
