(* ===== verification/DocumentSpec.v ===== *)
(** * Totality and well-formedness of parsed documents

    The specification of ParserSpec.v for every declaration parser, and the
    theorems about [parse] and [parse_expression] that follow. *)

From S2P Require Import Prelude Syntax Lexer Printer LexerSpec Parser ParserSpec.

(** ** Clauses *)

Section Clauses.
Context (src : string) (n : nat).

(** [if (empty) fail(message);] keeps what is known and excludes emptiness. *)
Lemma reject_bind {A} (b : bool) m (k : P A) st Q :
  good src st ->
  (b = false -> owp (k st) Q (error_ok src)) ->
  owp (((if b then fail m else mret tt) ;; k) st) Q (error_ok src).
Proof. intros Hg Hk. destruct b; apply pbind; [by apply fail_ok|by apply Hk]. Qed.

Lemma require_bind {A} (P : Prop) `{Decision P} m (k : Parser.P A) st Q :
  good src st ->
  (P -> owp (k st) Q (error_ok src)) ->
  owp (((if decide P then mret tt else fail m) ;; k) st) Q (error_ok src).
Proof. intros Hg Hk. case_decide; apply pbind; [by apply Hk|by apply fail_ok]. Qed.

Lemma refuse_bind {A} (P : Prop) `{Decision P} m (k : Parser.P A) st Q :
  good src st ->
  (~ P -> owp (k st) Q (error_ok src)) ->
  owp (((if decide P then fail m else mret tt) ;; k) st) Q (error_ok src).
Proof. intros Hg Hk. case_decide; apply pbind; [by apply fail_ok|by apply Hk]. Qed.

Lemma fresh_bind {A} (k : nat -> Parser.P A) st Q :
  good src st ->
  (forall st1, good src st1 -> measure st1 = measure st -> lo st1 = lo st ->
     next_node_id_ st1 = S (next_node_id_ st) ->
     owp (k (next_node_id_ st) st1) Q (error_ok src)) ->
  owp ((fresh_id ≫= k) st) Q (error_ok src).
Proof. intros Hg Hk. apply pbind. simpl. by apply Hk. Qed.

Lemma type_span_ok l h i j (t : Type_) : node_ok src l h i j t -> span_in src l h (type_span t).
Proof. destruct t. intros (Hs & _). by inversion Hs. Qed.
End Clauses.

(** The span of a type or expression, known to be in place. *)
Ltac root_span H :=
  first [pose proof (type_span_ok _ _ _ _ _ _ H) | pose proof (expr_span_ok _ _ _ _ _ _ H)].

(** [pstep] that also records the root span of a type or expression. *)
Ltac proot :=
  eapply pseq;
    [solve [eauto with parser] | assumption | first [apply Nat.lt_succ_diag_r | lia] |
     intros ? ? ? ? Hroot; root_span Hroot; open_facts].

Section ClauseSpecs.
Context (src : string) (n : nat).

Lemma parameter_spec : spec src true n (parameter n).
Proof. intros st Hg Hm. unfold parameter. do 2 pstep. proot. pstep. pfinish. done. Qed.
#[local] Hint Resolve parameter_spec : parser.

Lemma parameters_spec : spec src true n (parameters n).
Proof. intros st Hg Hm. unfold parameters. do 3 pstep. pfinish. done. Qed.

Lemma named_argument_spec : spec src true n (named_argument n).
Proof. intros st Hg Hm. unfold named_argument. do 2 pstep. proot. pstep. pfinish. done. Qed.
#[local] Hint Resolve named_argument_spec : parser.

Lemma arguments_spec : spec src true n (arguments n).
Proof. intros st Hg Hm. unfold arguments. do 3 pstep. pfinish. done. Qed.

Lemma condition_spec m : spec src true n (condition n m).
Proof. intros st Hg Hm. unfold condition. do 2 pstep. pfinish. done. Qed.
#[local] Hint Resolve condition_spec : parser.

Lemma condition_block_ok kw d allow st :
  kw <> T_eof -> good src st -> measure st < n ->
  owp (condition_block n kw d allow st) (fun '(a, st') =>
    after src st st' /\ measure st' < measure st /\ (allow = false -> a <> []) /\
    node_ok src (lo st) (lo st') (next_node_id_ st) (next_node_id_ st') a) (error_ok src).
Proof.
  intros Hkw Hg Hm. unfold condition_block. do 3 pstep. apply reject_bind; [done|].
  intros Hb. pstep. simpl. split; [solve_after|]. split; [lia|]. split.
  - intros ->. simpl in Hb. by apply bool_decide_eq_false in Hb.
  - split; [solve_spans|split; [solve_ids|done]].
Qed.

Lemma table_entry_spec : spec src true n (table_entry n).
Proof.
  intros st Hg Hm. unfold table_entry. apply current_kind_bind.
  case_decide; [by apply fail_ok|]. proot. pstep. proot. pstep. pfinish. done.
Qed.
#[local] Hint Resolve table_entry_spec : parser.

Lemma table_literal_spec : spec src true n (table_literal n).
Proof.
  intros st Hg Hm. unfold table_literal. do 3 pstep. apply pbind.
  destruct (_ =? _)%string; simpl.
  - do 6 pstep. pfinish. done.
  - match goal with H : Forall _ [token_span a1] |- _ => inversion H as [|?? Ht] end.
    apply Ht.
Qed.

(** ** Enumerations *)

Lemma enum_field_spec : spec src true n (enum_field n).
Proof. intros st Hg Hm. unfold enum_field. do 2 pstep. proot. pstep. pfinish. done. Qed.
#[local] Hint Resolve enum_field_spec : parser.

Lemma enum_case_spec : spec src true n (enum_case n).
Proof.
  intros st Hg Hm. unfold enum_case. do 2 pstep. destruct a0.
  - do 2 pstep. pfinish. done.
  - pfinish. by split; [|constructor].
Qed.
#[local] Hint Resolve enum_case_spec : parser.

Lemma enum_cases_ok f st :
  f <= n -> good src st -> measure st < n -> measure st <= f ->
  owp (enum_cases_loop n f st) (fun '(a, st') =>
    after src st st' /\ measure st' < measure st /\ a <> [] /\
    node_ok src (lo st) (lo st') (next_node_id_ st) (next_node_id_ st') a) (error_ok src).
Proof.
  revert st; induction f as [|f IH]; intros st Hfn Hg Hm Hf; simpl; do 2 pstep;
    destruct a0; simpl; try apply current_kind_bind; try case_decide.
  1,2,3: lia.
  1,3: simpl; split; [solve_after|]; split; [lia|]; split; [done|];
    split; simpl; [solve_spans|split; [solve_ids|by constructor; [|constructor]]].
  apply pbind. eapply owp_mono; [apply IH; [lia|done|lia|lia]| |done].
  intros [cs st3] (?&?&?&?). open_facts. split; [solve_after|]; split; [lia|]; split; [done|].
  split; simpl; [solve_spans|split; [solve_ids|by constructor]].
Qed.

Lemma enum_decl_spec : spec src true n (enum_decl n).
Proof.
  intros st Hg Hm. unfold enum_decl. do 3 pstep. apply current_kind_bind.
  apply refuse_bind; [done|]. intros _.
  apply pbind. eapply owp_mono; [apply enum_cases_ok; [done|done|lia|lia]| |done].
  intros [cs st3] (?&?&?&?). open_facts. pstep. pfinish. done.
Qed.
End ClauseSpecs.

#[export] Hint Resolve parameters_spec arguments_spec condition_spec table_literal_spec
  enum_decl_spec : parser.

(** Run a [condition_block]. *)
Ltac pblock :=
  lazymatch goal with
  | |- owp _ _ (error_ok ?s) =>
      apply pbind; eapply owp_mono; [apply (condition_block_ok s); [done|assumption|lia]| |done]
  end;
  intros [? ?] (? & ? & ? & ?); open_facts.

(** ** Tables, models, solve, views *)

Section Declarations1.
Context (src : string) (n : nat).

Lemma let_decl_spec : spec src true n (let_decl n).
Proof.
  intros st Hg Hm. unfold let_decl. do 4 pstep. apply require_bind; [done|]. intros Hk.
  do 3 pstep. pfinish. done.
Qed.

Lemma model_decl_spec : spec src true n (model_decl n).
Proof.
  intros st Hg Hm. unfold model_decl. do 4 pstep. apply require_bind; [done|]. intros Hk.
  pstep. apply pbind. destruct a3; simpl.
  - eapply pseq; [apply table_literal_spec|done|lia|intros v st6 ???; open_facts].
    simpl. pstep. pfinish. done.
  - pstep. pfinish. done.
Qed.

Lemma solve_decl_spec : spec src true n (solve_decl n).
Proof. intros st Hg Hm. unfold solve_decl. do 12 pstep. pfinish. done. Qed.

Lemma view_decl_spec : spec src true n (view_decl n).
Proof.
  intros st Hg Hm. unfold view_decl. do 6 pstep. pblock. pstep. apply pbind.
  destruct a5; simpl.
  - eapply pseq; [apply condition_spec|done|lia|intros v st9 ???; open_facts]. simpl.
    pstep. pfinish. naive_solver.
  - pstep. pfinish. naive_solver.
Qed.
End Declarations1.

(** ** Predicates *)

Section Predicates.
Context (src : string) (n : nat).

Lemma arbitrary_premise_spec : spec src true n (arbitrary_premise n).
Proof.
  intros st Hg Hm. unfold arbitrary_premise. do 10 pstep. apply reject_bind; [done|].
  intros Hb%bool_decide_eq_false. apply fresh_bind; [done|]. intros st1 ????.
  pfinish. done.
Qed.
#[local] Hint Resolve arbitrary_premise_spec : parser.

Lemma takes_item_spec : spec src true n (takes_item n).
Proof.
  intros st Hg Hm. unfold takes_item. apply current_kind_bind. case_decide.
  - pstep. pfinish. done.
  - pstep. pfinish. done.
Qed.
#[local] Hint Resolve takes_item_spec : parser.

(** Sorting the [takes] items into the two vectors permutes them. *)
Lemma items_permutation {B} (f : Expr -> list B) (g : ArbitraryPremise -> list B) items :
  (ordinary items ≫= f) ++ (arbitraries items ≫= g) ≡ₚ
  items ≫= (fun x => match x with inl e => f e | inr a => g a end).
Proof.
  induction items as [|[e|a] items IH]; [done|..]; rewrite bind_cons, <- IH.
  - change (ordinary (inl e :: items)) with (e :: ordinary items).
    change (arbitraries (inl e :: items)) with (arbitraries items).
    by rewrite bind_cons, app_assoc.
  - change (ordinary (inr a :: items)) with (ordinary items).
    change (arbitraries (inr a :: items)) with (a :: arbitraries items).
    rewrite bind_cons, !app_assoc. f_equiv. apply Permutation_app_comm.
Qed.

Lemma items_ok l h i j items :
  node_ok src l h i j items ->
  Forall (span_in src l h) (spans_of (ordinary items)) /\
  Forall (span_in src l h) (spans_of (arbitraries items)) /\
  ids_in i j (ids_of (ordinary items) ++ ids_of (arbitraries items)) /\
  shape_of (ordinary items) /\ shape_of (arbitraries items).
Proof.
  intros (Hs & (Hn & Hf) & Hh). simpl in *. split_and?.
  1,2: rewrite <- items_permutation in Hs; apply Forall_app in Hs; tauto.
  - split; by rewrite items_permutation.
  - clear -Hh. induction Hh as [|[e|a] items ? ? IH]; simpl; by try constructor.
  - clear -Hh. induction Hh as [|[e|a] items ? ? IH]; simpl; by try constructor.
Qed.

Lemma predicate_constructor_spec : spec src true n (predicate_constructor n).
Proof.
  intros st Hg Hm. unfold predicate_constructor. do 6 pstep.
  eapply pseq; [apply until_spec, takes_item_spec|done|lia|intros items st7 ?? Hitems].
  apply items_ok in Hitems as (?&?&?&?&?). open_facts. do 5 pstep. pfinish.
  by split_and!.
Qed.
#[local] Hint Resolve predicate_constructor_spec : parser.

Lemma predicate_decl_spec : spec src true n (predicate_decl n).
Proof.
  intros st Hg Hm. unfold predicate_decl. do 3 pstep.
  apply reject_bind; [done|]; intros Hb%bool_decide_eq_false. do 2 pstep.
  apply reject_bind; [done|]; intros Hb2%bool_decide_eq_false. pstep. pfinish. done.
Qed.
End Predicates.

(** ** Functions, synthesis, checks *)

Section Declarations2.
Context (src : string) (n : nat).

Lemma match_binding_spec : spec src true n match_binding.
Proof. intros st Hg Hm. unfold match_binding. do 2 pstep. pfinish. done. Qed.
#[local] Hint Resolve match_binding_spec : parser.

Lemma match_arm_spec : spec src true n (match_arm n).
Proof.
  intros st Hg Hm. unfold match_arm. do 2 pstep. apply pbind. destruct a0; simpl.
  - eapply pseq; [apply until_spec, match_binding_spec|done|lia|intros bs st3 ???; open_facts].
    pstep. simpl. pstep. proot. pstep. pfinish. done.
  - pstep. proot. pstep. pfinish. done.
Qed.
#[local] Hint Resolve match_arm_spec : parser.

Lemma function_decl_spec : spec src true n (function_decl n).
Proof.
  intros st Hg Hm. unfold function_decl. do 10 pstep.
  apply reject_bind; [done|]; intros Hb%bool_decide_eq_false. do 2 pstep. pfinish. done.
Qed.

Lemma synth_match_ok st :
  good src st -> measure st < n ->
  owp (synth_match n st) (fun '(a, st') =>
    after src st st' /\ (a.1 = None <-> a.2 = []) /\
    node_ok src (lo st) (lo st') (next_node_id_ st) (next_node_id_ st') a) (error_ok src).
Proof.
  intros Hg Hm. unfold synth_match. apply current_kind_bind. case_decide.
  - do 4 pstep. apply reject_bind; [done|]; intros Hb%bool_decide_eq_false. pstep.
    simpl. split; [solve_after|]. split; [naive_solver|].
    split; simpl; [solve_spans|split; [solve_ids|done]].
  - simpl. split; [by apply after_refl|]. split; [done|].
    split; simpl; [constructor|split; [apply ids_in_nil|repeat constructor]].
Qed.

Lemma synth_decl_spec : spec src true n (synth_decl n).
Proof.
  intros st Hg Hm. unfold synth_decl. do 6 pstep. apply pbind.
  eapply owp_mono; [apply synth_match_ok; [done|lia]| |done].
  intros [[sc arms] st7] (? & Hiff & ?). open_facts. do 3 pstep.
  apply reject_bind; [done|]; intros Hb%bool_decide_eq_false. do 2 pstep.
  pfinish. destruct_and?; split_and?; assumption.
Qed.

Lemma inducts_clause_ok st :
  good src st -> measure st < n ->
  owp (inducts_clause n st) (fun '((p, s, e), st') =>
    after src st st' /\ from_option (span_in src (lo st) (lo st')) True s /\
    (forall e', e = Some e' -> kind e' = ECall) /\ (is_Some p -> is_Some s) /\
    node_ok src (lo st) (lo st') (next_node_id_ st) (next_node_id_ st') e) (error_ok src).
Proof.
  intros Hg Hm. unfold inducts_clause. apply current_kind_bind. case_decide.
  - do 5 pstep.
    assert (span_in src (lo st) (lo st'3) (joined (token_span a) (token_span a2))) by solve_spans.
    destruct (kind a1) eqn:Hk; simpl; try (by match goal with H : span_in _ _ _ _ |- _ =>
      apply H end).
    + split; [solve_after|]. split; [done|]. split; [done|]. split; [done|].
      split; simpl; [constructor|split; [apply ids_in_nil|done]].
    + split; [solve_after|]. split; [done|]. split; [naive_solver|]. split; [done|].
      split; simpl; [solve_spans|split; [solve_ids|done]].
  - simpl. split; [by apply after_refl|]. split; [done|]. split; [done|]. split; [by intros [? ?]|].
    split; simpl; [constructor|split; [apply ids_in_nil|done]].
Qed.

(** After the keyword [first] was read from [st0]. *)
Lemma check_decl_after_ok st0 st first b kw :
  after src st0 st -> measure st < measure st0 -> measure st < n ->
  span_in src (lo st0) (lo st) (token_span first) ->
  owp (check_decl_after n first b kw st) (fun '(a, st') =>
    after src st0 st' /\ (true = true -> measure st' < measure st0) /\
    node_ok src (lo st0) (lo st') (next_node_id_ st0) (next_node_id_ st') a) (error_ok src).
Proof.
  intros Ha Hm Hn Hs. open_facts. unfold check_decl_after. do 3 pstep. apply pbind.
  eapply owp_mono; [apply inducts_clause_ok; [done|lia]| |done].
  intros [[[p s] e] st4] (?&Hsp&?&?&?). open_facts. pblock. pblock. pstep.
  destruct s as [s|]; simpl in Hsp; pfinish; destruct_and?; split_and?; auto.
Qed.

Lemma check_decl_spec b : spec src true n (check_decl n b).
Proof.
  intros st Hg Hm. unfold check_decl. pstep. apply check_decl_after_ok;
    [solve_after|lia|lia|solve_spans].
Qed.

Lemma proof_decl_spec : spec src true n (proof_decl n).
Proof.
  intros st Hg Hm. unfold proof_decl. pstep. apply check_decl_after_ok;
    [solve_after|lia|lia|solve_spans].
Qed.

Lemma counterexample_entry_spec : spec src true n (counterexample_entry n).
Proof. intros st Hg Hm. unfold counterexample_entry. do 6 pstep. pfinish. done. Qed.
#[local] Hint Resolve counterexample_entry_spec : parser.

Lemma counterexample_decl_spec : spec src true n (counterexample_decl n).
Proof. intros st Hg Hm. unfold counterexample_decl. do 5 pstep. pfinish. done. Qed.
End Declarations2.

#[export] Hint Resolve let_decl_spec model_decl_spec solve_decl_spec view_decl_spec
  predicate_decl_spec function_decl_spec synth_decl_spec check_decl_spec proof_decl_spec
  counterexample_decl_spec : parser.

(** ** Documents *)

#[export] Instance declaration_node : Node Declaration :=
  {| spans_of d := match d with
       | DEnum d => spans_of d | DLet d => spans_of d | DModel d => spans_of d
       | DSolve d => spans_of d | DView d => spans_of d | DPredicate d => spans_of d
       | DFunction d => spans_of d | DSynth d => spans_of d | DCheck d => spans_of d
       | DCounterexample d => spans_of d end;
     ids_of d := match d with
       | DEnum d => ids_of d | DLet d => ids_of d | DModel d => ids_of d
       | DSolve d => ids_of d | DView d => ids_of d | DPredicate d => ids_of d
       | DFunction d => ids_of d | DSynth d => ids_of d | DCheck d => ids_of d
       | DCounterexample d => ids_of d end;
     shape_of d := match d with
       | DEnum d => shape_of d | DLet d => shape_of d | DModel d => shape_of d
       | DSolve d => shape_of d | DView d => shape_of d | DPredicate d => shape_of d
       | DFunction d => shape_of d | DSynth d => shape_of d | DCheck d => shape_of d
       | DCounterexample d => shape_of d end |}.

#[export] Instance declared_node : Node declared :=
  {| spans_of d := spans_of (declaration d);
     ids_of d := ids_of (declaration d) ++ [declaration_node_id d];
     shape_of d := shape_of (declaration d) |}.

#[export] Instance document_node : Node Document :=
  {| spans_of d := document_span d :: spans_of (declarations d);
     ids_of d := ids_of (declarations d); shape_of d := shape_of (declarations d) |}.

Section Documents.
Context (src : string) (n : nat).

Lemma any_declaration_spec : spec src true n (any_declaration n).
Proof.
  intros st Hg Hm. unfold any_declaration. apply current_kind_bind.
  destruct (token_kind (current_ st)); try (by apply fail_ok);
    (eapply pseq; [solve [eauto with parser]|done|lia|]);
    intros d st' (?&?&?&?) Hm' Hd; simpl; (split; [solve_after|split; [auto|exact Hd]]).
Qed.

Lemma declaration_item_spec : spec src true n (declaration_item n).
Proof.
  intros st Hg Hm. unfold declaration_item.
  eapply pseq; [apply any_declaration_spec|done|lia|intros d st' (?&?&?&?) Hm' (Hs & Hi & Hh)].
  specialize (Hm' eq_refl). apply fresh_bind; [done|]. intros st1 ????.
  split; [solve_after|]. split; [intros; lia|]. split; [|split; [|exact Hh]].
  - eapply Forall_impl; [exact Hs|]. intros ??. eapply span_in_weaken; [eassumption|lia..].
  - eapply ids_in_app; [exact Hi|eapply ids_in_weaken; [apply (ids_in_single (next_node_id_ st'))|lia..]|lia..].
Qed.

(** The whole document: nothing is left but the end of the input. *)
Lemma document_ok st :
  good src st -> measure st < n ->
  owp (document n st) (fun '(d, st') =>
    Forall (span_ok src) (spans_of d) /\ NoDup (ids_of d) /\
    Forall (fun i => next_node_id_ st <= i < next_node_id_ st') (ids_of d) /\ shape_of d)
    (error_ok src).
Proof.
  intros Hg Hm. unfold document. apply pbind. simpl.
  eapply pseq; [apply until_spec, declaration_item_spec|done|lia|].
  intros ds st' (Hg' & Hm' & Hlo & Hid) _ (Hs & [Hn Hf] & Hh). apply pbind. simpl.
  split_and?; [|done..].
  constructor; [|eapply Forall_impl; [exact Hs|]; by intros s (?&_)].
  pose proof (good_lo_hi _ _ Hg'). destruct Hg as (_ & ((?&?&?)&_) & _).
  destruct Hg' as (_ & ((?&?&?)&_) & _). unfold lo, hi in *. split_and!; simpl; [done..|lia].
Qed.

Lemma expression_document_ok st :
  good src st -> measure st < n ->
  owp (expression_document n st) (fun '(e, st') =>
    Forall (span_ok src) (expr_spans e) /\ NoDup (expr_ids e) /\
    Forall (fun i => next_node_id_ st <= i < next_node_id_ st') (expr_ids e) /\ printable e)
    (error_ok src).
Proof.
  intros Hg Hm. unfold expression_document.
  eapply pseq; [apply expr_spec|done|lia|intros e st1 (?&?&?&?) _ (Hs & [Hn Hf] & Hh)].
  eapply pseq; [apply take_eof_spec|done|apply Nat.lt_succ_diag_r|].
  intros t st2 (?&?&?&?) _ _. simpl. split_and?; [|done| |done].
  - eapply Forall_impl; [exact Hs|]. by intros s (?&_).
  - eapply Forall_impl; [exact Hf|]. simpl; lia.
Qed.
End Documents.

(** ** The theorems about parsing *)

(** The first token puts the parser in a good state with enough fuel. *)
Lemma run_ok {A} src (p : P A) (Q : A -> Prop) :
  (forall st, good src st -> measure st < enough_fuel src -> next_node_id_ st = 0 ->
     owp (p st) (fun '(a, _) => Q a) (error_ok src)) ->
  owp (run p src) Q (error_ok src).
Proof.
  intros Hp. unfold run. pose proof (next_spec src (lexer_of src) (reads_start src)) as Hn.
  destruct (next _) as [[t lx]|e|]; simpl in *; [|done..].
  destruct Hn as (Hr & Ht & He & _ & Hz).
  assert (Hg : good src (mkPState lx t 0)) by by split_and!.
  assert (Hm : measure (mkPState lx t 0) < enough_fuel src).
  { apply reads_offset in Hr. unfold measure, enough_fuel; simpl. case_decide; lia. }
  specialize (Hp _ Hg Hm eq_refl). by destruct (p _) as [[a st']|e|].
Qed.

(** What [parse] promises of every source. *)
Lemma parse_wp src :
  owp (parse src) (fun d => Forall (span_ok src) (spans_of d) /\ NoDup (ids_of d) /\ shape_of d)
    (error_ok src).
Proof.
  apply run_ok. intros st Hg Hm _. eapply owp_mono; [by apply document_ok| |done].
  intros [d' st'] (?&?&?&?). done.
Qed.

(** C3. Parsing a document is total: on every byte string [parse] returns a
    document or throws a parse error with a span inside the source; it never
    loops, and the fuel never runs out. *)
Theorem parse_total (src : string) :
  (exists d, parse src = Ok d) \/
  (exists e, parse src = Err e /\ span_ok src (error_span e)).
Proof.
  pose proof (parse_wp src) as H.
  destruct (parse src); simpl in H; naive_solver.
Qed.

(** C21. Node identifiers are unique within one parse: no two declarations,
    expressions or arbitrary fields of a parsed document share one. *)
Theorem parse_node_ids_unique (src : string) (d : Document) :
  parse src = Ok d -> NoDup (ids_of d).
Proof. intros Hd. pose proof (parse_wp src) as H. rewrite Hd in H. by destruct H as (?&?&?). Qed.

(** C22. Every span of a parsed document lies inside the source, is not
    reversed, and has true positions: the line of an offset is one more than the
    number of newlines before it, the column one more than the number of bytes
    since the last of them. *)
Theorem parse_spans_ok (src : string) (d : Document) :
  parse src = Ok d -> Forall (span_ok src) (spans_of d).
Proof. intros Hd. pose proof (parse_wp src) as H. rewrite Hd in H. by destruct H as (?&?&?). Qed.

(** C28. A parsed document has the form its consumers rely on: every
    expression in it is printable (binary expressions have two operands,
    conditionals three, tuples at least two, leaves none; names, calls and holes
    are spelled by identifiers that are not keywords, integers by digits after an
    optional minus sign); declared names are identifiers; enumerations,
    predicates, matches and guarantee blocks are not empty; [let] and [model]
    carry table types; an [inducts] predicate target is a call. *)
Theorem parse_shape (src : string) (d : Document) : parse src = Ok d -> shape_of d.
Proof. intros Hd. pose proof (parse_wp src) as H. rewrite Hd in H. by destruct H as (?&?&?). Qed.

(** C31. [parse_expression] is total, and an expression it returns has unique
    node identifiers, spans inside the source, and is printable. *)
Theorem parse_expression_total (src : string) :
  (exists e, parse_expression src = Ok e /\ Forall (span_ok src) (expr_spans e) /\
             NoDup (expr_ids e) /\ printable e = true) \/
  (exists e, parse_expression src = Err e /\ span_ok src (error_span e)).
Proof.
  assert (H : owp (parse_expression src) (fun e => Forall (span_ok src) (expr_spans e) /\
             NoDup (expr_ids e) /\ printable e = true) (error_ok src)).
  { apply run_ok. intros st Hg Hm _. eapply owp_mono; [by apply expression_document_ok| |done].
    intros [e st'] (?&?&?&?). split_and?; [done..|]. by apply Is_true_true. }
  destruct (parse_expression src); simpl in H; naive_solver.
Qed.

(** ** A document with every kind of expression *)

Definition sample_source : string :=
  "// a sample
enum Nat { zero, succ(p: Nat) }
function add(a: Nat, b: Nat): Nat { match a { zero => b, succ(p) => succ(add(p, b)) } }
let t: Table(Nat, (Bool, Int)) = table(default: (true, -1)) { zero(): (false, 0 + 1), };
predicate even(n: Nat) {
  constructor e0() { takes {} gives even(zero()); }
  constructor e1(n: Nat) { takes { even(n); arbitrary m: V(n) { even(m); } } gives even(succ(n)); }
}
check c(n: Nat) { inducts(even(n)); assumes { if true { n == ?h } else { n >= n } ; } ensures { n == n && true; } }".

Definition sample_document : Document :=
  match parse sample_source with Ok d => d | _ => mkDocument default_span [] end.

Lemma parse_node_ids_unique_witness :
  parse sample_source = Ok sample_document /\ NoDup (ids_of sample_document).
Proof.
  assert (H : parse sample_source = Ok sample_document) by (vm_compute; reflexivity).
  split; [exact H|]. exact (parse_node_ids_unique sample_source sample_document H).
Defined.

Lemma parse_spans_ok_witness :
  parse sample_source = Ok sample_document /\ Forall (span_ok sample_source) (spans_of sample_document).
Proof.
  assert (H : parse sample_source = Ok sample_document) by (vm_compute; reflexivity).
  split; [exact H|]. exact (parse_spans_ok sample_source sample_document H).
Defined.

Lemma parse_shape_witness :
  parse sample_source = Ok sample_document /\ shape_of sample_document.
Proof.
  assert (H : parse sample_source = Ok sample_document) by (vm_compute; reflexivity).
  split; [exact H|]. exact (parse_shape sample_source sample_document H).
Defined.

(** The sample is accepted and has five declarations. *)
Example sample_document_parses : length (declarations sample_document) = 5.
Proof. vm_compute. reflexivity. Qed.
