(* ===== verification/PrintParse.v ===== *)
(** * Printed expressions parse back

    The proof goes through token streams: [tokens e] is the stream the text
    of [e] lexes to ([print_streams]), and the expression parser rebuilds [e]
    from that stream ([reads_primary]). *)

From S2P Require Import Prelude Syntax Lexer LexerSpec Parser ParserSpec DocumentSpec Printer.

(** ** Token streams of a text *)

Abbreviation stoken := (TokenKind * string)%type.

(** From [lx] the lexer delivers the tokens [ts] and then the end of file. *)
Inductive stream : Lexer -> list stoken -> Prop :=
| stream_end lx t lx' :
    next lx = Ok (t, lx') -> token_kind t = T_eof -> stream lx []
| stream_token lx t lx' ts :
    next lx = Ok (t, lx') -> token_kind t <> T_eof -> stream lx' ts ->
    stream lx ((token_kind t, text t) :: ts).

(** The text lexes to [ts] at whatever position it stands. *)
Definition streams (t : string) (ts : list stoken) : Prop := forall p, stream (mkLexer t p) ts.

(** The text does not continue a name or a number. *)
Definition boundary (t : string) : Prop :=
  match t with EmptyString => True | String c _ => is_name_continue c = false end.

Lemma span_while_all p s t :
  all_chars p s -> match t with EmptyString => True | String c _ => p c = false end ->
  span_while p (s +:+ t) = (s, t).
Proof.
  induction s as [|c s IH]; simpl; intros Hs Ht.
  - destruct t as [|c t]; [done|]. simpl. by rewrite Ht.
  - apply andb_True in Hs as [Hc Hs]. apply Is_true_true in Hc. rewrite Hc, IH; done.
Qed.

Lemma skip_here c s p :
  is_space c = false -> c <> "/"%char ->
  skip_space_and_comments (mkLexer (String c s) p) = mkLexer (String c s) p.
Proof.
  intros Hc Hs. unfold skip_space_and_comments. simpl. unfold advance_while. simpl. rewrite Hc.
  simpl. unfold peek. simpl. apply Ascii.eqb_neq in Hs. by rewrite Hs.
Qed.

Lemma skip_one_space c s p :
  is_space c = false -> c <> "/"%char ->
  skip_space_and_comments (mkLexer (String " " (String c s)) p) =
  mkLexer (String c s) (advance_position " " p).
Proof.
  intros Hc Hs. unfold skip_space_and_comments. simpl. unfold advance_while. simpl. rewrite Hc.
  simpl. unfold peek. simpl. apply Ascii.eqb_neq in Hs. by rewrite Hs.
Qed.

(** The first byte of a token: neither white space nor a slash. *)
Definition token_start (c : ascii) : bool := negb (is_space c) && negb (c =? "/")%char.

Lemma next_here c s p : token_start c -> next (mkLexer (String c s) p) = scan c (mkLexer (String c s) p).
Proof.
  intros [H1 H2]%andb_True. unfold next. rewrite skip_here; [done| |].
  - by apply negb_True in H1; destruct (is_space c).
  - by intros ->.
Qed.

Lemma streams_space c s ts : token_start c -> streams (String c s) ts -> streams (String " " (String c s)) ts.
Proof.
  intros Hc Hs p. assert (Hn : next (mkLexer (String " " (String c s)) p) =
    next (mkLexer (String c s) (advance_position " " p))).
  { apply andb_True in Hc as [H1 H2]. unfold next. rewrite skip_one_space, skip_here; [done|..].
    1,3: by apply negb_True in H1; destruct (is_space c). all: by intros ->. }
  specialize (Hs (advance_position " " p)). inversion Hs; subst.
  - econstructor; [by rewrite Hn|done].
  - econstructor; [by rewrite Hn|done..].
Qed.

Lemma streams_nil : streams "" [].
Proof. intros p. by econstructor. Qed.

Lemma streams_name n t ts :
  is_name n -> boundary t -> streams t ts -> streams (n +:+ t) ((keyword n, n) :: ts).
Proof.
  intros Hn Hb Ht p. destruct n as [|c s]; [done|]. simpl in Hn.
  apply andb_True in Hn as [Hc Hs]. apply Is_true_true in Hc.
  assert (Hcs : token_start c).
  { unfold token_start. clear -Hc. destruct c as [[] [] [] [] [] [] [] []]; done. }
  assert (Hn : next (mkLexer ((String c s) +:+ t) p) = Ok (mkToken (keyword (String c s))
    (mkSpan p (advance_over (String c s) p)) (String c s), mkLexer t (advance_over (String c s) p))).
  { simpl. rewrite next_here by done. unfold scan. rewrite Hc. unfold advance_while, advance. simpl.
    by rewrite span_while_all. }
  eapply (stream_token _ (mkToken _ _ (String c s))); [exact Hn|apply keyword_not_eof|apply Ht].
Qed.

Lemma streams_integer n t ts :
  is_numeral n -> boundary t -> streams t ts -> streams (n +:+ t) ((T_integer, n) :: ts).
Proof.
  intros Hn Hb Ht p. destruct n as [|c s]; [done|]. simpl in Hn.
  apply andb_True in Hn as [Hc Hs]. apply Is_true_true in Hc.
  assert (Hcs : token_start c /\ is_name_start c = false).
  { unfold token_start. clear -Hc. destruct c as [[] [] [] [] [] [] [] []]; done. }
  destruct Hcs as [Hcs Hns].
  assert (Hn : next (mkLexer ((String c s) +:+ t) p) = Ok (mkToken T_integer
    (mkSpan p (advance_over (String c s) p)) (String c s), mkLexer t (advance_over (String c s) p))).
  { simpl. rewrite next_here by done. unfold scan. rewrite Hns, Hc. unfold advance_while, advance.
    simpl. rewrite span_while_all; [done..|]. destruct t; [done|]. simpl in Hb.
    unfold is_name_continue in Hb. by apply orb_false_iff in Hb as [_ ?]. }
  eapply (stream_token _ (mkToken _ _ (String c s))); [exact Hn|done|apply Ht].
Qed.

(** A byte that is a token by itself whatever follows it. *)
Definition punctuation (c : ascii) : bool :=
  token_start c && negb (is_name_start c) && negb (is_digit c) &&
  negb ((c =? "=") || (c =? ">") || (c =? "<") || (c =? "&") || (c =? "|"))%char.

Lemma streams_punctuation c k t ts :
  punctuation c -> one_char_token c = Some k -> streams t ts ->
  streams (String c t) ((k, String c "") :: ts).
Proof.
  intros Hp Hk Ht p. unfold punctuation in Hp. rewrite !andb_True, !negb_True in Hp.
  destruct Hp as [[[Hs Hn] Hd] Ho].
  assert (Hnx : next (mkLexer (String c t) p) = Ok (mkToken k (mkSpan p (advance_position c p))
    (String c ""), mkLexer t (advance_position c p))).
  { rewrite next_here by done. unfold scan.
    destruct (is_name_start c); [done|]. destruct (is_digit c); [done|].
    assert (H2 : forall d, two_char_operator c d = None).
    { intros d. unfold two_char_operator.
      destruct (c =? "=")%char, (c =? ">")%char, (c =? "<")%char, (c =? "&")%char,
        (c =? "|")%char; done. }
    rewrite H2, Hk. done. }
  eapply (stream_token _ (mkToken k _ (String c ""))); [exact Hnx|by eapply one_char_not_eof|apply Ht].
Qed.

Definition operator_token (op : BinaryOp) : TokenKind :=
  match op with
  | OpEqual => T_equal_equal | OpGreaterEqual => T_greater_equal | OpLessEqual => T_less_equal
  | OpLogicalAnd => T_logical_and | OpLogicalOr => T_logical_or
  | OpAdd => T_plus | OpSubtract => T_minus
  end.

Lemma streams_operator op t ts :
  streams t ts -> streams (operator_text op +:+ t) ((operator_token op, operator_text op) :: ts).
Proof.
  intros Ht. destruct op; try (by apply streams_punctuation); intros p; simpl;
    match goal with |- stream _ ((?k, ?o) :: _) =>
      eapply (stream_token _ (mkToken k (mkSpan p (advance_over o p)) o)) end;
    try (rewrite next_here by done; reflexivity); try done; apply Ht.
Qed.

(** ** The tokens of a printed expression *)

Fixpoint comma_tokens (l : list (list stoken)) : list stoken :=
  match l with
  | [] => []
  | [x] => x
  | x :: l' => x ++ (T_comma, ",") :: comma_tokens l'
  end.

Definition integer_tokens (i : string) : list stoken :=
  match i with
  | String c s => if (c =? "-")%char then [(T_minus, "-"); (T_integer, s)] else [(T_integer, i)]
  | EmptyString => []
  end.

Fixpoint tokens (e : Expr) : list stoken :=
  match e with
  | mkExpr k _ n b i op es _ =>
      match k with
      | EName => [(T_identifier, n)]
      | EBoolean => if b then [(T_true, "true")] else [(T_false, "false")]
      | EInteger => integer_tokens i
      | ECall => (T_identifier, n) :: (T_left_paren, "(") ::
                 comma_tokens (List.map tokens es) ++ [(T_right_paren, ")")]
      | ETuple => (T_left_paren, "(") :: comma_tokens (List.map tokens es) ++ [(T_right_paren, ")")]
      | EBinary =>
          match es with
          | l :: r :: _ => (T_left_paren, "(") :: tokens l ++ (operator_token op, operator_text op) ::
                           tokens r ++ [(T_right_paren, ")")]
          | _ => []
          end
      | EConditional =>
          match es with
          | c :: y :: z :: _ =>
              (T_if, "if") :: tokens c ++ (T_left_brace, "{") :: tokens y ++
              (T_right_brace, "}") :: (T_else, "else") :: (T_left_brace, "{") :: tokens z ++
              [(T_right_brace, "}")]
          | _ => []
          end
      | EHole => [(T_question, "?"); (T_identifier, n)]
      end
  end.

Lemma name_start_token c : is_name_start c = true -> token_start c.
Proof. destruct c as [[] [] [] [] [] [] [] []]; done. Qed.

Lemma digit_token c : is_digit c = true -> token_start c.
Proof. destruct c as [[] [] [] [] [] [] [] []]; done. Qed.

Lemma name_cons n : is_name n -> exists c s, n = String c s /\ token_start c.
Proof.
  destruct n as [|c s]; [done|]. intros [Hc%Is_true_true _]%andb_True.
  eauto using name_start_token.
Qed.

Lemma identifier_name n : is_identifier n -> is_name n /\ keyword n = T_identifier.
Proof. intros [? ?%bool_decide_unpack]%andb_True. done. Qed.

Lemma integer_cons i : is_integer i -> exists c s, i = String c s /\ token_start c.
Proof.
  destruct i as [|c s]; [done|]. simpl. destruct (c =? "-")%char eqn:E.
  - apply Ascii.eqb_eq in E as ->. by eexists _, _.
  - intros [Hc%Is_true_true _]%andb_True. eauto using digit_token.
Qed.

(** A printed expression begins with a token. *)
Lemma print_cons e : printable e -> exists c s, print_expression e = String c s /\ token_start c.
Proof.
  destruct e as [k sp n b i op es id]. intros [Hk _]%andb_True. destruct k; simpl in *.
  - apply andb_True in Hk as [[Hn _]%identifier_name _]. by apply name_cons.
  - destruct b; by eexists _, _.
  - apply andb_True in Hk as [Hi _]. by apply integer_cons.
  - by eexists _, _.
  - apply identifier_name in Hk as [[c [s [-> ?]]]%name_cons _]. by eexists _, _.
  - destruct es as [|? [|? es]]; [done..|]. by eexists _, _.
  - destruct es as [|? [|? [|? es]]]; [done..|]. by eexists _, _.
  - by eexists _, _.
Qed.

Definition prints (e : Expr) : Prop :=
  forall t ts, boundary t -> streams t ts -> streams (print_expression e +:+ t) (tokens e ++ ts).

Lemma streams_space_print e t ts :
  printable e -> streams (print_expression e +:+ t) ts -> streams (" " +:+ print_expression e +:+ t) ts.
Proof. intros (c & s & -> & Hc)%print_cons. by apply streams_space. Qed.

Lemma concat_streams es t ts :
  Forall (fun e => printable e /\ prints e) es -> boundary t -> streams t ts ->
  streams (String.concat ", " (List.map print_expression es) +:+ t)
          (comma_tokens (List.map tokens es) ++ ts).
Proof.
  intros Hes Hb Ht. induction Hes as [|e es [Hp He] Hes IH]; [done|].
  destruct es as [|e' es]; [by apply He|].
  change (List.map print_expression (e :: e' :: es)) with
    (print_expression e :: print_expression e' :: List.map print_expression es).
  rewrite concat_cons, !append_assoc.
  change (comma_tokens (List.map tokens (e :: e' :: es))) with
    (tokens e ++ (T_comma, ",") :: comma_tokens (List.map tokens (e' :: es))).
  rewrite <- app_assoc.
  apply He; [done|]. apply streams_punctuation; [done..|].
  inversion Hes as [|?? [Hp' _] _]; subst.
  change (List.map print_expression (e' :: es)) with
    (print_expression e' :: List.map print_expression es) in IH.
  destruct (print_cons _ Hp') as (c & s & Hs & Hc).
  assert (Hcons : exists u, String.concat ", " (print_expression e' :: List.map print_expression es)
    +:+ t = String c u).
  { simpl. rewrite Hs. destruct (List.map print_expression es); simpl; eauto. }
  destruct Hcons as [u Hu]. rewrite Hu in IH |- *. by apply streams_space.
Qed.

(** The text of a printable expression lexes to its tokens. *)
Lemma print_streams e : printable e -> prints e.
Proof.
  induction e as [k sp n b i op es id IH] using Expr_nested_ind.
  intros [Hk Hes]%andb_True t ts Hb Ht. apply forallb_True in Hes.
  assert (Hall : Forall (fun e => printable e /\ prints e) es).
  { apply Forall_forall. intros e He. rewrite Forall_forall in IH, Hes. auto. }
  clear IH Hes. destruct k; simpl in *.
  - apply andb_True in Hk as [[Hn <-]%identifier_name _]. by apply streams_name.
  - destruct b; [by apply (streams_name "true")|by apply (streams_name "false")].
  - apply andb_True in Hk as [Hi _]. destruct i as [|c s]; [done|]. simpl in Hi |- *.
    destruct (c =? "-")%char eqn:E.
    + apply Ascii.eqb_eq in E as ->. apply streams_punctuation; [done..|].
      by apply streams_integer.
    + by apply (streams_integer (String c s)).
  - apply streams_punctuation; [done..|]. rewrite append_assoc, <- app_assoc.
    apply concat_streams; [done..|]. by apply streams_punctuation.
  - apply identifier_name in Hk as [Hn Hk]. rewrite !append_assoc, <- Hk.
    apply streams_name; [done..|]. apply streams_punctuation; [done..|].
    rewrite append_assoc, <- app_assoc.
    apply concat_streams; [done..|]. by apply streams_punctuation.
  - destruct es as [|l [|r [|? es]]]; [done..| |done].
    rewrite !Forall_cons in Hall. destruct Hall as ([Pl Hl] & [Pr Hr] & _). simpl.
    apply streams_punctuation; [done..|]. rewrite !append_assoc, <- app_assoc.
    apply Hl; [done|]. rewrite <- app_comm_cons, <- app_assoc.
    assert (Ho : exists c u, operator_text op = String c u /\ token_start c)
      by (destruct op; by eexists _, _).
    destruct Ho as (c & u & Ho & Hc).
    enough (streams (operator_text op +:+ " " +:+ print_expression r +:+ ")" +:+ t)
      ((operator_token op, operator_text op) :: tokens r ++ [(T_right_paren, ")")] ++ ts)) as Hs.
    { rewrite Ho in Hs |- *. simpl in Hs |- *. rewrite !append_assoc. simpl. rewrite append_assoc. by apply streams_space. }
    apply streams_operator, streams_space_print; [done|]. apply Hr; [done|].
    by apply streams_punctuation.
  - destruct es as [|c [|y [|z [|? es]]]]; [done..| |done].
    rewrite !Forall_cons in Hall. destruct Hall as ([Pc Hc] & [Py Hy] & [Pz Hz] & _). simpl.
    rewrite ?append_assoc, <- ?app_assoc. simpl.
    apply (streams_name "if"); [done..|].
    apply streams_space_print; [done|]. apply Hc; [done|].
    apply streams_space; [done|]. apply streams_punctuation; [done..|].
    rewrite ?append_assoc, <- ?app_assoc. simpl.
    apply streams_space_print; [done|]. apply Hy; [done|].
    apply streams_space; [done|]. apply streams_punctuation; [done..|].
    apply streams_space; [done|]. apply (streams_name "else"); [done..|].
    apply streams_space; [done|]. apply streams_punctuation; [done..|].
    rewrite ?append_assoc, <- ?app_assoc. simpl.
    apply streams_space_print; [done|]. apply Hz; [done|].
    apply streams_space; [done|]. by apply streams_punctuation.
  - apply andb_True in Hk as [[Hn <-]%identifier_name _]. apply streams_punctuation; [done..|].
    by apply streams_name.
Qed.

(** ** Parsing from a token stream *)

(** The parser looks at the first token of [ts], the lexer at the rest. *)
Definition at_ (st : PState) (ts : list stoken) : Prop :=
  match ts with
  | [] => token_kind (current_ st) = T_eof /\ rest_ (lexer_ st) = ""
  | (k, t) :: ts' => token_kind (current_ st) = k /\ text (current_ st) = t /\ k <> T_eof /\
                     stream (lexer_ st) ts'
  end.

Definition head_kind (ts : list stoken) : TokenKind :=
  match ts with [] => T_eof | (k, _) :: _ => k end.

Lemma at_head st ts : at_ st ts -> token_kind (current_ st) = head_kind ts.
Proof. destruct ts as [|[k t] ts]; by intros [? _]. Qed.

Lemma next_eof_rest lx t lx' : next lx = Ok (t, lx') -> token_kind t = T_eof -> rest_ lx' = "".
Proof.
  intros Hn Hk. unfold next in Hn. revert Hn. unfold at_end.
  destruct (rest_ (skip_space_and_comments lx)) as [|c s] eqn:E; [by intros [= <- <-]|].
  unfold scan. repeat case_match; intros [= <- <-]; simpl in Hk; try done; exfalso; subst;
    first [by eapply keyword_not_eof | by eapply one_char_not_eof | by eapply two_char_not_eof].
Qed.

Lemma stream_at lx ts id : stream lx ts ->
  exists t lx', next lx = Ok (t, lx') /\ at_ (mkPState lx' t id) ts.
Proof.
  inversion 1; subst; eexists _, _; (split; [eassumption|]); simpl; eauto using next_eof_rest.
Qed.

(** [p] succeeds from [st] with a result and state in [R]. *)
Definition runs {A} (p : P A) (st : PState) (R : A -> PState -> Prop) : Prop :=
  exists a st', p st = Ok (a, st') /\ R a st'.

Lemma runs_bind {A B} (p : P A) (k : A -> P B) st R :
  runs p st (fun a st' => runs (k a) st' R) -> runs (p ≫= k) st R.
Proof.
  intros (a & st' & Hp & b & st'' & Hk & HR). exists b, st''.
  split; [|done]. unfold mbind, P_bind. by rewrite Hp.
Qed.

Lemma runs_ret {A} (a : A) st (R : A -> PState -> Prop) : R a st -> runs (mret a) st R.
Proof. intros. by exists a, st. Qed.

Lemma runs_mono {A} (p : P A) st (R R' : A -> PState -> Prop) :
  runs p st R -> (forall a st', R a st' -> R' a st') -> runs p st R'.
Proof. intros (a & st' & Hp & HR) Himp. exists a, st'. eauto. Qed.

Lemma runs_kind {B} (k : TokenKind -> P B) st ts R :
  at_ st ts -> runs (k (head_kind ts)) st R -> runs (current_kind ≫= k) st R.
Proof. intros Hst Hk. apply runs_bind. exists (head_kind ts), st.
  split; [|done]. unfold current_kind. by rewrite (at_head _ _ Hst). Qed.

Lemma runs_advance st k t ts R :
  at_ st ((k, t) :: ts) -> (forall st', at_ st' ts -> R tt st') -> runs advance_token st R.
Proof.
  intros (_ & _ & _ & Hs) HR. destruct (stream_at _ _ (next_node_id_ st) Hs) as (t' & lx & Hn & Ha).
  exists tt, (mkPState lx t' (next_node_id_ st)). split; [|by apply HR].
  unfold advance_token. by rewrite Hn.
Qed.

Lemma runs_take st k t ts c (R : Token -> PState -> Prop) :
  at_ st ((k, t) :: ts) ->
  (forall tok st', text tok = t -> at_ st' ts -> R tok st') -> runs (take k c) st R.
Proof.
  intros Hst HR. pose proof Hst as (Hk & Ht & _). unfold take. apply runs_bind.
  eexists _, _. split; [done|]. simpl. rewrite decide_True by done. apply runs_bind.
  eapply runs_advance; [done|]. intros st' Hst'. apply runs_ret. eauto.
Qed.

Lemma runs_accept_yes st k t ts (R : bool -> PState -> Prop) :
  at_ st ((k, t) :: ts) -> (forall st', at_ st' ts -> R true st') -> runs (accept k) st R.
Proof.
  intros Hst HR. pose proof Hst as (Hk & Ht & _). unfold accept. apply runs_bind.
  eexists _, _. split; [done|]. simpl. rewrite decide_True by done. apply runs_bind.
  eapply runs_advance; [done|]. intros st' Hst'. apply runs_ret. eauto.
Qed.

Lemma runs_accept_no st k ts (R : bool -> PState -> Prop) :
  at_ st ts -> head_kind ts <> k -> R false st -> runs (accept k) st R.
Proof.
  intros Hst Hk HR. unfold accept. apply runs_bind. eexists _, _. split; [done|]. simpl.
  rewrite decide_False by by rewrite (at_head _ _ Hst). by apply runs_ret.
Qed.

Lemma runs_identified e st (R : Expr -> PState -> Prop) :
  (forall id st', (forall ts, at_ st ts -> at_ st' ts) -> R (e id) st') -> runs (identified e) st R.
Proof.
  intros HR. eexists _, _. split; [done|]. apply HR. intros [|[k t] ts]; done.
Qed.

Ltac rtake := apply runs_bind; eapply runs_take; [eassumption|]; intros ? ? ? ?.

(** ** Operators after a primary expression *)

(** A token that ends an expression: no operator and no opening parenthesis. *)
Definition stops (k : TokenKind) : bool :=
  match k with
  | T_eof | T_comma | T_right_paren | T_left_brace | T_right_brace | T_semicolon | T_colon => true
  | _ => false
  end.

(** [p] reads a rendering of [e] and leaves [ts]. *)
Definition reads_expr (p : P Expr) (st : PState) (e : Expr) (ts : list stoken) : Prop :=
  runs p st (fun e' st' => erase e' = erase e /\ at_ st' ts).

Lemma la_stop f operator operand e st ts R :
  at_ st ts -> operator (head_kind ts) = None -> R e st ->
  runs (left_associative f operator operand e) st R.
Proof.
  intros Hst Ho HR. destruct f; simpl; eapply runs_kind; [done| |done|]; rewrite Ho; by apply runs_ret.
Qed.

Lemma level_stop f operator operand st e ts :
  reads_expr operand st e ts -> operator (head_kind ts) = None ->
  reads_expr (x ← operand; left_associative f operator operand x) st e ts.
Proof.
  intros Hr Ho. apply runs_bind. eapply runs_mono; [exact Hr|]. intros e' st' [He Hst'].
  by eapply la_stop.
Qed.

(** Two operands around one operator, at the operator's level. *)
Lemma level_once f operator operand st op t l r ts1 ts :
  0 < f -> reads_expr operand st l ((operator_token op, t) :: ts1) ->
  operator (operator_token op) = Some op ->
  (forall st', at_ st' ts1 -> reads_expr operand st' r ts) ->
  operator (head_kind ts) = None ->
  reads_expr (x ← operand; left_associative f operator operand x) st
    (mkExpr EBinary default_span "" false "" op [l; r] 0) ts.
Proof.
  intros Hf Hl Ho Hr Hstop. apply runs_bind. eapply runs_mono; [exact Hl|].
  intros l' st1 [El Hst1]. destruct f as [|f]; [lia|]. simpl. eapply runs_kind; [done|].
  simpl. rewrite Ho. apply runs_bind. eapply runs_advance; [done|]. intros st2 Hst2.
  apply runs_bind. eapply runs_mono; [by apply Hr|]. intros r' st3 [Er Hst3].
  apply runs_bind. apply runs_identified. intros id st4 H4.
  eapply la_stop; [by apply H4|done|]. split; [|by apply H4]. simpl. by rewrite El, Er.
Qed.

Section Levels.
Context (n : nat) (ex : P Expr).

Lemma stops_none k : stops k -> additive_op k = None /\ relational_op k = None /\
  equality_op k = None /\ and_op k = None /\ or_op k = None.
Proof. by destruct k. Qed.

Lemma expr_of_primary st e ts :
  stops (head_kind ts) -> reads_expr (primary n ex) st e ts ->
  reads_expr (logical_or n ex) st e ts.
Proof.
  intros (?&?&?&?&?)%stops_none Hp. unfold logical_or, logical_and, equality, relational, additive.
  by repeat apply level_stop.
Qed.

Lemma expr_of_binary st op t l r ts1 ts :
  0 < n -> stops (head_kind ts) ->
  reads_expr (primary n ex) st l ((operator_token op, t) :: ts1) ->
  (forall st', at_ st' ts1 -> reads_expr (primary n ex) st' r ts) ->
  reads_expr (logical_or n ex) st (mkExpr EBinary default_span "" false "" op [l; r] 0) ts.
Proof.
  intros Hn (?&?&?&?&?)%stops_none Hl Hr.
  unfold logical_or, logical_and, equality, relational, additive.
  destruct op; repeat first
    [ eapply level_once;
        [exact Hn|repeat (apply level_stop; [|reflexivity]); exact Hl|reflexivity
        |intros st' Hst'; repeat (apply level_stop; [|assumption]); by apply Hr|assumption]
    | apply level_stop; [|assumption] ].
Qed.
End Levels.

(** ** Primary expressions *)

Definition starts_expr (k : TokenKind) : bool :=
  match k with
  | T_question | T_identifier | T_true | T_false | T_integer | T_minus | T_if | T_left_paren => true
  | _ => false
  end.

Lemma tokens_head e ts : printable e -> starts_expr (head_kind (tokens e ++ ts)) /\ 1 <= length (tokens e).
Proof.
  destruct e as [k sp n b i op es id]. intros [Hk _]%andb_True. destruct k; simpl in *.
  1,4,5,8: split; [done|simpl; lia].
  - by destruct b.
  - apply andb_True in Hk as [Hi _]. unfold is_integer, integer_tokens in *.
    destruct i as [|c s]; [done|]. destruct (c =? "-")%char; simpl; split; (done || lia).
  - destruct es as [|? [|? es]]; [done..|]. simpl. split; [done|lia].
  - destruct es as [|? [|? [|? es]]]; [done..|]. simpl. split; [done|lia].
Qed.

(** The tokens after the first element of a comma-separated list. *)
Definition tail_tokens (es : list Expr) : list stoken :=
  es ≫= (fun e => (T_comma, ",") :: tokens e).

Lemma comma_tokens_cons e es :
  comma_tokens (List.map tokens (e :: es)) = tokens e ++ tail_tokens es.
Proof.
  revert e; induction es as [|e' es IH]; intros e; [by rewrite app_nil_r|].
  change (comma_tokens (List.map tokens (e :: e' :: es))) with
    (tokens e ++ (T_comma, ",") :: comma_tokens (List.map tokens (e' :: es))).
  by rewrite IH.
Qed.

Lemma tail_tokens_length es : Forall (fun e => printable e) es -> length es <= length (tail_tokens es).
Proof.
  induction 1 as [|e es He Hes IH]; [done|]. unfold tail_tokens in *. rewrite bind_cons, length_app.
  simpl. lia.
Qed.

Lemma separator_stop st stop t m ts (R : unit -> PState -> Prop) :
  at_ st ((stop, t) :: ts) -> stop <> T_comma -> R tt st -> runs (separator stop m) st R.
Proof.
  intros Hst Hne HR. unfold separator. apply runs_bind. eapply runs_accept_no; [done|done|].
  eapply runs_kind; [done|]. simpl. rewrite decide_True by done. by apply runs_ret.
Qed.

Lemma separator_comma st stop c m ts (R : unit -> PState -> Prop) :
  at_ st ((T_comma, c) :: ts) -> (forall st', at_ st' ts -> R tt st') -> runs (separator stop m) st R.
Proof.
  intros Hst HR. unfold separator. apply runs_bind. eapply runs_accept_yes; [done|].
  intros st' Hst'. apply runs_ret. auto.
Qed.

Section Lists.
Context (ex : P Expr).

(** [ex] reads every printable expression short enough, up to a stop. *)
Definition reads_all (bound : nat) : Prop := forall e st ts,
  printable e -> length (tokens e) < bound -> stops (head_kind ts) ->
  at_ st (tokens e ++ ts) -> reads_expr ex st e ts.

Context (bound : nat) (Hex : reads_all bound).

(** The arguments of a call. *)
Lemma runs_arguments f es st ts m :
  Forall (fun e => printable e) es -> length (comma_tokens (List.map tokens es)) < bound ->
  length es <= f ->
  at_ st (comma_tokens (List.map tokens es) ++ (T_right_paren, ")") :: ts) ->
  runs (until f T_right_paren (e ← ex; separator T_right_paren m ;; mret e)) st
    (fun es' st' => List.map erase es' = List.map erase es /\ at_ st' ((T_right_paren, ")") :: ts)).
Proof.
  revert f st; induction es as [|e es IH]; intros f st Hes Hb Hf Hst.
  - destruct f; (eapply runs_kind; [exact Hst|]); simpl; by apply runs_ret.
  - inversion Hes as [|? ? He Hes']; subst. simpl in Hf. destruct f as [|f]; [lia|].
    rewrite comma_tokens_cons, <- app_assoc in Hst. rewrite comma_tokens_cons, length_app in Hb.
    destruct (tokens_head e (tail_tokens es ++ (T_right_paren, ")") :: ts) He) as [Hh Hl].
    simpl. eapply runs_kind; [exact Hst|]. rewrite decide_False by (intros E; by rewrite E in Hh).
    apply runs_bind.
    assert (Hsep : runs (e ← ex; separator T_right_paren m ;; mret e) st (fun e' st' =>
      erase e' = erase e /\
      at_ st' (comma_tokens (List.map tokens es) ++ (T_right_paren, ")") :: ts))).
    { apply runs_bind.
      eapply runs_mono; [eapply (Hex e st (tail_tokens es ++ (T_right_paren, ")") :: ts));
        [done|lia|by destruct es|exact Hst]|].
      intros e' st1 [E1 Hst1]. apply runs_bind. destruct es as [|e2 es].
      - eapply separator_stop; [exact Hst1|done|]. by apply runs_ret.
      - unfold tail_tokens in Hst1. rewrite bind_cons, <- app_assoc in Hst1.
        eapply separator_comma; [exact Hst1|]. intros st2 Hst2. apply runs_ret.
        split; [done|]. by rewrite comma_tokens_cons, <- app_assoc. }
    eapply runs_mono; [exact Hsep|]. intros e' st1 [E1 Hst1]. apply runs_bind.
    eapply runs_mono; [apply (IH f st1); [done| |lia|exact Hst1]|].
    { destruct es as [|e2 es]; [simpl; lia|]. rewrite comma_tokens_cons.
      unfold tail_tokens in Hb. rewrite bind_cons, length_app in Hb. simpl in Hb.
      rewrite length_app. unfold tail_tokens. lia. }
    intros es' st3 [E3 Hst3]. apply runs_ret. simpl. by rewrite E1, E3.
Qed.

(** The elements of a tuple after the second. *)
Lemma runs_after_commas f es st ts :
  Forall (fun e => printable e) es -> length (tail_tokens es) < bound -> length es <= f ->
  at_ st (tail_tokens es ++ (T_right_paren, ")") :: ts) ->
  runs (after_commas f ex) st
    (fun es' st' => List.map erase es' = List.map erase es /\ at_ st' ((T_right_paren, ")") :: ts)).
Proof.
  revert f st; induction es as [|e es IH]; intros f st Hes Hb Hf Hst.
  - destruct f; simpl; apply runs_bind; (eapply runs_accept_no; [exact Hst|done|]); by apply runs_ret.
  - inversion Hes as [|? ? He Hes']; subst. simpl in Hf. destruct f as [|f]; [lia|].
    unfold tail_tokens in Hst, Hb. rewrite bind_cons, <- app_assoc in Hst.
    rewrite bind_cons, length_app in Hb. simpl in Hb. simpl.
    apply runs_bind. eapply runs_accept_yes; [exact Hst|]. intros st1 Hst1.
    change (at_ st1 (tokens e ++ tail_tokens es ++ (T_right_paren, ")") :: ts)) in Hst1.
    destruct (tokens_head e (tail_tokens es ++ (T_right_paren, ")") :: ts) He) as [Hh Hl].
    eapply runs_kind; [exact Hst1|]. rewrite decide_False by (intros E; by rewrite E in Hh).
    apply runs_bind.
    eapply runs_mono; [eapply (Hex e st1 (tail_tokens es ++ (T_right_paren, ")") :: ts));
      [done|lia|by destruct es|exact Hst1]|].
    intros e' st2 [E2 Hst2]. apply runs_bind.
    eapply runs_mono; [apply (IH f st2); [done|unfold tail_tokens; lia|lia|exact Hst2]|].
    intros es' st3 [E3 Hst3]. apply runs_ret. simpl. by rewrite E2, E3.
Qed.
End Lists.

(** ** The round trip *)

(** [primary] with fuel [n] reads every printable expression of at most [n]
    tokens. *)
Definition primary_reads (n : nat) : Prop := forall e st ts,
  printable e -> length (tokens e) <= n -> head_kind ts <> T_left_paren ->
  at_ st (tokens e ++ ts) -> reads_expr (primary n (expr n)) st e ts.

Lemma reads_all_of_primary m : primary_reads m -> reads_all (expr (S m)) (S m).
Proof.
  intros Hm e st ts He Hl Hs Hst. simpl. apply expr_of_primary; [done|].
  apply Hm; [done|lia| |done]. intros E. by rewrite E in Hs.
Qed.

Section PrimaryStep.
Context (n : nat) (IHexpr : reads_all (expr n) n).
Context (IHprimary : forall m, m < n -> primary_reads m).

Lemma reads_leaf (k : ExprKind) sp nm b i op id sp' nm' b' i' op' st ts :
  erase (mkExpr k sp' nm' b' i' op' [] 0) = erase (mkExpr k sp nm b i op [] id) ->
  at_ st ts ->
  reads_expr (identified (mkExpr k sp' nm' b' i' op' [])) st (mkExpr k sp nm b i op [] id) ts.
Proof. intros He Hst. apply runs_identified. intros id0 st' H'. split; [exact He|auto]. Qed.

Lemma reads_name sp nm b i op id st ts :
  head_kind ts <> T_left_paren -> at_ st ((T_identifier, nm) :: ts) ->
  reads_expr (name_or_call n (expr n)) st (mkExpr EName sp nm b i op [] id) ts.
Proof.
  intros Hh Hst. unfold name_or_call, reads_expr. rtake. apply runs_bind.
  eapply runs_accept_no; [done|done|]. subst. by apply reads_leaf.
Qed.

Lemma reads_call sp nm b i op es id st ts :
  Forall (fun e => printable e) es -> length (comma_tokens (List.map tokens es)) + 3 <= n ->
  at_ st ((T_identifier, nm) :: (T_left_paren, "(") ::
          comma_tokens (List.map tokens es) ++ (T_right_paren, ")") :: ts) ->
  reads_expr (name_or_call n (expr n)) st (mkExpr ECall sp nm b i op es id) ts.
Proof.
  intros Hes Hl Hst. unfold name_or_call, reads_expr. rtake. apply runs_bind.
  eapply runs_accept_yes; [done|]. intros st2 Hst2. apply runs_bind.
  assert (Hlen : length es <= n).
  { destruct es as [|e es]; [simpl; lia|]. rewrite comma_tokens_cons, length_app in Hl.
    inversion Hes as [|? ? He Hes']; subst. pose proof (tail_tokens_length _ Hes').
    pose proof (tokens_head e [] He). simpl. lia. }
  eapply runs_mono; [eapply runs_arguments; [exact IHexpr|done|lia|exact Hlen|exact Hst2]|].
  intros es' st3 [Ees Hst3]. rtake. apply runs_identified. intros idn stn Hkeep.
  subst. split; [simpl; by rewrite Ees|auto].
Qed.

Lemma reads_tuple sp nm b i op e1 e2 es id st ts :
  Forall (fun e => printable e) (e1 :: e2 :: es) ->
  length (comma_tokens (List.map tokens (e1 :: e2 :: es))) + 2 <= n ->
  at_ st ((T_left_paren, "(") ::
          comma_tokens (List.map tokens (e1 :: e2 :: es)) ++ (T_right_paren, ")") :: ts) ->
  reads_expr (group_or_tuple n (expr n)) st (mkExpr ETuple sp nm b i op (e1 :: e2 :: es) id) ts.
Proof.
  intros Hes Hl Hst. inversion Hes as [|? ? He1 Hes1]; subst.
  inversion Hes1 as [|? ? He2 Hes2]; subst. pose proof (tail_tokens_length _ Hes2).
  rewrite comma_tokens_cons in Hl, Hst. unfold tail_tokens in Hl, Hst.
  rewrite bind_cons in Hl, Hst. fold (tail_tokens es) in Hl, Hst.
  rewrite !length_app in Hl. simpl in Hl. rewrite <- !app_assoc in Hst.
  unfold group_or_tuple, reads_expr. rtake. apply runs_bind.
  eapply runs_mono; [eapply (IHexpr e1); [done|lia| |eassumption]; done|].
  intros e1' st2 [E1 Hst2]. apply runs_bind.
  eapply runs_accept_yes; [exact Hst2|]. intros st3 Hst3. simpl. apply runs_bind.
  eapply runs_mono; [eapply (IHexpr e2 st3 (tail_tokens es ++ (T_right_paren, ")") :: ts));
    [done|lia|by destruct es|exact Hst3]|].
  intros e2' st4 [E2 Hst4]. apply runs_bind.
  eapply runs_mono; [eapply runs_after_commas; [exact IHexpr|done|lia|lia|exact Hst4]|].
  intros es' st5 [Ees Hst5]. rtake. apply runs_identified. intros idn stn Hkeep.
  split; [|auto]. simpl. by rewrite E1, E2, Ees.
Qed.

Lemma reads_binary sp nm b i op l r id st ts :
  printable l -> printable r -> length (tokens l) + length (tokens r) + 3 <= n ->
  at_ st ((T_left_paren, "(") :: tokens l ++ (operator_token op, operator_text op) ::
          tokens r ++ (T_right_paren, ")") :: ts) ->
  reads_expr (group_or_tuple n (expr n)) st (mkExpr EBinary sp nm b i op [l; r] id) ts.
Proof.
  intros Hl Hr Hn Hst. destruct n as [|m] eqn:En; [lia|].
  unfold group_or_tuple, reads_expr. rtake. apply runs_bind. simpl.
  assert (Hm : primary_reads m) by (apply IHprimary; lia).
  pose proof (tokens_head l [] Hl). pose proof (tokens_head r [] Hr).
  eapply runs_mono; [eapply (expr_of_binary m (expr m) _ op (operator_text op) l r
    (tokens r ++ (T_right_paren, ")") :: ts) ((T_right_paren, ")") :: ts))|].
  - lia.
  - done.
  - apply Hm; [done|lia|by destruct op|done].
  - intros st2 Hst2. apply Hm; [done|lia|done|done].
  - intros e' st3 [E3 Hst3]. apply runs_bind. eapply runs_accept_no; [exact Hst3|done|].
    simpl. rtake. apply runs_ret. by split.
Qed.

Lemma reads_conditional sp nm b i op c y z id st ts :
  printable c -> printable y -> printable z ->
  length (tokens c) + length (tokens y) + length (tokens z) + 6 <= n ->
  at_ st ((T_if, "if") :: tokens c ++ (T_left_brace, "{") :: tokens y ++
          (T_right_brace, "}") :: (T_else, "else") :: (T_left_brace, "{") :: tokens z ++
          (T_right_brace, "}") :: ts) ->
  reads_expr (conditional (expr n)) st (mkExpr EConditional sp nm b i op [c; y; z] id) ts.
Proof.
  intros Hc Hy Hz Hn Hst. unfold conditional, reads_expr. rtake. apply runs_bind.
  eapply runs_mono; [eapply (IHexpr c); [done|lia| |eassumption]; done|]. intros c' st2 [Ec ?].
  rtake. apply runs_bind.
  eapply runs_mono; [eapply (IHexpr y); [done|lia| |eassumption]; done|]. intros y' st4 [Ey ?].
  rtake. rtake. rtake. apply runs_bind.
  eapply runs_mono; [eapply (IHexpr z); [done|lia| |eassumption]; done|]. intros z' st8 [Ez ?].
  rtake. apply runs_identified. intros idn stn Hkeep.
  split; [|auto]. simpl. by rewrite Ec, Ey, Ez.
Qed.
End PrimaryStep.

#[local] Arguments at_ : simpl never.
#[local] Arguments tokens : simpl nomatch.
#[local] Arguments erase : simpl never.

Lemma reads_primary n : reads_all (expr n) n -> (forall m, m < n -> primary_reads m) ->
  primary_reads n.
Proof.
  intros Hexpr Hprim [k sp nm b i op es id] st ts [Hk Hes]%andb_True Hl Hh Hst.
  apply forallb_True in Hes. unfold primary, reads_expr.
  destruct k; simpl in Hk, Hl, Hst; (eapply runs_kind; [exact Hst|]).
  - apply andb_True in Hk as [_ Hc]. destruct es; [|done]. by apply reads_name.
  - destruct es; [|done]. assert (Hb : forall c, at_ st ((c, if b then "true" else "false") :: ts) ->
      bool_decide (c = T_true) = b -> reads_expr boolean st (mkExpr EBoolean sp nm b i op [] id) ts).
    { intros c Hc Hcb. unfold boolean. apply runs_bind. eexists _, _. split; [done|].
      apply runs_bind. eapply runs_advance; [exact Hc|]. intros st' Hst'.
      apply reads_leaf; [|done]. destruct Hc as [Hc _]. unfold erase. by rewrite Hc, Hcb. }
    destruct b; simpl in Hst |- *; (eapply Hb; [exact Hst|reflexivity]).
  - apply andb_True in Hk as [Hi Hc]. destruct es; [|done]. destruct i as [|c s]; [done|].
    simpl in Hst |- *. destruct (c =? "-")%char eqn:E; simpl.
    + apply Ascii.eqb_eq in E as ->. unfold negative_integer. rtake. rtake. subst. by apply reads_leaf.
    + unfold integer. rtake. apply reads_leaf; [|done]. unfold erase. by subst; rewrite H.
  - destruct es as [|e1 [|e2 es]]; [done..|]. rewrite <- app_assoc in Hst.
    simpl in Hl. rewrite !length_app in Hl. simpl. eapply reads_tuple; [done..| |done].
    simpl in *. rewrite ?length_app in *. simpl in *. lia.
  - rewrite <- app_assoc in Hst. rewrite length_app in Hl. simpl in Hl.
    simpl. eapply reads_call; [done..|lia|done].
  - destruct es as [|l [|r [|? ?]]]; [done..| |done]. rewrite !Forall_cons in Hes.
    destruct Hes as (? & ? & _). simpl in Hl. rewrite ?length_app in Hl. simpl in Hl.
    rewrite ?length_app in Hl. simpl in Hl. simpl in Hst.
    rewrite <- ?app_assoc in Hst. simpl in Hst. rewrite <- ?app_assoc in Hst.
    simpl. eapply reads_binary; [done..|lia|done].
  - destruct es as [|c [|y [|z [|? ?]]]]; [done..| |done]. rewrite !Forall_cons in Hes.
    destruct Hes as (? & ? & ? & _). simpl in Hl. repeat (rewrite ?length_app in Hl; simpl in Hl).
    repeat (rewrite <- ?app_assoc in Hst; simpl in Hst).
    simpl. eapply reads_conditional; [done..|lia|done].
  - apply andb_True in Hk as [_ Hc]. destruct es; [|done]. simpl. unfold hole. rtake. rtake.
    subst. by apply reads_leaf.
Qed.

Lemma reads_primary_all n : primary_reads n.
Proof.
  induction n as [n IH] using lt_wf_ind. apply reads_primary; [|exact IH].
  destruct n as [|m]; [|apply reads_all_of_primary, IH; lia].
  intros e st ts He Hl. destruct (tokens_head e [] He). lia.
Qed.

(** A text has no more tokens than characters. *)
Lemma stream_length src lx ts :
  reads src lx -> stream lx ts -> offset (position lx) + length ts <= String.length src.
Proof.
  intros Hr Hs. induction Hs as [lx t lx' Hn Hk|lx t lx' ts Hn Hk Hs IH]; simpl.
  - destruct (reads_pos_ok _ _ Hr). lia.
  - pose proof (next_spec src lx Hr) as Ht. rewrite Hn in Ht.
    destruct Ht as (Hr' & (_ & _ & _ & Hlt) & He & Hle & _). specialize (IH Hr').
    specialize (Hlt Hk). rewrite He in Hlt. lia.
Qed.

Lemma runs_take_eof st c : at_ st [] -> runs (take T_eof c) st (fun _ _ => True).
Proof.
  intros [Hk Hrest]. unfold take. apply runs_bind. eexists _, _. split; [done|]. simpl.
  rewrite decide_True by done. apply runs_bind. destruct st as [[r p] t id]. simpl in Hrest. subst r.
  destruct (stream_at (mkLexer "" p) [] id (streams_nil p)) as (t' & lx & Hn & _).
  eexists tt, (mkPState lx t' id). split; [unfold advance_token; cbn [lexer_]; by rewrite Hn|].
  by apply runs_ret.
Qed.

(** Reading back what [print_expression] wrote. *)
Lemma read_back (e : Expr) (He : printable e) :
  exists e', parse_expression (print_expression e) = Ok e' /\ erase e' = erase e.
Proof.
  set (src := print_expression e). assert (Hs : streams src (tokens e)).
  { unfold src. rewrite <- (append_nil_r (print_expression e)), <- (app_nil_r (tokens e)).
    apply print_streams; [done..|apply streams_nil]. }
  specialize (Hs start_position). pose proof (stream_length src _ _ (reads_start src) Hs) as Hlen.
  destruct (stream_at _ _ 0 Hs) as (t & lx & Hn & Ha). unfold parse_expression, run.
  change (mkLexer src start_position) with (lexer_of src) in Hn. rewrite Hn.
  enough (runs (expression_document (enough_fuel src)) (mkPState lx t 0)
            (fun e' _ => erase e' = erase e)) as (e' & st' & -> & HR) by eauto.
  unfold expression_document. apply runs_bind. rewrite <- (app_nil_r (tokens e)) in Ha.
  eapply runs_mono; [eapply (reads_all_of_primary (S (String.length src)) (reads_primary_all _) e);
    [exact He|simpl in Hlen; lia| |exact Ha]; exact I|].
  intros e' st' [E Hst']. apply runs_bind. simpl in Hst'. destruct Hst' as [Hk Hrest].
  eapply runs_mono; [apply (runs_take_eof _ _ (conj Hk Hrest))|]. intros. by apply runs_ret.
Qed.

(** C2. Printing and parsing an expression round-trips: the text
    [print_expression] writes for any expression that has a source form parses
    (with the fuel the parser starts with, and with the precedences and
    associativities of the grammar) to the same expression, up to spans and node
    identifiers. *)
Theorem parse_print_expression (e : Expr) (He : printable e) :
  exists e', parse_expression (print_expression e) = Ok e' /\ erase e' = erase e.
Proof. by apply read_back. Qed.

(** [if (f(x, -1) <= 2) { g() } else { (?h, true) }] with doubled parentheses. *)
Definition printed_sample : Expr :=
  let e k n b i op es := mkExpr k default_span n b i op es 0 in
  e EConditional "" false "" OpEqual
    [e EBinary "" false "" OpLessEqual
       [e ECall "f" false "" OpEqual [e EName "x" false "" OpEqual []; e EInteger "" false "-1" OpEqual []];
        e EInteger "" false "2" OpEqual []];
     e ECall "g" false "" OpEqual [];
     e ETuple "" false "" OpEqual [e EHole "h" false "" OpEqual []; e EBoolean "" true "" OpEqual []]].

Lemma parse_print_expression_witness :
  exists e', parse_expression (print_expression printed_sample) = Ok e' /\
             erase e' = erase printed_sample.
Proof. apply parse_print_expression. vm_compute. exact I. Defined.
