(* ===== verification/Format.v ===== *)
(** * Number formatting (std::to_string, std::hex, std::setw, std::setfill)

    Positional notation as the C++ streams write it: no leading zero unless
    a width asks for one, lower-case hexadecimal digits. *)

From S2P Require Import Prelude.
From Stdlib Require Import NArith.
Open Scope N_scope.

(** ** Digit sequences, most significant first *)

Fixpoint digits_from (fuel : nat) (b n : N) (acc : list N) : list N :=
  match fuel with
  | O => acc
  | S f => if n / b =? 0 then n mod b :: acc else digits_from f b (n / b) (n mod b :: acc)
  end.

Definition digits (b n : N) : list N := digits_from (S (N.to_nat (N.log2 n))) b n [].

(** The number a digit sequence denotes, read after the digits of [n]. *)
Definition eval_from (b n : N) (l : list N) : N := fold_left (fun a d => a * b + d) l n.
Definition eval (b : N) (l : list N) : N := eval_from b 0 l.

Definition digit_char (d : N) : ascii :=
  ascii_of_N (if d <? 10 then 48 + d else 87 + d).

Definition char_digit (c : ascii) : N :=
  let n := N_of_ascii c in if n <? 58 then n - 48 else n - 87.

Definition numeral (b n : N) : string := string_of_list_ascii (digit_char <$> digits b n).

Definition decimal (n : N) : string := numeral 10 n.
Definition hexadecimal (n : N) : string := numeral 16 n.

(** std::to_string on a std::size_t. *)
Definition to_string (n : nat) : string := decimal (N.of_nat n).

(** std::setw(width) with std::setfill('0') before a number. *)
Definition zero_fill (width : nat) (s : string) : string :=
  string_of_list_ascii (replicate (width - String.length s) "0"%char) +:+ s.

(** Reading a numeral back. *)
Definition read_numeral (b : N) (s : string) : N := eval b (char_digit <$> list_ascii_of_string s).

(** ** Digits denote the number *)

Lemma digits_from_eval fuel b n acc :
  2 <= b -> n < b ^ N.of_nat fuel -> eval_from b 0 (digits_from fuel b n acc) = eval_from b n acc.
Proof.
  intros Hb. revert n acc; induction fuel as [|f IH]; intros n acc Hn.
  - simpl in Hn. by replace n with 0 by lia.
  - simpl. pose proof (N.div_mod' n b). destruct (N.eqb_spec (n / b) 0) as [E|E].
    + unfold eval_from. simpl. f_equal. rewrite E in *. lia.
    + rewrite IH.
      * unfold eval_from. simpl. f_equal. lia.
      * apply N.Div0.div_lt_upper_bound. by rewrite <- N.pow_succ_r', <- Nat2N.inj_succ.
Qed.

Lemma digits_eval b n : 2 <= b -> eval b (digits b n) = n.
Proof.
  intros Hb. unfold eval, digits. rewrite digits_from_eval; [done..|].
  rewrite Nat2N.inj_succ, N2Nat.id. destruct (N.eq_dec n 0) as [->|Hn]; [simpl; lia|].
  apply N.lt_le_trans with (2 ^ N.succ (N.log2 n)); [apply N.log2_spec; lia|].
  by apply N.pow_le_mono_l.
Qed.

Lemma digits_from_bound fuel b n acc :
  0 < b -> Forall (fun d => d < b) acc -> Forall (fun d => d < b) (digits_from fuel b n acc).
Proof.
  intros Hb. revert n acc; induction fuel as [|f IH]; intros n acc Hacc; simpl; [done|].
  assert (Hm : n mod b < b) by (apply N.mod_lt; lia). case_match; auto.
Qed.

Lemma digits_bound b n : 0 < b -> Forall (fun d => d < b) (digits b n).
Proof. intros Hb. by apply digits_from_bound. Qed.

Lemma digits_from_length fuel b n acc :
  (length acc <= length (digits_from fuel b n acc))%nat.
Proof.
  revert n acc; induction fuel as [|f IH]; intros n acc; simpl; [lia|].
  case_match; simpl; [lia|]. etrans; [|apply IH]. simpl. lia.
Qed.

Lemma digits_nonempty b n : digits b n <> [].
Proof.
  unfold digits. simpl. case_match; [done|].
  intros E. pose proof (digits_from_length (N.to_nat (N.log2 n)) b (n / b) [n mod b]) as Hl.
  rewrite E in Hl. simpl in Hl. lia.
Qed.

(** A number below [b ^ k] has at most [k] digits. *)
Lemma digits_from_width fuel b n acc k :
  2 <= b -> (1 <= k)%nat -> n < b ^ N.of_nat k ->
  (length (digits_from fuel b n acc) <= length acc + k)%nat.
Proof.
  intros Hb. revert n acc k; induction fuel as [|f IH]; intros n acc k Hk Hn; simpl; [lia|].
  destruct (N.eqb_spec (n / b) 0) as [E|E]; simpl; [lia|].
  assert (Hk2 : (2 <= k)%nat).
  { destruct k as [|[|k]]; [lia| |lia]. exfalso. apply E. apply N.div_small.
    by rewrite N.pow_1_r in Hn. }
  etrans; [apply (IH _ _ (k - 1)%nat); [lia|]|simpl; lia].
  apply N.Div0.div_lt_upper_bound. rewrite <- N.pow_succ_r'.
  by replace (N.succ (N.of_nat (k - 1))) with (N.of_nat k) by lia.
Qed.

(** ** Characters of numerals *)

Lemma char_digit_char d : d < 16 -> char_digit (digit_char d) = d.
Proof.
  intros Hd. unfold char_digit, digit_char.
  destruct (N.ltb_spec d 10); rewrite N_ascii_embedding by lia;
    match goal with |- context [N.ltb ?a 58] => destruct (N.ltb_spec a 58) end; lia.
Qed.

Lemma list_string_list l : list_ascii_of_string (string_of_list_ascii l) = l.
Proof. apply list_ascii_of_string_of_list_ascii. Qed.

Lemma read_numeral_numeral b n : 2 <= b <= 16 -> read_numeral b (numeral b n) = n.
Proof.
  intros [Hb Hb']. unfold read_numeral, numeral. rewrite list_string_list, <- list_fmap_compose.
  rewrite (list_fmap_ext _ id (digits b n)).
  - rewrite list_fmap_id. by apply digits_eval.
  - intros i d Hi. pose proof (digits_bound b n ltac:(lia)) as Hall.
    rewrite Forall_lookup in Hall. apply Hall in Hi. apply char_digit_char.
    by apply N.lt_le_trans with b.
Qed.

Lemma numeral_inj b n m : 2 <= b <= 16 -> numeral b n = numeral b m -> n = m.
Proof. intros Hb E. by rewrite <- (read_numeral_numeral b n), E, read_numeral_numeral. Qed.

Lemma to_string_inj n m : to_string n = to_string m -> n = m.
Proof. intros E. apply Nat2N.inj. by eapply (numeral_inj 10); [|exact E]. Qed.
Close Scope N_scope.

(** ** Fixed-width hexadecimal fields *)

(** The [w] low-order base-[b] digits of [n], most significant first. *)
Fixpoint fixed_digits (b : N) (w : nat) (n : N) : list N :=
  match w with
  | O => []
  | S w' => fixed_digits b w' (n / b) ++ [(n mod b)%N]
  end.

Definition fixed_hex (w : nat) (n : N) : string :=
  string_of_list_ascii (digit_char <$> fixed_digits 16 w n).

(** [<< std::hex << std::setfill('0') << std::setw(w) << n]. *)
Definition hex_field (w : nat) (n : N) : string := zero_fill w (hexadecimal n).

Lemma fixed_digits_length b w n : length (fixed_digits b w n) = w.
Proof. revert n; induction w as [|w IH]; intros n; simpl; [done|]. rewrite length_app, IH. simpl. lia. Qed.

Lemma eval_from_app b n l k : eval_from b n (l ++ k) = eval_from b (eval_from b n l) k.
Proof. apply fold_left_app. Qed.

Lemma fixed_digits_eval b w n : (2 <= b)%N -> (n < b ^ N.of_nat w)%N -> eval b (fixed_digits b w n) = n.
Proof.
  intros Hb. revert n; induction w as [|w IH]; intros n Hn; simpl.
  - simpl in Hn. unfold eval, eval_from. simpl. lia.
  - unfold eval in *. rewrite eval_from_app, IH.
    + unfold eval_from; simpl. pose proof (N.div_mod' n b). lia.
    + apply N.Div0.div_lt_upper_bound. by rewrite <- N.pow_succ_r', <- Nat2N.inj_succ.
Qed.

Lemma fixed_digits_bound b w n : (0 < b)%N -> Forall (fun d => d < b)%N (fixed_digits b w n).
Proof.
  intros Hb. revert n; induction w as [|w IH]; intros n; simpl; [done|].
  apply Forall_app; split; [done|]. constructor; [|done]. apply N.mod_lt. lia.
Qed.

(** Positional notation is injective on digit sequences of one length. *)
Lemma eval_inj b l k :
  (0 < b)%N -> length l = length k -> Forall (fun d => d < b)%N l -> Forall (fun d => d < b)%N k ->
  eval b l = eval b k -> l = k.
Proof.
  intros Hb. revert k; induction l as [|x l IH] using rev_ind; intros k Hlen Hl Hk E.
  - by destruct k.
  - destruct k as [|y k _] using rev_ind; [rewrite length_app in Hlen; simpl in Hlen; lia|].
    rewrite !length_app in Hlen. simpl in Hlen. unfold eval in *.
    apply Forall_app in Hl as [Hl Hx], Hk as [Hk Hy].
    rewrite Forall_singleton in Hx, Hy. rewrite !eval_from_app in E. unfold eval_from at 1 3 in E.
    simpl in E. rewrite (N.mul_comm _ b), (N.mul_comm _ b) in E.
    destruct (N.div_mod_unique b _ _ _ _ Hx Hy E) as [E1 ->].
    f_equal. apply IH; [lia|done..].
Qed.

Lemma eval_zeros b k l : eval b (replicate k 0%N ++ l) = eval b l.
Proof.
  unfold eval. rewrite eval_from_app. f_equal.
  induction k as [|k IH]; [done|exact IH].
Qed.

Lemma string_of_list_app l k :
  string_of_list_ascii (l ++ k) = string_of_list_ascii l +:+ string_of_list_ascii k.
Proof. induction l as [|c l IH]; simpl; [done|by rewrite IH]. Qed.

Lemma length_string_of_list l : String.length (string_of_list_ascii l) = length l.
Proof. induction l; simpl; congruence. Qed.

Lemma hex_field_fixed w n : (1 <= w) -> (n < 16 ^ N.of_nat w)%N -> hex_field w n = fixed_hex w n.
Proof.
  intros Hw Hn. unfold hex_field, zero_fill, fixed_hex, hexadecimal, numeral.
  rewrite <- string_of_list_app, length_string_of_list, length_fmap.
  pose proof (digits_from_width (S (N.to_nat (N.log2 n))) 16 n [] w ltac:(lia) Hw Hn) as Hlen.
  fold (digits 16 n) in Hlen. simpl in Hlen.
  change "0"%char with (digit_char 0). rewrite <- fmap_replicate, <- fmap_app. do 2 f_equal.
  apply (eval_inj 16); [lia|rewrite length_app, length_replicate, fixed_digits_length; lia| |
    by apply fixed_digits_bound|].
  - apply Forall_app; split; [apply Forall_replicate; lia|by apply digits_bound].
  - by rewrite eval_zeros, digits_eval, fixed_digits_eval.
Qed.

Lemma length_fixed_hex w n : String.length (fixed_hex w n) = w.
Proof. unfold fixed_hex. by rewrite length_string_of_list, length_fmap, fixed_digits_length. Qed.

Lemma fixed_hex_inj w n m :
  (n < 16 ^ N.of_nat w)%N -> (m < 16 ^ N.of_nat w)%N -> fixed_hex w n = fixed_hex w m -> n = m.
Proof.
  intros Hn Hm E. unfold fixed_hex in E.
  apply (f_equal list_ascii_of_string) in E. rewrite !list_string_list in E.
  apply (f_equal (fmap char_digit)) in E. rewrite <- !list_fmap_compose in E.
  assert (Hid : forall k, (char_digit ∘ digit_char) <$> fixed_digits 16 w k = fixed_digits 16 w k).
  { intros k. rewrite <- (list_fmap_id (fixed_digits 16 w k)) at 2. apply list_fmap_ext.
    intros i d Hi. apply char_digit_char. pose proof (fixed_digits_bound 16 w k ltac:(lia)) as Hall.
    rewrite Forall_lookup in Hall. by apply Hall in Hi. }
  rewrite !Hid in E. by rewrite <- (fixed_digits_eval 16 w n), E, fixed_digits_eval.
Qed.

Lemma append_inj_length a b c d :
  String.length a = String.length c -> a +:+ b = c +:+ d -> a = c /\ b = d.
Proof.
  revert c; induction a as [|x a IH]; intros [|y c] Hl E; simpl in *; [done|lia..|].
  injection E as -> E. destruct (IH c ltac:(lia) E) as [-> ->]. done.
Qed.

(** ** The characters of a decimal numeral *)

Lemma all_chars_list p l : all_chars p (string_of_list_ascii l) = forallb p l.
Proof. induction l as [|c l IH]; simpl; [done|by rewrite IH]. Qed.

Lemma digit_char_digit d : (d < 10)%N -> is_digit (digit_char d) = true.
Proof.
  intros Hd. unfold is_digit, in_range, digit_char. rewrite (proj2 (N.ltb_lt _ _)) by done.
  rewrite N_ascii_embedding by lia. apply andb_true_iff.
  split; apply N.leb_le; [change (N_of_ascii "0") with 48%N|change (N_of_ascii "9") with 57%N]; lia.
Qed.

Lemma decimal_digits n : all_chars is_digit (decimal n) = true.
Proof.
  unfold decimal, numeral. rewrite all_chars_list, forallb_forall. intros c Hc.
  apply in_map_iff in Hc as (d & <- & Hd). apply digit_char_digit.
  pose proof (digits_bound 10 n ltac:(lia)) as H. rewrite Forall_forall in H.
  apply H. by apply list_elem_of_In.
Qed.

Lemma decimal_cons n : exists c s, decimal n = String c s /\ is_digit c = true.
Proof.
  pose proof (decimal_digits n) as H. destruct (decimal n) as [|c s] eqn:E.
  - unfold decimal, numeral in E. destruct (digits 10 n) eqn:E'; [by apply digits_nonempty in E'|done].
  - simpl in H. apply andb_true_iff in H as [? _]. eauto.
Qed.

#[global] Arguments fixed_hex : simpl never.
#[global] Arguments hex_field : simpl never.
#[global] Arguments to_string : simpl never.
