(* ===== verification/WitnessParse.v ===== *)
(** * Printed counterexamples parse back

    The text [execute_check] prints for a counterexample is one declaration;
    parsing it returns the same names, the types whose displays were printed,
    and the expressions up to spans and node identifiers. *)

From S2P Require Import Prelude Format Syntax Lexer Printer LexerSpec Parser ParserSpec DocumentSpec PrintParse.

(** ** White space before a token *)

Lemma skip_spaces ws c s p :
  all_chars is_space ws = true -> token_start c ->
  skip_space_and_comments (mkLexer (ws +:+ String c s) p) = mkLexer (String c s) (advance_over ws p).
Proof.
  intros Hws [H1 H2]%andb_True. apply negb_True in H1, H2. destruct (is_space c) eqn:Hc; [done|].
  unfold skip_space_and_comments. simpl rest_.
  destruct (String.length (ws +:+ String c s)) as [|n] eqn:El; [rewrite length_append in El; simpl in El; lia|].
  simpl. unfold advance_while. simpl rest_. rewrite span_while_all; [|by rewrite Hws|done]. simpl.
  unfold peek. simpl. by destruct (c =? "/")%char.
Qed.

Lemma streams_spaces ws c s ts :
  all_chars is_space ws = true -> token_start c -> streams (String c s) ts -> streams (ws +:+ String c s) ts.
Proof.
  intros Hws Hc Hs p.
  assert (Hn : next (mkLexer (ws +:+ String c s) p) = next (mkLexer (String c s) (advance_over ws p))).
  { unfold next. rewrite skip_spaces by done. pose proof (skip_spaces "" c s (advance_over ws p)) as Hn.
    simpl in Hn. by rewrite Hn. }
  specialize (Hs (advance_over ws p)). inversion Hs; subst; (econstructor; [by rewrite Hn|done..]).
Qed.

(** The equality sign before a space. *)
Lemma streams_equal t ts : streams (" " +:+ t) ts -> streams ("= " +:+ t) ((T_equal, "=") :: ts).
Proof.
  intros Ht p. eapply (stream_token _ (mkToken T_equal _ "=")); [|done|apply Ht].
  simpl. rewrite next_here by done. reflexivity.
Qed.

(** ** Texts that are read as a type *)

(** The text [d] is lexed to tokens the type parser turns into a type in [R]. *)
Definition type_text (d : string) (R : Type_ -> Prop) : Prop := exists toks,
  (exists c s, d = String c s /\ token_start c) /\ 1 <= length toks /\
  (forall t ts, boundary t -> streams t ts -> streams (d +:+ t) (toks ++ ts)) /\
  (forall fuel st ts, length toks <= fuel -> head_kind ts <> T_left_paren -> at_ st (toks ++ ts) ->
     runs (type fuel) st (fun ty st' => R ty /\ at_ st' ts)).

#[local] Arguments at_ : simpl never.

Lemma named_text n (R : Type_ -> Prop) :
  is_identifier n -> (forall sp, R (mkType TNamed sp n [])) -> type_text n R.
Proof.
  intros [Hn Hk]%identifier_name HR. exists [(T_identifier, n)]. split_and!; [by apply name_cons|done| |].
  - intros t ts Hb Ht. rewrite <- Hk. by apply streams_name.
  - intros [|fuel] st ts Hl Hh Hst; [simpl in Hl; lia|]. simpl. unfold type_body. eapply runs_kind; [exact Hst|].
    simpl. rtake. subst. eapply runs_kind; [eassumption|]. rewrite bool_decide_eq_false_2, orb_true_r by done.
    apply runs_ret. done.
Qed.

Lemma pair_text a b (Ra Rb R : Type_ -> Prop) :
  type_text a Ra -> type_text b Rb -> (forall sp x y, Ra x -> Rb y -> R (mkType TTuple sp "" [x; y])) ->
  type_text ("(" +:+ a +:+ ", " +:+ b +:+ ")") R.
Proof.
  intros (ta & (ca & sa & Ea & Ca) & La & Sa & Pa) (tb & (cb & sb & Eb & Cb) & Lb & Sb & Pb) HR.
  exists ((T_left_paren, "(") :: ta ++ (T_comma, ",") :: tb ++ [(T_right_paren, ")")]).
  split_and!; [by eexists _, _|simpl; lia| |].
  - intros t ts Hb Ht. simpl. rewrite !append_assoc, <- !app_assoc. apply streams_punctuation; [done..|].
    apply Sa; [done|]. simpl. apply streams_punctuation; [done..|]. rewrite append_assoc, <- app_assoc.
    assert (Hs : streams (b +:+ ")" +:+ t) (tb ++ [(T_right_paren, ")")] ++ ts)).
    { apply Sb; [done|]. by apply streams_punctuation. }
    rewrite Eb in Hs |- *. simpl in Hs |- *. by apply streams_space.
  - intros [|fuel] st ts Hl Hh Hst; [simpl in Hl; lia|]. simpl in Hl. rewrite length_app in Hl. simpl in Hl.
    rewrite length_app in Hl. simpl in Hl. simpl. unfold type_body. eapply runs_kind; [exact Hst|]. simpl.
    repeat (rewrite <- ?app_assoc in Hst; simpl in Hst). rtake. apply runs_bind.
    eapply runs_mono; [eapply (Pa fuel _ ((T_comma, ",") :: tb ++ (T_right_paren, ")") :: ts)); [lia|done|eassumption]|]. intros x st1 [Hx Hst1].
    rtake. apply runs_bind.
    eapply runs_mono; [eapply (Pb fuel _ ((T_right_paren, ")") :: ts)); [lia|done|eassumption]|]. intros y st2 [Hy Hst2]. simpl in Hst2.
    apply runs_bind. assert (Hac : runs (after_commas fuel (type fuel)) st2 (fun l st' => l = [] /\ st' = st2)).
    { destruct fuel; (apply runs_bind; eapply runs_accept_no; [exact Hst2|done|]; by apply runs_ret). }
    eapply runs_mono; [exact Hac|]. intros l st3 [-> ->]. rtake. apply runs_ret. auto.
Qed.

(** ** Counterexample entries *)

Definition line_end : string := String "010" "".

Section Entries.
Context {A : Type} (item_name item_type : A -> string) (item_value : A -> Expr) (R : A -> Type_ -> Prop).

Definition item_ok (x : A) : Prop :=
  is_identifier (item_name x) /\ type_text (item_type x) (R x) /\ printable (item_value x).

Definition item_text (x : A) : string :=
  "  " +:+ item_name x +:+ ": " +:+ item_type x +:+ " = " +:+ print_expression (item_value x) +:+ ";" +:+ line_end.

Fixpoint items_text (l : list A) : string :=
  match l with [] => "" | x :: l' => item_text x +:+ items_text l' end.

(** What an entry says of an item. *)
Definition entry_of (x : A) (c : CounterexampleEntry) : Prop :=
  cex_entry_name c = item_name x /\ R x (cex_entry_type c) /\ erase (cex_entry_value c) = erase (item_value x).

(** White space and then text that lexes to [ts]. *)
Definition follows (t : string) (ts : list stoken) : Prop := exists ws c s,
  all_chars is_space ws = true /\ token_start c /\ t = ws +:+ String c s /\ streams (String c s) ts.

Lemma follows_streams ws t ts : all_chars is_space ws = true -> follows t ts -> streams (ws +:+ t) ts.
Proof.
  intros Hws (ws' & c & s & Hws' & Hc & -> & Hs). rewrite <- append_assoc. apply streams_spaces; [|done..].
  by rewrite all_chars_app, Hws, Hws'.
Qed.

Lemma item_reads x :
  item_ok x -> exists toks, 1 <= length toks /\ head_kind (toks ++ []) = T_identifier /\
    (forall t ts, follows t ts -> follows (item_text x +:+ t) (toks ++ ts)) /\
    (forall fuel st ts, length toks <= fuel -> at_ st (toks ++ ts) ->
       runs (counterexample_entry fuel) st (fun e st' => entry_of x e /\ at_ st' ts)).
Proof.
  intros (Hn & (tt & (ct & sct & Et & Ct) & Lt & St & Pt) & Hp). apply identifier_name in Hn as [Hn Hk].
  exists ((T_identifier, item_name x) :: (T_colon, ":") :: tt ++ (T_equal, "=") :: tokens (item_value x) ++ [(T_semicolon, ";")]).
  split_and!; [simpl; lia|done| |].
  - intros t ts Hs. unfold item_text. destruct (name_cons _ Hn) as (cn & sn & En & Cn).
    assert (Hbody : streams (item_name x +:+ ": " +:+ item_type x +:+ " = " +:+ print_expression (item_value x) +:+ ";" +:+
        line_end +:+ t) ((T_identifier, item_name x) :: (T_colon, ":") :: tt ++ (T_equal, "=") ::
        tokens (item_value x) ++ (T_semicolon, ";") :: ts)).
    { rewrite <- Hk. apply streams_name; [done..|]. apply streams_punctuation; [done..|].
      assert (Hty : streams (item_type x +:+ " = " +:+ print_expression (item_value x) +:+ ";" +:+ line_end +:+ t)
        (tt ++ (T_equal, "=") :: tokens (item_value x) ++ (T_semicolon, ";") :: ts)).
      { apply St; [done|]. change (" = " +:+ ?r) with (String " " ("= " +:+ r)). apply streams_space; [done|].
        apply streams_equal. apply streams_space_print; [done|]. apply print_streams; [done..|].
        apply streams_punctuation; [done..|]. by apply follows_streams. }
      rewrite Et in Hty |- *. simpl in Hty |- *. by apply streams_space. }
    rewrite !append_assoc. simpl app. rewrite <- !app_assoc. simpl app. rewrite <- !app_assoc.
    rewrite En in Hbody |- *. exists "  ", cn. eexists. split_and!; [done|done|reflexivity|exact Hbody].
  - intros fuel st ts Hl Hst. repeat (rewrite <- ?app_assoc in Hst; simpl in Hst).
    simpl in Hl. repeat (rewrite length_app in Hl; simpl in Hl). unfold counterexample_entry.
    rtake. rtake. apply runs_bind.
    eapply runs_mono; [eapply (Pt fuel _ ((T_equal, "=") :: tokens (item_value x) ++ (T_semicolon, ";") :: ts)); [lia|done|eassumption]|].
    intros ty st1 [Hty Hst1]. rtake. apply runs_bind. destruct fuel as [|fuel]; [lia|].
    eapply runs_mono; [eapply (reads_all_of_primary fuel (reads_primary_all _) (item_value x));
      [exact Hp|lia| |eassumption]; done|].
    intros e st2 [He Hst2]. rtake. apply runs_ret. split; [|done]. by split.
Qed.

Lemma items_read l :
  Forall item_ok l -> exists toks, length l <= length toks /\
    (forall t ts, follows t ts -> follows (items_text l +:+ t) (toks ++ ts)) /\
    (forall fuel n st ts, length toks <= fuel -> length l <= n -> at_ st (toks ++ (T_right_brace, "}") :: ts) ->
       runs (until n T_right_brace (counterexample_entry fuel)) st (fun es st' =>
         Forall2 entry_of l es /\ at_ st' ((T_right_brace, "}") :: ts))).
Proof.
  induction 1 as [|x l Hx _ (toks & Ll & Sl & Pl)].
  { exists []. split_and!; [done| |].
    - done.
    - intros fuel n st ts _ _ Hst. destruct n; (eapply runs_kind; [exact Hst|]); simpl; by apply runs_ret. }
  destruct (item_reads x Hx) as (tx & Lx & Hh & Sx & Px). exists (tx ++ toks). rewrite length_app. split_and!.
  - simpl. lia.
  - intros t ts Ht. simpl. rewrite append_assoc, <- app_assoc. by apply Sx, Sl.
  - intros fuel [|n] st ts Hf Hn Hst; [simpl in Hn; lia|]. rewrite <- app_assoc in Hst.
    destruct tx as [|[k t] tx]; [simpl in Lx; lia|]. simpl in Hh. subst k. simpl.
    eapply runs_kind; [exact Hst|]. simpl. apply runs_bind. eapply runs_mono; [apply (Px fuel); [lia|exact Hst]|].
    intros e st1 [He Hst1]. apply runs_bind. simpl in Hn. eapply runs_mono; [apply (Pl fuel n); [lia|lia|exact Hst1]|].
    intros es st2 [Hes Hst2]. apply runs_ret. split; [by constructor|done].
Qed.

(** ** The whole declaration *)

Definition counterexample_text (n : string) (l : list A) : string :=
  "counterexample " +:+ n +:+ " {" +:+ line_end +:+ items_text l +:+ "}" +:+ line_end.

Lemma read_counterexample n l :
  is_identifier n -> Forall item_ok l -> exists document item witness,
    parse (counterexample_text n l) = Ok document /\ declarations document = [item] /\
    declaration item = DCounterexample witness /\ counterexample_name witness = n /\
    Forall2 entry_of l (counterexample_entries witness).
Proof.
  intros Hn Hl. destruct (items_read l Hl) as (toks & Ll & Sl & Pl). apply identifier_name in Hn as [Hn Hk].
  remember (counterexample_text n l) as src eqn:Esrc.
  assert (Hs : streams src ((T_counterexample, "counterexample") :: (T_identifier, n) :: (T_left_brace, "{") ::
    toks ++ [(T_right_brace, "}")])).
  { subst src. unfold counterexample_text. apply (streams_name "counterexample"); [done..|].
    destruct (name_cons _ Hn) as (c & s & En & Hc).
    assert (Hbody : streams (n +:+ " {" +:+ line_end +:+ items_text l +:+ "}" +:+ line_end)
      ((T_identifier, n) :: (T_left_brace, "{") :: toks ++ [(T_right_brace, "}")])).
    { rewrite <- Hk. apply streams_name; [done..|]. apply streams_space; [done|]. apply streams_punctuation; [done..|].
      apply follows_streams; [done|]. apply Sl. exists "", "}"%char, line_end. split_and!; [done..|].
      apply streams_punctuation; [done..|]. intros p. by econstructor. }
    rewrite En in Hbody |- *. by apply streams_space. }
  specialize (Hs start_position). pose proof (stream_length src _ _ (reads_start src) Hs) as Hlen. simpl in Hlen.
  rewrite length_app in Hlen. simpl in Hlen. destruct (stream_at _ _ 0 Hs) as (t & lx & Hnx & Ha).
  enough (runs (document (enough_fuel src)) (mkPState lx t 0) (fun d _ => exists item witness,
    declarations d = [item] /\ declaration item = DCounterexample witness /\ counterexample_name witness = n /\
    Forall2 entry_of l (counterexample_entries witness))) as (d & st' & Hd & item & witness & Hw).
  { exists d, item, witness. split; [|done]. unfold parse, run. change (mkLexer src start_position) with (lexer_of src) in Hnx.
    by rewrite Hnx, Hd. }
  unfold document. apply runs_bind. eexists _, _. split; [done|]. apply runs_bind. unfold enough_fuel.
  eapply runs_kind; [exact Ha|]. simpl. apply runs_bind. unfold declaration_item. apply runs_bind. unfold any_declaration.
  eapply runs_kind; [exact Ha|]. simpl. apply runs_bind. unfold counterexample_decl. rtake. rtake. rtake. apply runs_bind.
  eapply runs_mono; [apply (Pl (S (S (String.length src))) (S (S (String.length src))) _ []); [lia|lia|eassumption]|].
  intros es st1 [Hes Hst1]. rtake. apply runs_ret. apply runs_ret. apply runs_bind. eexists _, _. split; [done|].
  apply runs_ret. apply runs_bind. unfold at_ in *. destruct_and?.
  eapply runs_mono with (R := fun ds _ => ds = []).
  { simpl. eexists [], _. split; [|done]. unfold mbind, P_bind, current_kind. simpl. 
    rewrite decide_True by done. done. }
  intros ds st2 ->. apply runs_ret. apply runs_bind. eexists _, _. split; [done|]. apply runs_ret.
  eexists _, _. split_and!; [done|done| |exact Hes]. done.
Qed.
End Entries.
