(* ===== verification/Diagnostics.v ===== *)
(** * Rendering errors (ParseError::format, SemanticError::format)

    Both functions find the source line around the error by two loops over
    [source], indexed without a bounds check, and build a caret line whose
    length comes from unsigned subtractions.  An index outside the source is
    [OutOfRange]; a std::string longer than its maximum is [LengthError].  The
    message is streamed from [what()], so that it ends at its first NUL byte. *)

From S2P Require Import Prelude Syntax Lexer LexerSpec Parser ParserSpec DocumentSpec Format.
From Stdlib Require Import NArith.

Inductive fault := OutOfRange | LengthError.

(** [a - b] on std::size_t. *)
Definition sub64 (a b : nat) : N := ((N.of_nat a + 2 ^ 64 - N.of_nat b) mod 2 ^ 64)%N.

(** [while (n > 0 && source[n - 1] != '\n') --n;] *)
Fixpoint scan_back (source : string) (n : nat) : outcome fault nat :=
  match n with
  | O => Ok 0
  | S m =>
      match String.get m source with
      | None => Err OutOfRange
      | Some c => if (c =? newline)%char then Ok n else scan_back source m
      end
  end.

(** [while (n < source.size() && source[n] != '\n') ++n;], at most [fuel] steps. *)
Fixpoint scan_forward (fuel : nat) (source : string) (n : nat) : outcome fault nat :=
  if n <? String.length source then
    match String.get n source with
    | None => Err OutOfRange
    | Some c =>
        if (c =? newline)%char then Ok n
        else match fuel with O => Diverge | S f => scan_forward f source (S n) end
    end
  else Ok n.

(** [source.substr(pos, count)] *)
Definition substr (source : string) (pos count : nat) : outcome fault string :=
  if pos <=? String.length source then Ok (substring pos count source) else Err OutOfRange.

Section Format.
Context (max_size : N).

(** [std::string(count, c)] *)
Definition filled_with (c : ascii) (count : N) : outcome fault string :=
  if (count <=? max_size)%N then Ok (string_of_list_ascii (replicate (N.to_nat count) c))
  else Err LengthError.

Definition source_line (source : string) (from : nat) : outcome fault string :=
  line_begin ← scan_back source from;
  line_end ← scan_forward (String.length source) source from;
  substr source line_begin (line_end - line_begin).

Definition parse_error_format (filename source : string) (e : ParseError) : outcome fault string :=
  let begin := begin_ (error_span e) in
  line_text ← source_line source (offset begin);
  let width := N.max 1 (sub64 (offset (end_ (error_span e))) (offset begin)) in
  indent ← filled_with " " (sub64 (column begin) 1);
  tail ← (if (1 <? width)%N then filled_with "~" (width - 1) else Ok "");
  Ok (filename +:+ ":" +:+ to_string (line begin) +:+ ":" +:+ to_string (column begin) +:+
      ": error: " +:+ c_str (error_message e) +:+ String newline line_text +:+ String newline indent +:+
      "^" +:+ tail).

Definition semantic_error_format (filename source : string) (span : SourceSpan) (what : string)
    : outcome fault string :=
  let offset_ := Nat.min (offset (begin_ span)) (String.length source) in
  line_text ← source_line source offset_;
  let column_ := Nat.max 1 (column (begin_ span)) in
  let width := N.max 1 (sub64 (offset (end_ span)) (offset (begin_ span))) in
  indent ← filled_with " " (sub64 column_ 1);
  tail ← (if (1 <? width)%N && (width <=? N.of_nat (String.length line_text))%N
          then filled_with "~" (width - 1) else Ok "");
  Ok (filename +:+ ":" +:+ to_string (Nat.max 1 (line (begin_ span))) +:+ ":" +:+ to_string column_ +:+
      ": error: " +:+ c_str what +:+ String newline line_text +:+ String newline indent +:+ "^" +:+ tail).
End Format.

(** ** The line around an offset *)

(** [b, e) is the line of [src] that contains offset [n]. *)
Definition line_bounds (src : string) (n b e : nat) : Prop :=
  b <= n <= e /\ e <= String.length src /\
  (forall i, b <= i < e -> String.get i src <> Some newline) /\
  (b = 0 \/ String.get (b - 1) src = Some newline) /\
  (e = String.length src \/ String.get e src = Some newline).

Lemma get_some src i : i < String.length src -> exists c, String.get i src = Some c.
Proof.
  revert i; induction src as [|c s IH]; intros i Hi; simpl in *; [lia|].
  destruct i as [|i]; [eauto|]. apply IH. lia.
Qed.

Lemma scan_back_spec src n : n <= String.length src ->
  exists b, scan_back src n = Ok b /\ b <= n /\
    (forall i, b <= i < n -> String.get i src <> Some newline) /\
    (b = 0 \/ String.get (b - 1) src = Some newline).
Proof.
  induction n as [|n IH]; intros Hn; simpl.
  - exists 0. split_and!; [done|lia| |by left]. intros; lia.
  - destruct (get_some src n Hn) as [c Hc]. rewrite Hc.
    destruct (Ascii.eqb_spec c newline) as [->|Hne].
    + exists (S n). split_and!; [done|lia|intros; lia|]. right. simpl. by rewrite Nat.sub_0_r.
    + destruct IH as (b & -> & Hb & Hno & Hs); [lia|]. exists b. split_and!; [done|lia| |done].
      intros i Hi. destruct (decide (i = n)) as [->|]; [congruence|]. apply Hno. lia.
Qed.

Lemma scan_forward_spec fuel src n : n <= String.length src -> String.length src - n <= fuel ->
  exists e, scan_forward fuel src n = Ok e /\ n <= e <= String.length src /\
    (forall i, n <= i < e -> String.get i src <> Some newline) /\
    (e = String.length src \/ String.get e src = Some newline).
Proof.
  revert n; induction fuel as [|f IH]; intros n Hn Hf; simpl;
    destruct (Nat.ltb_spec n (String.length src)) as [Hlt|Hge];
    [lia|exists n; split_and!; [done|lia|lia|intros; lia|left; lia]| |
     exists n; split_and!; [done|lia|lia|intros; lia|left; lia]].
  destruct (get_some src n Hlt) as [c Hc]. rewrite Hc.
  destruct (Ascii.eqb_spec c newline) as [->|Hne].
  - exists n. split_and!; [done|lia|lia|intros; lia|by right].
  - destruct (IH (S n)) as (e & -> & He & Hno & Hs); [lia..|]. exists e. split_and!; [done|lia|lia| |done].
    intros i Hi. destruct (decide (i = n)) as [->|]; [congruence|]. apply Hno. lia.
Qed.

Lemma source_line_spec src n : n <= String.length src ->
  exists b e, line_bounds src n b e /\ scan_back src n = Ok b /\
              source_line src n = Ok (substring b (e - b) src).
Proof.
  intros Hn. destruct (scan_back_spec src n Hn) as (b & Hb & Hbn & Hno & Hs).
  destruct (scan_forward_spec (String.length src) src n Hn) as (e & He & Hen & Hno' & Hs'); [lia|].
  exists b, e. split_and!; [|done|].
  - split_and!; [lia..| |done|done]. intros i Hi.
    destruct (decide (i < n)); [apply Hno|apply Hno']; lia.
  - unfold source_line. rewrite Hb. simpl. rewrite He. simpl. unfold substr.
    by rewrite (proj2 (Nat.leb_le _ _)) by lia.
Qed.

(** ** Columns count from the start of the line *)

Lemma substring_snoc src n c : String.get n src = Some c ->
  substring 0 (S n) src = substring 0 n src +:+ String c "".
Proof.
  revert n; induction src as [|d s IH]; intros n Hn; simpl in *; [done|].
  destruct n as [|n]; [injection Hn as ->; simpl; by destruct s|].
  simpl. f_equal. by apply IH.
Qed.

Lemma scanned_column src n : n <= String.length src -> column (position_at src n) = column (advance_over (substring 0 n src) start_position).
Proof.
  intros Hn. assert (Hl : String.length (substring 0 n src) = n).
  { revert n Hn. induction src as [|c s IH]; intros [|n] Hn; simpl in *; try done; try lia. rewrite IH; lia. }
  assert (E : substring 0 n src +:+ "" = substring 0 n src) by apply append_nil_r.
  pose proof (position_at_scanned (substring 0 n src) "") as Hp. rewrite E, Hl in Hp. rewrite Hp. unfold position_at. simpl.
  pose proof (substring_prefix (substring 0 n src) "") as Hs. rewrite E, Hl in Hs. by rewrite Hs.
Qed.

Lemma column_line_begin src n b :
  n <= String.length src -> scan_back src n = Ok b -> b + column (position_at src n) = S n.
Proof.
  intros Hn. rewrite scanned_column by done. revert b Hn; induction n as [|n IH]; intros b Hn; simpl.
  - intros [= <-]. by destruct src.
  - destruct (get_some src n Hn) as [c Hc]. rewrite Hc.
    rewrite (substring_snoc _ _ _ Hc), advance_over_app. simpl. unfold advance_position.
    destruct (c =? newline)%char; simpl; [intros [= <-]; lia|].
    intros Hb. apply IH in Hb; lia.
Qed.

Lemma sub64_exact a b : b <= a -> (N.of_nat a < 2 ^ 64)%N -> sub64 a b = N.of_nat (a - b).
Proof.
  intros Hab Ha. unfold sub64.
  replace (N.of_nat a + 2 ^ 64 - N.of_nat b)%N with (N.of_nat (a - b) + 1 * 2 ^ 64)%N by lia.
  rewrite N.Div0.mod_add. apply N.mod_small. lia.
Qed.

(** [n] copies of a character. *)
Definition repeated (c : ascii) (n : nat) : string := string_of_list_ascii (replicate n c).

Lemma filled_with_ok max_size c n : (N.of_nat n <= max_size)%N ->
  filled_with max_size c (N.of_nat n) = Ok (repeated c n).
Proof. intros Hn. unfold filled_with. rewrite (proj2 (N.leb_le _ _)) by done. by rewrite Nat2N.id. Qed.

Lemma parse_error_format_lines (max_size : N) (filename src : string) (e : ParseError) :
  parse src = Err e -> (N.of_nat (String.length src) <= max_size < 2 ^ 63)%N ->
  let s := error_span e in
  exists b fin, line_bounds src (offset (begin_ s)) b fin /\
    b + (column (begin_ s) - 1) = offset (begin_ s) /\
    parse_error_format max_size filename src e =
      Ok (filename +:+ ":" +:+ to_string (line (begin_ s)) +:+ ":" +:+ to_string (column (begin_ s)) +:+
          ": error: " +:+ c_str (error_message e) +:+ String newline (substring b (fin - b) src) +:+
          String newline (repeated " " (column (begin_ s) - 1)) +:+ "^" +:+
          repeated "~" (offset (end_ s) - offset (begin_ s) - 1)).
Proof.
  intros He Hmax s. pose proof (parse_wp src) as H. rewrite He in H. change (span_ok src s) in H.
  destruct H as ((Hb & Hpos) & (Hend & _) & Hle).
  destruct (source_line_spec src (offset (begin_ s)) Hb) as (b & fin & Hl & Hsb & Hline).
  exists b, fin. pose proof (column_line_begin _ _ _ Hb Hsb) as Hcol. rewrite <- Hpos in Hcol.
  assert (1 <= column (begin_ s)) by (destruct Hl; lia). split_and!; [done|lia|].
  unfold parse_error_format. fold s. rewrite Hline, bind_ok. cbv zeta.
  rewrite (sub64_exact (offset _)), (sub64_exact (column _) 1) by lia.
  rewrite filled_with_ok by lia. rewrite bind_ok.
  destruct (N.ltb_spec 1 (N.max 1 (N.of_nat (offset (end_ s) - offset (begin_ s))))) as [Hw|Hw].
  - replace (N.max 1 (N.of_nat (offset (end_ s) - offset (begin_ s))) - 1)%N
      with (N.of_nat (offset (end_ s) - offset (begin_ s) - 1)) by lia.
    by rewrite filled_with_ok by lia.
  - by replace (offset (end_ s) - offset (begin_ s) - 1) with 0 by lia.
Qed.

(** C29. Formatting a parse error is safe and exact: for an error [parse]
    raised on this source (that fits a std::string), every index stays inside
    the source and no length wraps; the text shows the line of the source
    that contains the error, and the caret stands under the offending byte,
    [column - 1] places after the line's start, underlining the error's
    span.  The message is cut at its first NUL byte, which the message for an
    unexpected byte has when that byte is one. *)
Theorem parse_error_format_exact (max_size : N) (filename src : string) (e : ParseError) :
  parse src = Err e -> (N.of_nat (String.length src) <= max_size < 2 ^ 63)%N ->
  let s := error_span e in
  exists b fin, line_bounds src (offset (begin_ s)) b fin /\
    b + (column (begin_ s) - 1) = offset (begin_ s) /\
    parse_error_format max_size filename src e =
      Ok (filename +:+ ":" +:+ to_string (line (begin_ s)) +:+ ":" +:+ to_string (column (begin_ s)) +:+
          ": error: " +:+ c_str (error_message e) +:+ String newline (substring b (fin - b) src) +:+
          String newline (repeated " " (column (begin_ s) - 1)) +:+ "^" +:+
          repeated "~" (offset (end_ s) - offset (begin_ s) - 1)).
Proof. apply parse_error_format_lines. Qed.

Definition bad_source : string := "check c() {
  assumes { 1 + ; }
}".

Definition bad_error : ParseError :=
  match parse bad_source with Err e => e | _ => mkParseError default_span "" end.

Lemma parse_error_format_exact_witness :
  parse bad_source = Err bad_error /\ line (begin_ (error_span bad_error)) = 2 /\
  exists b fin, line_bounds bad_source (offset (begin_ (error_span bad_error))) b fin.
Proof.
  assert (H : parse bad_source = Err bad_error) by (vm_compute; reflexivity).
  split; [exact H|]. split; [vm_compute; reflexivity|].
  destruct (parse_error_format_exact 1000 "f.fine" bad_source bad_error H) as (b & fin & Hl & _).
  - vm_compute. split; [discriminate|reflexivity].
  - exists b, fin. exact Hl.
Defined.

(** A NUL byte in the source ends the message about it. *)
Example nul_byte_message :
  parse_error_format 100 "f" (String "000" "") (match parse (String "000" "") with Err e => e | _ => mkParseError default_span "" end) =
    Ok ("f:1:1: error: unexpected character `" +:+ String newline (String "000" (String newline "^"))).
Proof. vm_compute. reflexivity. Qed.

(** C37. Formatting a semantic error never fails, whatever the span: spans
    outside the source, reversed spans and default spans included (a column
    must fit a string). *)
Theorem semantic_error_format_total (max_size : N) (filename src what : string) (span : SourceSpan) :
  (N.of_nat (String.length src) <= max_size < 2 ^ 63)%N ->
  (N.of_nat (column (begin_ span)) <= max_size)%N ->
  exists text, semantic_error_format max_size filename src span what = Ok text.
Proof.
  intros Hmax Hcol. unfold semantic_error_format.
  destruct (source_line_spec src (Nat.min (offset (begin_ span)) (String.length src)))
    as (b & fin & Hl & _ & ->); [lia|]. rewrite bind_ok. cbv zeta.
  rewrite (sub64_exact (Nat.max 1 _) 1), filled_with_ok by lia. rewrite bind_ok.
  destruct ((1 <? _)%N && _) eqn:E; simpl; [|eauto].
  apply andb_true_iff in E as [E1%N.ltb_lt E2%N.leb_le].
  assert (String.length (substring b (fin - b) src) <= String.length src).
  { clear. generalize (fin - b). revert b. induction src as [|c s IH]; intros b n; simpl.
    - destruct b, n; simpl; lia.
    - destruct b as [|b]; [destruct n as [|n]; simpl; [lia|specialize (IH 0 n); lia]|].
      specialize (IH b n). lia. }
  set (width := N.max _ _) in *. replace (width - 1)%N with (N.of_nat (N.to_nat (width - 1))) by lia.
  rewrite filled_with_ok by lia. simpl. eauto.
Qed.

Lemma semantic_error_format_total_witness :
  exists text, semantic_error_format 1000 "f.fine" "ab"
    (mkSpan (mkPosition 9 1 1) (mkPosition 3 1 1)) "m" = Ok text.
Proof. apply semantic_error_format_total; vm_compute; [split; [discriminate|reflexivity]|discriminate]. Defined.
