(* ===== verification/Source.v ===== *)
(** * Content digests and source snapshots (src/src/fine/source.cpp)

    [sha256] follows the code: a byte string padded in place, a 64-entry word
    array filled by two loops, eight registers rotated by a loop over the
    constants.  [Fips] states the same function the way FIPS 180-4 does, and
    SourceSpec.v proves them equal. *)

From S2P Require Import Prelude Format.
From Stdlib Require Import NArith.
Open Scope N_scope.

(** std::uint32_t and std::uint64_t arithmetic. *)
Definition w32 (x : N) : N := x mod 2 ^ 32.
Definition w64 (x : N) : N := x mod 2 ^ 64.
Definition not32 (x : N) : N := N.lxor x (2 ^ 32 - 1).

(** Eight constants of the table. *)
Definition row (a b c d e f g h : N) : list N := [a; b; c; d; e; f; g; h].

Definition constants : list N :=
  row 0x428a2f98 0x71374491 0xb5c0fbcf 0xe9b5dba5 0x3956c25b 0x59f111f1 0x923f82a4 0xab1c5ed5 ++
  row 0xd807aa98 0x12835b01 0x243185be 0x550c7dc3 0x72be5d74 0x80deb1fe 0x9bdc06a7 0xc19bf174 ++
  row 0xe49b69c1 0xefbe4786 0x0fc19dc6 0x240ca1cc 0x2de92c6f 0x4a7484aa 0x5cb0a9dc 0x76f988da ++
  row 0x983e5152 0xa831c66d 0xb00327c8 0xbf597fc7 0xc6e00bf3 0xd5a79147 0x06ca6351 0x14292967 ++
  row 0x27b70a85 0x2e1b2138 0x4d2c6dfc 0x53380d13 0x650a7354 0x766a0abb 0x81c2c92e 0x92722c85 ++
  row 0xa2bfe8a1 0xa81a664b 0xc24b8b70 0xc76c51a3 0xd192e819 0xd6990624 0xf40e3585 0x106aa070 ++
  row 0x19a4c116 0x1e376c08 0x2748774c 0x34b0bcb5 0x391c0cb3 0x4ed8aa4a 0x5b9cca4f 0x682e6ff3 ++
  row 0x748f82ee 0x78a5636f 0x84c87814 0x8cc70208 0x90befffa 0xa4506ceb 0xbef9a3f7 0xc67178f2.

Definition rotate_right (value count : N) : N :=
  N.lor (N.shiftr value count) (w32 (N.shiftl value (32 - count))).

(** ** Padding *)

(** [while (padded % 64 != 56) ++padded;], which stops within 64 steps. *)
Fixpoint padded_loop (fuel : nat) (padded : nat) : nat :=
  if (padded mod 64 =? 56)%nat then padded
  else match fuel with O => padded | S f => padded_loop f (S padded) end.

Definition length_bytes (bits : N) : list N :=
  (fun shift => N.land (N.shiftr bits shift) 0xff) <$> [56; 48; 40; 32; 24; 16; 8; 0].

Definition source_bytes (source : string) : list N := N_of_ascii <$> list_ascii_of_string source.

Definition padded_bytes (source : string) : list N :=
  let padded := padded_loop 64 (String.length source + 1)%nat in
  let bits := w64 (N.of_nat (String.length source) * 8) in
  resize padded 0 (source_bytes source ++ [0x80]) ++ length_bytes bits.

(** ** The message schedule of one block *)

Definition load_word (bytes : list N) (block i : nat) : N :=
  let at_ offset := nth (block + 4 * i + offset)%nat bytes 0 in
  N.lor (N.lor (N.lor (w32 (N.shiftl (at_ 0%nat) 24)) (w32 (N.shiftl (at_ 1%nat) 16)))
               (w32 (N.shiftl (at_ 2%nat) 8))) (at_ 3%nat).

Definition schedule_word (words : list N) (i : nat) : N :=
  let w j := nth (i - j)%nat words 0 in
  let s0 := N.lxor (N.lxor (rotate_right (w 15%nat) 7) (rotate_right (w 15%nat) 18)) (N.shiftr (w 15%nat) 3) in
  let s1 := N.lxor (N.lxor (rotate_right (w 2%nat) 17) (rotate_right (w 2%nat) 19)) (N.shiftr (w 2%nat) 10) in
  w32 (w 16%nat + s0 + w 7%nat + s1).

Definition schedule (bytes : list N) (block : nat) : list N :=
  let words := fold_left (fun words i => <[i := load_word bytes block i]> words) (seq 0 16)
                 (replicate 64 0) in
  fold_left (fun words i => <[i := schedule_word words i]> words) (seq 16 48) words.

(** ** Compression *)

(** The eight state words, and the registers [a] to [h] of a block. *)
Record Registers := mkRegisters {
  ra : N; rb : N; rc : N; rd : N; re : N; rf : N; rg : N; rh : N
}.

Definition initial_state : Registers :=
  mkRegisters 0x6a09e667 0xbb67ae85 0x3c6ef372 0xa54ff53a 0x510e527f 0x9b05688c 0x1f83d9ab 0x5be0cd19.

Definition round (k w : N) (r : Registers) : Registers :=
  let '(mkRegisters a b c d e f g h) := r in
  let sum1 := N.lxor (N.lxor (rotate_right e 6) (rotate_right e 11)) (rotate_right e 25) in
  let choose := N.lxor (N.land e f) (N.land (not32 e) g) in
  let temp1 := w32 (h + sum1 + choose + k + w) in
  let sum0 := N.lxor (N.lxor (rotate_right a 2) (rotate_right a 13)) (rotate_right a 22) in
  let majority := N.lxor (N.lxor (N.land a b) (N.land a c)) (N.land b c) in
  let temp2 := w32 (sum0 + majority) in
  mkRegisters (w32 (temp1 + temp2)) a b c (w32 (d + temp1)) e f g.

Definition add_registers (s r : Registers) : Registers :=
  mkRegisters (w32 (ra s + ra r)) (w32 (rb s + rb r)) (w32 (rc s + rc r)) (w32 (rd s + rd r))
              (w32 (re s + re r)) (w32 (rf s + rf r)) (w32 (rg s + rg r)) (w32 (rh s + rh r)).

Definition process_block (bytes : list N) (block : nat) (state : Registers) : Registers :=
  let words := schedule bytes block in
  add_registers state
    (fold_left (fun r i => round (nth i constants 0) (nth i words 0) r) (seq 0 64) state).

(** [for (block = 0; block < bytes.size(); block += 64)] *)
Fixpoint blocks_loop (fuel : nat) (bytes : list N) (block : nat) (state : Registers) : Registers :=
  if (block <? length bytes)%nat then
    match fuel with
    | O => state
    | S f => blocks_loop f bytes (block + 64)%nat (process_block bytes block state)
    end
  else state.

Definition state_words (s : Registers) : list N :=
  [ra s; rb s; rc s; rd s; re s; rf s; rg s; rh s].

Definition sha256 (source : string) : string :=
  let bytes := padded_bytes source in
  let state := blocks_loop (length bytes) bytes 0 initial_state in
  "sha256:" +:+ String.concat "" (hex_field 8 <$> state_words state).

Definition exact_content_hash (source : string) : string := sha256 source.

(** ** Snapshots *)

Record SourceSnapshot := mkSnapshot {
  document_id : string;
  revision : nat;
  exact_source_hash : string;
  byte_length : nat;
  display_name : string
}.

(** What the clock, the process and the random device delivered. *)
Record Entropy := mkEntropy { tick : N; pid : N; random : list N }.

Definition fresh_document_id (e : Entropy) : string :=
  "document:" +:+ hex_field 16 (w64 (tick e)) +:+ hex_field 8 (w32 (pid e)) +:+
  String.concat "" ((fun i => hex_field 8 (w32 (nth i (random e) 0))) <$> seq 0 4).

Definition make_source_snapshot (e : Entropy) (display_name source : string) (revision : nat)
    (document_id : string) : SourceSnapshot :=
  let document_id := if (document_id =? "")%string then fresh_document_id e else document_id in
  mkSnapshot document_id revision (exact_content_hash source) (String.length source) display_name.

(** ** FIPS 180-4 *)

Module Fips.

(** Rotation as division: the low [n] bits move to the top. *)
Definition rotr (n x : N) : N := x / 2 ^ n + x mod 2 ^ n * 2 ^ (32 - n).
Definition shr (n x : N) : N := x / 2 ^ n.
Definition ch (x y z : N) : N := N.lor (N.land x y) (N.ldiff z x).
Definition maj (x y z : N) : N := N.lor (N.lor (N.land x y) (N.land x z)) (N.land y z).
Definition big_sigma0 (x : N) : N := N.lxor (rotr 2 x) (N.lxor (rotr 13 x) (rotr 22 x)).
Definition big_sigma1 (x : N) : N := N.lxor (rotr 6 x) (N.lxor (rotr 11 x) (rotr 25 x)).
Definition small_sigma0 (x : N) : N := N.lxor (rotr 7 x) (N.lxor (rotr 18 x) (shr 3 x)).
Definition small_sigma1 (x : N) : N := N.lxor (rotr 17 x) (N.lxor (rotr 19 x) (shr 10 x)).
Definition plus (l : list N) : N := foldr N.add 0 l mod 2 ^ 32.

(** Message, a one bit, the zeros that complete a block, the bit length. *)
Definition pad (message : list N) : list N :=
  let l := length message in
  message ++ [0x80] ++ replicate ((119 - l mod 64) mod 64)%nat 0 ++
  fixed_digits 256 8 (N.of_nat l * 8).

Fixpoint blocks (fuel : nat) (bytes : list N) : list (list N) :=
  match fuel, bytes with
  | S f, _ :: _ => take 64 bytes :: blocks f (drop 64 bytes)
  | _, _ => []
  end.

(** [W_{n-1}; ...; W_0]. *)
Fixpoint w_rev (block : list N) (n : nat) : list N :=
  match n with
  | O => []
  | S t =>
      let ws := w_rev block t in
      (if (t <? 16)%nat then eval 256 (take 4 (drop (4 * t) block))
       else plus [small_sigma1 (nth 1 ws 0); nth 6 ws 0; small_sigma0 (nth 14 ws 0); nth 15 ws 0])
      :: ws
  end.

Definition step (r : Registers) (kw : N * N) : Registers :=
  let t1 := plus [rh r; big_sigma1 (re r); ch (re r) (rf r) (rg r); kw.1; kw.2] in
  let t2 := plus [big_sigma0 (ra r); maj (ra r) (rb r) (rc r)] in
  mkRegisters (plus [t1; t2]) (ra r) (rb r) (rc r) (plus [rd r; t1]) (re r) (rf r) (rg r).

(** The largest number below 2^40 whose [k]th power is at most [n], bit by bit. *)
Definition root (k n : N) : N :=
  fold_left (fun r b => let r' := r + 2 ^ N.of_nat b in if r' ^ k <=? n then r' else r) (rev (seq 0 40)) 0.

(** The first 32 bits of the fractional part of the [k]th root of [p]. *)
Definition root_fraction (k p : N) : N := root k (p * 2 ^ (32 * k)) mod 2 ^ 32.

Definition prime (p : nat) : bool := forallb (fun d => negb (p mod d =? 0)%nat) (seq 2 (p - 2)).
Definition primes : list N := N.of_nat <$> List.filter prime (seq 2 310).

(** The constants come from the cube roots of the first 64 primes, the initial
    words from the square roots of the first eight. *)
Definition round_constants : list N := root_fraction 3 <$> primes.
Definition initial : Registers :=
  let h i := root_fraction 2 (nth i primes 0) in mkRegisters (h 0%nat) (h 1%nat) (h 2%nat) (h 3%nat) (h 4%nat) (h 5%nat) (h 6%nat) (h 7%nat).

Definition compress (h : Registers) (block : list N) : Registers :=
  add_registers h (fold_left step (zip round_constants (rev (w_rev block 64))) h).

Definition digest (message : list N) : Registers :=
  let bytes := pad message in fold_left compress (blocks (length bytes) bytes) initial.

End Fips.

(** ** Published test vectors *)

Example sha256_empty : sha256 "" =
  "sha256:e3b0c44298fc1c149afbf4c8996fb92427ae41e4649b934ca495991b7852b855".
Proof. vm_compute. reflexivity. Qed.

Example sha256_abc : sha256 "abc" =
  "sha256:ba7816bf8f01cfea414140de5dae2223b00361a396177a9cb410ff61f20015ad".
Proof. vm_compute. reflexivity. Qed.

Example sha256_two_blocks : sha256 "abcdbcdecdefdefgefghfghighijhijkijkljklmklmnlmnomnopnopq" =
  "sha256:248d6a61d20638b8e5c026930c3e6039a33ce45964ff2167f6ecedd419db06c1".
Proof. vm_compute. reflexivity. Qed.
Close Scope N_scope.
