(* ===== verification/SourceSpec.v ===== *)
(** * The digest is SHA-256, its text is canonical, and its padding injective *)

From S2P Require Import Prelude Format Source.
From Stdlib Require Import NArith ZifyNat ZifyN.
Open Scope N_scope.

#[local] Ltac Zify.zify_post_hook ::= Z.to_euclidean_division_equations.

Abbreviation word x := (x < 2 ^ 32) (only parsing).

(** ** Bit operations *)

Lemma lor_disjoint a b k : a < 2 ^ k -> N.lor (b * 2 ^ k) a = b * 2 ^ k + a.
Proof.
  intros Ha. assert (Hd : N.land (b * 2 ^ k) a = 0).
  { apply N.bits_inj. intros i. rewrite N.land_spec, N.bits_0, <- N.shiftl_mul_pow2.
    destruct (N.lt_ge_cases i k); [by rewrite N.shiftl_spec_low|].
    rewrite <- (N.mod_small a (2 ^ k)), N.mod_pow2_bits_high by done. apply andb_false_r. }
  by rewrite N.add_nocarry_lxor, N.lxor_lor.
Qed.

Lemma w32_word x : word (w32 x).
Proof. apply N.mod_lt. lia. Qed.

(** The tables hold the roots. *)
Lemma round_constants_roots : Fips.round_constants = constants.
Proof. vm_compute. reflexivity. Qed.
Lemma initial_roots : Fips.initial = initial_state.
Proof. vm_compute. reflexivity. Qed.

Lemma rotate_right_rotr v n : word v -> n <= 32 -> rotate_right v n = Fips.rotr n v.
Proof.
  intros Hv Hn. unfold rotate_right, Fips.rotr, w32.
  rewrite N.shiftr_div_pow2, N.shiftl_mul_pow2.
  replace (2 ^ 32) with (2 ^ n * 2 ^ (32 - n)) by (rewrite <- N.pow_add_r; f_equal; lia).
  rewrite N.Div0.mul_mod_distr_r, N.lor_comm, lor_disjoint; [apply N.add_comm|].
  apply N.Div0.div_lt_upper_bound. rewrite <- N.pow_add_r. by replace (n + (32 - n)) with 32 by lia.
Qed.

Lemma high_bit x i : word x -> 32 <= i -> N.testbit x i = false.
Proof. intros Hx Hi. rewrite <- (N.mod_small x (2 ^ 32)) by done. by apply N.mod_pow2_bits_high. Qed.

Lemma choose_ch e f g : word e -> word f -> word g ->
  N.lxor (N.land e f) (N.land (not32 e) g) = Fips.ch e f g.
Proof.
  intros He Hf Hg. apply N.bits_inj. intros i. unfold not32, Fips.ch.
  change (2 ^ 32 - 1) with (N.ones 32).
  rewrite N.lxor_spec, N.lor_spec, !N.land_spec, N.lxor_spec, N.ldiff_spec.
  destruct (N.lt_ge_cases i 32).
  - rewrite N.ones_spec_low by done. by destruct (N.testbit e i), (N.testbit f i), (N.testbit g i).
  - rewrite (high_bit e), (high_bit f), (high_bit g) by done. by rewrite !andb_false_r.
Qed.

Lemma majority_maj a b c :
  N.lxor (N.lxor (N.land a b) (N.land a c)) (N.land b c) = Fips.maj a b c.
Proof.
  apply N.bits_inj. intros i. unfold Fips.maj.
  rewrite !N.lxor_spec, !N.lor_spec, !N.land_spec.
  by destruct (N.testbit a i), (N.testbit b i), (N.testbit c i).
Qed.

(** ** One round *)

Definition words_ok (r : Registers) : Prop := Forall (fun x => word x) (state_words r).

Lemma round_step k w r : words_ok r -> round k w r = Fips.step r (k, w) /\ words_ok (round k w r).
Proof.
  destruct r as [a b c d e f g h]. unfold words_ok, state_words; simpl.
  rewrite !Forall_cons. intros (Ha & Hb & Hc & Hd & He & Hf & Hg & Hh & _). split.
  - unfold Fips.step, Fips.plus, Fips.big_sigma0, Fips.big_sigma1; simpl.
    rewrite !rotate_right_rotr, choose_ch, majority_maj, !N.lxor_assoc by (done || lia).
    unfold w32. by rewrite !N.add_0_r, !N.add_assoc.
  - repeat split; auto using w32_word.
Qed.

Lemma rounds_steps kws r :
  words_ok r -> fold_left (fun r kw => round kw.1 kw.2 r) kws r = fold_left Fips.step kws r.
Proof.
  revert r; induction kws as [|[k w] kws IH]; intros r Hr; simpl; [done|].
  destruct (round_step k w r Hr) as [<- Hr']. by apply IH.
Qed.

Lemma fold_index_zip {A} (f : A -> N -> N -> A) ks ws a :
  length ks = length ws ->
  fold_left (fun a i => f a (nth i ks 0) (nth i ws 0)) (seq 0 (length ks)) a =
  fold_left (fun a kw => f a kw.1 kw.2) (zip ks ws) a.
Proof.
  revert ws a; induction ks as [|k ks IH]; intros [|w ws] a Hl; simpl in *; [done..|].
  rewrite <- IH by lia. rewrite <- seq_shift. generalize (seq 0 (length ks)) (f a k w).
  intros l; induction l as [|i l IHl]; intros a'; simpl; [done|]. apply IHl.
Qed.

Lemma add_registers_ok s r : words_ok (add_registers s r).
Proof. unfold words_ok, state_words; simpl. repeat constructor; apply w32_word. Qed.

(** ** The message schedule *)

Lemma w_rev_length block n : length (Fips.w_rev block n) = n.
Proof. induction n; simpl; congruence. Qed.

Lemma eval4_word l : Forall (fun x => x < 256) l -> (length l <= 4)%nat -> word (eval 256 l).
Proof.
  intros Hl Hn. unfold eval, eval_from.
  destruct l as [|a [|b [|c [|d [|? ?]]]]]; simpl in Hn; [| | | | |lia];
    rewrite ?Forall_cons in Hl; simpl; lia.
Qed.

Section Schedule.
Context (block : list N) (Hbytes : Forall (fun x => x < 256) block).

Lemma w_rev_words n : Forall (fun x => word x) (Fips.w_rev block n).
Proof.
  induction n as [|t IH]; cbn [Fips.w_rev]; [done|]. constructor; [|done].
  destruct (t <? 16)%nat; [|apply N.mod_lt; lia].
  apply eval4_word; [by apply Forall_take, Forall_drop|rewrite length_take; lia].
Qed.

(** The array between two loop iterations: the words computed so far. *)
Definition filled (i r : nat) : list N := rev (Fips.w_rev block i) ++ replicate r 0.

Lemma filled_nth i r j : (1 <= j <= i)%nat -> nth (i - j) (filled i r) 0 = nth (j - 1) (Fips.w_rev block i) 0.
Proof.
  intros Hj. unfold filled. pose proof (w_rev_length block i) as Hl.
  rewrite app_nth1 by (rewrite length_rev; lia). rewrite rev_nth by lia. f_equal. lia.
Qed.

Lemma filled_insert i r v :
  Fips.w_rev block (S i) = v :: Fips.w_rev block i -> <[i := v]> (filled i (S r)) = filled (S i) r.
Proof.
  intros Hv. unfold filled. rewrite Hv. simpl.
  rewrite insert_app_r_alt by (rewrite length_rev, w_rev_length; lia).
  rewrite length_rev, w_rev_length, Nat.sub_diag. simpl. by rewrite <- app_assoc.
Qed.

Lemma fill_loop (g : list N -> nat -> N) k i r :
  (forall j, (i <= j < i + k)%nat -> forall r', Fips.w_rev block (S j) = g (filled j r') j :: Fips.w_rev block j) ->
  fold_left (fun ws j => <[j := g ws j]> ws) (seq i k) (filled i (k + r)) = filled (i + k) r.
Proof.
  revert i; induction k as [|k IH]; intros i Hg; simpl.
  - by rewrite Nat.add_0_r.
  - rewrite filled_insert by (apply Hg; lia). rewrite IH by (intros; apply Hg; lia).
    f_equal. lia.
Qed.

Lemma word_nth i j : word (nth j (Fips.w_rev block i) 0).
Proof.
  pose proof (w_rev_words i) as H. destruct (nth_in_or_default j (Fips.w_rev block i) 0) as [Hi| ->]; [|lia].
  rewrite Forall_forall in H. apply H. by apply list_elem_of_In.
Qed.

Lemma schedule_word_spec i r : (16 <= i)%nat ->
  Fips.w_rev block (S i) = schedule_word (filled i r) i :: Fips.w_rev block i.
Proof.
  intros Hi. cbn [Fips.w_rev]. f_equal. rewrite (proj2 (Nat.ltb_ge i 16)) by done.
  unfold schedule_word. rewrite !filled_nth by lia.
  unfold Fips.plus, Fips.small_sigma0, Fips.small_sigma1, Fips.shr, w32.
  rewrite !rotate_right_rotr, !N.shiftr_div_pow2, !N.lxor_assoc by (apply word_nth || lia).
  f_equal. simpl. lia.
Qed.
End Schedule.

(** ** Loading the block *)

Lemma take4_nth (l : list N) n : (n + 4 <= length l)%nat ->
  take 4 (drop n l) = [nth n l 0; nth (n + 1) l 0; nth (n + 2) l 0; nth (n + 3) l 0].
Proof.
  intros Hl. assert (Hd : forall j, nth (n + j) l 0 = nth j (drop n l) 0).
  { intros j. symmetry. apply nth_skipn. }
  rewrite <- (Nat.add_0_r n) at 2. rewrite !Hd. pose proof (length_drop l n) as Hn.
  destruct (drop n l) as [|a [|b [|c [|d t]]]]; simpl in *; [lia..|done].
Qed.

Lemma load_word_eval bytes block i :
  Forall (fun x => x < 256) bytes -> (block + 64 <= length bytes)%nat -> (i < 16)%nat ->
  load_word bytes block i = eval 256 (take 4 (drop (4 * i) (take 64 (drop block bytes)))).
Proof.
  intros Hb Hl Hi. rewrite take4_nth by (rewrite length_take, length_drop; lia).
  assert (Hn : forall j, (j < 64)%nat -> nth j (take 64 (drop block bytes)) 0 = nth (block + j) bytes 0).
  { intros j Hj. rewrite !nth_lookup, lookup_take_lt by done. by rewrite lookup_drop. }
  rewrite !Hn by lia. unfold load_word. rewrite !Nat.add_assoc, Nat.add_0_r.
  assert (Hbyte : forall j, nth j bytes 0 < 256).
  { intros j. rewrite Forall_forall in Hb. destruct (nth_in_or_default j bytes 0) as [H| ->]; [|lia].
    apply Hb. by apply list_elem_of_In. }
  generalize (Hbyte (block + 4 * i)%nat) (Hbyte (block + 4 * i + 1)%nat)
    (Hbyte (block + 4 * i + 2)%nat) (Hbyte (block + 4 * i + 3)%nat).
  generalize (nth (block + 4 * i) bytes 0) (nth (block + 4 * i + 1) bytes 0)
    (nth (block + 4 * i + 2) bytes 0) (nth (block + 4 * i + 3) bytes 0).
  intros a b c d Ha Hb' Hc Hd. unfold w32. rewrite !N.shiftl_mul_pow2, !N.mod_small by lia.
  rewrite (lor_disjoint (b * 2 ^ 16) a 24) by lia.
  replace (a * 2 ^ 24 + b * 2 ^ 16) with ((a * 2 ^ 8 + b) * 2 ^ 16) by lia.
  rewrite lor_disjoint by lia.
  replace ((a * 2 ^ 8 + b) * 2 ^ 16 + c * 2 ^ 8) with (((a * 2 ^ 8 + b) * 2 ^ 8 + c) * 2 ^ 8) by lia.
  rewrite lor_disjoint by lia. unfold eval, eval_from. simpl. lia.
Qed.

Lemma schedule_w bytes block :
  Forall (fun x => x < 256) bytes -> (block + 64 <= length bytes)%nat ->
  schedule bytes block = rev (Fips.w_rev (take 64 (drop block bytes)) 64).
Proof.
  intros Hb Hl. set (b := take 64 (drop block bytes)).
  assert (Hbb : Forall (fun x => x < 256) b) by by apply Forall_take, Forall_drop.
  unfold schedule. change (replicate 64 0) with (filled b 0 (16 + 48)).
  rewrite (fill_loop b (fun _ i => load_word bytes block i)).
  - change (0 + 16)%nat with 16%nat. rewrite <- (Nat.add_0_r 48). rewrite (fill_loop b schedule_word).
    + unfold filled. by rewrite app_nil_r.
    + intros. apply schedule_word_spec; [done|lia].
  - intros j Hj r. cbn [Fips.w_rev]. rewrite (proj2 (Nat.ltb_lt j 16)) by lia.
    f_equal. symmetry. by apply load_word_eval; [..|lia].
Qed.

(** ** Blocks *)

Lemma process_block_compress bytes block s :
  Forall (fun x => x < 256) bytes -> (block + 64 <= length bytes)%nat -> words_ok s ->
  process_block bytes block s = Fips.compress s (take 64 (drop block bytes)).
Proof.
  intros Hb Hl Hs. unfold process_block, Fips.compress. rewrite round_constants_roots. f_equal. rewrite schedule_w by done.
  set (ws := rev _). assert (Hw : length constants = length ws).
  { unfold ws. by rewrite length_rev, w_rev_length. }
  change (seq 0 64) with (seq 0 (length constants)).
  rewrite (fold_index_zip (fun r k w => round k w r)) by done. by apply rounds_steps.
Qed.

Lemma blocks_loop_fold fuel bytes block s n :
  Forall (fun x => x < 256) bytes -> words_ok s ->
  length bytes = (block + 64 * n)%nat -> (n <= fuel)%nat ->
  blocks_loop fuel bytes block s = fold_left Fips.compress (Fips.blocks fuel (drop block bytes)) s.
Proof.
  intros Hb. revert block s n; induction fuel as [|f IH]; intros block s n Hs Hl Hf; simpl.
  - by destruct (_ <? _)%nat.
  - destruct (Nat.ltb_spec block (length bytes)) as [Hlt|Hge].
    + destruct n as [|n]; [lia|]. destruct (drop block bytes) eqn:E.
      { apply (f_equal length) in E. rewrite length_drop in E. simpl in E. lia. }
      rewrite <- E. simpl. rewrite (IH (block + 64)%nat _ n) by (lia || apply add_registers_ok).
      rewrite drop_drop. by rewrite process_block_compress by (done || lia).
    + rewrite drop_ge by lia. done.
Qed.

(** ** Padding *)

Lemma padded_loop_spec fuel p k :
  (k <= fuel)%nat -> ((p + k) mod 64 = 56)%nat ->
  (forall j, (j < k)%nat -> ((p + j) mod 64 <> 56)%nat) -> padded_loop fuel p = (p + k)%nat.
Proof.
  revert p k; induction fuel as [|f IH]; intros p k Hk H56 Hmin.
  - replace k with 0%nat by lia. simpl. destruct (_ =? _)%nat; lia.
  - cbn [padded_loop]. destruct (Nat.eqb_spec (p mod 64) 56) as [E|E].
    + destruct k as [|k]; [lia|]. specialize (Hmin 0%nat). rewrite Nat.add_0_r in Hmin.
      exfalso. apply Hmin; [lia|done].
    + destruct k as [|k]; [rewrite Nat.add_0_r in H56; done|].
      rewrite (IH (S p) k); [lia|lia|rewrite <- H56; f_equal; lia|].
      intros j Hj. replace (S p + j)%nat with (p + S j)%nat by lia. apply Hmin. lia.
Qed.

Lemma padded_length l :
  padded_loop 64 (l + 1) = (l + 1 + (119 - l mod 64) mod 64)%nat.
Proof.
  assert (Hm : ((119 - l mod 64) mod 64 < 64)%nat) by (apply Nat.mod_upper_bound; lia).
  apply padded_loop_spec; [lia..|]. intros j Hj. lia.
Qed.

Lemma byte_of_w64 n k : k + 8 <= 64 -> (n mod 2 ^ 64 / 2 ^ k) mod 2 ^ 8 = (n / 2 ^ k) mod 2 ^ 8.
Proof.
  intros Hk. apply N.bits_inj. intros i. destruct (N.lt_ge_cases i 8).
  - rewrite !N.mod_pow2_bits_low, !N.div_pow2_bits by done. apply N.mod_pow2_bits_low. lia.
  - by rewrite !N.mod_pow2_bits_high.
Qed.

Lemma length_bytes_digits n : length_bytes (w64 n) = fixed_digits 256 8 n.
Proof.
  unfold length_bytes, w64. change 0xff with (N.ones 8). simpl fmap.
  rewrite !N.land_ones, !N.shiftr_div_pow2, !byte_of_w64 by lia. rewrite N.pow_0_r, N.div_1_r.
  cbn [fixed_digits]. rewrite !N.Div0.div_div. reflexivity.
Qed.

Lemma pad_spec source : padded_bytes source = Fips.pad (source_bytes source).
Proof.
  unfold padded_bytes, Fips.pad. rewrite padded_length, length_bytes_digits.
  assert (Hl : length (source_bytes source) = String.length source).
  { unfold source_bytes. rewrite length_fmap. induction source; simpl; congruence. }
  rewrite Hl. rewrite resize_ge by (rewrite length_app, Hl; simpl; lia).
  rewrite length_app, Hl. simpl length. rewrite Nat.add_comm, Nat.add_sub.
  by rewrite <- !app_assoc.
Qed.

Lemma source_bytes_length source : length (source_bytes source) = String.length source.
Proof. unfold source_bytes. rewrite length_fmap. induction source; simpl; congruence. Qed.

Lemma source_bytes_bound source : Forall (fun x => x < 256) (source_bytes source).
Proof.
  unfold source_bytes. apply Forall_fmap, Forall_forall. intros c _. apply N_ascii_bounded.
Qed.

#[export] Instance N_of_ascii_inj : Inj (=) (=) N_of_ascii.
Proof. intros a b E. by rewrite <- (ascii_N_embedding a), E, ascii_N_embedding. Qed.

Lemma source_bytes_inj s t : source_bytes s = source_bytes t -> s = t.
Proof.
  intros E. apply (inj (fmap N_of_ascii)) in E.
  rewrite <- (string_of_list_ascii_of_string s), E. apply string_of_list_ascii_of_string.
Qed.

Lemma padded_bytes_bound source : Forall (fun x => x < 256) (padded_bytes source).
Proof.
  rewrite pad_spec. unfold Fips.pad. rewrite !Forall_app. split_and!.
  - apply source_bytes_bound.
  - by repeat constructor.
  - by apply Forall_replicate.
  - by apply fixed_digits_bound.
Qed.

Lemma padded_bytes_length source : exists n, length (padded_bytes source) = (64 * n)%nat.
Proof.
  rewrite pad_spec. unfold Fips.pad.
  rewrite !length_app, length_replicate, fixed_digits_length, source_bytes_length. simpl length.
  set (l := String.length source).
  exists ((l + 1 + (119 - l mod 64) mod 64 + 8) / 64)%nat. lia.
Qed.

Lemma initial_state_ok : words_ok initial_state.
Proof. by repeat constructor. Qed.

Lemma digest_words_ok bs s : words_ok s -> words_ok (fold_left Fips.compress bs s).
Proof. revert s; induction bs as [|b bs IH]; intros s Hs; simpl; [done|]. apply IH, add_registers_ok. Qed.

Lemma concat_empty (l : list string) : String.concat "" l = foldr String.append "" l.
Proof.
  induction l as [|s [|t l] IH]; [done|simpl; by rewrite append_nil_r|].
  change (s +:+ "" +:+ String.concat "" (t :: l) = s +:+ foldr String.append "" (t :: l)).
  by rewrite <- IH.
Qed.

Definition digest_text (words : list N) : string := "sha256:" +:+ foldr String.append "" (fixed_hex 8 <$> words).

Lemma hex_words_fixed words :
  Forall (fun x => word x) words -> hex_field 8 <$> words = fixed_hex 8 <$> words.
Proof. induction 1; simpl; [done|]. f_equal; [|done]. by apply hex_field_fixed; [lia|]. Qed.

Lemma fixed_words_inj l k :
  length l = length k -> Forall (fun x => word x) l -> Forall (fun x => word x) k ->
  foldr String.append "" (fixed_hex 8 <$> l) = foldr String.append "" (fixed_hex 8 <$> k) -> l = k.
Proof.
  intros Hl Hw; revert k Hl; induction Hw as [|x l Hx Hw IH]; intros [|y k] Hl Hk E;
    simpl in Hl; [done..|]. rewrite !fmap_cons in E. cbn [foldr] in E. inversion Hk; subst.
  apply append_inj_length in E as [E1 E2]; [|by rewrite !length_fixed_hex].
  f_equal; [by apply (fixed_hex_inj 8)|]. apply IH; [lia|done..].
Qed.

Lemma sha256_words source :
  sha256 source = digest_text (state_words (Fips.digest (source_bytes source))).
Proof.
  unfold sha256, digest_text, Fips.digest. rewrite <- pad_spec, initial_roots.
  destruct (padded_bytes_length source) as [n Hn].
  rewrite (blocks_loop_fold _ _ 0 initial_state n); [|apply padded_bytes_bound|apply initial_state_ok|lia|lia].
  rewrite drop_0, concat_empty, hex_words_fixed; [done|]. apply digest_words_ok, initial_state_ok.
Qed.

(** C20. [sha256] computes SHA-256 as FIPS 180-4 defines it, for every source:
    padding by a counting loop, the in-place schedule array, shift-and-or
    rotations, the xor forms of Ch and Maj, wrapping sums and the tables of
    constants give the same eight words as the standard's definition, in which
    the constants are computed from the roots of primes, written as eight zero-filled
    hexadecimal fields. *)
Theorem sha256_is_fips (source : string) :
  sha256 source = digest_text (state_words (Fips.digest (source_bytes source))).
Proof.
  apply sha256_words.
Qed.

(** C32. The text of a digest is canonical: 71 characters, and two sources
    have the same text exactly when SHA-256 gives them the same words. *)
Theorem sha256_text_canonical (s t : string) :
  String.length (sha256 s) = 71%nat /\
  (sha256 s = sha256 t <->
   state_words (Fips.digest (source_bytes s)) = state_words (Fips.digest (source_bytes t))).
Proof.
  assert (Hok : forall u, words_ok (Fips.digest (source_bytes u)))
    by (intros; apply digest_words_ok, initial_state_ok).
  rewrite !sha256_words. unfold digest_text. split.
  - reflexivity.
  - split; [|by intros ->]. intros E. apply append_inj_length in E as [_ E]; [|done].
    apply fixed_words_inj in E; [done|done|apply Hok..].
Qed.

(** C33. Padding loses nothing: distinct sources shorter than 2^61 bytes have
    distinct padded messages. *)
Theorem padding_injective (s t : string) :
  (N.of_nat (String.length s) < 2 ^ 61) -> (N.of_nat (String.length t) < 2 ^ 61) ->
  s <> t -> padded_bytes s <> padded_bytes t.
Proof.
  intros Hs Ht Hst E. apply Hst. rewrite !pad_spec in E. unfold Fips.pad in E. rewrite !source_bytes_length in E.
  rewrite !app_assoc in E. apply app_inj_2 in E as [E1 E2]; [|by rewrite !fixed_digits_length].
  apply (f_equal (eval 256)) in E2. rewrite !fixed_digits_eval in E2; [|lia|simpl; lia..].
  rewrite <- !app_assoc in E1. apply app_inj_1 in E1 as [E1 _]; [by apply source_bytes_inj|].
  rewrite !source_bytes_length. lia.
Qed.

Lemma padding_injective_witness : padded_bytes "" <> padded_bytes "a".
Proof. apply padding_injective; [vm_compute; reflexivity..|discriminate]. Defined.
Close Scope N_scope.
