(* ===== verification/Json.v ===== *)
(** * JSON text: the builders the code streams and the grammar they obey

    [json_value] is the value grammar of RFC 8259 on byte strings without
    insignificant white space.  No value contains a control character, so a
    record that is a value is one line. *)

From S2P Require Import Prelude Format.
From Stdlib Require Import NArith.

Definition dquote : ascii := "034"%char.
Definition backslash : ascii := "092"%char.

(** A string literal whose characters need no escape. *)
Definition lit (s : string) : string := String dquote (s +:+ String dquote "").

(** [{"k":v,...}] and [[v,...]] *)
Definition member (kv : string * string) : string := kv.1 +:+ ":" +:+ kv.2.
Definition obj (members : list (string * string)) : string :=
  "{" +:+ String.concat "," (member <$> members) +:+ "}".
Definition arr (values : list string) : string := "[" +:+ String.concat "," values +:+ "]".

(** ** The grammar *)

Definition is_hex (c : ascii) : bool := is_digit c || in_range "a" "f" c || in_range "A" "F" c.

Definition plain_char (c : ascii) : bool :=
  (0x20 <=? N_of_ascii c)%N && negb (c =? dquote)%char && negb (c =? backslash)%char.

Definition escape_char (c : ascii) : bool :=
  (c =? dquote)%char || (c =? backslash)%char ||
  bool_decide (c ∈ list_ascii_of_string "/bfnrt").

Inductive content : string -> Prop :=
| content_nil : content ""
| content_plain c s : plain_char c = true -> content s -> content (String c s)
| content_escape c s : escape_char c = true -> content s -> content (String backslash (String c s))
| content_unicode a b c d s :
    is_hex a = true -> is_hex b = true -> is_hex c = true -> is_hex d = true -> content s ->
    content (String backslash (String "u" (String a (String b (String c (String d s)))))).

Inductive json_value : string -> Prop :=
| json_string s : content s -> json_value (lit s)
| json_number n : json_value (decimal n)
| json_true : json_value "true"
| json_false : json_value "false"
| json_empty_array : json_value "[]"
| json_array s : json_elements s -> json_value ("[" +:+ s +:+ "]")
| json_empty_object : json_value "{}"
| json_object s : json_members s -> json_value ("{" +:+ s +:+ "}")
with json_elements : string -> Prop :=
| elements_one v : json_value v -> json_elements v
| elements_cons v s : json_value v -> json_elements s -> json_elements (v +:+ "," +:+ s)
with json_members : string -> Prop :=
| members_one k v : content k -> json_value v -> json_members (lit k +:+ ":" +:+ v)
| members_cons k v s : content k -> json_value v -> json_members s ->
    json_members ((lit k +:+ ":" +:+ v) +:+ "," +:+ s).

Scheme json_value_min := Minimality for json_value Sort Prop
with json_elements_min := Minimality for json_elements Sort Prop
with json_members_min := Minimality for json_members Sort Prop.

(** ** The builders obey it *)

Lemma arr_json vs : Forall json_value vs -> json_value (arr vs).
Proof.
  intros Hvs. unfold arr. destruct Hvs as [|v vs Hv Hvs]; [apply json_empty_array|].
  apply json_array. revert v Hv. induction Hvs as [|w ws Hw Hws IH]; intros v Hv; [by constructor|].
  rewrite concat_cons. apply elements_cons; auto.
Qed.

Lemma obj_json ms : Forall (fun kv => (exists k, kv.1 = lit k /\ content k) /\ json_value kv.2) ms -> json_value (obj ms).
Proof.
  intros Hms. unfold obj. destruct Hms as [|[k v] ms [(k' & E & Hk) Hv] Hms]; [apply json_empty_object|].
  simpl in E, Hv. subst k. apply json_object. revert k' v Hk Hv.
  induction Hms as [|[k2 v2] ms [(k2' & E & Hk2) Hv2] Hms IH]; intros k v Hk Hv; [by constructor|].
  simpl in E, Hv2. subst k2. rewrite !fmap_cons, concat_cons.
  apply (members_cons k v); [done..|]. by apply (IH k2' v2).
Qed.

(** ** Values are printable, so they fit on one line *)

Definition printable_char (c : ascii) : bool := (0x20 <=? N_of_ascii c)%N.

Lemma content_printable s : content s -> all_chars printable_char s = true.
Proof.
  assert (Hesc : forall c, escape_char c = true -> printable_char c = true)
    by (intros c; destruct c as [[] [] [] [] [] [] [] []]; vm_compute; done).
  assert (Hhex : forall c, is_hex c = true -> printable_char c = true)
    by (intros c; destruct c as [[] [] [] [] [] [] [] []]; vm_compute; done).
  induction 1; simpl; [done|..].
  - unfold plain_char in H. apply andb_true_iff in H as [[Hc _]%andb_true_iff _].
    unfold printable_char at 1. by rewrite Hc.
  - by rewrite Hesc.
  - by rewrite !Hhex.
Qed.

Lemma lit_printable s : all_chars printable_char s = true -> all_chars printable_char (lit s) = true.
Proof. intros Hs. simpl. by rewrite all_chars_app, Hs. Qed.

Lemma decimal_printable n : all_chars printable_char (decimal n) = true.
Proof.
  assert (Hd : forall c, is_digit c = true -> printable_char c = true)
    by (intros c; destruct c as [[] [] [] [] [] [] [] []]; vm_compute; done).
  pose proof (decimal_digits n) as H. induction (decimal n) as [|c s IH]; simpl in *; [done|].
  apply andb_true_iff in H as [Hc Hs]. by rewrite Hd, IH.
Qed.

Lemma json_printable s : json_value s -> all_chars printable_char s = true.
Proof.
  apply (json_value_min (fun s => all_chars printable_char s = true)
           (fun s => all_chars printable_char s = true) (fun s => all_chars printable_char s = true));
    intros; rewrite ?all_chars_app; rewrite ?lit_printable by auto using content_printable; simpl;
    rewrite ?all_chars_app; repeat match goal with H : all_chars _ _ = true |- _ => rewrite H end;
    auto using decimal_printable, lit_printable, content_printable.
Qed.
