(* ===== verification/Z3Ast.v ===== *)
(** * The Z3 terms Fine works on

    Z3 itself is outside this development: its sorts and declarations are
    the parameters [Sort] and [Decl] of the class [Z3Data], with the
    attributes the API reads off them, and its term constructors are the
    operations of [Z3Api].  Terms are the ASTs of one manager: hash-consing
    makes pointer identity ([Z3_is_eq_ast]) structural identity, so a term is
    an inductive value and [term_eqb] decides identity. *)

From S2P Require Import Prelude Format.
From Stdlib Require Import NArith ZArith.

(** ** Symbols (src/src/api/api_ast.cpp) *)

Inductive Symbol := SNull | SInt (n : N) | SString (s : string).

#[export] Instance Symbol_eq_dec : EqDecision Symbol.
Proof. solve_decision. Defined.

Definition mk_string_symbol (str : string) : Symbol :=
  if (c_str str =? "")%string then SNull else SString (c_str str).

(** [int_symbol] takes the unsigned value as an [int]; a negative one is refused. *)
Definition mk_int_symbol (n : N) : option Symbol :=
  if (n <? 2 ^ 31)%N then Some (SInt n) else None.

Inductive DeclParameter (Sort : Type) :=
| PInt (n : Z)
| PDouble (text : string)
| PRational (text : string)
| PSymbol (s : Symbol)
| PSort (s : Sort)
| PAst (text : string)
| PFuncDecl (name : Symbol)
| PInternal
| PZString.
Arguments PInt {Sort} n.
Arguments PDouble {Sort} text.
Arguments PRational {Sort} text.
Arguments PSymbol {Sort} s.
Arguments PSort {Sort} s.
Arguments PAst {Sort} text.
Arguments PFuncDecl {Sort} name.
Arguments PInternal {Sort}.
Arguments PZString {Sort}.

(** The declaration kinds the lift names; every other kind is [OP_OTHER]. *)
Inductive DeclKind :=
| OP_TRUE | OP_FALSE | OP_EQ | OP_DISTINCT | OP_ITE | OP_AND | OP_OR | OP_IFF | OP_XOR | OP_NOT
| OP_IMPLIES | OP_OEQ | OP_LE | OP_GE | OP_LT | OP_GT | OP_ADD | OP_SUB | OP_UMINUS | OP_MUL
| OP_DIV | OP_IDIV | OP_REM | OP_MOD | OP_TO_REAL | OP_TO_INT | OP_IS_INT | OP_POWER | OP_ABS
| OP_STORE | OP_SELECT | OP_CONST_ARRAY | OP_ARRAY_DEFAULT | OP_OTHER.

#[export] Instance DeclKind_eq_dec : EqDecision DeclKind.
Proof. solve_decision. Defined.

Class Z3Data := {
  Sort : Type;
  Decl : Type;
  Sort_eq_dec :: EqDecision Sort;
  Decl_eq_dec :: EqDecision Decl;
  sort_to_string : Sort -> string;
  sort_kind : Sort -> N;
  sort_ast_id : Sort -> N;
  decl_kind : Decl -> DeclKind;
  decl_kind_code : Decl -> N;
  decl_name : Decl -> Symbol;
  decl_parameters : Decl -> list (DeclParameter Sort);
  decl_domain : Decl -> list Sort;
  decl_range : Decl -> Sort;
  decl_to_string : Decl -> string;
  decl_ast_id : Decl -> N
}.

Inductive QuantifierKind := QForall | QExists | QLambda.

#[export] Instance QuantifierKind_eq_dec : EqDecision QuantifierKind.
Proof. solve_decision. Defined.

(** The expression ASTs: numerals, applications, de Bruijn variables and
    quantifiers with their weight, identifiers, bound variables, patterns and
    no-patterns. *)
Inductive Term `{Z3Data} :=
| Numeral (value : string) (s : Sort)
| App (d : Decl) (args : list Term)
| Var (index : nat) (s : Sort)
| Quant (k : QuantifierKind) (weight : N) (qid skid : Symbol) (bound : list (Symbol * Sort))
        (patterns : list (list Term)) (no_patterns : list Term) (body : Term).

Section TermInd.
Context `{Z3Data} (P : Term -> Prop).
Context (HN : forall v s, P (Numeral v s)).
Context (HA : forall d args, Forall P args -> P (App d args)).
Context (HV : forall i s, P (Var i s)).
Context (HQ : forall k w q s bs ps ns b, Forall (Forall P) ps -> Forall P ns -> P b ->
              P (Quant k w q s bs ps ns b)).

Fixpoint Term_nested_ind (t : Term) : P t :=
  let all := fix all (l : list Term) : Forall P l :=
    match l with [] => Forall_nil_2 P | x :: l' => Forall_cons_2 P x l' (Term_nested_ind x) (all l') end in
  let alls := fix alls (l : list (list Term)) : Forall (Forall P) l :=
    match l with
    | [] => Forall_nil_2 (Forall P)
    | x :: l' => Forall_cons_2 (Forall P) x l' (all x) (alls l')
    end in
  match t with
  | Numeral v s => HN v s
  | App d args => HA d args (all args)
  | Var i s => HV i s
  | Quant k w q s bs ps ns b => HQ k w q s bs ps ns b (alls ps) (all ns) (Term_nested_ind b)
  end.
End TermInd.

(** ** Identity of terms *)

Section ListEqb.
Context {A : Type} (f : A -> A -> bool).
Fixpoint list_eqb (l k : list A) : bool :=
  match l, k with
  | [], [] => true
  | x :: l', y :: k' => f x y && list_eqb l' k'
  | _, _ => false
  end.
End ListEqb.

Lemma list_eqb_spec {A} (f : A -> A -> bool) l :
  Forall (fun x => forall y, f x y = true <-> x = y) l -> forall k, list_eqb f l k = true <-> l = k.
Proof.
  induction 1 as [|x l Hx Hl IH]; intros [|y k]; simpl; [naive_solver..|].
  rewrite andb_true_iff, Hx, IH. naive_solver.
Qed.

Fixpoint term_eqb `{Z3Data} (t u : Term) : bool :=
  match t, u with
  | Numeral v s, Numeral v' s' => bool_decide (v = v') && bool_decide (s = s')
  | App d l, App d' l' => bool_decide (d = d') && list_eqb term_eqb l l'
  | Var i s, Var i' s' => bool_decide (i = i') && bool_decide (s = s')
  | Quant k w q s bs ps ns b, Quant k' w' q' s' bs' ps' ns' b' =>
      bool_decide (k = k') && bool_decide (w = w') && bool_decide (q = q') && bool_decide (s = s') &&
      bool_decide (bs = bs') && list_eqb (list_eqb term_eqb) ps ps' && list_eqb term_eqb ns ns' &&
      term_eqb b b'
  | _, _ => false
  end.

Lemma term_eqb_spec `{Z3Data} t u : term_eqb t u = true <-> t = u.
Proof.
  revert u. induction t as [v s|d l IH|i s|k w q s bs ps ns b Hps Hns Hb] using Term_nested_ind;
    intros [v' s'|d' l'|i' s'|k' w' q' s' bs' ps' ns' b']; simpl; try naive_solver.
  - rewrite andb_true_iff, !bool_decide_eq_true. naive_solver.
  - rewrite andb_true_iff, bool_decide_eq_true, list_eqb_spec by done. naive_solver.
  - rewrite andb_true_iff, !bool_decide_eq_true. naive_solver.
  - rewrite !andb_true_iff, !bool_decide_eq_true, Hb, (list_eqb_spec term_eqb ns) by done.
    rewrite list_eqb_spec; [split; [by intros [[[[[[[-> ->] ->] ->] ->] ->] ->] ->]|by intros [= -> -> -> -> -> -> -> ->]]|].
    eapply Forall_impl; [exact Hps|]. intros x Hx y. by apply list_eqb_spec.
Qed.

#[export] Instance Term_eq_dec `{Z3Data} : EqDecision Term.
Proof.
  refine (fun t u => match decide (term_eqb t u = true) with left H => left _ | right H => right _ end);
    by rewrite <- term_eqb_spec.
Defined.

(** ** Term constructors *)

(** A failed call leaves an error code; [None] stands for the exception or
    the null AST that follows. *)
Class Z3Api `{Z3Data} := {
  mk_app : Decl -> list Term -> option Term;
  mk_numeral : string -> Sort -> option Term;
  mk_bound : nat -> Sort -> Term;
  mk_quantifier_ex : bool -> N -> Symbol -> Symbol -> list (list Term) -> list Term ->
                     list (Symbol * Sort) -> Term -> option Term;
  mk_lambda : list (Symbol * Sort) -> Term -> option Term;
  (** the terms the manager holds *)
  live : Term -> Prop
}.

Definition is_forall (k : QuantifierKind) : bool :=
  match k with QForall => true | _ => false end.

(** What the lift relies on: the manager holds the subterms of the terms it
    holds, and rebuilding a term it holds from its own parts returns it. *)
Class Z3Laws `{Z3Api} := {
  mk_bound_law i s : mk_bound i s = Var i s;
  live_numeral v s : live (Numeral v s) -> c_str v = v /\ mk_numeral v s = Some (Numeral v s);
  live_app d l : live (App d l) -> Forall live l /\ mk_app d l = Some (App d l);
  live_quant k w q s bs ps ns b :
    live (Quant k w q s bs ps ns b) -> Forall (Forall live) ps /\ Forall live ns /\ live b;
  live_quantifier k w q s bs ps ns b :
    live (Quant k w q s bs ps ns b) -> k <> QLambda ->
    mk_quantifier_ex (is_forall k) w q s ps ns bs b = Some (Quant k w q s bs ps ns b);
  live_lambda bs b :
    live (Quant QLambda 0 SNull SNull bs [] [] b) ->
    mk_lambda bs b = Some (Quant QLambda 0 SNull SNull bs [] [] b)
}.

(** ** A concrete manager

    Sorts are names, declarations carry their attributes, and constructors
    build the structural term; what [Z3_mk_app] and the others refuse is
    refused: a wrong number of arguments, a null pattern or both kinds of
    patterns, an empty binder list. *)

Module Structural.

Record StructuralDecl := mkStructuralDecl {
  sd_kind : DeclKind;
  sd_name : Symbol;
  sd_parameters : list (DeclParameter string);
  sd_domain : list string;
  sd_range : string
}.

#[export] Instance DeclParameter_eq_dec : EqDecision (DeclParameter string).
Proof. solve_decision. Defined.

#[export] Instance StructuralDecl_eq_dec : EqDecision StructuralDecl.
Proof. solve_decision. Defined.

#[export] Instance data : Z3Data := {|
  Sort := string;
  Decl := StructuralDecl;
  sort_to_string := id;
  sort_kind := fun s => N.of_nat (String.length s);
  sort_ast_id := fun s => N.of_nat (String.length s);
  decl_kind := sd_kind;
  decl_kind_code := fun _ => 0%N;
  decl_name := sd_name;
  decl_parameters := sd_parameters;
  decl_domain := sd_domain;
  decl_range := sd_range;
  decl_to_string := fun d => sd_range d;
  decl_ast_id := fun _ => 1%N
|}.

Definition quantifier_ok (ps : list (list Term)) (ns : list Term) (bs : list (Symbol * Sort)) : bool :=
  negb (bool_decide (ps <> []) && bool_decide (ns <> [])) && negb (bool_decide (bs = [])) &&
  forallb (fun p => negb (bool_decide (p = []))) ps.

Fixpoint held (t : Term) : bool :=
  match t with
  | Numeral v _ => (c_str v =? v)%string
  | App d l => (length l =? length (decl_domain d)) && forallb held l
  | Var _ _ => true
  | Quant k w q s bs ps ns b =>
      quantifier_ok ps ns bs && forallb (forallb held) ps && forallb held ns && held b
  end.

#[export] Instance api : Z3Api := {|
  mk_app := fun d l => if length l =? length (decl_domain d) then Some (App d l) else None;
  mk_numeral := fun v s => Some (Numeral v s);
  mk_bound := Var;
  mk_quantifier_ex := fun f w q s ps ns bs b =>
    if quantifier_ok ps ns bs
    then Some (Quant (if f then QForall else QExists) w q s bs ps ns b) else None;
  mk_lambda := fun bs b =>
    if bool_decide (bs = []) then None else Some (Quant QLambda 0 SNull SNull bs [] [] b);
  live := fun t => held t = true
|}.

#[export] Instance laws : Z3Laws.
Proof.
  split; simpl.
  - done.
  - by intros v s H%String.eqb_eq.
  - intros d l [Hl Hall]%andb_true_iff. split; [|by rewrite Hl].
    by apply Forall_forall; intros x Hx; rewrite forallb_forall in Hall; apply Hall, list_elem_of_In.
  - intros k w q s bs ps ns b [[[_ Hps]%andb_true_iff Hns]%andb_true_iff Hb]%andb_true_iff.
    rewrite forallb_forall in Hps, Hns. split_and!; [|by apply Forall_forall; intros x Hx; apply Hns, list_elem_of_In|done].
    apply Forall_forall. intros p Hp. apply list_elem_of_In, Hps in Hp. rewrite forallb_forall in Hp.
    by apply Forall_forall; intros x Hx; apply Hp, list_elem_of_In.
  - intros k w q s bs ps ns b [[[Hq _]%andb_true_iff _]%andb_true_iff _]%andb_true_iff Hk.
    rewrite Hq. by destruct k.
  - intros bs b [[[Hq _]%andb_true_iff _]%andb_true_iff _]%andb_true_iff.
    unfold quantifier_ok in Hq. destruct bs; [done|]. by rewrite bool_decide_eq_false_2.
Qed.

End Structural.
