(* ===== verification/Lift.v ===== *)
(** * Lifting Z3 terms to generated Fine text and back (src/src/fine/rainfall_lift.cpp)

    [expression_text] prints a term under aliases for its sorts and
    declarations, [expression] reads such a text back against the same
    registry, and [lift_rainfall_term] prints, rereads and requires the
    identical term. *)

From S2P Require Import Prelude Format Json Z3Ast.
From Stdlib Require Import NArith ZArith.

(** ** Characters (the C locale's <cctype>) *)

Definition is_alpha (c : ascii) : bool := in_range "a" "z" c || in_range "A" "Z" c.
Definition is_alnum (c : ascii) : bool := is_alpha c || is_digit c.
Definition is_blank (c : ascii) : bool := (c =? " ")%char || in_range "009" "013" c.

(** ** Quoting *)

Definition escaped (c : ascii) : string := String backslash (String c "").

Definition json_char (c : ascii) : string :=
  if (c =? dquote)%char then escaped dquote
  else if (c =? backslash)%char then escaped backslash
  else if (c =? "010")%char then escaped "n"
  else if (c =? "013")%char then escaped "r"
  else if (c =? "009")%char then escaped "t"
  else if (N_of_ascii c <? 0x20)%N then
    String backslash "u00" +:+ String (digit_char (N.shiftr (N_of_ascii c) 4))
                                  (String (digit_char (N.land (N_of_ascii c) 15)) "")
  else String c "".

Fixpoint json_chars (text : string) : string :=
  match text with EmptyString => EmptyString | String c s => json_char c +:+ json_chars s end.

Definition json_quote (text : string) : string :=
  String dquote (json_chars text +:+ String dquote "").

Definition string_quote (text : string) : string := json_quote text.

(** ** Symbols *)

(** std::to_string on an [int]. *)
Definition int_text (z : Z) : string :=
  if (z <? 0)%Z then "-" +:+ decimal (Z.to_N (- z)) else decimal (Z.to_N z).

(** [Z3_get_symbol_int]: the unsigned payload as an [int]. *)
Definition symbol_int (n : N) : Z :=
  if (n <? 2 ^ 31)%N then Z.of_N n else (Z.of_N n - 2 ^ 32)%Z.

Definition symbol_text (s : Symbol) : string :=
  match s with
  | SNull => "<null>"
  | SInt n => int_text (symbol_int n)
  | SString v => c_str v
  end.

Definition symbol_syntax (s : Symbol) : string :=
  match s with
  | SNull => "n"
  | SInt n => "i(" +:+ int_text (symbol_int n) +:+ ")"
  | SString _ => "s(" +:+ string_quote (symbol_text s) +:+ ")"
  end.

(** ** Aliases *)

Fixpoint ends_underscore (s : string) : bool :=
  match s with
  | EmptyString => false
  | String c EmptyString => (c =? "_")%char
  | String _ s' => ends_underscore s'
  end.

(** The characters the loop of [sanitize] appends. *)
Fixpoint sanitize_chars (text : string) (previous_underscore : bool) : string :=
  match text with
  | EmptyString => EmptyString
  | String c s =>
      if is_alnum c || (c =? "_")%char then String c (sanitize_chars s (c =? "_")%char)
      else if negb previous_underscore then String "_" (sanitize_chars s true)
      else sanitize_chars s previous_underscore
  end.

(** [while (result.size() > prefix.size() && result.back() == '_') result.pop_back();]
    on the part after the prefix. *)
Fixpoint strip_underscores (s : string) : string :=
  match s with
  | EmptyString => EmptyString
  | String c s' =>
      match strip_underscores s' with
      | EmptyString => if (c =? "_")%char then EmptyString else String c EmptyString
      | r => String c r
      end
  end.

Definition sanitize (text prefix : string) : string :=
  let part := strip_underscores (sanitize_chars text (ends_underscore prefix)) in
  if (part =? "")%string then prefix +:+ "anonymous" else prefix +:+ part.

Section Lift.
Context `{Z3Api}.

Definition declaration_base (d : Decl) (symbol : string) : string :=
  match decl_kind d with
  | OP_TRUE => "true" | OP_FALSE => "false" | OP_EQ => "equal" | OP_DISTINCT => "distinct"
  | OP_ITE => "if" | OP_AND => "and" | OP_OR => "or" | OP_IFF => "iff" | OP_XOR => "xor"
  | OP_NOT => "not" | OP_IMPLIES => "implies" | OP_OEQ => "observational_equal"
  | OP_LE => "less_equal" | OP_GE => "greater_equal" | OP_LT => "less" | OP_GT => "greater"
  | OP_ADD => "add" | OP_SUB => "subtract" | OP_UMINUS => "negate" | OP_MUL => "multiply"
  | OP_DIV => "divide" | OP_IDIV => "integer_divide" | OP_REM => "remainder" | OP_MOD => "modulo"
  | OP_TO_REAL => "to_real" | OP_TO_INT => "to_int" | OP_IS_INT => "is_int" | OP_POWER => "power"
  | OP_ABS => "absolute" | OP_STORE => "store" | OP_SELECT => "select"
  | OP_CONST_ARRAY => "constant_array" | OP_ARRAY_DEFAULT => "array_default"
  | OP_OTHER => sanitize symbol ""
  end.

Definition parameter_text (p : DeclParameter Sort) : string :=
  match p with
  | PInt n => int_text n
  | PDouble t => t
  | PRational t => t
  | PSymbol s => symbol_text s
  | PSort s => sort_to_string s
  | PAst t => t
  | PFuncDecl name => symbol_text name
  | PInternal => "internal"
  | PZString => "zstring"
  end.

Definition declaration_parameters (d : Decl) : list string := parameter_text <$> decl_parameters d.

(** ** The registry *)

Record Registry := mkRegistry {
  sorts_ : list (string * Sort);
  declarations_ : list (string * Decl);
  aliases_ : list string
}.

Definition empty_registry : Registry := mkRegistry [] [] [].

(** [for (suffix = 1; !aliases_.insert(candidate).second; ++suffix) candidate = base_suffix;] *)
Fixpoint unique_loop (fuel : nat) (aliases : list string) (base : string) (suffix : nat)
    (candidate : string) : outcome string string :=
  if bool_decide (candidate ∈ aliases) then
    match fuel with
    | O => Diverge
    | S f => unique_loop f aliases base (S suffix) (base +:+ "_" +:+ to_string suffix)
    end
  else Ok candidate.

Definition unique (base : string) (r : Registry) : outcome string (string * Registry) :=
  candidate ← unique_loop (length (aliases_ r)) (aliases_ r) base 1 base;
  Ok (candidate, mkRegistry (sorts_ r) (declarations_ r) (candidate :: aliases_ r)).

Definition find_sort (s : Sort) (r : Registry) : option string :=
  fst <$> List.find (fun b => bool_decide (b.2 = s)) (sorts_ r).

Definition find_declaration (d : Decl) (r : Registry) : option string :=
  fst <$> List.find (fun b => bool_decide (b.2 = d)) (declarations_ r).

Definition sort_alias (s : Sort) (r : Registry) : outcome string (string * Registry) :=
  match find_sort s r with
  | Some alias => Ok (alias, r)
  | None =>
      '(alias, r) ← unique (sanitize (sort_to_string s) "_s_") r;
      Ok (alias, mkRegistry (sorts_ r ++ [(alias, s)]) (declarations_ r) (aliases_ r))
  end.

Fixpoint register_sorts (l : list Sort) (r : Registry) : outcome string Registry :=
  match l with
  | [] => Ok r
  | s :: l => '(_, r) ← sort_alias s r; register_sorts l r
  end.

Definition alias_base (d : Decl) : string :=
  fold_left (fun base parameter => base +:+ "_" +:+ sanitize parameter "")
    (declaration_parameters d) (declaration_base d (symbol_text (decl_name d))).

Definition declaration_alias (d : Decl) (r : Registry) : outcome string (string * Registry) :=
  match find_declaration d r with
  | Some alias => Ok (alias, r)
  | None =>
      '(alias, r) ← unique (sanitize (alias_base d) "_d_") r;
      r ← register_sorts (decl_domain d)
            (mkRegistry (sorts_ r) (declarations_ r ++ [(alias, d)]) (aliases_ r));
      '(_, r) ← sort_alias (decl_range d) r;
      Ok (alias, r)
  end.

Definition registered_sort (alias : string) (r : Registry) : outcome string Sort :=
  match List.find (fun b => (b.1 =? alias)%string) (sorts_ r) with
  | Some b => Ok b.2
  | None => Err ("unknown Fine lift sort alias `" +:+ alias +:+ "`")
  end.

Definition registered_declaration (alias : string) (r : Registry) : outcome string Decl :=
  match List.find (fun b => (b.1 =? alias)%string) (declarations_ r) with
  | Some b => Ok b.2
  | None => Err ("unknown Fine lift declaration alias `" +:+ alias +:+ "`")
  end.

Definition find_sort_alias (s : Sort) (r : Registry) : outcome string string :=
  match find_sort s r with
  | Some alias => Ok alias
  | None => Err "Fine lift declaration references an unregistered sort"
  end.

(** ** The registry as JSON *)

Definition sort_json (b : string * Sort) : string :=
  obj [(lit "name", json_quote b.1); (lit "z3_text", json_quote (sort_to_string b.2));
       (lit "sort_kind", decimal (sort_kind b.2));
       (lit "ast_id_at_observation", decimal (sort_ast_id b.2))].

Definition sorts_json (r : Registry) : string := arr (sort_json <$> sorts_ r).

Fixpoint traverse {A B} (f : A -> outcome string B) (l : list A) : outcome string (list B) :=
  match l with
  | [] => Ok []
  | x :: l => y ← f x; ys ← traverse f l; Ok (y :: ys)
  end.

Definition declaration_json (r : Registry) (b : string * Decl) : outcome string string :=
  let d := b.2 in
  domain ← traverse (fun s => a ← find_sort_alias s r; Ok (json_quote a)) (decl_domain d);
  range ← find_sort_alias (decl_range d) r;
  Ok (obj [(lit "name", json_quote b.1);
           (lit "z3_symbol", json_quote (symbol_text (decl_name d)));
           (lit "z3_declaration_text", json_quote (decl_to_string d));
           (lit "decl_kind", decimal (decl_kind_code d));
           (lit "parameters", arr (json_quote <$> declaration_parameters d));
           (lit "ast_id_at_observation", decimal (decl_ast_id d));
           (lit "domain", arr domain); (lit "range", json_quote range)]).

Definition declarations_json (r : Registry) : outcome string string :=
  objects ← traverse (declaration_json r) (declarations_ r);
  Ok (arr objects).

(** ** The printer *)

Record PrintState := mkPrintState {
  registry_ : Registry;
  bound_ : list (string * Sort);
  next_bound_ : nat
}.

Definition LM (A : Type) : Type := PrintState -> outcome string (A * PrintState).

#[export] Instance LM_ret : MRet LM := fun A a st => Ok (a, st).
#[export] Instance LM_bind : MBind LM := fun A B k m st =>
  match m st with
  | Ok (a, st') => k a st'
  | Err e => Err e
  | Diverge => Diverge
  end.

(** An operation of the registry. *)
Definition on_registry {A} (f : Registry -> outcome string (A * Registry)) : LM A := fun st =>
  match f (registry_ st) with
  | Ok (a, r) => Ok (a, mkPrintState r (bound_ st) (next_bound_ st))
  | Err e => Err e
  | Diverge => Diverge
  end.

Section TextsOf.
Context {A B : Type} (f : A -> LM B).
Fixpoint texts_of (l : list A) : LM (list B) :=
  match l with
  | [] => mret []
  | x :: l => t ← f x; ts ← texts_of l; mret (t :: ts)
  end.
End TextsOf.

Definition bound_text (index : nat) : LM string := fun st =>
  if length (bound_ st) <=? index then Err "Fine lift encountered a free de Bruijn variable"
  else match bound_ st !! (length (bound_ st) - 1 - index) with
       | Some b => Ok (b.1, st)
       | None => Err "bound variable out of range"
       end.

(** One binder: a fresh alias, the original symbol, the sort. *)
Definition binder_text (b : Symbol * Sort) : LM string := fun st =>
  let alias := "_v_" +:+ to_string (next_bound_ st) in
  (sort ← on_registry (sort_alias b.2);
   mret (alias +:+ "@" +:+ symbol_syntax b.1 +:+ ":" +:+ sort))
  (mkPrintState (registry_ st) (bound_ st ++ [(alias, b.2)]) (S (next_bound_ st))).

Definition bound_size : LM nat := fun st => Ok (length (bound_ st), st).
Definition truncate_bound (n : nat) : LM unit := fun st =>
  Ok (tt, mkPrintState (registry_ st) (take n (bound_ st)) (next_bound_ st)).

Definition quantifier_keyword (k : QuantifierKind) : string :=
  match k with QLambda => "lambda" | QForall => "forall" | QExists => "exists" end.

Fixpoint expression_text (t : Term) : LM string :=
  match t with
  | Numeral v s =>
      sort ← on_registry (sort_alias s);
      mret ("numeral(" +:+ string_quote v +:+ "," +:+ sort +:+ ")")
  | App d args =>
      alias ← on_registry (declaration_alias d);
      match args with
      | [] => mret alias
      | _ => texts ← texts_of expression_text args;
             mret (alias +:+ "(" +:+ String.concat "," texts +:+ ")")
      end
  | Var i _ => bound_text i
  | Quant k weight qid skid bound patterns no_patterns body =>
      old_size ← bound_size;
      binders ← texts_of binder_text bound;
      body_text ← expression_text body;
      pattern_texts ← texts_of (fun p => texts ← texts_of expression_text p;
                                         mret ("[" +:+ String.concat "," texts +:+ "]")) patterns;
      no_pattern_texts ← texts_of expression_text no_patterns;
      truncate_bound old_size ;;
      mret (quantifier_keyword k +:+ "[weight=" +:+ decimal weight +:+
            ",qid=" +:+ symbol_syntax qid +:+ ",skid=" +:+ symbol_syntax skid +:+ "]" +:+
            "(" +:+ String.concat "," binders +:+ ")" +:+ "{" +:+ body_text +:+ "}" +:+
            "[patterns=[" +:+ String.concat "," pattern_texts +:+ "],nopatterns=[" +:+
            String.concat "," no_pattern_texts +:+ "]]")
  end.

Definition print (t : Term) : outcome string (string * Registry) :=
  match expression_text t (mkPrintState empty_registry [] 0) with
  | Ok (text, st) => Ok (text, registry_ st)
  | Err e => Err e
  | Diverge => Diverge
  end.
End Lift.
Arguments Registry {_}.
Arguments PrintState {_}.

(** ** The lexer *)

Inductive LToken :=
| LIdentifier (text : string)
| LNumber (text : string)
| LString (text : string)
| LPunctuation (c : ascii)
| LEnd.

#[export] Instance LToken_eq_dec : EqDecision LToken.
Proof. solve_decision. Defined.

Definition parse_error (message : string) : string := "Fine lift parse error: " +:+ message.

Definition hex_value (digit : ascii) : option N :=
  let n := N_of_ascii digit in
  if in_range "0" "9" digit then Some (n - 48)%N
  else if in_range "a" "f" digit then Some (n - 97 + 10)%N
  else if in_range "A" "F" digit then Some (n - 65 + 10)%N
  else None.

(** [count] hexadecimal digits of a Unicode escape, after [value]. *)
Fixpoint unicode_digits (count : nat) (value : N) (s : string) : outcome string (N * string) :=
  match count with
  | O => Ok (value, s)
  | S count =>
      match s with
      | EmptyString => Err (parse_error "unfinished Unicode escape")
      | String digit s =>
          match hex_value digit with
          | Some d => unicode_digits count (N.shiftl value 4 + d) s
          | None => Err (parse_error "invalid Unicode escape")
          end
      end
  end.

Definition simple_escape (c : ascii) : option ascii :=
  if (c =? dquote)%char then Some dquote
  else if (c =? backslash)%char then Some backslash
  else if (c =? "b")%char then Some "008"%char
  else if (c =? "f")%char then Some "012"%char
  else if (c =? "n")%char then Some "010"%char
  else if (c =? "r")%char then Some "013"%char
  else if (c =? "t")%char then Some "009"%char
  else None.

(** The character an escape after a backslash stands for. *)
Definition escape (c : ascii) (s : string) : outcome string (ascii * string) :=
  match simple_escape c with
  | Some d => Ok (d, s)
  | None =>
      if (c =? "u")%char then
        '(value, s) ← unicode_digits 4 0 s;
        if (0xff <? value)%N then Err (parse_error "generated Fine strings admit byte escapes only")
        else Ok (ascii_of_N value, s)
      else Err (parse_error "unsupported string escape")
  end.

(** The characters up to the closing quote; every step consumes one at least. *)
Fixpoint string_body (fuel : nat) (s : string) : outcome string (string * string) :=
  match fuel with
  | O => Diverge
  | S fuel =>
      match s with
      | EmptyString => Err (parse_error "unfinished string")
      | String c s =>
          if (c =? dquote)%char then Ok ("", s)
          else if negb (c =? backslash)%char then
            '(r, s) ← string_body fuel s; Ok (String c r, s)
          else match s with
               | EmptyString => Err (parse_error "unfinished string escape")
               | String e s =>
                   '(d, s) ← escape e s;
                   '(r, s) ← string_body fuel s; Ok (String d r, s)
               end
      end
  end.

Fixpoint span_chars (p : ascii -> bool) (s : string) : string * string :=
  match s with
  | EmptyString => ("", "")
  | String c s' => if p c then let '(t, r) := span_chars p s' in (String c t, r) else ("", s)
  end.

Definition is_lift_start (c : ascii) : bool := is_alpha c || (c =? "_")%char.
Definition is_lift_continue (c : ascii) : bool := is_alnum c || (c =? "_")%char.
Definition is_lift_punctuation (c : ascii) : bool :=
  bool_decide (c ∈ list_ascii_of_string "(){}[],:=@").

Definition lift_next (s : string) : outcome string (LToken * string) :=
  match (span_chars is_blank s).2 with
  | EmptyString => Ok (LEnd, "")
  | String c s =>
      if is_lift_start c then
        let '(t, r) := span_chars is_lift_continue s in Ok (LIdentifier (String c t), r)
      else if is_digit c then
        let '(t, r) := span_chars is_digit s in Ok (LNumber (String c t), r)
      else if (c =? dquote)%char then
        '(t, r) ← string_body (S (String.length s)) s; Ok (LString t, r)
      else if is_lift_punctuation c then Ok (LPunctuation c, s)
      else Err (parse_error ("unexpected character `" +:+ String c "`"))
  end.

(** ** The parser *)

Section Read.
Context `{Z3Api}.

Record ReadState := mkReadState {
  rest : string;
  current : LToken;
  binders : list (string * Sort)
}.

Definition RM (A : Type) : Type := ReadState -> outcome string (A * ReadState).

#[export] Instance RM_ret : MRet RM := fun A a st => Ok (a, st).
#[export] Instance RM_bind : MBind RM := fun A B k m st =>
  match m st with
  | Ok (a, st') => k a st'
  | Err e => Err e
  | Diverge => Diverge
  end.

Definition read_fail {A} (message : string) : RM A := fun _ => Err (parse_error message).

(** What a C++ exception or a null AST makes of a failed API call. *)
Definition checked {A} (call : string) (r : option A) : RM A := fun st =>
  match r with Some a => Ok (a, st) | None => Err call end.

Definition from_registry {A} (r : outcome string A) : RM A := fun st =>
  match r with Ok a => Ok (a, st) | Err e => Err e | Diverge => Diverge end.

Definition read_diverge {A} : RM A := fun _ => Diverge.

Definition read_current : RM LToken := fun st => Ok (current st, st).

Definition read_advance : RM unit := fun st =>
  match lift_next (rest st) with
  | Ok (t, r) => Ok (tt, mkReadState r t (binders st))
  | Err e => Err e
  | Diverge => Diverge
  end.

Definition punctuation (expected : ascii) : RM unit :=
  c ← read_current;
  if decide (c = LPunctuation expected) then read_advance
  else read_fail ("expected `" +:+ String expected "`").

Definition identifier : RM string :=
  c ← read_current;
  match c with
  | LIdentifier t => read_advance ;; mret t
  | _ => read_fail "expected identifier"
  end.

(** [std::stoul] refuses what a 64-bit unsigned long cannot hold; the cast
    to unsigned keeps 32 bits. *)
Definition number : RM N :=
  c ← read_current;
  match c with
  | LNumber t =>
      let value := read_numeral 10 t in
      if (2 ^ 64 <=? value)%N then checked "stoul" None
      else read_advance ;; mret (value mod 2 ^ 32)%N
  | _ => read_fail "expected unsigned number"
  end.

Definition string_literal : RM string :=
  c ← read_current;
  match c with
  | LString t => read_advance ;; mret t
  | _ => read_fail "expected string"
  end.

Definition keyword_ (expected : string) : RM unit :=
  t ← identifier;
  if (t =? expected)%string then mret tt else read_fail ("expected `" +:+ expected +:+ "`").

Definition symbol : RM Symbol :=
  kind ← identifier;
  if (kind =? "n")%string then mret SNull
  else
    punctuation "(" ;;
    result ← (if (kind =? "s")%string then s ← string_literal; mret (mk_string_symbol s)
              else if (kind =? "i")%string then
                n ← number; checked "int_symbol" (mk_int_symbol n)
              else read_fail "unknown symbol encoding");
    punctuation ")" ;;
    mret result.

(** [while (current != close) { item(); if (current == ',') advance(); else if (current != close) fail(); }] *)
Fixpoint list_until {A} (fuel : nat) (close : ascii) (message : string) (item : RM A) : RM (list A) :=
  c ← read_current;
  if decide (c = LPunctuation close) then mret []
  else match fuel with
       | O => read_diverge
       | S f =>
           x ← item;
           c ← read_current;
           (if decide (c = LPunctuation ",") then punctuation ","
            else if decide (c = LPunctuation close) then mret tt else read_fail message) ;;
           xs ← list_until f close message item;
           mret (x :: xs)
       end.

Definition binders_size : RM nat := fun st => Ok (length (binders st), st).
Definition push_binder (b : string * Sort) : RM unit := fun st =>
  Ok (tt, mkReadState (rest st) (current st) (binders st ++ [b])).
Definition truncate_binders (n : nat) : RM unit := fun st =>
  Ok (tt, mkReadState (rest st) (current st) (take n (binders st))).

(** The position of the first binder with this alias. *)
Definition find_binder (name : string) : RM (option (nat * Sort)) := fun st =>
  Ok (match list_find (fun b => b.1 = name) (binders st) with
      | Some (i, b) => Some (length (binders st) - 1 - i, b.2)
      | None => None
      end, st).

Section WithRegistry.
Context (registry : Registry).

Definition numeral_ : RM Term :=
  punctuation "(" ;;
  value ← string_literal;
  punctuation "," ;;
  sort_name ← identifier;
  punctuation ")" ;;
  s ← from_registry (registered_sort sort_name registry);
  checked "mk_numeral" (mk_numeral (c_str value) s).

Definition binder_ : RM (Symbol * Sort) :=
  alias ← identifier;
  punctuation "@" ;;
  original ← symbol;
  punctuation ":" ;;
  sort_name ← identifier;
  sort ← from_registry (registered_sort sort_name registry);
  push_binder (alias, sort) ;;
  mret (original, sort).

Section Body.
Context (fuel : nat) (expression : RM Term).

Definition pattern_ : RM (list Term) :=
  punctuation "[" ;;
  terms ← list_until fuel "]" "expected `,` or `]` in pattern" expression;
  punctuation "]" ;;
  mret terms.

Definition quantifier (kind : string) : RM Term :=
  punctuation "[" ;; keyword_ "weight" ;; punctuation "=" ;;
  weight ← number;
  punctuation "," ;; keyword_ "qid" ;; punctuation "=" ;;
  qid ← symbol;
  punctuation "," ;; keyword_ "skid" ;; punctuation "=" ;;
  skid ← symbol;
  punctuation "]" ;;
  punctuation "(" ;;
  old_size ← binders_size;
  bound ← list_until fuel ")" "expected `,` or `)` in binder list" binder_;
  punctuation ")" ;;
  punctuation "{" ;;
  body ← expression;
  punctuation "}" ;;
  punctuation "[" ;; keyword_ "patterns" ;; punctuation "=" ;; punctuation "[" ;;
  patterns ← list_until fuel "]" "expected `,` or `]` after pattern" pattern_;
  punctuation "]" ;;
  punctuation "," ;; keyword_ "nopatterns" ;; punctuation "=" ;; punctuation "[" ;;
  no_patterns ← list_until fuel "]" "expected `,` or `]` in no-pattern list" expression;
  punctuation "]" ;;
  punctuation "]" ;;
  truncate_binders old_size ;;
  if (kind =? "lambda")%string then
    if negb (bool_decide (patterns = [])) || negb (bool_decide (no_patterns = [])) ||
       negb (weight =? 0)%N
    then read_fail "lambda carries unsupported quantifier metadata"
    else checked "mk_lambda" (mk_lambda bound body)
  else checked "mk_quantifier_ex"
         (mk_quantifier_ex (kind =? "forall")%string weight qid skid patterns no_patterns bound body).

Definition arguments_ : RM (list Term) :=
  c ← read_current;
  if decide (c = LPunctuation "(") then
    punctuation "(" ;;
    args ← list_until fuel ")" "expected `,` or `)` in application" expression;
    punctuation ")" ;;
    mret args
  else mret [].

(** The expression that starts with the identifier [name]. *)
Definition named_expression (name : string) : RM Term :=
  if (name =? "numeral")%string then numeral_
  else if (name =? "forall")%string || (name =? "exists")%string || (name =? "lambda")%string
  then quantifier name
  else
    bound ← find_binder name;
    match bound with
    | Some (index, sort) => mret (mk_bound index sort)
    | None =>
        d ← from_registry (registered_declaration name registry);
        args ← arguments_;
        checked "mk_app" (mk_app d args)
    end.

Definition expression_body : RM Term :=
  c ← read_current;
  match c with
  | LIdentifier _ => name ← identifier; named_expression name
  | _ => read_fail "expected expression"
  end.
End Body.

(** Every nested call starts at a later character, so the text length is
    enough fuel. *)
Fixpoint expression (fuel : nat) : RM Term :=
  match fuel with
  | O => read_diverge
  | S f => expression_body f (expression f)
  end.

Definition parse_text (text : string) : outcome string Term :=
  match lift_next text with
  | Ok (t, r) =>
      match (result ← expression (S (String.length text));
             c ← read_current;
             if decide (c = LEnd) then mret result else read_fail "trailing input")
            (mkReadState r t []) with
      | Ok (a, _) => Ok a
      | Err e => Err e
      | Diverge => Diverge
      end
  | Err e => Err e
  | Diverge => Diverge
  end.
End WithRegistry.

Record RainfallLiftedTerm := mkLifted {
  lifted_text : string;
  lifted_sorts_json : string;
  lifted_declarations_json : string
}.

Definition lift_rainfall_term (t : Term) (exact_reify : bool) : outcome string RainfallLiftedTerm :=
  '(text, registry) ← print t;
  (if exact_reify then
     reparsed ← parse_text registry text;
     if term_eqb t reparsed then Ok tt
     else Err "Fine Rainfall lift/reify changed exact Z3 AST identity"
   else Ok tt) ;;
  json ← declarations_json registry;
  Ok (mkLifted text (sorts_json registry) json).
End Read.
Arguments ReadState {_}.

(** ** A term on the concrete manager *)

Module LiftSample.
Import Structural.

Definition pred_ : Decl := mkStructuralDecl OP_OTHER (SString "p q") [PInt 3] ["Int"; "Int"] "Bool".
Definition implies_ : Decl := mkStructuralDecl OP_IMPLIES (SString "=>") [] ["Bool"; "Bool"] "Bool".
Definition five : Term := Numeral "5" "Int".

Definition sample : Term :=
  Quant QForall 1 (SInt 7) (SString "k!0") [(SString "x y", "Int"); (SNull, "Bool")]
    [[App pred_ [Var 1 "Int"; five]]] []
    (App implies_ [Var 0 "Bool"; App pred_ [five; Var 1 "Int"]]).

Example sample_lifts : match lift_rainfall_term sample true with Ok l => lifted_text l <> "" | _ => False end.
Proof. vm_compute. discriminate. Qed.
End LiftSample.
