(* ===== verification/LiftRegistry.v ===== *)
(** * The alias registry of the lift

    Aliases are identifiers with their prefix, never repeated, and resolve
    to the sort or declaration they were made for. *)

From S2P Require Import Prelude Format Json Z3Ast Lift.

(** ** Sanitized names *)

(** An identifier that starts with [p]. *)
Definition alias_ok (p a : string) : Prop :=
  exists t, a = p +:+ t /\ all_chars is_lift_continue t = true.

Lemma sanitize_chars_ok text b : all_chars is_lift_continue (sanitize_chars text b) = true.
Proof.
  revert b; induction text as [|c s IH]; intros b; simpl; [done|].
  destruct (is_alnum c || (c =? "_")%char) eqn:E; simpl; [by unfold is_lift_continue at 1; rewrite E, IH|].
  destruct b; simpl; auto.
Qed.

Lemma strip_underscores_ok s :
  all_chars is_lift_continue s = true -> all_chars is_lift_continue (strip_underscores s) = true.
Proof.
  induction s as [|c s IH]; simpl; [done|]. intros [Hc Hs]%andb_true_iff.
  specialize (IH Hs). destruct (strip_underscores s); [|simpl in *; by rewrite Hc].
  destruct (c =? "_")%char; simpl; [done|by rewrite Hc].
Qed.

(** Sanitizing keeps the prefix and adds identifier characters, one at least. *)
Lemma sanitize_shape text p :
  exists t, sanitize text p = p +:+ t /\ all_chars is_lift_continue t = true /\ t <> "".
Proof.
  unfold sanitize. destruct (String.eqb_spec (strip_underscores (sanitize_chars text (ends_underscore p))) "")
    as [E|E]; [by exists "anonymous"|].
  eexists. split; [done|]. split; [|done]. apply strip_underscores_ok, sanitize_chars_ok.
Qed.

Lemma sanitize_alias text p : alias_ok p (sanitize text p).
Proof. destruct (sanitize_shape text p) as (t & E & Ht & _). by exists t. Qed.

Lemma digit_continue c : is_digit c = true -> is_lift_continue c = true.
Proof. intros Hc. unfold is_lift_continue, is_alnum. by rewrite Hc, orb_true_r. Qed.

Lemma all_chars_impl (p q : ascii -> bool) s :
  (forall c, p c = true -> q c = true) -> all_chars p s = true -> all_chars q s = true.
Proof.
  intros Hpq. induction s as [|c s IH]; simpl; [done|]. intros [Hc Hs]%andb_true_iff.
  by rewrite (Hpq _ Hc), IH.
Qed.

Lemma to_string_continue n : all_chars is_lift_continue (to_string n) = true.
Proof. eapply all_chars_impl; [apply digit_continue|apply decimal_digits]. Qed.

(** ** [unique] *)

Definition numbered (base : string) (k : nat) : string := base +:+ "_" +:+ to_string k.

Lemma alias_numbered p base k : alias_ok p base -> alias_ok p (numbered base k).
Proof.
  intros (t & -> & Ht). exists (t +:+ "_" +:+ to_string k). unfold numbered.
  rewrite append_assoc, all_chars_app, Ht. simpl. split; [done|]. apply to_string_continue.
Qed.

Lemma numbered_inj base i j : numbered base i = numbered base j -> i = j.
Proof. unfold numbered. intros E%append_inv_head. injection E as E. by apply to_string_inj. Qed.

Lemma numbered_base base k : numbered base k <> base.
Proof.
  intros E. apply (f_equal String.length) in E. unfold numbered in E.
  rewrite length_append in E. simpl in E. lia.
Qed.

(** The names tried before the fuel runs out. *)
Lemma unique_loop_tried fuel al base k candidate :
  unique_loop fuel al base k candidate = Diverge ->
  Forall (fun a => a ∈ al) (candidate :: (numbered base <$> seq k fuel)).
Proof.
  revert k candidate; induction fuel as [|f IH]; intros k candidate; simpl;
    case_bool_decide as Hin; try done; intros E.
  - by constructor.
  - constructor; [done|]. by apply IH in E.
Qed.

Lemma unique_loop_result fuel al base k candidate a p :
  alias_ok p base -> alias_ok p candidate -> unique_loop fuel al base k candidate = Ok a ->
  a ∉ al /\ alias_ok p a.
Proof.
  intros Hb. revert k candidate; induction fuel as [|f IH]; intros k candidate Hc; simpl;
    case_bool_decide; try done; [by intros [= <-]| |by intros [= <-]].
  apply IH. by apply alias_numbered.
Qed.

Lemma unique_loop_no_error fuel al base k candidate e : unique_loop fuel al base k candidate <> Err e.
Proof.
  revert k candidate; induction fuel as [|f IH]; intros k candidate; simpl; by case_bool_decide.
Qed.

(** With one more name than aliases, one is free: the loop terminates. *)
Lemma unique_loop_total al base p :
  alias_ok p base ->
  exists a, unique_loop (length al) al base 1 base = Ok a /\ a ∉ al /\ alias_ok p a.
Proof.
  intros Hp. destruct (unique_loop _ _ _ _ _) as [a|e|] eqn:E.
  - exists a. split; [done|]. by apply (unique_loop_result _ _ _ _ _ _ _ Hp Hp E).
  - by apply unique_loop_no_error in E.
  - exfalso. apply unique_loop_tried in E.
    assert (Hnd : NoDup (base :: (numbered base <$> seq 1 (length al)))).
    { constructor.
      - intros (k & Hk & _)%list_elem_of_fmap. by apply (numbered_base base k).
      - apply NoDup_fmap_2; [intros i j; apply numbered_inj|apply NoDup_seq]. }
    apply (NoDup_submseteq _ al) in Hnd; [|by apply Forall_forall].
    apply submseteq_length in Hnd. simpl in Hnd. rewrite length_fmap, length_seq in Hnd. lia.
Qed.

(** ** Well-formed registries *)

Section Registry.
Context `{Z3Api}.

Record registry_ok (r : Registry) : Prop := {
  ok_sort_aliases : Forall (fun b => alias_ok "_s_" b.1 /\ b.1 ∈ aliases_ r) (sorts_ r);
  ok_declaration_aliases : Forall (fun b => alias_ok "_d_" b.1 /\ b.1 ∈ aliases_ r) (declarations_ r);
  ok_sorts_unique : NoDup (fst <$> sorts_ r);
  ok_declarations_unique : NoDup (fst <$> declarations_ r)
}.

(** The registry only grows. *)
Definition extends (r r' : Registry) : Prop :=
  sorts_ r ⊆ sorts_ r' /\ declarations_ r ⊆ declarations_ r'.

#[export] Instance extends_preorder : PreOrder extends.
Proof. split; [done|]. intros a b c [??] [??]. split; by etrans. Qed.

Lemma empty_registry_ok : registry_ok empty_registry.
Proof. split; constructor. Qed.

Lemma find_by_value {B} `{EqDecision B} (l : list (string * B)) (x : B) (a : string) :
  fst <$> List.find (fun b => bool_decide (b.2 = x)) l = Some a -> (a, x) ∈ l.
Proof.
  destruct (List.find _ l) as [[a' x']|] eqn:E; [|done]. intros [= <-].
  apply List.find_some in E as [Hin Hx%bool_decide_eq_true]. simpl in Hx. subst. by apply list_elem_of_In.
Qed.

Lemma find_by_alias {B} (l : list (string * B)) (a : string) (x : B) :
  NoDup (fst <$> l) -> (a, x) ∈ l -> List.find (fun b => (b.1 =? a)%string) l = Some (a, x).
Proof.
  induction l as [|[a' x'] l IH]; simpl; [intros _ []%elem_of_nil|].
  intros [Hn Hnd]%NoDup_cons [[= -> ->]|Hin]%elem_of_cons; [by rewrite String.eqb_refl|].
  destruct (String.eqb_spec a' a) as [->|]; [|auto].
  exfalso. apply Hn. apply list_elem_of_fmap. by exists (a, x).
Qed.

Lemma aliases_weaken {B} (p : string) (l : list (string * B)) (al : list string) a :
  Forall (fun b => alias_ok p b.1 /\ b.1 ∈ al) l -> Forall (fun b => alias_ok p b.1 /\ b.1 ∈ a :: al) l.
Proof. intros Hl. eapply Forall_impl; [exact Hl|]. intros b [? ?]. split; [done|]. by right. Qed.

Lemma fresh_alias {B} (p : string) (l : list (string * B)) (al : list string) a x :
  Forall (fun b => alias_ok p b.1 /\ b.1 ∈ al) l -> NoDup (fst <$> l) -> a ∉ al ->
  NoDup (fst <$> l ++ [(a, x)]).
Proof.
  intros Hl Hnd Ha. rewrite fmap_app. apply NoDup_app. split_and!; [done| |by apply NoDup_singleton].
  intros b Hb ->%list_elem_of_singleton. apply list_elem_of_fmap in Hb as ([b' y] & Hb' & Hin).
  rewrite Forall_forall in Hl. destruct (Hl _ Hin) as [_ Hal]. simpl in *. by subst.
Qed.

(** [sort_alias] always returns an alias of the sort. *)
Lemma sort_alias_ok s r :
  registry_ok r -> exists a r', sort_alias s r = Ok (a, r') /\ registry_ok r' /\ extends r r' /\
    declarations_ r' = declarations_ r /\ (a, s) ∈ sorts_ r'.
Proof.
  intros [Hs Hd Hsu Hdu]. unfold sort_alias. destruct (find_sort s r) as [a|] eqn:E.
  { apply find_by_value in E. by exists a, r. }
  unfold unique. destruct (unique_loop_total (aliases_ r) _ "_s_" (sanitize_alias (sort_to_string s) "_s_"))
    as (a & -> & Ha & Hok). simpl. eexists _, _. split; [done|]. split_and!; simpl.
  - split; simpl; [|by apply aliases_weaken|by eapply fresh_alias|done].
    apply Forall_app; split; [by apply aliases_weaken|]. constructor; [|done]. split; [done|by left].
  - split; simpl; [|done]. intros b Hb. apply elem_of_app. by left.
  - done.
  - apply elem_of_app. right. by left.
Qed.

Lemma register_sorts_ok l r :
  registry_ok r -> exists r', register_sorts l r = Ok r' /\ registry_ok r' /\ extends r r' /\
    declarations_ r' = declarations_ r /\ (forall s, s ∈ l -> exists a, (a, s) ∈ sorts_ r').
Proof.
  revert r; induction l as [|s l IH]; intros r Hr; simpl.
  { exists r. split_and!; [done..|]. intros s Hs. by apply elem_of_nil in Hs. }
  destruct (sort_alias_ok s r Hr) as (a & r1 & -> & Hr1 & He1 & Hd1 & Hin1). simpl.
  destruct (IH r1 Hr1) as (r2 & -> & Hr2 & He2 & Hd2 & Hin2). exists r2.
  split_and!; [done|done|by etrans|congruence|].
  intros s' [->|Hs']%elem_of_cons; [|auto]. exists a. by apply He2.
Qed.

(** Every registered declaration has its sorts registered. *)
Definition sorts_registered (r : Registry) : Prop := forall a d, (a, d) ∈ declarations_ r ->
  forall s, s ∈ decl_domain d ++ [decl_range d] -> exists b, (b, s) ∈ sorts_ r.

Lemma sorts_registered_extends r r' :
  sorts_registered r -> extends r r' -> declarations_ r' = declarations_ r -> sorts_registered r'.
Proof.
  intros Hr [Hs _] Hd a d Hin s Hs'. rewrite Hd in Hin. destruct (Hr a d Hin s Hs') as [b Hb]. eauto.
Qed.

Lemma declaration_alias_ok d r :
  registry_ok r -> sorts_registered r ->
  exists a r', declaration_alias d r = Ok (a, r') /\ registry_ok r' /\ sorts_registered r' /\
    extends r r' /\ (a, d) ∈ declarations_ r'.
Proof.
  intros Hr Hsr. unfold declaration_alias. destruct (find_declaration d r) as [a|] eqn:E.
  { apply find_by_value in E. by exists a, r. }
  unfold unique. destruct (unique_loop_total (aliases_ r) _ "_d_" (sanitize_alias (alias_base d) "_d_"))
    as (a & -> & Ha & Hok). simpl. destruct Hr as [Hs Hd Hsu Hdu].
  set (r0 := mkRegistry (sorts_ r) (declarations_ r ++ [(a, d)]) (a :: aliases_ r)).
  assert (Hr0 : registry_ok r0).
  { split; simpl; [by apply aliases_weaken| |done|by eapply fresh_alias].
    apply Forall_app; split; [by apply aliases_weaken|]. constructor; [|done]. split; [done|by left]. }
  destruct (register_sorts_ok (decl_domain d) r0 Hr0) as (r1 & -> & Hr1 & He1 & Hd1 & Hin1). simpl.
  destruct (sort_alias_ok (decl_range d) r1 Hr1) as (b & r2 & -> & Hr2 & He2 & Hd2 & Hin2). simpl.
  assert (He : extends r r2).
  { trans r0; [|by etrans]. split; simpl; [done|]. intros x Hx. apply elem_of_app. by left. }
  exists a, r2. split_and!; [done|done| |done|rewrite Hd2, Hd1; apply elem_of_app; right; by left].
  intros a' d' Hin s Hsd. rewrite Hd2, Hd1 in Hin. simpl in Hin.
  apply elem_of_app in Hin as [Hin|[= -> ->]%list_elem_of_singleton].
  - destruct (Hsr a' d' Hin s Hsd) as [c Hc]. exists c. by apply He.
  - apply elem_of_app in Hsd as [Hsd| ->%list_elem_of_singleton]; [|eauto].
    destruct (Hin1 s Hsd) as [c Hc]. exists c. by apply He2.
Qed.

Lemma registered_sort_ok r a s : registry_ok r -> (a, s) ∈ sorts_ r -> registered_sort a r = Ok s.
Proof. intros Hr Hin. unfold registered_sort. by rewrite (find_by_alias _ a s (ok_sorts_unique _ Hr) Hin). Qed.

Lemma registered_declaration_ok r a d :
  registry_ok r -> (a, d) ∈ declarations_ r -> registered_declaration a r = Ok d.
Proof.
  intros Hr Hin. unfold registered_declaration.
  by rewrite (find_by_alias _ a d (ok_declarations_unique _ Hr) Hin).
Qed.

Lemma find_sort_alias_ok r s b : (b, s) ∈ sorts_ r -> exists a, find_sort_alias s r = Ok a.
Proof.
  intros Hin. unfold find_sort_alias, find_sort.
  destruct (List.find _ _) as [x|] eqn:E; simpl; [eauto|].
  exfalso. apply list_elem_of_In in Hin. pose proof (List.find_none _ _ E (b, s) Hin) as Hf.
  by apply bool_decide_eq_false in Hf.
Qed.

Lemma traverse_ok {A B} (f : A -> outcome string B) l :
  (forall x, x ∈ l -> exists y, f x = Ok y) -> exists ys, traverse f l = Ok ys.
Proof.
  induction l as [|x l IH]; intros Hl; simpl; [eauto|].
  destruct (Hl x) as [y ->]; [by left|]. simpl. destruct IH as [ys ->]; [|simpl; eauto].
  intros z Hz. apply Hl. by right.
Qed.

(** The declaration bindings can always be written out. *)
Lemma declarations_json_ok r : sorts_registered r -> exists json, declarations_json r = Ok json.
Proof.
  intros Hr. unfold declarations_json.
  destruct (traverse_ok (declaration_json r) (declarations_ r)) as [ys ->]; [|simpl; eauto].
  intros [a d] Hin. unfold declaration_json. simpl.
  destruct (traverse_ok (fun s => a ← find_sort_alias s r; Ok (json_quote a)) (decl_domain d)) as [zs ->].
  - intros s Hs. destruct (Hr a d Hin s) as [b Hb]; [apply elem_of_app; by left|].
    destruct (find_sort_alias_ok r s b Hb) as [c ->]. simpl. eauto.
  - destruct (Hr a d Hin (decl_range d)) as [b Hb]; [apply elem_of_app; right; by left|].
    destruct (find_sort_alias_ok r _ b Hb) as [c ->]. simpl. eauto.
Qed.
End Registry.
