(* ===== verification/LiftRead.v ===== *)
(** * Reading generated Fine text

    [at_text st txt B]: the parser of the lift is about to read [txt] with
    the binders [B].  The lemmas say what each parsing step does at the
    beginning of a text. *)

From S2P Require Import Prelude Format Json Z3Ast Lift LiftRegistry.
From Stdlib Require Import NArith ZArith.

(** ** First characters *)

Definition is_lift_name (n : string) : bool :=
  match n with
  | EmptyString => false
  | String c s => is_lift_start c && all_chars is_lift_continue s
  end.

(** A token that is not a string starts here. *)
Definition token_head (c : ascii) : bool := is_lift_start c || is_digit c || is_lift_punctuation c.

Definition lexable (s : string) : Prop := exists t r, lift_next s = Ok (t, r).

(** A punctuation character or the end of the text comes next. *)
Definition follows (s : string) : Prop :=
  match s with EmptyString => True | String c _ => is_lift_punctuation c = true end.

(** What may come after an expression. *)
Definition ends (s : string) : Prop :=
  match s with EmptyString => True | String c _ => c ∈ list_ascii_of_string ",)]}" end.

Lemma ends_follows s : ends s -> follows s.
Proof.
  destruct s as [|c s]; simpl; [done|]. rewrite !elem_of_cons, elem_of_nil. by intros [->|[->|[->|[->|[]]]]].
Qed.

Lemma head_not_blank c : token_head c = true -> is_blank c = false.
Proof. destruct c as [[] [] [] [] [] [] [] []]; vm_compute; done. Qed.

Lemma punctuation_class c : is_lift_punctuation c = true ->
  is_lift_start c = false /\ is_digit c = false /\ (c =? dquote)%char = false /\
  is_lift_continue c = false /\ is_blank c = false.
Proof. destruct c as [[] [] [] [] [] [] [] []]; vm_compute; done. Qed.

Lemma start_class c : is_lift_start c = true -> is_blank c = false.
Proof. destruct c as [[] [] [] [] [] [] [] []]; vm_compute; done. Qed.

Lemma digit_class c : is_digit c = true -> is_lift_start c = false /\ is_blank c = false.
Proof. destruct c as [[] [] [] [] [] [] [] []]; vm_compute; done. Qed.

Lemma skip_none c s : is_blank c = false -> span_chars is_blank (String c s) = ("", String c s).
Proof. intros Hc. simpl. by rewrite Hc. Qed.

Lemma span_chars_all p t s :
  all_chars p t = true -> match s with EmptyString => True | String c _ => p c = false end ->
  span_chars p (t +:+ s) = (t, s).
Proof.
  intros Ht Hs. induction t as [|c t IH]; simpl in *.
  - destruct s as [|c s]; simpl; [done|]. by rewrite Hs.
  - apply andb_true_iff in Ht as [-> Ht]. by rewrite IH.
Qed.

(** ** One token *)

Lemma next_punctuation c s : is_lift_punctuation c = true -> lift_next (String c s) = Ok (LPunctuation c, s).
Proof.
  intros Hc. destruct (punctuation_class c Hc) as (H1 & H2 & H3 & _ & H5).
  unfold lift_next. rewrite skip_none by done. simpl. by rewrite H1, H2, H3, Hc.
Qed.

Lemma next_name n s : is_lift_name n = true -> follows s -> lift_next (n +:+ s) = Ok (LIdentifier n, s).
Proof.
  destruct n as [|c n]; simpl; [done|]. intros [Hc Hn]%andb_true_iff Hs.
  unfold lift_next. rewrite skip_none by by apply start_class. simpl. rewrite Hc.
  rewrite span_chars_all; [done|done|]. destruct s as [|d s]; [done|]. by apply punctuation_class.
Qed.

Lemma next_number c n s : is_digit c = true -> all_chars is_digit n = true -> follows s ->
  lift_next (String c n +:+ s) = Ok (LNumber (String c n), s).
Proof.
  intros Hc Hn Hs. destruct (digit_class c Hc) as [H1 H2]. unfold lift_next.
  change (String c n +:+ s) with (String c (n +:+ s)).
  rewrite skip_none by done. simpl. rewrite H1, Hc.
  rewrite span_chars_all; [done|done|]. destruct s as [|d s]; [done|]. by apply punctuation_class.
Qed.

(** Each escape of [json_char] is undone by one step of the string loop. *)
Lemma string_body_char fuel c r :
  string_body (S fuel) (json_char c +:+ r) = ('(t, s) ← string_body fuel r; Ok (String c t, s)).
Proof. destruct c as [[] [] [] [] [] [] [] []]; reflexivity. Qed.

Lemma string_body_json fuel v s :
  String.length v < fuel -> string_body fuel (json_chars v +:+ String dquote s) = Ok (v, s).
Proof.
  revert fuel; induction v as [|c v IH]; intros [|fuel] Hf; simpl in Hf; [lia|done|lia|].
  cbn [json_chars]. rewrite append_assoc, string_body_char, IH by lia. done.
Qed.

Lemma json_chars_length v : String.length v <= String.length (json_chars v).
Proof.
  induction v as [|c v IH]; simpl; [lia|]. rewrite length_append.
  assert (1 <= String.length (json_char c)); [|lia].
  destruct c as [[] [] [] [] [] [] [] []]; vm_compute; lia.
Qed.

Lemma next_string v s : lift_next (string_quote v +:+ s) = Ok (LString v, s).
Proof.
  unfold string_quote, json_quote.
  change (String dquote (json_chars v +:+ String dquote "") +:+ s)
    with (String dquote ((json_chars v +:+ String dquote "") +:+ s)).
  rewrite append_assoc. simpl (String dquote "" +:+ s).
  unfold lift_next. rewrite skip_none by done. simpl snd. cbv iota.
  change (is_lift_start dquote) with false. change (is_digit dquote) with false.
  change ((dquote =? dquote)%char) with true. cbv iota.
  rewrite string_body_json; [done|]. rewrite length_append. pose proof (json_chars_length v). lia.
Qed.

Lemma lexable_string v s : lexable (string_quote v +:+ s).
Proof. eexists _, _. apply next_string. Qed.

Lemma lexable_head c s : token_head c = true -> lexable (String c s).
Proof.
  intros Hc. unfold lexable, lift_next. rewrite skip_none by by apply head_not_blank. simpl.
  unfold token_head in Hc. destruct (is_lift_start c); [destruct (span_chars _ s); eauto|].
  destruct (is_digit c); [destruct (span_chars _ s); eauto|]. simpl in Hc.
  destruct (punctuation_class c Hc) as (_ & _ & -> & _). rewrite Hc. eauto.
Qed.

Lemma lexable_follows s : follows s -> lexable s.
Proof.
  destruct s as [|c s]; simpl; [by eexists _, _|]. intros Hc. eexists _, _. by apply next_punctuation.
Qed.

Lemma lexable_name n s : is_lift_name n = true -> lexable (n +:+ s).
Proof.
  destruct n as [|c n]; simpl; [done|]. intros [Hc _]%andb_true_iff. apply lexable_head.
  unfold token_head. by rewrite Hc.
Qed.

(** ** Parsing steps *)

Section Steps.
Context `{Z3Api}.

Definition at_text (st : ReadState) (txt : string) (B : list (string * Sort)) : Prop :=
  lift_next txt = Ok (current st, rest st) /\ binders st = B.

Definition yields {A} (p : RM A) (st : ReadState) (Q : A -> ReadState -> Prop) : Prop :=
  exists a st', p st = Ok (a, st') /\ Q a st'.

Lemma y_bind {A B} (p : RM A) (k : A -> RM B) st Q :
  yields p st (fun a st' => yields (k a) st' Q) -> yields (p ≫= k) st Q.
Proof.
  intros (a & st' & Hp & b & st'' & Hk & HQ). exists b, st''. split; [|done].
  unfold mbind, RM_bind. by rewrite Hp.
Qed.

Lemma y_ret {A} (a : A) st (Q : A -> ReadState -> Prop) : Q a st -> yields (mret a) st Q.
Proof. intros. by exists a, st. Qed.

Lemma y_mono {A} (p : RM A) st (Q Q' : A -> ReadState -> Prop) :
  yields p st Q -> (forall a st', Q a st' -> Q' a st') -> yields p st Q'.
Proof. intros (a & st' & Hp & HQ) Himp. exists a, st'. eauto. Qed.

Lemma y_current {A} (k : LToken -> RM A) st Q :
  yields (k (current st)) st Q -> yields (read_current ≫= k) st Q.
Proof. intros Hk. apply y_bind. by exists (current st), st. Qed.

Lemma y_checked {A} call (a : A) r st (Q : A -> ReadState -> Prop) :
  r = Some a -> Q a st -> yields (checked call r) st Q.
Proof. intros -> HQ. by exists a, st. Qed.

Lemma y_registry {A} (a : A) r st (Q : A -> ReadState -> Prop) :
  r = Ok a -> Q a st -> yields (from_registry r) st Q.
Proof. intros -> HQ. by exists a, st. Qed.

(** The token at the beginning of [t +:+ s] is [tok] and leaves [s]. *)
Lemma y_advance t tok s st B (Q : unit -> ReadState -> Prop) :
  lift_next t = Ok (tok, s) -> at_text st t B -> lexable s ->
  (forall st', at_text st' s B -> Q tt st') -> yields read_advance st Q.
Proof.
  intros Ht [Hn HB] (tok' & r & Hs) HQ. rewrite Ht in Hn. injection Hn as _ Hr.
  unfold read_advance, yields. rewrite <- Hr, Hs. eexists _, _. split; [done|]. apply HQ. by split.
Qed.

Lemma at_current t tok s st B : lift_next t = Ok (tok, s) -> at_text st t B -> current st = tok.
Proof. intros Ht [Hn _]. congruence. Qed.

Lemma y_punctuation c s st B (Q : unit -> ReadState -> Prop) :
  at_text st (String c s) B -> is_lift_punctuation c = true -> lexable s ->
  (forall st', at_text st' s B -> Q tt st') -> yields (punctuation c) st Q.
Proof.
  intros Hst Hc Hs HQ. pose proof (next_punctuation c s Hc) as Hn. unfold punctuation.
  apply y_current. rewrite (at_current _ _ _ _ _ Hn Hst), decide_True by done.
  by eapply y_advance.
Qed.

Lemma y_identifier n s st B (Q : string -> ReadState -> Prop) :
  at_text st (n +:+ s) B -> is_lift_name n = true -> follows s ->
  (forall st', at_text st' s B -> Q n st') -> yields identifier st Q.
Proof.
  intros Hst Hn Hs HQ. pose proof (next_name n s Hn Hs) as He. unfold identifier.
  apply y_current. rewrite (at_current _ _ _ _ _ He Hst). apply y_bind.
  eapply y_advance; [done..|by apply lexable_follows|]. intros st' Hst'. apply y_ret. auto.
Qed.

Lemma y_keyword n s st B (Q : unit -> ReadState -> Prop) :
  at_text st (n +:+ s) B -> is_lift_name n = true -> follows s ->
  (forall st', at_text st' s B -> Q tt st') -> yields (keyword_ n) st Q.
Proof.
  intros Hst Hn Hs HQ. unfold keyword_. apply y_bind. eapply y_identifier; [done..|].
  intros st' Hst'. rewrite String.eqb_refl. apply y_ret. auto.
Qed.

Lemma y_number n s st B (Q : N -> ReadState -> Prop) :
  at_text st (decimal n +:+ s) B -> (n < 2 ^ 32)%N -> follows s ->
  (forall st', at_text st' s B -> Q n st') -> yields number st Q.
Proof.
  intros Hst Hn Hs HQ. destruct (decimal_cons n) as (c & t & E & Hc).
  pose proof (decimal_digits n) as Hd. rewrite E in Hd, Hst. simpl in Hd.
  apply andb_true_iff in Hd as [_ Hd]. pose proof (next_number c t s Hc Hd Hs) as He.
  unfold number. apply y_current. rewrite (at_current _ _ _ _ _ He Hst).
  assert (Hv : read_numeral 10 (String c t) = n).
  { rewrite <- E. unfold decimal. apply read_numeral_numeral. lia. }
  cbv zeta. rewrite Hv. rewrite (proj2 (N.leb_gt _ _)) by (etrans; [exact Hn|done]).
  apply y_bind. eapply y_advance; [done..|by apply lexable_follows|].
  intros st' Hst'. apply y_ret. rewrite N.mod_small by done. auto.
Qed.

Lemma y_string v s st B (Q : string -> ReadState -> Prop) :
  at_text st (string_quote v +:+ s) B -> lexable s ->
  (forall st', at_text st' s B -> Q v st') -> yields string_literal st Q.
Proof.
  intros Hst Hs HQ. pose proof (next_string v s) as He. unfold string_literal.
  apply y_current. rewrite (at_current _ _ _ _ _ He Hst). apply y_bind.
  eapply y_advance; [done..|]. intros st' Hst'. apply y_ret. auto.
Qed.

(** ** Symbols *)

(** The symbols whose syntax denotes them: string symbols as the API makes
    them, integer symbols in its range. *)
Definition symbol_ok (s : Symbol) : bool :=
  match s with
  | SNull => true
  | SInt n => (n <? 2 ^ 31)%N
  | SString v => negb (v =? "")%string && (c_str v =? v)%string
  end.

Lemma y_symbol y s st B (Q : Symbol -> ReadState -> Prop) :
  at_text st (symbol_syntax y +:+ s) B -> symbol_ok y = true -> follows s ->
  (forall st', at_text st' s B -> Q y st') -> yields symbol st Q.
Proof.
  intros Hst Hy Hs HQ. unfold symbol. apply y_bind. destruct y as [|n|v]; simpl in Hy.
  - eapply (y_identifier "n"); [exact Hst|done|done|]. intros st1 Hst1. apply y_ret. auto.
  - unfold symbol_syntax, symbol_int in Hst. rewrite Hy in Hst. unfold int_text in Hst.
    rewrite (proj2 (Z.ltb_ge _ _)), N2Z.id, !append_assoc in Hst by lia. apply N.ltb_lt in Hy.
    eapply (y_identifier "i"); [exact Hst|done|done|]. intros st1 Hst1. simpl.
    destruct (decimal_cons n) as (c & t & E & Hc).
    apply y_bind. eapply y_punctuation; [exact Hst1|done| |].
    { rewrite E. apply lexable_head. unfold token_head. by rewrite Hc, orb_true_r. }
    intros st2 Hst2. apply y_bind, y_bind. eapply y_number; [exact Hst2|lia|done|].
    intros st3 Hst3. eapply y_checked; [unfold mk_int_symbol; by rewrite (proj2 (N.ltb_lt _ _))|].
    apply y_bind. eapply y_punctuation; [exact Hst3|done|by apply lexable_follows|].
    intros st4 Hst4. apply y_ret. auto.
  - apply andb_true_iff in Hy as [Hne Hc%String.eqb_eq]. apply negb_true_iff in Hne.
    unfold symbol_syntax, symbol_text in Hst. rewrite Hc, !append_assoc in Hst.
    eapply (y_identifier "s"); [exact Hst|done|done|]. intros st1 Hst1. simpl.
    apply y_bind. eapply y_punctuation; [exact Hst1|done|apply lexable_string|].
    intros st2 Hst2. apply y_bind, y_bind. eapply y_string; [exact Hst2|by apply lexable_head|].
    intros st3 Hst3. apply y_ret. unfold mk_string_symbol. rewrite Hc, Hne.
    apply y_bind. eapply y_punctuation; [exact Hst3|done|by apply lexable_follows|].
    intros st4 Hst4. apply y_ret. auto.
Qed.

Lemma lexable_symbol y s : lexable (symbol_syntax y +:+ s).
Proof. by destruct y; apply lexable_head. Qed.
End Steps.
