(* ===== verification/LiftSpec.v ===== *)
(** * Lifting a term and reading it back gives the term

    Printing is total on liftable terms, and what it prints is read back as
    the term, by induction on the term: [prints] packages both halves. *)

From S2P Require Import Prelude Format Json Z3Ast Lift LiftRegistry LiftRead.
From Stdlib Require Import NArith.

(** ** Liftable terms *)

Section Liftable.
Context `{Z3Data}.

(** Weights and symbols the text can carry; lambdas carry no metadata. *)
Definition quantifier_liftable (k : QuantifierKind) (w : N) (q s : Symbol) (bs : list (Symbol * Sort))
    (ps : list (list Term)) (ns : list Term) : bool :=
  (w <? 2 ^ 32)%N && symbol_ok q && symbol_ok s && forallb (fun b => symbol_ok b.1) bs &&
  match k with
  | QLambda => (w =? 0)%N && bool_decide (q = SNull) && bool_decide (s = SNull) &&
               (length ps =? 0) && (length ns =? 0)
  | _ => true
  end.

(** [t] is closed and well-scoped under binders of the sorts [scope], innermost last. *)
Fixpoint liftable (scope : list Sort) (t : Term) : bool :=
  match t with
  | Numeral _ _ => true
  | App _ l => forallb (liftable scope) l
  | Var i s => (i <? length scope) && bool_decide (scope !! (length scope - 1 - i) = Some s)
  | Quant k w q s bs ps ns b =>
      let scope := scope ++ (snd <$> bs) in
      quantifier_liftable k w q s bs ps ns && forallb (forallb (liftable scope)) ps &&
      forallb (liftable scope) ns && liftable scope b
  end.
End Liftable.

(** ** Comma-separated lists *)

(** The text begins with a token that closes no list. *)
Definition starts (t : string) : Prop :=
  match t with
  | EmptyString => False
  | String c _ => is_lift_start c = true \/ c = "["%char
  end.

Lemma starts_lexable t s : starts t -> lexable (t +:+ s).
Proof.
  destruct t as [|c t]; simpl; [done|]. intros Hc. apply lexable_head. unfold token_head.
  destruct Hc as [-> | ->]; done.
Qed.

Lemma ends_closing c s :
  bool_decide (c ∈ list_ascii_of_string ",)]}") = true -> ends (String c s).
Proof. by intros Hc%bool_decide_eq_true_1. Qed.

Lemma starts_append t s : starts t -> starts (t +:+ s).
Proof. by destruct t. Qed.

Section Lists.
Context `{Z3Api} {A : Type} (item : RM A).

(** [item] reads [text] as [a], taking the binders from [B] to [B']. *)
Definition readable (B B' : list (string * Sort)) (text : string) (a : A) : Prop :=
  forall st s, ends s -> at_text st (text +:+ s) B ->
  yields item st (fun a' st' => a' = a /\ at_text st' s B').

Inductive chain : list (string * Sort) -> list string -> list A -> list (string * Sort) -> Prop :=
| chain_nil B : chain B [] [] B
| chain_cons B B1 B2 t x ts xs :
    starts t -> readable B B1 t x -> chain B1 ts xs B2 -> chain B (t :: ts) (x :: xs) B2.

Lemma starts_current st t c s B :
  starts t -> is_lift_punctuation c = true -> c <> "["%char -> at_text st (t +:+ s) B ->
  current st <> LPunctuation c.
Proof.
  destruct t as [|d t]; simpl; [done|]. intros Hd Hc Hne [Hn _] E.
  unfold lift_next in Hn. rewrite skip_none in Hn
    by (destruct Hd as [?| ->]; [by apply start_class|done]). simpl in Hn.
  destruct Hd as [Hd| ->].
  - rewrite Hd in Hn. destruct (span_chars _ _). injection Hn as Hn _. congruence.
  - simpl in Hn. injection Hn as Hn _. congruence.
Qed.

Lemma list_until_reads fuel close message B ts xs B' st s :
  close = ")"%char \/ close = "]"%char -> chain B ts xs B' -> length ts <= fuel ->
  at_text st (String.concat "," ts +:+ String close s) B ->
  yields (list_until fuel close message item) st
    (fun xs' st' => xs' = xs /\ at_text st' (String close s) B').
Proof.
  intros Hclose Hch. assert (Hcl : is_lift_punctuation close = true /\ close <> "["%char /\ close <> ","%char)
    by (by destruct Hclose as [-> | ->]).
  destruct Hcl as (Hp & Hnb & Hnc). revert fuel st; induction Hch as [B|B B1 B2 t x ts xs Ht Hx Hch IH];
    intros fuel st Hf Hst.
  - pose proof (next_punctuation close s Hp) as Hn. simpl in Hst.
    destruct fuel; simpl; (apply y_current; rewrite (at_current _ _ _ _ _ Hn Hst), decide_True by done;
      by apply y_ret).
  - simpl in Hf. destruct fuel as [|fuel]; [lia|]. simpl.
    assert (Hst' : at_text st (t +:+ match ts with [] => String close s | _ =>
      String "," (String.concat "," ts +:+ String close s) end) B).
    { destruct ts; [done|]. by rewrite concat_cons, !append_assoc in Hst. }
    apply y_current. rewrite decide_False by by eapply starts_current.
    apply y_bind. eapply y_mono; [apply Hx; [|exact Hst']|].
    { destruct ts; simpl; [|by left]. destruct Hclose as [-> | ->]; by apply ends_closing. }
    intros x' st1 [-> Hst1]. apply y_current. destruct ts as [|t2 ts].
    + pose proof (next_punctuation close s Hp) as Hn. rewrite (at_current _ _ _ _ _ Hn Hst1).
      rewrite decide_False by congruence. rewrite decide_True by done. apply y_bind, y_ret.
      apply y_bind. eapply y_mono; [apply IH; [lia|exact Hst1]|]. intros xs' st2 [-> Hst2]. by apply y_ret.
    + pose proof (next_punctuation "," (String.concat "," (t2 :: ts) +:+ String close s) eq_refl) as Hn.
      rewrite (at_current _ _ _ _ _ Hn Hst1), decide_True by done. apply y_bind.
      eapply y_punctuation; [exact Hst1|done| |].
      { inversion Hch; subst. assert (Hs2 : starts (String.concat "," (t2 :: ts)))
          by (simpl; destruct ts; [done|by apply starts_append]). by apply starts_lexable. }
      intros st2 Hst2. apply y_bind. eapply y_mono; [apply IH; [lia|exact Hst2]|].
      intros xs' st3 [-> Hst3]. by apply y_ret.
Qed.
End Lists.

Lemma concat_length sep ts : Forall (fun t => String.length t <= String.length (String.concat sep ts)) ts.
Proof.
  induction ts as [|t [|t2 ts] IH]; [constructor|by repeat constructor|].
  rewrite concat_cons.
  constructor; [rewrite length_append; lia|]. eapply Forall_impl; [exact IH|].
  intros x Hx. cbv beta in *. rewrite !length_append. lia.
Qed.

Lemma concat_count ts : Forall starts ts -> length ts <= String.length (String.concat "," ts).
Proof.
  induction 1 as [|t [|t2 ts] Ht Hts IH]; [simpl; lia| |].
  - destruct t; simpl in *; [done|lia].
  - rewrite concat_cons, !length_append. change (String.length ",") with 1. cbn [length] in *. lia.
Qed.

(** ** Reading quantifiers, numerals and applications *)

Section Reading.
Context `{Z3Laws} (R : Registry) (HR : registry_ok R) (fuel : nat) (ex : RM Term).

Lemma alias_name p a : p = "_s_" \/ p = "_d_" -> alias_ok p a -> is_lift_name a = true.
Proof. intros [-> | ->] (t & -> & Ht); done. Qed.

Lemma sort_name a s : (a, s) ∈ sorts_ R -> is_lift_name a = true.
Proof.
  intros Hin. pose proof (ok_sort_aliases _ HR) as Hall. rewrite Forall_forall in Hall.
  destruct (Hall _ Hin) as [Ha _]. eapply alias_name; [|exact Ha]. by left.
Qed.

Lemma named_reads n s st B Q :
  at_text st (n +:+ s) B -> is_lift_name n = true -> follows s ->
  (forall st', at_text st' s B -> yields (named_expression R fuel ex n) st' Q) ->
  yields (expression_body R fuel ex) st Q.
Proof.
  intros Hst Hn Hs HQ. unfold expression_body. apply y_current.
  rewrite (at_current _ _ _ _ _ (next_name n s Hn Hs) Hst). apply y_bind.
  by eapply y_identifier.
Qed.

Lemma numeral_reads v s a B :
  (a, s) ∈ sorts_ R -> live (Numeral v s) ->
  readable (expression_body R fuel ex) B B ("numeral(" +:+ string_quote v +:+ "," +:+ a +:+ ")") (Numeral v s).
Proof.
  intros Ha Hlive st rest Hrest Hst. destruct (live_numeral v s Hlive) as [Hv Hmk].
  rewrite !append_assoc in Hst. apply ends_follows in Hrest.
  eapply (named_reads "numeral"); [exact Hst|done|done|]. intros st1 Hst1.
  unfold named_expression. simpl. unfold numeral_.
  apply y_bind. eapply y_punctuation; [exact Hst1|done|apply lexable_string|]. intros st2 Hst2.
  apply y_bind. eapply y_string; [exact Hst2|by apply lexable_head|]. intros st3 Hst3.
  apply y_bind. eapply y_punctuation; [exact Hst3|done|by eapply lexable_name, sort_name|]. intros st4 Hst4.
  apply y_bind. eapply y_identifier; [exact Hst4|by eapply sort_name|done|]. intros st5 Hst5.
  apply y_bind. eapply y_punctuation; [exact Hst5|done|by apply lexable_follows|]. intros st6 Hst6.
  apply y_bind. eapply y_registry; [by apply registered_sort_ok|].
  eapply y_checked; [by rewrite Hv|]. by split.
Qed.

(** No binder has the alias of a declaration. *)
Definition bound_inv (B : list (string * Sort)) (n : nat) : Prop :=
  exists ks, fst <$> B = (fun k => "_v_" +:+ to_string k) <$> ks /\ NoDup ks /\ Forall (fun k => k < n) ks.

Lemma find_binder_none a B n st Q :
  alias_ok "_d_" a -> bound_inv B n -> binders st = B -> Q None st -> yields (find_binder a) st Q.
Proof.
  intros (t & -> & _) (ks & Hks & _) HB HQ. unfold find_binder. eexists _, _. split; [done|].
  rewrite HB. destruct (list_find _ B) as [[i b]|] eqn:E; [|done]. exfalso.
  apply list_find_Some in E as (Hi & Hb & _).
  assert (Hin : b.1 ∈ fst <$> B) by (apply list_elem_of_fmap; exists b; split; [done|by eapply list_elem_of_lookup_2]).
  rewrite Hks, Hb in Hin. apply list_elem_of_fmap in Hin as (k & Hk & _). discriminate Hk.
Qed.

Lemma var_reads i s a B n :
  bound_inv B n -> i < length B -> B !! (length B - 1 - i) = Some (a, s) ->
  readable (expression_body R fuel ex) B B a (Var i s).
Proof.
  intros (ks & Hks & Hnd & _) Hi Hl st rest Hrest Hst. apply ends_follows in Hrest.
  assert (Hnd' : NoDup (fst <$> B)).
  { rewrite Hks. apply NoDup_fmap_2; [|done]. intros j k E%append_inv_head. by apply to_string_inj. }
  assert (Ha : exists k, a = "_v_" +:+ to_string k).
  { assert (Hin : a ∈ fst <$> B) by (apply list_elem_of_fmap; exists (a, s); split; [done|by eapply list_elem_of_lookup_2]).
    rewrite Hks in Hin. apply list_elem_of_fmap in Hin as (k & -> & _). eauto. }
  assert (Hn : is_lift_name a = true) by (destruct Ha as [k ->]; simpl; apply to_string_continue).
  eapply named_reads; [exact Hst|done|done|]. intros st1 Hst1. unfold named_expression.
  assert (Hkw : (a =? "numeral")%string = false /\ (a =? "forall")%string = false /\
                (a =? "exists")%string = false /\ (a =? "lambda")%string = false)
    by by destruct Ha as [k ->].
  destruct Hkw as (-> & -> & -> & ->). simpl. apply y_bind. unfold find_binder.
  eexists _, _. split; [done|]. pose proof Hst1 as [_ HB1]. rewrite HB1.
  assert (Hf : list_find (fun b => b.1 = a) B = Some (length B - 1 - i, (a, s))).
  { apply list_find_Some. split_and!; [done|done|]. intros j [b u] Hj Hlt E. simpl in E. subst b.
    assert (j = length B - 1 - i); [|lia].
    apply (NoDup_lookup (fst <$> B) _ _ a); [done|by rewrite list_lookup_fmap, Hj|by rewrite list_lookup_fmap, Hl]. }
  rewrite Hf. apply y_ret. rewrite mk_bound_law. split; [f_equal; lia|done].
Qed.

Lemma application_reads d l a ts B n :
  bound_inv B n -> (a, d) ∈ declarations_ R -> live (App d l) -> length ts <= fuel ->
  chain ex B ts l B ->
  readable (expression_body R fuel ex) B B
    (match l with [] => a | _ => a +:+ "(" +:+ String.concat "," ts +:+ ")" end) (App d l).
Proof.
  intros HB Ha Hlive Hlen Hch st rest Hrest Hst. destruct (live_app d l Hlive) as [_ Hmk].
  pose proof (ok_declaration_aliases _ HR) as Hall. rewrite Forall_forall in Hall.
  destruct (Hall _ Ha) as [Hal _]. simpl in Hal.
  assert (Hn : is_lift_name a = true) by (eapply alias_name; [|exact Hal]; by right).
  assert (Hkw : (a =? "numeral")%string = false /\ (a =? "forall")%string = false /\
                (a =? "exists")%string = false /\ (a =? "lambda")%string = false)
    by by destruct Hal as (t & -> & _).
  assert (Hgo : forall rest', follows rest' -> at_text st (a +:+ rest') B ->
    (forall st', at_text st' rest' B -> yields (arguments_ fuel ex) st' (fun args st'' => args = l /\ at_text st'' rest B)) ->
    yields (expression_body R fuel ex) st (fun t st' => t = App d l /\ at_text st' rest B)).
  { intros rest' Hr' Hst' Hargs. eapply named_reads; [exact Hst'|done|done|]. intros st1 Hst1.
    unfold named_expression. destruct Hkw as (-> & -> & -> & ->). simpl.
    apply y_bind. eapply find_binder_none; [done|exact HB|by destruct Hst1|].
    apply y_bind. eapply y_registry; [by apply registered_declaration_ok|]. apply y_bind.
    eapply y_mono; [by apply Hargs|]. intros args st2 [-> Hst2]. by eapply y_checked. }
  destruct l as [|x l].
  - apply (Hgo rest); [by apply ends_follows|done|]. intros st1 Hst1. unfold arguments_.
    apply y_current. rewrite decide_False; [by apply y_ret|]. intros E.
    destruct rest as [|c rest]; [destruct Hst1 as [Hn1 _]; injection Hn1 as Hn1 _; congruence|].
    pose proof (ends_follows _ Hrest) as Hf. pose proof (next_punctuation c rest Hf) as Hnp.
    rewrite (at_current _ _ _ _ _ Hnp Hst1) in E. injection E as ->.
    simpl in Hrest. rewrite !elem_of_cons, elem_of_nil in Hrest. by destruct_or! Hrest.
  - rewrite !append_assoc in Hst. eapply Hgo; [|exact Hst|]; [done|]. intros st1 Hst1. unfold arguments_.
    apply y_current. pose proof (next_punctuation "(" (String.concat "," ts +:+ ")" +:+ rest) eq_refl) as Hnp.
    rewrite (at_current _ _ _ _ _ Hnp Hst1), decide_True by done. apply y_bind.
    eapply y_punctuation; [exact Hst1|done| |].
    { inversion Hch as [|? ? ? t ? ts' ? Ht Hr Hc]; subst. apply starts_lexable. destruct ts'; [done|].
      rewrite concat_cons. by apply starts_append. }
    intros st2 Hst2. apply y_bind. eapply y_mono;
      [eapply list_until_reads; [by left|exact Hch|exact Hlen|exact Hst2]|].
    intros args st3 [-> Hst3]. apply y_bind.
    eapply y_punctuation; [exact Hst3|done|by apply lexable_follows, ends_follows|].
    intros st4 Hst4. by apply y_ret.
Qed.
End Reading.

(** ** Quantifiers *)

Ltac lexable_tac :=
  first [ apply lexable_symbol | apply lexable_string | by apply lexable_head
        | by apply lexable_follows | by apply lexable_follows, ends_follows
        | by apply starts_lexable | done ].
Ltac at_tac := match goal with Ht : at_text ?st _ _ |- at_text ?st _ _ => exact Ht end.
Ltac ypunct := apply y_bind; eapply y_punctuation; [at_tac|reflexivity|lexable_tac|]; intros ? ?.
Ltac ykeyword := apply y_bind; eapply y_keyword; [at_tac|done|done|]; intros ? ?.
Ltac ysymbol := apply y_bind; eapply y_symbol; [at_tac|done|done|]; intros ? ?.

Lemma lexable_list ts close s :
  Forall starts ts -> is_lift_punctuation close = true -> lexable (String.concat "," ts +:+ String close s).
Proof.
  intros Hts Hc. destruct Hts as [|t ts Ht Hts]; [by apply lexable_follows|].
  apply starts_lexable. destruct ts; [done|]. rewrite concat_cons. by apply starts_append.
Qed.

Lemma chain_starts `{Z3Api} {A} (item : RM A) B ts xs B' : chain item B ts xs B' -> Forall starts ts.
Proof. induction 1; auto. Qed.

Section QuantifierReading.
Context `{Z3Laws} (R : Registry) (HR : registry_ok R) (fuel : nat) (ex : RM Term).

Lemma pattern_reads B ts l :
  chain ex B ts l B -> length ts <= fuel ->
  readable (pattern_ fuel ex) B B ("[" +:+ String.concat "," ts +:+ "]") l.
Proof.
  intros Hch Hlen st s Hs Hst. rewrite !append_assoc in Hst. unfold pattern_.
  apply y_bind. eapply y_punctuation;
    [exact Hst|done|apply (lexable_list ts "]"); [by eapply chain_starts|done]|].
  intros st1 Hst1. apply y_bind.
  eapply y_mono; [eapply list_until_reads; [by right|exact Hch|exact Hlen|exact Hst1]|].
  intros l' st2 [-> Hst2]. ypunct. by apply y_ret.
Qed.

Lemma binder_reads B alias y s a :
  is_lift_name alias = true -> symbol_ok y = true -> (a, s) ∈ sorts_ R ->
  readable (binder_ R) B (B ++ [(alias, s)]) (alias +:+ "@" +:+ symbol_syntax y +:+ ":" +:+ a) (y, s).
Proof.
  intros Hal Hy Ha st rest Hrest Hst. rewrite !append_assoc in Hst. unfold binder_.
  apply y_bind. eapply y_identifier; [exact Hst|done|done|]. intros st1 Hst1. ypunct. ysymbol.
  apply y_bind. eapply y_punctuation; [eassumption|done|by eapply lexable_name, sort_name|]. intros st4 Hst4.
  apply y_bind. eapply y_identifier; [exact Hst4|by eapply sort_name|by apply ends_follows|].
  intros st5 [Hn5 HB5]. apply y_bind. eapply y_registry; [by apply registered_sort_ok|].
  apply y_bind. eexists _, _. split; [done|]. apply y_ret. split; [done|]. split; [done|]. simpl. by rewrite HB5.
Qed.

(** The text after the quantifier's keyword. *)
Definition quantifier_tail (w : N) (q sk : Symbol) (bts : list string) (body : string) (pts nts : list string)
    : string :=
  "[weight=" +:+ decimal w +:+ ",qid=" +:+ symbol_syntax q +:+ ",skid=" +:+ symbol_syntax sk +:+ "]" +:+
  "(" +:+ String.concat "," bts +:+ ")" +:+ "{" +:+ body +:+ "}" +:+
  "[patterns=[" +:+ String.concat "," pts +:+ "],nopatterns=[" +:+ String.concat "," nts +:+ "]]".

Lemma tail_bounds w q sk bts body pts nts :
  let n := String.length (quantifier_tail w q sk bts body pts nts) in
  String.length (String.concat "," bts) < n /\ String.length body < n /\
  String.length (String.concat "," pts) < n /\ String.length (String.concat "," nts) < n.
Proof.
  unfold quantifier_tail. rewrite !length_append. change (String.length "{") with 1. lia.
Qed.

Lemma keyword_length k : 1 <= String.length (quantifier_keyword k).
Proof. destruct k; simpl; lia. Qed.

Lemma rebuild_quantifier k w q sk bs ps ns b st (Q : Term -> ReadState -> Prop) :
  quantifier_liftable k w q sk bs ps ns = true -> live (Quant k w q sk bs ps ns b) ->
  Q (Quant k w q sk bs ps ns b) st ->
  yields (if (quantifier_keyword k =? "lambda")%string then
            if negb (bool_decide (ps = [])) || negb (bool_decide (ns = [])) || negb (w =? 0)%N
            then read_fail "lambda carries unsupported quantifier metadata"
            else checked "mk_lambda" (mk_lambda bs b)
          else checked "mk_quantifier_ex"
                 (mk_quantifier_ex (quantifier_keyword k =? "forall")%string w q sk ps ns bs b)) st Q.
Proof.
  intros Hq Hlive HQ. apply andb_true_iff in Hq as [_ Hk]. destruct k; simpl.
  - eapply y_checked; [by apply (live_quantifier QForall)|done].
  - eapply y_checked; [by apply (live_quantifier QExists)|done].
  - rewrite !andb_true_iff, !bool_decide_eq_true in Hk. destruct Hk as [[[[Hw Hq] Hs] Hps] Hns].
    apply N.eqb_eq in Hw. subst. destruct ps, ns; try done. simpl.
    eapply y_checked; [by apply live_lambda|done].
Qed.

Lemma quantifier_reads k w q sk bs ps ns b bts body pts nts B B' :
  chain (binder_ R) B bts bs B' -> starts body -> readable ex B' B' body b ->
  chain (pattern_ fuel ex) B' pts ps B' -> chain ex B' nts ns B' ->
  length bts <= fuel -> length pts <= fuel -> length nts <= fuel -> take (length B) B' = B ->
  quantifier_liftable k w q sk bs ps ns = true -> live (Quant k w q sk bs ps ns b) ->
  forall st s, ends s -> at_text st (quantifier_tail w q sk bts body pts nts +:+ s) B ->
  yields (quantifier R fuel ex (quantifier_keyword k)) st
    (fun t st' => t = Quant k w q sk bs ps ns b /\ at_text st' s B).
Proof.
  intros Hbs Hbody Hb Hps Hns Hlb Hlp Hln Htake Hq Hlive st s Hs Hst.
  pose proof Hq as Hq'. unfold quantifier_liftable in Hq'. rewrite !andb_true_iff in Hq'.
  destruct Hq' as [[[[Hw%N.ltb_lt Hqid] Hskid] _] _].
  unfold quantifier_tail in Hst. rewrite !append_assoc in Hst. unfold quantifier.
  ypunct. ykeyword.
  apply y_bind. eapply y_punctuation; [eassumption|done| |].
  { destruct (decimal_cons w) as (c & t & E & Hc). rewrite E. apply lexable_head. unfold token_head.
    by rewrite Hc, orb_true_r. }
  intros st3 Hst3. apply y_bind. eapply y_number; [exact Hst3|done|done|]. intros st4 Hst4.
  ypunct. ykeyword. ypunct. ysymbol. ypunct. ykeyword. ypunct. ysymbol. ypunct.
  apply y_bind. eapply y_punctuation;
    [eassumption|done|apply (lexable_list bts ")"); [by eapply chain_starts|done]|].
  intros st14 Hst14. apply y_bind. exists (length B), st14.
  split; [unfold binders_size; by rewrite (proj2 Hst14)|]. apply y_bind.
  eapply y_mono; [eapply list_until_reads; [by left|exact Hbs|exact Hlb|exact Hst14]|].
  intros bs' st15 [-> Hst15]. ypunct. ypunct. apply y_bind.
  eapply y_mono; [eapply Hb; [|eassumption]; by apply ends_closing|]. intros b' st18 [-> Hst18].
  ypunct. ypunct. ykeyword. ypunct. apply y_bind. eapply y_punctuation;
    [eassumption|done|apply (lexable_list pts "]"); [by eapply chain_starts|done]|].
  intros st23 Hst23. apply y_bind.
  eapply y_mono; [eapply list_until_reads; [by right|exact Hps|exact Hlp|exact Hst23]|].
  intros ps' st24 [-> Hst24]. ypunct. ypunct. ykeyword. ypunct. apply y_bind. eapply y_punctuation;
    [eassumption|done|apply (lexable_list nts "]"); [by eapply chain_starts|done]|].
  intros st29 Hst29. apply y_bind.
  eapply y_mono; [eapply list_until_reads; [by right|exact Hns|exact Hln|exact Hst29]|].
  intros ns' st30 [-> Hst30]. ypunct. ypunct. apply y_bind.
  eexists tt, _. split; [done|]. apply rebuild_quantifier; [done|done|].
  split; [done|]. match goal with H : at_text _ s _ |- _ => destruct H as [Hn HB] end.
  split; [done|]. simpl. by rewrite HB.
Qed.
End QuantifierReading.

(** ** Printing *)

Section Printing.
Context `{Z3Laws}.

Definition print_inv (st : PrintState) : Prop :=
  registry_ok (registry_ st) /\ sorts_registered (registry_ st) /\ bound_inv (bound_ st) (next_bound_ st).

(** The registry and the binder counter only grow. *)
Definition grows (st st' : PrintState) : Prop :=
  extends (registry_ st) (registry_ st') /\ next_bound_ st <= next_bound_ st'.

#[local] Instance grows_preorder : PreOrder grows.
Proof. split; [done|]. intros a b c [? ?] [? ?]. split; [by etrans|lia]. Qed.

Definition prints_to {A} (p : LM A) (st : PrintState) (Q : A -> PrintState -> Prop) : Prop :=
  exists a st', p st = Ok (a, st') /\ print_inv st' /\ grows st st' /\ Q a st'.

Lemma p_bind {A B} (p : LM A) (k : A -> LM B) st Q :
  prints_to p st (fun a st' => print_inv st' -> grows st st' -> prints_to (k a) st' Q) ->
  prints_to (p ≫= k) st Q.
Proof.
  intros (a & st1 & Hp & Hi1 & Hg1 & HQ). destruct (HQ Hi1 Hg1) as (b & st2 & Hk & Hi2 & Hg2 & HQ2).
  exists b, st2. split_and!; [|done|by etrans|done]. unfold mbind, LM_bind. by rewrite Hp.
Qed.

Lemma p_ret {A} (a : A) st (Q : A -> PrintState -> Prop) : print_inv st -> Q a st -> prints_to (mret a) st Q.
Proof. intros Hi HQ. by exists a, st. Qed.

Lemma p_mono {A} (p : LM A) st (Q Q' : A -> PrintState -> Prop) :
  prints_to p st Q -> (forall a st', print_inv st' -> grows st st' -> Q a st' -> Q' a st') -> prints_to p st Q'.
Proof. intros (a & st' & ? & ? & ? & ?) HQ. exists a, st'. eauto. Qed.

Lemma bound_inv_weaken B n m : bound_inv B n -> n <= m -> bound_inv B m.
Proof.
  intros (ks & ? & ? & Hks) Hm. exists ks. split_and!; [done..|].
  eapply Forall_impl; [exact Hks|]. simpl. lia.
Qed.

Lemma p_sort s st :
  print_inv st -> prints_to (on_registry (sort_alias s)) st
    (fun a st' => bound_ st' = bound_ st /\ next_bound_ st' = next_bound_ st /\ (a, s) ∈ sorts_ (registry_ st')).
Proof.
  intros (Hr & Hs & Hb). destruct (sort_alias_ok s _ Hr) as (a & r' & E & Hr' & He & Hd & Hin).
  unfold on_registry. eexists _, _. rewrite E. split; [done|]. split.
  - split_and!; simpl; [done|by eapply sorts_registered_extends|done].
  - by split; [split|].
Qed.

Lemma p_declaration d st :
  print_inv st -> prints_to (on_registry (declaration_alias d)) st
    (fun a st' => bound_ st' = bound_ st /\ (a, d) ∈ declarations_ (registry_ st')).
Proof.
  intros (Hr & Hs & Hb). destruct (declaration_alias_ok d _ Hr Hs) as (a & r' & E & Hr' & Hs' & He & Hin).
  unfold on_registry. eexists _, _. rewrite E. split; [done|]. split; [by split_and!|]. by split; [split|].
Qed.

(** [f] prints [x] in scope as a text that [item] reads back as [x] against
    every later registry, with fuel above the length of the text. *)
Definition prints {A} (f : A -> LM string) (item : Registry -> nat -> RM A) (lv : A -> Prop) (x : A)
    (st : PrintState) : Prop :=
  prints_to (f x) st (fun text st' =>
    bound_ st' = bound_ st /\ starts text /\
    forall R fuel, registry_ok R -> extends (registry_ st') R -> lv x -> String.length text < fuel ->
    readable (item R fuel) (bound_ st) (bound_ st) text x).

Lemma p_texts {A} (f : A -> LM string) item lv (ok : list Sort -> A -> bool) l st :
  Forall (fun x => forall st, print_inv st -> ok (snd <$> bound_ st) x = true -> prints f item lv x st) l ->
  print_inv st -> forallb (ok (snd <$> bound_ st)) l = true ->
  prints_to (texts_of f l) st (fun ts st' =>
    bound_ st' = bound_ st /\ Forall starts ts /\ length ts = length l /\
    forall R fuel, registry_ok R -> extends (registry_ st') R -> Forall lv l ->
    String.length (String.concat "," ts) < fuel -> chain (item R fuel) (bound_ st) ts l (bound_ st)).
Proof.
  intros Hl. revert st; induction Hl as [|x l Hx Hl IH]; intros st Hst Hok; simpl.
  { apply p_ret; [done|]. split_and!; [done..|]. intros. constructor. }
  simpl in Hok. apply andb_true_iff in Hok as [Hokx Hokl]. apply p_bind.
  eapply p_mono; [by apply Hx|]. intros t st1 Hi1 Hg1 (Hb1 & Hs1 & Hr1) _ _. apply p_bind.
  eapply p_mono; [apply IH; [done|by rewrite Hb1]|]. intros ts st2 Hi2 Hg2 (Hb2 & Hs2 & Hl2 & Hr2) _ _.
  apply p_ret; [done|]. rewrite Hb1 in *. split_and!; [done|by constructor|simpl; lia|].
  intros R fuel HR He Hlv Hlen. inversion Hlv as [|? ? Hlx Hll]; subst.
  pose proof (concat_length "," (t :: ts)) as Hcl. inversion Hcl as [|? ? Hct Hcts]; subst. cbv beta in *.
  econstructor; [done| |].
  - apply Hr1; [done| |done|lia]. etrans; [apply Hg2|done].
  - apply Hr2; [done..|]. destruct ts as [|t2 ts]; [simpl; lia|]. rewrite concat_cons in Hlen.
    rewrite !length_append in Hlen. lia.
Qed.

Lemma to_string_name n : is_lift_name ("_v_" +:+ to_string n) = true.
Proof. simpl. apply to_string_continue. Qed.

Lemma bound_inv_push B n s : bound_inv B n -> bound_inv (B ++ [("_v_" +:+ to_string n, s)]) (S n).
Proof.
  intros (ks & E & Hnd & Hlt). exists (ks ++ [n]). split_and!.
  - by rewrite !fmap_app, E.
  - apply NoDup_app. split_and!; [done| |apply NoDup_singleton].
    intros k Hk ->%list_elem_of_singleton. rewrite Forall_forall in Hlt. apply Hlt in Hk. lia.
  - apply Forall_app. split; [|by repeat constructor]. eapply Forall_impl; [exact Hlt|]. simpl. lia.
Qed.

Lemma p_binders bs st :
  print_inv st -> forallb (fun b => symbol_ok b.1) bs = true ->
  prints_to (texts_of binder_text bs) st (fun ts st' =>
    (exists B', bound_ st' = bound_ st ++ B') /\ snd <$> bound_ st' = (snd <$> bound_ st) ++ (snd <$> bs) /\
    Forall starts ts /\
    forall R, registry_ok R -> extends (registry_ st') R -> chain (binder_ R) (bound_ st) ts bs (bound_ st')).
Proof.
  revert st; induction bs as [|[y s] bs IH]; intros st Hst Hok; simpl.
  { apply p_ret; [done|]. split_and!; [by exists []; rewrite app_nil_r|by rewrite app_nil_r|done|].
    intros. constructor. }
  simpl in Hok. apply andb_true_iff in Hok as [Hy Hbs]. apply p_bind.
  set (alias := "_v_" +:+ to_string (next_bound_ st)).
  set (st0 := mkPrintState (registry_ st) (bound_ st ++ [(alias, s)]) (S (next_bound_ st))).
  assert (Hi0 : print_inv st0).
  { destruct Hst as (? & ? & ?). split_and!; simpl; [done..|by apply bound_inv_push]. }
  destruct (p_sort s st0 Hi0) as (a & st1 & E1 & Hi1 & Hg1 & Hb1 & _ & Hin1).
  exists (alias +:+ "@" +:+ symbol_syntax y +:+ ":" +:+ a), st1. split_and!.
  - change (match on_registry (sort_alias s) st0 with
            | Ok (sort, st') => Ok (alias +:+ "@" +:+ symbol_syntax y +:+ ":" +:+ sort, st')
            | Err e => Err e | Diverge => Diverge end =
            Ok (alias +:+ "@" +:+ symbol_syntax y +:+ ":" +:+ a, st1)). by rewrite E1.
  - done.
  - destruct Hg1 as [? Hle]. split; [done|]. simpl in Hle. lia.
  - intros _ Hg. apply p_bind. eapply p_mono; [by apply IH|].
    intros ts st2 Hi2 Hg2 ((B' & HB') & Hsnd & Hts & Hr2) _ _. apply p_ret; [done|].
    rewrite Hb1 in *. simpl in *. split_and!.
    + exists ((alias, s) :: B'). by rewrite HB', <- app_assoc.
    + rewrite Hsnd, fmap_app, <- app_assoc. done.
    + constructor; [by left|done].
    + intros R HR He. econstructor; [by left| |by apply Hr2].
      apply (binder_reads R HR _ alias y s a); [apply to_string_name|done|].
      destruct Hg2 as [[Hs2 _] _], He as [He _]. auto.
Qed.

Definition expression_item (R : Registry) (fuel : nat) : RM Term := expression R fuel.

Abbreviation prints_term t st := (prints expression_text expression_item live t st).

Lemma prints_numeral v s st : print_inv st -> prints_term (Numeral v s) st.
Proof.
  intros Hst. unfold prints. simpl. apply p_bind. eapply p_mono; [by apply p_sort|].
  intros a st1 Hi1 Hg1 (Hb1 & _ & Hin1) _ _. apply p_ret; [done|]. split_and!; [done|by left|].
  intros R [|fuel] HR [He _] Hlive Hlen; [lia|]. apply numeral_reads; auto.
Qed.

Lemma prints_var i s st :
  print_inv st -> liftable (snd <$> bound_ st) (Var i s) = true -> prints_term (Var i s) st.
Proof.
  intros Hst Hok. simpl in Hok. rewrite length_fmap in Hok.
  apply andb_true_iff in Hok as [Hi%Nat.ltb_lt Hl%bool_decide_eq_true].
  rewrite list_lookup_fmap in Hl. destruct (bound_ st !! _) as [[a s']|] eqn:E; [|done].
  simpl in Hl. injection Hl as ->. unfold prints. exists a, st.
  split; [simpl; unfold bound_text; rewrite (proj2 (Nat.leb_gt _ _)) by done; by rewrite E|].
  split; [done|]. split; [done|]. split; [done|]. destruct Hst as (_ & _ & Hb). split.
  - destruct Hb as (ks & Hks & _). assert (Hin : a ∈ fst <$> bound_ st).
    { apply list_elem_of_fmap. exists (a, s). split; [done|]. by eapply list_elem_of_lookup_2. }
    rewrite Hks in Hin. apply list_elem_of_fmap in Hin as (k & -> & _). by left.
  - intros R [|fuel] HR He Hlive Hlen; [lia|]. by eapply var_reads.
Qed.

Lemma prints_app d l st :
  Forall (fun t => forall st, print_inv st -> liftable (snd <$> bound_ st) t = true -> prints_term t st) l ->
  print_inv st -> liftable (snd <$> bound_ st) (App d l) = true -> prints_term (App d l) st.
Proof.
  intros Hl Hst Hok. unfold prints. simpl. apply p_bind. eapply p_mono; [by apply p_declaration|].
  intros a st1 Hi1 Hg1 (Hb1 & Hin1) _ _. rewrite <- Hb1 in *.
  assert (Hsa : forall r, starts (a +:+ r)).
  { intros r. destruct Hi1 as (Hr1 & _ & _). pose proof (ok_declaration_aliases _ Hr1) as Hall.
    rewrite Forall_forall in Hall. destruct (Hall _ Hin1) as [Hal _]. simpl in Hal.
    destruct Hal as (t & -> & _). by left. }
  destruct l as [|x l].
  - apply p_ret; [done|]. split_and!; [done|rewrite <- (append_nil_r a); apply Hsa|].
    intros R [|fuel] HR [_ He] Hlive Hlen; [lia|]. destruct Hi1 as (_ & _ & Hbi).
    eapply (application_reads R HR fuel _ d [] a [] _ _ Hbi); [auto|done|simpl; lia|constructor].
  - apply p_bind. eapply p_mono; [by eapply (p_texts _ expression_item live liftable)|].
    intros ts st2 Hi2 Hg2 (Hb2 & Hs2 & Hl2 & Hr2) _ _. apply p_ret; [done|].
    split_and!; [done|apply Hsa|]. intros R [|fuel] HR He Hlive Hlen; [lia|].
    rewrite length_append in Hlen. simpl in Hlen. rewrite length_append in Hlen.
    assert (Hc : String.length (String.concat "," ts) < fuel) by lia. destruct Hi1 as (_ & _ & Hbi).
    eapply (application_reads R HR fuel _ d (x :: l) a ts _ _ Hbi).
    + destruct Hg2 as [[_ Hd2] _], He as [_ He]. auto.
    + done.
    + pose proof (concat_count ts Hs2). lia.
    + apply Hr2; [done|done|by apply (live_app d)|done].
Qed.

Definition pattern_text (p : list Term) : LM string :=
  texts ← texts_of expression_text p; mret ("[" +:+ String.concat "," texts +:+ "]").

Definition pattern_item (R : Registry) (fuel : nat) : RM (list Term) := pattern_ fuel (expression R fuel).

Definition pattern_liftable (scope : list Sort) (p : list Term) : bool := forallb (liftable scope) p.

Lemma prints_pattern p st :
  Forall (fun t => forall st, print_inv st -> liftable (snd <$> bound_ st) t = true -> prints_term t st) p ->
  print_inv st -> pattern_liftable (snd <$> bound_ st) p = true ->
  prints pattern_text pattern_item (Forall live) p st.
Proof.
  intros Hp Hst Hok. unfold prints, pattern_text. apply p_bind.
  eapply p_mono; [by eapply (p_texts _ expression_item live liftable)|].
  intros ts st1 Hi1 Hg1 (Hb1 & Hs1 & Hl1 & Hr1) _ _. apply p_ret; [done|].
  split_and!; [done|by right|]. intros R fuel HR He Hlive Hlen.
  simpl in Hlen. rewrite length_append in Hlen. simpl in Hlen.
  pose proof (concat_count ts Hs1). apply pattern_reads; [apply Hr1; [done..|lia]|lia].
Qed.

(** The printed quantifier is its keyword and [quantifier_tail]. *)
Lemma prints_quant k w q sk bs ps ns b st :
  Forall (Forall (fun t => forall st, print_inv st -> liftable (snd <$> bound_ st) t = true -> prints_term t st)) ps ->
  Forall (fun t => forall st, print_inv st -> liftable (snd <$> bound_ st) t = true -> prints_term t st) ns ->
  (forall st, print_inv st -> liftable (snd <$> bound_ st) b = true -> prints_term b st) ->
  print_inv st -> liftable (snd <$> bound_ st) (Quant k w q sk bs ps ns b) = true ->
  prints_term (Quant k w q sk bs ps ns b) st.
Proof.
  intros Hps Hns Hb Hst Hok. simpl in Hok. rewrite !andb_true_iff in Hok.
  destruct Hok as [[[Hq Hokp] Hokn] Hokb]. unfold prints. cbn [expression_text].
  apply p_bind. exists (length (bound_ st)), st. split_and!; [done|done|done|]. intros _ _.
  assert (Hbs : forallb (fun b => symbol_ok b.1) bs = true).
  { unfold quantifier_liftable in Hq. rewrite !andb_true_iff in Hq. naive_solver. }
  apply p_bind. eapply p_mono; [by apply p_binders|].
  intros bts st1 Hi1 Hg1 ((B' & HB') & Hsnd & Hbts & Hrb) _ _. rewrite <- Hsnd in *.
  apply p_bind. eapply p_mono; [by apply Hb|]. intros body st2 Hi2 Hg2 (Hb2 & Hsb & Hr2) _ _.
  rewrite <- Hb2 in Hokp, Hokn.
  apply p_bind. eapply p_mono;
    [eapply (p_texts pattern_text pattern_item (Forall live) pattern_liftable); [|done|exact Hokp]|].
  { eapply Forall_impl; [exact Hps|]. intros p Hp st' Hst' Hokp'. by apply prints_pattern. }
  intros pts st3 Hi3 Hg3 (Hb3 & Hsp & Hlp & Hr3) _ _. rewrite <- Hb3 in Hokn.
  apply p_bind. eapply p_mono; [by eapply (p_texts _ expression_item live liftable)|].
  intros nts st4 Hi4 Hg4 (Hb4 & Hsn & Hln & Hr4) _ _.
  set (st5 := mkPrintState (registry_ st4) (take (length (bound_ st)) (bound_ st4)) (next_bound_ st4)).
  assert (Hb5 : bound_ st5 = bound_ st).
  { simpl. by rewrite Hb4, Hb3, Hb2, HB', take_app_length. }
  assert (Hg05 : grows st st4) by (etrans; [exact Hg1|etrans; [exact Hg2|etrans; [exact Hg3|exact Hg4]]]).
  assert (Hi5 : print_inv st5).
  { destruct Hi4 as (? & ? & _), Hst as (_ & _ & Hbst). split_and!; [done..|]. rewrite Hb5.
    eapply bound_inv_weaken; [exact Hbst|]. apply Hg05. }
  apply p_bind. exists tt, st5. split; [done|]. split; [done|]. split; [by split|]. intros _ _.
  apply p_ret; [done|]. split; [done|].
  split; [destruct k; by left|]. intros R [|fuel] HR He Hlive Hlen; [lia|].
  change (String.length (quantifier_keyword k +:+ quantifier_tail w q sk bts body pts nts) < S fuel) in Hlen.
  change (readable (expression_item R (S fuel)) (bound_ st) (bound_ st)
    (quantifier_keyword k +:+ quantifier_tail w q sk bts body pts nts) (Quant k w q sk bs ps ns b)).
  rewrite length_append in Hlen. pose proof (keyword_length k).
  destruct (tail_bounds w q sk bts body pts nts) as (? & ? & ? & ?).
  pose proof (concat_count bts Hbts). pose proof (concat_count pts Hsp). pose proof (concat_count nts Hsn).
  destruct (live_quant _ _ _ _ _ _ _ _ Hlive) as (Hlps & Hlns & Hlb).
  assert (He4 : extends (registry_ st4) R) by done.
  assert (He3 : extends (registry_ st3) R) by (etrans; [apply Hg4|done]).
  assert (He2 : extends (registry_ st2) R) by (etrans; [apply Hg3|done]).
  assert (He1 : extends (registry_ st1) R) by (etrans; [apply Hg2|done]).
  rewrite Hb3, Hb2 in Hr4. rewrite Hb2 in Hr3.
  intros rst s Hs Hrst. rewrite append_assoc in Hrst. unfold expression_item. simpl.
  eapply (named_reads R fuel _ (quantifier_keyword k)); [exact Hrst|by destruct k|done|].
  intros rst1 Hrst1.
  assert (Hn : named_expression R fuel (expression R fuel) (quantifier_keyword k) =
               quantifier R fuel (expression R fuel) (quantifier_keyword k)) by by destruct k.
  rewrite Hn.
  apply (quantifier_reads R fuel (expression R fuel) k w q sk bs ps ns b bts body pts nts _ (bound_ st1));
    [by apply Hrb|done|apply Hr2; [done..|lia]|apply Hr3; [done..|lia]|apply Hr4; [done..|lia]
    |lia|lia|lia|by rewrite HB', take_app_length|done|done|done|done].
Qed.

(** Every liftable term of the manager prints, and reads back as itself. *)
Lemma prints_liftable t st :
  print_inv st -> liftable (snd <$> bound_ st) t = true -> prints_term t st.
Proof.
  revert st. induction t using Term_nested_ind; intros st Hst Hok.
  - by apply prints_numeral.
  - by apply prints_app.
  - by apply prints_var.
  - by apply prints_quant.
Qed.

Lemma print_reads t :
  liftable [] t = true -> live t ->
  exists text r, print t = Ok (text, r) /\ registry_ok r /\ sorts_registered r /\ parse_text r text = Ok t.
Proof.
  intros Hok Hlive. set (st0 := mkPrintState empty_registry [] 0).
  assert (Hi0 : print_inv st0).
  { split_and!; [apply empty_registry_ok|intros ? ? []%elem_of_nil|]. exists []. repeat constructor. }
  destruct (prints_liftable t st0 Hi0 Hok) as (text & st & E & (Hr & Hs & _) & _ & _ & Hstart & Hread).
  exists text, (registry_ st). split_and!; [unfold print; fold st0; by rewrite E|done|done|].
  specialize (Hread (registry_ st) (S (String.length text)) Hr (reflexivity _) Hlive ltac:(lia)).
  destruct (starts_lexable text "" Hstart) as (tok & r & Hlex).
  destruct (Hread (mkReadState r tok []) "") as (t' & st' & Hex & -> & Hend & _); [done|by split|].
  unfold parse_text. rewrite append_nil_r in Hlex. rewrite Hlex.
  unfold mbind, RM_bind. unfold expression_item in Hex. rewrite Hex. simpl.
  injection Hend as <- _. by rewrite decide_True.
Qed.
End Printing.

(** ** The lift *)

Lemma lift_total `{Z3Laws} t :
  liftable [] t = true -> live t ->
  exists l r, (forall b, lift_rainfall_term t b = Ok l) /\ print t = Ok (lifted_text l, r) /\
              parse_text r (lifted_text l) = Ok t.
Proof.
  intros Hok Hlive. destruct (print_reads t Hok Hlive) as (text & r & Hp & Hr & Hs & Hread).
  destruct (declarations_json_ok r Hs) as [json Hj]. exists (mkLifted text (sorts_json r) json), r.
  split_and!; [|done|done]. intros b. unfold lift_rainfall_term. rewrite Hp. simpl.
  destruct b; simpl; [|by rewrite Hj]. rewrite Hread. simpl.
  by rewrite (proj2 (term_eqb_spec t t) eq_refl), Hj.
Qed.

(** C1. Lifting is total and exact on every closed, well-scoped term of the
    manager whose metadata the text can carry: printing succeeds, the exact
    reparse returns the identical term, the JSON bindings can be written, and
    the result is the same with and without the check, so a term registered
    without it always passes it later. *)
Theorem lift_rainfall_term_exact `{Z3Laws} (t : Term) :
  liftable [] t = true -> live t ->
  exists l r, (forall b, lift_rainfall_term t b = Ok l) /\ print t = Ok (lifted_text l, r) /\
              parse_text r (lifted_text l) = Ok t.
Proof. apply lift_total. Qed.

Import Structural.

Lemma lift_rainfall_term_exact_witness :
  exists l r, (forall b, lift_rainfall_term LiftSample.sample b = Ok l) /\
    print LiftSample.sample = Ok (lifted_text l, r) /\ parse_text r (lifted_text l) = Ok LiftSample.sample.
Proof. apply lift_rainfall_term_exact; vm_compute; reflexivity. Defined.

(** C34. The alias search always ends with a name not used before, whatever
    names are taken. *)
Theorem unique_fresh `{Z3Api} (base : string) (r : Registry) :
  exists a, unique base r = Ok (a, mkRegistry (sorts_ r) (declarations_ r) (a :: aliases_ r)) /\
            a ∉ aliases_ r.
Proof.
  destruct (unique_loop_total (aliases_ r) base base) as (a & E & Ha & _).
  { exists "". by rewrite append_nil_r. }
  exists a. unfold unique. by rewrite E.
Qed.

(** C35. A quoted string is one token that decodes to the original bytes, for
    every byte string and whatever follows it. *)
Theorem string_quote_roundtrip (v s : string) : lift_next (string_quote v +:+ s) = Ok (LString v, s).
Proof. apply next_string. Qed.

(** A quantifier identifier that is the empty string symbol is printed as an
    empty string, which reads back as the null symbol: the exact check
    refuses the term. *)
Example empty_identifier_refused :
  lift_rainfall_term (Quant QForall 0 (SString "") SNull [(SNull, "Int")] [] [] (Numeral "1" "Int")
    : @Term Structural.data) true =
  Err "Fine Rainfall lift/reify changed exact Z3 AST identity".
Proof. vm_compute. reflexivity. Qed.
