(* ===== verification/Recorder.v ===== *)
(** * The Rainfall recorder (src/src/fine/rainfall.cpp)

    The recorder writes one JSON object per line, registers terms under
    handles, and pairs accepted quantifier instances with later clauses.  An
    operation is a state transformer that keeps its state when it throws:
    what was registered or written before the exception stays. *)

From stdpp Require Import gmap.
From S2P Require Import Prelude Format Json Syntax Source Z3Ast Lift.
From Stdlib Require Import NArith.

(** ** Fields *)

Record RainfallField := mkField { field_name : string; field_json : string }.

Definition quote_char (c : ascii) : string :=
  if (c =? dquote)%char then escaped dquote
  else if (c =? backslash)%char then escaped backslash
  else if (c =? "008")%char then escaped "b"
  else if (c =? "012")%char then escaped "f"
  else if (c =? "010")%char then escaped "n"
  else if (c =? "013")%char then escaped "r"
  else if (c =? "009")%char then escaped "t"
  else if (N_of_ascii c <? 0x20)%N then String backslash ("u" +:+ hex_field 4 (N_of_ascii c))
  else String c "".

Fixpoint quote_chars (text : string) : string :=
  match text with EmptyString => EmptyString | String c s => quote_char c +:+ quote_chars s end.

Definition quote (text : string) : string := lit (quote_chars text).

Definition string_array (values : list string) : string := arr (quote <$> values).

Definition string_field (name value : string) : RainfallField := mkField name (quote value).
Definition number_field (name : string) (value : nat) : RainfallField := mkField name (to_string value).
Definition boolean_field (name : string) (value : bool) : RainfallField :=
  mkField name (if value then "true" else "false").
Definition raw_field (name json : string) : RainfallField := mkField name json.

Section Recorder.
Context `{Z3Api} (term_to_string : Term -> string) (term_ast_id : Term -> N).

(** [output_] holds the lines written so far, each without its newline. *)
Record Recorder := mkRecorder {
  run_ : string;
  snapshot_ : option SourceSnapshot;
  terms_ : list Term;
  lifted_texts_ : list string;
  lifted_text_hashes_ : list string;
  validated_terms_ : nat;
  pending_quantifier_instances_ : gmap (string * string) string;
  source_nodes_ : gmap nat string;
  sequence_ : nat;
  output_ : list string
}.

Definition RecM (A : Type) : Type := Recorder -> outcome string A * Recorder.

#[export] Instance RecM_ret : MRet RecM := fun A a st => (Ok a, st).
#[export] Instance RecM_bind : MBind RecM := fun A B k m st =>
  match m st with
  | (Ok a, st') => k a st'
  | (Err e, st') => (Err e, st')
  | (Diverge, st') => (Diverge, st')
  end.

Definition throw_ {A} (message : string) : RecM A := fun st => (Err message, st).
Definition get_ {A} (f : Recorder -> A) : RecM A := fun st => (Ok (f st), st).
Definition modify_ (f : Recorder -> Recorder) : RecM unit := fun st => (Ok tt, f st).
Definition of_outcome {A} (r : outcome string A) : RecM A := fun st => (r, st).

(** ** Records *)

Definition record_line (run : string) (current : nat) (kind operation : string) (within : list string)
    (producer coverage : string) (data : list RainfallField) : string :=
  obj [(lit "schema", lit "fine.rainfall.v2"); (lit "run", quote run);
       (lit "recorder", lit "recorder:0"); (lit "manager", lit "manager:0");
       (lit "event_id", quote ("event:" +:+ to_string current)); (lit "sequence", to_string current);
       (lit "kind", quote kind); (lit "operation", quote operation); (lit "within", string_array within);
       (lit "producer", obj [(lit "component", quote producer); (lit "coverage", quote coverage)]);
       (lit "data", obj ((fun f => (quote (field_name f), field_json f)) <$> data))].

Definition record (kind operation : string) (within : list string) (producer coverage : string)
    (data : list RainfallField) : RecM string := fun st =>
  let current := sequence_ st in
  (Ok ("event:" +:+ to_string current),
   mkRecorder (run_ st) (snapshot_ st) (terms_ st) (lifted_texts_ st) (lifted_text_hashes_ st)
     (validated_terms_ st) (pending_quantifier_instances_ st) (source_nodes_ st) (S current)
     (output_ st ++ [record_line (run_ st) current kind operation within producer coverage data])).

(** ** Construction *)

Definition fresh_run (random : list N) : string :=
  "run:" +:+ String.concat "" ((fun i => hex_field 8 (w32 (nth i random 0%N))) <$> seq 0 4).

Definition snapshot_identity (s : SourceSnapshot) : string :=
  obj [(lit "document", quote (document_id s)); (lit "revision", to_string (revision s));
       (lit "exact_source_hash", quote (exact_source_hash s)); (lit "byte_length", to_string (byte_length s))].

Definition make_recorder (random : list N) (run : string) (snapshot : option SourceSnapshot) : Recorder :=
  let st := mkRecorder (if (run =? "")%string then fresh_run random else run) snapshot
              [] [] [] 0 ∅ ∅ 0 [] in
  match snapshot with
  | None => st
  | Some s =>
      snd ((record "object" "source.document.declare" [] "fine.source-snapshot"
         "Opaque document identity for this CLI compilation"
         [string_field "id" (document_id s); string_field "display_name" (display_name s)] ;;
       record "object" "source.snapshot.declare" [] "fine.source-snapshot"
         "Exact immutable source input for all source evidence in this run"
         [string_field "id" "snapshot:0"; raw_field "identity" (snapshot_identity s)]) st)
  end.

(** ** Quantifier instances *)

Definition set_pending (m : gmap (string * string) string) (st : Recorder) : Recorder :=
  mkRecorder (run_ st) (snapshot_ st) (terms_ st) (lifted_texts_ st) (lifted_text_hashes_ st)
    (validated_terms_ st) m (source_nodes_ st) (sequence_ st) (output_ st).

Definition remember_quantifier_instance (quantifier instance event : string) : RecM unit :=
  pending ← get_ pending_quantifier_instances_;
  match pending !! (quantifier, instance) with
  | Some _ => throw_ "duplicate pending Rainfall quantifier instance"
  | None => modify_ (set_pending (<[(quantifier, instance) := event]> pending))
  end.

Definition take_quantifier_instance (quantifier instance : string) : RecM (option string) :=
  pending ← get_ pending_quantifier_instances_;
  match pending !! (quantifier, instance) with
  | None => mret None
  | Some event =>
      modify_ (set_pending (delete (quantifier, instance) pending)) ;; mret (Some event)
  end.

(** ** Terms *)

Definition push_term (t : Term) (st : Recorder) : Recorder :=
  mkRecorder (run_ st) (snapshot_ st) (terms_ st ++ [t]) (lifted_texts_ st) (lifted_text_hashes_ st)
    (validated_terms_ st) (pending_quantifier_instances_ st) (source_nodes_ st) (sequence_ st) (output_ st).

Definition push_text (text : string) (st : Recorder) : Recorder :=
  mkRecorder (run_ st) (snapshot_ st) (terms_ st) (lifted_texts_ st ++ [text])
    (lifted_text_hashes_ st ++ [exact_content_hash text]) (validated_terms_ st)
    (pending_quantifier_instances_ st) (source_nodes_ st) (sequence_ st) (output_ st).

Definition term_reference (handle : nat) : string := "term:" +:+ to_string handle.

Definition term_fields (run : string) (handle : nat) (t : Term) (representation : string)
    (lifted : RainfallLiftedTerm) : list RainfallField :=
  [string_field "id" (term_reference handle);
   raw_field "identity"
     (obj [(lit "run", quote run); (lit "recorder", lit "recorder:0"); (lit "manager", lit "manager:0");
           (lit "handle", to_string handle); (lit "ast_id_at_observation", decimal (term_ast_id t))]);
   string_field "representation" "fine.generated-term.v1"; string_field "origin" representation;
   string_field "text" (lifted_text lifted);
   string_field "rendering_hash" (exact_content_hash (lifted_text lifted));
   string_field "z3_text_diagnostic" (term_to_string t);
   raw_field "sort_bindings" (lifted_sorts_json lifted);
   raw_field "declaration_bindings" (lifted_declarations_json lifted);
   string_field "exact_reify_validation" "pending"].

Definition term (t : Term) (representation : string) : RecM string :=
  known ← get_ terms_;
  match list_find (fun u => term_eqb u t = true) known with
  | Some (i, _) => mret (term_reference i)
  | None =>
      let handle := length known in
      modify_ (push_term t) ;;
      lifted ← of_outcome (lift_rainfall_term t false);
      modify_ (push_text (lifted_text lifted)) ;;
      run ← get_ run_;
      record "object" "term.declare" [] "fine.ast-registry"
        ("Fine-owned live Z3 term with canonical generated Fine rendering; exact reparse/reification is " +:+
         "deferred outside observer callbacks and required before run closure")
        (term_fields run handle t representation lifted) ;;
      mret (term_reference handle)
  end.

(** ** Validation *)

Definition bump_validated (st : Recorder) : Recorder :=
  mkRecorder (run_ st) (snapshot_ st) (terms_ st) (lifted_texts_ st) (lifted_text_hashes_ st)
    (S (validated_terms_ st)) (pending_quantifier_instances_ st) (source_nodes_ st) (sequence_ st)
    (output_ st).

Definition validation_fields (handle : nat) (hash : string) : list RainfallField :=
  [string_field "term" (term_reference handle); string_field "rendering_hash" hash;
   boolean_field "parse_reify_exact_identity" true].

(** One iteration; reading past the vectors of texts and hashes is an error. *)
Definition validate_one (handle : nat) (t : Term) : RecM unit :=
  modify_ bump_validated ;;
  lifted ← of_outcome (lift_rainfall_term t true);
  texts ← get_ lifted_texts_;
  hashes ← get_ lifted_text_hashes_;
  match texts !! handle, hashes !! handle with
  | Some text, Some hash =>
      if negb (lifted_text lifted =? text)%string
      then throw_ "Fine Rainfall lift rendering changed before exact validation"
      else
        record "derive" "term.lift.validate" [] "fine.generated-term-parser"
          ("Canonical generated Fine term reparsed against its exact manager-local sort and declaration " +:+
           "bindings and reified to the identical live Z3 AST")
          (validation_fields handle hash) ;;
        mret tt
  | _, _ => throw_ "index out of range"
  end.

(** [while (validated_terms_ < terms_.size())]; the terms do not grow meanwhile. *)
Fixpoint validate_loop (fuel : nat) : RecM unit :=
  handle ← get_ validated_terms_;
  terms ← get_ terms_;
  match terms !! handle with
  | None => mret tt
  | Some t =>
      match fuel with
      | O => of_outcome Diverge
      | S f => validate_one handle t ;; validate_loop f
      end
  end.

Definition validate_terms : RecM unit := n ← get_ (fun st => length (terms_ st)); validate_loop n.

(** ** Source evidence *)

Definition position_json (p : SourcePosition) : string :=
  obj [(lit "offset", to_string (offset p)); (lit "line", to_string (line p));
       (lit "column", to_string (column p))].

Definition span_json (s : SourceSpan) : string :=
  obj [(lit "begin", position_json (begin_ s)); (lit "end", position_json (end_ s))].

Definition set_node (id : nat) (reference : string) (st : Recorder) : Recorder :=
  mkRecorder (run_ st) (snapshot_ st) (terms_ st) (lifted_texts_ st) (lifted_text_hashes_ st)
    (validated_terms_ st) (pending_quantifier_instances_ st) (<[id := reference]> (source_nodes_ st))
    (sequence_ st) (output_ st).

Definition source_node (parse_local_node_id : nat) (span : SourceSpan) (syntax_kind : string)
    : RecM string :=
  snapshot ← get_ snapshot_;
  match snapshot with
  | None => throw_ "Rainfall source node requires a source snapshot"
  | Some _ =>
      nodes ← get_ source_nodes_;
      match nodes !! parse_local_node_id with
      | Some reference => mret reference
      | None =>
          let reference := "source:" +:+ to_string parse_local_node_id in
          modify_ (set_node parse_local_node_id reference) ;;
          record "object" "source.node.declare" [] "fine.parser"
            "Parse-local syntax identity bound to snapshot:0"
            [string_field "id" reference; string_field "snapshot" "snapshot:0";
             number_field "parse_local_node_id" parse_local_node_id;
             raw_field "span" (span_json span); string_field "syntax_kind" syntax_kind] ;;
          mret reference
      end
  end.

Definition source_term (parse_local_node_id : nat) (span : SourceSpan) (syntax_kind : string) (t : Term)
    (correspondence : string) (within : list string) : RecM unit :=
  source ← source_node parse_local_node_id span syntax_kind;
  reference ← term t "semantic-z3";
  record "derive" "source.term.evidence" within "fine.elaborator"
    "Compiler-owned source-to-term correspondence for this exact snapshot and manager"
    [string_field "snapshot" "snapshot:0"; string_field "source" source;
     string_field "term" reference; string_field "correspondence" correspondence] ;;
  mret tt.
End Recorder.
