(* ===== verification/RecorderSpec.v ===== *)
(** * What a Rainfall recording guarantees

    [Op] is one call on the recorder and [exec] its effect, exceptions
    included; the invariants hold after every sequence of calls. *)

From stdpp Require Import gmap.
From S2P Require Import Prelude Format Json Syntax Source Z3Ast Lift LiftRegistry LiftRead LiftSpec Recorder.
From Stdlib Require Import NArith.

(** ** Quoted text is JSON *)

Lemma content_app a b : content a -> content b -> content (a +:+ b).
Proof.
  induction 1; simpl; intros; [done|apply content_plain|apply content_escape|apply content_unicode]; auto.
Qed.

Lemma quote_char_content c : content (quote_char c).
Proof.
  destruct c as [[] [] [] [] [] [] [] []];
    first [ by apply content_plain; [reflexivity|constructor]
          | by apply content_escape; [reflexivity|constructor]
          | by apply content_unicode; [reflexivity..|constructor] ].
Qed.

Lemma json_char_content c : content (json_char c).
Proof.
  destruct c as [[] [] [] [] [] [] [] []];
    first [ by apply content_plain; [reflexivity|constructor]
          | by apply content_escape; [reflexivity|constructor]
          | by apply content_unicode; [reflexivity..|constructor] ].
Qed.

Lemma quote_content s : content (quote_chars s).
Proof. induction s; simpl; [constructor|]. apply content_app; [apply quote_char_content|done]. Qed.

Lemma quote_json s : json_value (quote s).
Proof. apply json_string, quote_content. Qed.

Lemma json_quote_json s : json_value (json_quote s).
Proof.
  apply json_string. induction s; simpl; [constructor|]. apply content_app; [apply json_char_content|done].
Qed.

Lemma to_string_json n : json_value (to_string n).
Proof. apply json_number. Qed.

Lemma string_array_json l : json_value (string_array l).
Proof. apply arr_json, Forall_fmap, Forall_forall. intros x _. apply quote_json. Qed.

(** A key written as a literal of plain characters. *)
Lemma plain_content s : all_chars plain_char s = true -> content s.
Proof.
  induction s as [|c s IH]; simpl; [constructor|]. intros [? ?]%andb_true_iff. apply content_plain; auto.
Qed.

Lemma lit_json s : all_chars plain_char s = true -> json_value (lit s).
Proof. intros Hs. by apply json_string, plain_content. Qed.

Lemma obj_lit_json ms :
  Forall (fun kv => all_chars plain_char kv.1 = true /\ json_value kv.2) ms ->
  json_value (obj ((fun kv => (lit kv.1, kv.2)) <$> ms)).
Proof.
  intros Hms. apply obj_json, Forall_fmap. eapply Forall_impl; [exact Hms|].
  intros [k v] [Hk Hv]. split; [|done]. exists k. split; [done|by apply plain_content].
Qed.

Ltac json_obj :=
  lazymatch goal with
  | |- json_value (obj ?ms) =>
      apply obj_json; repeat (apply Forall_cons_2; [split; [eexists; split; [reflexivity|];
        first [by apply plain_content|apply quote_content]|simpl snd]|]); [..|by apply Forall_nil_2]
  end.

#[export] Hint Resolve quote_json json_quote_json to_string_json string_array_json json_number
  json_true json_false : json.
#[export] Hint Extern 1 (json_value (lit _)) => (apply lit_json; reflexivity) : json.

Section Spec.
Context `{Z3Api} (term_to_string : Term -> string) (term_ast_id : Term -> N).
Abbreviation term := (term term_to_string term_ast_id).
Abbreviation source_term := (source_term term_to_string term_ast_id).

Lemma sorts_json_json (r : Registry) : json_value (sorts_json r).
Proof.
  apply arr_json, Forall_fmap, Forall_forall. intros [a s] _. unfold compose, sort_json. json_obj; auto with json.
Qed.

Lemma traverse_forall {A B} (f : A -> outcome string B) l ys (Q : B -> Prop) :
  (forall x y, f x = Ok y -> Q y) -> traverse f l = Ok ys -> Forall Q ys.
Proof.
  intros Hf. revert ys; induction l as [|x l IH]; intros ys; simpl; [by intros [= <-]|].
  destruct (f x) as [y| |] eqn:E; [|done..]. simpl. destruct (traverse f l); [|done..].
  intros [= <-]. constructor; eauto.
Qed.

Lemma declarations_json_json (r : Registry) json : declarations_json r = Ok json -> json_value json.
Proof.
  unfold declarations_json. destruct (traverse _ _) as [ys| |] eqn:E; [|done..]. intros [= <-].
  apply arr_json. eapply traverse_forall; [|exact E]. intros [a d] y. unfold declaration_json. simpl.
  destruct (traverse _ (decl_domain d)) as [zs| |] eqn:Ed; [|done..]. simpl.
  destruct (find_sort_alias _ _); [|done..]. intros [= <-].
  json_obj; auto with json.
  - apply arr_json, Forall_fmap, Forall_forall. auto with json.
  - apply arr_json. eapply traverse_forall; [|exact Ed]. intros s z. simpl.
    destruct (find_sort_alias s r); [|done..]. intros [= <-]. auto with json.
Qed.

Lemma lift_json t b l : lift_rainfall_term t b = Ok l ->
  json_value (lifted_sorts_json l) /\ json_value (lifted_declarations_json l).
Proof.
  unfold lift_rainfall_term. destruct (print t) as [[text r]| |]; [|done..]. simpl.
  destruct (if b then _ else _) as [[]| |]; [|done..]. simpl.
  destruct (declarations_json r) as [json| |] eqn:E; [|done..]. intros [= <-]. simpl.
  split; [apply sorts_json_json|by eapply declarations_json_json].
Qed.

(** ** Records *)

Definition fields_json (data : list RainfallField) : Prop := Forall (fun f => json_value (field_json f)) data.

Lemma record_line_json run n kind op within producer coverage data :
  fields_json data -> json_value (record_line run n kind op within producer coverage data).
Proof.
  intros Hd. unfold record_line. json_obj; auto with json.
  - json_obj; auto with json.
  - apply obj_json, Forall_fmap. eapply Forall_impl; [exact Hd|]. intros f Hf. split; [|done].
    eexists. split; [done|apply quote_content].
Qed.

(** The recording so far: line [n] is the record with event [n]. *)
Definition logged (st : Recorder) : Prop :=
  length (output_ st) = sequence_ st /\
  forall n l, output_ st !! n = Some l ->
    (exists kind op within producer coverage data,
       l = record_line (run_ st) n kind op within producer coverage data) /\ json_value l.

(** What every operation keeps: the run, the snapshot, the lines written and
    the terms registered; both only grow at the end. *)
Definition keeps (st st' : Recorder) : Prop :=
  run_ st' = run_ st /\ snapshot_ st' = snapshot_ st /\ terms_ st `prefix_of` terms_ st' /\
  output_ st `prefix_of` output_ st'.

#[export] Instance keeps_preorder : PreOrder keeps.
Proof.
  split; [done|]. intros a b c (? & ? & ? & ?) (? & ? & ? & ?).
  split_and!; [congruence|congruence|by etrans|by etrans].
Qed.

Definition safe {A} (p : RecM A) : Prop := forall st r st',
  p st = (r, st') -> logged st -> NoDup (terms_ st) -> keeps st st' /\ logged st' /\ NoDup (terms_ st').

Lemma recording_ret {A} (a : A) : safe (mret a).
Proof. intros st r st' [= <- <-]. done. Qed.

Lemma recording_bind {A B} (p : RecM A) (k : A -> RecM B) : safe p -> (forall a, safe (k a)) -> safe (p ≫= k).
Proof.
  intros Hp Hk st r st' E Hl Hn. unfold mbind, RecM_bind in E.
  destruct (p st) as [[a|e|] st1] eqn:E1; destruct (Hp _ _ _ E1 Hl Hn) as (K1 & L1 & N1).
  - destruct (Hk a _ _ _ E L1 N1) as (K2 & L2 & N2). split_and!; [by etrans|done..].
  - injection E as <- <-. done.
  - injection E as <- <-. done.
Qed.

Lemma safe_get {A} (f : Recorder -> A) : safe (get_ f).
Proof. intros st r st' [= <- <-]. done. Qed.

Lemma safe_throw {A} m : safe (throw_ m : RecM A).
Proof. intros st r st' [= <- <-]. done. Qed.

Lemma safe_outcome {A} (o : outcome string A) : safe (of_outcome o).
Proof. intros st r st' [= <- <-]. done. Qed.

(** A state change that touches neither the log nor the terms. *)
Lemma recording_modify f :
  (forall st, run_ (f st) = run_ st /\ snapshot_ (f st) = snapshot_ st /\ terms_ (f st) = terms_ st /\
              output_ (f st) = output_ st /\ sequence_ (f st) = sequence_ st) -> safe (modify_ f).
Proof.
  intros Hf st r st' [= <- <-] [Hl1 Hl2] Hn. destruct (Hf st) as (E1 & E2 & E3 & E4 & E5).
  unfold keeps, logged. rewrite E1, E2, E3, E4, E5. done.
Qed.

Lemma safe_record kind op within producer coverage data :
  fields_json data -> safe (record kind op within producer coverage data).
Proof.
  intros Hd st r st' [= <- <-] [Hl1 Hl2] Hn. split_and!; simpl; [|split|done].
  - split_and!; simpl; [done..|]. by apply prefix_app_r.
  - simpl. rewrite length_app. simpl. lia.
  - intros n l Hnl. simpl in *. apply lookup_app_Some in Hnl as [Hnl|[Hge Hnl]]; [by apply Hl2|].
    apply list_lookup_singleton_Some in Hnl as [Hz <-]. rewrite <- Hl1 in *.
    assert (n = length (output_ st)) as -> by lia.
    split; [by eexists _, _, _, _, _, _|by apply record_line_json].
Qed.

(** ** Every operation is safe *)

Lemma find_term_none (l : list Term) t : list_find (fun u => term_eqb u t = true) l = None -> t ∉ l.
Proof.
  intros Hn Hin. rewrite list_find_None, Forall_forall in Hn. apply (Hn _ Hin).
  by apply term_eqb_spec.
Qed.

Lemma find_term_some (l : list Term) t i u :
  list_find (fun u => term_eqb u t = true) l = Some (i, u) -> l !! i = Some t.
Proof. intros (Hl & Hu%term_eqb_spec & _)%list_find_Some. by subst. Qed.

Lemma find_term_registered (l : list Term) t i :
  NoDup l -> l !! i = Some t -> list_find (fun u => term_eqb u t = true) l = Some (i, t).
Proof.
  intros Hnd Hi. apply list_find_Some. split_and!; [done|by apply term_eqb_spec|].
  intros j u Hj Hlt Hu%term_eqb_spec. subst u. pose proof (NoDup_lookup _ _ _ _ Hnd Hi Hj). lia.
Qed.

Lemma term_fields_json run handle t rep l :
  json_value (lifted_sorts_json l) -> json_value (lifted_declarations_json l) ->
  fields_json (term_fields term_to_string term_ast_id run handle t rep l).
Proof.
  intros Hs Hd. unfold fields_json, term_fields.
  repeat (apply Forall_cons_2; [simpl; auto with json|]); [|by apply Forall_nil_2]. json_obj; auto with json.
Qed.

Lemma safe_term t rep : safe (term t rep).
Proof.
  intros st r st' E Hl Hn. unfold Recorder.term in E. unfold mbind at 1, RecM_bind, get_ at 1 in E. simpl in E.
  destruct (list_find _ (terms_ st)) as [[i u]|] eqn:Ef.
  { injection E as <- <-. done. }
  apply find_term_none in Ef. set (st1 := push_term t st) in *.
  assert (H1 : keeps st st1 /\ logged st1 /\ NoDup (terms_ st1)).
  { split_and!; simpl; [split_and!; simpl; [done..|by apply prefix_app_r|done]|done|].
    apply NoDup_app. split_and!; [done| |apply NoDup_singleton].
    intros u Hu ->%list_elem_of_singleton. done. }
  destruct H1 as (K1 & L1 & N1).
  destruct (lift_rainfall_term t false) as [l|e|] eqn:El; simpl in E;
    [|injection E as <- <-; done..].
  destruct (lift_json _ _ _ El) as [Hs Hd].
  assert (Hrest : safe (modify_ (push_text (lifted_text l)) ;;
    (run ← get_ run_;
     record "object" "term.declare" [] "fine.ast-registry"
        ("Fine-owned live Z3 term with canonical generated Fine rendering; exact reparse/reification is " +:+
         "deferred outside observer callbacks and required before run closure")
        (term_fields term_to_string term_ast_id run (length (terms_ st)) t rep l) ;;
     mret (term_reference (length (terms_ st)))))).
  { apply recording_bind; [by apply recording_modify|]. intros _. apply recording_bind; [apply safe_get|]. intros run.
    apply recording_bind; [by apply safe_record, term_fields_json|]. intros. apply recording_ret. }
  destruct (Hrest st1 r st' E L1 N1) as (K2 & L2 & N2). split_and!; [by etrans|done..].
Qed.

(** The handle [term] returns denotes the term. *)
Lemma term_result t rep st h st' :
  term t rep st = (Ok h, st') -> exists i, h = term_reference i /\ terms_ st' !! i = Some t.
Proof.
  unfold Recorder.term, mbind, RecM_bind. simpl.
  destruct (list_find _ (terms_ st)) as [[i u]|] eqn:Ef.
  { intros [= <- <-]. exists i. split; [done|]. by eapply find_term_some. }
  destruct (lift_rainfall_term t false) as [l|e|]; [|done..]. simpl. intros [= <- <-].
  exists (length (terms_ st)). split; [done|]. simpl. by rewrite list_lookup_middle.
Qed.

Lemma safe_validate_one handle t : safe (validate_one handle t).
Proof.
  apply recording_bind; [by apply recording_modify|]. intros _. apply recording_bind; [apply safe_outcome|]. intros l.
  apply recording_bind; [apply safe_get|]. intros texts. apply recording_bind; [apply safe_get|]. intros hashes.
  destruct (texts !! handle), (hashes !! handle); [|apply safe_throw..].
  destruct (negb _); [apply safe_throw|].
  apply recording_bind; [apply safe_record|intros; apply recording_ret].
  repeat (apply Forall_cons_2; [simpl; auto with json|]). by apply Forall_nil_2.
Qed.

Lemma safe_validate_loop fuel : safe (validate_loop fuel).
Proof.
  induction fuel as [|f IH]; simpl; (apply recording_bind; [apply safe_get|]; intros handle;
    apply recording_bind; [apply safe_get|]; intros terms; destruct (terms !! handle); [|apply recording_ret]).
  - apply safe_outcome.
  - apply recording_bind; [apply safe_validate_one|done].
Qed.

Lemma safe_validate_terms : safe validate_terms.
Proof. apply recording_bind; [apply safe_get|]. intros n. apply safe_validate_loop. Qed.

Lemma position_json_json p : json_value (position_json p).
Proof. unfold position_json. json_obj; auto with json. Qed.

Lemma span_json_json s : json_value (span_json s).
Proof. unfold span_json. json_obj; apply position_json_json. Qed.

Lemma safe_source_node id span kind : safe (source_node id span kind).
Proof.
  apply recording_bind; [apply safe_get|]. intros [s|]; [|apply safe_throw].
  apply recording_bind; [apply safe_get|]. intros nodes. destruct (nodes !! id); [apply recording_ret|].
  apply recording_bind; [by apply recording_modify|]. intros _. apply recording_bind; [apply safe_record|intros; apply recording_ret].
  repeat (apply Forall_cons_2; [simpl; auto using span_json_json with json|]). by apply Forall_nil_2.
Qed.

Lemma safe_source_term id span kind t c within : safe (source_term id span kind t c within).
Proof.
  apply recording_bind; [apply safe_source_node|]. intros source. apply recording_bind; [apply safe_term|]. intros ref.
  apply recording_bind; [apply safe_record|intros; apply recording_ret].
  repeat (apply Forall_cons_2; [simpl; auto with json|]). by apply Forall_nil_2.
Qed.

Lemma safe_remember q i e : safe (remember_quantifier_instance q i e).
Proof.
  apply recording_bind; [apply safe_get|]. intros pending.
  destruct (pending !! _); [apply safe_throw|by apply recording_modify].
Qed.

Lemma safe_take q i : safe (take_quantifier_instance q i).
Proof.
  apply recording_bind; [apply safe_get|]. intros pending. destruct (pending !! _); [|apply recording_ret].
  apply recording_bind; [by apply recording_modify|intros; apply recording_ret].
Qed.

(** ** Sequences of calls *)

Inductive Op :=
| OpRecord (kind operation : string) (within : list string) (producer coverage : string)
           (data : list RainfallField)
| OpTerm (t : Term) (representation : string)
| OpValidate
| OpSourceNode (id : nat) (span : SourceSpan) (kind : string)
| OpSourceTerm (id : nat) (span : SourceSpan) (kind : string) (t : Term) (correspondence : string)
               (within : list string)
| OpRemember (quantifier instance event : string)
| OpTake (quantifier instance : string).

(** The recorder after a call, whether it returned or threw. *)
Definition exec (op : Op) (st : Recorder) : Recorder :=
  match op with
  | OpRecord k o w p c d => snd (record k o w p c d st)
  | OpTerm t rep => snd (term t rep st)
  | OpValidate => snd (validate_terms st)
  | OpSourceNode id span k => snd (source_node id span k st)
  | OpSourceTerm id span k t c w => snd (source_term id span k t c w st)
  | OpRemember q i e => snd (remember_quantifier_instance q i e st)
  | OpTake q i => snd (take_quantifier_instance q i st)
  end.

(** Callers of [record] pass fields that are JSON already. *)
Definition op_ok (op : Op) : Prop :=
  match op with OpRecord _ _ _ _ _ d => fields_json d | _ => True end.

Definition exec_all (ops : list Op) (st : Recorder) : Recorder := fold_left (fun st op => exec op st) ops st.

Lemma safe_run {A} (p : RecM A) st : safe p -> logged st -> NoDup (terms_ st) ->
  keeps st (snd (p st)) /\ logged (snd (p st)) /\ NoDup (terms_ (snd (p st))).
Proof. intros Hp. destruct (p st) as [r st'] eqn:E. by apply (Hp st r). Qed.

Lemma exec_safe op st : op_ok op -> logged st -> NoDup (terms_ st) ->
  keeps st (exec op st) /\ logged (exec op st) /\ NoDup (terms_ (exec op st)).
Proof.
  destruct op; cbv [exec]; intros Hok; apply safe_run;
    auto using safe_record, safe_term, safe_validate_terms, safe_source_node, safe_source_term,
      safe_remember, safe_take.
Qed.

Lemma exec_all_safe ops st : Forall op_ok ops -> logged st -> NoDup (terms_ st) ->
  keeps st (exec_all ops st) /\ logged (exec_all ops st) /\ NoDup (terms_ (exec_all ops st)).
Proof.
  intros Hops; revert st; induction Hops as [|op ops Hop Hops IH]; intros st Hl Hn; simpl; [done|].
  destruct (exec_safe op st Hop Hl Hn) as (K1 & L1 & N1). destruct (IH _ L1 N1) as (K2 & L2 & N2).
  split_and!; [by etrans|done..].
Qed.

Lemma make_recorder_safe random run snapshot :
  let st := make_recorder random run snapshot in logged st /\ NoDup (terms_ st).
Proof.
  simpl. unfold make_recorder. set (st0 := mkRecorder _ _ _ _ _ _ _ _ _ _).
  assert (Hl : logged st0 /\ NoDup (terms_ st0)) by (split; [split; [done|intros n l Hnl; by apply list_elem_of_lookup_2, elem_of_nil in Hnl]|constructor]).
  destruct Hl as [Hl Hn]. destruct snapshot as [s|]; [|done].
  match goal with |- logged (snd (?p st0)) /\ _ => destruct (safe_run p st0) as (_ & ? & ?); [|done..] end.
  apply recording_bind; [apply safe_record|intros _; apply safe_record].
  - repeat (apply Forall_cons_2; [simpl; auto with json|]). by apply Forall_nil_2.
  - repeat (apply Forall_cons_2; [simpl; auto with json|]); [|by apply Forall_nil_2].
    unfold snapshot_identity. json_obj; auto with json.
Qed.
End Spec.

(** ** Registered terms *)

Section Registered.
Context `{Z3Laws} (term_to_string : Term -> string) (term_ast_id : Term -> N).
Abbreviation term := (term term_to_string term_ast_id).
Abbreviation source_term := (source_term term_to_string term_ast_id).
Abbreviation exec := (exec term_to_string term_ast_id).
Abbreviation exec_all := (exec_all term_to_string term_ast_id).

(** Every registered term is liftable and its rendering is on file. *)
Record registered (st : Recorder) : Prop := {
  reg_texts : length (lifted_texts_ st) = length (terms_ st);
  reg_hashes : length (lifted_text_hashes_ st) = length (terms_ st);
  reg_validated : validated_terms_ st <= length (terms_ st);
  reg_terms i t : terms_ st !! i = Some t ->
    exists l, (forall b, lift_rainfall_term t b = Ok l) /\ lifted_texts_ st !! i = Some (lifted_text l) /\
              lifted_text_hashes_ st !! i = Some (exact_content_hash (lifted_text l))
}.

Definition preserves {A} (p : RecM A) : Prop := forall st r st',
  p st = (r, st') -> registered st -> registered st'.

Lemma pres_bind {A B} (p : RecM A) (k : A -> RecM B) :
  preserves p -> (forall a, preserves (k a)) -> preserves (p ≫= k).
Proof.
  intros Hp Hk st r st' E Hr. unfold mbind, RecM_bind in E.
  destruct (p st) as [[a|e|] st1] eqn:E1; [by eapply Hk; [|eapply Hp]|injection E as <- <-; by eapply Hp..].
Qed.

Lemma pres_same {A} (p : RecM A) :
  (forall st, let st' := snd (p st) in
     terms_ st' = terms_ st /\ lifted_texts_ st' = lifted_texts_ st /\
     lifted_text_hashes_ st' = lifted_text_hashes_ st /\ validated_terms_ st' = validated_terms_ st) ->
  preserves p.
Proof.
  intros Hp st r st' E [H1a H2a H3a H4a]. specialize (Hp st). rewrite E in Hp. simpl in Hp.
  destruct Hp as (E1 & E2 & E3 & E4). split; rewrite ?E1, ?E2, ?E3, ?E4; done.
Qed.

(** A new liftable term is registered with its rendering. *)
Lemma term_registered t rep st :
  liftable [] t = true -> live t -> registered st ->
  exists h st', term t rep st = (Ok h, st') /\ registered st'.
Proof.
  intros Hok Hlive Hr. unfold Recorder.term. unfold mbind at 1, RecM_bind, get_ at 1. simpl.
  destruct (list_find _ (terms_ st)) as [[i u]|] eqn:Ef; [by eexists _, _|].
  destruct (lift_total t Hok Hlive) as (l & r & Hl & _). rewrite (Hl false). eexists _, _. split; [done|].
  destruct Hr as [H1a H2a H3a H4a]. split; simpl; [rewrite !length_app; simpl; lia..|].
  intros i u Hi. apply lookup_app_Some in Hi as [Hi|[Hge Hi]].
  - destruct (H4a i u Hi) as (l' & ? & ? & ?). exists l'. split_and!; [done|by apply lookup_app_l_Some..].
  - apply list_lookup_singleton_Some in Hi as [Hz <-]. exists l.
    assert (Ei : i = length (terms_ st)) by lia. subst i. split_and!; [done|..].
    + by rewrite <- H1a, list_lookup_middle.
    + by rewrite <- H2a, list_lookup_middle.
Qed.

(** Validating one registered term records it and moves on. *)
Lemma validate_one_registered st t :
  registered st -> terms_ st !! validated_terms_ st = Some t ->
  exists hash, lifted_text_hashes_ st !! validated_terms_ st = Some hash /\
    validate_one (validated_terms_ st) t st =
      (Ok tt, snd (record "derive" "term.lift.validate" [] "fine.generated-term-parser"
          ("Canonical generated Fine term reparsed against its exact manager-local sort and declaration " +:+
           "bindings and reified to the identical live Z3 AST")
          (validation_fields (validated_terms_ st) hash) (bump_validated st))).
Proof.
  intros Hr Ht. destruct (reg_terms _ Hr _ _ Ht) as (l & Hl & Htext & Hhash). eexists. split; [done|].
  unfold validate_one. unfold mbind, RecM_bind. simpl. rewrite (Hl true). simpl. rewrite Htext, Hhash.
  by rewrite String.eqb_refl.
Qed.

(** The validation records of the handles from [v] on. *)
Fixpoint validation_lines (run : string) (seq v : nat) (hashes : list string) : list string :=
  match hashes with
  | [] => []
  | hash :: hashes =>
      record_line run seq "derive" "term.lift.validate" [] "fine.generated-term-parser"
        ("Canonical generated Fine term reparsed against its exact manager-local sort and declaration " +:+
         "bindings and reified to the identical live Z3 AST") (validation_fields v hash) ::
      validation_lines run (S seq) (S v) hashes
  end.

Lemma validate_loop_registered fuel st :
  registered st -> length (terms_ st) - validated_terms_ st <= fuel ->
  exists st', validate_loop fuel st = (Ok tt, st') /\ registered st' /\ terms_ st' = terms_ st /\
    validated_terms_ st' = length (terms_ st) /\
    output_ st' = output_ st ++ validation_lines (run_ st) (sequence_ st) (validated_terms_ st)
                    (drop (validated_terms_ st) (lifted_text_hashes_ st)).
Proof.
  revert st; induction fuel as [|f IH]; intros st Hr Hf; pose proof (reg_validated _ Hr);
    pose proof (reg_hashes _ Hr); cbn [validate_loop]; unfold mbind at 1, RecM_bind, get_ at 1;
    unfold mbind at 1, RecM_bind, get_ at 1; cbn iota beta.
  - rewrite lookup_ge_None_2 by lia. exists st. rewrite drop_ge by lia.
    split_and!; [done|done|done|lia|by rewrite app_nil_r].
  - destruct (terms_ st !! validated_terms_ st) as [t|] eqn:Ht.
    + destruct (validate_one_registered st t Hr Ht) as (hash & Hh & Hv).
      unfold mbind at 1. rewrite Hv. set (st1 := snd (record _ _ _ _ _ _ _)).
      apply lookup_lt_Some in Ht as Hlt.
      assert (Hr1 : registered st1).
      { destruct Hr as [H1a H2a H3a H4a]. split; simpl; [done|done|lia|done]. }
      destruct (IH st1 Hr1) as (st2 & E2 & Hr2 & Ht2 & Hv2 & Ho2); [simpl; lia|].
      exists st2. split_and!; [done|done|done|done|]. rewrite Ho2. simpl. rewrite <- app_assoc.
      by rewrite (drop_S _ _ _ Hh).
    + apply lookup_ge_None in Ht. exists st. rewrite drop_ge by lia.
      split_and!; [done|done|done|lia|by rewrite app_nil_r].
Qed.

(** ** Sequences of calls on liftable terms *)

Definition op_liftable (op : Op) : Prop :=
  match op with
  | OpTerm t _ | OpSourceTerm _ _ _ t _ _ => liftable [] t = true /\ live t
  | _ => True
  end.

Lemma validate_loop_preserves fuel : preserves (validate_loop fuel).
Proof.
  intros st r st' E Hr. destruct (decide (length (terms_ st) - validated_terms_ st <= fuel)) as [Hf|Hf].
  - destruct (validate_loop_registered fuel st Hr Hf) as (st2 & E2 & Hr2 & _). congruence.
  - clear Hf. revert st E Hr. induction fuel as [|f IH]; intros st; cbn [validate_loop];
      unfold mbind at 1, RecM_bind, get_ at 1; unfold mbind at 1, RecM_bind, get_ at 1; cbn iota beta;
      destruct (terms_ st !! validated_terms_ st) as [t|] eqn:Ht; try (by intros [= <- <-]).
    intros E Hr. destruct (validate_one_registered st t Hr Ht) as (hash & Hh & Hv).
    unfold mbind at 1 in E. rewrite Hv in E. eapply IH; [exact E|]. apply lookup_lt_Some in Ht.
    destruct Hr as [H1a H2a H3a H4a]. split; simpl; [done|done|lia|done].
Qed.

Lemma exec_registered op st : op_liftable op -> registered st -> registered (exec op st).
Proof.
  assert (Hrun : forall A (p : RecM A), preserves p -> registered st -> registered (snd (p st))).
  { intros A p Hp. destruct (p st) as [r st'] eqn:E. by apply (Hp st r). }
  assert (Hterm : forall t rep, liftable [] t = true -> live t -> preserves (term t rep)).
  { intros t rep Hok Hlive st0 r st' E Hr. destruct (term_registered t rep st0 Hok Hlive Hr) as (h & st2 & E2 & ?).
    congruence. }
  assert (Hnode : forall id span k, preserves (source_node id span k)).
  { intros id span k. apply pres_same. intros st0. unfold source_node, mbind, RecM_bind. simpl.
    destruct (snapshot_ st0); simpl; [|done]. by destruct (source_nodes_ st0 !! id). }
  destruct op; cbv [RecorderSpec.exec]; intros Hok; apply Hrun.
  - by apply pres_same.
  - apply Hterm; apply Hok.
  - apply pres_bind; [by apply pres_same|]. intros n. apply validate_loop_preserves.
  - apply Hnode.
  - apply pres_bind; [apply Hnode|]. intros s. apply pres_bind; [apply Hterm; apply Hok|]. intros ref.
    apply pres_bind; [by apply pres_same|]. intros e. by apply pres_same.
  - apply pres_same. intros st0. unfold remember_quantifier_instance, mbind, RecM_bind. simpl.
    by destruct (pending_quantifier_instances_ st0 !! _).
  - apply pres_same. intros st0. unfold take_quantifier_instance, mbind, RecM_bind. simpl.
    by destruct (pending_quantifier_instances_ st0 !! _).
Qed.

Lemma exec_all_registered ops st : Forall op_liftable ops -> registered st -> registered (exec_all ops st).
Proof.
  intros Hops; revert st; induction Hops as [|op ops Hop Hops IH]; intros st Hr; simpl; [done|].
  apply IH. by apply exec_registered.
Qed.

Lemma make_recorder_registered random run snapshot : registered (make_recorder random run snapshot).
Proof. unfold make_recorder. destruct snapshot; split; simpl; try done; lia. Qed.
End Registered.

(** ** The guarantees *)

(** C18. After any sequence of calls, returning or throwing, the recording is
    well formed: as many lines as the sequence counter says, line [n] being
    the record numbered [n] of this run, valid JSON, and free of control
    characters, so that each record is exactly one line. *)
Theorem recording_well_formed `{Z3Api} (term_to_string : Term -> string) (term_ast_id : Term -> N)
    (random : list N) (run : string) (snapshot : option SourceSnapshot) (ops : list Op) :
  Forall op_ok ops ->
  let st := exec_all term_to_string term_ast_id ops (make_recorder random run snapshot) in
  length (output_ st) = sequence_ st /\
  forall n l, output_ st !! n = Some l ->
    (exists kind op within producer coverage data,
       l = record_line (run_ st) n kind op within producer coverage data) /\
    json_value l /\ all_chars printable_char l = true.
Proof.
  intros Hops st. destruct (make_recorder_safe random run snapshot) as [Hl Hn].
  destruct (exec_all_safe term_to_string term_ast_id ops _ Hops Hl Hn) as (_ & [H1a H2a] & _).
  split; [done|]. intros n l Hnl. destruct (H2a n l Hnl) as [? Hj]. split_and!; [done..|].
  by apply json_printable.
Qed.

(** C17. A handle is the identity of its term for the whole run: once [term]
    returned [h] for [t], after any further calls it returns [h] for [t]
    again without writing anything, and never [h] for another term. *)
Theorem term_handle_stable `{Z3Api} (term_to_string : Term -> string) (term_ast_id : Term -> N)
    (random : list N) (run : string) (snapshot : option SourceSnapshot) (before after : list Op)
    (t u : Term) (r r' r'' h h' : string) (st1 st3 : Recorder) :
  Forall op_ok before -> Forall op_ok after ->
  term term_to_string term_ast_id t r
    (exec_all term_to_string term_ast_id before (make_recorder random run snapshot)) = (Ok h, st1) ->
  let st2 := exec_all term_to_string term_ast_id after st1 in
  term term_to_string term_ast_id t r' st2 = (Ok h, st2) /\
  (term term_to_string term_ast_id u r'' st2 = (Ok h', st3) -> u <> t -> h' <> h).
Proof.
  intros Hbefore Hafter E st2. destruct (make_recorder_safe random run snapshot) as [Hl0 Hn0].
  destruct (exec_all_safe term_to_string term_ast_id before _ Hbefore Hl0 Hn0) as (_ & Hl & Hn).
  destruct (safe_term term_to_string term_ast_id t r _ _ _ E Hl Hn) as (_ & Hl1 & Hn1).
  destruct (term_result _ _ _ _ _ _ _ E) as (i & -> & Hi).
  destruct (exec_all_safe term_to_string term_ast_id after st1 Hafter Hl1 Hn1) as ((_ & _ & Hpre & _) & Hl2 & Hn2).
  pose proof (prefix_lookup_Some _ _ _ _ Hi Hpre) as Hi2. fold st2 in Hi2, Hn2. split.
  - unfold term, mbind, RecM_bind. simpl. by rewrite (find_term_registered _ t i Hn2 Hi2).
  - intros Eu Hne. pose proof (safe_term _ _ _ _ _ _ _ Eu Hl2 Hn2) as ((_ & _ & Hpre3 & _) & _ & Hn3).
    destruct (term_result _ _ _ _ _ _ _ Eu) as (j & -> & Hj). intros Eh. apply append_inv_head in Eh.
    apply to_string_inj in Eh. subst j. pose proof (prefix_lookup_Some _ _ _ _ Hi2 Hpre3). congruence.
Qed.

(** C16. Exact validation never fails late: after any calls whose terms are
    liftable, [validate_terms] returns, every term is validated, one record
    per term not validated before is appended in handle order, and a second
    call changes nothing. *)
Theorem validate_terms_total `{Z3Laws} (term_to_string : Term -> string) (term_ast_id : Term -> N)
    (random : list N) (run : string) (snapshot : option SourceSnapshot) (ops : list Op) :
  Forall op_liftable ops ->
  let st := exec_all term_to_string term_ast_id ops (make_recorder random run snapshot) in
  exists st', validate_terms st = (Ok tt, st') /\ validated_terms_ st' = length (terms_ st) /\
    terms_ st' = terms_ st /\
    output_ st' = output_ st ++ validation_lines (run_ st) (sequence_ st) (validated_terms_ st)
                    (drop (validated_terms_ st) (lifted_text_hashes_ st)) /\
    validate_terms st' = (Ok tt, st').
Proof.
  intros Hops st. assert (Hr : registered st) by (apply exec_all_registered; [done|apply make_recorder_registered]).
  destruct (validate_loop_registered (length (terms_ st)) st Hr) as (st' & E & Hr' & Ht & Hv & Ho); [lia|].
  exists st'. split_and!; [done..|]. unfold validate_terms, mbind, RecM_bind. simpl.
  destruct (length (terms_ st')); simpl; unfold mbind, RecM_bind; simpl;
    by rewrite lookup_ge_None_2 by (rewrite Hv, Ht; lia).
Qed.

(** C30. An accepted quantifier instance is consumed at most once: after it
    is remembered, a duplicate is refused, the first [take] returns its event
    and leaves the table as it was before, and a second [take] finds nothing. *)
Theorem quantifier_instance_once `{Z3Api} (q i e e' : string) (st : Recorder) :
  pending_quantifier_instances_ st !! (q, i) = None ->
  let st1 := snd (remember_quantifier_instance q i e st) in
  remember_quantifier_instance q i e st = (Ok tt, st1) /\
  remember_quantifier_instance q i e' st1 = (Err "duplicate pending Rainfall quantifier instance", st1) /\
  take_quantifier_instance q i st1 = (Ok (Some e), st) /\
  take_quantifier_instance q i st = (Ok None, st).
Proof.
  intros Hn. unfold remember_quantifier_instance, take_quantifier_instance, mbind, RecM_bind. simpl.
  rewrite Hn. simpl. rewrite lookup_insert_eq. simpl. split_and!; [done..| |done].
  rewrite delete_insert_id by done. by destruct st.
Qed.

(** ** Witnesses on the concrete manager *)

Module RecorderSample.
Import Structural.

Definition text_of (_ : Term) : string := "diagnostic".
Definition id_of (_ : Term) : N := 3%N.
Definition ops : list Op :=
  [OpTerm LiftSample.sample "semantic-z3"; OpRemember "term:0" "term:1" "event:0"; OpValidate;
   OpTerm LiftSample.five "z3-cdcl-clause-literal"].
Definition start : Recorder := make_recorder [] "run:sample" None.
Definition after_ops : Recorder := exec_all text_of id_of ops start.

Lemma recording_well_formed_witness :
  sequence_ after_ops = 3 /\ length (output_ after_ops) = sequence_ after_ops.
Proof.
  split; [vm_compute; reflexivity|].
  apply (recording_well_formed text_of id_of [] "run:sample" None ops). repeat constructor.
Defined.

Lemma term_handle_stable_witness :
  let st1 := snd (term text_of id_of LiftSample.sample "a" after_ops) in
  term text_of id_of LiftSample.sample "b" (exec_all text_of id_of ops st1) =
    (Ok "term:0", exec_all text_of id_of ops st1).
Proof.
  intros st1.
  apply (term_handle_stable text_of id_of [] "run:sample" None ops ops LiftSample.sample LiftSample.five
           "a" "b" "c" "term:0" "term:1" st1 st1); [repeat constructor..|].
  vm_compute. reflexivity.
Defined.

Lemma validate_terms_total_witness :
  exists st', validate_terms after_ops = (Ok tt, st') /\ validated_terms_ st' = 2.
Proof.
  destruct (validate_terms_total text_of id_of [] "run:sample" None ops) as (st' & E & Hv & _).
  - repeat constructor; vm_compute; reflexivity.
  - exists st'. split; [exact E|]. rewrite Hv. vm_compute. reflexivity.
Defined.

Lemma quantifier_instance_once_witness :
  take_quantifier_instance "q" "i" (snd (remember_quantifier_instance "q" "i" "e" start)) =
    (Ok (Some "e"), start).
Proof. apply (quantifier_instance_once "q" "i" "e" "e'" start). vm_compute. reflexivity. Defined.
End RecorderSample.
