(* ===== verification/Observers.v ===== *)
(** * Observers that feed the recorder
    (src/src/fine/quantifier_observer.cpp, clause_observer.cpp,
    fixedpoint_observer.cpp, internal_rewrite.cpp)

    Z3 calls [on_binding] for an accepted quantifier instance and later
    [on_clause] for the clause it became; the recorder's table pairs the two.
    Spacer's callbacks must not throw: [guarded] keeps the first exception. *)

From stdpp Require Import gmap.
From S2P Require Import Prelude Format Json Syntax Source Z3Ast Lift LiftRegistry LiftRead LiftSpec Recorder RecorderSpec.
From Stdlib Require Import NArith.

(** [z3::symbol::str]: [Z3_get_symbol_string]. *)
Definition symbol_name (s : Symbol) : string :=
  match s with
  | SNull => "<null>"
  | SInt n => decimal n
  | SString v => c_str v
  end.

Definition number_array (values : list nat) : string := arr (to_string <$> values).

Section Observers.
Context `{Z3Api} (term_to_string : Term -> string) (term_ast_id : Term -> N).
Let term : Term -> string -> RecM string := Recorder.term term_to_string term_ast_id.

Fixpoint terms (l : list Term) (representation : string) : RecM (list string) :=
  match l with
  | [] => mret []
  | t :: l => r ← term t representation; rs ← terms l representation; mret (r :: rs)
  end.

(** ** Accepted quantifier instances *)

Record QuantifierObserver := mkQuantifierObserver {
  q_within : list string;
  ematching_enabled : bool;
  mbqi_enabled : bool
}.

Definition quantifier_id (t : Term) : Symbol :=
  match t with Quant _ _ q _ _ _ _ _ => q | _ => SNull end.

Definition source_role (t : Term) : string :=
  match quantifier_id t with SInt _ => "unlabelled" | s => symbol_name s end.

Definition instantiation_engine (o : QuantifierObserver) : string :=
  if ematching_enabled o && negb (mbqi_enabled o) then "ematching-only-query"
  else if negb (ematching_enabled o) && mbqi_enabled o then "mbqi-only-query"
  else "not-distinguished".

Definition binding_fields (o : QuantifierObserver) (q_ref i_ref : string) (quantifier : Term)
    : list RainfallField :=
  [string_field "quantifier" q_ref; string_field "instance" i_ref;
   string_field "source_role" (source_role quantifier);
   string_field "instantiation_engine" (instantiation_engine o);
   boolean_field "ematching" (ematching_enabled o); boolean_field "mbqi" (mbqi_enabled o);
   string_field "relation" "quantifier-body-under-ground-binding"].

Definition binding_coverage : string :=
  "Accepted nontrivial quantifier instances after redundancy and rewrite-to-true rejection, before lemma insertion; discarded candidates and auxiliary-context search are not exposed, and engine attribution is made only when this query disables the competing instantiation engine".

(** The observer of a fresh internal context has no recorder ([None]). *)
Definition on_binding (observer : option QuantifierObserver) (quantifier instance : Term) : RecM bool :=
  match observer with
  | None => mret true
  | Some o =>
      q_ref ← term quantifier "semantic-z3";
      i_ref ← term instance "semantic-z3";
      event ← record "derive" (if ematching_enabled o then "z3.quantifier-instance" else "z3.mbqi-instance")
                (q_within o) "z3.qi_queue.on_binding" binding_coverage
                (binding_fields o q_ref i_ref quantifier);
      remember_quantifier_instance q_ref i_ref event ;;
      mret true
  end.

(** ** Clauses *)

Definition hint_operation (head : string) : string :=
  if (head =? "assumption")%string then "z3.clause.assume"
  else if (head =? "del")%string then "z3.clause.delete" else "z3.clause.infer".
Definition hint_kind (head : string) : string :=
  if (head =? "assumption")%string then "constraint"
  else if (head =? "del")%string then "transition" else "derive".
Definition hint_action (head : string) : string :=
  if (head =? "assumption")%string then "assumed"
  else if (head =? "del")%string then "deleted" else "inferred".

Definition clause_fields (head hint_ref : string) (literals : list string) (dependencies : list nat)
    : list RainfallField :=
  [string_field "action" (hint_action head); string_field "proof_hint" hint_ref;
   string_field "proof_hint_head" head; raw_field "literals" (string_array literals);
   number_field "literal_count" (length literals);
   raw_field "dependency_indices" (number_array dependencies)].

Definition instance_fields (accepted q_ref i_ref : string) (bindings : list string) : list RainfallField :=
  [string_field "quantifier_instance_event" accepted; string_field "quantifier" q_ref;
   string_field "instance" i_ref; raw_field "ground_bindings" (string_array bindings);
   string_field "relation" "accepted-instance-became-admitted-clause"].

(** The negated instance and the bindings of an [inst] hint. *)
Definition inst_shape (negated bindings : Term) : option (Term * list Term) :=
  match negated, bindings with
  | App d [instance], App b bs =>
      if bool_decide (decl_kind d = OP_NOT) && (symbol_name (decl_name b) =? "bind")%string
      then Some (instance, bs) else None
  | _, _ => None
  end.

(** The fields that join an [inst] clause to its accepted instance. *)
Definition join_instance (head : string) (args : list Term) : RecM (list RainfallField) :=
  match args with
  | quantifier :: negated :: bindings :: _ =>
      if (head =? "inst")%string then
        match inst_shape negated bindings with
        | None => throw_ "unexpected Z3 inst proof-hint shape"
        | Some (instance, bs) =>
            q_ref ← term quantifier "semantic-z3";
            i_ref ← term instance "semantic-z3";
            accepted ← take_quantifier_instance q_ref i_ref;
            match accepted with
            | None => throw_ "quantifier lemma has no exact accepted-instance evidence"
            | Some event =>
                b_refs ← terms bs "semantic-z3";
                mret (instance_fields event q_ref i_ref b_refs)
            end
        end
      else mret []
  | _ => mret []
  end.

Definition clause_coverage : string :=
  "Clauses admitted to or removed from CDCL(T) through Z3's public on-clause callback after preprocessing; inst proof hints are joined to the exact accepted qi_queue event and ground terms, but rejected candidates, assignments, decisions, watched-literal activity, and causal contribution to the final result remain outside this boundary".

Definition on_clause (within : list string) (proof_hint : Term) (dependencies : list nat)
    (clause : list Term) : RecM unit :=
  match proof_hint with
  | App d args =>
      let head := symbol_name (decl_name d) in
      literals ← terms clause "z3-cdcl-clause-literal";
      hint_ref ← term proof_hint "z3-clause-proof-hint";
      joined ← join_instance head args;
      record (hint_kind head) (hint_operation head) within "z3.solver.on_clause" clause_coverage
        (clause_fields head hint_ref literals dependencies ++ joined) ;;
      mret tt
  | _ => throw_ "proof hint is not an application"
  end.

(** ** Fixedpoint callbacks *)

Record FixedpointObserver := mkFixedpointObserver {
  f_within : list string;
  failure_ : option string;
  predecessor_count_ : nat;
  unfold_count_ : nat
}.

(** The observer and the recorder it refers to. *)
Definition FState : Type := FixedpointObserver * Recorder.

(** A callback: it may change the observer before it throws. *)
Definition Callback : Type := FState -> outcome string unit * FState.

(** An exhausted fuel cannot be caught; it stays visible. *)
Definition guarded (callback : Callback) (st : FState) : outcome string FState :=
  match failure_ st.1 with
  | Some _ => Ok st
  | None =>
      match callback st with
      | (Ok _, st') => Ok st'
      | (Err e, (o, r)) =>
          Ok (mkFixedpointObserver (f_within o) (Some e) (predecessor_count_ o) (unfold_count_ o), r)
      | (Diverge, _) => Diverge
      end
  end.

Definition with_recorder {A} (p : FixedpointObserver -> RecM A) : Callback := fun '(o, r) =>
  match p o r with
  | (Ok _, r') => (Ok tt, (o, r'))
  | (Err e, r') => (Err e, (o, r'))
  | (Diverge, r') => (Diverge, (o, r'))
  end.

Definition on_lemma (lemma : Term) (level : nat) : FState -> outcome string FState :=
  guarded (with_recorder (fun o =>
    ref ← term lemma "semantic-z3";
    record "derive" "z3.spacer.lemma-export" (f_within o) "z3.fixedpoint.new-lemma-callback"
      "Spacer lemma exported through the public fixedpoint callback after addition or duplicate encounter; duplicates are possible and export does not establish causal contribution to the final result"
      [string_field "lemma" ref; number_field "level" level;
       string_field "relation" "learned-constraint-on-relation"])).

Definition on_predecessor : FState -> outcome string FState :=
  guarded (fun '(o, r) =>
    let o := mkFixedpointObserver (f_within o) (failure_ o) (S (predecessor_count_ o)) (unfold_count_ o) in
    with_recorder (fun o => record "transition" "z3.spacer.predecessor" (f_within o)
      "z3.fixedpoint.predecessor-callback"
      "Spacer crossed its public predecessor-search callback; the callback carries no rule, term, or success payload"
      [number_field "ordinal" (predecessor_count_ o)]) (o, r)).

Definition on_unfold : FState -> outcome string FState :=
  guarded (fun '(o, r) =>
    let o := mkFixedpointObserver (f_within o) (failure_ o) (predecessor_count_ o) (S (unfold_count_ o)) in
    with_recorder (fun o => record "transition" "z3.spacer.unfold" (f_within o)
      "z3.fixedpoint.unfold-callback"
      "Spacer crossed its public unfold callback; the callback carries no relation, rule, or generated obligation"
      [number_field "ordinal" (unfold_count_ o)]) (o, r)).

Definition rethrow_if_failed (o : FixedpointObserver) : outcome string unit :=
  match failure_ o with Some e => Err e | None => Ok tt end.

(** ** Theory rewrites *)

Definition on_rewrite (within : list string) (before after : Term) (family declaration status : string)
    : RecM string :=
  before_ref ← term before "semantic-z3";
  after_ref ← term after "semantic-z3";
  record "transform" "z3.theory-rewrite" within "z3.th_rewriter.reduce_app"
    "Successful builtin theory application reductions after child rewriting; excludes substitutions, variables, quantifiers, other rewriter instantiations, and solver search"
    [string_field "before" before_ref; string_field "after" after_ref; string_field "family" family;
     string_field "declaration" declaration; string_field "continuation" status;
     string_field "relation" "theory-equivalent"].
End Observers.
