(* ===== verification/ObserversSpec.v ===== *)
(** * Clauses are joined to accepted instances by evidence, once *)

From stdpp Require Import gmap.
From S2P Require Import Prelude Format Json Syntax Source Z3Ast Lift LiftRegistry LiftRead LiftSpec Recorder RecorderSpec Observers.
From Stdlib Require Import NArith.

Section Joins.
Context `{Z3Laws} (term_to_string : Term -> string) (term_ast_id : Term -> N).
Abbreviation term := (Recorder.term term_to_string term_ast_id).
Abbreviation terms := (Observers.terms term_to_string term_ast_id).
Abbreviation exec_all := (exec_all term_to_string term_ast_id).
Abbreviation on_binding := (on_binding term_to_string term_ast_id).
Abbreviation on_clause := (on_clause term_to_string term_ast_id).

(** A recorder in use. *)
Definition recording (st : Recorder) : Prop := logged st /\ NoDup (terms_ st) /\ registered st.

(** A call that leaves the table of pending instances alone. *)
Definition proceeds (st st' : Recorder) : Prop :=
  recording st' /\ keeps st st' /\
  pending_quantifier_instances_ st' = pending_quantifier_instances_ st.

Lemma proceeds_trans a b c : proceeds a b -> proceeds b c -> proceeds a c.
Proof. intros (? & ? & E1) (? & ? & E2). split_and!; [done|by etrans|by rewrite E2]. Qed.

Definition good_term (t : Term) : Prop := liftable [] t = true /\ live t.

Lemma term_pending t rep st r st' : term t rep st = (r, st') ->
  pending_quantifier_instances_ st' = pending_quantifier_instances_ st.
Proof.
  unfold Recorder.term, mbind, RecM_bind. simpl. destruct (list_find _ _) as [[i u]|]; [by intros [= _ <-]|].
  destruct (lift_rainfall_term t false); intros [= _ <-]; done.
Qed.

Lemma term_proceeds t rep st : good_term t -> recording st ->
  exists i st', term t rep st = (Ok (term_reference i), st') /\ proceeds st st' /\ terms_ st' !! i = Some t.
Proof.
  intros [Hok Hlive] (Hl & Hn & Hr).
  destruct (term_registered term_to_string term_ast_id t rep st Hok Hlive Hr) as (h & st' & E & Hr').
  destruct (term_result _ _ _ _ _ _ _ E) as (i & -> & Hi). exists i, st'. split; [done|].
  destruct (safe_term _ _ _ _ _ _ _ E Hl Hn) as (K & L & N). split; [|done].
  split_and!; [done|done|by eapply term_pending].
Qed.

Lemma terms_proceeds l rep st : Forall good_term l -> recording st ->
  exists refs st', terms l rep st = (Ok refs, st') /\ proceeds st st'.
Proof.
  intros Hl; revert st; induction Hl as [|t l Ht Hl IH]; intros st Hst; simpl.
  { exists [], st. by split_and!. }
  destruct (term_proceeds t rep st Ht Hst) as (i & st1 & E1 & P1 & _).
  destruct (IH st1) as (refs & st2 & E2 & P2); [apply P1|].
  exists (term_reference i :: refs), st2. split; [|by eapply proceeds_trans].
  unfold mbind, RecM_bind. by rewrite E1, E2.
Qed.

(** A registered term keeps its handle, and asking for it changes nothing. *)
Lemma term_again t rep st i : recording st -> terms_ st !! i = Some t ->
  term t rep st = (Ok (term_reference i), st).
Proof.
  intros (_ & Hn & _) Hi. unfold Recorder.term, mbind, RecM_bind. simpl.
  by rewrite (find_term_registered _ t i Hn Hi).
Qed.

Lemma record_proceeds k o w p c d st : fields_json d -> recording st ->
  exists st', record k o w p c d st = (Ok ("event:" +:+ to_string (length (output_ st))), st') /\ proceeds st st' /\
    terms_ st' = terms_ st /\
    output_ st' = output_ st ++ [record_line (run_ st) (length (output_ st)) k o w p c d].
Proof.
  intros Hd (Hl & Hn & Hr). destruct (safe_record k o w p c d Hd st _ _ eq_refl Hl Hn) as (K & L & N).
  destruct Hl as [Hlen _]. eexists. rewrite Hlen. split; [done|]. split; [|done].
  split; [|by split]. split; [done|]. split; [done|]. destruct Hr as [H1a H2a H3a H4a]. by split.
Qed.

Definition keeps_pending (op : Op) : Prop :=
  match op with OpRemember _ _ _ | OpTake _ _ => False | _ => True end.

Lemma same_pending_bind {A B} (p : RecM A) (k : A -> RecM B) :
  (forall st, pending_quantifier_instances_ (snd (p st)) = pending_quantifier_instances_ st) ->
  (forall a st, pending_quantifier_instances_ (snd (k a st)) = pending_quantifier_instances_ st) ->
  forall st, pending_quantifier_instances_ (snd ((p ≫= k) st)) = pending_quantifier_instances_ st.
Proof.
  intros Hp Hk st. specialize (Hp st). unfold mbind, RecM_bind.
  destruct (p st) as [[a|e|] st1]; simpl in *; [by rewrite Hk|done..].
Qed.

Lemma term_same_pending t rep st :
  pending_quantifier_instances_ (snd (term t rep st)) = pending_quantifier_instances_ st.
Proof. destruct (term t rep st) eqn:E. by eapply term_pending. Qed.

Lemma source_node_same_pending id span k st :
  pending_quantifier_instances_ (snd (source_node id span k st)) = pending_quantifier_instances_ st.
Proof.
  unfold source_node, mbind, RecM_bind. simpl. destruct (snapshot_ st); simpl; [|done].
  by destruct (source_nodes_ st !! id).
Qed.

Lemma validate_same_pending fuel st :
  pending_quantifier_instances_ (snd (validate_loop fuel st)) = pending_quantifier_instances_ st.
Proof.
  revert st; induction fuel as [|f IH]; intros st; cbn [validate_loop];
    (apply same_pending_bind; [done|]; intros handle st1; apply same_pending_bind; [done|];
     intros ts st2; destruct (ts !! handle) as [t|]; [|done]); [done|].
  apply same_pending_bind; [|done]. intros st3. apply same_pending_bind; [done|]. intros _ st4.
  apply same_pending_bind; [done|]. intros l st5. apply same_pending_bind; [done|]. intros texts st6.
  apply same_pending_bind; [done|]. intros hashes st7.
  destruct (texts !! handle), (hashes !! handle); try done. by destruct (negb _).
Qed.

Lemma exec_same_pending op st : keeps_pending op ->
  pending_quantifier_instances_ (exec term_to_string term_ast_id op st) = pending_quantifier_instances_ st.
Proof.
  destruct op; cbv [exec]; intros Hk; try done.
  - apply term_same_pending.
  - apply same_pending_bind; [done|]. intros n st1. apply validate_same_pending.
  - apply source_node_same_pending.
  - apply same_pending_bind; [apply source_node_same_pending|]. intros s st1.
    apply same_pending_bind; [apply term_same_pending|done].
Qed.

Lemma exec_all_proceeds ops st :
  Forall op_ok ops -> Forall op_liftable ops -> Forall keeps_pending ops -> recording st ->
  proceeds st (exec_all ops st).
Proof.
  intros Hok Hlift Hkeep (Hl & Hn & Hr).
  destruct (exec_all_safe term_to_string term_ast_id ops st Hok Hl Hn) as (K & L & N).
  split_and!; [split_and!; [done|done|by apply exec_all_registered]|done|].
  clear - Hkeep. revert st. induction Hkeep as [|op ops Hop Hops IH]; intros st; simpl; [done|].
  rewrite IH. by apply exec_same_pending.
Qed.

(** ** The accepted instance *)

Lemma binding_fields_json o a b q : fields_json (binding_fields o a b q).
Proof.
  repeat (apply Forall_cons_2; [simpl; try case_match; auto with json|]); by apply Forall_nil_2.
Qed.

Definition binding_line (run : string) (k : nat) (o : QuantifierObserver) (a b : string) (q : Term) : string :=
  record_line run k "derive" (if ematching_enabled o then "z3.quantifier-instance" else "z3.mbqi-instance")
    (q_within o) "z3.qi_queue.on_binding" binding_coverage (binding_fields o a b q).

(** A binding that was accepted is pending under the handles of its terms,
    with the event of its record. *)
Lemma on_binding_pending o q inst st st1 :
  good_term q -> good_term inst -> recording st -> on_binding (Some o) q inst st = (Ok true, st1) ->
  exists i j k, recording st1 /\ terms_ st1 !! i = Some q /\ terms_ st1 !! j = Some inst /\
    output_ st1 !! k = Some (binding_line (run_ st1) k o (term_reference i) (term_reference j) q) /\
    pending_quantifier_instances_ st1 !! (term_reference i, term_reference j) = Some ("event:" +:+ to_string k).
Proof.
  intros Hq Hinst Hst. unfold Observers.on_binding.
  destruct (term_proceeds q "semantic-z3" st Hq Hst) as (i & sa & Ea & Pa & Hi).
  destruct (term_proceeds inst "semantic-z3" sa Hinst (proj1 Pa)) as (j & sb & Eb & Pb & Hj).
  destruct (record_proceeds "derive" (if ematching_enabled o then "z3.quantifier-instance" else "z3.mbqi-instance")
    (q_within o) "z3.qi_queue.on_binding" binding_coverage
    (binding_fields o (term_reference i) (term_reference j) q) sb (binding_fields_json _ _ _ _) (proj1 Pb))
    as (sc & Ec & Pc & Htc & Hoc).
  unfold mbind, RecM_bind. rewrite Ea, Eb, Ec. unfold remember_quantifier_instance, mbind, RecM_bind. simpl.
  destruct (pending_quantifier_instances_ sc !! _) eqn:En; [done|]. intros [= <-].
  exists i, j, (length (output_ sb)). destruct Pb as (_ & (Er & _ & Hpre & _) & _).
  pose proof (prefix_lookup_Some _ _ _ _ Hi Hpre) as Hi'.
  destruct Pc as ((Hl & Hn & Hr) & (Erc & _) & _). split_and!.
  - split; [done|]. split; [done|]. destruct Hr as [H1a H2a H3a H4a]. by split.
  - simpl. by rewrite Htc.
  - simpl. by rewrite Htc.
  - simpl. rewrite Hoc, list_lookup_middle by done. unfold binding_line. by rewrite Erc.
  - simpl. apply lookup_insert_eq.
Qed.

(** ** The clause *)

Lemma number_array_json l : json_value (number_array l).
Proof. apply arr_json, Forall_fmap, Forall_forall. intros x _. simpl. auto with json. Qed.

Lemma clause_fields_json head h ls ds e a b bs :
  fields_json (clause_fields head h ls ds ++ instance_fields e a b bs).
Proof.
  repeat (apply Forall_cons_2; [simpl; auto using number_array_json with json|]); by apply Forall_nil_2.
Qed.

Section Clause.
Context (within : list string) (deps : list nat) (clause : list Term).
Context (dinst dnot dbind : Decl) (q inst : Term) (bs more : list Term).
Context (Hdinst : symbol_name (decl_name dinst) = "inst") (Hdnot : decl_kind dnot = OP_NOT).
Context (Hdbind : symbol_name (decl_name dbind) = "bind").

Definition inst_hint : Term := App dinst (q :: App dnot [inst] :: App dbind bs :: more).

Context (Hclause : Forall good_term clause) (Hhint : good_term inst_hint).
Context (Hq : good_term q) (Hinst : good_term inst) (Hbs : Forall good_term bs).

(** [on_clause] up to the lookup of the accepted instance. *)
Lemma on_clause_before st i j :
  recording st -> terms_ st !! i = Some q -> terms_ st !! j = Some inst ->
  exists h refs st1, proceeds st st1 /\ terms_ st1 !! i = Some q /\ terms_ st1 !! j = Some inst /\
    on_clause within inst_hint deps clause st =
    (joined ← (accepted ← take_quantifier_instance (term_reference i) (term_reference j);
               match accepted with
               | None => throw_ "quantifier lemma has no exact accepted-instance evidence"
               | Some event => b_refs ← terms bs "semantic-z3";
                               mret (instance_fields event (term_reference i) (term_reference j) b_refs)
               end);
     record "derive" "z3.clause.infer" within "z3.solver.on_clause" clause_coverage
       (clause_fields "inst" h refs deps ++ joined) ;; mret tt) st1.
Proof.
  intros Hst Hi Hj. destruct (terms_proceeds clause "z3-cdcl-clause-literal" st Hclause Hst) as (refs & sa & Ea & Pa).
  destruct (term_proceeds inst_hint "z3-clause-proof-hint" sa Hhint (proj1 Pa)) as (h & sb & Eb & Pb & _).
  assert (P : proceeds st sb) by by eapply proceeds_trans.
  assert (Hi' : terms_ sb !! i = Some q) by (eapply prefix_lookup_Some; [exact Hi|apply P]).
  assert (Hj' : terms_ sb !! j = Some inst) by (eapply prefix_lookup_Some; [exact Hj|apply P]).
  exists (term_reference h), refs, sb. split_and!; [done|done|done|].
  unfold Observers.on_clause, inst_hint at 1. rewrite Hdinst. unfold mbind at 1, RecM_bind at 1. rewrite Ea.
  unfold mbind at 1, RecM_bind at 1. fold inst_hint. rewrite Eb. unfold join_instance. simpl.
  rewrite Hdbind, bool_decide_eq_true_2 by done. simpl.
  unfold mbind at 1 2 3, RecM_bind at 1 2 3. rewrite (term_again q _ sb i (proj1 P) Hi').
  unfold mbind at 1, RecM_bind at 1. rewrite (term_again inst _ sb j (proj1 P) Hj'). done.
Qed.

Lemma on_clause_joined st i j event :
  recording st -> terms_ st !! i = Some q -> terms_ st !! j = Some inst ->
  pending_quantifier_instances_ st !! (term_reference i, term_reference j) = Some event ->
  exists st', on_clause within inst_hint deps clause st = (Ok tt, st') /\ recording st' /\ keeps st st' /\
    pending_quantifier_instances_ st' !! (term_reference i, term_reference j) = None /\
    exists n h refs b_refs, last (output_ st') = Some (record_line (run_ st') n "derive" "z3.clause.infer"
      within "z3.solver.on_clause" clause_coverage
      (clause_fields "inst" h refs deps ++ instance_fields event (term_reference i) (term_reference j) b_refs)).
Proof.
  intros Hst Hi Hj Hp. destruct (on_clause_before st i j Hst Hi Hj) as (h & refs & sb & P & Hi' & Hj' & E).
  assert (Hpb : pending_quantifier_instances_ sb !! (term_reference i, term_reference j) = Some event)
    by (destruct P as (_ & _ & ->); done).
  set (sc := set_pending (delete (term_reference i, term_reference j) (pending_quantifier_instances_ sb)) sb).
  assert (Hsc : recording sc).
  { destruct P as ((L & N & R) & _). split; [done|]. split; [done|]. destruct R as [H1a H2a H3a H4a]. by split. }
  destruct (terms_proceeds bs "semantic-z3" sc Hbs Hsc) as (b_refs & sd & Ed & Pd).
  destruct (record_proceeds "derive" "z3.clause.infer" within "z3.solver.on_clause" clause_coverage
    (clause_fields "inst" h refs deps ++ instance_fields event (term_reference i) (term_reference j) b_refs)
    sd (clause_fields_json _ _ _ _ _ _ _ _) (proj1 Pd)) as (se & Ee & Pe & _ & Hoe).
  exists se. split_and!; [|apply Pe|..].
  - assert (Et : take_quantifier_instance (term_reference i) (term_reference j) sb = (Ok (Some event), sc))
      by (unfold take_quantifier_instance, mbind, RecM_bind; simpl; by rewrite Hpb).
    rewrite E. unfold mbind, RecM_bind. rewrite Et, Ed. cbv [mret RecM_ret]. by rewrite Ee.
  - etrans; [apply P|]. etrans; [|apply Pe]. etrans; [|apply Pd]. split_and!; done.
  - destruct Pe as (_ & _ & ->), Pd as (_ & _ & ->). simpl. apply lookup_delete_eq.
  - eexists _, h, refs, b_refs. rewrite Hoe, last_snoc. by destruct Pe as (_ & (-> & _) & _).
Qed.

Lemma on_clause_unjoined st i j :
  recording st -> terms_ st !! i = Some q -> terms_ st !! j = Some inst ->
  pending_quantifier_instances_ st !! (term_reference i, term_reference j) = None ->
  exists st', on_clause within inst_hint deps clause st =
    (Err "quantifier lemma has no exact accepted-instance evidence", st').
Proof.
  intros Hst Hi Hj Hp. destruct (on_clause_before st i j Hst Hi Hj) as (h & refs & sb & P & Hi' & Hj' & ->).
  eexists. unfold take_quantifier_instance, mbind, RecM_bind. simpl.
  destruct P as (_ & _ & ->). by rewrite Hp.
Qed.
End Clause.
End Joins.

(** ** The guarantees *)

(** C19. An [inst] clause is joined to the instance it came from: after
    [on_binding] accepted the instance, and any calls that do not touch the
    pending table, [on_clause] with a hint for the same quantifier and
    instance succeeds, its record names the event of the very record the
    binding wrote, and a second clause for the same instance is refused for
    lack of evidence. *)
Theorem clause_joins_binding `{Z3Laws} (term_to_string : Term -> string) (term_ast_id : Term -> N)
    (o : QuantifierObserver) (within : list string) (deps : list nat) (clause bs more : list Term)
    (dinst dnot dbind : Decl) (q inst : Term) (between : list Op) (st st1 : Recorder) :
  symbol_name (decl_name dinst) = "inst" -> decl_kind dnot = OP_NOT -> symbol_name (decl_name dbind) = "bind" ->
  let hint := App dinst (q :: App dnot [inst] :: App dbind bs :: more) in
  Forall good_term (hint :: q :: inst :: clause ++ bs) -> recording st ->
  Forall op_ok between -> Forall op_liftable between -> Forall keeps_pending between ->
  on_binding term_to_string term_ast_id (Some o) q inst st = (Ok true, st1) ->
  let st2 := exec_all term_to_string term_ast_id between st1 in
  exists i j k st3,
    output_ st1 !! k = Some (binding_line (run_ st1) k o (term_reference i) (term_reference j) q) /\
    on_clause term_to_string term_ast_id within hint deps clause st2 = (Ok tt, st3) /\
    (exists n h refs b_refs, last (output_ st3) = Some (record_line (run_ st3) n "derive" "z3.clause.infer"
       within "z3.solver.on_clause" clause_coverage
       (clause_fields "inst" h refs deps ++
        instance_fields ("event:" +:+ to_string k) (term_reference i) (term_reference j) b_refs))) /\
    exists st4, on_clause term_to_string term_ast_id within hint deps clause st3 =
      (Err "quantifier lemma has no exact accepted-instance evidence", st4).
Proof.
  intros Hd1 Hd2 Hd3 hint Hgood Hst Hok Hlift Hkeep Hb st2.
  rewrite !Forall_cons, Forall_app in Hgood. destruct Hgood as (Gh & Gq & Gi & Gc & Gb).
  destruct (on_binding_pending _ _ o q inst st st1 Gq Gi Hst Hb) as (i & j & k & R1 & Hi & Hj & Hk & Hp).
  destruct (exec_all_proceeds term_to_string term_ast_id between st1 Hok Hlift Hkeep R1) as (R2 & (_ & _ & Hpre & _) & Hp2).
  fold st2 in R2, Hpre, Hp2. rewrite <- Hp2 in Hp.
  pose proof (prefix_lookup_Some _ _ _ _ Hi Hpre) as Hi2. pose proof (prefix_lookup_Some _ _ _ _ Hj Hpre) as Hj2.
  destruct (on_clause_joined term_to_string term_ast_id within deps clause dinst dnot dbind q inst bs more
    Hd1 Hd2 Hd3 Gc Gh Gb st2 i j _ R2 Hi2 Hj2 Hp) as (st3 & E3 & R3 & (_ & _ & Hpre3 & _) & Hn3 & Hlast).
  exists i, j, k, st3. split_and!; [done|done|done|].
  apply (on_clause_unjoined term_to_string term_ast_id within deps clause dinst dnot dbind q inst bs more
    Hd1 Hd2 Hd3 Gc Gh st3 i j R3); [by eapply prefix_lookup_Some..|done].
Qed.

(** C36. A failing Spacer callback is contained: no callback ever throws, the
    first failure stops all later recording and counting, and it is what
    [rethrow_if_failed] raises at the end. *)
Theorem guarded_keeps_first_failure `{Z3Api} (callback : Callback) (o : FixedpointObserver) (r : Recorder) :
  (forall st, fst (callback st) <> Diverge) ->
  exists o' r', guarded callback (o, r) = Ok (o', r') /\
    (forall e, failure_ o = Some e -> o' = o /\ r' = r) /\
    (forall e st', failure_ o = None -> callback (o, r) = (Err e, st') ->
       rethrow_if_failed o' = Err e /\
       forall callback', guarded callback' (o', r') = Ok (o', r')) /\
    (failure_ o = None -> fst (callback (o, r)) = Ok tt -> (o', r') = snd (callback (o, r))).
Proof.
  intros Hnd. unfold guarded. simpl. destruct (failure_ o) as [e|] eqn:Ef.
  { exists o, r. split_and!; [done|by intros|done|done]. }
  specialize (Hnd (o, r)). destruct (callback (o, r)) as [[[]|e|] [o1 r1]] eqn:E; simpl in *; [| |done].
  - exists o1, r1. split_and!; [done|done|done|done].
  - eexists _, _. split_and!; [done|done| |done]. intros e' st' _ [= -> <-]. done.
Qed.

Module ObserverSample.
Import Structural RecorderSample.

Definition quantifier : Term :=
  Quant QForall 0 (SString "role") SNull [(SString "x", "Int")] [] [] (App LiftSample.pred_ [Var 0 "Int"; Var 0 "Int"]).
Definition ground : Term := App LiftSample.pred_ [LiftSample.five; LiftSample.five].
Definition not_ : Decl := mkStructuralDecl OP_NOT (SString "not") [] ["Bool"] "Bool".
Definition bind_ : Decl := mkStructuralDecl OP_OTHER (SString "bind") [] ["Int"] "Proof".
Definition inst_ : Decl := mkStructuralDecl OP_OTHER (SString "inst") [] ["Bool"; "Bool"; "Proof"] "Proof".
Definition observer : QuantifierObserver := mkQuantifierObserver ["query:0"] true false.
Definition bound_state : Recorder := snd (on_binding text_of id_of (Some observer) quantifier ground start).

Lemma clause_joins_binding_witness :
  exists i j k, output_ bound_state !! k =
    Some (binding_line (run_ bound_state) k observer (term_reference i) (term_reference j) quantifier).
Proof.
  destruct (clause_joins_binding text_of id_of observer ["query:0"] [0] [ground] [LiftSample.five] []
    inst_ not_ bind_ quantifier ground [OpTerm LiftSample.sample "semantic-z3"; OpValidate] start bound_state)
    as (i & j & k & st3 & Hk & _).
  - vm_compute. reflexivity.
  - reflexivity.
  - vm_compute. reflexivity.
  - repeat constructor; vm_compute; reflexivity.
  - split; [|split]; [apply (make_recorder_safe [] "run:sample" None)|constructor|
      apply (make_recorder_registered [] "run:sample" None)].
  - repeat constructor.
  - repeat constructor; vm_compute; reflexivity.
  - repeat constructor.
  - vm_compute. reflexivity.
  - exists i, j, k. exact Hk.
Defined.
Lemma guarded_keeps_first_failure_witness :
  exists o' r', guarded (fun st => (Err "boom", st))
    (mkFixedpointObserver [] None 0 0, RecorderSample.start) = Ok (o', r') /\
    rethrow_if_failed o' = Err "boom".
Proof.
  destruct (guarded_keeps_first_failure (fun st => (Err "boom", st))
    (mkFixedpointObserver [] None 0 0) RecorderSample.start) as (o' & r' & E & _ & Hf & _).
  - intros st. discriminate.
  - exists o', r'. split; [exact E|]. eapply Hf; reflexivity.
Defined.
End ObserverSample.
