(* ===== verification/Z3Solver.v ===== *)
(** * Z3 expressions, their meaning, and solvers

    The part of z3++.h the synthesizer calls, as interfaces: [Z3Exprs] the
    expression constructors, [Z3Meaning] the values a term takes under an
    interpretation, [Z3Solver] a solver object.  [Z3MeaningLaws] and
    [Z3SolverLaws] state what the API documents: constructors mean what they
    are named after, [unsat] means no interpretation, a core refutes. *)

From S2P Require Import Prelude Format Z3Ast.
From Stdlib Require Import ZArith.

(** ** Expressions *)

Class Z3Exprs `{Z3Data} := {
  int_sort : Sort;
  bool_sort : Sort;
  get_sort : Term -> Sort;
  int_val : Z -> Term;
  constant : string -> Sort -> Term;
  expr_add : Term -> Term -> Term;
  expr_sub : Term -> Term -> Term;
  expr_not : Term -> Term;
  expr_implies : Term -> Term -> Term;
  expr_ite : Term -> Term -> Term -> Term;
  expr_substitute : Term -> list Term -> list Term -> Term;
  (** an uninterpreted constant *)
  symbolic : Term -> Prop
}.

Definition bool_const `{Z3Exprs} (name : string) : Term := constant name bool_sort.

Definition is_int `{Z3Exprs} (t : Term) : bool := bool_decide (get_sort t = int_sort).

(** [c] is a subterm of [t]. *)
Fixpoint occurs `{Z3Data} (c t : Term) : bool :=
  term_eqb c t ||
  match t with
  | App _ l => existsb (occurs c) l
  | Quant _ _ _ _ _ ps ns b => existsb (existsb (occurs c)) ps || existsb (occurs c) ns || occurs c b
  | _ => false
  end.

(** ** Meaning *)

(** A world interprets everything but the uninterpreted constants; an
    environment interprets these. *)
Class Z3Meaning `{Z3Exprs} := {
  World : Type;
  Value : Type;
  value_sort : Value -> Sort;
  vbool : bool -> Value;
  eval : World -> (Term -> Value) -> Term -> Value
}.

Section Meaning.
Context `{Z3Meaning}.

Definition Env : Type := Term -> Value.
Definition holds (w : World) (e : Env) (t : Term) : Prop := eval w e t = vbool true.
Definition env_ok (e : Env) : Prop := forall c, symbolic c -> value_sort (e c) = get_sort c.
Definition all_hold (w : World) (e : Env) (l : list Term) : Prop := Forall (holds w e) l.

(** [e] with the constants [from] set to [vs]. *)
Fixpoint assign (e : Env) (from : list Term) (vs : list Value) : Env :=
  match from, vs with
  | c :: from', v :: vs' => fun t => if term_eqb c t then v else assign e from' vs' t
  | _, _ => e
  end.
End Meaning.

Class Z3MeaningLaws `{Z3Meaning} := {
  meaning_inhabited : exists (w : World) (e : Env), env_ok e;
  constant_symbolic n s : symbolic (constant n s);
  constant_sort n s : get_sort (constant n s) = s;
  constant_name n n' s s' : constant n s = constant n' s' -> n = n';
  vbool_true_false : vbool true <> vbool false;
  vbool_sort b : value_sort (vbool b) = bool_sort;
  eval_symbolic w e c : symbolic c -> eval w e c = e c;
  eval_agree w e e' t :
    (forall c, symbolic c -> occurs c t = true -> e c = e' c) -> eval w e t = eval w e' t;
  eval_substitute w e t from to :
    Forall symbolic from -> NoDup from -> length from = length to ->
    eval w e (expr_substitute t from to) = eval w (assign e from (eval w e <$> to)) t;
  holds_not w e t : holds w e (expr_not t) <-> ~ holds w e t;
  holds_implies w e a b : holds w e (expr_implies a b) <-> (holds w e a -> holds w e b);
  holds_dec w e t : holds w e t \/ ~ holds w e t;
  eval_ite_true w e c a b : holds w e c -> eval w e (expr_ite c a b) = eval w e a;
  eval_ite_false w e c a b : ~ holds w e c -> eval w e (expr_ite c a b) = eval w e b;
  occurs_add c a b : symbolic c -> occurs c (expr_add a b) = true -> occurs c a = true \/ occurs c b = true;
  occurs_sub c a b : symbolic c -> occurs c (expr_sub a b) = true -> occurs c a = true \/ occurs c b = true;
  occurs_int_val c n : symbolic c -> occurs c (int_val n) = false
}.

(** ** Solvers *)

Inductive check_result := sat | unsat | unknown.

#[export] Instance check_result_eq_dec : EqDecision check_result.
Proof. solve_decision. Defined.

(** A successful reduction th_rewriter reports to its observer. *)
Record RewriteEvent `{Z3Data} := mkRewriteEvent {
  rw_before : Term;
  rw_after : Term;
  rw_family : string;
  rw_declaration : string;
  rw_status : string
}.

Class Z3Solver `{Z3Exprs} := {
  solver : Type;
  Model : Type;
  mk_solver : solver;
  s_push : solver -> solver;
  s_pop : solver -> solver;
  s_add : solver -> Term -> solver;
  s_check : solver -> list Term -> check_result * solver;
  s_unsat_core : solver -> list Term;
  s_get_model : solver -> Model;
  s_reason_unknown : solver -> string;
  model_eval : Model -> Term -> Term;
  simplify : Term -> Term;
  theory_rewrite : Term -> list RewriteEvent * Term
}.

(** The assertions of a solver, by scope, innermost first. *)
Class Z3SolverLaws `{Z3Meaning} {Z : Z3Solver} := {
  frames : solver -> list (list Term);
  frames_mk : frames mk_solver = [[]];
  frames_push s : frames (s_push s) = [] :: frames s;
  frames_pop s f fs : frames s = f :: fs -> frames (s_pop s) = fs;
  frames_add s t f fs : frames s = f :: fs -> frames (s_add s t) = (f ++ [t]) :: fs;
  frames_check s l : frames (s_check s l).2 = frames s;
  check_sat s l : (s_check s l).1 = sat ->
    exists w e, env_ok e /\ all_hold w e (List.concat (frames s)) /\ all_hold w e l;
  check_unsat s l w e : (s_check s l).1 = unsat -> env_ok e ->
    all_hold w e (List.concat (frames s)) -> ~ all_hold w e l;
  unsat_core_subset s l : (s_check s l).1 = unsat -> s_unsat_core (s_check s l).2 ⊆ l;
  unsat_core_refutes s l w e : (s_check s l).1 = unsat -> env_ok e ->
    all_hold w e (List.concat (frames s)) -> ~ all_hold w e (s_unsat_core (s_check s l).2);
  simplify_eval w e t : env_ok e -> eval w e (simplify t) = eval w e t
}.

(** ** Assignments *)

Section Assign.
Context `{Z3MeaningLaws}.

Lemma assign_elem e from vs c :
  c ∈ from -> length from = length vs -> exists i v, from !! i = Some c /\ vs !! i = Some v /\ assign e from vs c = v.
Proof.
  revert vs; induction from as [|d from IH]; intros [|v vs] Hc Hl; simplify_eq/=; [by apply elem_of_nil in Hc|].
  destruct (term_eqb d c) eqn:E; [apply term_eqb_spec in E as ->; by exists 0, v|].
  apply elem_of_cons in Hc as [->|Hc]; [by rewrite (proj2 (term_eqb_spec d d)) in E|].
  destruct (IH vs Hc ltac:(lia)) as (i & u & ? & ? & ?). by exists (S i), u.
Qed.

Lemma assign_lookup e from vs i c v :
  NoDup from -> from !! i = Some c -> vs !! i = Some v -> assign e from vs c = v.
Proof.
  revert vs i; induction from as [|d from IH]; intros [|u vs] [|i] Hn Hc Hv; simplify_eq/=; try done.
  - by rewrite (proj2 (term_eqb_spec c c)).
  - apply NoDup_cons in Hn as [Hd Hn]. destruct (term_eqb d c) eqn:E; [|by eapply IH].
    apply term_eqb_spec in E as ->. destruct Hd. by eapply list_elem_of_lookup_2.
Qed.

Lemma assign_other e from vs c : c ∉ from -> assign e from vs c = e c.
Proof.
  revert vs; induction from as [|d from IH]; intros [|v vs] Hc; simpl; try done.
  apply not_elem_of_cons in Hc as [Hd Hc].
  destruct (term_eqb d c) eqn:E; [by apply term_eqb_spec in E as ->|auto].
Qed.

Lemma assign_fmap e from vs :
  NoDup from -> length from = length vs -> assign e from vs <$> from = vs.
Proof.
  intros Hn Hl. apply list_eq. intros i. rewrite list_lookup_fmap.
  destruct (from !! i) as [c|] eqn:E.
  - destruct (lookup_lt_is_Some_2 vs i) as [v Hv]; [rewrite <- Hl; by eapply lookup_lt_Some|].
    simpl. rewrite Hv. f_equal. by eapply assign_lookup.
  - symmetry. apply lookup_ge_None. rewrite <- Hl. by apply lookup_ge_None.
Qed.

Lemma assign_app e from vs r v c :
  length from = length vs -> r ∉ from ->
  assign e (from ++ [r]) (vs ++ [v]) c = assign (assign e from vs) [r] [v] c.
Proof.
  revert vs; induction from as [|d from IH]; intros [|u vs] Hl Hr; simplify_eq/=; [done|].
  apply not_elem_of_cons in Hr as [Hd Hr]. rewrite IH by done. simpl.
  destruct (term_eqb d c) eqn:E, (term_eqb r c) eqn:E'; try done.
  apply term_eqb_spec in E, E'. congruence.
Qed.

Lemma env_ok_assign e from vs :
  env_ok e -> Forall2 (fun c v => value_sort v = get_sort c) from vs -> env_ok (assign e from vs).
Proof.
  intros He Hf c Hc. induction Hf as [|d v from vs Hv Hf IH]; simpl; [by apply He|].
  destruct (term_eqb d c) eqn:E; [by apply term_eqb_spec in E as <-|done].
Qed.

Lemma eval_fmap_symbolic w e l : Forall symbolic l -> eval w e <$> l = e <$> l.
Proof. induction 1; simpl; f_equal; auto using eval_symbolic. Qed.
End Assign.
