(* ===== verification/Synthesis.v ===== *)
(** * The refutation synthesizer (src/src/fine/synthesis.h, synthesis.cpp)

    [CandidateEnumerator] lists the integer grammar by size.  [run] keeps a
    solver [gamma] with one labelled, negated instance of the specification
    per selected candidate, until the active labels are contradictory; the
    unsat core picks the candidates that are joined by conditionals, and a
    fresh solver checks the simplified result.  The recorder is optional: the
    null pointer is [None], and a record is written only when there is one. *)

From stdpp Require Import gmap.
From S2P Require Import Prelude Format Json Source Z3Ast Z3Solver Lift Recorder Observers.
From Stdlib Require Import NArith ZArith.

(** ** The candidate enumerator *)

Section Enumerator.
Context `{Z3Exprs}.

Record Candidate := mkCandidate { c_size : nat; c_term : Term }.

Record CandidateEnumerator := mkEnumerator {
  by_size_ : list (list Term);
  current_size_ : nat;
  current_index_ : nat
}.

Definition add_unique (terms : list Term) (t : Term) : list Term :=
  if existsb (fun existing => term_eqb existing t) terms then terms else terms ++ [t].

Definition make_enumerator (parameters : list Term) : CandidateEnumerator :=
  let inputs := foldl (fun terms p => if is_int p then add_unique terms p else terms) [] parameters in
  mkEnumerator [[]; add_unique (add_unique inputs (int_val 0)) (int_val 1)] 1 0.

(** The two inner loops over one pair of sizes. *)
Definition combine_pair (left_ right_ : list Term) (terms : list Term) : list Term :=
  foldl (fun terms l =>
    foldl (fun terms r => add_unique (add_unique terms (expr_add l r)) (expr_sub l r)) terms right_)
    terms left_.

(** One left size; [terms] is [by_size_[target]], which has been appended. *)
Definition combine_sizes (by_size : list (list Term)) (target : nat) (terms : list Term)
    (left_size : nat) : list Term :=
  let right_size := target - left_size - 1 in
  if (right_size =? 0) || (S (length by_size) <=? left_size) || (S (length by_size) <=? right_size)
  then terms
  else combine_pair (nth left_size by_size []) (nth right_size by_size []) terms.

(** One iteration of [while (by_size_.size() <= size)]; [left_size] runs
    over the sizes with [left_size + 1 < target]. *)
Definition grow (by_size : list (list Term)) : list (list Term) :=
  let target := length by_size in
  if target <? 3 then by_size ++ [[]]
  else by_size ++ [foldl (combine_sizes by_size target) [] (seq 1 (target - 2))].

Definition ensure_size (size : nat) (e : CandidateEnumerator) : CandidateEnumerator :=
  mkEnumerator (Nat.iter (S size - length (by_size_ e)) grow (by_size_ e)) (current_size_ e) (current_index_ e).

(** The loop of [next]; an odd size is never empty, so three rounds are enough. *)
Fixpoint next_loop (fuel : nat) (e : CandidateEnumerator) : outcome string (Candidate * CandidateEnumerator) :=
  match fuel with
  | O => Diverge
  | S f =>
      let e := ensure_size (current_size_ e) e in
      match nth (current_size_ e) (by_size_ e) [] !! current_index_ e with
      | Some t =>
          Ok (mkCandidate (current_size_ e) t, mkEnumerator (by_size_ e) (current_size_ e) (S (current_index_ e)))
      | None => next_loop f (mkEnumerator (by_size_ e) (S (current_size_ e)) 0)
      end
  end.

Definition next : CandidateEnumerator -> outcome string (Candidate * CandidateEnumerator) := next_loop 3.

(** ** Helpers *)

Definition contains (expressions : list Term) (sought : Term) : bool :=
  existsb (fun expression => term_eqb expression sought) expressions.
End Enumerator.

Definition check_text (r : check_result) : string :=
  match r with sat => "sat" | unsat => "unsat" | unknown => "unknown" end.

Section Synthesizer.
Context `{Z3Api} {HX : Z3Exprs} {HS : Z3Solver}.
Context (term_to_string : Term -> string) (term_ast_id : Term -> N).
Let term : Term -> RecM string := fun t => Recorder.term term_to_string term_ast_id t "semantic-z3".

Definition substitute (expression : Term) (from to : list Term) : Term :=
  expr_substitute expression from to.

Definition ref_array (expressions : list Term) : RecM string :=
  references ← terms term_to_string term_ast_id expressions "semantic-z3";
  mret (string_array references).

(** The operands of the concatenation are taken from left to right. *)
Fixpoint assignment_items (symbols values : list Term) : RecM (list string) :=
  match symbols, values with
  | s :: symbols', v :: values' =>
      s_ref ← term s; v_ref ← term v;
      rest ← assignment_items symbols' values';
      mret (obj [(lit "symbol", quote s_ref); (lit "value", quote v_ref)] :: rest)
  | [], _ => mret []
  | _ :: _, [] => throw_ "index out of range"
  end.

Definition model_assignments (symbols values : list Term) : RecM string :=
  items ← assignment_items symbols values; mret (arr items).

(** ** The synthesizer *)

Record SynthesisSelection := mkSelection {
  grammar_size : nat;
  s_term : Term;
  ground_instance : Term;
  s_label : Term
}.

Record SynthesisResult := mkResult {
  r_assembled : Term;
  r_witness : Term;
  r_selections : list SynthesisSelection;
  r_core_indices : list nat
}.

Record RefutationSynthesizer := mkSynthesizer {
  declaration_name_ : string;
  parameters_ : list Term;
  result_placeholder_ : Term;
  specification_ : Term;
  grammar_inputs_ : list Term;
  arm_scope_ : bool
}.

Definition make_synthesizer (declaration_name : string) (parameters : list Term)
    (result_placeholder specification : Term) (grammar_inputs : list Term) (arm_scope : bool)
    : RefutationSynthesizer :=
  mkSynthesizer declaration_name parameters result_placeholder specification
    (match grammar_inputs with [] => parameters | _ => grammar_inputs end) arm_scope.

(** ** Effects: an optional recorder *)

Definition SynthM (A : Type) : Type := option Recorder -> outcome string A * option Recorder.

#[export] Instance SynthM_ret : MRet SynthM := fun A a rf => (Ok a, rf).
#[export] Instance SynthM_bind : MBind SynthM := fun A B k m rf =>
  match m rf with
  | (Ok a, rf') => k a rf'
  | (Err e, rf') => (Err e, rf')
  | (Diverge, rf') => (Diverge, rf')
  end.

Definition throw {A} (message : string) : SynthM A := fun rf => (Err message, rf).
Definition lift_outcome {A} (m : outcome string A) : SynthM A := fun rf => (m, rf).

(** [if (rainfall_) ...] *)
Definition observe {A} (m : RecM A) : SynthM unit := fun rf =>
  match rf with
  | None => (Ok tt, None)
  | Some st =>
      match m st with
      | (Ok _, st') => (Ok tt, Some st')
      | (Err e, st') => (Err e, Some st')
      | (Diverge, st') => (Diverge, Some st')
      end
  end.

(** ** simplify_with_rainfall (internal_rewrite.cpp) *)

Fixpoint replay (within : list string) (events : list RewriteEvent) : RecM unit :=
  match events with
  | [] => mret tt
  | ev :: events' =>
      on_rewrite term_to_string term_ast_id within (rw_before ev) (rw_after ev) (rw_family ev)
        (rw_declaration ev) (rw_status ev) ;;
      replay within events'
  end.

Definition simplify_with_rainfall (expression : Term) (within : list string) : SynthM Term := fun rf =>
  match rf with
  | None => (Ok (simplify expression), None)
  | Some _ =>
      let '(events, result) := theory_rewrite expression in
      (observe (replay within events) ;; mret result) rf
  end.

(** ** Names *)

Section Run.
Context (self : RefutationSynthesizer).

Definition run_scope : string :=
  (if arm_scope_ self then "synth-arm:" else "synth:") +:+ declaration_name_ self.
Definition parameter_name (i : nat) : string :=
  "Fine.synth." +:+ declaration_name_ self +:+ ".k" +:+ to_string i.
Definition label_name (i : nat) : string :=
  "Fine.synth." +:+ declaration_name_ self +:+ ".instance" +:+ to_string i.
Definition query_name (i : nat) : string := "query:" +:+ to_string i.

Definition counterexample_parameters : list Term :=
  imap (fun i p => constant (parameter_name i) (get_sort p)) (parameters_ self).

(** The specification at the counterexample symbols, for one candidate. *)
Definition instance_of (selected : Term) : Term :=
  let candidate_at_k := substitute selected (parameters_ self) counterexample_parameters in
  substitute (specification_ self) (parameters_ self ++ [result_placeholder_ self])
    (counterexample_parameters ++ [candidate_at_k]).

(** The specification of one result term. *)
Definition specification_at (t : Term) : Term := substitute (specification_ self) [result_placeholder_ self] [t].

(** ** Records of a query *)

Definition open_run : RecM string :=
  parameters ← ref_array (parameters_ self);
  result ← term (result_placeholder_ self);
  specification ← term (specification_ self);
  record "scope" (if arm_scope_ self then "synth.arm.open" else "synth.run.open") [run_scope] "fine.synthesis"
    "Fine's native QF-LIA refutation loop; excludes Z3-internal rewrites and search steps"
    [string_field "name" (declaration_name_ self); raw_field "parameters" parameters;
     string_field "result" result; string_field "specification" specification;
     string_field "candidate_policy" "first size-stratified term whose ground coverage query is satisfiable"].

Definition close_query (query coverage : string) : RecM string :=
  record "scope" "solver.query.close" [run_scope; query] "fine.synthesis" coverage [string_field "id" query].

Definition open_state_query (query : string) (active : list Term) : RecM string :=
  assumptions ← ref_array active;
  record "scope" "solver.query.open" [run_scope; query] "fine.synthesis"
    "Public solver assertion and assumption boundary"
    [string_field "id" query; string_field "purpose" "find a counterexample not covered by active instances";
     raw_field "assumptions" assumptions; string_field "polarity" "uncovered-counterexample-exists"].

Definition state_query_result (query : string) (state : check_result) : RecM string :=
  record "transition" "solver.query.result" [run_scope; query] "z3.public-api"
    "Final public check result only; no claim about internal cause"
    [string_field "query" query; string_field "status" (check_text state);
     string_field "polarity" "uncovered-counterexample-exists"] ;;
  close_query query "Public solver query lifetime".

Definition core_record (query : string) (core : list Term) : RecM string :=
  members ← ref_array core;
  record "object" "solver.unsat-core" [run_scope] "z3.public-api"
    "Assumption core returned for the immediately preceding unsatisfiable query"
    [string_field "query" query; raw_field "members" members].

Definition open_selection_query (query : string) (selected : Candidate) (instance : Term) (active : list Term)
    : RecM string :=
  candidate ← term (c_term selected);
  instance_ref ← term instance;
  assumptions ← ref_array active;
  record "scope" "solver.query.open" [run_scope; query] "fine.synthesis"
    "Public solver assertion and assumption boundary"
    [string_field "id" query; string_field "purpose" "test whether a candidate covers one live counterexample";
     string_field "candidate" candidate; number_field "grammar_size" (c_size selected);
     string_field "instance" instance_ref; raw_field "assumptions" assumptions;
     string_field "polarity" "candidate-has-compatible-ground-instance"].

(** [model_values] is there exactly when the result is [sat]. *)
Definition selection_query_result (query : string) (useful : check_result) (model_values : option (list Term))
    : RecM string :=
  extra ← match model_values with
          | None => mret []
          | Some values =>
              assignments ← model_assignments counterexample_parameters values;
              mret [raw_field "model_assignments" assignments; boolean_field "model_completion" true;
                    string_field "relation" "equality-under-this-model"]
          end;
  record "transition" "solver.query.result" [run_scope; query] "z3.public-api"
    "Final public check result and completed values for Fine's counterexample symbols"
    ([string_field "query" query; string_field "status" (check_text useful);
      string_field "polarity" "candidate-has-compatible-ground-instance"] ++ extra) ;;
  close_query query "Public solver query lifetime".

Definition select_record (query : string) (selected : Candidate) : RecM string :=
  candidate ← term (c_term selected);
  record "derive" "synth.candidate.select" [run_scope] "fine.synthesis"
    "Deterministic first satisfiable candidate in exact-size enumeration order"
    [string_field "candidate" candidate; number_field "grammar_size" (c_size selected);
     string_field "evidence_query" query; string_field "policy" "first-enumerated-with-satisfiable-coverage"].

Definition activate_record (query : string) (label instance selected : Term) : RecM string :=
  label_ref ← term label;
  instance_ref ← term instance;
  candidate ← term selected;
  record "constraint" "synth.instance.activate" [run_scope] "fine.synthesis"
    "Labelled negated ground instances asserted into gamma"
    [string_field "label" label_ref; string_field "instance" instance_ref; string_field "candidate" candidate;
     string_field "evidence_query" query].

Definition reject_record (query : string) (selected : Candidate) : RecM string :=
  candidate ← term (c_term selected);
  record "derive" "synth.candidate.reject" [run_scope] "fine.synthesis"
    "Candidate rejected only by its unsatisfiable ground coverage query"
    [string_field "candidate" candidate; number_field "grammar_size" (c_size selected);
     string_field "evidence_query" query].

(** ** The refutation loop *)

Record SynthState := mkSynthState {
  candidates : CandidateEnumerator;
  gamma : solver;
  selections : list SynthesisSelection;
  active : list Term;
  query_sequence : nat
}.

Definition initial_state : SynthState := mkSynthState (make_enumerator (grammar_inputs_ self)) mk_solver [] [] 0.

(** The coverage query of one candidate: push, add, check, model, pop. *)
Definition coverage_query (st : SynthState) (instance : Term)
    : check_result * option (list Term) * solver :=
  let '(useful, g) := s_check (s_add (s_push (gamma st)) instance) (active st) in
  (useful,
   match useful with
   | sat => Some (model_eval (s_get_model g) <$> counterexample_parameters)
   | _ => None
   end,
   s_pop g).

Definition with_query (st : SynthState) (g : solver) : SynthState :=
  mkSynthState (candidates st) g (selections st) (active st) (S (query_sequence st)).
Definition with_candidates (st : SynthState) (e : CandidateEnumerator) : SynthState :=
  mkSynthState e (gamma st) (selections st) (active st) (query_sequence st).

(** The selected candidate's negated instance is asserted under a new label. *)
Definition activate (st : SynthState) (selected : Candidate) (instance label : Term) : SynthState :=
  mkSynthState (candidates st) (s_add (gamma st) (expr_implies label (expr_not instance)))
    (selections st ++ [mkSelection (c_size selected) (c_term selected) instance label])
    (active st ++ [label]) (query_sequence st).

Fixpoint candidate_loop (fuel : nat) (selected : Candidate) (st : SynthState) : SynthM SynthState :=
  match fuel with
  | O => lift_outcome Diverge
  | S f =>
      let instance := instance_of (c_term selected) in
      let query := query_name (query_sequence st) in
      observe (open_selection_query query selected instance (active st)) ;;
      let '(useful, model_values, g) := coverage_query st instance in
      let st := with_query st g in
      observe (selection_query_result query useful model_values) ;;
      match useful with
      | unknown => throw ("candidate selection was unknown: " +:+ s_reason_unknown (gamma st))
      | sat =>
          observe (select_record query selected) ;;
          let label := bool_const (label_name (length (selections st))) in
          let st := activate st selected instance label in
          observe (activate_record query label instance (c_term selected)) ;;
          mret st
      | unsat =>
          observe (reject_record query selected) ;;
          '(selected, e) ← lift_outcome (next (candidates st));
          candidate_loop f selected (with_candidates st e)
      end
  end.

(** The outer loop returns the final state and the core of the refutation,
    with the name of its query. *)
Fixpoint state_loop (budget fuel : nat) (st : SynthState) : SynthM (SynthState * list Term * string) :=
  match fuel with
  | O => lift_outcome Diverge
  | S f =>
      let query := query_name (query_sequence st) in
      observe (open_state_query query (active st)) ;;
      let '(state, g) := s_check (gamma st) (active st) in
      let st := with_query st g in
      observe (state_query_result query state) ;;
      match state with
      | unsat =>
          let core := s_unsat_core (gamma st) in
          observe (core_record query core) ;;
          mret (st, core, query)
      | unknown => throw ("synthesis context was unknown: " +:+ s_reason_unknown (gamma st))
      | sat =>
          '(selected, e) ← lift_outcome (next (candidates st));
          st ← candidate_loop budget selected (with_candidates st e);
          state_loop budget f st
      end
  end.

(** ** Assembly *)

Definition core_indices (selections : list SynthesisSelection) (core : list Term) : list nat :=
  (fun p => p.1) <$> filter (fun p => contains core (s_label p.2) = true) (imap (fun i s => (i, s)) selections).

(** [selections[index].term]; the indices come from [core_indices]. *)
Definition term_at (selections : list SynthesisSelection) (i : nat) : option Term := s_term <$> selections !! i.

Fixpoint assemble (assembled : Term) (terms : list Term) : Term :=
  match terms with
  | [] => assembled
  | t :: terms' => assemble (expr_ite (specification_at t) t assembled) terms'
  end.

Definition assemble_record (core_terms : list Term) (assembled : Term) (query : string) : RecM string :=
  inputs ← ref_array core_terms;
  output ← term assembled;
  record "derive" "synth.assemble-core" [run_scope] "fine.synthesis"
    "Insertion-ordered unsat-core members assembled with Fine's Reynolds-style conditional recipe"
    [raw_field "inputs" inputs; string_field "output" output; number_field "core_size" (length core_terms);
     string_field "evidence_query" query].

Definition simplify_record (assembled witness : Term) : RecM string :=
  before ← term assembled;
  after ← term witness;
  record "transform" "z3.simplify" [run_scope] "z3.public-api"
    "One public simplify call; excludes the internal rewrite sequence"
    [string_field "before" before; string_field "after" after; string_field "relation" "theory-equivalent"].

Definition open_verification_query (query : string) (witness assertion : Term) : RecM string :=
  candidate ← term witness;
  assertion_ref ← term assertion;
  record "scope" "solver.query.open" [run_scope; query] "fine.synthesis"
    "Fresh solver containing only the negated original specification"
    [string_field "id" query; string_field "purpose" "independently search for a witness counterexample";
     string_field "candidate" candidate; string_field "assertion" assertion_ref;
     string_field "polarity" "counterexample-exists"].

Definition verification_query_result (query : string) (verification : check_result) : RecM string :=
  record "transition" "solver.query.result" [run_scope; query] "z3.public-api"
    "Final public check result only; independent of synthesis gamma"
    [string_field "query" query; string_field "status" (check_text verification);
     string_field "polarity" "counterexample-exists";
     string_field "domain_outcome" (match verification with unsat => "verified" | _ => "not-verified" end)] ;;
  close_query query "Fresh verification solver query lifetime".

Definition accept_record (query : string) (witness : Term) : RecM string :=
  candidate ← term witness;
  record "transition" "synth.backend.accept" [run_scope] "fine.synthesis"
    "Semantic candidate accepted after a fresh unsatisfiable counterexample query"
    [string_field "candidate" candidate; string_field "evidence_query" query; string_field "status" "verified"].

(** The fresh solver's check of a witness. *)
Definition verify (query : string) (witness : Term) : SynthM unit :=
  let assertion := expr_not (specification_at witness) in
  observe (open_verification_query query witness assertion) ;;
  let '(verification, verifier) := s_check (s_add mk_solver assertion) [] in
  observe (verification_query_result query verification) ;;
  match verification with
  | unknown => throw ("synthesized candidate verification was unknown: " +:+ s_reason_unknown verifier)
  | sat => throw "synthesized candidate failed independent verification"
  | unsat => observe (accept_record query witness)
  end.

Definition run (fuel : nat) : SynthM SynthesisResult :=
  observe open_run ;;
  '(st, core, core_query) ← state_loop fuel fuel initial_state;
  let indices := core_indices (selections st) core in
  match omap (term_at (selections st)) indices with
  | [] => throw "synthesis refutation produced an empty core"
  | first :: rest =>
      let assembled := assemble first rest in
      observe (assemble_record (first :: rest) assembled core_query) ;;
      witness ← simplify_with_rainfall assembled [run_scope; "transform:public-simplify"];
      observe (simplify_record assembled witness) ;;
      verify (query_name (query_sequence st)) witness ;;
      mret (mkResult assembled witness (selections st) indices)
  end.
End Run.
End Synthesizer.
