(* ===== verification/EnumeratorSpec.v ===== *)
(** * The candidate enumerator is fair

    [grammar] is the integer grammar with its sizes; each stratum of the
    enumerator lists exactly the grammar terms of its size, without
    repetition, and [next] walks the strata in order: every term of the
    grammar is drawn after finitely many calls. *)

From S2P Require Import Prelude Z3Ast Z3Solver Synthesis.
From stdpp Require Import sorting.
From Stdlib Require Import ZArith.

Section Enumerator.
Context `{Z3Exprs}.
Context (inputs : list Term).

Inductive grammar : nat -> Term -> Prop :=
| grammar_input p : p ∈ inputs -> is_int p = true -> grammar 1 p
| grammar_zero : grammar 1 (int_val 0)
| grammar_one : grammar 1 (int_val 1)
| grammar_add i j l r : grammar i l -> grammar j r -> grammar (i + j + 1) (expr_add l r)
| grammar_sub i j l r : grammar i l -> grammar j r -> grammar (i + j + 1) (expr_sub l r).

Lemma grammar_positive n t : grammar n t -> 1 <= n.
Proof. induction 1; lia. Qed.

(** ** Strata *)

Lemma elem_add_unique terms t u : u ∈ add_unique terms t <-> u ∈ terms \/ u = t.
Proof.
  unfold add_unique. destruct (existsb _ _) eqn:E.
  - apply existsb_exists in E as (x & Hx & E%term_eqb_spec). subst x. apply list_elem_of_In in Hx. naive_solver.
  - rewrite elem_of_app, list_elem_of_singleton. done.
Qed.

Lemma NoDup_add_unique terms t : NoDup terms -> NoDup (add_unique terms t).
Proof.
  unfold add_unique. intros Hn. destruct (existsb _ _) eqn:E; [done|].
  apply NoDup_app. split_and!; [done| |apply NoDup_singleton].
  intros x Hx ->%list_elem_of_singleton. apply Bool.not_true_iff_false in E. apply E, existsb_exists.
  exists t. rewrite term_eqb_spec. by rewrite <- list_elem_of_In.
Qed.

(** A fold whose steps add the elements [P x] says, and keep [NoDup]. *)
Lemma elem_foldl {A} (f : list Term -> A -> list Term) (P : A -> Term -> Prop) :
  (forall terms x u, u ∈ f terms x <-> u ∈ terms \/ P x u) ->
  forall l terms u, u ∈ foldl f terms l <-> u ∈ terms \/ exists x, x ∈ l /\ P x u.
Proof.
  intros Hf. induction l as [|x l IH]; intros terms u; simpl.
  - split; [by left|]. intros [?|(? & ?%elem_of_nil & _)]; done.
  - rewrite IH, Hf. setoid_rewrite elem_of_cons. naive_solver.
Qed.

Lemma NoDup_foldl {A} (f : list Term -> A -> list Term) :
  (forall terms x, NoDup terms -> NoDup (f terms x)) -> forall l terms, NoDup terms -> NoDup (foldl f terms l).
Proof. intros Hf. induction l; simpl; auto. Qed.

Lemma elem_combine_pair left_ right_ terms u :
  u ∈ combine_pair left_ right_ terms <->
  u ∈ terms \/ exists l, l ∈ left_ /\ exists r, r ∈ right_ /\ (u = expr_add l r \/ u = expr_sub l r).
Proof.
  unfold combine_pair.
  apply (elem_foldl _ (fun l u => exists r, r ∈ right_ /\ (u = expr_add l r \/ u = expr_sub l r))).
  intros terms' l u'. apply (elem_foldl _ (fun r u => u = expr_add l r \/ u = expr_sub l r)).
  intros terms'' r u''. rewrite !elem_add_unique. tauto.
Qed.

Lemma NoDup_combine_pair left_ right_ terms : NoDup terms -> NoDup (combine_pair left_ right_ terms).
Proof. apply NoDup_foldl. intros ? ?. apply NoDup_foldl. auto using NoDup_add_unique. Qed.

(** What the strata hold: size [i] the grammar terms of size [i]. *)
Definition stratified (by_size : list (list Term)) : Prop :=
  forall i, i < length by_size ->
    NoDup (nth i by_size []) /\ forall t, t ∈ nth i by_size [] <-> grammar i t.

Lemma grammar_split n t :
  3 <= n -> (grammar n t <-> exists i l, 1 <= i /\ grammar i l /\ exists j r, 1 <= j /\ grammar j r /\ n = i + j + 1 /\
    (t = expr_add l r \/ t = expr_sub l r)).
Proof.
  intros Hn. split.
  - intros Ht. destruct Ht as [| | |i j l r Hl Hr|i j l r Hl Hr]; try lia;
      exists i, l; split_and!; eauto using grammar_positive; exists j, r; split_and!; eauto using grammar_positive.
  - intros (i & l & _ & Hl & j & r & _ & Hr & -> & [->| ->]); [by apply grammar_add|by apply grammar_sub].
Qed.

Lemma grammar_two t : ~ grammar 2 t.
Proof.
  intros Ht. remember 2 as n eqn:En.
  destruct Ht as [| | |i j l r Hl%grammar_positive Hr%grammar_positive|i j l r Hl%grammar_positive Hr%grammar_positive]; lia.
Qed.

Lemma grow_length by_size : length (grow by_size) = S (length by_size).
Proof. unfold grow. case_match; rewrite length_app; simpl; lia. Qed.

Lemma grow_nth by_size i : i < length by_size -> nth i (grow by_size) [] = nth i by_size [].
Proof. intros Hi. unfold grow. case_match; by rewrite app_nth1. Qed.

Lemma combine_sizes_live by_size target terms i :
  target = length by_size -> 1 <= i -> i + 1 < target ->
  combine_sizes by_size target terms i =
  combine_pair (nth i by_size []) (nth (target - i - 1) by_size []) terms.
Proof.
  intros -> Hi Hlt. unfold combine_sizes.
  rewrite (proj2 (Nat.eqb_neq _ 0)), !(proj2 (Nat.leb_gt _ _)) by lia. done.
Qed.

(** The new stratum, its fold made of live steps. *)
Lemma elem_combine_foldl by_size ls terms u :
  (forall i, i ∈ ls -> 1 <= i /\ i + 1 < length by_size) ->
  u ∈ foldl (combine_sizes by_size (length by_size)) terms ls <->
  u ∈ terms \/ exists i, i ∈ ls /\ exists l, l ∈ nth i by_size [] /\
    exists r, r ∈ nth (length by_size - i - 1) by_size [] /\ (u = expr_add l r \/ u = expr_sub l r).
Proof.
  revert terms. induction ls as [|i ls IH]; intros terms Hls; simpl.
  - split; [by left|]. intros [?|(? & ?%elem_of_nil & _)]; done.
  - destruct (Hls i) as [Hi Hlt]; [by left|].
    rewrite IH by (intros; apply Hls; by right). rewrite combine_sizes_live by done.
    rewrite elem_combine_pair. setoid_rewrite elem_of_cons. naive_solver.
Qed.

Lemma NoDup_combine_sizes by_size target terms i :
  NoDup terms -> NoDup (combine_sizes by_size target terms i).
Proof. unfold combine_sizes. case_match; auto using NoDup_combine_pair. Qed.

Lemma grow_stratified by_size : 2 <= length by_size -> stratified by_size -> stratified (grow by_size).
Proof.
  intros H2 Hs i Hi. rewrite grow_length in Hi. destruct (decide (i < length by_size)) as [Hlt|Hge].
  { rewrite grow_nth by done. by apply Hs. }
  assert (i = length by_size) as -> by lia. unfold grow. destruct (length by_size <? 3) eqn:E.
  - apply Nat.ltb_lt in E. assert (El : length by_size = 2) by lia. rewrite nth_middle.
    split; [apply NoDup_nil_2|]. intros t. rewrite El. split; [by intros ?%elem_of_nil|by intros ?%grammar_two].
  - apply Nat.ltb_ge in E. rewrite nth_middle. split.
    { apply NoDup_foldl; [|apply NoDup_nil_2]. intros. by apply NoDup_combine_sizes. }
    intros t. rewrite elem_combine_foldl by (intros i ?%elem_of_seq; lia). rewrite grammar_split by done. split.
    + intros [?%elem_of_nil|(i & Hi'%elem_of_seq & l & Hl & r & Hr & Ht)]; [done|].
      apply Hs in Hl; [|lia]. apply Hs in Hr; [|lia]. exists i, l. split_and!; [lia|done|].
      exists (length by_size - i - 1), r. split_and!; [lia|done|lia|done].
    + intros (i & l & Hi' & Hl & j & r & Hj & Hr & El & Ht). right. exists i. split; [apply elem_of_seq; lia|].
      exists l. split; [apply Hs; [lia|done]|]. exists r. split; [|done].
      replace (length by_size - i - 1) with j by lia. apply Hs; [lia|done].
Qed.

(** ** The whole enumeration *)

(** The strata of the sizes below [n]. *)
Definition levels (n : nat) : list (list Term) := Nat.iter (n - 2) grow (by_size_ (make_enumerator inputs)).

Lemma levels_length n : 2 <= n -> length (levels n) = n.
Proof.
  intros Hn. unfold levels. replace n with (n - 2 + 2) at 2 by lia. generalize (n - 2) as k.
  induction k as [|k IH]; [done|]. rewrite Nat.iter_succ, grow_length, IH. lia.
Qed.

Lemma levels_grow n : 2 <= n -> levels (S n) = grow (levels n).
Proof. intros Hn. unfold levels. by replace (S n - 2) with (S (n - 2)) by lia. Qed.

Lemma first_stratum t : t ∈ nth 1 (levels 2) [] <-> grammar 1 t.
Proof.
  simpl. rewrite !elem_add_unique, (elem_foldl _ (fun p u => is_int p = true /\ u = p)).
  - split.
    + intros [[[?%elem_of_nil|(x & Hx & Hi & ->)]| ->]| ->]; [done|by apply grammar_input|apply grammar_zero|apply grammar_one].
    + intros Ht. remember 1 as n eqn:En.
      destruct Ht as [p Hp Hi| | |i j l r Hl%grammar_positive Hr|i j l r Hl%grammar_positive Hr]; try lia; eauto 8.
  - intros terms p u. destruct (is_int p); [rewrite elem_add_unique|]; naive_solver.
Qed.

Lemma levels_stratified n : 2 <= n -> stratified (levels n).
Proof.
  induction n as [|n IH]; [lia|]. intros Hn. destruct (decide (n = 1)) as [->|Hne].
  - intros i Hi. simpl in Hi. destruct i as [|[|i]]; [| |lia].
    + split; [apply NoDup_nil_2|]. intros t. split; [by intros ?%elem_of_nil|intros ?%grammar_positive; lia].
    + split; [|apply first_stratum].
      simpl. apply NoDup_add_unique, NoDup_add_unique, NoDup_foldl; [|apply NoDup_nil_2].
      intros terms p ?. destruct (is_int p); auto using NoDup_add_unique.
  - rewrite levels_grow by lia. apply grow_stratified; [rewrite levels_length; lia|apply IH; lia].
Qed.

(** A larger table has the same strata. *)
Lemma levels_nth n m i : 2 <= n -> n <= m -> i < n -> nth i (levels m) [] = nth i (levels n) [].
Proof.
  intros H2 Hnm Hi. induction Hnm as [|m Hnm IH]; [done|].
  rewrite levels_grow by lia. rewrite grow_nth by (rewrite levels_length; lia). done.
Qed.

Definition stratum (i : nat) : list Term := nth i (levels (S (S i))) [].

Lemma elem_stratum i t : t ∈ stratum i <-> grammar i t.
Proof. apply levels_stratified; [lia|]. rewrite levels_length; lia. Qed.

Lemma NoDup_stratum i : NoDup (stratum i).
Proof. apply levels_stratified; [lia|]. rewrite levels_length; lia. Qed.

Lemma stratum_odd i : stratum (2 * i + 1) <> [].
Proof.
  assert (Ht : exists t, grammar (2 * i + 1) t).
  { induction i as [|i [t Ht]]; [exists (int_val 0); apply grammar_zero|].
    exists (expr_add t (int_val 0)). replace (2 * S i + 1) with (2 * i + 1 + 1 + 1) by lia.
    apply grammar_add; [done|apply grammar_zero]. }
  destruct Ht as [t Ht%elem_stratum]. intros E. rewrite E in Ht. by apply elem_of_nil in Ht.
Qed.

(** The candidates of the sizes below [n], in the order they are drawn. *)
Definition layer (i : nat) : list Candidate := mkCandidate i <$> stratum i.
Fixpoint up_to (n : nat) : list Candidate :=
  match n with O => [] | S k => up_to k ++ layer k end.

(** What has been drawn from an enumerator. *)
Definition emitted (e : CandidateEnumerator) : list Candidate :=
  up_to (current_size_ e) ++ take (current_index_ e) (layer (current_size_ e)).

Definition enumerator_ok (e : CandidateEnumerator) : Prop :=
  (exists n, 2 <= n /\ by_size_ e = levels n) /\ 1 <= current_size_ e /\
  current_index_ e <= length (stratum (current_size_ e)).

Lemma make_enumerator_ok : enumerator_ok (make_enumerator inputs).
Proof. split_and!; [by exists 2|simpl; lia..]. Qed.

Lemma make_enumerator_emitted : emitted (make_enumerator inputs) = [].
Proof. unfold emitted. simpl. unfold layer, stratum. by rewrite take_0. Qed.

Lemma ensure_size_levels size e n :
  2 <= n -> by_size_ e = levels n -> by_size_ (ensure_size size e) = levels (max n (S size)).
Proof.
  intros Hn E. simpl. rewrite E, levels_length by done. destruct (decide (S size <= n)) as [Hle|Hgt].
  - replace (S size - n) with 0 by lia. by replace (max n (S size)) with n by lia.
  - replace (max n (S size)) with (S size - n + n) by lia. generalize (S size - n) as k.
    induction k as [|k IH]; [done|]. change (S k + n) with (S (k + n)). rewrite levels_grow, <- IH by lia. done.
Qed.

Lemma next_loop_step f e : enumerator_ok e -> exists n,
  2 <= n /\ next_loop (S f) e =
  match stratum (current_size_ e) !! current_index_ e with
  | Some t => Ok (mkCandidate (current_size_ e) t, mkEnumerator (levels n) (current_size_ e) (S (current_index_ e)))
  | None => next_loop f (mkEnumerator (levels n) (S (current_size_ e)) 0)
  end.
Proof.
  intros ((n & Hn & E) & H1 & Hi). exists (max n (S (current_size_ e))). split; [lia|]. cbn [next_loop].
  pose proof (ensure_size_levels (current_size_ e) e n Hn E) as Eb.
  change (current_size_ (ensure_size (current_size_ e) e)) with (current_size_ e).
  change (current_index_ (ensure_size (current_size_ e) e)) with (current_index_ e).
  rewrite Eb. unfold stratum. set (c := current_size_ e) in *. set (m := max n (S c)).
  assert (nth c (levels m) [] = nth c (levels (S (S c))) []) as ->; [|done].
  trans (nth c (levels (max m (S (S c)))) []); [symmetry|]; apply levels_nth; lia.
Qed.

Lemma emitted_found e n t :
  stratum (current_size_ e) !! current_index_ e = Some t ->
  emitted (mkEnumerator n (current_size_ e) (S (current_index_ e))) =
  emitted e ++ [mkCandidate (current_size_ e) t].
Proof.
  intros E. unfold emitted. simpl. rewrite <- app_assoc. f_equal. apply take_S_r.
  unfold layer. by rewrite list_lookup_fmap, E.
Qed.

Lemma emitted_skip e n :
  enumerator_ok e -> stratum (current_size_ e) !! current_index_ e = None ->
  emitted (mkEnumerator n (S (current_size_ e)) 0) = emitted e.
Proof.
  intros _ E%lookup_ge_None. unfold emitted. simpl. rewrite take_0, app_nil_r. f_equal.
  rewrite take_ge; [done|]. unfold layer. by rewrite length_fmap.
Qed.

(** [next] always returns, and appends its candidate to what was drawn. *)
Lemma next_ok e : enumerator_ok e -> exists c e',
  next e = Ok (c, e') /\ enumerator_ok e' /\ emitted e' = emitted e ++ [c].
Proof.
  assert (Hfound : forall f e t, enumerator_ok e -> stratum (current_size_ e) !! current_index_ e = Some t ->
    exists c e', next_loop (S f) e = Ok (c, e') /\ enumerator_ok e' /\ emitted e' = emitted e ++ [c]).
  { intros f e' t He E. destruct (next_loop_step f e' He) as (n & Hn & ->). rewrite E.
    eexists _, _. split_and!; [done| |by apply emitted_found].
    destruct He as (_ & H1 & _). split_and!; [by exists n|done|]. simpl. by apply lookup_lt_Some in E. }
  assert (Hskip : forall f e, enumerator_ok e -> stratum (current_size_ e) !! current_index_ e = None ->
    exists e', next_loop (S f) e = next_loop f e' /\ enumerator_ok e' /\ current_size_ e' = S (current_size_ e) /\
      current_index_ e' = 0 /\ emitted e' = emitted e).
  { intros f e' He E. destruct (next_loop_step f e' He) as (n & Hn & ->). rewrite E.
    eexists. split_and!; [done| |done..|by apply emitted_skip]. split_and!; [by exists n|simpl; lia..]. }
  intros He. unfold next. destruct (stratum (current_size_ e) !! current_index_ e) as [t|] eqn:E; [by eapply Hfound|].
  destruct (Hskip 2 e He E) as (e1 & -> & He1 & Es1 & Ei1 & <-).
  destruct (stratum (current_size_ e1) !! current_index_ e1) as [t|] eqn:E1; [by eapply Hfound|].
  destruct (Hskip 1 e1 He1 E1) as (e2 & -> & He2 & Es2 & Ei2 & <-).
  destruct (stratum (current_size_ e2) !! current_index_ e2) as [t|] eqn:E2; [by eapply Hfound|].
  exfalso. rewrite Ei1 in E1. rewrite Ei2 in E2.
  apply lookup_ge_None in E1, E2.
  destruct (Nat.Even_or_Odd (current_size_ e1)) as [[k Hk]|[k Hk]].
  - rewrite Es2, Hk in E2. replace (S (2 * k)) with (2 * k + 1) in E2 by lia.
    apply (stratum_odd k), nil_length_inv. lia.
  - rewrite Hk in E1. apply (stratum_odd k), nil_length_inv. lia.
Qed.

(** ** What is drawn *)

Lemma up_to_prefix n m : n <= m -> up_to n `prefix_of` up_to m.
Proof. induction 1; [done|]. simpl. by apply prefix_app_r. Qed.

Lemma emitted_prefix e : emitted e `prefix_of` up_to (S (current_size_ e)).
Proof. unfold emitted. simpl. apply prefix_app. exists (drop (current_index_ e) (layer (current_size_ e))). by rewrite take_drop. Qed.

Lemma elem_up_to n c : c ∈ up_to n <-> c_size c < n /\ grammar (c_size c) (c_term c).
Proof.
  induction n as [|n IH]; simpl; [rewrite elem_of_nil; lia|].
  rewrite elem_of_app, IH. unfold layer. rewrite list_elem_of_fmap. split.
  - intros [[? ?]|(t & -> & Ht%elem_stratum)]; simpl; split; auto; lia.
  - intros [Hlt Hg]. destruct (decide (c_size c = n)) as [<-|]; [right|left; split; [lia|done]].
    exists (c_term c). destruct c. by rewrite elem_stratum.
Qed.

Lemma NoDup_up_to n : NoDup (up_to n).
Proof.
  induction n as [|n IH]; simpl; [apply NoDup_nil_2|]. apply NoDup_app. split_and!; [done| |].
  - intros c [Hlt _]%elem_up_to (t & -> & _)%list_elem_of_fmap. simpl in Hlt. lia.
  - apply NoDup_fmap_2; [intros ? ?; congruence|apply NoDup_stratum].
Qed.

Lemma sorted_up_to n : StronglySorted (fun a b => c_size a <= c_size b) (up_to n).
Proof.
  induction n as [|n IH]; simpl; [constructor|]. apply StronglySorted_app_2; [|done|].
  - intros a b [Ha _]%elem_up_to (t & -> & _)%list_elem_of_fmap. simpl. lia.
  - unfold layer. induction (stratum n) as [|t l IHl]; simpl; constructor; [done|].
    apply Forall_fmap, Forall_forall. simpl. lia.
Qed.

(** [draw k]: the candidates of [k] calls of [next]. *)
Fixpoint draw (k : nat) (e : CandidateEnumerator) : outcome string (list Candidate * CandidateEnumerator) :=
  match k with
  | O => Ok ([], e)
  | S k' => '(c, e) ← next e; '(cs, e) ← draw k' e; Ok (c :: cs, e)
  end.

Lemma draw_ok k e : enumerator_ok e -> exists cs e',
  draw k e = Ok (cs, e') /\ enumerator_ok e' /\ length cs = k /\ emitted e' = emitted e ++ cs.
Proof.
  revert e; induction k as [|k IH]; intros e He; simpl; [by exists [], e; rewrite app_nil_r|].
  destruct (next_ok e He) as (c & e1 & -> & He1 & Ec). simpl.
  destruct (IH e1 He1) as (cs & e2 & -> & He2 & Hl & Ecs). simpl.
  exists (c :: cs), e2. split_and!; [done|done|simpl; lia|]. by rewrite Ecs, Ec, <- app_assoc.
Qed.

(** What has been drawn, up to any point, covers every size it has gone past. *)
Lemma up_to_drawn n e l : l `prefix_of` emitted e -> length (up_to n) <= length l -> up_to n ⊆ l.
Proof.
  intros Hp Hl. set (m := max n (S (current_size_ e))).
  assert (Hm : l `prefix_of` up_to m).
  { etrans; [exact Hp|]. etrans; [apply emitted_prefix|apply up_to_prefix; lia]. }
  destruct (prefix_weak_total (up_to n) l (up_to m)) as [[k ->]|Hq]; [apply up_to_prefix; lia|done| |].
  - intros c Hc. apply elem_of_app. by left.
  - by rewrite (prefix_length_eq _ _ Hq Hl).
Qed.

(** C15. Drawing from a fresh enumerator never fails or loops: the first [k]
    calls of [next] return [k] distinct candidates in order of size, each a
    grammar term with exactly its size; and every grammar term is among
    them once [k] reaches the number of terms of no larger size. *)
Theorem enumerator_fair (k : nat) :
  exists cs e, draw k (make_enumerator inputs) = Ok (cs, e) /\ length cs = k /\ NoDup cs /\
    StronglySorted (fun a b => c_size a <= c_size b) cs /\
    (forall c, c ∈ cs -> grammar (c_size c) (c_term c)) /\
    (forall n t, grammar n t -> length (up_to (S n)) <= k -> mkCandidate n t ∈ cs).
Proof.
  destruct (draw_ok k _ make_enumerator_ok) as (cs & e & Ed & He & Hl & Ee).
  rewrite make_enumerator_emitted in Ee. simpl in Ee. pose proof (emitted_prefix e) as [rest Hr].
  rewrite Ee in Hr. exists cs, e. split_and!; [done|done| | | |].
  - pose proof (NoDup_up_to (S (current_size_ e))) as Hn. rewrite Hr in Hn. by apply NoDup_app in Hn as [? _].
  - pose proof (sorted_up_to (S (current_size_ e))) as Hs. rewrite Hr in Hs. by eapply StronglySorted_app_1_l.
  - intros c Hc. apply (elem_up_to (S (current_size_ e))). rewrite Hr, elem_of_app. by left.
  - intros n t Ht Hk. rewrite <- Ee. apply (up_to_drawn (S n) e); [done|rewrite Ee; lia|].
    apply elem_up_to. simpl. split; [lia|done].
Qed.
End Enumerator.
