(* ===== verification/SynthesisSpec.v ===== *)
(** * The refutation synthesizer is correct

    [run_verifies]: a result satisfies the specification in every
    interpretation.  [run_correct]: without a recorder the only errors are
    solver answers of unknown, the core is never empty and the independent
    check never finds a counterexample; and when finitely many grammar terms
    cover every input the loop ends. *)

From stdpp Require Import gmap sorting.
From S2P Require Import Prelude Format Json Source Z3Ast Z3Solver Lift Recorder Observers Synthesis EnumeratorSpec.
From Stdlib Require Import NArith ZArith.

(** An outcome with its three cases. *)
Definition obeys {E A} (m : outcome E A) (Q : A -> Prop) (X : E -> Prop) (D : Prop) : Prop :=
  match m with Ok a => Q a | Err e => X e | Diverge => D end.

Lemma exists_or_none {A} (P : A -> Prop) (l : list A) :
  (forall x, P x \/ ~ P x) -> Exists P l \/ Forall (fun x => ~ P x) l.
Proof.
  intros Hd. induction l as [|x l [?|?]]; [by right; constructor|by left; apply Exists_cons_tl|].
  destruct (Hd x); [by left; apply Exists_cons_hd|by right; constructor].
Qed.

Section Spec.
Context `{Z3Api} {HX : Z3Exprs} {HM : Z3Meaning} {HL : Z3MeaningLaws} {HS : Z3Solver} {HSL : Z3SolverLaws}.
Context (term_to_string : Term -> string) (term_ast_id : Term -> N).
Context (self : RefutationSynthesizer).

(** The constants the synthesizer makes. *)
Definition reserved (c : Term) : Prop :=
  (exists i s, c = constant (parameter_name self i) s) \/ exists i, c = bool_const (label_name self i).

(** Parameters and result are distinct uninterpreted constants, and the
    specification and the grammar do not mention reserved ones. *)
Record well_posed : Prop := {
  wp_parameters : Forall symbolic (parameters_ self);
  wp_result : symbolic (result_placeholder_ self);
  wp_distinct : NoDup (parameters_ self ++ [result_placeholder_ self]);
  wp_specification c : reserved c -> occurs c (specification_ self) = false;
  wp_inputs c p : reserved c -> p ∈ grammar_inputs_ self -> occurs c p = false
}.

Context (Hwp : well_posed).
Let grammar := grammar (grammar_inputs_ self).
Let ks := counterexample_parameters self.
Let ps := parameters_ self.

(** ** Specifications and instances *)

Lemma ks_length : length ps = length ks.
Proof. symmetry. apply length_imap. Qed.

Lemma ks_symbolic : Forall symbolic ks.
Proof.
  apply Forall_lookup. intros i c. unfold ks, counterexample_parameters. rewrite list_lookup_imap.
  destruct (parameters_ self !! i); intros [= <-]. apply constant_symbolic.
Qed.

Lemma ps_NoDup : NoDup ps /\ result_placeholder_ self ∉ ps.
Proof.
  pose proof (wp_distinct Hwp) as Hn. apply NoDup_app in Hn as (Hn & Hd & _). split; [done|].
  intros Hr. by apply (Hd _ Hr), list_elem_of_singleton.
Qed.

Lemma eval_specification_at w e t :
  eval w e (specification_at self t) = eval w (assign e [result_placeholder_ self] [eval w e t]) (specification_ self).
Proof.
  unfold specification_at, substitute. rewrite eval_substitute; [done| |apply NoDup_singleton|done].
  constructor; [apply (wp_result Hwp)|constructor].
Qed.

Lemma specification_at_congr w e t u :
  eval w e t = eval w e u -> holds w e (specification_at self t) -> holds w e (specification_at self u).
Proof. unfold holds. rewrite !eval_specification_at. by intros ->. Qed.

(** An instance says the specification of its candidate, at the
    counterexample symbols. *)
Lemma holds_instance w e t :
  holds w e (instance_of self t) <-> holds w (assign e ps (e <$> ks)) (specification_at self t).
Proof.
  unfold holds, instance_of, substitute. destruct ps_NoDup as [Hn Hr]. fold ks ps.
  rewrite eval_specification_at, eval_substitute; [|apply Forall_app; split; [apply (wp_parameters Hwp)|
    constructor; [apply (wp_result Hwp)|constructor]]|apply (wp_distinct Hwp)|
    rewrite !length_app, ks_length; done].
  rewrite fmap_app. simpl. rewrite eval_substitute by (auto using ks_length; apply (wp_parameters Hwp)).
  rewrite !eval_fmap_symbolic by apply ks_symbolic.
  erewrite eval_agree; [done|]. intros c _ _. apply assign_app; [|done]. rewrite length_fmap. apply ks_length.
Qed.

(** ** Assembling a core *)

Lemma assemble_holds w e a ts :
  holds w e (specification_at self a) \/ Exists (fun t => holds w e (specification_at self t)) ts ->
  holds w e (specification_at self (assemble self a ts)).
Proof.
  revert a; induction ts as [|t ts IH]; intros a; simpl; [by intros [?|?%Exists_nil]|].
  intros Hs. apply IH. rewrite Exists_cons in Hs.
  destruct (holds_dec w e (specification_at self t)) as [Ht|Ht].
  - left. eapply specification_at_congr; [|exact Ht]. by rewrite eval_ite_true.
  - destruct Hs as [Ha|[?|?]]; [|done|by right].
    left. eapply specification_at_congr; [|exact Ha]. by rewrite eval_ite_false.
Qed.

Lemma elem_core_indices sels core i :
  i ∈ core_indices sels core <-> exists s, sels !! i = Some s /\ s_label s ∈ core.
Proof.
  unfold core_indices, contains. rewrite list_elem_of_fmap. split.
  - intros ([j s] & -> & Hf). apply list_elem_of_filter in Hf as [Hc Hi]. simpl in *.
    apply elem_of_lookup_imap_1 in Hi as (k & s' & [= -> ->] & Hs). exists s'. split; [done|].
    apply existsb_exists in Hc as (x & Hx & ->%term_eqb_spec). by apply list_elem_of_In.
  - intros (s & Hs & Hc). exists (i, s). split; [done|]. apply list_elem_of_filter. simpl. split.
    + apply existsb_exists. exists (s_label s). rewrite term_eqb_spec. by rewrite <- list_elem_of_In.
    + by apply (elem_of_lookup_imap_2 (fun i s => (i, s))).
Qed.

Lemma elem_contains core t : contains core t = true <-> t ∈ core.
Proof.
  unfold contains. rewrite existsb_exists, list_elem_of_In. split.
  - by intros (x & Hx & ->%term_eqb_spec).
  - intros Ht. exists t. by rewrite term_eqb_spec.
Qed.

(** ** Names *)

Lemma label_inj i j : bool_const (label_name self i) = bool_const (label_name self j) -> i = j.
Proof. intros E%constant_name. by apply append_inv_head, append_inv_head, append_inv_head, to_string_inj in E. Qed.

Lemma parameter_inj i j s s' : constant (parameter_name self i) s = constant (parameter_name self j) s' -> i = j.
Proof. intros E%constant_name. by apply append_inv_head, append_inv_head, append_inv_head, to_string_inj in E. Qed.

Lemma label_not_parameter i j s : bool_const (label_name self i) <> constant (parameter_name self j) s.
Proof. intros E%constant_name. by apply append_inv_head, append_inv_head in E. Qed.

Lemma ks_NoDup : NoDup ks.
Proof.
  apply NoDup_alt. intros i j c. unfold ks, counterexample_parameters. rewrite !list_lookup_imap.
  destruct (parameters_ self !! i), (parameters_ self !! j); simpl; intros [= <-] [=]; by eapply parameter_inj.
Qed.

Lemma ks_reserved c : c ∈ ks -> reserved c.
Proof.
  intros (i & Hi)%list_elem_of_lookup. unfold ks, counterexample_parameters in Hi. rewrite list_lookup_imap in Hi.
  destruct (parameters_ self !! i); simplify_eq/=. left. eauto.
Qed.

Lemma reserved_symbolic c : reserved c -> symbolic c.
Proof. intros [(i & s & ->)|(i & ->)]; apply constant_symbolic. Qed.

Lemma grammar_fresh n t c : grammar n t -> reserved c -> occurs c t = false.
Proof.
  intros Ht Hc. pose proof (reserved_symbolic c Hc) as Hs. apply Bool.not_true_iff_false.
  induction Ht as [p Hp _| | |i j l r _ IHl _ IHr|i j l r _ IHl _ IHr].
  - by rewrite (wp_inputs Hwp c p Hc Hp).
  - by rewrite occurs_int_val.
  - by rewrite occurs_int_val.
  - by intros [?|?]%occurs_add.
  - by intros [?|?]%occurs_sub.
Qed.

(** ** What the solver's context says *)

Definition guard (s : SynthesisSelection) : Term := expr_implies (s_label s) (expr_not (ground_instance s)).

Definition selections_ok (processed : list Candidate) (sels : list SynthesisSelection) : Prop :=
  forall i s, sels !! i = Some s ->
    s_label s = bool_const (label_name self i) /\ ground_instance s = instance_of self (s_term s) /\
    mkCandidate (grammar_size s) (s_term s) ∈ processed.

Definition from_grammar (processed : list Candidate) : Prop :=
  forall c, c ∈ processed -> grammar (c_size c) (c_term c).

(** An interpretation with the counterexample symbols at the parameters'
    values and the labels of [core] on. *)
Definition refuting_env (sels : list SynthesisSelection) (core : list Term) (e : Env) : Env :=
  assign (assign e (s_label <$> sels) ((fun s => vbool (contains core (s_label s))) <$> sels)) ks (e <$> ps).

Lemma refuting_env_ok sels core e processed :
  selections_ok processed sels -> env_ok e -> env_ok (refuting_env sels core e).
Proof.
  intros Hs He. apply env_ok_assign; [apply env_ok_assign; [done|]|].
  - apply Forall2_fmap, Forall_Forall2_diag, Forall_lookup. intros i s Hi.
    destruct (Hs i s Hi) as (-> & _). unfold bool_const. by rewrite vbool_sort, constant_sort.
  - apply Forall2_lookup. intros i. unfold ks, counterexample_parameters. rewrite list_lookup_imap, list_lookup_fmap.
    unfold ps. destruct (parameters_ self !! i) as [p|] eqn:E; constructor.
    rewrite constant_sort. apply He. pose proof (wp_parameters Hwp) as Hp. rewrite Forall_lookup in Hp. eauto.
Qed.

Lemma refuting_env_labels sels core e processed i s :
  selections_ok processed sels -> sels !! i = Some s ->
  refuting_env sels core e (s_label s) = vbool (contains core (s_label s)).
Proof.
  intros Hs Hi. unfold refuting_env. rewrite assign_other.
  - eapply assign_lookup with (i := i); rewrite ?list_lookup_fmap, ?Hi; [|done..].
    apply NoDup_alt. intros j k c. rewrite !list_lookup_fmap.
    destruct (sels !! j) as [a|] eqn:Ej, (sels !! k) as [b|] eqn:Ek; simpl; intros [= <-] [=].
    destruct (Hs j a Ej) as (Ea & _), (Hs k b Ek) as (Eb & _). apply label_inj. congruence.
  - destruct (Hs i s Hi) as (-> & _). intros (j & Hj)%list_elem_of_lookup.
    unfold ks, counterexample_parameters in Hj. rewrite list_lookup_imap in Hj.
    destruct (parameters_ self !! j); simplify_eq/=. by eapply label_not_parameter.
Qed.

(** Seen through the counterexample symbols, it is the environment it came from. *)
Lemma refuting_env_agree sels core e processed c :
  selections_ok processed sels -> symbolic c -> ~ reserved c ->
  assign (refuting_env sels core e) ps (refuting_env sels core e <$> ks) c = e c.
Proof.
  intros Hs Hc Hr. destruct ps_NoDup as [Hn _]. unfold refuting_env at 2.
  rewrite assign_fmap by (try apply ks_NoDup; rewrite length_fmap; symmetry; apply ks_length).
  destruct (decide (c ∈ ps)) as [(i & Hi)%list_elem_of_lookup|Hp].
  - eapply assign_lookup; [done|exact Hi|]. by rewrite list_lookup_fmap, Hi.
  - rewrite assign_other by done. unfold refuting_env.
    rewrite assign_other by (intros ?%ks_reserved; done). apply assign_other.
    intros (s & -> & (i & Hi)%list_elem_of_lookup)%list_elem_of_fmap. apply Hr. right. exists i.
    by destruct (Hs i s Hi) as (-> & _).
Qed.

Lemma refuting_env_instance sels core e processed w n t :
  selections_ok processed sels -> grammar n t ->
  holds w (refuting_env sels core e) (instance_of self t) -> holds w e (specification_at self t).
Proof.
  intros Hs Ht Hi%holds_instance. unfold holds in *. rewrite eval_specification_at in Hi |- *.
  set (e' := assign (refuting_env _ _ _) ps _) in Hi.
  assert (Et : eval w e' t = eval w e t).
  { apply eval_agree. intros c Hc Ho. eapply refuting_env_agree; [done..|].
    intros Hr. by rewrite (grammar_fresh n t c) in Ho. }
  rewrite <- Hi, Et. apply eval_agree. intros c Hc Ho. simpl.
  destruct (term_eqb (result_placeholder_ self) c); [done|]. symmetry. eapply refuting_env_agree; [done..|].
  intros Hr. by rewrite (wp_specification Hwp) in Ho.
Qed.

(** A core that refutes the guards covers every interpretation. *)
Lemma core_covers sels processed core w e :
  selections_ok processed sels -> from_grammar processed -> core ⊆ s_label <$> sels ->
  (forall w e, env_ok e -> all_hold w e (guard <$> sels) -> ~ all_hold w e core) -> env_ok e ->
  Exists (fun t => holds w e (specification_at self t)) (omap (term_at sels) (core_indices sels core)).
Proof.
  intros Hs Hg Hsub Href He. set (e' := refuting_env sels core e).
  assert (Hl : forall i s, sels !! i = Some s -> holds w e' (s_label s) <-> s_label s ∈ core).
  { intros i s Hi. unfold holds, e'. rewrite eval_symbolic, (refuting_env_labels sels core e processed i s) by
      (try done; destruct (Hs i s Hi) as (-> & _); apply constant_symbolic).
    rewrite <- elem_contains. destruct (contains _ _); [done|].
    split; [intros E; by destruct vbool_true_false|done]. }
  destruct (exists_or_none (fun t => holds w e (specification_at self t))
    (omap (term_at sels) (core_indices sels core))) as [?|Hno]; [intros; apply holds_dec|done|].
  exfalso. apply (Href w e'); [by eapply refuting_env_ok|..].
  - apply Forall_fmap, Forall_lookup. intros i s Hi. apply holds_implies. intros Hc%(Hl i s Hi).
    apply holds_not. destruct (Hs i s Hi) as (_ & -> & Hp). intros Hi'.
    eapply refuting_env_instance in Hi'; [|done|by apply Hg in Hp]. revert Hi'. rewrite Forall_forall in Hno. apply Hno.
    apply list_elem_of_omap. exists i. rewrite elem_core_indices. unfold term_at. rewrite Hi. eauto.
  - apply Forall_forall. intros c Hc. pose proof Hc as Hc'.
    apply Hsub in Hc' as (s & -> & (i & Hi)%list_elem_of_lookup)%list_elem_of_fmap. by apply (Hl i s Hi).
Qed.

(** ** The loops *)

(** The grammar terms of size at most [n] cover every interpretation. *)
Definition covered (n : nat) : Prop :=
  forall w e, env_ok e -> exists m t, m <= n /\ grammar m t /\ holds w e (specification_at self t).

(** How many grammar terms have size at most [n]. *)
Definition bound (n : nat) : nat := length (up_to (grammar_inputs_ self) (S n)).

Abbreviation emitted := (emitted (grammar_inputs_ self)).
Abbreviation enumerator_ok := (enumerator_ok (grammar_inputs_ self)).

(** Every processed candidate is out of use: no interpretation of the
    context satisfies its instance. *)
Definition exhausted (processed : list Candidate) (st : SynthState) : Prop :=
  forall c w e, c ∈ processed -> env_ok e -> all_hold w e (guard <$> selections st) ->
    all_hold w e (active st) -> ~ holds w e (instance_of self (c_term c)).

Record loop_inv (processed : list Candidate) (st : SynthState) : Prop := {
  li_frames : frames (gamma st) = [guard <$> selections st];
  li_active : active st = s_label <$> selections st;
  li_selections : selections_ok processed (selections st);
  li_enumerator : enumerator_ok (candidates st);
  li_prefix : processed `prefix_of` emitted (candidates st);
  li_exhausted : exhausted processed st
}.

(** The context has an interpretation. *)
Definition live_context (st : SynthState) : Prop :=
  exists w e, env_ok e /\ all_hold w e (guard <$> selections st) /\ all_hold w e (active st).

Lemma initial_inv : loop_inv [] (initial_state self).
Proof.
  split; simpl; [apply frames_mk|reflexivity|by intros i s|apply make_enumerator_ok|apply prefix_nil|].
  by intros c w e ?%elem_of_nil.
Qed.

Lemma from_grammar_processed processed st : loop_inv processed st -> from_grammar processed.
Proof.
  intros Hi c Hc. apply (elem_up_to _ (S (current_size_ (candidates st)))).
  destruct (li_prefix _ _ Hi) as [k Hk]. destruct (emitted_prefix (grammar_inputs_ self) (candidates st)) as [k' ->].
  rewrite Hk, !elem_of_app. auto.
Qed.

(** While an interpretation remains, a covering size is not used up. *)
Lemma live_below processed st n :
  loop_inv processed st -> live_context st -> covered n -> length processed < bound n.
Proof.
  intros Hi (w & e & He & Hg & Ha) Hc. apply Nat.nle_gt. intros Hle.
  set (e' := assign e ps (e <$> ks)). assert (He' : env_ok e').
  { apply env_ok_assign; [done|]. apply Forall2_lookup. intros i. unfold ks, counterexample_parameters.
    rewrite list_lookup_fmap, list_lookup_imap. unfold ps.
    destruct (parameters_ self !! i); constructor. rewrite He; [apply constant_sort|apply constant_symbolic]. }
  destruct (Hc w e' He') as (m & t & Hm & Ht & Hs).
  assert (Hp : mkCandidate m t ∈ processed).
  { eapply up_to_drawn; [apply (li_prefix _ _ Hi)|exact Hle|]. apply elem_up_to. simpl. split; [lia|done]. }
  apply (li_exhausted _ _ Hi _ w e Hp He Hg Ha). simpl. by apply holds_instance.
Qed.

Definition unknown_error (message : string) : Prop :=
  exists reason, message = "candidate selection was unknown: " +:+ reason \/
    message = "synthesis context was unknown: " +:+ reason \/
    message = "synthesized candidate verification was unknown: " +:+ reason.

Lemma selections_ok_mono processed processed' sels :
  processed ⊆ processed' -> selections_ok processed sels -> selections_ok processed' sels.
Proof. intros Hp Hs i s Hi. destruct (Hs i s Hi) as (? & ? & ?). auto. Qed.

Lemma coverage_frames st instance l :
  frames (gamma st) = [l] -> frames (coverage_query self st instance).2 = [l].
Proof.
  intros Hf. unfold coverage_query. destruct (s_check _ _) as [r g] eqn:E. simpl.
  eapply frames_pop. pose proof (frames_check (s_add (s_push (gamma st)) instance) (active st)) as Hc.
  rewrite E in Hc. simpl in Hc. rewrite Hc. eapply frames_add. by rewrite frames_push, Hf.
Qed.

(** An unsatisfiable coverage query puts the candidate out of use. *)
Lemma coverage_unsat st instance w e :
  frames (gamma st) = [guard <$> selections st] -> (coverage_query self st instance).1.1 = unsat ->
  env_ok e -> all_hold w e (guard <$> selections st) -> all_hold w e (active st) -> ~ holds w e instance.
Proof.
  intros Hf Hu He Hg Ha Hi. unfold coverage_query in Hu.
  destruct (s_check _ _) as [r g] eqn:E. simpl in Hu. subst r.
  eapply (check_unsat (s_add (s_push (gamma st)) instance) (active st) w e); [by rewrite E|done| |done].
  erewrite frames_add by apply frames_push. simpl. rewrite Hf. simpl. rewrite app_nil_r. by constructor.
Qed.

Lemma rejected_inv processed st selected e g :
  loop_inv processed st -> emitted (candidates st) = processed ++ [selected] ->
  (coverage_query self st (instance_of self (c_term selected))).1.1 = unsat ->
  frames g = [guard <$> selections st] -> enumerator_ok e -> emitted (candidates st) `prefix_of` emitted e ->
  loop_inv (processed ++ [selected]) (with_candidates (with_query st g) e).
Proof.
  intros Hi Ee Hu Hf He Hp. split; simpl; [done|apply (li_active _ _ Hi)| |done|by rewrite <- Ee|].
  - eapply selections_ok_mono; [|apply (li_selections _ _ Hi)]. intros c Hc. apply elem_of_app. by left.
  - intros c w e' Hc. apply elem_of_app in Hc as [Hc|Hc]; [by apply (li_exhausted _ _ Hi)|].
    apply list_elem_of_singleton in Hc as ->. exact (coverage_unsat st _ w e' (li_frames _ _ Hi) Hu).
Qed.

Lemma activated_inv processed st selected g :
  loop_inv processed st -> emitted (candidates st) = processed ++ [selected] ->
  frames g = [guard <$> selections st] ->
  let instance := instance_of self (c_term selected) in
  let label := bool_const (label_name self (length (selections st))) in
  loop_inv (processed ++ [selected]) (activate (with_query st g) selected instance label).
Proof.
  intros Hi Ee Hf instance label. split; simpl.
  - erewrite frames_add by exact Hf. by rewrite fmap_app.
  - by rewrite (li_active _ _ Hi), fmap_app.
  - intros i s [Hs|[Hge Hs]]%lookup_app_Some.
    + destruct (li_selections _ _ Hi i s Hs) as (? & ? & ?). split_and!; [done..|]. apply elem_of_app. by left.
    + apply list_lookup_singleton_Some in Hs as [E <-]. simpl. unfold label, instance.
      replace i with (length (selections st)) by lia. split_and!; [done..|].
      apply elem_of_app. right. destruct selected. by left.
  - apply (li_enumerator _ _ Hi).
  - by rewrite Ee.
  - intros c w e Hc He Hg Ha. simpl in Hg, Ha. unfold all_hold in Hg, Ha. rewrite fmap_app in Hg.
    apply Forall_app in Hg as [Hg Hg'], Ha as [Ha Ha'].
    apply elem_of_app in Hc as [Hc|Hc]; [by apply (li_exhausted _ _ Hi)|].
    apply list_elem_of_singleton in Hc as ->.
    apply Forall_cons_1 in Hg' as [Hg' _], Ha' as [Ha' _]. unfold guard in Hg'. simpl in Hg'.
    rewrite holds_implies, holds_not in Hg'. by apply Hg'.
Qed.

Abbreviation candidate_loop := (candidate_loop term_to_string term_ast_id self).
Abbreviation state_loop := (state_loop term_to_string term_ast_id self).

(** What a loop leaves: every drawn candidate is processed, and there are
    no more of them than a covering size has. *)
Definition settled (st : SynthState) : Prop :=
  loop_inv (emitted (candidates st)) st /\ forall n, covered n -> length (emitted (candidates st)) <= bound n.

Lemma candidate_loop_obeys fuel selected st processed :
  loop_inv processed st -> emitted (candidates st) = processed ++ [selected] -> live_context st ->
  let m := candidate_loop fuel selected st None in
  m.2 = None /\
  obeys m.1 (fun st' => settled st' /\ length processed < length (emitted (candidates st'))) unknown_error
    (forall n, covered n -> fuel + length processed <= bound n).
Proof.
  revert selected st processed. induction fuel as [|fuel IH]; intros selected st processed Hi Ee Hlive; simpl.
  { split; [done|]. intros n Hn. pose proof (live_below _ _ _ Hi Hlive Hn). lia. }
  pose proof (coverage_frames st (instance_of self (c_term selected)) _ (li_frames _ _ Hi)) as Hf.
  pose proof (coverage_unsat st (instance_of self (c_term selected))) as Hu.
  unfold mbind, SynthM_bind. simpl.
  destruct (coverage_query self st (instance_of self (c_term selected))) as [[useful values] g] eqn:E. simpl in *.
  destruct useful; simpl.
  - split; [done|]. unfold settled. cbn [candidates activate with_query]. rewrite Ee. split; [split|].
    + by apply activated_inv.
    + intros n Hn. rewrite length_app. pose proof (live_below _ _ _ Hi Hlive Hn). simpl. lia.
    + rewrite length_app. simpl. lia.
  - destruct (next_ok (grammar_inputs_ self) (candidates st) (li_enumerator _ _ Hi)) as (c & e & -> & He & Ec). simpl.
    specialize (IH c (with_candidates (with_query st g) e) (processed ++ [selected])).
    destruct IH as [Hnone Hob].
    + apply rejected_inv; [done|done|by rewrite E|done|done|]. rewrite Ec. by apply prefix_app_r.
    + simpl. by rewrite Ec, Ee.
    + done.
    + split; [done|]. revert Hob. destruct (Synthesis.candidate_loop _ _ _ _ _ _ _) as [[st'|err|] rf]; simpl; [|done|].
      * rewrite length_app. simpl. intros [? ?]. split; [done|lia].
      * intros Hd n Hn. specialize (Hd n Hn). rewrite length_app in Hd. simpl in Hd. lia.
  - split; [done|]. eexists. by left.
Qed.

(** The core of a refutation, as the outer loop returns it. *)
Definition refuted (r : SynthState * list Term * string) : Prop :=
  let '(st, core, _) := r in
  settled st /\ core ⊆ s_label <$> selections st /\
  forall w e, env_ok e -> all_hold w e (guard <$> selections st) -> ~ all_hold w e core.

Lemma with_query_inv processed st g :
  loop_inv processed st -> frames g = [guard <$> selections st] -> loop_inv processed (with_query st g).
Proof. intros Hi Hf. by split; [|apply Hi..]. Qed.

Lemma state_loop_obeys budget fuel st :
  settled st ->
  let m := state_loop budget fuel st None in
  m.2 = None /\
  obeys m.1 refuted unknown_error
    (forall n, covered n -> fuel + length (emitted (candidates st)) <= bound n \/ budget <= bound n).
Proof.
  revert st. induction fuel as [|fuel IH]; intros st [Hi Hb]; simpl.
  { split; [done|]. intros n Hn. left. by apply Hb. }
  unfold mbind, SynthM_bind. simpl.
  pose proof (frames_check (gamma st) (active st)) as Hf. rewrite (li_frames _ _ Hi) in Hf.
  pose proof (check_sat (gamma st) (active st)) as Hsat.
  pose proof (unsat_core_subset (gamma st) (active st)) as Hsub.
  pose proof (unsat_core_refutes (gamma st) (active st)) as Href.
  rewrite (li_frames _ _ Hi) in Hsat, Href. simpl in Hsat, Href. rewrite app_nil_r in Hsat, Href.
  destruct (s_check (gamma st) (active st)) as [state g]. simpl in *.
  pose proof (with_query_inv _ _ g Hi Hf) as Hi'. destruct state; simpl.
  - destruct (next_ok (grammar_inputs_ self) (candidates st) (li_enumerator _ _ Hi)) as (c & e & -> & He & Ec). simpl.
    destruct (candidate_loop_obeys budget c (with_candidates (with_query st g) e) (emitted (candidates st)))
      as [Hnone Hob]; [|done|by apply Hsat|].
    { split; simpl; [apply Hi'..|done| |apply Hi']. rewrite Ec. by apply prefix_app_r. }
    destruct (Synthesis.candidate_loop _ _ _ _ _ _ _) as [[st'|err|] rf]; simpl in *; subst rf.
    + destruct Hob as [Hst' Hlt]. specialize (IH st' Hst') as [Hnone Hob]. split; [done|].
      revert Hob. destruct (Synthesis.state_loop _ _ _ _ _ _ _) as [[r|err|] rf]; simpl; [done..|].
      intros Hd n Hn. destruct (Hd n Hn); [left; lia|by right].
    + done.
    + split; [done|]. intros n Hn. right. specialize (Hob n Hn). lia.
  - split; [done|]. split_and!; [done| |intros; by apply Href]. rewrite <- (li_active _ _ Hi). by apply Hsub.
  - split; [done|]. eexists. right. by left.
Qed.

(** ** The whole run *)

Abbreviation run := (run term_to_string term_ast_id self).

(** [t] realizes the specification. *)
Definition realizes (t : Term) : Prop := forall w e, env_ok e -> holds w e (specification_at self t).

(** A verified result, with the evidence it carries. *)
Record good_result (r : SynthesisResult) : Prop := {
  gr_witness : realizes (r_witness r);
  gr_assembled : realizes (r_assembled r);
  gr_core : r_core_indices r <> [] /\ forall i, i ∈ r_core_indices r -> i < length (r_selections r);
  gr_selections i s : r_selections r !! i = Some s ->
    grammar (grammar_size s) (s_term s) /\ ground_instance s = instance_of self (s_term s) /\
    s_label s = bool_const (label_name self i)
}.

Lemma check_assertion t w e :
  (s_check (s_add mk_solver t) []).1 = unsat -> env_ok e -> ~ holds w e t.
Proof.
  intros Hu He Ht. eapply (check_unsat (s_add mk_solver t) []); [done|exact He| |apply Forall_nil_2].
  erewrite frames_add by apply frames_mk. simpl. by constructor; [|constructor].
Qed.

Lemma verify_obeys query t :
  realizes t ->
  let m := verify term_to_string term_ast_id self query t None in
  m.2 = None /\ obeys m.1 (fun _ => True) unknown_error False.
Proof.
  intros Ht. unfold verify, mbind, SynthM_bind. simpl.
  pose proof (check_sat (s_add mk_solver (expr_not (specification_at self t))) []) as Hsat.
  destruct (s_check _ _) as [[| |] g]; simpl in *; [|done|split; [done|]; eexists; right; by right].
  destruct (Hsat eq_refl) as (w & e & He & Hh & _). exfalso. erewrite frames_add in Hh by apply frames_mk.
  simpl in Hh. apply Forall_cons_1 in Hh as [Hh _]. apply holds_not in Hh. by apply Hh, Ht.
Qed.

Lemma assembled_realizes st core query first rest :
  refuted (st, core, query) ->
  omap (term_at (selections st)) (core_indices (selections st) core) = first :: rest ->
  realizes (assemble self first rest).
Proof.
  intros ((Hi & _) & Hsub & Href) E w e He. apply assemble_holds.
  cut (Exists (fun t => holds w e (specification_at self t)) (first :: rest)); [by rewrite Exists_cons|]. rewrite <- E.
  eapply core_covers; [apply (li_selections _ _ Hi)|by eapply from_grammar_processed|done..].
Qed.

Lemma refuted_core_nonempty st core query :
  refuted (st, core, query) -> omap (term_at (selections st)) (core_indices (selections st) core) <> [].
Proof.
  intros ((Hi & _) & Hsub & Href) E. destruct meaning_inhabited as (w & e & He).
  assert (Hx : Exists (fun t => holds w e (specification_at self t)) []); [|by apply Exists_nil in Hx].
  rewrite <- E. eapply core_covers; [apply (li_selections _ _ Hi)|by eapply from_grammar_processed|done..].
Qed.

Lemma refuted_result st core query first rest witness :
  refuted (st, core, query) ->
  omap (term_at (selections st)) (core_indices (selections st) core) = first :: rest ->
  realizes witness -> realizes (assemble self first rest) ->
  good_result (mkResult (assemble self first rest) witness (selections st) (core_indices (selections st) core)).
Proof.
  intros ((Hi & _) & Hsub & Href) E Hw Ha. split; simpl; [done|done| |].
  - split; [intros En; by rewrite En in E|]. intros i (s & Hs & _)%elem_core_indices. by eapply lookup_lt_Some.
  - intros i s Hs. destruct (li_selections _ _ Hi i s Hs) as (? & ? & Hp).
    split_and!; [|done..]. by apply (from_grammar_processed _ _ Hi) in Hp.
Qed.

(** C14. Without a recorder, a well-posed synthesis returns a verified
    result whose core indices are in range and whose selections are grammar
    terms of their recorded size, or stops because the solver answered
    unknown: it never throws for an empty core, the independent check never
    finds a counterexample, and it runs out of fuel only if no size [n] whose
    terms cover every input has fewer than [fuel] terms up to it. *)
Theorem run_correct fuel :
  obeys (run fuel None).1 good_result unknown_error (forall n, covered n -> fuel <= bound n).
Proof.
  unfold Synthesis.run, mbind, SynthM_bind. simpl.
  destruct (state_loop_obeys fuel fuel (initial_state self)) as [Hnone Hob].
  { unfold settled. simpl. rewrite make_enumerator_emitted. split; [apply initial_inv|simpl; lia]. }
  change (candidates (initial_state self)) with (make_enumerator (grammar_inputs_ self)) in Hob.
  rewrite make_enumerator_emitted in Hob.
  destruct (Synthesis.state_loop _ _ _ _ _ _ _) as [[[[st core] query]|err|] rf]; simpl in Hnone, Hob; subst rf;
    simpl; [|done|intros n Hn; destruct (Hob n Hn); lia].
  destruct (omap _ _) as [|first rest] eqn:E; [by destruct (refuted_core_nonempty st core query Hob)|].
  pose proof (assembled_realizes st core query _ _ Hob E) as Ha. simpl.
  assert (Hw : realizes (simplify (assemble self first rest))).
  { intros w e He. eapply specification_at_congr; [|by apply Ha]. by rewrite simplify_eval. }
  destruct (verify_obeys (query_name (query_sequence st)) _ Hw) as [Hv1 Hv2].
  destruct (verify _ _ _ _ _ _) as [[[]|err|] rf]; simpl in *; [|done..]. by apply (refuted_result st core query).
Qed.

(** ** Soundness with any recorder *)

Lemma synth_bind_inv {A B} (m : SynthM A) (k : A -> SynthM B) rf b rf' :
  (m ≫= k) rf = (Ok b, rf') -> exists a rf1, m rf = (Ok a, rf1) /\ k a rf1 = (Ok b, rf').
Proof. unfold mbind, SynthM_bind. destruct (m rf) as [[a|err|] rf1]; intros [=]; eauto. Qed.

(** The verification at the end of [run] makes the witness right. *)
Lemma run_verifies fuel rf rf' r w e :
  run fuel rf = (Ok r, rf') -> env_ok e -> holds w e (specification_at self (r_witness r)).
Proof.
  intros Hr He. unfold Synthesis.run in Hr.
  apply synth_bind_inv in Hr as ([] & rf1 & _ & Hr). apply synth_bind_inv in Hr as ([[st core] query] & rf2 & _ & Hr).
  destruct (omap _ _) as [|first rest]; [done|].
  apply synth_bind_inv in Hr as ([] & rf3 & _ & Hr). apply synth_bind_inv in Hr as (witness & rf4 & _ & Hr).
  apply synth_bind_inv in Hr as ([] & rf5 & _ & Hr). apply synth_bind_inv in Hr as ([] & rf6 & Hv & [= <- _]).
  simpl. unfold verify in Hv. apply synth_bind_inv in Hv as ([] & rf7 & _ & Hv).
  pose proof (check_assertion (expr_not (specification_at self witness)) w e) as Hu.
  destruct (s_check _ _) as [[| |] g]; apply synth_bind_inv in Hv as ([] & rf8 & _ & Hv); [done| |done].
  simpl in Hu. specialize (Hu eq_refl He). rewrite holds_not in Hu.
  destruct (holds_dec w e (specification_at self witness)) as [?|Hn]; [done|by destruct Hu].
Qed.
End Spec.
