(* ===== verification/SynthesisSample.v ===== *)
(** * A synthesis on concrete terms

    The interfaces of Z3Solver instantiated on the structural terms of
    Z3Ast: integer and Boolean values, an evaluator, and a small sound
    solver that refutes a reflexive disequality, finds one default model, and
    otherwise answers unknown.  On it the hypotheses of the synthesizer's
    theorems hold and a run can be computed. *)

From stdpp Require Import gmap.
From S2P Require Import Prelude Format Json Source Z3Ast Z3Solver Lift Recorder RecorderSpec Observers Synthesis EnumeratorSpec SynthesisSpec.
From Stdlib Require Import NArith ZArith.

Module SynthesisSample.
Import Structural.

(** ** Expressions *)

Definition op (k : DeclKind) (name : string) (domain : list string) (range : string) (args : list Term) : Term :=
  App (mkStructuralDecl k (SString name) [] domain range) args.

Definition sort_of (t : Term) : string :=
  match t with
  | Numeral _ s => s
  | App d _ => sd_range d
  | Var _ s => s
  | Quant _ _ _ _ _ _ _ _ => "Bool"
  end.

Definition const (name sort : string) : Term := op OP_OTHER name [] sort [].

Definition is_symbolic (t : Term) : bool :=
  match t with
  | App (mkStructuralDecl OP_OTHER (SString _) [] [] _) [] => true
  | _ => false
  end.

#[local] Arguments is_symbolic : simpl never.

Fixpoint find_to (t : Term) (from to : list Term) : option Term :=
  match from, to with
  | f :: from', u :: to' => if term_eqb f t then Some u else find_to t from' to'
  | _, _ => None
  end.

Fixpoint replace (from to : list Term) (t : Term) : Term :=
  match find_to t from to with
  | Some u => u
  | None => match t with App d l => App d (replace from to <$> l) | _ => t end
  end.

#[export] Instance exprs : Z3Exprs := {|
  int_sort := "Int" : @Sort data;
  bool_sort := "Bool" : @Sort data;
  get_sort := sort_of;
  int_val := fun n => Numeral (decimal (Z.to_N n)) "Int";
  constant := const;
  expr_add := fun a b => op OP_ADD "+" ["Int"; "Int"] "Int" [a; b];
  expr_sub := fun a b => op OP_SUB "-" ["Int"; "Int"] "Int" [a; b];
  expr_not := fun a => op OP_NOT "not" ["Bool"] "Bool" [a];
  expr_implies := fun a b => op OP_IMPLIES "=>" ["Bool"; "Bool"] "Bool" [a; b];
  expr_ite := fun c a b => op OP_ITE "ite" ["Bool"; sort_of a; sort_of a] (sort_of a) [c; a; b];
  expr_substitute := fun t from to => replace from to t;
  symbolic := fun t => is_symbolic t = true
|}.

Definition expr_eq (a b : Term) : Term := op OP_EQ "=" [sort_of a; sort_of a] "Bool" [a; b].

(** ** Meaning *)

Inductive V := VInt (z : Z) | VBool (b : bool) | VOther (s : string).

#[export] Instance V_eq_dec : EqDecision V.
Proof. solve_decision. Defined.

Definition truth (v : V) : bool := bool_decide (v = VBool true).

Definition apply_op (k : DeclKind) (vs : list V) : V :=
  match k, vs with
  | OP_ADD, [VInt a; VInt b] => VInt (a + b)
  | OP_SUB, [VInt a; VInt b] => VInt (a - b)
  | OP_NOT, [a] => VBool (negb (truth a))
  | OP_IMPLIES, [a; b] => VBool (implb (truth a) (truth b))
  | OP_ITE, [c; a; b] => if truth c then a else b
  | OP_EQ, [a; b] => VBool (bool_decide (a = b))
  | _, _ => VBool false
  end.

Definition numeral_of (v : string) : Z :=
  foldl (fun z c => (z * 10 + Z.of_N (N_of_ascii c - 48))%Z) 0%Z (list_ascii_of_string v).

Fixpoint value_of (e : Term -> V) (t : Term) : V :=
  if is_symbolic t then e t
  else match t with
       | Numeral v _ => VInt (numeral_of v)
       | App d l => apply_op (sd_kind d) (value_of e <$> l)
       | _ => VBool false
       end.

#[export] Instance meaning : Z3Meaning := {|
  World := unit;
  Value := V;
  value_sort := fun v => match v with VInt _ => "Int" | VBool _ => "Bool" | VOther s => s end;
  vbool := VBool;
  eval := fun _ => value_of
|}.

(** Integers at zero, Booleans true. *)
Definition default_env (c : Term) : V :=
  if (sort_of c =? "Int")%string then VInt 0 else if (sort_of c =? "Bool")%string then VBool true
  else VOther (sort_of c).

Lemma default_env_ok : env_ok default_env.
Proof.
  intros c _. simpl. unfold default_env. destruct (_ =? _)%string eqn:E; [by apply String.eqb_eq in E|].
  destruct (sort_of c =? "Bool")%string eqn:E'; [by apply String.eqb_eq in E'|done].
Qed.

Lemma is_symbolic_spec t : is_symbolic t = true <-> exists n s, t = const n s.
Proof.
  split; [|by intros (n & s & ->)].
  destruct t as [| [[] [] [|] [|] r] [|] | |]; try done. intros _. by eexists _, _.
Qed.

Lemma value_of_agree e e' t :
  (forall c, is_symbolic c = true -> occurs c t = true -> e c = e' c) -> value_of e t = value_of e' t.
Proof.
  induction t as [v s|d l IH|i s|k w q s bs ps ns b _ _ _] using Term_nested_ind; intros Hc; try done.
  simpl. destruct (is_symbolic (App d l)) eqn:E.
  - apply Hc; [done|]. simpl. by rewrite bool_decide_true, (proj2 (list_eqb_spec term_eqb l ltac:(apply Forall_forall; intros; apply term_eqb_spec) l)).
  - f_equal. apply list_fmap_ext. intros i t Hi. rewrite Forall_lookup in IH. apply (IH i t Hi).
    intros c Hs Ho. apply Hc; [done|]. simpl. apply orb_true_iff. right. apply existsb_exists. exists t.
    split; [|done]. by eapply list_elem_of_In, list_elem_of_lookup_2.
Qed.

Lemma find_to_assign t e from to (ev : Term -> V) :
  length from = length to ->
  match find_to t from to with Some u => assign e from (ev <$> to) t = ev u | None => t ∉ from end.
Proof.
  revert to; induction from as [|f from IH]; intros [|u to] Hl; simplify_eq/=; [by apply not_elem_of_nil|].
  destruct (term_eqb f t) eqn:E; [done|]. specialize (IH to Hl). destruct (find_to t from to); [done|].
  apply not_elem_of_cons. split; [|done]. intros ->. by rewrite (proj2 (term_eqb_spec f f)) in E.
Qed.

Lemma find_to_elem t from to u : find_to t from to = Some u -> t ∈ from.
Proof.
  revert to; induction from as [|f from IH]; intros [|v to]; simpl; try done.
  destruct (term_eqb f t) eqn:E; [intros _; apply term_eqb_spec in E as ->; by left|intros ?; right; eauto].
Qed.

Lemma value_of_replace e t from to :
  Forall (fun c => is_symbolic c = true) from -> length from = length to ->
  value_of e (replace from to t) = value_of (assign e from (value_of e <$> to)) t.
Proof.
  intros Hs Hl. set (e' := assign _ _ _).
  assert (Hfound : forall t u, find_to t from to = Some u -> value_of e u = value_of e' t).
  { intros t' u E. pose proof (find_to_assign t' e from to (value_of e) Hl) as Hf. rewrite E in Hf.
    apply find_to_elem in E. rewrite Forall_forall in Hs. specialize (Hs t' E). rewrite <- Hf.
    destruct t'; [done| |done..]. simpl. by rewrite Hs. }
  assert (Hnone : forall t, find_to t from to = None -> e' t = e t).
  { intros t' E. pose proof (find_to_assign t' e from to (value_of e) Hl) as Hf. rewrite E in Hf. by apply assign_other. }
  induction t as [v s|d l IH|i s|k w q s bs ps ns b _ _ _] using Term_nested_ind;
    cbn [replace]; destruct (find_to _ from to) eqn:E; try (by apply Hfound); try done.
  simpl. destruct (is_symbolic (App d l)) eqn:Es.
  - assert (l = []) as -> by (destruct d as [[] [] [|] [|] r], l; done).
    simpl. rewrite Es. symmetry. by apply Hnone.
  - assert (is_symbolic (App d (replace from to <$> l)) = false) as -> by (destruct d as [[] [] [|] [|] r], l; done).
    f_equal. rewrite <- list_fmap_compose. apply list_fmap_ext. intros i t Hi. rewrite Forall_lookup in IH. by apply (IH i).
Qed.

Lemma truth_true v : truth v = true <-> v = VBool true.
Proof. apply bool_decide_eq_true. Qed.

#[export] Instance meaning_laws : Z3MeaningLaws.
Proof.
  split; simpl.
  - exists tt, default_env. apply default_env_ok.
  - done.
  - done.
  - by intros n n' s s' [= ->].
  - done.
  - done.
  - intros w e c Hc. destruct c; [done| |done..]. simpl. by rewrite Hc.
  - intros w e e' t Hc. by apply value_of_agree.
  - intros w e t from to Hs _ Hl. by apply value_of_replace.
  - intros w e t. unfold holds. simpl. pose proof (truth_true (value_of e t)) as Ht.
    destruct (truth (value_of e t)); simpl; split; [done|by intros []; apply Ht|by intros _ ?%Ht|done].
  - intros w e a b. unfold holds. simpl. pose proof (truth_true (value_of e a)) as Ha.
    pose proof (truth_true (value_of e b)) as Hb.
    destruct (truth (value_of e a)), (truth (value_of e b)); simpl; split; intros; intuition congruence.
  - intros w e t. unfold holds. simpl. destruct (decide (value_of e t = VBool true)); auto.
  - intros w e c a b Hc. unfold holds in Hc. simpl in Hc. by rewrite Hc.
  - intros w e c a b Hc. unfold holds in Hc. simpl in Hc. rewrite <- truth_true in Hc. by destruct (truth _).
  - intros c a b (n & s & ->)%is_symbolic_spec. simpl. rewrite !orb_true_iff. naive_solver.
  - intros c a b (n & s & ->)%is_symbolic_spec. simpl. rewrite !orb_true_iff. naive_solver.
  - by intros c n (m & s & ->)%is_symbolic_spec.
Qed.

(** ** A solver *)

(** [not (t = t)] *)
Definition absurd (t : Term) : bool :=
  match t with
  | App d [App d' [a; b]] => bool_decide (sd_kind d = OP_NOT) && bool_decide (sd_kind d' = OP_EQ) && term_eqb a b
  | _ => false
  end.

(** The labels that imply an absurdity. *)
Definition absurd_label (t : Term) : option Term :=
  match t with
  | App d [l; b] => if bool_decide (sd_kind d = OP_IMPLIES) && absurd b then Some l else None
  | _ => None
  end.

Record SampleSolver := mkSampleSolver { scopes : list (list Term); last_core : list Term }.

Definition refute (assertions assumptions : list Term) : option (list Term) :=
  if existsb absurd assertions then Some []
  else match filter (fun l => l ∈ assumptions) (omap absurd_label assertions) with
       | l :: _ => Some [l]
       | [] => None
       end.

Definition check_sample (s : SampleSolver) (assumptions : list Term) : check_result * SampleSolver :=
  let assertions := List.concat (scopes s) in
  match refute assertions assumptions with
  | Some core => (unsat, mkSampleSolver (scopes s) core)
  | None =>
      (if forallb (fun t => truth (value_of default_env t)) (assertions ++ assumptions) then sat else unknown,
       mkSampleSolver (scopes s) [])
  end.

#[export] Instance sample_solver : Z3Solver := {|
  solver := SampleSolver;
  Model := unit;
  mk_solver := mkSampleSolver [[]] [];
  s_push := fun s => mkSampleSolver ([] :: scopes s) (last_core s);
  s_pop := fun s => mkSampleSolver (tail (scopes s)) (last_core s);
  s_add := fun s t =>
    mkSampleSolver (match scopes s with f :: fs => (f ++ [t]) :: fs | [] => [] end) (last_core s);
  s_check := check_sample;
  s_unsat_core := last_core;
  s_get_model := fun _ => tt;
  s_reason_unknown := fun _ => "incomplete";
  model_eval := fun _ _ => Numeral "0" "Int";
  simplify := fun t => t;
  theory_rewrite := fun t => ([], t)
|}.

Lemma value_of_op e d t l : value_of e (App d (t :: l)) = apply_op (sd_kind d) (value_of e <$> t :: l).
Proof. by destruct d as [[] [] [|] [|] r]. Qed.

Lemma absurd_false e t : absurd t = true -> value_of e t <> VBool true.
Proof.
  destruct t as [|d [|[|d' [|a [|b [|]]]| |] [|]]| |]; try done. simpl absurd.
  intros [[Hd%bool_decide_eq_true Hd'%bool_decide_eq_true]%andb_true_iff ->%term_eqb_spec]%andb_true_iff.
  rewrite value_of_op. cbn [fmap list_fmap]. rewrite value_of_op, Hd, Hd'. simpl.
  by rewrite (bool_decide_true _ eq_refl).
Qed.

Lemma refute_sound assertions assumptions core (w : World) (e : Env) :
  refute assertions assumptions = Some core ->
  core ⊆ assumptions /\ (all_hold w e assertions -> ~ all_hold w e core).
Proof.
  unfold refute. destruct (existsb absurd assertions) eqn:E.
  - intros [= <-]. split; [set_solver|]. apply existsb_exists in E as (t & Ht & Ha). intros Hall _.
    unfold all_hold in Hall. rewrite Forall_forall in Hall. apply list_elem_of_In, Hall in Ht.
    exact (absurd_false e t Ha Ht).
  - destruct (filter _ _) as [|l ls] eqn:Ef; [done|]. intros [= <-].
    assert (Hl : l ∈ filter (fun l => l ∈ assumptions) (omap absurd_label assertions)) by (rewrite Ef; by left).
    apply list_elem_of_filter in Hl as [Hin (t & Ht & Ha)%list_elem_of_omap]. split; [set_solver|].
    intros Hall Hc. unfold all_hold in Hall, Hc. rewrite Forall_forall in Hall. apply Hall in Ht.
    apply Forall_cons_1 in Hc as [Hc _]. revert Ha Ht Hc. unfold holds. simpl.
    destruct t as [|d [|x [|y [|]]]| |]; try done. simpl absurd_label.
    destruct (bool_decide_reflect (sd_kind d = OP_IMPLIES)) as [Hd|]; [|done]. destruct (absurd y) eqn:Ey; [|done].
    intros [= ->] Hi Hc. rewrite value_of_op, Hd in Hi. simpl in Hi. apply (absurd_false e) in Ey.
    rewrite Hc in Hi. unfold truth in Hi. rewrite bool_decide_true in Hi by done.
    rewrite (bool_decide_false _ Ey) in Hi. done.
Qed.

#[export] Instance sample_laws : Z3SolverLaws.
Proof.
  refine {| frames := scopes : solver -> list (list Term) |}; simpl; try done.
  - by intros s f fs ->.
  - by intros s t f fs ->.
  - intros s l. unfold check_sample. by destruct (refute _ _).
  - intros s l. unfold check_sample. destruct (refute _ _); [done|]. simpl. destruct (forallb _ _) eqn:E; [|done]. intros _.
    exists tt, default_env. split; [apply default_env_ok|]. apply Forall_app. apply Forall_forall. intros t Ht.
    rewrite forallb_forall in E. apply truth_true, E. by apply list_elem_of_In.
  - intros s l w e. unfold check_sample. destruct (refute _ _) as [core|] eqn:E; [|by destruct (forallb _ _)].
    intros _ _ Ha Hl. destruct (refute_sound _ _ _ w e E) as [Hsub Href]. apply Href; [done|].
    unfold all_hold in *. rewrite Forall_forall in Hl |- *. set_solver.
  - intros s l. unfold check_sample. destruct (refute _ _) as [core|] eqn:E; [|by destruct (forallb _ _)].
    intros _. by apply (refute_sound _ _ _ tt default_env E).
  - intros s l w e. unfold check_sample. destruct (refute _ _) as [core|] eqn:E; [|by destruct (forallb _ _)].
    intros _ _ Ha. by apply (refute_sound _ _ _ w e E).
Qed.

(** ** A run: synthesize [result] with [result = x] *)

Definition x : Term := const "x" "Int".
Definition result : Term := const "result" "Int".
Definition identity : RefutationSynthesizer := make_synthesizer "f" [x] result (expr_eq result x) [] false.

Definition shown (t : Term) : string := sort_of t.
Definition ast_id (t : Term) : N := 7.

Lemma identity_well_posed : well_posed identity.
Proof.
  split; simpl.
  - by repeat constructor.
  - done.
  - by apply (bool_decide_unpack _).
  - by intros c [(i & s & ->)|(i & ->)].
  - by intros c p [(i & s & ->)|(i & ->)] ->%list_elem_of_singleton.
Qed.

Lemma identity_covered : covered identity 1.
Proof.
  intros w e _. exists 1, x. split_and!; [done|apply grammar_input; [by left|done]|].
  change (VBool (bool_decide (e x = e x)) = VBool true). by rewrite bool_decide_true.
Qed.

Lemma run_correct_witness :
  well_posed identity /\ covered identity 1 /\
  obeys (run shown ast_id identity 4 None).1 (good_result identity) unknown_error
    (forall n, covered identity n -> 4 <= bound identity n).
Proof.
  split; [exact identity_well_posed|]. split; [exact identity_covered|].
  apply (run_correct shown ast_id identity identity_well_posed 4).
Defined.

End SynthesisSample.
