(* ===== verification/Z3Build.v ===== *)
(** * Building Z3 sorts and expressions

    The part of z3++.h the runtime calls: sorts, declarations, and the
    overloaded operators.  An operator applied to the wrong sorts makes the
    API throw, so operators and applications return an option; [Z3BuildLaws]
    says that they do not throw at the right sorts, and what they return. *)

From S2P Require Import Prelude Format Z3Ast Z3Solver.

Section Records.
Context `{Z3Data}.

Inductive Z3Op :=
| ZEq | ZGe | ZLe | ZAnd | ZOr | ZAdd | ZSub | ZIte | ZImplies | ZNot | ZSelect | ZStore
| ZConstArray (domain : Sort).

(** A constructor passed to [z3::constructors::add]; a field without a sort
    refers to the datatype being declared. *)
Record CtorSpec := mkCtorSpec {
  ctor_name : string;
  ctor_recognizer : string;
  ctor_fields : list (string * option Sort)
}.

(** What [z3::constructors::query] returns. *)
Record CtorDecls := mkCtorDecls {
  cd_constructor : Decl;
  cd_recognizer : Decl;
  cd_accessors : list Decl
}.
End Records.

Class Z3Build `{Z3Api} {HX : Z3Exprs} := {
  array_sort : Sort -> Sort -> Sort;
  bool_val : bool -> Term;
  z3_op : Z3Op -> list Term -> option Term;
  enumeration_sort : string -> list string -> Sort * list Decl;
  tuple_sort : string -> list (string * Sort) -> Decl;
  mk_datatype : string -> list CtorSpec -> option (Sort * list CtorDecls);
  recfun : string -> list Sort -> Sort -> Decl;
  mk_forall_const : string -> list Term -> Term -> option Term;
  (** [z3::forall] and [z3::exists] give the quantifier no name *)
  mk_forall : list Term -> Term -> option Term;
  mk_exists : list Term -> Term -> option Term;
  z3_function : string -> list Sort -> Sort -> Decl
}.

(** ** Reading expressions *)

Section Reading.
Context `{Z3Data}.

Definition is_true (t : Term) : bool :=
  match t with App d _ => bool_decide (decl_kind d = OP_TRUE) | _ => false end.
Definition is_false (t : Term) : bool :=
  match t with App d _ => bool_decide (decl_kind d = OP_FALSE) | _ => false end.

(** [expr::is_numeral] with the numeral's text. *)
Definition numeral_text (t : Term) : option string :=
  match t with Numeral v _ => Some v | _ => None end.

(** A numeral is an application too, of a declaration of its own. *)
Definition is_app (t : Term) : bool :=
  match t with App _ _ | Numeral _ _ => true | _ => false end.

Definition is_decl (t : Term) (d : Decl) : bool :=
  match t with App d' _ => bool_decide (d' = d) | _ => false end.

Definition expr_kind (t : Term) : DeclKind :=
  match t with App d _ => decl_kind d | _ => OP_OTHER end.

Definition args (t : Term) : list Term := match t with App _ l => l | _ => [] end.
End Reading.

(** ** Sorts of operators *)

Section Sorts.
Context `{Z3Build}.

(** The sort of an operation on arguments of the given sorts, when it has one. *)
Definition op_sort (o : Z3Op) (l : list Sort) : option Sort :=
  match o, l with
  | ZEq, [a; b] => if decide (a = b) then Some bool_sort else None
  | (ZGe | ZLe), [a; b] => if decide (a = int_sort /\ b = int_sort) then Some bool_sort else None
  | (ZAnd | ZOr | ZImplies), [a; b] => if decide (a = bool_sort /\ b = bool_sort) then Some bool_sort else None
  | (ZAdd | ZSub), [a; b] => if decide (a = int_sort /\ b = int_sort) then Some int_sort else None
  | ZIte, [c; a; b] => if decide (c = bool_sort /\ a = b) then Some a else None
  | ZNot, [a] => if decide (a = bool_sort) then Some bool_sort else None
  | ZConstArray s, [a] => Some (array_sort s a)
  | _, _ => None
  end.

(** A declaration that is not an uninterpreted constant. *)
Definition interpreted (d : Decl) : Prop := forall l, ~ symbolic (App d l).

(** The domain and range of the declarations of one datatype constructor. *)
Definition ctor_typed (s : Sort) (c : CtorSpec) (r : CtorDecls) : Prop :=
  let fields := (fun f => default s f.2) <$> ctor_fields c in
  interpreted (cd_constructor r) /\ decl_domain (cd_constructor r) = fields /\ decl_range (cd_constructor r) = s /\
  decl_domain (cd_recognizer r) = [s] /\ decl_range (cd_recognizer r) = bool_sort /\
  Forall2 (fun f d => decl_domain d = [s] /\ decl_range d = f) fields (cd_accessors r).
End Sorts.

Class Z3BuildLaws `{Z3Build} := {
  sort_app d l : get_sort (App d l) = decl_range d;
  sort_numeral v s : get_sort (Numeral v s) = s;
  sort_constant n s : get_sort (constant n s) = s;
  sort_bool_val b : get_sort (bool_val b) = bool_sort;
  is_true_bool_val b : is_true (bool_val b) = b;
  is_false_bool_val b : is_false (bool_val b) = negb b;
  mk_app_typed d l : get_sort <$> l = decl_domain d -> mk_app d l = Some (App d l);
  mk_numeral_typed v : all_chars is_digit v = true -> v <> "" -> forall sign, (sign = "" \/ sign = "-") ->
    exists t, mk_numeral (sign +:+ v) int_sort = Some t /\ get_sort t = int_sort;
  op_typed o l s : op_sort o (get_sort <$> l) = Some s -> exists t, z3_op o l = Some t /\ get_sort t = s;
  select_typed a i s r : get_sort a = array_sort s r -> get_sort i = s ->
    exists t, z3_op ZSelect [a; i] = Some t /\ get_sort t = r;
  store_typed a i v s r : get_sort a = array_sort s r -> get_sort i = s -> get_sort v = r ->
    exists t, z3_op ZStore [a; i; v] = Some t /\ get_sort t = array_sort s r;
  enumeration_typed n names s ds : enumeration_sort n names = (s, ds) ->
    length ds = length names /\ Forall (fun d => decl_domain d = [] /\ decl_range d = s /\ interpreted d) ds /\
    (NoDup names -> NoDup ds);
  tuple_typed n fields : decl_domain (tuple_sort n fields) = fields.*2 /\ interpreted (tuple_sort n fields);
  datatype_typed n specs s ds : mk_datatype n specs = Some (s, ds) -> Forall2 (ctor_typed s) specs ds;
  datatype_distinct n specs s ds : mk_datatype n specs = Some (s, ds) ->
    NoDup (ctor_name <$> specs) -> NoDup (cd_constructor <$> ds);
  datatype_interpreted n specs s ds : mk_datatype n specs = Some (s, ds) ->
    Forall (fun r => interpreted (cd_recognizer r) /\ Forall interpreted (cd_accessors r)) ds;
  recfun_typed n dom r : decl_domain (recfun n dom r) = dom /\ decl_range (recfun n dom r) = r /\
    interpreted (recfun n dom r);
  forall_typed qid bound body : get_sort body = bool_sort -> bound <> [] ->
    exists t, mk_forall_const qid bound body = Some t /\ get_sort t = bool_sort;
  forall_anonymous bound body : get_sort body = bool_sort -> bound <> [] ->
    exists t, mk_forall bound body = Some t /\ get_sort t = bool_sort;
  exists_typed bound body : get_sort body = bool_sort -> bound <> [] ->
    exists t, mk_exists bound body = Some t /\ get_sort t = bool_sort;
  function_typed n dom r : decl_domain (z3_function n dom r) = dom /\ decl_range (z3_function n dom r) = r /\
    (dom <> [] -> interpreted (z3_function n dom r));
  sort_substitute t from to : get_sort <$> from = get_sort <$> to -> get_sort (expr_substitute t from to) = get_sort t;
  (** substitution works below an application that is not itself replaced *)
  substitute_app d l from to : interpreted d -> Forall symbolic from ->
    expr_substitute (App d l) from to = App d ((fun t => expr_substitute t from to) <$> l);
  occurs_constant c n s : symbolic c -> occurs c (constant n s) = true -> c = constant n s;
  occurs_bool_val c b : symbolic c -> occurs c (bool_val b) = false;
  occurs_numeral c v s t : symbolic c -> mk_numeral v s = Some t -> occurs c t = false;
  occurs_op c o l t : symbolic c -> z3_op o l = Some t -> occurs c t = true -> Exists (fun x => occurs c x = true) l
}.
