(* ===== verification/Z3Check.v ===== *)
(** * Solvers with observers, and the meaning of built terms

    What [execute_check] uses beyond Z3Solver: parameters, and the callbacks a
    solver makes to the observers registered on it while it checks.
    [Z3BuildMeaning] says what the constructors of Z3Build mean: connectives
    and quantifiers, applications of declared functions, and that a declared
    datatype is generated by its constructors. *)

From S2P Require Import Prelude Format Z3Ast Z3Solver Z3Build.

(** A callback: an accepted quantifier instance (in the solver's own context
    or in a fresh internal one), or a clause with its proof hint. *)
Inductive SolverEvent `{Z3Data} :=
| EBinding (fresh : bool) (quantifier instance : Term)
| EClause (proof_hint : Term) (dependencies : list nat) (clause : list Term).

Class Z3Check `{Z3Solver} := {
  s_set : solver -> list (string * bool) -> solver;
  (** the callbacks made during [s_check], in order *)
  s_events : solver -> list SolverEvent
}.

(** Parameters change no assertion. *)
Class Z3CheckLaws `{HL : Z3SolverLaws} {HC : Z3Check} := {
  frames_set s l : frames (s_set s l) = frames s
}.

Class Z3BuildMeaning `{HD : Z3Data} {HA : Z3Api} {HX : Z3Exprs} {HB : Z3Build} {HM : Z3Meaning} := {
  (** the function a declaration denotes *)
  apply_decl : World -> Decl -> list Value -> Value;
  eval_app w e d l : interpreted d -> eval w e (App d l) = apply_decl w d (eval w e <$> l);
  holds_true w e : holds w e (bool_val true);
  holds_false w e : ~ holds w e (bool_val false);
  holds_and w e a b t : z3_op ZAnd [a; b] = Some t -> (holds w e t <-> holds w e a /\ holds w e b);
  holds_implication w e a b t : z3_op ZImplies [a; b] = Some t -> (holds w e t <-> (holds w e a -> holds w e b));
  holds_or w e a b t : z3_op ZOr [a; b] = Some t -> (holds w e t <-> holds w e a \/ holds w e b);
  holds_negation w e a t : z3_op ZNot [a] = Some t -> (holds w e t <-> ~ holds w e a);
  holds_equation w e a b t : z3_op ZEq [a; b] = Some t -> (holds w e t <-> eval w e a = eval w e b);
  eval_conditional w e c a b t : z3_op ZIte [c; a; b] = Some t ->
    (holds w e c -> eval w e t = eval w e a) /\ (~ holds w e c -> eval w e t = eval w e b);
  holds_forall w e qid bound body t :
    mk_forall_const qid bound body = Some t -> Forall symbolic bound -> NoDup bound ->
    (holds w e t <-> forall vs, Forall2 (fun c v => value_sort v = get_sort c) bound vs ->
                                holds w (assign e bound vs) body);
  holds_anonymous_forall w e bound body t :
    mk_forall bound body = Some t -> Forall symbolic bound -> NoDup bound ->
    (holds w e t <-> forall vs, Forall2 (fun c v => value_sort v = get_sort c) bound vs ->
                                holds w (assign e bound vs) body);
  holds_exists w e bound body t :
    mk_exists bound body = Some t -> Forall symbolic bound -> NoDup bound ->
    (holds w e t <-> exists vs, Forall2 (fun c v => value_sort v = get_sort c) bound vs /\
                                holds w (assign e bound vs) body);
  (** a recognizer holds of what its constructor builds, and an accessor takes a field back *)
  datatype_recognizer n specs s ds w i j r q vs :
    mk_datatype n specs = Some (s, ds) -> NoDup (cd_constructor <$> ds) -> ds !! i = Some r -> ds !! j = Some q ->
    Forall2 (fun r v => value_sort v = r) (decl_domain (cd_constructor q)) vs ->
    (apply_decl w (cd_recognizer r) [apply_decl w (cd_constructor q) vs] = vbool true <-> i = j);
  datatype_accessor n specs s ds w i r j a vs v :
    mk_datatype n specs = Some (s, ds) -> ds !! i = Some r -> cd_accessors r !! j = Some a ->
    Forall2 (fun r v => value_sort v = r) (decl_domain (cd_constructor r)) vs -> vs !! j = Some v ->
    apply_decl w a [apply_decl w (cd_constructor r) vs] = v;
  datatype_induction n specs s ds w (P : Value -> Prop) :
    mk_datatype n specs = Some (s, ds) ->
    (forall d vs, d ∈ cd_constructor <$> ds -> Forall2 (fun r v => value_sort v = r) (decl_domain d) vs ->
       (forall j v, decl_domain d !! j = Some s -> vs !! j = Some v -> P v) -> P (apply_decl w d vs)) ->
    forall v, value_sort v = s -> P v
}.
