(* ===== verification/Z3Model.v ===== *)
(** * Tables, enumerations and models

    What a solve relies on beyond Z3Check: the theory of arrays, that an
    enumeration has no value besides its cases, what the literals [true] and
    [false] mean, and that the model of a satisfiable query satisfies the
    assertions and evaluates a term to one of the same value. *)

From stdpp Require Import gmap.
From S2P Require Import Prelude Format Z3Ast Z3Solver Z3Build Z3Check.

Class Z3TableMeaning `{HBM : Z3BuildMeaning} := {
  (** the value an array has at an index *)
  vselect : Value -> Value -> Value;
  eval_select w e a i t : z3_op ZSelect [a; i] = Some t -> eval w e t = vselect (eval w e a) (eval w e i);
  eval_const_array w e s x t v : z3_op (ZConstArray s) [x] = Some t -> vselect (eval w e t) v = eval w e x;
  eval_store w e a i x t v :
    z3_op ZStore [a; i; x] = Some t ->
    v = eval w e i /\ vselect (eval w e t) v = eval w e x \/
    v <> eval w e i /\ vselect (eval w e t) v = vselect (eval w e a) v;
  enumeration_cases n names s ds w v :
    enumeration_sort n names = (s, ds) -> ds <> [] -> value_sort v = s -> exists d, d ∈ ds /\ v = apply_decl w d [];
  enumeration_value n names s ds w d :
    enumeration_sort n names = (s, ds) -> d ∈ ds -> value_sort (apply_decl w d []) = s;
  is_true_holds w e t : is_true t = true -> holds w e t;
  is_false_holds w e t : is_false t = true -> ~ holds w e t
}.

Class Z3ModelLaws `{HSL : Z3SolverLaws} := {
  model_satisfies s : (s_check s []).1 = sat ->
    exists w e, env_ok e /\ all_hold w e (List.concat (frames s)) /\
      forall t, eval w e (model_eval (s_get_model (s_check s []).2) t) = eval w e t
}.
