(* ===== verification/Z3Fixedpoint.v ===== *)
(** * Z3's fixedpoint object

    What the runtime tells a [z3::fixedpoint] (relations, named rules, and
    whether the parameters that share Spacer's lemmas were set) is data;
    [Z3Fixedpoint] is what Z3 answers to a query on it.  A query throws on
    rules Z3 does not accept, so it returns an option. *)

From S2P Require Import Prelude Z3Ast Z3Solver.

Section Fixedpoint.
Context `{Z3Data}.

Record Fixedpoint := mkFixedpoint {
  fp_relations : list Decl;
  fp_rules : list (string * Term);
  fp_sharing : bool
}.

Definition empty_fixedpoint : Fixedpoint := mkFixedpoint [] [] false.
Definition register_relation (d : Decl) (f : Fixedpoint) : Fixedpoint :=
  mkFixedpoint (fp_relations f ++ [d]) (fp_rules f) (fp_sharing f).
Definition add_rule (rule : Term) (name : string) (f : Fixedpoint) : Fixedpoint :=
  mkFixedpoint (fp_relations f) (fp_rules f ++ [(name, rule)]) (fp_sharing f).
Definition share_lemmas (f : Fixedpoint) : Fixedpoint := mkFixedpoint (fp_relations f) (fp_rules f) true.

(** A callback of Spacer. *)
Inductive SpacerEvent :=
| ELemma (lemma : Term) (level : nat)
| EPredecessor
| EUnfold.
End Fixedpoint.

Class Z3Fixedpoint `{Z3Data} := {
  fp_query : Fixedpoint -> Term -> option check_result;
  (** the callbacks made during the query, in order *)
  fp_events : Fixedpoint -> Term -> list SpacerEvent;
  fp_answer : Fixedpoint -> Term -> Term;
  fp_reason_unknown : Fixedpoint -> Term -> string
}.
