(* ===== verification/Z3Horn.v ===== *)
(** * Horn clauses and the answers of the fixedpoint object

    A rule given to the fixedpoint object is read as a Horn clause: for all
    values of its parameters, when the atoms and constraints of its body are
    true, so is its head.  [least_model] says that the relations of a world are
    the least ones closed under the clauses.  [Z3FixedpointLaws] is what a
    query answers: a derivable atom holds wherever the rules do, and one that
    is not derivable is false in the least model. *)

From stdpp Require Import gmap.
From S2P Require Import Prelude Z3Ast Z3Solver Z3Build Z3Check Z3Fixedpoint.

Section Horn.
Context `{HD : Z3Data} {HA : Z3Api} {HX : Z3Exprs} {HB : Z3Build}.

(** A function the program declared, as its predicates are. *)
Definition declared_function (d : Decl) : Prop := exists n dom r, d = z3_function n dom r.

(** One of the relations is applied in a term. *)
Fixpoint mentions (relations : list Decl) (t : Term) : bool :=
  match t with
  | App d l =>
      bool_decide (d ∈ relations) && (length l =? length (decl_domain d)) || existsb (mentions relations) l
  | Quant _ _ _ _ _ ps ns b =>
      existsb (existsb (mentions relations)) ps || existsb (mentions relations) ns || mentions relations b
  | _ => false
  end.

(** ** Clauses *)

Record Clause := mkClause {
  hc_parameters : list Term;
  hc_body : list Term;
  hc_relation : Decl;
  hc_indices : list Term
}.

(** The conjunction of some terms. *)
Inductive conjunction_of : Term -> list Term -> Prop :=
| conjunction_true : conjunction_of (bool_val true) []
| conjunct t : conjunction_of t [t]
| conjunction_and a b t la lb :
    z3_op ZAnd [a; b] = Some t -> conjunction_of a la -> conjunction_of b lb -> conjunction_of t (la ++ lb).

(** A rule before its parameters are bound. *)
Inductive implication_of (c : Clause) : Term -> Prop :=
| fact : hc_body c = [] -> implication_of c (App (hc_relation c) (hc_indices c))
| implied_by b t :
    conjunction_of b (hc_body c) -> z3_op ZImplies [b; App (hc_relation c) (hc_indices c)] = Some t -> implication_of c t.

Inductive reads (c : Clause) : Term -> Prop :=
| reads_ground t : hc_parameters c = [] -> implication_of c t -> reads c t
| reads_forall r t : implication_of c r -> mk_forall (hc_parameters c) r = Some t -> reads c t.

(** Relations occur in a clause only as its atoms. *)
Definition flat (relations : list Decl) (t : Term) : Prop :=
  mentions relations t = false \/ exists d l, t = App d l /\ d ∈ relations /\ Forall (fun x => mentions relations x = false) l.

Record horn_clause (relations : list Decl) (c : Clause) : Prop := {
  horn_parameters : Forall symbolic (hc_parameters c) /\ NoDup (hc_parameters c);
  horn_body : Forall (flat relations) (hc_body c);
  horn_head : hc_relation c ∈ relations /\ Forall (fun x => mentions relations x = false) (hc_indices c)
}.

(** ** Meaning *)

Section Meaning.
Context {HM : Z3Meaning}.

(** A conjunct, with [X] for the relations. *)
Definition conjunct_holds (relations : list Decl) (w : World) (X : Decl -> list Value -> Prop) (e : Env) (t : Term) : Prop :=
  (forall d l, t = App d l -> d ∈ relations -> X d (eval w e <$> l)) /\
  ((forall d l, t = App d l -> d ∉ relations) -> holds w e t).

Definition closed_clause (relations : list Decl) (w : World) (e : Env) (X : Decl -> list Value -> Prop) (c : Clause) : Prop :=
  forall vs, Forall2 (fun x v => value_sort v = get_sort x) (hc_parameters c) vs ->
    let e' := assign e (hc_parameters c) vs in
    Forall (conjunct_holds relations w X e') (hc_body c) -> X (hc_relation c) (eval w e' <$> hc_indices c).

(** The atoms that hold are the least family of relations closed under the clauses. *)
Definition least_model (relations : list Decl) (clauses : Clause -> Prop) (w : World) (e : Env) : Prop :=
  forall X, (forall c, clauses c -> closed_clause relations w e X c) ->
  forall d l, d ∈ relations -> get_sort <$> l = decl_domain d -> holds w e (App d l) -> X d (eval w e <$> l).
End Meaning.

(** The rules are the clauses. *)
Definition rules_read (clauses : Clause -> Prop) (rules : list Term) : Prop :=
  (forall t, t ∈ rules -> exists c, clauses c /\ reads c t) /\ (forall c, clauses c -> exists t, t ∈ rules /\ reads c t).
End Horn.

Class Z3FixedpointLaws `{HD : Z3Data} {HA : Z3Api} {HX : Z3Exprs} {HB : Z3Build} {HM : Z3Meaning} {HF : Z3Fixedpoint} := {
  (** a nullary function is a constant *)
  function_constant n s : App (z3_function n [] s) [] = constant n s;
  (** functions of different names are different *)
  function_name n n' dom dom' r r' : z3_function n dom r = z3_function n' dom' r' -> n = n';
  (** operators, literals, constructors and recursive functions are not declared functions *)
  operator_head o l d l' : z3_op o l = Some (App d l') -> ~ declared_function d;
  operator_mentions relations o l t : Forall declared_function relations -> z3_op o l = Some t ->
    mentions relations t = true -> Exists (fun x => mentions relations x = true) l;
  truth_mentions relations b : Forall declared_function relations -> mentions relations (bool_val b) = false;
  numeral_mentions relations v s t : mk_numeral v s = Some t -> mentions relations t = false;
  datatype_declared n specs s ds c : mk_datatype n specs = Some (s, ds) -> c ∈ ds -> ~ declared_function (cd_constructor c);
  enumeration_declared n names s ds d : enumeration_sort n names = (s, ds) -> d ∈ ds -> ~ declared_function d;
  tuple_sort_declared n fields : ~ declared_function (tuple_sort n fields);
  recfun_declared n dom r : ~ declared_function (recfun n dom r);
  (** what a query answers *)
  query_derivable f q w e :
    fp_query f q = Some sat -> env_ok e -> Forall (holds w e) (fp_rules f).*2 -> holds w e q;
  query_underivable f clauses d l w e :
    fp_query f (App d l) = Some unsat -> rules_read clauses (fp_rules f).*2 ->
    (forall c, clauses c -> horn_clause (fp_relations f) c) -> d ∈ fp_relations f -> get_sort <$> l = decl_domain d ->
    Forall (fun x => mentions (fp_relations f) x = false) l ->
    env_ok e -> Forall (holds w e) (fp_rules f).*2 -> least_model (fp_relations f) clauses w e ->
    ~ holds w e (App d l)
}.
