(* ===== verification/Runtime.v ===== *)
(** * The runtime's state, names and types (src/src/fine/runtime_internal.h,
    runtime.cpp)

    [TypePtr], [EnumInfo*] and [DatatypeInfo*] are positions in heaps that
    only grow: [same] compares pointers, as the code does.  An operation
    keeps its state when it throws.  The recorder is part of the state. *)

From stdpp Require Import gmap.
From S2P Require Import Prelude Format Syntax Source Z3Ast Z3Solver Z3Build Z3Fixedpoint Lift Recorder.
From Stdlib Require Import NArith.

(** ** Errors *)

(** [SemanticError], [std::runtime_error], [z3::exception], and the [ParseError]
    of a printed witness. *)
Inductive RtError :=
| Semantic (where_ : SourceSpan) (message : string)
| Internal (message : string)
| Z3Exception (call : string)
| Witness (error : ParseError).

(** ** Data *)

Abbreviation TypePtr := nat.
Abbreviation EnumPtr := nat.
Abbreviation DatatypePtr := nat.

Inductive RtKind := KBoolean | KInteger | KEnumeration | KDatatype | KTuple | KTable.

#[export] Instance RtKind_eq_dec : EqDecision RtKind.
Proof. solve_decision. Defined.

Section Data.
Context `{Z3Data}.

Record RuntimeType := mkRuntimeType {
  rt_kind : RtKind;
  rt_sort : Sort;
  rt_display : string;
  rt_arguments : list TypePtr;
  rt_enumeration : option EnumPtr;
  rt_datatype : option DatatypePtr;
  rt_tuple_constructor : option Decl
}.

Record EnumInfo := mkEnumInfo {
  ei_name : string;
  ei_type : TypePtr;
  ei_case_names : list string;
  ei_constructors : list Decl;
  ei_values : list Term
}.

Record DatatypeCaseInfo := mkDatatypeCaseInfo {
  dc_name : string;
  dc_field_names : list string;
  dc_field_types : list TypePtr;
  dc_constructor : Decl;
  dc_recognizer : Decl;
  dc_accessors : list Decl
}.

Record DatatypeInfo := mkDatatypeInfo {
  di_name : string;
  di_type : TypePtr;
  di_cases : list DatatypeCaseInfo
}.

Record FunctionInfo := mkFunctionInfo {
  fi_name : string;
  fi_parameter_types : list TypePtr;
  fi_result_type : TypePtr;
  fi_declaration : Decl
}.

Record ArbitraryField := mkArbitraryField {
  af_binder : string;
  af_view_name : string;
  af_binder_term : Term;
  af_requirement : Term;
  af_premise_terms : list Term;
  af_recursive_premise_indices : list (list Term);
  af_availability_witness : option Term
}.

Record PredicateConstructorInfo := mkPredicateConstructorInfo {
  pc_name : string;
  pc_parameters : list Term;
  pc_result_indices : list Term;
  pc_premise_terms : list Term;
  pc_recursive_premise_indices : list (list Term);
  pc_arbitrary_fields : list ArbitraryField;
  pc_premise_count : nat
}.

Record PredicateInfo := mkPredicateInfo {
  pi_name : string;
  pi_index_types : list TypePtr;
  pi_relation : Decl;
  pi_constructors : list PredicateConstructorInfo;
  pi_horn_complete : bool
}.

Record ViewInfo := mkViewInfo {
  vi_name : string;
  vi_parameter_names : list string;
  vi_parameter_types : list TypePtr;
  vi_carrier : TypePtr;
  vi_requirements : list Expr;
  vi_witness : option Expr
}.

Record Binding := mkBinding {
  b_type : TypePtr;
  b_value : Term;
  b_is_model : bool;
  b_span : SourceSpan
}.

Record TypedExpression := mkTyped { te_type : TypePtr; te_expression : Term }.

Record AdmittedProof := mkAdmittedProof { ap_name : string; ap_theorem : Term }.

(** [recdefs_] are the recursive definitions the context holds. *)
Record RuntimeState := mkRuntimeState {
  type_heap : list RuntimeType;
  enum_heap : list EnumInfo;
  datatype_heap : list DatatypeInfo;
  types_ : gmap string TypePtr;
  cases_ : gmap string (EnumPtr * nat);
  constructors_ : gmap string (DatatypePtr * nat);
  functions_ : gmap string FunctionInfo;
  views_ : gmap string ViewInfo;
  predicates_ : gmap string PredicateInfo;
  bindings_ : gmap string Binding;
  admitted_proofs_ : list AdmittedProof;
  compound_types_ : gmap string TypePtr;
  value_names_ : gset string;
  tuple_sequence_ : nat;
  recdefs_ : list (Decl * list Term * Term);
  fixedpoint_ : Fixedpoint;
  capture_source_edges_ : bool;
  source_edge_within_ : list string;
  rainfall_ : option Recorder
}.

(** ** Effects *)

Definition RtM (A : Type) : Type := RuntimeState -> outcome RtError A * RuntimeState.

#[export] Instance RtM_ret : MRet RtM := fun A a st => (Ok a, st).
#[export] Instance RtM_bind : MBind RtM := fun A B k m st =>
  match m st with
  | (Ok a, st') => k a st'
  | (Err e, st') => (Err e, st')
  | (Diverge, st') => (Diverge, st')
  end.

Definition rt_throw {A} (e : RtError) : RtM A := fun st => (Err e, st).
Definition reject {A} (span : SourceSpan) (message : string) : RtM A := rt_throw (Semantic span message).
Definition gets {A} (f : RuntimeState -> A) : RtM A := fun st => (Ok (f st), st).
Definition modify (f : RuntimeState -> RuntimeState) : RtM unit := fun st => (Ok tt, f st).

(** A Z3 call that may throw. *)
Definition z3_call {A} (call : string) (o : option A) : RtM A :=
  match o with Some a => mret a | None => rt_throw (Z3Exception call) end.

(** A member read through a pointer or an index the code does not check. *)
Definition deref {A} (what : string) (o : option A) : RtM A :=
  match o with Some a => mret a | None => rt_throw (Internal ("undefined behaviour: " +:+ what)) end.

Fixpoint traverse_ {A B} (f : A -> RtM B) (l : list A) : RtM (list B) :=
  match l with
  | [] => mret []
  | x :: l' => y ← f x; ys ← traverse_ f l'; mret (y :: ys)
  end.

(** ** Updates *)

Definition set_rainfall (r : option Recorder) (st : RuntimeState) : RuntimeState :=
  mkRuntimeState (type_heap st) (enum_heap st) (datatype_heap st) (types_ st) (cases_ st) (constructors_ st)
    (functions_ st) (views_ st) (predicates_ st) (bindings_ st) (admitted_proofs_ st) (compound_types_ st)
    (value_names_ st) (tuple_sequence_ st) (recdefs_ st) (fixedpoint_ st) (capture_source_edges_ st) (source_edge_within_ st) r.

(** [if (rainfall_) ...] *)
Definition rain {A} (m : RecM A) : RtM unit := fun st =>
  match rainfall_ st with
  | None => (Ok tt, st)
  | Some r =>
      match m r with
      | (Ok _, r') => (Ok tt, set_rainfall (Some r') st)
      | (Err e, r') => (Err (Internal e), set_rainfall (Some r') st)
      | (Diverge, r') => (Diverge, set_rainfall (Some r') st)
      end
  end.

(** [map::emplace]: a present key keeps its value. *)
Definition emplace {A} (k : string) (v : A) (m : gmap string A) : gmap string A :=
  match m !! k with Some _ => m | None => <[k := v]> m end.

Definition add_type (t : RuntimeType) (st : RuntimeState) : RuntimeState :=
  mkRuntimeState (type_heap st ++ [t]) (enum_heap st) (datatype_heap st) (types_ st) (cases_ st) (constructors_ st)
    (functions_ st) (views_ st) (predicates_ st) (bindings_ st) (admitted_proofs_ st) (compound_types_ st)
    (value_names_ st) (tuple_sequence_ st) (recdefs_ st) (fixedpoint_ st) (capture_source_edges_ st) (source_edge_within_ st)
    (rainfall_ st).

Definition add_enum (e : EnumInfo) (name : string) (st : RuntimeState) : RuntimeState :=
  let p := length (enum_heap st) in
  mkRuntimeState (type_heap st) (enum_heap st ++ [e]) (datatype_heap st) (emplace name (ei_type e) (types_ st))
    (foldl (fun m ic => emplace ic.2 (p, ic.1) m) (cases_ st) (imap pair (ei_case_names e))) (constructors_ st)
    (functions_ st) (views_ st) (predicates_ st) (bindings_ st) (admitted_proofs_ st) (compound_types_ st)
    (value_names_ st) (tuple_sequence_ st) (recdefs_ st) (fixedpoint_ st) (capture_source_edges_ st) (source_edge_within_ st)
    (rainfall_ st).

Definition add_datatype (d : DatatypeInfo) (name : string) (st : RuntimeState) : RuntimeState :=
  let p := length (datatype_heap st) in
  mkRuntimeState (type_heap st) (enum_heap st) (datatype_heap st ++ [d]) (emplace name (di_type d) (types_ st))
    (cases_ st) (foldl (fun m ic => emplace (dc_name ic.2) (p, ic.1) m) (constructors_ st) (imap pair (di_cases d)))
    (functions_ st) (views_ st) (predicates_ st) (bindings_ st) (admitted_proofs_ st) (compound_types_ st)
    (value_names_ st) (tuple_sequence_ st) (recdefs_ st) (fixedpoint_ st) (capture_source_edges_ st) (source_edge_within_ st)
    (rainfall_ st).

Definition add_compound (key : string) (p : TypePtr) (st : RuntimeState) : RuntimeState :=
  mkRuntimeState (type_heap st) (enum_heap st) (datatype_heap st) (types_ st) (cases_ st) (constructors_ st)
    (functions_ st) (views_ st) (predicates_ st) (bindings_ st) (admitted_proofs_ st)
    (emplace key p (compound_types_ st)) (value_names_ st) (tuple_sequence_ st) (recdefs_ st) (fixedpoint_ st)
    (capture_source_edges_ st) (source_edge_within_ st) (rainfall_ st).

Definition bump_tuple (st : RuntimeState) : RuntimeState :=
  mkRuntimeState (type_heap st) (enum_heap st) (datatype_heap st) (types_ st) (cases_ st) (constructors_ st)
    (functions_ st) (views_ st) (predicates_ st) (bindings_ st) (admitted_proofs_ st) (compound_types_ st)
    (value_names_ st) (S (tuple_sequence_ st)) (recdefs_ st) (fixedpoint_ st) (capture_source_edges_ st) (source_edge_within_ st)
    (rainfall_ st).

Definition add_value_name (name : string) (st : RuntimeState) : RuntimeState :=
  mkRuntimeState (type_heap st) (enum_heap st) (datatype_heap st) (types_ st) (cases_ st) (constructors_ st)
    (functions_ st) (views_ st) (predicates_ st) (bindings_ st) (admitted_proofs_ st) (compound_types_ st)
    ({[name]} ∪ value_names_ st) (tuple_sequence_ st) (recdefs_ st) (fixedpoint_ st) (capture_source_edges_ st)
    (source_edge_within_ st) (rainfall_ st).

Definition add_function (f : FunctionInfo) (name : string) (st : RuntimeState) : RuntimeState :=
  mkRuntimeState (type_heap st) (enum_heap st) (datatype_heap st) (types_ st) (cases_ st) (constructors_ st)
    (emplace name f (functions_ st)) (views_ st) (predicates_ st) (bindings_ st) (admitted_proofs_ st)
    (compound_types_ st) (value_names_ st) (tuple_sequence_ st) (recdefs_ st) (fixedpoint_ st) (capture_source_edges_ st)
    (source_edge_within_ st) (rainfall_ st).

Definition add_recdef (d : Decl) (formals : list Term) (body : Term) (st : RuntimeState) : RuntimeState :=
  mkRuntimeState (type_heap st) (enum_heap st) (datatype_heap st) (types_ st) (cases_ st) (constructors_ st)
    (functions_ st) (views_ st) (predicates_ st) (bindings_ st) (admitted_proofs_ st) (compound_types_ st)
    (value_names_ st) (tuple_sequence_ st) (recdefs_ st ++ [(d, formals, body)]) (fixedpoint_ st) (capture_source_edges_ st)
    (source_edge_within_ st) (rainfall_ st).

Definition add_view (v : ViewInfo) (name : string) (st : RuntimeState) : RuntimeState :=
  mkRuntimeState (type_heap st) (enum_heap st) (datatype_heap st) (types_ st) (cases_ st) (constructors_ st)
    (functions_ st) (emplace name v (views_ st)) (predicates_ st) (bindings_ st) (admitted_proofs_ st)
    (compound_types_ st) (value_names_ st) (tuple_sequence_ st) (recdefs_ st) (fixedpoint_ st) (capture_source_edges_ st)
    (source_edge_within_ st) (rainfall_ st).

Definition add_binding (b : Binding) (name : string) (st : RuntimeState) : RuntimeState :=
  mkRuntimeState (type_heap st) (enum_heap st) (datatype_heap st) (types_ st) (cases_ st) (constructors_ st)
    (functions_ st) (views_ st) (predicates_ st) (emplace name b (bindings_ st)) (admitted_proofs_ st)
    (compound_types_ st) (value_names_ st) (tuple_sequence_ st) (recdefs_ st) (fixedpoint_ st) (capture_source_edges_ st)
    (source_edge_within_ st) (rainfall_ st).

Definition set_capture (capture : bool) (within : list string) (st : RuntimeState) : RuntimeState :=
  mkRuntimeState (type_heap st) (enum_heap st) (datatype_heap st) (types_ st) (cases_ st) (constructors_ st)
    (functions_ st) (views_ st) (predicates_ st) (bindings_ st) (admitted_proofs_ st) (compound_types_ st)
    (value_names_ st) (tuple_sequence_ st) (recdefs_ st) (fixedpoint_ st) capture within (rainfall_ st).

Definition add_proof (p : AdmittedProof) (st : RuntimeState) : RuntimeState :=
  mkRuntimeState (type_heap st) (enum_heap st) (datatype_heap st) (types_ st) (cases_ st) (constructors_ st)
    (functions_ st) (views_ st) (predicates_ st) (bindings_ st) (admitted_proofs_ st ++ [p]) (compound_types_ st)
    (value_names_ st) (tuple_sequence_ st) (recdefs_ st) (fixedpoint_ st) (capture_source_edges_ st) (source_edge_within_ st)
    (rainfall_ st).

Definition add_predicate (p : PredicateInfo) (name : string) (st : RuntimeState) : RuntimeState :=
  mkRuntimeState (type_heap st) (enum_heap st) (datatype_heap st) (types_ st) (cases_ st) (constructors_ st)
    (functions_ st) (views_ st) (emplace name p (predicates_ st)) (bindings_ st) (admitted_proofs_ st)
    (compound_types_ st) (value_names_ st) (tuple_sequence_ st) (recdefs_ st) (fixedpoint_ st)
    (capture_source_edges_ st) (source_edge_within_ st) (rainfall_ st).

Definition push_constructor (c : PredicateConstructorInfo) (p : PredicateInfo) : PredicateInfo :=
  mkPredicateInfo (pi_name p) (pi_index_types p) (pi_relation p) (pi_constructors p ++ [c]) (pi_horn_complete p).

(** [stable->constructors.push_back(...)], through the pointer into the map. *)
Definition retain_constructor (c : PredicateConstructorInfo) (name : string) (st : RuntimeState) : RuntimeState :=
  mkRuntimeState (type_heap st) (enum_heap st) (datatype_heap st) (types_ st) (cases_ st) (constructors_ st)
    (functions_ st) (views_ st) (alter (push_constructor c) name (predicates_ st)) (bindings_ st)
    (admitted_proofs_ st) (compound_types_ st) (value_names_ st) (tuple_sequence_ st) (recdefs_ st) (fixedpoint_ st)
    (capture_source_edges_ st) (source_edge_within_ st) (rainfall_ st).

Definition set_fixedpoint (f : Fixedpoint) (st : RuntimeState) : RuntimeState :=
  mkRuntimeState (type_heap st) (enum_heap st) (datatype_heap st) (types_ st) (cases_ st) (constructors_ st)
    (functions_ st) (views_ st) (predicates_ st) (bindings_ st) (admitted_proofs_ st) (compound_types_ st)
    (value_names_ st) (tuple_sequence_ st) (recdefs_ st) f (capture_source_edges_ st) (source_edge_within_ st)
    (rainfall_ st).

(** ** Pointers *)

Definition the_type (p : TypePtr) : RtM RuntimeType := t ← gets (fun st => type_heap st !! p); deref "type" t.
Definition the_enum (p : EnumPtr) : RtM EnumInfo := e ← gets (fun st => enum_heap st !! p); deref "enum" e.
Definition the_datatype (p : DatatypePtr) : RtM DatatypeInfo :=
  d ← gets (fun st => datatype_heap st !! p); deref "datatype" d.

Definition new_type (t : RuntimeType) : RtM TypePtr :=
  p ← gets (fun st => length (type_heap st)); modify (add_type t) ;; mret p.

Definition same (left_ right_ : TypePtr) : bool := left_ =? right_.
End Data.

(** The two built-in types are allocated first. *)
Definition bool_type_ : TypePtr := 0.
Definition int_type_ : TypePtr := 1.

Section Runtime.
Context `{Z3Build}.

Definition make_runtime (rainfall : option Recorder) : RuntimeState :=
  mkRuntimeState
    [mkRuntimeType KBoolean bool_sort "Bool" [] None None None;
     mkRuntimeType KInteger int_sort "Int" [] None None None]
    [] [] (<["Int" := int_type_]> {["Bool" := bool_type_]}) ∅ ∅ ∅ ∅ ∅ ∅ [] ∅ ∅ 0 [] empty_fixedpoint false [] rainfall.

(** ** Names *)

Definition reserve_type_name (name : string) (span : SourceSpan) : RtM unit :=
  types ← gets types_;
  match types !! name with
  | Some _ => reject span ("type `" +:+ name +:+ "` is already declared")
  | None => mret tt
  end.

Definition reserve_value_name (name : string) (span : SourceSpan) : RtM unit :=
  names ← gets value_names_;
  if decide (name ∈ names) then reject span ("value `" +:+ name +:+ "` is already declared")
  else modify (add_value_name name).

(** ** Compound types *)

Definition tuple_type (first second : TypePtr) (span : SourceSpan) : RtM TypePtr :=
  f ← the_type first;
  s ← the_type second;
  if bool_decide (rt_kind f = KTable) || bool_decide (rt_kind s = KTable)
  then reject span "table values cannot be tuple components in Fine v1"
  else
    let key := "(" +:+ rt_display f +:+ ", " +:+ rt_display s +:+ ")" in
    compound ← gets compound_types_;
    match compound !! key with
    | Some found => mret found
    | None =>
        n ← gets tuple_sequence_;
        modify bump_tuple ;;
        let constructor := tuple_sort ("Fine.Pair." +:+ to_string n) [("first", rt_sort f); ("second", rt_sort s)] in
        result ← new_type (mkRuntimeType KTuple (decl_range constructor) key [first; second] None None
                             (Some constructor));
        modify (add_compound key result) ;;
        mret result
    end.

Definition table_type (first second : TypePtr) (span : SourceSpan) : RtM TypePtr :=
  f ← the_type first;
  s ← the_type second;
  if bool_decide (rt_kind f = KTable) || bool_decide (rt_kind s = KTable)
  then reject span "nested tables are outside Fine v1"
  else
    let key := "Table(" +:+ rt_display f +:+ ", " +:+ rt_display s +:+ ")" in
    compound ← gets compound_types_;
    match compound !! key with
    | Some found => mret found
    | None =>
        result ← new_type (mkRuntimeType KTable (array_sort (rt_sort f) (rt_sort s)) key [first; second] None None
                             None);
        modify (add_compound key result) ;;
        mret result
    end.

Fixpoint resolve_type (t : Type_) : RtM TypePtr :=
  match t with
  | mkType TNamed sp n _ =>
      types ← gets types_;
      match types !! n with
      | Some p => mret p
      | None => reject sp ("unknown type `" +:+ n +:+ "`")
      end
  | mkType k sp _ [a; b] =>
      first ← resolve_type a;
      second ← resolve_type b;
      match k with TTuple => tuple_type first second sp | _ => table_type first second sp end
  | mkType k sp _ _ =>
      reject sp ((match k with TTuple => "tuple" | _ => "Table" end) +:+ " requires exactly two type arguments")
  end.

(** ** Enumerations and datatypes *)

Fixpoint check_fields (case : string) (fields : list EnumField) (seen : gset string) : RtM unit :=
  match fields with
  | [] => mret tt
  | f :: fields' =>
      if decide (Syntax.field_name f ∈ seen)
      then reject (field_span f) ("duplicate field `" +:+ Syntax.field_name f +:+ "` in constructor `" +:+ case +:+ "`")
      else check_fields case fields' ({[Syntax.field_name f]} ∪ seen)
  end.

Fixpoint check_cases (cases : list EnumCase) (seen : gset string) : RtM unit :=
  match cases with
  | [] => mret tt
  | c :: cases' =>
      if decide (case_name c ∈ seen) then reject (case_span c) ("duplicate enum case `" +:+ case_name c +:+ "`")
      else
        reserve_value_name (case_name c) (case_span c) ;;
        check_fields (case_name c) (case_fields c) ∅ ;;
        check_cases cases' ({[case_name c]} ∪ seen)
  end.

(** A field's sort and type; a field of the declared type itself has neither yet. *)
Definition resolve_field (datatype : string) (f : EnumField) : RtM (option (Sort * TypePtr)) :=
  if bool_decide (type_kind (field_type f) = TNamed) && (type_name (field_type f) =? datatype)%string then mret None
  else
    p ← resolve_type (field_type f);
    t ← the_type p;
    if bool_decide (rt_kind t = KTable)
    then reject (type_span (field_type f)) "Table fields are outside Fine's first datatype slice"
    else mret (Some (rt_sort t, p)).

Definition case_spec (c : EnumCase) (fields : list (option (Sort * TypePtr))) : CtorSpec :=
  mkCtorSpec (case_name c) ("is_" +:+ case_name c)
    (zip (Syntax.field_name <$> case_fields c) ((fun f : option (Sort * TypePtr) => fst <$> f) <$> fields)).

Definition case_info (self : TypePtr) (c : EnumCase) (fields : list (option (Sort * TypePtr))) (ds : CtorDecls)
    : DatatypeCaseInfo :=
  mkDatatypeCaseInfo (case_name c) (Syntax.field_name <$> case_fields c)
    ((fun f : option (Sort * TypePtr) => default self (snd <$> f)) <$> fields) (cd_constructor ds) (cd_recognizer ds) (cd_accessors ds).

Fixpoint case_infos (self : TypePtr) (cases : list EnumCase) (fields : list (list (option (Sort * TypePtr))))
    (ds : list CtorDecls) : list DatatypeCaseInfo :=
  match cases, fields, ds with
  | c :: cases', f :: fields', d :: ds' => case_info self c f d :: case_infos self cases' fields' ds'
  | _, _, _ => []
  end.

Definition declare_datatype (d : EnumDecl) : RtM unit :=
  resolved ← traverse_ (fun c => traverse_ (resolve_field (enum_name d)) (case_fields c)) (enum_cases d);
  '(sort, decls) ← z3_call "datatype" (mk_datatype (enum_name d) (zip_with case_spec (enum_cases d) resolved));
  info ← gets (fun st => length (datatype_heap st));
  type ← new_type (mkRuntimeType KDatatype sort (enum_name d) [] None (Some info) None);
  modify (add_datatype (mkDatatypeInfo (enum_name d) type (case_infos type (enum_cases d) resolved decls))
            (enum_name d)).

Definition declare_enum (d : EnumDecl) : RtM unit :=
  reserve_type_name (enum_name d) (enum_span d) ;;
  check_cases (enum_cases d) ∅ ;;
  if existsb (fun c => negb (bool_decide (case_fields c = []))) (enum_cases d) then declare_datatype d
  else
    let names := case_name <$> enum_cases d in
    let '(sort, constructors) := enumeration_sort (enum_name d) names in
    info ← gets (fun st => length (enum_heap st));
    type ← new_type (mkRuntimeType KEnumeration sort (enum_name d) [] (Some info) None None);
    values ← traverse_ (fun c => z3_call "constructor" (mk_app c [])) constructors;
    modify (add_enum (mkEnumInfo (enum_name d) type names constructors values) (enum_name d)).
End Runtime.
