(* ===== verification/Elaborate.v ===== *)
(** * Elaboration of expressions and declarations (src/src/fine/runtime.cpp)

    [elaborate_expression] checks a source expression against an
    environment and builds its Z3 term; [value] does the same for literal
    table cells against an expected type.  [declare_function],
    [declare_view], [declare_let] and [declare_model] are the declarations
    that use them.  Operands are taken from left to right where C++ leaves the
    order open; only the choice between two errors depends on it. *)

From stdpp Require Import gmap.
From S2P Require Import Prelude Format Syntax Source Z3Ast Z3Solver Z3Build Lift Recorder Runtime.
From Stdlib Require Import NArith.

(** [ExpressionEnvironment]. *)
Abbreviation Environment := (gmap string TypedExpression).

Section Elaborate.
Context `{Z3Build} (term_to_string : Term -> string) (term_ast_id : Term -> N).
Let term : Term -> RecM string := fun t => Recorder.term term_to_string term_ast_id t "semantic-z3".
Let source_term := Recorder.source_term term_to_string term_ast_id.

(** ** Source evidence *)

Definition expression_syntax_kind (e : Expr) : string :=
  match kind e with
  | EName => "expr.name" | EBoolean => "expr.boolean" | EInteger => "expr.integer" | ETuple => "expr.tuple"
  | ECall => "expr.call" | EBinary => "expr.binary" | EConditional => "expr.conditional" | EHole => "expr.hole"
  end.

Definition expression_correspondence (e : Expr) : string :=
  match kind e with
  | EName | EBoolean | EInteger => "exact"
  | ETuple | ECall | EBinary | EConditional => "desugared"
  | EHole => "generated"
  end.

Definition completed_expression (source : Expr) (type : TypePtr) (expression : Term) : RtM TypedExpression :=
  capture ← gets capture_source_edges_;
  within ← gets source_edge_within_;
  (if capture : bool
   then rain (source_term (node_id source) (span source) (expression_syntax_kind source) expression
                (expression_correspondence source) within)
   else mret tt) ;;
  mret (mkTyped type expression).

(** ** Expressions *)

Definition binary_z3 (op : BinaryOp) : Z3Op :=
  match op with
  | OpEqual => ZEq | OpGreaterEqual => ZGe | OpLessEqual => ZLe | OpLogicalAnd => ZAnd | OpLogicalOr => ZOr
  | OpAdd => ZAdd | OpSubtract => ZSub
  end.

(** The type of a binary expression, or the complaint. *)
Definition binary_type (op : BinaryOp) (left_ right_ : TypePtr) (left_kind : RtKind) : string + TypePtr :=
  match op with
  | OpEqual =>
      if negb (same left_ right_) || bool_decide (left_kind = KTable)
      then inl "both sides of `==` must have the same value type" else inr bool_type_
  | OpGreaterEqual | OpLessEqual =>
      if negb (same left_ int_type_) || negb (same right_ int_type_)
      then inl "ordered comparison requires two Int values" else inr bool_type_
  | OpLogicalAnd | OpLogicalOr =>
      if negb (same left_ bool_type_) || negb (same right_ bool_type_)
      then inl "Boolean connective requires two Bool values" else inr bool_type_
  | OpAdd | OpSubtract =>
      if negb (same left_ int_type_) || negb (same right_ int_type_)
      then inl "integer arithmetic requires two Int values" else inr int_type_
  end.

Definition elaborate_binary (source : Expr) (left_ right_ : TypedExpression) : RtM TypedExpression :=
  lt ← the_type (te_type left_);
  match binary_type (binary_op source) (te_type left_) (te_type right_) (rt_kind lt) with
  | inl message => reject (span source) message
  | inr type =>
      e ← z3_call "operator" (z3_op (binary_z3 (binary_op source)) [te_expression left_; te_expression right_]);
      completed_expression source type e
  end.

Definition elaborate_conditional (source cond_source : Expr) (condition yes no : TypedExpression)
    : RtM TypedExpression :=
  if negb (same (te_type condition) bool_type_)
  then reject (span cond_source) "an `if` condition must have type Bool"
  else if negb (same (te_type yes) (te_type no))
  then reject (span source) "both `if` branches must have the same type"
  else
    e ← z3_call "ite" (z3_op ZIte [te_expression condition; te_expression yes; te_expression no]);
    completed_expression source (te_type yes) e.

Definition elaborate_name (source : Expr) (environment : Environment) : RtM TypedExpression :=
  match environment !! name source with
  | Some found => completed_expression source (te_type found) (te_expression found)
  | None =>
      cases ← gets cases_;
      match cases !! name source with
      | Some (p, i) =>
          info ← the_enum p;
          v ← deref "enum value" (ei_values info !! i);
          completed_expression source (ei_type info) v
      | None =>
          constructors ← gets constructors_;
          match constructors !! name source with
          | None => reject (span source) ("unknown value `" +:+ name source +:+ "`")
          | Some (p, i) =>
              info ← the_datatype p;
              item ← deref "constructor" (di_cases info !! i);
              if bool_decide (dc_field_types item <> [])
              then reject (span source) ("constructor `" +:+ name source +:+ "` requires arguments")
              else
                e ← z3_call "constructor" (mk_app (dc_constructor item) []);
                completed_expression source (di_type info) e
          end
      end
  end.

Definition expects (what callee : string) (count : nat) (noun : string) : string :=
  what +:+ " `" +:+ callee +:+ "` expects " +:+ to_string count +:+ " " +:+ noun.

(** What a call denotes: the callee, its parameter types, the complaints
    about the number and the type of arguments, and the result type. *)
Record Callee := mkCallee {
  callee_decl : Decl;
  callee_types : list TypePtr;
  callee_result : TypePtr;
  callee_arity : string;
  callee_mismatch : nat -> string -> string
}.

Definition constructor_callee (n : string) (info : DatatypeInfo) (item : DatatypeCaseInfo) : Callee :=
  mkCallee (dc_constructor item) (dc_field_types item) (di_type info)
    (expects "constructor" n (length (dc_field_types item)) "arguments")
    (fun i display => "argument `" +:+ nth i (dc_field_names item) "" +:+ "` of `" +:+ dc_name item +:+
                      "` must have type `" +:+ display +:+ "`").

Definition predicate_callee (n : string) (item : PredicateInfo) : Callee :=
  mkCallee (pi_relation item) (pi_index_types item) bool_type_
    (expects "predicate" n (length (pi_index_types item)) "indices")
    (fun i display => "index " +:+ to_string (S i) +:+ " of `" +:+ pi_name item +:+ "` must have type `" +:+
                      display +:+ "`").

Definition function_callee (n : string) (item : FunctionInfo) : Callee :=
  mkCallee (fi_declaration item) (fi_parameter_types item) (fi_result_type item)
    (expects "function" n (length (fi_parameter_types item)) "arguments")
    (fun i display => "argument " +:+ to_string (S i) +:+ " of `" +:+ fi_name item +:+ "` must have type `" +:+
                      display +:+ "`").

Definition find_callee (source : Expr) : RtM Callee :=
  constructors ← gets constructors_;
  match constructors !! name source with
  | Some (p, i) =>
      info ← the_datatype p;
      item ← deref "constructor" (di_cases info !! i);
      mret (constructor_callee (name source) info item)
  | None =>
      predicates ← gets predicates_;
      match predicates !! name source with
      | Some item => mret (predicate_callee (name source) item)
      | None =>
          functions ← gets functions_;
          match functions !! name source with
          | Some item => mret (function_callee (name source) item)
          | None => reject (span source) ("unknown constructor or function `" +:+ name source +:+ "`")
          end
      end
  end.

Fixpoint elaborate_expression (environment : Environment) (source : Expr) : RtM TypedExpression :=
  let arguments :=
    fix arguments (callee : Callee) (i : nat) (es : list Expr) (types : list TypePtr) : RtM (list Term) :=
      match es, types with
      | e :: es', p :: types' =>
          argument ← elaborate_expression environment e;
          if negb (same (te_type argument) p)
          then t ← the_type p; reject (span e) (callee_mismatch callee i (rt_display t))
          else rest ← arguments callee (S i) es' types'; mret (te_expression argument :: rest)
      | _, _ => mret []
      end in
  match source with
  | mkExpr EName _ _ _ _ _ _ _ => elaborate_name source environment
  | mkExpr EBoolean _ _ b _ _ _ _ => completed_expression source bool_type_ (bool_val b)
  | mkExpr EInteger _ _ _ i _ _ _ =>
      e ← z3_call "int_val" (mk_numeral i int_sort);
      completed_expression source int_type_ e
  | mkExpr ETuple sp _ _ _ _ es _ =>
      match es with
      | [a; b] =>
          first ← elaborate_expression environment a;
          second ← elaborate_expression environment b;
          type ← tuple_type (te_type first) (te_type second) sp;
          t ← the_type type;
          constructor ← deref "tuple constructor" (rt_tuple_constructor t);
          e ← z3_call "tuple" (mk_app constructor [te_expression first; te_expression second]);
          completed_expression source type e
      | _ => reject sp "Fine v1 tuples contain exactly two values"
      end
  | mkExpr ECall sp _ _ _ _ es _ =>
      callee ← find_callee source;
      if negb (length es =? length (callee_types callee)) then reject sp (callee_arity callee)
      else
        l ← arguments callee 0 es (callee_types callee);
        e ← z3_call "application" (mk_app (callee_decl callee) l);
        completed_expression source (callee_result callee) e
  | mkExpr EBinary _ _ _ _ _ es _ =>
      match es with
      | [a; b] =>
          left_ ← elaborate_expression environment a;
          right_ ← elaborate_expression environment b;
          elaborate_binary source left_ right_
      | _ => rt_throw (Internal "internal Fine binary expression arity")
      end
  | mkExpr EConditional _ _ _ _ _ es _ =>
      match es with
      | [c; y; n] =>
          condition ← elaborate_expression environment c;
          yes ← elaborate_expression environment y;
          no ← elaborate_expression environment n;
          elaborate_conditional source c condition yes no
      | _ => rt_throw (Internal "internal Fine conditional arity")
      end
  | mkExpr EHole sp _ _ _ _ _ _ => reject sp "a hole is admitted only as an entire synthesis match arm"
  end.

(** ** Literal values *)

(** The datatype constructor a name denotes at an expected datatype. *)
Definition constructor_at (source : Expr) (expected : RuntimeType) : RtM DatatypeCaseInfo :=
  constructors ← gets constructors_;
  match constructors !! name source with
  | None => reject (span source) ("unknown constructor `" +:+ name source +:+ "`")
  | Some (p, i) =>
      info ← the_datatype p;
      if negb (bool_decide (rt_datatype expected = Some p))
      then reject (span source) ("constructor `" +:+ name source +:+ "` belongs to `" +:+ di_name info +:+
                                 "`, not `" +:+ rt_display expected +:+ "`")
      else deref "constructor" (di_cases info !! i)
  end.

Definition enum_value_at (source : Expr) (expected : RuntimeType) : RtM Term :=
  if negb (bool_decide (rt_kind expected = KEnumeration))
  then reject (span source) ("name `" +:+ name source +:+ "` is not a value of type `" +:+ rt_display expected +:+ "`")
  else
    cases ← gets cases_;
    match cases !! name source with
    | None => reject (span source) ("unknown enum case `" +:+ name source +:+ "`")
    | Some (p, i) =>
        info ← the_enum p;
        if negb (bool_decide (rt_enumeration expected = Some p))
        then reject (span source) ("enum case `" +:+ name source +:+ "` belongs to `" +:+ ei_name info +:+
                                   "`, not `" +:+ rt_display expected +:+ "`")
        else deref "enum value" (ei_values info !! i)
    end.

Fixpoint value (source : Expr) (expected_ptr : TypePtr) : RtM Term :=
  let values :=
    fix values (es : list Expr) (types : list TypePtr) : RtM (list Term) :=
      match es, types with
      | e :: es', p :: types' => v ← value e p; rest ← values es' types'; mret (v :: rest)
      | _, _ => mret []
      end in
  expected ← the_type expected_ptr;
  let wrong what := reject (span source) (what +:+ " does not have type `" +:+ rt_display expected +:+ "`") in
  match source with
  | mkExpr EBoolean _ _ b _ _ _ _ =>
      if negb (bool_decide (rt_kind expected = KBoolean)) then wrong "Boolean value" else mret (bool_val b)
  | mkExpr EInteger _ _ _ i _ _ _ =>
      if negb (bool_decide (rt_kind expected = KInteger)) then wrong "integer value"
      else z3_call "int_val" (mk_numeral i int_sort)
  | mkExpr EName sp n _ _ _ _ _ =>
      if bool_decide (rt_kind expected = KDatatype) then
        item ← constructor_at source expected;
        if bool_decide (dc_field_types item <> [])
        then reject sp ("constructor `" +:+ n +:+ "` requires arguments")
        else z3_call "constructor" (mk_app (dc_constructor item) [])
      else enum_value_at source expected
  | mkExpr ECall sp n _ _ _ es _ =>
      if negb (bool_decide (rt_kind expected = KDatatype)) then wrong "constructor call"
      else
        item ← constructor_at source expected;
        if negb (length es =? length (dc_field_types item))
        then reject sp (expects "constructor" n (length (dc_field_types item)) "arguments")
        else
          l ← values es (dc_field_types item);
          z3_call "constructor" (mk_app (dc_constructor item) l)
  | mkExpr ETuple sp _ _ _ _ es _ =>
      if negb (bool_decide (rt_kind expected = KTuple)) then wrong "tuple"
      else
        match es with
        | [a; b] =>
            pa ← deref "tuple argument" (rt_arguments expected !! 0);
            pb ← deref "tuple argument" (rt_arguments expected !! 1);
            va ← value a pa;
            vb ← value b pb;
            constructor ← deref "tuple constructor" (rt_tuple_constructor expected);
            z3_call "tuple" (mk_app constructor [va; vb])
        | _ => reject sp "Fine v1 tuples contain exactly two values"
        end
  | mkExpr (EBinary | EConditional | EHole) sp _ _ _ _ _ _ =>
      reject sp "computed expressions are not admitted as literal table cells"
  end.

(** ** Tables *)

Fixpoint table_entries_value (domain range : TypePtr) (entries : list TableEntry) (keys : list Term)
    (result : Term) : RtM Term :=
  match entries with
  | [] => mret result
  | entry :: entries' =>
      key ← value (entry_key entry) domain;
      if existsb (term_eqb key) keys then reject (span (entry_key entry)) "duplicate table key"
      else
        v ← value (entry_value entry) range;
        result ← z3_call "store" (z3_op ZStore [result; key; v]);
        table_entries_value domain range entries' (keys ++ [key]) result
  end.

Definition table_value (type : RuntimeType) (literal : TableLiteral) : RtM Term :=
  domain ← deref "table argument" (rt_arguments type !! 0);
  range ← deref "table argument" (rt_arguments type !! 1);
  d ← the_type domain;
  default_value ← value (table_default literal) range;
  result ← z3_call "const_array" (z3_op (ZConstArray (rt_sort d)) [default_value]);
  table_entries_value domain range (table_entries literal) [] result.

Definition declare_let (d : LetDecl) : RtM unit :=
  reserve_value_name (let_name d) (let_span d) ;;
  type ← resolve_type (let_type d);
  t ← the_type type;
  if negb (bool_decide (rt_kind t = KTable))
  then reject (type_span (let_type d)) "a `let` binding in this slice must be a Table"
  else
    result ← table_value t (let_value d);
    modify (add_binding (mkBinding type result false (let_span d)) (let_name d)).

Definition declare_model (d : ModelDecl) : RtM unit :=
  reserve_value_name (model_name d) (model_span d) ;;
  type ← resolve_type (model_type d);
  t ← the_type type;
  if negb (bool_decide (rt_kind t = KTable))
  then reject (type_span (model_type d)) "a `model` hole must have Table type"
  else
    hole ← match model_value d with
           | Some literal => table_value t literal
           | None => mret (constant (model_name d) (rt_sort t))
           end;
    modify (add_binding (mkBinding type hole (bool_decide (model_value d = None)) (model_span d)) (model_name d)).

Definition binding (e : Expr) (role : string) : RtM Binding :=
  if negb (bool_decide (kind e = EName)) then reject (span e) (role +:+ " must name a table declaration")
  else
    bindings ← gets bindings_;
    match bindings !! name e with
    | None => reject (span e) ("unknown table `" +:+ name e +:+ "`")
    | Some b => mret b
    end.
End Elaborate.
