(* ===== verification/Declare.v ===== *)
(** * Recursive functions and constrained views (src/src/fine/runtime.cpp)

    [declare_function] checks one exhaustive match on a datatype parameter
    whose recursive calls pass a direct field, and registers the definition;
    [declare_view] checks a named proposition over a carrier type. *)

From stdpp Require Import gmap.
From S2P Require Import Prelude Format Syntax Source Z3Ast Z3Solver Z3Build Lift Recorder Runtime Elaborate.
From Stdlib Require Import NArith.

Section Declare.
Context `{Z3Build} (term_to_string : Term -> string) (term_ast_id : Term -> N).
Let term : Term -> RecM string := fun t => Recorder.term term_to_string term_ast_id t "semantic-z3".
Let source_term := Recorder.source_term term_to_string term_ast_id.
Let elaborate_expression := Elaborate.elaborate_expression term_to_string term_ast_id.

(** ** Parameters *)

(** What a declaration's parameter loop builds: the environment, and for
    each parameter its type, sort and formal constant. *)
Record Formals := mkFormals {
  f_environment : Environment;
  f_types : list TypePtr;
  f_sorts : list Sort;
  f_terms : list Term
}.

(** The parameter a match names: its type, its term and its position. *)
Definition Matched : Type := option (TypePtr * Term * nat).

Fixpoint function_parameters (owner scrutinee : string) (i : nat) (ps : list Parameter_) (acc : Formals)
    (matched : Matched) : RtM (Formals * Matched) :=
  match ps with
  | [] => mret (acc, matched)
  | p :: ps' =>
      type ← resolve_type (parameter_type p);
      t ← the_type type;
      if bool_decide (rt_kind t = KTable)
      then reject (type_span (parameter_type p)) "function parameters cannot have Table type in this slice"
      else
        let term := constant ("Fine.function." +:+ owner +:+ ".arg" +:+ to_string i) (rt_sort t) in
        match f_environment acc !! Syntax.parameter_name p with
        | Some _ => reject (parameter_span p) ("duplicate parameter `" +:+ Syntax.parameter_name p +:+ "`")
        | None =>
            function_parameters owner scrutinee (S i) ps'
              (mkFormals (<[Syntax.parameter_name p := mkTyped type term]> (f_environment acc)) (f_types acc ++ [type])
                 (f_sorts acc ++ [rt_sort t]) (f_terms acc ++ [term]))
              (if (Syntax.parameter_name p =? scrutinee)%string then Some (type, term, i) else matched)
        end
  end.

(** ** Match arms *)

(** The environment of an arm and the names bound to direct recursive fields. *)
Fixpoint arm_bindings_loop (item : DatatypeCaseInfo) (matched_type : TypePtr) (matched_term : Term) (i : nat)
    (bs : list MatchBinding) (locals : gset string) (environment : Environment) (recursive : gset string)
    : RtM (Environment * gset string) :=
  match bs with
  | [] => mret (environment, recursive)
  | b :: bs' =>
      if (binding_name b =? "_")%string
      then arm_bindings_loop item matched_type matched_term (S i) bs' locals environment recursive
      else if bool_decide (binding_name b ∈ locals) || bool_decide (is_Some (environment !! binding_name b))
      then reject (binding_span b) ("duplicate or shadowing pattern binding `" +:+ binding_name b +:+ "`")
      else
        type ← deref "field type" (dc_field_types item !! i);
        accessor ← deref "accessor" (dc_accessors item !! i);
        field ← z3_call "accessor" (mk_app accessor [matched_term]);
        arm_bindings_loop item matched_type matched_term (S i) bs' ({[binding_name b]} ∪ locals)
          (<[binding_name b := mkTyped type field]> environment)
          (if same type matched_type then {[binding_name b]} ∪ recursive else recursive)
  end.

(** A recursive call passes a direct field of the matched value. *)
Fixpoint check_structural_calls (owner datatype : string) (arity position : nat) (recursive : gset string) (e : Expr)
    : RtM unit :=
  match e with
  | mkExpr k sp n _ _ _ es _ =>
      (if bool_decide (k = ECall) && (n =? owner)%string then
         if negb (length es =? arity)
         then reject sp ("recursive call to `" +:+ owner +:+ "` has the wrong arity")
         else
           decreasing ← deref "argument" (es !! position);
           if negb (bool_decide (kind decreasing = EName)) || negb (bool_decide (name decreasing ∈ recursive))
           then reject (span decreasing) ("recursive call to `" +:+ owner +:+ "` must pass a direct `" +:+
                                          datatype +:+ "` pattern field as its matched argument")
           else mret tt
       else mret tt) ;;
      (fix children (es : list Expr) : RtM unit :=
         match es with
         | [] => mret tt
         | x :: es' => check_structural_calls owner datatype arity position recursive x ;; children es'
         end) es
  end.

Record FunctionContext := mkFunctionContext {
  fc_declaration : FunctionDecl;
  fc_datatype : DatatypeInfo;
  fc_matched_type : TypePtr;
  fc_matched_term : Term;
  fc_matched_index : nat;
  fc_environment : Environment;
  fc_result_type : TypePtr
}.

(** One arm: its recognizer and its value. *)
Definition function_arm (c : FunctionContext) (seen : gset string) (arm : MatchArm) : RtM (Term * Term) :=
  match list_find (fun item => dc_name item = arm_constructor arm) (di_cases (fc_datatype c)) with
  | None =>
      reject (arm_span arm) ("constructor `" +:+ arm_constructor arm +:+ "` does not belong to `" +:+
                             di_name (fc_datatype c) +:+ "`")
  | Some (_, item) =>
      if decide (arm_constructor arm ∈ seen)
      then reject (arm_span arm) ("duplicate match arm for `" +:+ arm_constructor arm +:+ "`")
      else if negb (length (arm_bindings arm) =? length (dc_field_types item))
      then reject (arm_span arm) ("constructor `" +:+ arm_constructor arm +:+ "` expects " +:+
                                  to_string (length (dc_field_types item)) +:+ " pattern bindings")
      else
        '(environment, recursive) ← arm_bindings_loop item (fc_matched_type c) (fc_matched_term c) 0
                                      (arm_bindings arm) ∅ (fc_environment c) ∅;
        check_structural_calls (function_name (fc_declaration c)) (di_name (fc_datatype c))
          (length (Syntax.function_parameters (fc_declaration c))) (fc_matched_index c) recursive (arm_value arm) ;;
        v ← elaborate_expression environment (arm_value arm);
        if negb (same (te_type v) (fc_result_type c))
        then t ← the_type (fc_result_type c);
             reject (span (arm_value arm)) ("match arm must return `" +:+ rt_display t +:+ "`")
        else
          guard ← z3_call "recognizer" (mk_app (dc_recognizer item) [fc_matched_term c]);
          mret (guard, te_expression v)
  end.

Fixpoint function_arms_loop (c : FunctionContext) (arms : list MatchArm) (seen : gset string)
    (branches : list (Term * Term)) : RtM (gset string * list (Term * Term)) :=
  match arms with
  | [] => mret (seen, branches)
  | arm :: arms' =>
      branch ← function_arm c seen arm;
      function_arms_loop c arms' ({[arm_constructor arm]} ∪ seen) (branches ++ [branch])
  end.

Definition missing_cases (datatype : DatatypeInfo) (seen : gset string) : string :=
  String.concat ", " ((fun item => "`" +:+ dc_name item +:+ "`") <$>
                      filter (fun item => dc_name item ∉ seen) (di_cases datatype)).

(** The conditionals over all branches but the last, from the back. *)
Fixpoint match_body (branches : list (Term * Term)) : RtM Term :=
  match branches with
  | [] => deref "branches" None
  | [b] => mret b.2
  | b :: branches' =>
      body ← match_body branches';
      z3_call "ite" (z3_op ZIte [b.1; b.2; body])
  end.

Definition function_record (d : FunctionDecl) (id : nat) (application body : Term) (arms : nat) : RecM string :=
  let scope := "function:" +:+ function_name d in
  source_term id (function_span d) "decl.function" body "generated" [scope] ;;
  application_ref ← term application;
  body_ref ← term body;
  record "transform" "function.recursive-definition" [scope] "fine.elaborator"
    ("Compiler-owned exhaustive datatype match registered through Z3_add_rec_def; records the " +:+
     "formal application and body but does not pretend Z3 stores a source-level equation")
    [string_field "function" (function_name d); string_field "matched_parameter" (name (function_scrutinee d));
     string_field "formal_application" application_ref; string_field "definition_body" body_ref;
     number_field "arms" arms].

Definition declare_function (d : FunctionDecl) (id : nat) : RtM unit :=
  reserve_value_name (function_name d) (function_span d) ;;
  if bool_decide (Syntax.function_parameters d = [])
  then reject (function_span d) "a function needs at least one parameter"
  else if negb (bool_decide (kind (function_scrutinee d) = EName))
  then reject (span (function_scrutinee d)) "the first function slice matches one named parameter directly"
  else
    '(formals, matched) ← function_parameters (function_name d) (name (function_scrutinee d)) 0
                            (Syntax.function_parameters d) (mkFormals ∅ [] [] []) None;
    match matched with
    | None => reject (span (function_scrutinee d)) "the matched name is not a function parameter"
    | Some (matched_type, matched_term, index) =>
        mt ← the_type matched_type;
        if negb (bool_decide (rt_kind mt = KDatatype))
        then reject (span (function_scrutinee d)) "a function match requires a field-bearing datatype"
        else
          result_type ← resolve_type (function_result_type d);
          rt ← the_type result_type;
          if bool_decide (rt_kind rt = KTable)
          then reject (type_span (function_result_type d)) "functions cannot return Table in this slice"
          else
            let declaration := recfun (function_name d) (f_sorts formals) (rt_sort rt) in
            modify (add_function (mkFunctionInfo (function_name d) (f_types formals) result_type declaration)
                      (function_name d)) ;;
            pointer ← deref "datatype" (rt_datatype mt);
            datatype ← the_datatype pointer;
            previous_capture ← gets capture_source_edges_;
            previous_within ← gets source_edge_within_;
            modify (set_capture true ["function:" +:+ function_name d]) ;;
            '(seen, branches) ← function_arms_loop
              (mkFunctionContext d datatype matched_type matched_term index (f_environment formals) result_type)
              (function_arms d) ∅ [];
            modify (set_capture previous_capture previous_within) ;;
            if negb (size seen =? length (di_cases datatype))
            then reject (function_span d) ("non-exhaustive match; missing " +:+ missing_cases datatype seen)
            else
              body ← match_body branches;
              modify (add_recdef declaration (f_terms formals) body) ;;
              recording ← gets rainfall_;
              match recording with
              | None => mret tt
              | Some _ =>
                  application ← z3_call "application" (mk_app declaration (f_terms formals));
                  rain (function_record d id application body (length branches))
              end
    end.

(** ** Views *)

Fixpoint view_parameters_loop (owner : string) (i : nat) (ps : list Parameter_) (names : list string)
    (environment : Environment) (types : list TypePtr) : RtM (Environment * list TypePtr) :=
  match ps with
  | [] => mret (environment, types)
  | p :: ps' =>
      if (Syntax.parameter_name p =? "value")%string
      then reject (parameter_span p) "`value` is reserved for the constrained-view carrier"
      else if bool_decide (Syntax.parameter_name p ∈ names)
      then reject (parameter_span p) ("duplicate view parameter `" +:+ Syntax.parameter_name p +:+ "`")
      else
        type ← resolve_type (parameter_type p);
        t ← the_type type;
        if bool_decide (rt_kind t = KTable)
        then reject (type_span (parameter_type p)) "view parameters must be native Fine values"
        else
          let term := constant ("Fine.view." +:+ owner +:+ ".arg" +:+ to_string i) (rt_sort t) in
          view_parameters_loop owner (S i) ps' (names ++ [Syntax.parameter_name p])
            (emplace (Syntax.parameter_name p) (mkTyped type term) environment) (types ++ [type])
  end.

Fixpoint conjoin (message : string) (environment : Environment) (conditions : list Expr) (result : Term)
    : RtM Term :=
  match conditions with
  | [] => mret result
  | condition :: conditions' =>
      e ← elaborate_expression environment condition;
      if negb (same (te_type e) bool_type_) then reject (span condition) message
      else
        result ← z3_call "and" (z3_op ZAnd [result; te_expression e]);
        conjoin message environment conditions' result
  end.

Definition view_witness_term (environment : Environment) (carrier : TypePtr) (witness : option Expr)
    : RtM (option Term) :=
  match witness with
  | None => mret None
  | Some w =>
      e ← elaborate_expression environment w;
      if negb (same (te_type e) carrier)
      then t ← the_type carrier;
           reject (span w) ("a constrained-view witness must have carrier type `" +:+ rt_display t +:+ "`")
      else mret (Some (te_expression e))
  end.

Definition view_record (d : ViewDecl) (carrier : string) (requirements : Term) (witness : option Term)
    : RecM string :=
  requirements_ref ← term requirements;
  witness_ref ← match witness with Some w => term w | None => mret "" end;
  record "object" "fine.view.declare" ["view:" +:+ view_name d] "fine.elaborator"
    "Named erased proposition over one existing native carrier; no wrapper sort is created"
    [string_field "view" (view_name d); string_field "carrier" carrier;
     string_field "requirements" requirements_ref;
     string_field "availability" (match witness with Some _ => "declared-witness" | None => "solver-exists" end);
     string_field "witness" witness_ref; number_field "parameters" (length (view_parameters d));
     boolean_field "wrapper_sort" false].

Definition declare_view (d : ViewDecl) : RtM unit :=
  taken ← gets (fun st => bool_decide (is_Some (views_ st !! view_name d)) ||
                          bool_decide (is_Some (types_ st !! view_name d)) ||
                          bool_decide (is_Some (functions_ st !! view_name d)) ||
                          bool_decide (is_Some (predicates_ st !! view_name d)));
  if taken : bool then reject (view_span d) ("duplicate type-level name `" +:+ view_name d +:+ "`")
  else
    carrier ← resolve_type (view_carrier d);
    c ← the_type carrier;
    if bool_decide (rt_kind c = KTable)
    then reject (type_span (view_carrier d)) "a constrained view must keep one existing native Fine carrier"
    else
      '(environment, types) ← view_parameters_loop (view_name d) 0 (view_parameters d) [] ∅ [];
      let value := constant ("Fine.view." +:+ view_name d +:+ ".value") (rt_sort c) in
      previous_capture ← gets capture_source_edges_;
      previous_within ← gets source_edge_within_;
      modify (set_capture true ["view:" +:+ view_name d]) ;;
      requirements ← conjoin "a constrained-view requirement must have type Bool"
                       (emplace "value" (mkTyped carrier value) environment) (view_requirements d) (bool_val true);
      witness ← view_witness_term environment carrier (view_witness d);
      modify (set_capture previous_capture previous_within) ;;
      modify (add_view (mkViewInfo (view_name d) (Syntax.parameter_name <$> view_parameters d) types carrier
                          (view_requirements d) (view_witness d)) (view_name d)) ;;
      rain (view_record d (rt_display c) requirements witness).
End Declare.
