(* ===== verification/Values.v ===== *)
(** * Lifting Z3 values back to Fine (src/src/fine/runtime.cpp,
    bisimulation_runtime.cpp)

    [lift_expression] reads a synthesized term, [lift_typed_expression] a
    model value of a known type, [lift_value] and [lift_table] a relation's
    cells and the whole relation; [reify_value] and [reify_table] build the
    terms again, and [render_model_witness] prints a table as a [model]
    declaration. *)

From stdpp Require Import gmap.
From S2P Require Import Prelude Format Syntax Printer Source Z3Ast Z3Solver Z3Build Lift Recorder Runtime Elaborate.

(** A [syntax::Expr] whose other members keep their initial values. *)
Definition plain_expr (k : ExprKind) (n : string) (b : bool) (i : string) (op : BinaryOp) (es : list Expr) : Expr :=
  mkExpr k default_span n b i op es 0.
Definition name_expr (n : string) : Expr := plain_expr EName n false "" OpEqual [].
Definition boolean_expr (b : bool) : Expr := plain_expr EBoolean "" b "" OpEqual [].
Definition integer_expr (i : string) : Expr := plain_expr EInteger "" false i OpEqual [].

(** ** Surface values *)

Inductive SurfaceKind := SBoolean | SEnumeration | SDatatype | STuple.

#[export] Instance SurfaceKind_eq_dec : EqDecision SurfaceKind.
Proof. solve_decision. Defined.

Inductive SurfaceValue := mkSurfaceValue {
  sv_kind : SurfaceKind;
  sv_boolean : bool;
  sv_enumeration : option EnumPtr;
  sv_case_index : nat;
  sv_elements : list SurfaceValue;
  sv_datatype : option DatatypePtr
}.

Definition surface_boolean (b : bool) : SurfaceValue := mkSurfaceValue SBoolean b None 0 [] None.
Definition surface_enum (p : option EnumPtr) (i : nat) : SurfaceValue := mkSurfaceValue SEnumeration false p i [] None.

Record SurfaceEntry := mkSurfaceEntry { se_key : SurfaceValue; se_value : SurfaceValue }.
Record SurfaceTable := mkSurfaceTable { st_default : SurfaceValue; st_entries : list SurfaceEntry }.

Section Values.
Context `{Z3Build}.

(** ** Synthesized terms *)

Definition lifted_operation (k : DeclKind) : option BinaryOp :=
  match k with
  | OP_EQ => Some OpEqual
  | OP_GE => Some OpGreaterEqual
  | OP_LE => Some OpLessEqual
  | OP_AND => Some OpLogicalAnd
  | OP_OR => Some OpLogicalOr
  | OP_ADD => Some OpAdd
  | OP_SUB => Some OpSubtract
  | _ => None
  end.

Fixpoint lift_expression (parameters : list (string * Term)) (t : Term) : RtM Expr :=
  match list_find (fun p => term_eqb t p.2 = true) parameters with
  | Some (_, p) => mret (name_expr p.1)
  | None =>
      if is_true t || is_false t then mret (boolean_expr (is_true t))
      else
        match t with
        | Numeral v _ => mret (integer_expr v)
        | App d l =>
            match decl_kind d, l with
            | OP_ITE, [c; y; n] =>
                cond ← lift_expression parameters c;
                yes ← lift_expression parameters y;
                no ← lift_expression parameters n;
                mret (plain_expr EConditional "" false "" OpEqual [cond; yes; no])
            | k, l =>
                match lifted_operation k with
                | None => reject default_span "lift encountered an operation outside the admitted synth body"
                | Some op =>
                    match l with
                    | [a; b] =>
                        left_ ← lift_expression parameters a;
                        right_ ← lift_expression parameters b;
                        mret (plain_expr EBinary "" false "" op [left_; right_])
                    | _ => reject default_span "lift encountered a non-binary admitted operation"
                    end
                end
            end
        | _ => reject default_span "lift encountered a non-application synthesis term"
        end
  end.

(** ** Model values of a known type *)

Definition outside (what : string) (t : RuntimeType) : string :=
  "lift encountered a value outside " +:+ what +:+ " `" +:+ rt_display t +:+ "`".

(** The position of an enumeration's value. *)
Definition enum_position (info : EnumInfo) (t : Term) : option nat :=
  fst <$> list_find (fun v => term_eqb t v = true) (ei_values info).

(** The first constructor the term applies. *)
Definition datatype_position (info : DatatypeInfo) (t : Term) : option (nat * DatatypeCaseInfo) :=
  list_find (fun item => is_decl t (dc_constructor item) = true) (di_cases info).

Definition lift_typed_boolean (t : Term) : RtM Expr :=
  if negb (is_true t) && negb (is_false t) then reject default_span "lift encountered a non-literal Bool model value"
  else mret (boolean_expr (is_true t)).

Definition lift_typed_integer (t : Term) : RtM Expr :=
  match numeral_text t with
  | Some v => mret (integer_expr v)
  | None => reject default_span "lift encountered a non-numeral Int model value"
  end.

Definition lift_typed_enum (rt : RuntimeType) (t : Term) : RtM Expr :=
  p ← deref "enumeration" (rt_enumeration rt);
  info ← the_enum p;
  match enum_position info t with
  | Some i => n ← deref "case name" (ei_case_names info !! i); mret (name_expr n)
  | None => reject default_span (outside "enum" rt)
  end.

Fixpoint lift_typed_expression (t : Term) (type : TypePtr) : RtM Expr :=
  let fields :=
    fix fields (l : list Term) (types : list TypePtr) : RtM (list Expr) :=
      match l, types with
      | x :: l', p :: types' => e ← lift_typed_expression x p; es ← fields l' types'; mret (e :: es)
      | _, _ => mret []
      end in
  rt ← the_type type;
  match rt_kind rt with
  | KBoolean => lift_typed_boolean t
  | KInteger => lift_typed_integer t
  | KEnumeration => lift_typed_enum rt t
  | KDatatype =>
      if negb (is_app t)
      then reject default_span ("lift encountered a non-constructor value for `" +:+ rt_display rt +:+ "`")
      else
        p ← deref "datatype" (rt_datatype rt);
        info ← the_datatype p;
        match datatype_position info t, t with
        | Some (_, item), App _ l =>
            if negb (length l =? length (dc_field_types item))
            then rt_throw (Internal "internal datatype constructor arity mismatch")
            else
              es ← fields l (dc_field_types item);
              mret (plain_expr (if bool_decide (dc_field_types item = []) then EName else ECall) (dc_name item)
                      false "" OpEqual es)
        | _, _ => reject default_span (outside "datatype" rt)
        end
  | KTuple =>
      constructor ← deref "tuple constructor" (rt_tuple_constructor rt);
      match t with
      | App d [a; b] =>
          if negb (bool_decide (d = constructor)) then reject default_span (outside "tuple" rt)
          else
            pa ← deref "tuple argument" (rt_arguments rt !! 0);
            pb ← deref "tuple argument" (rt_arguments rt !! 1);
            ea ← lift_typed_expression a pa;
            eb ← lift_typed_expression b pb;
            mret (plain_expr ETuple "" false "" OpEqual [ea; eb])
      | _ => reject default_span (outside "tuple" rt)
      end
  | KTable => reject default_span ("lift does not admit values of type `" +:+ rt_display rt +:+ "`")
  end.

(** ** Relation cells *)

Definition lift_boolean (t : Term) : RtM SurfaceValue :=
  if is_true t then mret (surface_boolean true)
  else if is_false t then mret (surface_boolean false)
  else reject default_span "lift encountered a non-literal Boolean".

Definition lift_enum (rt : RuntimeType) (t : Term) : RtM SurfaceValue :=
  p ← deref "enumeration" (rt_enumeration rt);
  info ← the_enum p;
  match enum_position info t with
  | Some i => mret (surface_enum (Some p) i)
  | None => reject default_span (outside "enum" rt)
  end.

Fixpoint lift_value (t : Term) (type : TypePtr) : RtM SurfaceValue :=
  let fields :=
    fix fields (l : list Term) (types : list TypePtr) : RtM (list SurfaceValue) :=
      match l with
      | [] => mret []
      | x :: l' =>
          match types with
          | p :: types' => v ← lift_value x p; vs ← fields l' types'; mret (v :: vs)
          | [] => deref "field type" None
          end
      end in
  rt ← the_type type;
  match rt_kind rt with
  | KBoolean => lift_boolean t
  | KEnumeration => lift_enum rt t
  | KDatatype =>
      if negb (is_app t) then reject default_span (outside "admitted type" rt)
      else
        p ← deref "datatype" (rt_datatype rt);
        info ← the_datatype p;
        match datatype_position info t, t with
        | Some (i, item), App _ l =>
            vs ← fields l (dc_field_types item);
            mret (mkSurfaceValue SDatatype false None i vs (Some p))
        | _, _ => reject default_span (outside "datatype" rt)
        end
  | KTuple =>
      constructor ← deref "tuple constructor" (rt_tuple_constructor rt);
      match t with
      | App d [a; b] =>
          if negb (bool_decide (d = constructor)) then reject default_span (outside "admitted type" rt)
          else
            pa ← deref "tuple argument" (rt_arguments rt !! 0);
            pb ← deref "tuple argument" (rt_arguments rt !! 1);
            va ← lift_value a pa;
            vb ← lift_value b pb;
            mret (mkSurfaceValue STuple false None 0 [va; vb] None)
      | _ => reject default_span (outside "admitted type" rt)
      end
  | _ => reject default_span (outside "admitted type" rt)
  end.

Definition surface_mismatch {A} : RtM A := rt_throw (Internal "internal Fine surface value/type mismatch").

Fixpoint reify_value (v : SurfaceValue) (type : TypePtr) : RtM Term :=
  let fields :=
    fix fields (l : list SurfaceValue) (types : list TypePtr) : RtM (list Term) :=
      match l, types with
      | x :: l', p :: types' => t ← reify_value x p; ts ← fields l' types'; mret (t :: ts)
      | _, _ => mret []
      end in
  rt ← the_type type;
  match rt_kind rt, v with
  | KBoolean, mkSurfaceValue SBoolean b _ _ _ _ => mret (bool_val b)
  | KEnumeration, mkSurfaceValue SEnumeration _ e i _ _ =>
      p ← deref "enumeration" (rt_enumeration rt);
      info ← the_enum p;
      match ei_values info !! i with
      | Some t => if bool_decide (e = Some p) then mret t else surface_mismatch
      | None => surface_mismatch
      end
  | KDatatype, mkSurfaceValue SDatatype _ _ i es d =>
      p ← deref "datatype" (rt_datatype rt);
      info ← the_datatype p;
      match di_cases info !! i with
      | Some item =>
          if negb (bool_decide (d = Some p)) then surface_mismatch
          else if negb (length es =? length (dc_field_types item))
          then rt_throw (Internal "internal Fine datatype surface arity mismatch")
          else
            ts ← fields es (dc_field_types item);
            z3_call "constructor" (mk_app (dc_constructor item) ts)
      | None => surface_mismatch
      end
  | KTuple, mkSurfaceValue STuple _ _ _ [a; b] _ =>
      constructor ← deref "tuple constructor" (rt_tuple_constructor rt);
      pa ← deref "tuple argument" (rt_arguments rt !! 0);
      pb ← deref "tuple argument" (rt_arguments rt !! 1);
      ta ← reify_value a pa;
      tb ← reify_value b pb;
      z3_call "tuple" (mk_app constructor [ta; tb])
  | _, _ => surface_mismatch
  end.

(** ** Tables *)

Fixpoint lift_table_into (rt : RuntimeType) (domain range : TypePtr) (t : Term) : RtM SurfaceTable :=
  match t with
  | App d l =>
      if negb (bool_decide (get_sort t = rt_sort rt))
      then reject default_span "lift received an array with the wrong admitted Table type"
      else
        match decl_kind d, l with
        | OP_CONST_ARRAY, x :: _ => v ← lift_value x range; mret (mkSurfaceTable v [])
        | OP_STORE, a :: k :: x :: _ =>
            output ← lift_table_into rt domain range a;
            key ← lift_value k domain;
            v ← lift_value x range;
            mret (mkSurfaceTable (st_default output) (st_entries output ++ [mkSurfaceEntry key v]))
        | (OP_CONST_ARRAY | OP_STORE), _ => deref "array argument" None
        | _, _ => reject default_span "array value is outside Fine's admitted table syntax"
        end
  | Numeral _ s =>
      reject default_span (if bool_decide (s = rt_sort rt) then "array value is outside Fine's admitted table syntax"
                           else "lift received an array with the wrong admitted Table type")
  | _ => reject default_span "lift expected an array application"
  end.

Definition lift_table (type : TypePtr) (t : Term) : RtM SurfaceTable :=
  rt ← the_type type;
  domain ← deref "table argument" (rt_arguments rt !! 0);
  range ← deref "table argument" (rt_arguments rt !! 1);
  lift_table_into rt domain range t.

Fixpoint reify_entries (domain range : TypePtr) (entries : list SurfaceEntry) (result : Term) : RtM Term :=
  match entries with
  | [] => mret result
  | e :: entries' =>
      k ← reify_value (se_key e) domain;
      v ← reify_value (se_value e) range;
      result ← z3_call "store" (z3_op ZStore [result; k; v]);
      reify_entries domain range entries' result
  end.

Definition reify_table (type : TypePtr) (table : SurfaceTable) : RtM Term :=
  rt ← the_type type;
  domain ← deref "table argument" (rt_arguments rt !! 0);
  range ← deref "table argument" (rt_arguments rt !! 1);
  d ← the_type domain;
  default_value ← reify_value (st_default table) range;
  result ← z3_call "const_array" (z3_op (ZConstArray (rt_sort d)) [default_value]);
  reify_entries domain range (st_entries table) result.

(** ** Printing *)

Fixpoint print_value (v : SurfaceValue) : RtM string :=
  let elements :=
    fix elements (l : list SurfaceValue) : RtM (list string) :=
      match l with
      | [] => mret []
      | x :: l' => s ← print_value x; ss ← elements l'; mret (s :: ss)
      end in
  match v with
  | mkSurfaceValue SBoolean b _ _ _ _ => mret (if b then "true" else "false")
  | mkSurfaceValue SEnumeration _ e i _ _ =>
      p ← deref "enumeration" e;
      info ← the_enum p;
      deref "case name" (ei_case_names info !! i)
  | mkSurfaceValue SDatatype _ _ i es d =>
      p ← deref "datatype" d;
      info ← the_datatype p;
      item ← deref "constructor" (di_cases info !! i);
      ss ← elements es;
      mret (dc_name item +:+ (if bool_decide (es = []) then "" else "(" +:+ String.concat ", " ss +:+ ")"))
  | mkSurfaceValue STuple _ _ _ es _ =>
      ss ← elements es;
      mret ("(" +:+ String.concat ", " ss +:+ ")")
  end.

Definition newline_text : string := String "010" "".

Fixpoint print_entries (entries : list SurfaceEntry) : RtM string :=
  match entries with
  | [] => mret ""
  | e :: entries' =>
      k ← print_value (se_key e);
      v ← print_value (se_value e);
      rest ← print_entries entries';
      mret ("  " +:+ k +:+ ": " +:+ v +:+ "," +:+ newline_text +:+ rest)
  end.

Definition print_table_expression (table : SurfaceTable) : RtM string :=
  d ← print_value (st_default table);
  entries ← print_entries (st_entries table);
  mret ("table(default: " +:+ d +:+ ") {" +:+ newline_text +:+ entries +:+ "}").

Definition render_model_witness (model : string) (type : RuntimeType) (table : SurfaceTable) : RtM string :=
  t ← print_table_expression table;
  mret ("model " +:+ model +:+ ": " +:+ rt_display type +:+ " = " +:+ t +:+ ";" +:+ newline_text).
End Values.
