(* ===== verification/Predicate.v ===== *)
(** * Inductive predicates (src/src/fine/predicate_runtime.cpp, declare_predicate)

    A predicate is a Boolean function on its indices.  Each constructor is
    elaborated over constants for its parameters and retained for induction;
    when no constructor of the predicate has an arbitrary field, each is also
    a rule of the fixedpoint object, closed over its parameters. *)

From stdpp Require Import gmap.
From S2P Require Import Prelude Format Syntax Source Z3Ast Z3Solver Z3Build Z3Fixedpoint Lift Recorder Observers Runtime Elaborate Declare.
From Stdlib Require Import NArith.

(** The names an expression uses. *)
Fixpoint names_of (e : Expr) : list string :=
  match e with
  | mkExpr k _ n _ _ _ es _ =>
      (if bool_decide (k = EName) then [n] else []) ++
      (fix children (es : list Expr) : list string :=
         match es with [] => [] | x :: es' => names_of x ++ children es' end) es
  end.

Section Predicate.
Context `{Z3Build} (term_to_string : Term -> string) (term_ast_id : Term -> N).
Let term : Term -> RecM string := fun t => Recorder.term term_to_string term_ast_id t "semantic-z3".
Let source_term := Recorder.source_term term_to_string term_ast_id.
Let elaborate_expression := Elaborate.elaborate_expression term_to_string term_ast_id.

Definition predicate_scope (d : PredicateDecl) : string := "predicate:" +:+ predicate_name d.

(** ** Indices and parameters *)

(** The types and sorts of the indices. *)
Fixpoint index_loop (ps : list Parameter_) (seen : gset string) : RtM (list (TypePtr * Sort)) :=
  match ps with
  | [] => mret []
  | p :: ps' =>
      if decide (Syntax.parameter_name p ∈ seen)
      then reject (parameter_span p) ("duplicate predicate index `" +:+ Syntax.parameter_name p +:+ "`")
      else
        type ← resolve_type (parameter_type p);
        t ← the_type type;
        if bool_decide (rt_kind t = KTable)
        then reject (type_span (parameter_type p)) "predicate indices must be native Fine values, not Table"
        else
          rest ← index_loop ps' ({[Syntax.parameter_name p]} ∪ seen);
          mret ((type, rt_sort t) :: rest)
  end.

(** [parameter_names] are the keys of the environment. *)
Fixpoint predicate_parameters_loop (prefix : string) (i : nat) (ps : list Parameter_) (environment : Environment)
    (acc : list Term) : RtM (Environment * list Term) :=
  match ps with
  | [] => mret (environment, acc)
  | p :: ps' =>
      match environment !! Syntax.parameter_name p with
      | Some _ =>
          reject (parameter_span p)
            ("duplicate predicate-constructor parameter `" +:+ Syntax.parameter_name p +:+ "`")
      | None =>
          type ← resolve_type (parameter_type p);
          t ← the_type type;
          if bool_decide (rt_kind t = KTable)
          then reject (type_span (parameter_type p))
                 "predicate-constructor parameters must be native Fine values, not Table"
          else
            let c := constant (prefix +:+ ".arg" +:+ to_string i) (rt_sort t) in
            predicate_parameters_loop prefix (S i) ps' (<[Syntax.parameter_name p := mkTyped type c]> environment)
              (acc ++ [c])
      end
  end.

(** ** Atoms and premises *)

(** A direct call of a declared predicate. *)
Definition predicate_atom (direct indexed : string) (environment : Environment) (e : Expr) : RtM Term :=
  predicates ← gets predicates_;
  if negb (bool_decide (kind e = ECall)) || negb (bool_decide (is_Some (predicates !! name e)))
  then reject (span e) direct
  else
    t ← elaborate_expression environment e;
    if negb (same (te_type t) bool_type_) then reject (span e) indexed else mret (te_expression t).

Definition atom (role : string) : Environment -> Expr -> RtM Term :=
  predicate_atom (role +:+ " must be a direct call to a declared predicate")
    (role +:+ " must be an indexed proposition").

Definition elaborate_indices (environment : Environment) (es : list Expr) : RtM (list Term) :=
  traverse_ (fun e => t ← elaborate_expression environment e; mret (te_expression t)) es.

(** The premises: their terms, their conjunction, and the indices of the recursive ones. *)
Record Premises := mkPremises { p_terms : list Term; p_conjunction : Term; p_recursive : list (list Term) }.

Fixpoint premise_loop (owner : string) (environment : Environment) (es : list Expr) (acc : Premises) : RtM Premises :=
  match es with
  | [] => mret acc
  | e :: es' =>
      t ← atom "predicate-constructor premise" environment e;
      conjunction ← z3_call "and" (z3_op ZAnd [p_conjunction acc; t]);
      recursive ← (if (name e =? owner)%string
                   then indices ← elaborate_indices environment (elements e); mret [indices]
                   else mret []);
      premise_loop owner environment es' (mkPremises (p_terms acc ++ [t]) conjunction (p_recursive acc ++ recursive))
  end.

(** ** Arbitrary fields *)

Fixpoint view_arguments_loop (environment : Environment) (i : nat) (es : list Expr) (types : list TypePtr)
    : RtM (list TypedExpression) :=
  match es, types with
  | e :: es', p :: types' =>
      argument ← elaborate_expression environment e;
      if negb (same (te_type argument) p)
      then t ← the_type p;
           reject (span e) ("constrained-view argument " +:+ to_string (S i) +:+ " must have type `" +:+
                            rt_display t +:+ "`")
      else rest ← view_arguments_loop environment (S i) es' types'; mret (argument :: rest)
  | _, _ => mret []
  end.

(** The requirements were checked when the view was declared. *)
Fixpoint requirement_loop (environment : Environment) (requirements : list Expr) (result : Term) : RtM Term :=
  match requirements with
  | [] => mret result
  | e :: requirements' =>
      t ← elaborate_expression environment e;
      if negb (same (te_type t) bool_type_) then rt_throw (Internal "validated view requirement changed type")
      else
        result ← z3_call "and" (z3_op ZAnd [result; te_expression t]);
        requirement_loop environment requirements' result
  end.

Definition availability_witness (environment : Environment) (carrier : TypePtr) (witness : option Expr)
    : RtM (option Term) :=
  match witness with
  | None => mret None
  | Some w =>
      t ← elaborate_expression environment w;
      if negb (same (te_type t) carrier) then rt_throw (Internal "validated view witness changed type")
      else mret (Some (te_expression t))
  end.

Fixpoint scoped_premise_loop (owner : string) (environment : Environment) (es : list Expr) : RtM (list Term) :=
  match es with
  | [] => mret []
  | e :: es' =>
      t ← predicate_atom "an arbitrary-fresh premise must call a declared predicate"
            "an arbitrary-fresh premise must be an indexed proposition" environment e;
      if negb (name e =? owner)%string
      then reject (span e) ("the first arbitrary-fresh slice requires a recursive premise on `" +:+ owner +:+ "`")
      else rest ← scoped_premise_loop owner environment es'; mret (t :: rest)
  end.

Definition arbitrary_field_record (d : PredicateDecl) (constructor : string) (ordinal : nat) (field : ArbitraryField)
    : RecM string :=
  binder ← term (af_binder_term field);
  requirement ← term (af_requirement field);
  witness ← match af_availability_witness field with Some w => term w | None => mret "" end;
  record "derive" "fine.predicate-constructor.arbitrary-field" [predicate_scope d] "fine.elaborator"
    ("Compiler-owned arbitrary-fresh derivation field; its view requirement and recursive premise are " +:+
     "retained and are deliberately not inserted into a Horn body")
    [string_field "predicate" (predicate_name d); string_field "constructor" constructor;
     number_field "field_ordinal" ordinal; string_field "binder" (af_binder field);
     string_field "binder_term" binder; string_field "view" (af_view_name field);
     string_field "requirement" requirement; string_field "availability_witness" witness;
     number_field "recursive_premises" (length (af_premise_terms field)); boolean_field "lowered_to_horn" false].

Definition constructor_prefix (d : PredicateDecl) (constructor : string) : string :=
  "Fine.predicate." +:+ predicate_name d +:+ "." +:+ constructor.

(** What the field's view says of the binder, given the view's arguments. *)
Definition bind_view (view : ViewInfo) (arguments : list TypedExpression) : Environment :=
  foldl (fun m na => emplace na.1 na.2 m) ∅ (zip (vi_parameter_names view) arguments).

Definition arbitrary_field (d : PredicateDecl) (c : PredicateConstructor) (environment : Environment) (ordinal : nat)
    (field : ArbitraryPremise) : RtM ArbitraryField :=
  previous_capture ← gets capture_source_edges_;
  previous_within ← gets source_edge_within_;
  modify (set_capture true [predicate_scope d]) ;;
  if negb (length (constructor_arbitrary c) =? 1)
  then reject (arbitrary_span field) "the first arbitrary-fresh slice admits exactly one such field per constructor"
  else if bool_decide (is_Some (environment !! arbitrary_binder field))
  then reject (arbitrary_span field) ("arbitrary-fresh name `" +:+ arbitrary_binder field +:+
                                      "` shadows a constructor parameter")
  else
    views ← gets views_;
    match views !! arbitrary_view field with
    | None => reject (arbitrary_span field) ("unknown constrained view `" +:+ arbitrary_view field +:+ "`")
    | Some view =>
        if negb (length (arbitrary_arguments field) =? length (vi_parameter_types view))
        then reject (arbitrary_span field) ("constrained view `" +:+ arbitrary_view field +:+ "` expects " +:+
                                            to_string (length (vi_parameter_types view)) +:+ " arguments")
        else
          arguments ← view_arguments_loop environment 0 (arbitrary_arguments field) (vi_parameter_types view);
          carrier ← the_type (vi_carrier view);
          let binder := constant (constructor_prefix d (constructor_name c) +:+ ".arbitrary" +:+ to_string ordinal)
                          (rt_sort carrier) in
          rain (source_term (arbitrary_node_id field) (arbitrary_span field) "predicate.arbitrary-field" binder
                  "generated" [predicate_scope d]) ;;
          let bound := mkTyped (vi_carrier view) binder in
          let witness_environment := bind_view view arguments in
          requirement ← requirement_loop (emplace "value" bound witness_environment) (vi_requirements view)
                          (bool_val true);
          witness ← availability_witness witness_environment (vi_carrier view) (vi_witness view);
          premises ← scoped_premise_loop (predicate_name d) (emplace (arbitrary_binder field) bound environment)
                       (arbitrary_premises field);
          let retained := mkArbitraryField (arbitrary_binder field) (arbitrary_view field) binder requirement premises
                            (args <$> premises) witness in
          rain (arbitrary_field_record d (constructor_name c) ordinal retained) ;;
          modify (set_capture previous_capture previous_within) ;;
          mret retained
    end.

Fixpoint arbitrary_loop (d : PredicateDecl) (c : PredicateConstructor) (environment : Environment) (ordinal : nat)
    (fields : list ArbitraryPremise) : RtM (list ArbitraryField) :=
  match fields with
  | [] => mret []
  | field :: fields' =>
      retained ← arbitrary_field d c environment ordinal field;
      rest ← arbitrary_loop d c environment (S ordinal) fields';
      mret (retained :: rest)
  end.

(** ** Rules *)

Definition rule_records (d : PredicateDecl) (id : nat) (constructor : string) (horn : bool) (conclusion rule : Term)
    (premises recursive : nat) : RecM string :=
  source_term id (predicate_span d) "decl.predicate" rule "generated" [predicate_scope d] ;;
  conclusion_ref ← term conclusion;
  rule_ref ← term rule;
  record "derive" (if horn then "fine.predicate-constructor.rule" else "fine.predicate-constructor.branch")
    [predicate_scope d] "fine.elaborator"
    (if horn then "Strictly-positive first-order constructor compiled to one least-relation Horn rule"
     else "First-order constructor retained for compiler-owned induction but not registered as a " +:+
          "Horn rule because another constructor has an arbitrary field")
    [string_field "predicate" (predicate_name d); string_field "constructor" constructor;
     string_field "conclusion" conclusion_ref; number_field "premises" premises;
     number_field "recursive_premises" recursive; boolean_field "lowered_to_horn" horn;
     boolean_field "derivation_witness_erased" true;
     string_field (if horn then "rule" else "branch_schema") rule_ref].

(** The implication from the premises to the conclusion, for all parameters. *)
Definition constructor_rule (parameters : list Term) (premises : Premises) (conclusion : Term) : RtM Term :=
  rule ← (if bool_decide (p_terms premises = []) then mret conclusion
          else z3_call "implies" (z3_op ZImplies [p_conjunction premises; conclusion]));
  if bool_decide (parameters = []) then mret rule else z3_call "forall" (mk_forall parameters rule).

Definition lower_constructor (d : PredicateDecl) (id : nat) (constructor : string) (horn : bool)
    (parameters : list Term) (premises : Premises) (conclusion : Term) : RtM unit :=
  rule ← constructor_rule parameters premises conclusion;
  (if horn : bool
   then f ← gets fixedpoint_;
        modify (set_fixedpoint (add_rule rule (predicate_name d +:+ "." +:+ constructor) f))
   else mret tt) ;;
  rain (rule_records d id constructor horn conclusion rule (length (p_terms premises))
          (length (p_recursive premises))).

(** ** One constructor *)

Definition premise_only (parameter : string) : string :=
  "parameter `" +:+ parameter +:+ "` does not occur in the constructor result; a premise-only " +:+
  "parameter would be one-witness search, not a universal constructor field".

Definition declare_constructor (d : PredicateDecl) (id : nat) (horn : bool) (c : PredicateConstructor) : RtM unit :=
  let prefix := constructor_prefix d (constructor_name c) in
  '(environment, parameters) ← predicate_parameters_loop prefix 0 (constructor_parameters c) ∅ [];
  conclusion ← atom "predicate-constructor result" environment (constructor_result c);
  if negb (name (constructor_result c) =? predicate_name d)%string
  then reject (span (constructor_result c))
         ("constructor `" +:+ constructor_name c +:+ "` must produce `" +:+ predicate_name d +:+ "(...)`")
  else
    result_indices ← elaborate_indices environment (elements (constructor_result c));
    match list_find (fun p => Syntax.parameter_name p ∉ names_of (constructor_result c)) (constructor_parameters c) with
    | Some (_, p) => reject (parameter_span p) (premise_only (Syntax.parameter_name p))
    | None =>
        premises ← premise_loop (predicate_name d) environment (constructor_premises c)
                     (mkPremises [] (bool_val true) []);
        fields ← arbitrary_loop d c environment 0 (constructor_arbitrary c);
        (if bool_decide (constructor_arbitrary c = [])
         then lower_constructor d id (constructor_name c) horn parameters premises conclusion
         else mret tt) ;;
        modify (retain_constructor
                  (mkPredicateConstructorInfo (constructor_name c) parameters result_indices (p_terms premises)
                     (p_recursive premises) fields (length (constructor_premises c))) (predicate_name d))
    end.

Fixpoint constructor_loop (d : PredicateDecl) (id : nat) (horn : bool) (cs : list PredicateConstructor)
    (seen : gset string) : RtM unit :=
  match cs with
  | [] => mret tt
  | c :: cs' =>
      if decide (constructor_name c ∈ seen)
      then reject (constructor_span c) ("duplicate predicate constructor `" +:+ constructor_name c +:+ "`")
      else
        declare_constructor d id horn c ;;
        constructor_loop d id horn cs' ({[constructor_name c]} ∪ seen)
  end.

(** ** The declaration *)

Definition relation_record (d : PredicateDecl) (info : PredicateInfo) : RecM string :=
  let horn := pi_horn_complete info in
  record "object" "fine.predicate.relation" [predicate_scope d] "fine.elaborator"
    (if horn then "Erased indexed proposition represented by a native-sort least relation"
     else "Erased indexed proposition represented for induction by a compiler-owned " +:+
          "constructor table and relation-shaped term handle; no constructor is registered " +:+
          "with fixedpoint because one has an arbitrary field")
    [string_field "predicate" (predicate_name d); string_field "relation" (symbol_name (decl_name (pi_relation info)));
     number_field "indices" (length (pi_index_types info)); boolean_field "least_relation" horn;
     boolean_field "horn_complete" horn; boolean_field "derivation_witnesses_erased" true].

Definition horn_complete (d : PredicateDecl) : bool :=
  forallb (fun c => bool_decide (constructor_arbitrary c = [])) (predicate_constructors d).

Definition declare_predicate (d : PredicateDecl) (id : nat) : RtM unit :=
  reserve_value_name (predicate_name d) (predicate_span d) ;;
  indices ← index_loop (predicate_indices d) ∅;
  let relation := z3_function (predicate_name d) indices.*2 bool_sort in
  let info := mkPredicateInfo (predicate_name d) indices.*1 relation [] (horn_complete d) in
  (if horn_complete d then f ← gets fixedpoint_; modify (set_fixedpoint (register_relation relation f)) else mret tt) ;;
  modify (add_predicate info (predicate_name d)) ;;
  rain (relation_record d info) ;;
  constructor_loop d id (horn_complete d) (predicate_constructors d) ∅.
End Predicate.
