(* ===== verification/PredicateCheck.v ===== *)
(** * Checks on predicates (src/src/fine/predicate_runtime.cpp)

    A check in a document with predicates is one of three: the membership of
    one ground atom in the least relation, an invariant of its members (both
    asked of the fixedpoint object), or an induction over the predicate's
    constructors, one SMT query per constructor.  An induction may use
    predicates as further assumptions, inverted one layer, and as its goal,
    constructed one layer; fields over a constrained view are used only once
    the view is known to be inhabited. *)

From stdpp Require Import gmap.
From S2P Require Import Prelude Format Syntax Source Z3Ast Z3Solver Z3Build Z3Fixedpoint Lift Recorder Observers Runtime Elaborate Declare Values.
From Stdlib Require Import NArith.

Section PredicateCheck.
Context `{Z3Build} {HS : Z3Solver} {HF : Z3Fixedpoint} (term_to_string : Term -> string) (term_ast_id : Term -> N).
Let term : Term -> RecM string := fun t => Recorder.term term_to_string term_ast_id t "semantic-z3".
Let source_term := Recorder.source_term term_to_string term_ast_id.
Let elaborate_expression := Elaborate.elaborate_expression term_to_string term_ast_id.
Let conjoin := Declare.conjoin term_to_string term_ast_id.

(** ** Queries of the fixedpoint object *)

Definition predicate_check_scope (d : CheckDecl) : string := "predicate-check:" +:+ check_name d.

Fixpoint observe_spacer (events : list SpacerEvent) (st : FState) : outcome string FState :=
  match events with
  | [] => Ok st
  | e :: events' =>
      match (match e with
             | ELemma lemma level => on_lemma term_to_string term_ast_id lemma level st
             | EPredecessor => on_predecessor st
             | EUnfold => on_unfold st
             end) with
      | Ok st' => observe_spacer events' st'
      | Err e => Err e
      | Diverge => Diverge
      end
  end.

(** With a recorder the callbacks are observed, and a failure in one of them
    is rethrown after the query. *)
Definition spacer_query (scope : string) (query : Term) : RtM check_result := fun st =>
  match rainfall_ st with
  | None => z3_call "fixedpoint query" (fp_query (fixedpoint_ st) query) st
  | Some r =>
      let f := share_lemmas (fixedpoint_ st) in
      let st := set_fixedpoint f st in
      match observe_spacer (fp_events f query) (mkFixedpointObserver [scope] None 0 0, r) with
      | Ok (o, r') =>
          (result ← z3_call "fixedpoint query" (fp_query f query);
           match rethrow_if_failed o with
           | Ok _ => mret result
           | Err e => rt_throw (Internal e)
           | Diverge => fun st => (Diverge, st)
           end) (set_rainfall (Some r') st)
      | Err e => (Err (Internal e), st)
      | Diverge => (Diverge, st)
      end
  end.

Definition unavailable (what name reason : string) : string :=
  what +:+ " is unavailable because `" +:+ name +:+ "` has " +:+ reason.

(** A direct call of a predicate whose constructors are all rules. *)
Definition horn_atom (e : Expr) (direct what : string) : RtM unit :=
  predicates ← gets predicates_;
  match (if bool_decide (kind e = ECall) then predicates !! name e else None) with
  | None => reject (span e) direct
  | Some info =>
      if negb (pi_horn_complete info)
      then reject (span e) (unavailable what (name e) "an arbitrary-fresh constructor retained outside Horn lowering")
      else mret tt
  end.

(** ** Ground membership *)

Definition membership_open_record (d : CheckDecl) (predicate : string) (query : Term) : RecM string :=
  query_ref ← term query;
  record "scope" "predicate-check.run.open" [predicate_check_scope d] "fine.fixedpoint"
    ("One public least-relation membership query; records admitted constructor rules, public " +:+
     "Spacer callback boundaries, and the public result")
    [string_field "declaration" (check_name d); string_field "predicate" predicate; string_field "query" query_ref;
     boolean_field "ground" true].

Definition membership_result_records (d : CheckDecl) (query answer : Term) (derived : bool) : RecM string :=
  let outcome := if derived then "derived" else "not-derived" in
  query_ref ← term query;
  answer_ref ← term answer;
  record "transition" "solver.fixedpoint.result" [predicate_check_scope d] "z3.public-api"
    "Final public fixedpoint result only; no claim about internal rule-search steps"
    [string_field "query" query_ref; string_field "answer" answer_ref;
     string_field "status" (if derived then "sat" else "unsat"); string_field "domain_outcome" outcome] ;;
  validate_terms ;;
  record "scope" "predicate-check.run.close" [predicate_check_scope d] "fine.fixedpoint"
    "Ground least-relation membership completed" [string_field "status" outcome].

Definition membership_text (d : CheckDecl) (predicate : string) (derived : bool) : string :=
  (if derived then "derived: " else "not-derived: ") +:+ check_name d +:+ newline_text +:+
  "predicate: " +:+ predicate +:+ newline_text +:+ "derivation-witness: erased" +:+ newline_text.

Definition execute_membership (d : CheckDecl) (source_query : Expr) : RtM (nat * string) :=
  horn_atom source_query "the ensured condition must be a direct predicate call" "least-relation membership" ;;
  modify (set_capture true [predicate_check_scope d]) ;;
  elaborated ← elaborate_expression ∅ source_query;
  modify (set_capture false []) ;;
  let query := te_expression elaborated in
  rain (membership_open_record d (name source_query) query) ;;
  result ← spacer_query (predicate_check_scope d) query;
  f ← gets fixedpoint_;
  match result with
  | unknown => reject (span source_query) ("least-relation membership was unknown: " +:+ fp_reason_unknown f query)
  | _ =>
      let derived := bool_decide (result = sat) in
      rain (membership_result_records d query (fp_answer f query) derived) ;;
      mret (0, membership_text d (name source_query) derived)
  end.

(** ** Invariants *)

Fixpoint reject_predicate_in_guarantee (predicates : gmap string PredicateInfo) (e : Expr) : RtM unit :=
  match e with
  | mkExpr k sp n _ _ _ es _ =>
      (if bool_decide (k = ECall) && bool_decide (is_Some (predicates !! n))
       then reject sp "predicate atoms are not yet admitted inside invariant guarantees" else mret tt) ;;
      (fix children (es : list Expr) : RtM unit :=
         match es with
         | [] => mret tt
         | x :: es' => reject_predicate_in_guarantee predicates x ;; children es'
         end) es
  end.

Fixpoint invariant_parameters_loop (owner : string) (i : nat) (ps : list Parameter_) (environment : Environment)
    (acc : list Term) : RtM (Environment * list Term) :=
  match ps with
  | [] => mret (environment, acc)
  | p :: ps' =>
      match environment !! parameter_name p with
      | Some _ => reject (parameter_span p) ("duplicate check parameter `" +:+ parameter_name p +:+ "`")
      | None =>
          type ← resolve_type (parameter_type p);
          t ← the_type type;
          if bool_decide (rt_kind t = KTable)
          then reject (type_span (parameter_type p))
                 "predicate invariant parameters must be native Fine values, not Table"
          else
            let c := constant ("Fine.predicate-check." +:+ owner +:+ ".arg" +:+ to_string i) (rt_sort t) in
            invariant_parameters_loop owner (S i) ps' (<[parameter_name p := mkTyped type c]> environment) (acc ++ [c])
      end
  end.

Definition invariant_open_records (d : CheckDecl) (id : nat) (predicate : string)
    (membership guarantees rule query : Term) : RecM string :=
  source_term id (check_span d) "decl.check" rule "generated" [predicate_check_scope d] ;;
  record "scope" "predicate-check.run.open" [predicate_check_scope d] "fine.fixedpoint"
    ("One counterexample-reachability query over a least predicate relation; exposes " +:+
     "compiler translation, public Spacer callbacks, and the public answer, not rule matches " +:+
     "or a source derivation witness")
    [string_field "declaration" (check_name d); string_field "predicate" predicate;
     number_field "parameters" (length (check_parameters d)); boolean_field "ground" false] ;;
  membership_ref ← term membership;
  guarantees_ref ← term guarantees;
  rule_ref ← term rule;
  query_ref ← term query;
  record "transform" "predicate-check.invariant.translate" [predicate_check_scope d] "fine.elaborator"
    "Compiler-owned negated-guarantee reachability rule over the least predicate relation"
    [string_field "membership" membership_ref; string_field "guarantees" guarantees_ref;
     string_field "counterexample_rule" rule_ref; string_field "query" query_ref;
     string_field "polarity" "counterexample-reachable"].

Definition invariant_result_records (d : CheckDecl) (query answer : Term) (verified : bool) : RecM string :=
  let outcome := if verified then "verified" else "refuted" in
  query_ref ← term query;
  answer_ref ← term answer;
  record "transition" "solver.fixedpoint.result" [predicate_check_scope d] "z3.public-api"
    ("Final public fixedpoint result and answer; retained callback lemmas are not claimed to " +:+
     "cause this result")
    [string_field "query" query_ref; string_field "answer" answer_ref;
     string_field "status" (if verified then "unsat" else "sat");
     string_field "polarity" "counterexample-reachable"; string_field "domain_outcome" outcome] ;;
  validate_terms ;;
  record "scope" "predicate-check.run.close" [predicate_check_scope d] "fine.fixedpoint"
    "Open predicate invariant check completed" [string_field "status" outcome].

Definition invariant_text (d : CheckDecl) (predicate : string) (verified : bool) : string :=
  (if verified then "verified-predicate-invariant: " else "refuted-predicate-invariant: ") +:+ check_name d +:+
  newline_text +:+ "predicate: " +:+ predicate +:+ newline_text +:+
  (if verified then "counterexample: none" +:+ newline_text
   else "counterexample: fixedpoint reachability only (answer retained by rainfall)" +:+ newline_text).

(** The atom, the guarantees and the parameters of an invariant. *)
Definition invariant_statement (d : CheckDecl) (membership : Expr) : RtM (list Term * Term * Term) :=
  horn_atom membership "the invariant assumption must be a direct predicate call" "fixedpoint invariant checking" ;;
  predicates ← gets predicates_;
  traverse_ (reject_predicate_in_guarantee predicates) (check_ensures d) ;;
  '(environment, parameters) ← invariant_parameters_loop (check_name d) 0 (check_parameters d) ∅ [];
  modify (set_capture true [predicate_check_scope d]) ;;
  m ← elaborate_expression environment membership;
  guarantees ← conjoin "predicate invariant guarantee must have type Bool" environment (check_ensures d)
                 (bool_val true);
  modify (set_capture false []) ;;
  mret (parameters, te_expression m, guarantees).

Definition execute_predicate_invariant (d : CheckDecl) (id : nat) : RtM (nat * string) :=
  match check_assumes d with
  | [source_membership] =>
      '(parameters, membership, guarantees) ← invariant_statement d source_membership;
      let counterexample := z3_function ("Fine.predicate-check." +:+ check_name d +:+ ".counterexample") [] bool_sort in
      f ← gets fixedpoint_;
      modify (set_fixedpoint (register_relation counterexample f)) ;;
      query ← z3_call "counterexample" (mk_app counterexample []);
      negated ← z3_call "not" (z3_op ZNot [guarantees]);
      body ← z3_call "and" (z3_op ZAnd [membership; negated]);
      implication ← z3_call "implies" (z3_op ZImplies [body; query]);
      rule ← z3_call "forall" (mk_forall parameters implication);
      f ← gets fixedpoint_;
      modify (set_fixedpoint (add_rule rule (check_name d +:+ ".counterexample") f)) ;;
      rain (invariant_open_records d id (name source_membership) membership guarantees rule query) ;;
      result ← spacer_query (predicate_check_scope d) query;
      f ← gets fixedpoint_;
      match result with
      | unknown => reject (check_span d) ("predicate invariant query was unknown: " +:+ fp_reason_unknown f query)
      | _ =>
          let verified := bool_decide (result = unsat) in
          rain (invariant_result_records d query (fp_answer f query) verified) ;;
          mret (0, invariant_text d (name source_membership) verified)
      end
  | _ => reject (check_span d) "a predicate invariant needs exactly one assumed predicate atom"
  end.

(** ** The statement of a predicate induction *)

Definition direct_predicate (predicates : gmap string PredicateInfo) (e : Expr) : option PredicateInfo :=
  if bool_decide (kind e = ECall) then predicates !! name e else None.

Fixpoint contains_predicate (predicates : gmap string PredicateInfo) (e : Expr) : bool :=
  match e with
  | mkExpr k _ n _ _ _ es _ =>
      bool_decide (k = ECall) && bool_decide (is_Some (predicates !! n)) ||
      existsb (contains_predicate predicates) es
  end.

Record InductionParameters := mkInductionParameters {
  ip_environment : Environment;
  ip_indices : list Term;
  ip_context : list Term
}.

(** A leading parameter has its index's type and is named by the target. *)
Definition check_index (target : Expr) (predicate : PredicateInfo) (i : nat) (p : Parameter_) (type : TypePtr)
    : RtM bool :=
  match pi_index_types predicate !! i with
  | None => mret false
  | Some expected =>
      if negb (same type expected)
      then t ← the_type expected;
           reject (type_span (parameter_type p)) ("predicate-induction parameter " +:+ to_string (S i) +:+
                                                  " must have type `" +:+ rt_display t +:+ "`")
      else
        e ← deref "target index" (elements target !! i);
        if negb (bool_decide (kind e = EName)) || negb (name e =? parameter_name p)%string
        then reject (span e) "predicate-induction indices must be the leading check parameters in declaration order"
        else mret true
  end.

Fixpoint induction_parameters_loop (owner : string) (target : Expr) (predicate : PredicateInfo) (i : nat)
    (ps : list Parameter_) (acc : InductionParameters) : RtM InductionParameters :=
  match ps with
  | [] => mret acc
  | p :: ps' =>
      match ip_environment acc !! parameter_name p with
      | Some _ => reject (parameter_span p) ("duplicate check parameter `" +:+ parameter_name p +:+ "`")
      | None =>
          type ← resolve_type (parameter_type p);
          index ← check_index target predicate i p type;
          t ← the_type type;
          let c := constant ("Fine.predicate-induction." +:+ owner +:+ ".arg" +:+ to_string i) (rt_sort t) in
          induction_parameters_loop owner target predicate (S i) ps'
            (mkInductionParameters (<[parameter_name p := mkTyped type c]> (ip_environment acc))
               (if index : bool then ip_indices acc ++ [c] else ip_indices acc)
               (if index then ip_context acc else ip_context acc ++ [c]))
      end
  end.

(** The predicate of each further assumption that is an atom. *)
Fixpoint auxiliary_loop (predicates : gmap string PredicateInfo) (conditions : list Expr)
    : RtM (list (option PredicateInfo)) :=
  match conditions with
  | [] => mret []
  | e :: conditions' =>
      let item := direct_predicate predicates e in
      if bool_decide (item = None) && contains_predicate predicates e
      then reject (span e) "a predicate-induction context may use predicate evidence only as a direct assumed atom"
      else rest ← auxiliary_loop predicates conditions'; mret (item :: rest)
  end.

Fixpoint goal_loop (predicates : gmap string PredicateInfo) (count : nat) (conditions : list Expr)
    (goal : option PredicateInfo) : RtM (option PredicateInfo) :=
  match conditions with
  | [] => mret goal
  | e :: conditions' =>
      if negb (contains_predicate predicates e) then goal_loop predicates count conditions' goal
      else
        match direct_predicate predicates e with
        | Some item => if negb (count =? 1) then reject (span e) "predicate induction admits a predicate guarantee only as its one direct ensured atom"
                       else goal_loop predicates count conditions' (Some item)
        | None => reject (span e) "predicate induction admits a predicate guarantee only as its one direct ensured atom"
        end
  end.

(** The terms of the conditions and their conjunction. *)
Fixpoint condition_loop (message : string) (environment : Environment) (conditions : list Expr) (acc : Term)
    : RtM (list Term * Term) :=
  match conditions with
  | [] => mret ([], acc)
  | e :: conditions' =>
      t ← elaborate_expression environment e;
      if negb (same (te_type t) bool_type_) then reject (span e) message
      else
        acc ← z3_call "and" (z3_op ZAnd [acc; te_expression t]);
        '(ts, acc) ← condition_loop message environment conditions' acc;
        mret (te_expression t :: ts, acc)
  end.

(** What the branches share. *)
Record PredicateInduction := mkPredicateInduction {
  pn_declaration : CheckDecl;
  pn_id : nat;
  pn_target : Expr;
  pn_predicate : PredicateInfo;
  pn_indices : list Term;
  pn_context : list Term;
  pn_auxiliary_predicates : list (option PredicateInfo);
  pn_auxiliary_terms : list Term;
  pn_auxiliary : Term;
  pn_goal : option (PredicateInfo * Term);
  pn_guarantees : Term;
  pn_target_term : Term
}.

Definition induction_scope (d : CheckDecl) : string :=
  (if check_reusable d then "proof:" else "predicate-induction:") +:+ check_name d.

Definition induction_statement (d : CheckDecl) (id : nat) (target : Expr) : RtM PredicateInduction :=
  predicates ← gets predicates_;
  match predicates !! name target with
  | None => reject (span target) "`inducts` target must call a declared predicate"
  | Some predicate =>
      match check_assumes d with
      | [] => reject (check_span d) "predicate induction needs its target atom first in `assumes`"
      | assumed :: auxiliary =>
          if negb (bool_decide (kind assumed = ECall)) || negb (name assumed =? name target)%string
          then reject (span assumed) "predicate induction assumption must be the same predicate as `inducts`"
          else if (length (check_parameters d) <? length (pi_index_types predicate)) ||
                  negb (length (elements target) =? length (pi_index_types predicate))
          then reject (span target)
                 ("predicate induction needs one leading check parameter per predicate index; later parameters are " +:+
                  "generalized context")
          else
            ps ← induction_parameters_loop (check_name d) target predicate 0 (check_parameters d)
                   (mkInductionParameters ∅ [] []);
            auxiliary_predicates ← auxiliary_loop predicates auxiliary;
            goal ← goal_loop predicates (length (check_ensures d)) (check_ensures d) None;
            modify (set_capture true [induction_scope d]) ;;
            target_term ← elaborate_expression (ip_environment ps) target;
            assumed_term ← elaborate_expression (ip_environment ps) assumed;
            if negb (term_eqb (te_expression target_term) (te_expression assumed_term))
            then reject (span assumed) "`inducts` target and assumed predicate atom must elaborate identically"
            else
              '(auxiliary_terms, auxiliary_assumptions) ←
                condition_loop "predicate-induction context assumption must have type Bool" (ip_environment ps)
                  auxiliary (bool_val true);
              '(guarantee_terms, guarantees) ←
                condition_loop "predicate-induction guarantee must have type Bool" (ip_environment ps)
                  (check_ensures d) (bool_val true);
              modify (set_capture false []) ;;
              mret (mkPredicateInduction d id target predicate (ip_indices ps) (ip_context ps) auxiliary_predicates
                      auxiliary_terms auxiliary_assumptions
                      (item ← goal; t ← last guarantee_terms; Some (item, t))
                      guarantees (te_expression target_term))
      end
  end.

Definition induction_open_record (n : PredicateInduction) : RecM string :=
  let d := pn_declaration n in
  target ← term (pn_target_term n);
  auxiliary ← term (pn_auxiliary n);
  guarantees ← term (pn_guarantees n);
  record "scope" (if check_reusable d then "proof.run.open" else "predicate-induction.run.open") [induction_scope d]
    "fine.induction"
    ("Fine-owned structural induction over predicate constructors; each recursive predicate premise becomes " +:+
     "one exact induction hypothesis and each branch is checked by a separate public SMT query")
    [string_field "declaration" (check_name d); string_field "predicate" (pi_name (pn_predicate n));
     number_field "constructors" (length (pi_constructors (pn_predicate n)));
     number_field "context_parameters" (length (pn_context n));
     number_field "context_assumptions" (length (check_assumes d) - 1);
     number_field "predicate_assumptions" (length (omap id (pn_auxiliary_predicates n)));
     string_field "predicate_guarantee" (match pn_goal n with Some (item, _) => pi_name item | None => "" end);
     string_field "target" target; string_field "auxiliary_assumptions" auxiliary;
     string_field "guarantees" guarantees].

(** ** Instances of the statement *)

Definition instantiate (n : PredicateInduction) (t : Term) (indices : list Term) : RtM Term :=
  if negb (length indices =? length (pn_indices n))
  then rt_throw (Internal "internal predicate index arity mismatch")
  else mret (expr_substitute t (pn_indices n) indices).

Definition context_name (n : PredicateInduction) (suffix : string) (i : nat) : string :=
  "Fine.predicate-induction." +:+ check_name (pn_declaration n) +:+ ".ih." +:+ suffix +:+ ".context" +:+ to_string i.

(** The statement at other indices, for every context. *)
Definition predicate_hypothesis (n : PredicateInduction) (indices : list Term) (suffix : string) : RtM Term :=
  contextual ← z3_call "implies" (z3_op ZImplies [pn_auxiliary n; pn_guarantees n]);
  if bool_decide (pn_context n = [])
  then instantiate n (if length (check_assumes (pn_declaration n)) =? 1 then pn_guarantees n else contextual) indices
  else
    hypothesis ← instantiate n contextual indices;
    let generalized := imap (fun i t => constant (context_name n suffix i) (get_sort t)) (pn_context n) in
    z3_call "quantifier"
      (mk_forall_const ("fine.predicate-induction." +:+ check_name (pn_declaration n) +:+ "." +:+ suffix) generalized
         (expr_substitute hypothesis (pn_context n) generalized)).

(** ** Constrained fields *)

(** Some carrier value satisfies the requirement: the declared witness, or one Z3 finds. *)
Definition open_availability (requirement binder : Term) (witness : option Term) : RtM Term :=
  match witness with
  | Some w => mret (expr_substitute requirement [binder] [w])
  | None => z3_call "exists" (mk_exists [binder] requirement)
  end.

Definition close_availability (c : PredicateConstructorInfo) (availability : Term) : RtM Term :=
  if bool_decide (pc_parameters c = []) then mret availability
  else z3_call "forall" (mk_forall (pc_parameters c) availability).

(** A solver with the admitted proofs and one more assertion. *)
Fixpoint assume_proofs (use_record : AdmittedProof -> RecM string) (proofs : list AdmittedProof) (s : solver)
    : RtM solver :=
  match proofs with
  | [] => mret s
  | proof :: proofs' => rain (use_record proof) ;; assume_proofs use_record proofs' (s_add s (ap_theorem proof))
  end.

Definition prove_query (use_record : AdmittedProof -> RecM string) (assertion : Term) : RtM (check_result * solver) :=
  proofs ← gets admitted_proofs_;
  s ← assume_proofs use_record proofs mk_solver;
  mret (s_check (s_add s assertion) []).

Definition mode_text (witness : option Term) : string :=
  match witness with Some _ => "declared-witness" | None => "solver-exists" end.
Definition witness_term (witness : option Term) : RecM string :=
  match witness with Some w => term w | None => mret "" end.
Definition availability_text (available : bool) (witness : option Term) : string :=
  if available then "available" else match witness with Some _ => "invalid-witness" | None => "empty" end.

Definition layer_proof_record (n : PredicateInduction) (item : PredicateInfo) (c : PredicateConstructorInfo)
    (proof : AdmittedProof) : RecM string :=
  let d := pn_declaration n in
  theorem ← term (ap_theorem proof);
  record "constraint" "proof.use" [induction_scope d] "fine.induction"
    ("Previously verified source proof admitted to a secondary predicate field's " +:+ "availability query")
    [string_field "proof" (ap_name proof); string_field "theorem" theorem; string_field "consumer" (check_name d);
     string_field "predicate" (pi_name item); string_field "constructor" (pc_name c);
     string_field "phase" "one-layer-availability"].

Definition layer_availability_record (n : PredicateInduction) (item : PredicateInfo) (c : PredicateConstructorInfo)
    (ordinal : nat) (field : ArbitraryField) (obligation : Term) (available : bool) : RecM string :=
  witness ← witness_term (af_availability_witness field);
  obligation_ref ← term obligation;
  record "transition" "predicate-induction.one-layer.availability" [induction_scope (pn_declaration n)] "z3.public-api"
    ("Availability of one total constrained field before its predicate is used for " +:+
     "one-layer inversion or construction")
    [string_field "predicate" (pi_name item); string_field "constructor" (pc_name c);
     number_field "field_ordinal" ordinal; string_field "binder" (af_binder field);
     string_field "view" (af_view_name field);
     string_field "availability_mode" (mode_text (af_availability_witness field));
     string_field "availability_witness" witness; string_field "obligation" obligation_ref;
     string_field "status" (if available then "unsat" else "sat");
     string_field "domain_outcome" (availability_text available (af_availability_witness field))].

Fixpoint layer_fields_loop (n : PredicateInduction) (item : PredicateInfo) (c : PredicateConstructorInfo)
    (ordinal : nat) (fields : list ArbitraryField) : RtM unit :=
  match fields with
  | [] => mret tt
  | field :: fields' =>
      availability ← open_availability (af_requirement field) (af_binder_term field) (af_availability_witness field);
      obligation ← close_availability c availability;
      negated ← z3_call "not" (z3_op ZNot [obligation]);
      '(result, s) ← prove_query (layer_proof_record n item c) negated;
      match result with
      | unknown =>
          reject (span (pn_target n)) ("constrained-field availability for `" +:+ pi_name item +:+ "." +:+ pc_name c +:+
                                       "` was unknown: " +:+ s_reason_unknown s)
      | _ =>
          let available := bool_decide (result = unsat) in
          rain (layer_availability_record n item c ordinal field obligation available) ;;
          if negb available
          then reject (span (pn_target n))
                 ("constrained field `" +:+ pi_name item +:+ "." +:+ pc_name c +:+ "." +:+ af_binder field +:+
                  "` is unavailable; one-layer predicate use would be vacuous")
          else layer_fields_loop n item c (S ordinal) fields'
      end
  end.

(** The predicates used one layer deep, each once, in order of first use. *)
Definition one_layer_predicates (n : PredicateInduction) : list PredicateInfo :=
  foldl (fun l item => if existsb (fun other => pi_name other =? pi_name item)%string l then l else l ++ [item]) []
    (omap id (pn_auxiliary_predicates n) ++ match pn_goal n with Some (item, _) => [item] | None => [] end).

Definition check_layers (n : PredicateInduction) : RtM unit :=
  traverse_ (fun item => traverse_ (fun c => layer_fields_loop n item c 0 (pc_arbitrary_fields c))
                           (pi_constructors item)) (one_layer_predicates n) ;;
  mret tt.

(** ** One layer of a predicate *)

(** Where and for what a layer is unfolded. *)
Record LayerUse := mkLayerUse {
  lu_consumer : string;
  lu_use : string;
  lu_ordinal : nat;
  lu_invocation : nat
}.

Definition layer_scope (n : PredicateInduction) (u : LayerUse) : list string :=
  [induction_scope (pn_declaration n); "branch:" +:+ lu_consumer u].

Definition local_prefix (n : PredicateInduction) (u : LayerUse) (c : PredicateConstructorInfo) : string :=
  "Fine.predicate-induction." +:+ check_name (pn_declaration n) +:+ ".one-layer." +:+ to_string (lu_invocation u) +:+
  "." +:+ pc_name c.

Definition local_parameters (n : PredicateInduction) (u : LayerUse) (c : PredicateConstructorInfo) : list Term :=
  imap (fun i p => constant (local_prefix n u c +:+ ".parameter" +:+ to_string i) (get_sort p)) (pc_parameters c).
Definition local_binders (n : PredicateInduction) (u : LayerUse) (c : PredicateConstructorInfo) : list Term :=
  imap (fun i f => constant (local_prefix n u c +:+ ".arbitrary" +:+ to_string i) (get_sort (af_binder_term f)))
    (pc_arbitrary_fields c).

(** A term of the constructor's schema, over the local constants. *)
Definition localize (n : PredicateInduction) (u : LayerUse) (c : PredicateConstructorInfo) (t : Term) : Term :=
  let schema := pc_parameters c ++ (af_binder_term <$> pc_arbitrary_fields c) in
  if bool_decide (schema = []) then t
  else expr_substitute t schema (local_parameters n u c ++ local_binders n u c).

Fixpoint local_parameter_records (n : PredicateInduction) (u : LayerUse) (item : PredicateInfo)
    (c : PredicateConstructorInfo) (i : nat) (schema locals : list Term) : RecM unit :=
  match schema, locals with
  | p :: schema', l :: locals' =>
      schema_ref ← term p;
      local_ref ← term l;
      record "derive" "predicate-induction.one-layer.parameter" (layer_scope n u) "fine.induction"
        ("Fresh local binder for one retained constructor-schema parameter; existential closure " +:+
         "cannot capture a same-manager term already owned by the consumer branch")
        [string_field "consumer_constructor" (lu_consumer u); string_field "use" (lu_use u);
         string_field "predicate" (pi_name item); string_field "predicate_constructor" (pc_name c);
         number_field "parameter_ordinal" i; string_field "schema_parameter" schema_ref;
         string_field "local_parameter" local_ref] ;;
      local_parameter_records n u item c (S i) schema' locals'
  | _, _ => mret tt
  end.

Definition layer_field_record (n : PredicateInduction) (u : LayerUse) (item : PredicateInfo)
    (c : PredicateConstructorInfo) (ordinal : nat) (field : ArbitraryField) (binder requirement : Term)
    (witness : option Term) (availability premises total_field : Term) : RecM string :=
  binder_ref ← term binder;
  schema_ref ← term (af_binder_term field);
  requirement_ref ← term requirement;
  witness_ref ← witness_term witness;
  availability_ref ← term availability;
  premises_ref ← term premises;
  total_ref ← term total_field;
  record "derive" ("predicate-induction." +:+ lu_use u +:+ ".arbitrary-field") (layer_scope n u) "fine.induction"
    ("Alpha-local compiler-owned constrained field in one predicate-constructor alternative; " +:+
     "its binders cannot capture consumer-branch terms, and availability remains separate " +:+
     "from universally scoped recursive premises")
    ([string_field "consumer_constructor" (lu_consumer u); string_field "use" (lu_use u);
      string_field "predicate" (pi_name item); string_field "predicate_constructor" (pc_name c);
      number_field "field_ordinal" ordinal; string_field "binder" (af_binder field);
      string_field "binder_term" binder_ref; string_field "schema_binder_term" schema_ref;
      string_field "view" (af_view_name field); string_field "requirement" requirement_ref;
      string_field "availability_mode" (mode_text (af_availability_witness field));
      string_field "availability_witness" witness_ref; string_field "availability" availability_ref;
      string_field "premises" premises_ref; string_field "total_field" total_ref;
      number_field "recursive_premises" (length (af_premise_terms field))] ++
     (if (lu_use u =? "assumption")%string then [number_field "assumption_ordinal" (lu_ordinal u)] else [])).

Fixpoint conjunctions (acc : Term) (ts : list Term) : RtM Term :=
  match ts with
  | [] => mret acc
  | t :: ts' => acc ← z3_call "and" (z3_op ZAnd [acc; t]); conjunctions acc ts'
  end.

(** The equations between the atom's indices and the constructor's. *)
Fixpoint equations (localize : Term -> Term) (acc : Term) (actual indices : list Term) : RtM Term :=
  match actual, indices with
  | [], _ => mret acc
  | a :: actual', i :: indices' =>
      equation ← z3_call "eq" (z3_op ZEq [a; localize i]);
      acc ← z3_call "and" (z3_op ZAnd [acc; equation]);
      equations localize acc actual' indices'
  | _ :: _, [] => deref "result index" None
  end.

Fixpoint layer_fields (n : PredicateInduction) (u : LayerUse) (item : PredicateInfo) (c : PredicateConstructorInfo)
    (ordinal : nat) (fields : list ArbitraryField) (binders : list Term) (branch : Term) : RtM Term :=
  match fields, binders with
  | field :: fields', binder :: binders' =>
      let requirement := localize n u c (af_requirement field) in
      premises ← conjunctions (bool_val true) (localize n u c <$> af_premise_terms field);
      let witness := localize n u c <$> af_availability_witness field in
      availability ← open_availability requirement binder witness;
      body ← z3_call "implies" (z3_op ZImplies [requirement; premises]);
      total_field ← z3_call "forall" (mk_forall [binder] body);
      branch ← conjunctions branch [availability; total_field];
      rain (layer_field_record n u item c ordinal field binder requirement witness availability premises total_field) ;;
      layer_fields n u item c (S ordinal) fields' binders' branch
  | _, _ => mret branch
  end.

(** One constructor concludes the atom. *)
Definition layer_alternative (n : PredicateInduction) (u : LayerUse) (item : PredicateInfo) (atom : Term)
    (c : PredicateConstructorInfo) : RtM Term :=
  let locals := local_parameters n u c in
  rain (local_parameter_records n u item c 0 (pc_parameters c) locals) ;;
  branch ← equations (localize n u c) (bool_val true) (args atom) (pc_result_indices c);
  branch ← conjunctions branch (localize n u c <$> pc_premise_terms c);
  branch ← layer_fields n u item c 0 (pc_arbitrary_fields c) (local_binders n u c) branch;
  if bool_decide (locals = []) then mret branch else z3_call "exists" (mk_exists locals branch).

Fixpoint alternatives (n : PredicateInduction) (u : LayerUse) (item : PredicateInfo) (atom : Term)
    (cs : list PredicateConstructorInfo) (acc : Term) : RtM Term :=
  match cs with
  | [] => mret acc
  | c :: cs' =>
      branch ← layer_alternative n u item atom c;
      acc ← z3_call "or" (z3_op ZOr [acc; branch]);
      alternatives n u item atom cs' acc
  end.

Definition one_layer (n : PredicateInduction) (u : LayerUse) (item : PredicateInfo) (atom : Term) : RtM Term :=
  if negb (is_app atom) || negb (length (args atom) =? length (pi_index_types item))
  then rt_throw (Internal "internal predicate inversion arity mismatch")
  else alternatives n u item atom (pi_constructors item) (bool_val false).

(** ** One branch *)

Definition branch_scope (n : PredicateInduction) (c : PredicateConstructorInfo) : list string :=
  [induction_scope (pn_declaration n); "branch:" +:+ pc_name c].

Definition goal_record (n : PredicateInduction) (c : PredicateConstructorInfo) (item : PredicateInfo)
    (goal construction : Term) : RecM string :=
  goal_ref ← term goal;
  construction_ref ← term construction;
  record "derive" "predicate-induction.goal.construct" (branch_scope n c) "fine.induction"
    ("Compiler-owned one-constructor construction obligation for a positive predicate goal; this " +:+
     "bounded unfolding avoids a recursive universal introduction axiom")
    [string_field "constructor" (pc_name c); string_field "predicate" (pi_name item); string_field "goal" goal_ref;
     string_field "construction" construction_ref; number_field "alternatives" (length (pi_constructors item))].

(** The goal atom, what must be constructed for it, and the next invocation. *)
Definition branch_goal (n : PredicateInduction) (c : PredicateConstructorInfo) (serial : nat)
    : RtM (Term * Term * nat) :=
  goal ← instantiate n (pn_guarantees n) (pc_result_indices c);
  match pn_goal n with
  | None => mret (goal, goal, serial)
  | Some (item, predicate_goal) =>
      atom ← instantiate n predicate_goal (pc_result_indices c);
      resource ← one_layer n (mkLayerUse (pc_name c) "goal" 0 serial) item atom;
      rain (goal_record n c item atom resource) ;;
      mret (atom, resource, S serial)
  end.

Definition invert_record (n : PredicateInduction) (c : PredicateConstructorInfo) (ordinal : nat) (item : PredicateInfo)
    (specialized unfolded resource : Term) : RecM string :=
  specialized_ref ← term specialized;
  unfolded_ref ← term unfolded;
  resource_ref ← term resource;
  record "derive" "predicate-induction.assumption.invert" (branch_scope n c) "fine.induction"
    ("Compiler-owned one-constructor unfolding of a positive predicate assumption under its " +:+
     "least constructor-generated interpretation")
    [string_field "constructor" (pc_name c); number_field "assumption_ordinal" ordinal;
     string_field "predicate" (pi_name item); string_field "assumption" specialized_ref;
     string_field "inversion" unfolded_ref; string_field "resource" resource_ref;
     number_field "alternatives" (length (pi_constructors item))].

(** The context assumptions at the constructor's indices, atoms with their
    inversions; how many were inverted, and the next invocation. *)
Fixpoint resources_loop (n : PredicateInduction) (c : PredicateConstructorInfo) (ordinal : nat) (ts : list Term)
    (items : list (option PredicateInfo)) (acc : Term) (inverted serial : nat) : RtM (Term * nat * nat) :=
  match ts, items with
  | t :: ts', item :: items' =>
      specialized ← instantiate n t (pc_result_indices c);
      '(resource, inverted, serial) ←
        match item with
        | None => mret (specialized, inverted, serial)
        | Some item =>
            unfolded ← one_layer n (mkLayerUse (pc_name c) "assumption" ordinal serial) item specialized;
            resource ← z3_call "and" (z3_op ZAnd [specialized; unfolded]);
            rain (invert_record n c ordinal item specialized unfolded resource) ;;
            mret (resource, S inverted, S serial)
        end;
      acc ← z3_call "and" (z3_op ZAnd [acc; resource]);
      resources_loop n c (S ordinal) ts' items' acc inverted serial
  | _, _ => mret (acc, inverted, serial)
  end.

Definition hypothesis_record_of (n : PredicateInduction) (c : PredicateConstructorInfo) (ordinal : nat)
    (premise hypothesis : Term) : RecM string :=
  premise_ref ← term premise;
  hypothesis_ref ← term hypothesis;
  record "derive" "predicate-induction.hypothesis" (branch_scope n c) "fine.induction"
    ("Compiler-owned recursive constructor premise paired with the guarantee instantiated at its " +:+ "exact indices")
    [string_field "constructor" (pc_name c); number_field "premise_ordinal" ordinal;
     string_field "recursive_premise" premise_ref; string_field "induction_hypothesis" hypothesis_ref;
     number_field "generalized_parameters" (length (pn_context n))].

(** The premise is built only to be recorded. *)
Definition record_hypothesis (n : PredicateInduction) (c : PredicateConstructorInfo) (ordinal : nat)
    (indices : list Term) (hypothesis : Term) : RtM unit :=
  recording ← gets rainfall_;
  match recording with
  | None => mret tt
  | Some _ =>
      premise ← z3_call "premise" (mk_app (pi_relation (pn_predicate n)) indices);
      rain (hypothesis_record_of n c ordinal premise hypothesis)
  end.

Fixpoint hypotheses_loop (n : PredicateInduction) (c : PredicateConstructorInfo) (ordinal : nat)
    (recursive : list (list Term)) (acc : Term) : RtM Term :=
  match recursive with
  | [] => mret acc
  | indices :: recursive' =>
      hypothesis ← predicate_hypothesis n indices (pc_name c +:+ ".premise" +:+ to_string ordinal);
      acc ← z3_call "and" (z3_op ZAnd [acc; hypothesis]);
      record_hypothesis n c ordinal indices hypothesis ;;
      hypotheses_loop n c (S ordinal) recursive' acc
  end.

(** *** Constrained fields of the branch's constructor *)

Definition field_proof_record (n : PredicateInduction) (c : PredicateConstructorInfo) (proof : AdmittedProof)
    : RecM string :=
  theorem ← term (ap_theorem proof);
  record "constraint" "proof.use" (branch_scope n c) "fine.induction"
    "Previously verified source proof admitted to the arbitrary-field availability query"
    [string_field "proof" (ap_name proof); string_field "theorem" theorem;
     string_field "consumer" (check_name (pn_declaration n)); string_field "constructor" (pc_name c);
     string_field "phase" "arbitrary-availability"].

Definition field_availability_record (n : PredicateInduction) (c : PredicateConstructorInfo) (ordinal : nat)
    (field : ArbitraryField) (obligation : Term) (available : bool) : RecM string :=
  requirement ← term (af_requirement field);
  witness ← witness_term (af_availability_witness field);
  obligation_ref ← term obligation;
  record "transition" "predicate-induction.arbitrary.availability" (branch_scope n c) "z3.public-api"
    ("Fine separately checks that every constructor-parameter assignment admits a carrier value " +:+
     "satisfying the constrained view; this prevents vacuous arbitrary-fresh branches")
    [string_field "constructor" (pc_name c); number_field "field_ordinal" ordinal;
     string_field "binder" (af_binder field); string_field "view" (af_view_name field);
     string_field "requirement" requirement;
     string_field "availability_mode" (mode_text (af_availability_witness field));
     string_field "availability_witness" witness; string_field "obligation" obligation_ref;
     string_field "status" (if available then "unsat" else "sat");
     string_field "domain_outcome" (availability_text available (af_availability_witness field))].

Definition unavailable_field (c : PredicateConstructorInfo) (field : ArbitraryField) : string :=
  match af_availability_witness field with
  | Some _ => "declared witness for constrained view `" +:+ af_view_name field +:+
              "` fails its requirement for some parameters of `" +:+ pc_name c +:+ "`"
  | None => "constrained view `" +:+ af_view_name field +:+ "` is empty for some parameters of `" +:+ pc_name c +:+
            "`; arbitrary-fresh induction would be vacuous"
  end.

Definition check_availability (n : PredicateInduction) (c : PredicateConstructorInfo) (ordinal : nat)
    (field : ArbitraryField) (availability : Term) : RtM unit :=
  obligation ← close_availability c availability;
  negated ← z3_call "not" (z3_op ZNot [obligation]);
  '(result, s) ← prove_query (field_proof_record n c) negated;
  match result with
  | unknown =>
      reject (span (pn_target n)) ("arbitrary-fresh availability for constructor `" +:+ pc_name c +:+
                                   "` was unknown: " +:+ s_reason_unknown s)
  | _ =>
      let available := bool_decide (result = unsat) in
      rain (field_availability_record n c ordinal field obligation available) ;;
      if negb available then reject (span (pn_target n)) (unavailable_field c field) else mret tt
  end.

Definition field_hypothesis_record (n : PredicateInduction) (c : PredicateConstructorInfo) (ordinal i : nat)
    (field : ArbitraryField) (premise hypothesis : Term) : RecM string :=
  binder ← term (af_binder_term field);
  requirement ← term (af_requirement field);
  premise_ref ← term premise;
  hypothesis_ref ← term hypothesis;
  record "derive" "predicate-induction.arbitrary-hypothesis" (branch_scope n c) "fine.induction"
    ("Exact recursive premise and induction-hypothesis template owned by one total " +:+ "arbitrary constrained field")
    [string_field "constructor" (pc_name c); number_field "field_ordinal" ordinal; number_field "premise_ordinal" i;
     string_field "binder" (af_binder field); string_field "binder_term" binder;
     string_field "view" (af_view_name field); string_field "requirement" requirement;
     string_field "recursive_premise" premise_ref; string_field "induction_hypothesis" hypothesis_ref;
     number_field "generalized_parameters" (length (pn_context n)); string_field "scope_owner" "fine-arbitrary-field"].

(** The conjunction of the field's hypotheses, and how many there are. *)
Fixpoint field_hypotheses_loop (n : PredicateInduction) (c : PredicateConstructorInfo) (ordinal i : nat)
    (field : ArbitraryField) (recursive : list (list Term)) (premises : list Term) (acc : Term) : RtM Term :=
  match recursive, premises with
  | indices :: recursive', premise :: premises' =>
      hypothesis ← predicate_hypothesis n indices (pc_name c +:+ ".arbitrary" +:+ to_string ordinal +:+ ".premise" +:+
                                                   to_string i);
      acc ← z3_call "and" (z3_op ZAnd [acc; hypothesis]);
      rain (field_hypothesis_record n c ordinal i field premise hypothesis) ;;
      field_hypotheses_loop n c ordinal (S i) field recursive' premises' acc
  | _, _ => mret acc
  end.

Definition total_hypothesis_record (n : PredicateInduction) (c : PredicateConstructorInfo) (ordinal : nat)
    (field : ArbitraryField) (availability templates total_hypothesis : Term) : RecM string :=
  binder ← term (af_binder_term field);
  requirement ← term (af_requirement field);
  availability_ref ← term availability;
  templates_ref ← term templates;
  total_ref ← term total_hypothesis;
  record "derive" "predicate-induction.arbitrary.total-hypothesis" (branch_scope n c) "fine.induction"
    ("Compiler-owned total induction resource for every carrier satisfying one constrained " +:+
     "field; the separately verified availability resource prevents vacuity")
    [string_field "constructor" (pc_name c); number_field "field_ordinal" ordinal;
     string_field "binder" (af_binder field); string_field "binder_term" binder;
     string_field "view" (af_view_name field); string_field "requirement" requirement;
     string_field "availability_resource" availability_ref; string_field "hypothesis_templates" templates_ref;
     string_field "total_hypothesis" total_ref;
     number_field "recursive_hypotheses" (length (af_recursive_premise_indices field));
     string_field "scope_owner" "fine-arbitrary-field"].

Fixpoint branch_fields_loop (n : PredicateInduction) (c : PredicateConstructorInfo) (ordinal : nat)
    (fields : list ArbitraryField) (acc : Term) : RtM Term :=
  match fields with
  | [] => mret acc
  | field :: fields' =>
      availability ← open_availability (af_requirement field) (af_binder_term field) (af_availability_witness field);
      check_availability n c ordinal field availability ;;
      templates ← field_hypotheses_loop n c ordinal 0 field (af_recursive_premise_indices field)
                    (af_premise_terms field) (bool_val true);
      body ← z3_call "implies" (z3_op ZImplies [af_requirement field; templates]);
      total_hypothesis ← z3_call "forall" (mk_forall [af_binder_term field] body);
      acc ← conjunctions acc [availability; total_hypothesis];
      rain (total_hypothesis_record n c ordinal field availability templates total_hypothesis) ;;
      branch_fields_loop n c (S ordinal) fields' acc
  end.

(** *** The branch's query *)

(** What a branch asserts: resources, goal and the query, and the next invocation. *)
Record Branch := mkBranch {
  br_result : Term;
  br_assumptions : Term;
  br_resources : Term;
  br_inverted : nat;
  br_goal : Term;
  br_goal_resource : Term;
  br_query : Term
}.

Definition branch_open_records (n : PredicateInduction) (c : PredicateConstructorInfo) (b : Branch) : RecM string :=
  let d := pn_declaration n in
  source_term (pn_id n) (check_span d) (if check_reusable d then "decl.proof" else "decl.check") (br_query b)
    "generated" (branch_scope n c) ;;
  result ← term (br_result b);
  assumptions ← term (br_assumptions b);
  resources ← term (br_resources b);
  goal ← term (br_goal b);
  goal_resource ← term (br_goal_resource b);
  query ← term (br_query b);
  record "scope" "predicate-induction.branch.open" (branch_scope n c) "fine.induction"
    "One constructor branch with compiler-owned result indices and recursive hypotheses"
    [string_field "constructor" (pc_name c); number_field "constructor_parameters" (length (pc_parameters c));
     string_field "constructor_result" result; string_field "context_assumptions" assumptions;
     string_field "context_resources" resources; number_field "inverted_assumptions" (br_inverted b);
     string_field "goal" goal; string_field "goal_resource" goal_resource;
     number_field "goal_constructor_alternatives"
       (match pn_goal n with Some (item, _) => length (pi_constructors item) | None => 0 end);
     string_field "counterexample_query" query;
     number_field "recursive_hypotheses"
       (length (pc_recursive_premise_indices c) +
        sum_list ((fun f => length (af_recursive_premise_indices f)) <$> pc_arbitrary_fields c));
     number_field "arbitrary_fields" (length (pc_arbitrary_fields c))].

Definition branch_query (n : PredicateInduction) (c : PredicateConstructorInfo) (serial : nat) : RtM (Branch * nat) :=
  if negb (pc_premise_count c =? length (pc_recursive_premise_indices c))
  then reject (span (pn_target n))
         ("predicate induction currently requires every constructor premise to recurse on `" +:+
          pi_name (pn_predicate n) +:+ "`")
  else
    constructor_result ← z3_call "application" (mk_app (pi_relation (pn_predicate n)) (pc_result_indices c));
    '(goal, goal_resource, serial) ← branch_goal n c serial;
    assumptions ← instantiate n (pn_auxiliary n) (pc_result_indices c);
    '(resources, inverted, serial) ← resources_loop n c 0 (pn_auxiliary_terms n) (pn_auxiliary_predicates n)
                                       (bool_val true) 0 serial;
    hypotheses ← hypotheses_loop n c 0 (pc_recursive_premise_indices c) (bool_val true);
    hypotheses ← branch_fields_loop n c 0 (pc_arbitrary_fields c) hypotheses;
    conjunction ← z3_call "and" (z3_op ZAnd [hypotheses; resources]);
    negated ← z3_call "not" (z3_op ZNot [goal_resource]);
    query ← z3_call "and" (z3_op ZAnd [conjunction; negated]);
    mret (mkBranch constructor_result assumptions resources inverted goal goal_resource query, serial).

Definition branch_proof_record (n : PredicateInduction) (c : PredicateConstructorInfo) (proof : AdmittedProof)
    : RecM string :=
  theorem ← term (ap_theorem proof);
  record "constraint" "proof.use" (branch_scope n c) "fine.induction"
    ("Previously verified source proof admitted to this constructor branch as a universal SMT " +:+ "assumption")
    [string_field "proof" (ap_name proof); string_field "theorem" theorem;
     string_field "consumer" (check_name (pn_declaration n)); string_field "constructor" (pc_name c)].

Definition branch_result_records (n : PredicateInduction) (c : PredicateConstructorInfo) (verified : bool)
    : RecM string :=
  let outcome := if verified then "verified" else "refuted" in
  record "transition" "predicate-induction.branch.result" (branch_scope n c) "z3.public-api"
    "Final public SMT result for one compiler-generated constructor branch"
    [string_field "constructor" (pc_name c); string_field "status" (if verified then "unsat" else "sat");
     string_field "domain_outcome" outcome] ;;
  record "scope" "predicate-induction.branch.close" (branch_scope n c) "fine.induction"
    "Constructor induction branch completed" [string_field "status" outcome].

(** The first constructor whose branch is refuted. *)
Fixpoint branches_loop (n : PredicateInduction) (cs : list PredicateConstructorInfo) (serial : nat)
    : RtM (option string) :=
  match cs with
  | [] => mret None
  | c :: cs' =>
      '(b, serial) ← branch_query n c serial;
      rain (branch_open_records n c b) ;;
      '(result, s) ← prove_query (branch_proof_record n c) (br_query b);
      match result with
      | unknown =>
          reject (span (pn_target n)) ("predicate-induction branch `" +:+ pc_name c +:+ "` was unknown: " +:+
                                       s_reason_unknown s)
      | _ =>
          let verified := bool_decide (result = unsat) in
          rain (branch_result_records n c verified) ;;
          if verified then branches_loop n cs' serial else mret (Some (pc_name c))
      end
  end.

(** ** The command *)

Definition induction_admit_record (n : PredicateInduction) (qid : string) (admitted : Term) : RecM string :=
  let d := pn_declaration n in
  theorem ← term admitted;
  record "transition" "proof.admit" [induction_scope d] "fine.induction"
    ("Only verification of every compiler-owned predicate-constructor branch permits universal " +:+
     "closure and later SMT reuse; the theorem is never added to fixedpoint")
    [string_field "proof" (check_name d); string_field "predicate" (pi_name (pn_predicate n));
     string_field "theorem" theorem; string_field "qid" qid;
     number_field "verified_constructor_branches" (length (pi_constructors (pn_predicate n)));
     boolean_field "verified_before_admission" true; boolean_field "added_to_fixedpoint" false].

Definition admit_induction (n : PredicateInduction) (theorem : Term) : RtM unit :=
  let d := pn_declaration n in
  let qid := "fine.proof." +:+ check_name d in
  let bound := pn_indices n ++ pn_context n in
  admitted ← (if bool_decide (bound = []) then mret theorem
              else z3_call "quantifier" (mk_forall_const qid bound theorem));
  modify (add_proof (mkAdmittedProof (check_name d) admitted)) ;;
  rain (induction_admit_record n qid admitted).

Definition induction_close_record (n : PredicateInduction) (failed : option string) : RecM string :=
  let d := pn_declaration n in
  validate_terms ;;
  record "scope" (if check_reusable d then "proof.run.close" else "predicate-induction.run.close") [induction_scope d]
    "fine.induction" "Compiler-generated predicate induction completed"
    [string_field "status" (match failed with None => "verified" | Some _ => "refuted" end);
     string_field "failed_constructor" (default "" failed)].

Definition induction_text (n : PredicateInduction) (failed : option string) : string :=
  let d := pn_declaration n in
  (match failed with None => "verified-" | Some _ => "refuted-" end) +:+
  (if check_reusable d then "proof: " else "predicate-induction: ") +:+ check_name d +:+ newline_text +:+
  "predicate: " +:+ pi_name (pn_predicate n) +:+ newline_text +:+
  (match failed with
   | None => "constructor-branches: " +:+ to_string (length (pi_constructors (pn_predicate n))) +:+ " verified"
   | Some constructor => "failed-constructor: " +:+ constructor
   end) +:+ newline_text +:+
  "derivation-witness: erased after compiler-owned branch construction" +:+ newline_text.

Definition execute_predicate_induction (d : CheckDecl) (id : nat) (target : Expr) : RtM (nat * string) :=
  n ← induction_statement d id target;
  rain (induction_open_record n) ;;
  antecedent ← z3_call "and" (z3_op ZAnd [pn_target_term n; pn_auxiliary n]);
  theorem ← z3_call "implies" (z3_op ZImplies [antecedent; pn_guarantees n]);
  check_layers n ;;
  failed ← branches_loop n (pi_constructors (pn_predicate n)) 0;
  (if bool_decide (failed = None) && check_reusable d then admit_induction n theorem else mret tt) ;;
  rain (induction_close_record n failed) ;;
  mret (if check_reusable d && bool_decide (failed <> None) then 1 else 0, induction_text n failed).

Definition execute_predicate_check (d : CheckDecl) (id : nat) : RtM (nat * string) :=
  reserve_value_name (check_name d) (check_span d) ;;
  if bool_decide (is_Some (check_induction_parameter d))
  then where_ ← deref "induction span" (check_induction_span d);
       reject where_ "predicate membership does not yet implement derivation induction"
  else
    match check_predicate_induction d with
    | Some target => execute_predicate_induction d id target
    | None =>
        if check_reusable d
        then reject (check_span d)
               ("a proof declared after predicates must use `inducts(P(...))`; Fine admits only the exact theorem " +:+
                "verified by all compiler-owned constructor branches and never adds it to fixedpoint")
        else if bool_decide (check_parameters d <> []) then execute_predicate_invariant d id
        else if bool_decide (check_assumes d <> [])
        then reject (check_span d) "a least-relation membership check cannot yet mix ordinary assumptions"
        else
          match check_ensures d with
          | [source_query] => execute_membership d source_query
          | _ => reject (check_span d) "a least-relation membership check needs exactly one ensured atom"
          end
    end.
End PredicateCheck.
