(* ===== verification/Check.v ===== *)
(** * Checks and proofs (src/src/fine/runtime.cpp, execute_check)

    A check conjoins its assumptions and guarantees into one theorem, turns
    an [inducts] clause into one branch per constructor with a hypothesis per
    direct recursive field, and asks the solver for a counterexample.  An
    unsatisfiable query verifies it (a reusable proof is then admitted as an
    assumption of later queries); a model is lifted, printed, parsed and
    elaborated again before it is reported. *)

From stdpp Require Import gmap.
From S2P Require Import Prelude Format Syntax Lexer Printer Parser Source Z3Ast Z3Solver Z3Build Z3Check Z3Fixedpoint Lift Recorder Observers Runtime Elaborate Declare Values PredicateCheck.
From Stdlib Require Import NArith.

Section Check.
Context `{Z3Build} {HS : Z3Solver} {HC : Z3Check} {HF : Z3Fixedpoint} (term_to_string : Term -> string) (term_ast_id : Term -> N).
Let term : Term -> RecM string := fun t => Recorder.term term_to_string term_ast_id t "semantic-z3".
Let source_term := Recorder.source_term term_to_string term_ast_id.
Let elaborate_expression := Elaborate.elaborate_expression term_to_string term_ast_id.
Let conjoin := Declare.conjoin term_to_string term_ast_id.

(** Checks in a document with predicates are another procedure. *)
Let execute_predicate_check := PredicateCheck.execute_predicate_check term_to_string term_ast_id.

(** ** Parameters *)

Record CheckParameter := mkCheckParameter {
  cp_name : string;
  cp_type : TypePtr;
  cp_term : Term
}.

Definition check_type_ok (type : TypePtr) (t : RuntimeType) : bool :=
  same type int_type_ || same type bool_type_ || bool_decide (rt_kind t = KEnumeration) ||
  bool_decide (rt_kind t = KDatatype) || bool_decide (rt_kind t = KTuple).

Fixpoint check_parameters_loop (owner : string) (i : nat) (ps : list Parameter_) (environment : Environment)
    (acc : list CheckParameter) : RtM (Environment * list CheckParameter) :=
  match ps with
  | [] => mret (environment, acc)
  | p :: ps' =>
      type ← resolve_type (parameter_type p);
      t ← the_type type;
      if negb (check_type_ok type t)
      then reject (type_span (parameter_type p)) "check parameters admit Int, Bool, enums, datatypes, and tuples"
      else
        let internal := "Fine.check." +:+ owner +:+ ".arg" +:+ to_string i in
        let c := constant internal (rt_sort t) in
        match environment !! parameter_name p with
        | Some _ => reject (parameter_span p) ("duplicate parameter `" +:+ parameter_name p +:+ "`")
        | None =>
            check_parameters_loop owner (S i) ps' (<[parameter_name p := mkTyped type c]> environment)
              (acc ++ [mkCheckParameter (parameter_name p) type c])
        end
  end.

(** ** Induction *)

(** What the constructor branches share. *)
Record InductionContext := mkInductionContext {
  ic_name : string;
  ic_scope : string;
  ic_parameters : list CheckParameter;
  ic_index : nat;
  ic_found : CheckParameter;
  ic_theorem : Term
}.

Fixpoint field_constants (owner case : string) (i : nat) (types : list TypePtr) : RtM (list Term) :=
  match types with
  | [] => mret []
  | p :: types' =>
      t ← the_type p;
      rest ← field_constants owner case (S i) types';
      mret (constant ("Fine.check." +:+ owner +:+ ".case." +:+ case +:+ ".field" +:+ to_string i) (rt_sort t) :: rest)
  end.

(** The other parameters and the constants that generalize them. *)
Fixpoint generalize (c : InductionContext) (case : string) (field i : nat) (ps : list CheckParameter)
    : RtM (list (Term * Term)) :=
  match ps with
  | [] => mret []
  | p :: ps' =>
      if i =? ic_index c then generalize c case field (S i) ps'
      else
        t ← the_type (cp_type p);
        rest ← generalize c case field (S i) ps';
        mret ((cp_term p, constant ("Fine.check." +:+ ic_name c +:+ ".ih." +:+ case +:+ ".field" +:+ to_string field +:+
                                    ".arg" +:+ to_string i) (rt_sort t)) :: rest)
  end.

Definition induction_hypothesis (c : InductionContext) (case : string) (field : nat) (recursive : Term) : RtM Term :=
  general ← generalize c case field 0 (ic_parameters c);
  let hypothesis := expr_substitute (ic_theorem c) (cp_term (ic_found c) :: general.*1) (recursive :: general.*2) in
  if bool_decide (general = []) then mret hypothesis
  else z3_call "quantifier" (mk_forall_const
         ("fine.induction." +:+ ic_name c +:+ "." +:+ case +:+ ".field" +:+ to_string field) general.*2 hypothesis).

Definition hypothesis_record (c : InductionContext) (case : string) (field : nat) (recursive hypothesis : Term)
    : RecM string :=
  recursive_ref ← term recursive;
  hypothesis_ref ← term hypothesis;
  record "derive" "check.induction.hypothesis" [ic_scope c; "constructor:" +:+ case] "fine.elaborator"
    ("Exact direct-field induction hypothesis, generalized over every non-induction " +:+
     "check parameter before branch verification")
    [string_field "constructor" case; number_field "field_ordinal" field;
     string_field "recursive_field" recursive_ref; string_field "hypothesis" hypothesis_ref;
     number_field "generalized_parameters" (length (ic_parameters c) - 1)].

(** [branch_hypotheses], [all_hypotheses] and [recursive_positions]. *)
Record Hypotheses := mkHypotheses { h_branch : Term; h_all : Term; h_positions : nat }.

Fixpoint field_hypotheses (c : InductionContext) (case : string) (i : nat) (types : list TypePtr) (fields : list Term)
    (acc : Hypotheses) : RtM Hypotheses :=
  match types, fields with
  | p :: types', f :: fields' =>
      if negb (same p (cp_type (ic_found c))) then field_hypotheses c case (S i) types' fields' acc
      else
        hypothesis ← induction_hypothesis c case i f;
        branch ← z3_call "and" (z3_op ZAnd [h_branch acc; hypothesis]);
        all ← z3_call "and" (z3_op ZAnd [h_all acc; hypothesis]);
        rain (hypothesis_record c case i f hypothesis) ;;
        field_hypotheses c case (S i) types' fields' (mkHypotheses branch all (S (h_positions acc)))
  | _, _ => mret acc
  end.

Definition branch_record (c : InductionContext) (case : string) (guard hypotheses step : Term) : RecM string :=
  guard_ref ← term guard;
  hypotheses_ref ← term hypotheses;
  step_ref ← term step;
  record "derive" "check.induction.branch" [ic_scope c; "constructor:" +:+ case] "fine.elaborator"
    ("Compiler-owned constructor branch with one exact generalized hypothesis per direct " +:+
     "recursive field; no guarded universal ranges over arbitrary datatype terms")
    [string_field "constructor" case; string_field "guard" guard_ref; string_field "hypotheses" hypotheses_ref;
     string_field "step" step_ref].

(** The hypotheses of all branches and the conjunction of the branches. *)
Fixpoint induction_cases (c : InductionContext) (cases : list DatatypeCaseInfo) (all_hypotheses all_branches : Term)
    (positions : nat) : RtM (Term * Term * nat) :=
  match cases with
  | [] => mret (all_hypotheses, all_branches, positions)
  | item :: cases' =>
      fields ← field_constants (ic_name c) (dc_name item) 0 (dc_field_types item);
      constructor ← z3_call "constructor" (mk_app (dc_constructor item) fields);
      guard ← z3_call "eq" (z3_op ZEq [cp_term (ic_found c); constructor]);
      hs ← field_hypotheses c (dc_name item) 0 (dc_field_types item) fields
             (mkHypotheses (bool_val true) all_hypotheses positions);
      inner ← z3_call "implies" (z3_op ZImplies [h_branch hs; ic_theorem c]);
      step ← z3_call "implies" (z3_op ZImplies [guard; inner]);
      all_branches ← z3_call "and" (z3_op ZAnd [all_branches; step]);
      rain (branch_record c (dc_name item) guard (h_branch hs) step) ;;
      induction_cases c cases' (h_all hs) all_branches (h_positions hs)
  end.

Definition declaration_kind (d : CheckDecl) : string := if check_reusable d then "decl.proof" else "decl.check".

Definition induction_record (c : InductionContext) (d : CheckDecl) (id cases positions : nat)
    (hypothesis step : Term) : RecM string :=
  source_term id (check_span d) (declaration_kind d) step "generated" [ic_scope c] ;;
  theorem_ref ← term (ic_theorem c);
  hypothesis_ref ← term hypothesis;
  step_ref ← term step;
  record "transform" "check.induction.translate" [ic_scope c] "fine.elaborator"
    ("Compiler-owned constructor induction with exact direct-field hypotheses generalized over " +:+
     "the remaining check parameters; Z3 receives no guarded arbitrary-subterm quantifier")
    [string_field "parameter" (cp_name (ic_found c)); string_field "order" "constructor-direct-field";
     number_field "constructors" cases; number_field "recursive_positions" positions;
     number_field "generalized_parameters" (length (ic_parameters c) - 1); string_field "theorem" theorem_ref;
     string_field "hypothesis" hypothesis_ref; string_field "step" step_ref;
     string_field "responsibility" "fine-generated-constructor-induction"].

(** Rejecting at the span of the [inducts] clause. *)
Definition induction_reject {A} (d : CheckDecl) (message : string) : RtM A :=
  where_ ← deref "induction span" (check_induction_span d);
  reject where_ message.

(** The induction hypothesis and the induction step of a check. *)
Definition check_induction (d : CheckDecl) (id : nat) (scope : string) (parameters : list CheckParameter)
    (theorem : Term) : RtM (Term * Term) :=
  match check_induction_parameter d with
  | None => mret (bool_val true, theorem)
  | Some parameter =>
      match list_find (fun item => cp_name item = parameter) parameters with
      | None => induction_reject d ("unknown induction parameter `" +:+ parameter +:+ "`")
      | Some (index, found) =>
          t ← the_type (cp_type found);
          if negb (bool_decide (rt_kind t = KDatatype))
          then induction_reject d "direct-subterm induction requires a field-bearing datatype parameter"
          else
            pointer ← deref "datatype" (rt_datatype t);
            datatype ← the_datatype pointer;
            let c := mkInductionContext (check_name d) scope parameters index found theorem in
            '(hypothesis, step, positions) ← induction_cases c (di_cases datatype) (bool_val true) (bool_val true) 0;
            if positions =? 0 then induction_reject d "the induction datatype has no direct recursive fields"
            else
              rain (induction_record c d id (length (di_cases datatype)) positions hypothesis step) ;;
              mret (hypothesis, step)
      end
  end.

(** ** The query *)

Definition inducts (d : CheckDecl) : bool := bool_decide (is_Some (check_induction_parameter d)).
Definition query : string := "query:0".
Definition run_scope (d : CheckDecl) : string := (if check_reusable d then "proof:" else "check:") +:+ check_name d.

Definition open_record (d : CheckDecl) (parameters : nat) : RecM string :=
  record "scope" (if check_reusable d then "proof.run.open" else "check.run.open") [run_scope d] "fine.check"
    ("Fine check elaboration, one public counterexample query, and optional " +:+
     "source-witness round trip; induction checks additionally expose the public " +:+
     "qi_queue binding and on-clause boundaries, not the rest of Z3 search")
    [string_field "declaration" (check_name d); number_field "parameters" parameters].

Definition query_records (d : CheckDecl) (assumptions guarantees theorem hypothesis assertion : Term) : RecM string :=
  assumptions_ref ← term assumptions;
  guarantees_ref ← term guarantees;
  theorem_ref ← term theorem;
  hypothesis_ref ← term hypothesis;
  assertion_ref ← term assertion;
  record "constraint" "check.counterexample.assert" [run_scope d] "fine.check"
    (if inducts d then "Negation of Fine's compiler-generated direct-subterm induction step"
     else "Conjunction of source assumptions and the negation of all source guarantees")
    [string_field "assumptions" assumptions_ref; string_field "guarantees" guarantees_ref;
     string_field "theorem" theorem_ref; string_field "induction_hypothesis" hypothesis_ref;
     string_field "assertion" assertion_ref] ;;
  assertion_ref ← term assertion;
  record "scope" "solver.query.open" [run_scope d; query] "fine.check"
    (if inducts d
     then "Public solver assertion boundary with scoped read-only E-matching binding and " +:+ "on-clause observers"
     else "Public solver assertion boundary")
    [string_field "id" query;
     string_field "purpose" (if inducts d then "refute the compiler-generated structural induction step"
                             else "find a source-level counterexample");
     string_field "assertion" assertion_ref; string_field "polarity" "counterexample-exists";
     boolean_field "induction_translation" (inducts d); boolean_field "mbqi" (negb (inducts d));
     boolean_field "ematching" true].

Definition proof_use_record (d : CheckDecl) (proof : AdmittedProof) : RecM string :=
  theorem_ref ← term (ap_theorem proof);
  record "constraint" "proof.use" [run_scope d; query] "fine.check"
    "Previously verified source proof admitted as a universally quantified SMT assumption"
    [string_field "proof" (ap_name proof); string_field "theorem" theorem_ref;
     string_field "consumer" (check_name d)].

Fixpoint add_proofs (d : CheckDecl) (proofs : list AdmittedProof) (s : solver) : RtM solver :=
  match proofs with
  | [] => mret s
  | proof :: proofs' => rain (proof_use_record d proof) ;; add_proofs d proofs' (s_add s (ap_theorem proof))
  end.

(** The observers, while they are registered. *)
Definition check_observer (d : CheckDecl) : QuantifierObserver := mkQuantifierObserver [run_scope d; query] true false.

Definition observe (o : QuantifierObserver) (event : SolverEvent) : RtM unit :=
  match event with
  | EBinding fresh quantifier instance =>
      rain (on_binding term_to_string term_ast_id (if fresh then None else Some o) quantifier instance)
  | EClause proof_hint dependencies clause =>
      rain (on_clause term_to_string term_ast_id (q_within o) proof_hint dependencies clause)
  end.

Fixpoint observe_all (o : QuantifierObserver) (events : list SolverEvent) : RtM unit :=
  match events with [] => mret tt | e :: events' => observe o e ;; observe_all o events' end.

Definition status_text (r : check_result) : string :=
  match r with sat => "sat" | unsat => "unsat" | unknown => "unknown" end.
Definition outcome_text (r : check_result) : string :=
  match r with sat => "refuted" | unsat => "verified" | unknown => "unknown" end.

Definition result_records (d : CheckDecl) (r : check_result) : RecM string :=
  record "transition" "solver.query.result" [run_scope d; query] "z3.public-api"
    "Final public check result only; no claim about solver search or internal cause"
    [string_field "query" query; string_field "status" (status_text r);
     string_field "polarity" "counterexample-exists"; string_field "domain_outcome" (outcome_text r)] ;;
  record "scope" "solver.query.close" [run_scope d; query] "fine.check" "Public solver query lifetime"
    [string_field "id" query].

(** One query: the solver after the check, and its answer. *)
Definition run_query (d : CheckDecl) (assertion : Term) : RtM (check_result * solver) :=
  let s := if inducts d
           then s_set mk_solver [("mbqi", false); ("ematching", true); ("rewriter.enable_der", false)]
           else mk_solver in
  proofs ← gets admitted_proofs_;
  s ← add_proofs d proofs s;
  let s := s_add s assertion in
  (if inducts d then observe_all (check_observer d) (s_events s) else mret tt) ;;
  let '(result, s) := s_check s [] in
  rain (result_records d result) ;;
  mret (result, s).

(** ** Verified *)

Definition admit_record (d : CheckDecl) (qid : string) (admitted : Term) : RecM string :=
  admitted_ref ← term admitted;
  record "transition" "proof.admit" [run_scope d] "fine.check"
    "Only an unsatisfiable counterexample query permits universal closure and later reuse"
    [string_field "proof" (check_name d); string_field "theorem" admitted_ref; string_field "qid" qid;
     boolean_field "verified_before_admission" true].

Definition admit_proof (d : CheckDecl) (parameters : list CheckParameter) (theorem : Term) : RtM unit :=
  if check_reusable d then
    let qid := "fine.proof." +:+ check_name d in
    admitted ← z3_call "quantifier" (mk_forall_const qid (cp_term <$> parameters) theorem);
    modify (add_proof (mkAdmittedProof (check_name d) admitted)) ;;
    rain (admit_record d qid admitted)
  else mret tt.

Definition close_record (d : CheckDecl) (producer coverage status : string) : RecM string :=
  validate_terms ;;
  record "scope" (if check_reusable d then "proof.run.close" else "check.run.close") [run_scope d] producer coverage
    [string_field "status" status].

Definition induction_line (d : CheckDecl) : string :=
  match check_induction_parameter d with
  | Some p => "induction: direct-subterm on " +:+ p +:+ newline_text
  | None => ""
  end.

Definition verified_text (d : CheckDecl) : string :=
  (if check_reusable d then "verified-proof: " else "verified: ") +:+ check_name d +:+ newline_text +:+
  induction_line d +:+ "counterexample: none" +:+ newline_text.

Definition verified (d : CheckDecl) (parameters : list CheckParameter) (theorem : Term) : RtM (nat * string) :=
  admit_proof d parameters theorem ;;
  rain (close_record d "fine.check" "Source check completed with no counterexample" "verified") ;;
  mret (0, verified_text d).

(** ** Refuted *)

Definition assignment_record (d : CheckDecl) (p : CheckParameter) (value : Term) : RecM string :=
  term_ref ← term (cp_term p);
  value_ref ← term value;
  record "derive" "model.eval-assignment" [run_scope d] "z3.public-api"
    "Completed evaluation of one check parameter under the returned counterexample model"
    [string_field "evidence_query" query; string_field "parameter" (cp_name p); string_field "term" term_ref;
     string_field "value" value_ref; boolean_field "model_completion" true;
     string_field "relation" "equality-under-this-model"].

Definition entry_text (p : CheckParameter) (display : string) (lifted : Expr) : string :=
  "  " +:+ cp_name p +:+ ": " +:+ display +:+ " = " +:+ print_expression lifted +:+ ";" +:+ newline_text.

(** The values of the parameters and the lines that state them. *)
Fixpoint assignments (d : CheckDecl) (model : Model) (ps : list CheckParameter) : RtM (list Term * string) :=
  match ps with
  | [] => mret ([], "")
  | p :: ps' =>
      let value := model_eval model (cp_term p) in
      lifted ← lift_typed_expression value (cp_type p);
      t ← the_type (cp_type p);
      rain (assignment_record d p value) ;;
      '(values, text) ← assignments d model ps';
      mret (value :: values, entry_text p (rt_display t) lifted +:+ text)
  end.

Definition witness_text (name entries : string) : string :=
  "counterexample " +:+ name +:+ " {" +:+ newline_text +:+ entries +:+ "}" +:+ newline_text.

Definition parse_witness (source : string) : RtM Document :=
  match parse source with
  | Ok document => mret document
  | Err e => rt_throw (Witness e)
  | Diverge => fun st => (Diverge, st)
  end.

Fixpoint check_entries (ps : list CheckParameter) (entries : list CounterexampleEntry) (values : list Term) : RtM unit :=
  match ps, entries, values with
  | [], _, _ => mret tt
  | p :: ps', entry :: entries', value :: values' =>
      if negb (cex_entry_name entry =? cp_name p)%string
      then rt_throw (Internal "counterexample parser changed a parameter name")
      else
        parsed_type ← resolve_type (cex_entry_type entry);
        roundtrip ← elaborate_expression ∅ (cex_entry_value entry);
        if negb (same parsed_type (cp_type p)) || negb (same (te_type roundtrip) (cp_type p)) ||
           negb (term_eqb (te_expression roundtrip) value)
        then reject (cex_entry_span entry) "parse(print(lift(value))) violated exact AST identity"
        else check_entries ps' entries' values'
  | _ :: _, _, _ => deref "counterexample entry" None
  end.

Definition witness_records (d : CheckDecl) (source : string) : RecM string :=
  record "object" "fine.counterexample-witness" [run_scope d] "fine.runtime"
    ("Lifted, printed, parsed, and elaborated admitted value assignments with exact " +:+ "same-manager AST identity")
    [string_field "declaration" (check_name d); string_field "source" source;
     boolean_field "parse_reify_exact_identity" true] ;;
  record "transition" "fine.witness.accept" [run_scope d] "fine.runtime"
    "Satisfiable counterexample query plus Fine source round-trip identity check"
    [string_field "declaration" (check_name d); string_field "evidence_query" query;
     string_field "status" "counterexample-witness"; boolean_field "source_roundtrip_exact_identity" true] ;;
  close_record d "fine.runtime" "Source check completed with a returned counterexample" "counterexample-witness".

Definition refuted_text (d : CheckDecl) (source : string) : string :=
  (if check_reusable d then "refuted-proof: " else "refuted: ") +:+ check_name d +:+ newline_text +:+
  induction_line d +:+ source +:+ "parse(print(lift(values))): exact ast identity" +:+ newline_text.

Definition refuted (d : CheckDecl) (parameters : list CheckParameter) (model : Model) : RtM (nat * string) :=
  '(values, entries) ← assignments d model parameters;
  let source := witness_text (check_name d) entries in
  document ← parse_witness source;
  match declarations document with
  | [item] =>
      match declaration item with
      | DCounterexample witness =>
          if negb (counterexample_name witness =? check_name d)%string ||
             negb (length (counterexample_entries witness) =? length parameters)
          then rt_throw (Internal "internal counterexample parser changed the witness")
          else
            check_entries parameters (counterexample_entries witness) values ;;
            rain (witness_records d source) ;;
            mret (if check_reusable d then 1 else 0, refuted_text d source)
      | _ => rt_throw (Internal "internal counterexample parser changed the witness")
      end
  | _ => rt_throw (Internal "internal counterexample parser returned extra declarations")
  end.

(** ** The command *)

(** The parameters of a check and its assumptions and guarantees. *)
Definition check_statement (d : CheckDecl) : RtM (list CheckParameter * Term * Term) :=
  '(environment, parameters) ← check_parameters_loop (check_name d) 0 (check_parameters d) ∅ [];
  rain (open_record d (length parameters)) ;;
  modify (set_capture true [run_scope d]) ;;
  assumptions ← conjoin "assumed condition must have type Bool" environment (check_assumes d) (bool_val true);
  guarantees ← conjoin "ensured condition must have type Bool" environment (check_ensures d) (bool_val true);
  modify (set_capture false []) ;;
  mret (parameters, assumptions, guarantees).

Definition execute_check (d : CheckDecl) (id : nat) : RtM (nat * string) :=
  predicates ← gets predicates_;
  if bool_decide (predicates <> ∅) then execute_predicate_check d id
  else
    match check_predicate_induction d with
    | Some e => reject (span e) "predicate induction target has no declared predicate"
    | None =>
        reserve_value_name (check_name d) (check_span d) ;;
        if bool_decide (check_parameters d = []) then reject (check_span d) "a check needs at least one parameter"
        else
          '(parameters, assumptions, guarantees) ← check_statement d;
          theorem ← z3_call "implies" (z3_op ZImplies [assumptions; guarantees]);
          '(hypothesis, step) ← check_induction d id (run_scope d) parameters theorem;
          assertion ← z3_call "not" (z3_op ZNot [step]);
          rain (query_records d assumptions guarantees theorem hypothesis assertion) ;;
          '(result, s) ← run_query d assertion;
          match result with
          | unknown => reject (check_span d) ("counterexample query was unknown: " +:+ s_reason_unknown s)
          | unsat => verified d parameters theorem
          | sat => refuted d parameters (s_get_model s)
          end
    end.
End Check.
