(* ===== verification/Bisimulation.v ===== *)
(** * Solving a bisimulation (src/src/fine/bisimulation_runtime.cpp)

    [execute_bisimulation]: the tables a `solve bisimulation` declaration
    names are checked, four clauses over an unknown relation are asserted, the
    model's relation is read cell by cell into a table with default [false], and
    the table is printed, parsed and elaborated back before it is accepted. *)

From stdpp Require Import gmap.
From S2P Require Import Prelude Format Json Syntax Printer Parser Source Z3Ast Z3Solver Z3Build Z3Check Lift Recorder Observers Runtime Elaborate Declare Values Check.
From Stdlib Require Import NArith.

(** ** Inputs *)

(** The names a bisimulation takes, in the order of a std::set. *)
Definition expected_inputs : list string :=
  ["initial"; "left_label"; "left_step"; "relation"; "right_label"; "right_step"].

(** The keys of a std::map are visited in increasing order. *)
Definition least (names : list string) : option string :=
  fold_right (fun n m => match m with
                         | Some n' => if (n <=? n')%string then Some n else Some n'
                         | None => Some n
                         end) None names.

Section Inputs.
Context `{Z3Data}.

Fixpoint collect_takes (takes : list NamedArgument) (result : gmap string Expr) : RtM (gmap string Expr) :=
  match takes with
  | [] => mret result
  | a :: takes' =>
      match result !! argument_name a with
      | Some _ => reject (argument_span a) ("duplicate solve input `" +:+ argument_name a +:+ "`")
      | None => collect_takes takes' (<[argument_name a := argument_value a]> result)
      end
  end.

Definition take_map (solve : SolveDecl) : RtM (gmap string Expr) :=
  result ← collect_takes (solve_takes solve) ∅;
  match least (filter (fun n => n ∉ expected_inputs) (argument_name <$> solve_takes solve)) with
  | Some n => reject (solve_span solve) ("unexpected solve input `" +:+ n +:+ "`")
  | None =>
      match filter (fun n => result !! n = None) expected_inputs with
      | n :: _ => reject (solve_span solve) ("missing solve input `" +:+ n +:+ "`")
      | [] => mret result
      end
  end.

(** ** The types of the tables *)

(** The table type of a binding, with its domain and range. *)
Definition expect_table (b : Binding) (sp : SourceSpan) (role : string) : RtM RuntimeType :=
  t ← the_type (b_type b);
  if negb (bool_decide (rt_kind t = KTable)) then reject sp (role +:+ " must have Table type") else mret t.

Definition expect_bool_range (b : Binding) (sp : SourceSpan) (role : string) : RtM unit :=
  t ← expect_table b sp role;
  range ← deref "range" (rt_arguments t !! 1);
  r ← the_type range;
  if negb (bool_decide (rt_kind r = KBoolean)) then reject sp (role +:+ " must return Bool") else mret tt.

Definition domain_of (b : Binding) : RtM TypePtr :=
  t ← the_type (b_type b);
  deref "domain" (rt_arguments t !! 0).

Definition is_pair_of (d : RuntimeType) (state : TypePtr) : bool :=
  bool_decide (rt_kind d = KTuple) &&
  match rt_arguments d with a :: b :: _ => same a state && same b state | _ => false end.

Definition validate_step (step : Binding) (state : TypePtr) (sp : SourceSpan) (role : string) : RtM unit :=
  expect_bool_range step sp role ;;
  domain ← domain_of step;
  d ← the_type domain;
  if negb (is_pair_of d state)
  then s ← the_type state;
       reject sp (role +:+ " must have type Table((" +:+ rt_display s +:+ ", " +:+ rt_display s +:+ "), Bool)")
  else mret tt.

Definition validate_label (label : Binding) (state : TypePtr) (sp : SourceSpan) (role : string) : RtM unit :=
  expect_bool_range label sp role ;;
  domain ← domain_of label;
  if negb (same domain state)
  then s ← the_type state; reject sp (role +:+ " must have type Table(" +:+ rt_display s +:+ ", Bool)")
  else mret tt.

(** [if (rainfall_)] around a computation whose result is used later. *)
Definition recorded {A} (otherwise : A) (m : RecM A) : RtM A := fun st =>
  match rainfall_ st with
  | None => (Ok otherwise, st)
  | Some r =>
      match m r with
      | (Ok a, r') => (Ok a, set_rainfall (Some r') st)
      | (Err e, r') => (Err (Internal e), set_rainfall (Some r') st)
      | (Diverge, r') => (Diverge, set_rainfall (Some r') st)
      end
  end.
End Inputs.

Section Bisimulation.
Context `{Z3Build} {HS : Z3Solver} {HC : Z3Check} (term_to_string : Term -> string) (term_ast_id : Term -> N).
Let term : Term -> RecM string := fun t => Recorder.term term_to_string term_ast_id t "semantic-z3".
Let source_term := Recorder.source_term term_to_string term_ast_id.

(** What the declaration's names resolve to. *)
Record Problem := mkProblem {
  bp_solve : SolveDecl;
  bp_id : nat;
  bp_name : string;
  bp_relation : Binding;
  bp_left_step : Binding;
  bp_right_step : Binding;
  bp_left_label : Binding;
  bp_right_label : Binding;
  bp_domain : TypePtr;
  bp_left : TypePtr;
  bp_right : TypePtr;
  bp_initial : Term
}.

Definition bisim_scope (p : Problem) : string := "bisim:" +:+ bp_name p.

Definition input (inputs : gmap string Expr) (n : string) : RtM Expr := deref "input" (inputs !! n).

Definition read_problem (solve : SolveDecl) (id : nat) : RtM Problem :=
  if negb (solve_name solve =? "bisimulation")%string
  then reject (solve_span solve)
         ("unknown solve form `" +:+ solve_name solve +:+ "`; this slice admits `solve bisimulation`")
  else
    inputs ← take_map solve;
    relation_e ← input inputs "relation";
    relation ← binding relation_e "relation";
    left_step_e ← input inputs "left_step";
    left_step ← binding left_step_e "left_step";
    right_step_e ← input inputs "right_step";
    right_step ← binding right_step_e "right_step";
    left_label_e ← input inputs "left_label";
    left_label ← binding left_label_e "left_label";
    right_label_e ← input inputs "right_label";
    right_label ← binding right_label_e "right_label";
    expect_bool_range relation (solve_span solve) "relation" ;;
    if negb (b_is_model relation) then reject (span relation_e) "relation must name the `model` hole"
    else
      domain ← domain_of relation;
      d ← the_type domain;
      if negb (bool_decide (rt_kind d = KTuple))
      then reject (span relation_e) "relation must be indexed by a pair of enum states"
      else
        left_type ← deref "left state" (rt_arguments d !! 0);
        right_type ← deref "right state" (rt_arguments d !! 1);
        l ← the_type left_type;
        r ← the_type right_type;
        if negb (bool_decide (rt_kind l = KEnumeration)) || negb (bool_decide (rt_kind r = KEnumeration))
        then reject (span relation_e) "bisimulation state types must be finite enums"
        else
          validate_step left_step left_type (span left_step_e) "left_step" ;;
          validate_step right_step right_type (span right_step_e) "right_step" ;;
          validate_label left_label left_type (span left_label_e) "left_label" ;;
          validate_label right_label right_type (span right_label_e) "right_label" ;;
          if negb (bool_decide (kind (solve_gives solve) = EName)) ||
             negb (name (solve_gives solve) =? name relation_e)%string
          then reject (span (solve_gives solve)) "`gives` must return the relation model hole"
          else
            initial_e ← input inputs "initial";
            initial ← value initial_e domain;
            mret (mkProblem solve id (name relation_e) relation left_step right_step left_label right_label domain
                    left_type right_type initial).

(** ** The clauses *)

(** [table[(first, second)]], where the pair is built at the table's domain. *)
Definition select_pair (table : Binding) (first second : Term) : RtM Term :=
  domain ← domain_of table;
  d ← the_type domain;
  constructor ← deref "tuple constructor" (rt_tuple_constructor d);
  key ← z3_call "tuple" (mk_app constructor [first; second]);
  z3_call "select" (z3_op ZSelect [b_value table; key]).

Definition conjunction (a b : Term) : RtM Term := z3_call "and" (z3_op ZAnd [a; b]).
Definition implication (a b : Term) : RtM Term := z3_call "implies" (z3_op ZImplies [a; b]).
Definition named_forall (role : string) (variables : list Term) (body : Term) : RtM Term :=
  z3_call "quantifier" (mk_forall_const ("fine.bisim." +:+ role) variables body).

Definition labels_agree (p : Problem) (l r : Term) : RtM Term :=
  related ← select_pair (bp_relation p) l r;
  left_label ← z3_call "select" (z3_op ZSelect [b_value (bp_left_label p); l]);
  right_label ← z3_call "select" (z3_op ZSelect [b_value (bp_right_label p); r]);
  equation ← z3_call "equal" (z3_op ZEq [left_label; right_label]);
  body ← implication related equation;
  named_forall "labels-agree" [l; r] body.

Definition left_step_matched (p : Problem) (l r l' r' : Term) : RtM Term :=
  related ← select_pair (bp_relation p) l r;
  step ← select_pair (bp_left_step p) l l';
  hypothesis ← conjunction related step;
  answer ← select_pair (bp_right_step p) r r';
  related' ← select_pair (bp_relation p) l' r';
  matched ← conjunction answer related';
  witness ← z3_call "exists" (mk_exists [r'] matched);
  body ← implication hypothesis witness;
  named_forall "left-step-matched" [l; r; l'] body.

Definition right_step_matched (p : Problem) (l r l' r' : Term) : RtM Term :=
  related ← select_pair (bp_relation p) l r;
  step ← select_pair (bp_right_step p) r r';
  hypothesis ← conjunction related step;
  answer ← select_pair (bp_left_step p) l l';
  related' ← select_pair (bp_relation p) l' r';
  matched ← conjunction answer related';
  witness ← z3_call "exists" (mk_exists [l'] matched);
  body ← implication hypothesis witness;
  named_forall "right-step-matched" [l; r; r'] body.

(** The clauses with their roles, in the order they are asserted. *)
Definition clauses (p : Problem) : RtM (list (string * Term)) :=
  lt ← the_type (bp_left p);
  rt ← the_type (bp_right p);
  let l := constant "Fine.left" (rt_sort lt) in
  let r := constant "Fine.right" (rt_sort rt) in
  let l' := constant "Fine.left_next" (rt_sort lt) in
  let r' := constant "Fine.right_next" (rt_sort rt) in
  labels ← labels_agree p l r;
  left_matched ← left_step_matched p l r l' r';
  right_matched ← right_step_matched p l r l' r';
  initial ← z3_call "select" (z3_op ZSelect [b_value (bp_relation p); bp_initial p]);
  mret [("labels-agree", labels); ("left-step-matched", left_matched); ("right-step-matched", right_matched);
        ("initial-related", initial)].

(** ** Records *)

Definition open_bisim_record (p : Problem) : RecM string :=
  relation ← term (b_value (bp_relation p));
  left_step ← term (b_value (bp_left_step p));
  right_step ← term (b_value (bp_right_step p));
  left_label ← term (b_value (bp_left_label p));
  right_label ← term (b_value (bp_right_label p));
  initial ← term (bp_initial p);
  record "scope" "bisim.run.open" [bisim_scope p] "fine.bisimulation"
    ("Fine's finite bisimulation elaboration, one public solver query, accepted MBQI bindings, the " +:+
     "public post-preprocessing clause stream, model extensionalization, and source round trip; " +:+
     "excludes every solver-internal boundary not named by a producer event")
    [string_field "relation" relation; string_field "left_step" left_step; string_field "right_step" right_step;
     string_field "left_label" left_label; string_field "right_label" right_label; string_field "initial" initial;
     boolean_field "mbqi" true].

Definition clause_record (p : Problem) (role : string) (assertion : Term) : RecM (list string) :=
  reference ← term assertion;
  source_term (bp_id p) (solve_span (bp_solve p)) "decl.solve" assertion "generated" [bisim_scope p] ;;
  record "constraint" "bisim.clause.assert" [bisim_scope p] "fine.bisimulation"
    "Fully elaborated bisimulation clause asserted through Z3's public solver API"
    [string_field "role" role; string_field "assertion" reference] ;;
  mret [reference].

Definition open_bisim_query (p : Problem) (references : list string) : RecM string :=
  record "scope" "solver.query.open" [bisim_scope p; query] "fine.bisimulation"
    "Public solver assertion boundary with scoped read-only MBQI-binding and on-clause observers"
    [string_field "id" query; string_field "purpose" "find a finite bisimulation relation model";
     raw_field "assertions" (string_array references); string_field "polarity" "model-exists";
     boolean_field "mbqi" true; boolean_field "ematching" false].

Definition bisim_result_records (p : Problem) (r : check_result) : RecM string :=
  record "transition" "solver.query.result" [bisim_scope p; query] "z3.public-api"
    "Final public check result only; no claim about solver search, MBQI steps, or internal cause"
    [string_field "query" query; string_field "status" (status_text r); string_field "polarity" "model-exists"] ;;
  record "scope" "solver.query.close" [bisim_scope p; query] "fine.bisimulation" "Public solver query lifetime"
    [string_field "id" query].

(** ** The query *)

Fixpoint assert_clauses (p : Problem) (l : list (string * Term)) (s : solver) : RtM (solver * list string) :=
  match l with
  | [] => mret (s, [])
  | (role, assertion) :: l' =>
      reference ← recorded [] (clause_record p role assertion);
      '(s, references) ← assert_clauses p l' (s_add s assertion);
      mret (s, reference ++ references)
  end.

Definition bisim_query (p : Problem) : RtM (check_result * solver) :=
  l ← clauses p;
  '(s, references) ← assert_clauses p l (s_set mk_solver [("mbqi", true); ("ematching", false)]);
  rain (open_bisim_query p references) ;;
  observe_all term_to_string term_ast_id (mkQuantifierObserver [bisim_scope p; query] false true) (s_events s) ;;
  let '(result, s) := s_check s [] in
  rain (bisim_result_records p result) ;;
  mret (result, s).

(** ** Reading the model *)

Definition cell_record (p : Problem) (key selection cell : Term) : RecM (list string) :=
  key_reference ← term key;
  selection_reference ← term selection;
  value_reference ← term cell;
  record "derive" "model.eval-cell" [bisim_scope p] "z3.public-api"
    ("Completed evaluation of one finite relation selection under the model returned by the " +:+
     "named satisfiable query")
    [string_field "evidence_query" query; string_field "key" key_reference;
     string_field "selection" selection_reference; string_field "value" value_reference;
     boolean_field "model_completion" true; string_field "relation" "equality-under-this-model"] ;;
  mret [obj [(lit "key", quote key_reference); (lit "selection", quote selection_reference);
             (lit "value", quote value_reference)]].

(** One cell: the table so far and the evidence for it. *)
Definition read_cell (p : Problem) (constructor : Decl) (m : Model) (l r canonical : Term) : RtM (Term * list string) :=
  key ← z3_call "tuple" (mk_app constructor [l; r]);
  selection ← z3_call "select" (z3_op ZSelect [b_value (bp_relation p); key]);
  let cell := model_eval m selection in
  if negb (is_true cell) && negb (is_false cell)
  then reject (solve_span (bp_solve p)) "model returned a non-Boolean relation cell"
  else
    evidence ← recorded [] (cell_record p key selection cell);
    if is_true cell
    then canonical ← z3_call "store" (z3_op ZStore [canonical; key; bool_val true]); mret (canonical, evidence)
    else mret (canonical, evidence).

Fixpoint read_cells (p : Problem) (constructor : Decl) (m : Model) (cells : list (Term * Term)) (canonical : Term)
    : RtM (Term * list string) :=
  match cells with
  | [] => mret (canonical, [])
  | (l, r) :: cells' =>
      '(canonical, evidence) ← read_cell p constructor m l r canonical;
      '(canonical, rest) ← read_cells p constructor m cells' canonical;
      mret (canonical, evidence ++ rest)
  end.

Definition extensionalize_record (p : Problem) (evidence : list string) (canonical : Term) : RecM string :=
  output ← term canonical;
  record "derive" "bisim.extensionalize-model" [bisim_scope p] "fine.bisimulation"
    ("Complete finite-domain enumeration assembled into Fine's deterministic false-default array " +:+
     "plus true stores")
    [string_field "evidence_query" query; raw_field "cells" (arr evidence); string_field "output" output;
     string_field "policy" "false-default-then-enumeration-order-true-stores"].

(** All pairs, the left state in the outer loop. *)
Definition pairs (left right : list Term) : list (Term * Term) :=
  left ≫= fun l => (fun r => (l, r)) <$> right.

Definition extensionalize (p : Problem) (m : Model) : RtM Term :=
  d ← the_type (bp_domain p);
  constructor ← deref "tuple constructor" (rt_tuple_constructor d);
  canonical ← z3_call "const_array" (z3_op (ZConstArray (rt_sort d)) [bool_val false]);
  l ← the_type (bp_left p);
  r ← the_type (bp_right p);
  le ← deref "enumeration" (rt_enumeration l);
  re ← deref "enumeration" (rt_enumeration r);
  li ← the_enum le;
  ri ← the_enum re;
  '(canonical, evidence) ← read_cells p constructor m (pairs (ei_values li) (ei_values ri)) canonical;
  rain (extensionalize_record p evidence canonical) ;;
  mret canonical.

(** ** The witness *)

Definition bisim_witness_records (p : Problem) (source : string) (canonical : Term) : RecM string :=
  semantic ← term canonical;
  record "object" "fine.model-witness" [bisim_scope p] "fine.runtime"
    "Lifted, printed, parsed, and elaborated model witness with exact same-manager AST identity"
    [string_field "declaration" (bp_name p); string_field "source" source; string_field "semantic_term" semantic;
     boolean_field "parse_reify_exact_identity" true] ;;
  record "transition" "fine.witness.accept" [bisim_scope p] "fine.runtime"
    ("Satisfiable model query plus finite extensionalization and Fine source " +:+ "round-trip identity check")
    [string_field "declaration" (bp_name p); string_field "evidence_query" query;
     string_field "status" "model-witness"; boolean_field "source_roundtrip_exact_identity" true] ;;
  validate_terms ;;
  record "scope" "bisim.run.close" [bisim_scope p] "fine.runtime"
    "Finite bisimulation model and Fine source witness round trip" [string_field "status" "model-witness"].

Definition bisim_text (p : Problem) (source : string) (canonical : Term) : string :=
  "sat: z3 filled model-shaped hole " +:+ bp_name p +:+ newline_text +:+ source +:+
  "parse(print(lift(x))): exact ast identity (diagnostic ast_id: " +:+ decimal (term_ast_id canonical) +:+ ")" +:+
  newline_text.

Definition return_witness (p : Problem) (canonical : Term) : RtM (nat * string) :=
  let type := b_type (bp_relation p) in
  t ← the_type type;
  lifted ← lift_table type canonical;
  source ← render_model_witness (bp_name p) t lifted;
  document ← parse_witness source;
  match declarations document with
  | [item] =>
      match declaration item with
      | DModel witness =>
          match model_value witness with
          | Some literal =>
              if negb (model_name witness =? bp_name p)%string
              then rt_throw (Internal "internal Fine witness parser changed the declaration")
              else
                parsed_type ← resolve_type (model_type witness);
                if negb (same parsed_type type)
                then rt_throw (Internal "internal Fine witness parser changed the model type")
                else
                  pt ← the_type parsed_type;
                  roundtrip ← table_value pt literal;
                  if negb (term_eqb canonical roundtrip)
                  then reject (solve_span (bp_solve p))
                         "parse(print(lift(x))) violated exact AST identity after reification"
                  else
                    rain (bisim_witness_records p source canonical) ;;
                    mret (0, bisim_text p source canonical)
          | None => rt_throw (Internal "internal Fine witness parser changed the declaration")
          end
      | _ => rt_throw (Internal "internal Fine witness parser changed the declaration")
      end
  | _ => rt_throw (Internal "internal Fine witness parser returned extra declarations")
  end.

Definition execute_bisimulation (solve : SolveDecl) (id : nat) : RtM (nat * string) :=
  p ← read_problem solve id;
  rain (open_bisim_record p) ;;
  '(result, s) ← bisim_query p;
  match result with
  | sat => canonical ← extensionalize p (s_get_model s); return_witness p canonical
  | unknown => reject (solve_span solve) ("bisimulation model hole was unknown: " +:+ s_reason_unknown s)
  | unsat => reject (solve_span solve) "bisimulation model hole was unsatisfiable"
  end.
End Bisimulation.
