(* ===== verification/Synthesize.v ===== *)
(** * Running a synthesis (src/src/fine/synthesis_runtime.cpp)

    [execute_synthesis] elaborates the ensured conditions over the parameters
    and a result constant, runs the refutation synthesizer, and accepts its
    witness after printing, parsing and elaborating it back.  A declaration
    with a match fills each open arm on its own, over the other parameters and
    the fields the arm binds, joins the arms by the datatype's recognizers and
    verifies the whole body once more.  The synthesizer need not terminate:
    [fuel] bounds its two loops, and an exhausted bound is [Diverge]. *)

From stdpp Require Import gmap.
From S2P Require Import Prelude Format Json Syntax Printer Parser Source Z3Ast Z3Solver Z3Build Lift Recorder Observers Synthesis Runtime Elaborate Declare Values.
From Stdlib Require Import NArith.

Section Synthesize.
Context `{Z3Build} {HS : Z3Solver} (term_to_string : Term -> string) (term_ast_id : Term -> N) (fuel : nat).
Let term : Term -> RecM string := fun t => Recorder.term term_to_string term_ast_id t "semantic-z3".
Let source_term := Recorder.source_term term_to_string term_ast_id.
Let elaborate_expression := Elaborate.elaborate_expression term_to_string term_ast_id.
Let conjoin := Declare.conjoin term_to_string term_ast_id.

(** ** Shared steps *)

Definition synth_scope (d : SynthDecl) : string := "synth:" +:+ synth_name d.
Definition synth_arg (owner : string) (i : nat) : string := "Fine.synth." +:+ owner +:+ ".arg" +:+ to_string i.
Definition synth_result (d : SynthDecl) : Term := constant ("Fine.synth." +:+ synth_name d +:+ ".result") int_sort.

(** [synthesizer.run()], with the runtime's recorder. *)
Definition synthesize (s : RefutationSynthesizer) : RtM SynthesisResult := fun st =>
  match Synthesis.run term_to_string term_ast_id s fuel (rainfall_ st) with
  | (Ok r, rf) => (Ok r, set_rainfall rf st)
  | (Err e, rf) => (Err (Internal e), set_rainfall rf st)
  | (Diverge, rf) => (Diverge, set_rainfall rf st)
  end.

Definition reparse (source : string) : RtM Expr :=
  match parse_expression source with
  | Ok e => mret e
  | Err e => rt_throw (Witness e)
  | Diverge => fun st => (Diverge, st)
  end.

(** The conjunction of the ensured conditions, where [result] is in scope. *)
Definition synth_specification (d : SynthDecl) (environment : Environment) : RtM Term :=
  conjoin "an ensured condition must have type Bool"
    (emplace "result" (mkTyped int_type_ (synth_result d)) environment) (synth_ensures d) (bool_val true).

(** The witness as an expression over the named inputs, and its text; the
    text must elaborate to the witness itself. *)
Definition round_trip (where_ : SourceSpan) (message : string) (inputs : list (string * Term))
    (environment : Environment) (result_type : TypePtr) (witness : Term) : RtM (Expr * string) :=
  lifted ← lift_expression inputs witness;
  let body := print_expression lifted in
  reparsed ← reparse body;
  roundtrip ← elaborate_expression environment reparsed;
  if negb (same (te_type roundtrip) result_type) || negb (term_eqb (te_expression roundtrip) witness)
  then reject where_ message
  else mret (lifted, body).

(** ** Without a match *)

Fixpoint synth_parameters_loop (owner : string) (i : nat) (ps : list Parameter_) (environment : Environment)
    (acc : list (string * Term)) : RtM (Environment * list (string * Term)) :=
  match ps with
  | [] => mret (environment, acc)
  | p :: ps' =>
      if (Syntax.parameter_name p =? "result")%string
      then reject (parameter_span p) "`result` is reserved for the synthesis result"
      else
        type ← resolve_type (parameter_type p);
        if negb (same type int_type_)
        then reject (type_span (parameter_type p)) "the first synthesis slice admits only Int parameters"
        else
          let value := constant (synth_arg owner i) int_sort in
          match environment !! Syntax.parameter_name p with
          | Some _ => reject (parameter_span p) ("duplicate parameter `" +:+ Syntax.parameter_name p +:+ "`")
          | None =>
              synth_parameters_loop owner (S i) ps' (<[Syntax.parameter_name p := mkTyped type value]> environment)
                (acc ++ [(Syntax.parameter_name p, value)])
          end
  end.

Definition source_witness_records (d : SynthDecl) (body : string) (witness : Term) : RecM string :=
  semantic ← term witness;
  record "object" "fine.source-witness" [synth_scope d] "fine.runtime"
    "Lifted, printed, parsed, elaborated witness with exact same-manager AST identity"
    [string_field "declaration" (synth_name d); string_field "body" body; string_field "semantic_term" semantic;
     boolean_field "parse_reify_exact_identity" true] ;;
  record "transition" "fine.witness.accept" [synth_scope d] "fine.runtime"
    "Backend verification plus Fine source round-trip identity check"
    [string_field "declaration" (synth_name d); string_field "status" "source-program";
     boolean_field "verified" true] ;;
  validate_terms ;;
  record "scope" "synth.run.close" [synth_scope d] "fine.runtime"
    "Native synthesis plus Fine source witness round trip" [string_field "status" "source-program"].

Definition source_program_text (d : SynthDecl) (r : SynthesisResult) (body : string) : string :=
  "source-program: synthesized " +:+ synth_name d +:+ " from " +:+ to_string (length (r_selections r)) +:+
  " ground instances; core kept " +:+ to_string (length (r_core_indices r)) +:+ newline_text +:+
  body +:+ newline_text +:+
  "verification: no counterexample" +:+ newline_text +:+
  "parse(print(lift(witness))): exact ast identity (diagnostic ast_id: " +:+ decimal (term_ast_id (r_witness r)) +:+
  ")" +:+ newline_text.

(** The result type, the environment, the named parameters and the specification. *)
Definition synth_statement (d : SynthDecl) : RtM (TypePtr * Environment * list (string * Term) * Term) :=
  result_type ← resolve_type (synth_result_type d);
  if negb (same result_type int_type_)
  then reject (type_span (synth_result_type d)) "the first synthesis slice returns Int"
  else if bool_decide (synth_parameters d = [])
  then reject (synth_span d) "a synthesized function needs a parameter"
  else
    '(environment, named) ← synth_parameters_loop (synth_name d) 0 (synth_parameters d) ∅ [];
    specification ← synth_specification d environment;
    mret (result_type, environment, named, specification).

Definition plain_synthesizer (d : SynthDecl) (named : list (string * Term)) (specification : Term)
    : RefutationSynthesizer :=
  make_synthesizer (synth_name d) named.*2 (synth_result d) specification [] false.

Definition execute_plain_synthesis (d : SynthDecl) : RtM (nat * string) :=
  reserve_value_name (synth_name d) (synth_span d) ;;
  '(result_type, environment, named, specification) ← synth_statement d;
  r ← synthesize (plain_synthesizer d named specification);
  '(_, body) ← round_trip (synth_span d) "parse(print(lift(witness))) violated exact AST identity" named environment
                 result_type (r_witness r);
  rain (source_witness_records d body (r_witness r)) ;;
  mret (0, source_program_text d r body).

(** ** A match: its parameters *)

Record MatchParameter := mkMatchParameter { mp_name : string; mp_type : TypePtr; mp_term : Term }.

(** The position of the matched parameter is [None] until it is met. *)
Fixpoint match_parameters_loop (owner scrutinee : string) (i : nat) (ps : list Parameter_) (environment : Environment)
    (acc : list MatchParameter) (found : option nat) : RtM (Environment * list MatchParameter * option nat) :=
  match ps with
  | [] => mret (environment, acc, found)
  | p :: ps' =>
      if (Syntax.parameter_name p =? "result")%string
      then reject (parameter_span p) "`result` is reserved for the synthesis result"
      else
        type ← resolve_type (parameter_type p);
        t ← the_type type;
        if bool_decide (rt_kind t = KTable)
        then reject (type_span (parameter_type p)) "synthesis parameters cannot have Table type"
        else
          let c := constant (synth_arg owner i) (rt_sort t) in
          match environment !! Syntax.parameter_name p with
          | Some _ => reject (parameter_span p) ("duplicate parameter `" +:+ Syntax.parameter_name p +:+ "`")
          | None =>
              match_parameters_loop owner scrutinee (S i) ps'
                (<[Syntax.parameter_name p := mkTyped type c]> environment)
                (acc ++ [mkMatchParameter (Syntax.parameter_name p) type c])
                (if (Syntax.parameter_name p =? scrutinee)%string then Some i else found)
          end
  end.

(** What the arms share. *)
Record MatchContext := mkMatchContext {
  mc_declaration : SynthDecl;
  mc_scrutinee : string;
  mc_result_type : TypePtr;
  mc_environment : Environment;
  mc_parameters : list MatchParameter;
  mc_index : nat;
  mc_type : TypePtr;
  mc_term : Term;
  mc_datatype : DatatypeInfo;
  mc_specification : Term
}.

(** The constants the arms do not match on. *)
Definition other_parameters (c : MatchContext) : list MatchParameter :=
  (fun p => p.2) <$> filter (fun p => p.1 <> mc_index c) (imap pair (mc_parameters c)).

Definition match_statement (d : SynthDecl) (scrutinee : Expr) : RtM MatchContext :=
  result_type ← resolve_type (synth_result_type d);
  if negb (same result_type int_type_)
  then reject (type_span (synth_result_type d)) "the first match-synthesis slice returns Int"
  else if negb (bool_decide (kind scrutinee = EName))
  then reject (synth_span d) "a synthesis match must inspect one named parameter directly"
  else
    '(environment, parameters, found) ← match_parameters_loop (synth_name d) (name scrutinee) 0 (synth_parameters d) ∅
                                          [] None;
    match found with
    | None => reject (span scrutinee) "the matched name is not a synthesis parameter"
    | Some index =>
        matched ← deref "matched parameter" (parameters !! index);
        t ← the_type (mp_type matched);
        if negb (bool_decide (rt_kind t = KDatatype))
        then reject (span scrutinee) "a synthesis match requires a field-bearing datatype parameter"
        else
          specification ← synth_specification d environment;
          pointer ← deref "datatype" (rt_datatype t);
          datatype ← the_datatype pointer;
          mret (mkMatchContext d (name scrutinee) result_type environment parameters index (mp_type matched)
                  (mp_term matched) datatype specification)
    end.

Definition open_match_record (c : MatchContext) : RecM string :=
  let d := mc_declaration c in
  specification ← term (mc_specification c);
  record "scope" "synth.run.open" [synth_scope d] "fine.synthesis"
    "Fine-owned exhaustive match skeleton with independently typed open arms"
    [string_field "name" (synth_name d); string_field "matched_parameter" (mc_scrutinee c);
     string_field "specification" specification; number_field "arms" (length (synth_arms d))].

(** ** One arm *)

(** The fields of an arm, the accessors they stand for, the environment and
    the integer inputs of the grammar with their names. *)
Record ArmScope := mkArmScope {
  as_fields : list Term;
  as_accessors : list Term;
  as_environment : Environment;
  as_locals : gset string;
  as_inputs : list (string * Term)
}.

Definition arm_field_name (c : MatchContext) (constructor : string) (i : nat) : string :=
  "Fine.synth." +:+ synth_name (mc_declaration c) +:+ ".arm." +:+ constructor +:+ ".field" +:+ to_string i.

Fixpoint bind_fields (c : MatchContext) (item : DatatypeCaseInfo) (constructor : string) (i : nat)
    (bs : list MatchBinding) (s : ArmScope) : RtM ArmScope :=
  match bs with
  | [] => mret s
  | b :: bs' =>
      type ← deref "field type" (dc_field_types item !! i);
      t ← the_type type;
      let symbol := constant (arm_field_name c constructor i) (rt_sort t) in
      accessor ← deref "accessor" (dc_accessors item !! i);
      projection ← z3_call "accessor" (mk_app accessor [mc_term c]);
      let fields := as_fields s ++ [symbol] in
      let accessors := as_accessors s ++ [projection] in
      if (binding_name b =? "_")%string
      then bind_fields c item constructor (S i) bs'
             (mkArmScope fields accessors (as_environment s) (as_locals s) (as_inputs s))
      else if bool_decide (binding_name b ∈ as_locals s) || bool_decide (is_Some (as_environment s !! binding_name b))
      then reject (binding_span b) ("duplicate or shadowing pattern binding `" +:+ binding_name b +:+ "`")
      else
        bind_fields c item constructor (S i) bs'
          (mkArmScope fields accessors (<[binding_name b := mkTyped type symbol]> (as_environment s))
             ({[binding_name b]} ∪ as_locals s)
             (if same type int_type_ then as_inputs s ++ [(binding_name b, symbol)] else as_inputs s))
  end.

(** The other integer parameters come first in the grammar. *)
Definition initial_scope (c : MatchContext) : ArmScope :=
  mkArmScope [] [] (mc_environment c) ∅
    ((fun p => (mp_name p, mp_term p)) <$> filter (fun p => same (mp_type p) int_type_ = true) (other_parameters c)).

(** A filled or a written arm. *)
Record ArmValue := mkArmValue {
  av_term : Term;
  av_surface : Expr;
  av_selections : nat;
  av_core : nat;
  av_replacement : option string
}.

Definition hole_id (hole : Expr) : string := "hole:" +:+ to_string (node_id hole).

Definition hole_record (c : MatchContext) (hole : Expr) (inputs : list Term) : RecM string :=
  source_id ← source_node (node_id hole) (span hole) "expr.hole";
  references ← terms term_to_string term_ast_id inputs "semantic-z3";
  record "object" "synth.hole.declare" [synth_scope (mc_declaration c)] "fine.synthesis"
    "Snapshot-scoped typed source hole and its fixed integer grammar inputs"
    [string_field "id" (hole_id hole); string_field "snapshot" "snapshot:0"; string_field "source" source_id;
     string_field "name" (name hole); string_field "expected_type" "Int"; string_field "grammar" "fine.qf-lia-int.v1";
     raw_field "grammar_inputs" (string_array references)].

Definition arm_close_record (arm_name : string) (arm : MatchArm) (body : string) (witness : Term) : RecM string :=
  semantic ← term witness;
  record "transition" "synth.arm.close" ["synth-arm:" +:+ arm_name] "fine.synthesis"
    "One open match arm produced an independently verified witness"
    [string_field "hole" (hole_id (arm_value arm)); string_field "constructor" (arm_constructor arm);
     string_field "body" body; string_field "semantic_term" semantic; string_field "status" "verified"].

(** The edit that fills a hole, as a JSON object. *)
Definition replacement (hole : Expr) (body : string) : string :=
  obj [(lit "hole", quote (hole_id hole)); (lit "from", to_string (offset (begin_ (span hole))));
       (lit "to", to_string (offset (end_ (span hole)))); (lit "insert", quote body)].

Definition arm_synthesizer (c : MatchContext) (arm : MatchArm) (s : ArmScope) (specification : Term)
    : RefutationSynthesizer :=
  make_synthesizer (synth_name (mc_declaration c) +:+ "." +:+ name (arm_value arm))
    ((mp_term <$> other_parameters c) ++ as_fields s) (synth_result (mc_declaration c)) specification
    (as_inputs s).*2 true.

Definition open_arm (c : MatchContext) (arm : MatchArm) (s : ArmScope) (environment : Environment)
    (specification : Term) (seen_holes : gset string) : RtM ArmValue :=
  let hole := arm_value arm in
  if decide (name hole ∈ seen_holes)
  then reject (span hole) ("duplicate synthesis hole `?" +:+ name hole +:+ "`")
  else
    rain (hole_record c hole (as_inputs s).*2) ;;
    r ← synthesize (arm_synthesizer c arm s specification);
    '(lifted, body) ← round_trip (span hole) "open-arm witness failed exact Fine source round trip" (as_inputs s)
                        environment (mc_result_type c) (r_witness r);
    rain (arm_close_record (synth_name (mc_declaration c) +:+ "." +:+ name hole) arm body (r_witness r)) ;;
    mret (mkArmValue (r_witness r) lifted (length (r_selections r)) (length (r_core_indices r))
            (Some (replacement hole body))).

Fixpoint reject_nested_hole (e : Expr) : RtM unit :=
  match e with
  | mkExpr k sp _ _ _ _ es _ =>
      (if bool_decide (k = EHole) then reject sp "a synthesis hole must occupy an entire match arm" else mret tt) ;;
      (fix children (es : list Expr) : RtM unit :=
         match es with
         | [] => mret tt
         | x :: es' => reject_nested_hole x ;; children es'
         end) es
  end.

Definition written_arm (c : MatchContext) (arm : MatchArm) (environment : Environment) : RtM ArmValue :=
  reject_nested_hole (arm_value arm) ;;
  v ← elaborate_expression environment (arm_value arm);
  if negb (same (te_type v) (mc_result_type c))
  then t ← the_type (mc_result_type c);
       reject (span (arm_value arm)) ("match arm must return `" +:+ rt_display t +:+ "`")
  else mret (mkArmValue (te_expression v) (arm_value arm) 0 0 None).

(** An arm of the match: its recognizer and its value with accessors for fields. *)
Definition match_arm (c : MatchContext) (seen_cases seen_holes : gset string) (arm : MatchArm)
    : RtM (Term * Term * ArmValue) :=
  match list_find (fun item => dc_name item = arm_constructor arm) (di_cases (mc_datatype c)) with
  | None =>
      reject (arm_span arm) ("constructor `" +:+ arm_constructor arm +:+ "` does not belong to `" +:+
                             di_name (mc_datatype c) +:+ "`")
  | Some (_, item) =>
      if decide (arm_constructor arm ∈ seen_cases)
      then reject (arm_span arm) ("duplicate match arm for `" +:+ arm_constructor arm +:+ "`")
      else if negb (length (arm_bindings arm) =? length (dc_field_types item))
      then reject (arm_span arm) ("constructor `" +:+ arm_constructor arm +:+ "` expects " +:+
                                  to_string (length (dc_field_types item)) +:+ " pattern bindings")
      else
        s ← bind_fields c item (arm_constructor arm) 0 (arm_bindings arm) (initial_scope c);
        constructed ← z3_call "constructor" (mk_app (dc_constructor item) (as_fields s));
        let environment := <[mc_scrutinee c := mkTyped (mc_type c) constructed]> (as_environment s) in
        let specification := expr_substitute (mc_specification c) [mc_term c] [constructed] in
        v ← (if bool_decide (kind (arm_value arm) = EHole)
             then open_arm c arm s environment specification seen_holes
             else written_arm c arm environment);
        let value := if bool_decide (as_fields s = []) then av_term v
                     else expr_substitute (av_term v) (as_fields s) (as_accessors s) in
        guard ← z3_call "recognizer" (mk_app (dc_recognizer item) [mc_term c]);
        mret (guard, value, v)
  end.

(** ** All arms *)

Record MatchState := mkMatchState {
  ms_cases : gset string;
  ms_holes : gset string;
  ms_branches : list (Term * Term);
  ms_values : list ArmValue
}.

Definition is_hole (e : Expr) : bool := bool_decide (kind e = EHole).

Fixpoint match_arms_loop (c : MatchContext) (arms : list MatchArm) (s : MatchState) : RtM MatchState :=
  match arms with
  | [] => mret s
  | arm :: arms' =>
      '(guard, value, v) ← match_arm c (ms_cases s) (ms_holes s) arm;
      match_arms_loop c arms'
        (mkMatchState ({[arm_constructor arm]} ∪ ms_cases s)
           (if is_hole (arm_value arm) then {[name (arm_value arm)]} ∪ ms_holes s else ms_holes s)
           (ms_branches s ++ [(guard, value)]) (ms_values s ++ [v]))
  end.

Definition open_arms (s : MatchState) : nat := length (omap av_replacement (ms_values s)).
Definition total (f : ArmValue -> nat) (s : MatchState) : nat := sum_list (f <$> ms_values s).

(** ** Verifying the whole body *)

Definition verification_query : string := "query:match-verify".

Definition match_assert_records (d : SynthDecl) (body specification assertion : Term) : RecM string :=
  body_ref ← term body;
  specification_ref ← term specification;
  assertion_ref ← term assertion;
  record "constraint" "synth.match.counterexample.assert" [synth_scope d] "fine.synthesis"
    "Negation of the completed exhaustive match specification"
    [string_field "body" body_ref; string_field "specification" specification_ref;
     string_field "assertion" assertion_ref] ;;
  assertion_ref ← term assertion;
  record "scope" "solver.query.open" [synth_scope d; verification_query] "fine.synthesis"
    "Fresh public solver query for the complete materialized match"
    [string_field "id" verification_query; string_field "purpose" "refute the completed exhaustive match";
     string_field "assertion" assertion_ref; string_field "polarity" "counterexample-exists";
     boolean_field "mbqi" true; boolean_field "ematching" true].

Definition match_outcome (r : check_result) : string :=
  match r with sat => "refuted" | unsat => "verified" | unknown => "unknown" end.

Definition match_result_records (d : SynthDecl) (r : check_result) : RecM string :=
  record "transition" "solver.query.result" [synth_scope d; verification_query] "z3.public-api"
    "Final public result for the whole-match verification query"
    [string_field "query" verification_query; string_field "status" (check_text r);
     string_field "polarity" "counterexample-exists"; string_field "domain_outcome" (match_outcome r)] ;;
  record "scope" "solver.query.close" [synth_scope d; verification_query] "fine.synthesis"
    "Whole-match public solver query lifetime" [string_field "id" verification_query].

Definition verify_match (d : SynthDecl) (specification body : Term) : RtM unit :=
  let verified := expr_substitute specification [synth_result d] [body] in
  assertion ← z3_call "not" (z3_op ZNot [verified]);
  rain (match_assert_records d body verified assertion) ;;
  let '(verification, verifier) := s_check (s_add mk_solver assertion) [] in
  rain (match_result_records d verification) ;;
  match verification with
  | unknown => reject (synth_span d) ("materialized match verification was unknown: " +:+ s_reason_unknown verifier)
  | sat => reject (synth_span d) "materialized match does not satisfy its specification"
  | unsat => mret tt
  end.

(** ** The result *)

Definition match_witness_records (d : SynthDecl) (id : nat) (body : Term) (s : MatchState) : RecM string :=
  source_term id (synth_span d) "decl.synth" body "generated" [synth_scope d] ;;
  semantic ← term body;
  record "object" "fine.match-witness" [synth_scope d] "fine.runtime"
    "Whole verified match plus exact source-span replacements for its open arms"
    [string_field "declaration" (synth_name d); string_field "semantic_term" semantic;
     raw_field "replacements" (arr (omap av_replacement (ms_values s)));
     number_field "open_arms" (open_arms s); boolean_field "verified" true] ;;
  validate_terms ;;
  record "scope" "synth.run.close" [synth_scope d] "fine.runtime"
    "Exhaustive match with every open arm synthesized and the whole body freshly verified"
    [string_field "status" (if open_arms s =? 0 then "verified-materialized" else "source-program");
     number_field "open_arms" (open_arms s)].

Definition arm_line (arm : MatchArm) (surface : Expr) : string :=
  "  " +:+ arm_constructor arm +:+
  (if bool_decide (arm_bindings arm = []) then ""
   else "(" +:+ String.concat ", " (binding_name <$> arm_bindings arm) +:+ ")") +:+
  " => " +:+ print_expression surface +:+ "," +:+ newline_text.

Definition match_text (d : SynthDecl) (scrutinee : string) (s : MatchState) : string :=
  (if open_arms s =? 0 then "verified-match: " else "source-match: synthesized ") +:+ synth_name d +:+ " with " +:+
  to_string (open_arms s) +:+ " open arms; selected " +:+ to_string (total av_selections s) +:+
  " ground instances; cores kept " +:+ to_string (total av_core s) +:+ newline_text +:+
  "match " +:+ scrutinee +:+ " {" +:+ newline_text +:+
  String.concat "" (zip_with arm_line (synth_arms d) (av_surface <$> ms_values s)) +:+
  "}" +:+ newline_text +:+ "verification: no counterexample" +:+ newline_text.

Definition execute_match_synthesis (d : SynthDecl) (id : nat) (scrutinee : Expr) : RtM (nat * string) :=
  reserve_value_name (synth_name d) (synth_span d) ;;
  c ← match_statement d scrutinee;
  rain (open_match_record c) ;;
  s ← match_arms_loop c (synth_arms d) (mkMatchState ∅ ∅ [] []);
  if negb (size (ms_cases s) =? length (di_cases (mc_datatype c)))
  then reject (synth_span d) ("non-exhaustive synthesis match; missing " +:+ missing_cases (mc_datatype c) (ms_cases s))
  else
    body ← match_body (ms_branches s);
    verify_match d (mc_specification c) body ;;
    rain (match_witness_records d id body s) ;;
    mret (0, match_text d (name scrutinee) s).

Definition execute_synthesis (d : SynthDecl) (id : nat) : RtM (nat * string) :=
  match synth_scrutinee d with
  | Some scrutinee => execute_match_synthesis d id scrutinee
  | None => execute_plain_synthesis d
  end.
End Synthesize.
