(* ===== verification/Execute.v ===== *)
(** * Executing a document (src/src/fine/runtime.cpp)

    [declare_document_sources] announces every syntax node to the recorder;
    [execute] declares what the document declares, in order, runs its reusable
    proofs as it meets them, and runs its one executable declaration last.
    What is written to the output stays written when a later declaration is
    rejected, so the output is threaded beside the outcome.  [fuel] bounds
    the synthesizer's loops. *)

From stdpp Require Import gmap.
From S2P Require Import Prelude Format Syntax Parser Source Z3Ast Z3Solver Z3Build Z3Check Z3Fixedpoint Lift Recorder Runtime Elaborate Declare Predicate Check Bisimulation Synthesize.
From Stdlib Require Import NArith.

(** ** Source nodes *)

Section Sources.
Context `{Z3Data}.

Definition each {A} (f : A -> RecM unit) (l : list A) : RecM unit :=
  fold_right (fun x rest => f x ;; rest) (mret tt) l.

Definition if_present {A} (f : A -> RecM unit) (o : option A) : RecM unit :=
  match o with Some x => f x | None => mret tt end.

Fixpoint declare_expression_sources (e : Expr) : RecM unit :=
  match e with
  | mkExpr _ sp _ _ _ _ es id =>
      source_node id sp (expression_syntax_kind e) ;;
      (fix children (l : list Expr) : RecM unit :=
         match l with
         | [] => mret tt
         | x :: l' => declare_expression_sources x ;; children l'
         end) es
  end.

Definition declare_table_sources (table : TableLiteral) : RecM unit :=
  declare_expression_sources (table_default table) ;;
  each (fun entry => declare_expression_sources (entry_key entry) ;; declare_expression_sources (entry_value entry))
    (table_entries table).

Definition declaration_syntax (d : Declaration) : SourceSpan * string :=
  match d with
  | DEnum d => (enum_span d, "decl.enum")
  | DLet d => (let_span d, "decl.let")
  | DModel d => (model_span d, "decl.model")
  | DSolve d => (solve_span d, "decl.solve")
  | DView d => (view_span d, "decl.view")
  | DPredicate d => (predicate_span d, "decl.predicate")
  | DFunction d => (function_span d, "decl.function")
  | DSynth d => (synth_span d, "decl.synth")
  | DCheck d => (check_span d, if check_reusable d then "decl.proof" else "decl.check")
  | DCounterexample d => (counterexample_span d, "decl.counterexample")
  end.

Definition arbitrary_sources (field : ArbitraryPremise) : RecM unit :=
  source_node (arbitrary_node_id field) (arbitrary_span field) "predicate.arbitrary-field" ;;
  each declare_expression_sources (arbitrary_arguments field) ;;
  each declare_expression_sources (arbitrary_premises field).

Definition constructor_sources (c : PredicateConstructor) : RecM unit :=
  each declare_expression_sources (constructor_premises c) ;;
  each arbitrary_sources (constructor_arbitrary c) ;;
  declare_expression_sources (constructor_result c).

(** The expressions of one declaration. *)
Definition declaration_sources (d : Declaration) : RecM unit :=
  match d with
  | DEnum _ => mret tt
  | DLet d => declare_table_sources (let_value d)
  | DModel d => if_present declare_table_sources (model_value d)
  | DSolve d =>
      each (fun argument => declare_expression_sources (argument_value argument)) (solve_takes d) ;;
      declare_expression_sources (solve_gives d)
  | DView d =>
      each declare_expression_sources (view_requirements d) ;;
      if_present declare_expression_sources (view_witness d)
  | DPredicate d => each constructor_sources (predicate_constructors d)
  | DFunction d =>
      declare_expression_sources (function_scrutinee d) ;;
      each (fun arm => declare_expression_sources (arm_value arm)) (function_arms d)
  | DSynth d =>
      if_present declare_expression_sources (synth_scrutinee d) ;;
      each (fun arm => declare_expression_sources (arm_value arm)) (synth_arms d) ;;
      each declare_expression_sources (synth_ensures d)
  | DCheck d =>
      if_present declare_expression_sources (check_predicate_induction d) ;;
      each declare_expression_sources (check_assumes d) ;;
      each declare_expression_sources (check_ensures d)
  | DCounterexample d =>
      each (fun entry => declare_expression_sources (cex_entry_value entry)) (counterexample_entries d)
  end.

Definition declare_document_sources (document : Document) : RtM unit :=
  rain (each (fun item =>
    let (sp, kind) := declaration_syntax (declaration item) in
    source_node (declaration_node_id item) sp kind ;;
    declaration_sources (declaration item)) (declarations document)).
End Sources.

(** ** The output *)

Section Output.
Context `{Z3Data}.

Definition ExecM (A : Type) : Type := string -> RuntimeState -> outcome RtError A * string * RuntimeState.

#[export] Instance ExecM_ret : MRet ExecM := fun A a out st => (Ok a, out, st).
#[export] Instance ExecM_bind : MBind ExecM := fun A B k m out st =>
  match m out st with
  | (Ok a, out', st') => k a out' st'
  | (Err e, out', st') => (Err e, out', st')
  | (Diverge, out', st') => (Diverge, out', st')
  end.

(** An operation that writes nothing. *)
Definition quiet {A} (m : RtM A) : ExecM A := fun out st => let (r, st') := m st in (r, out, st').

Definition write (text : string) : ExecM unit := fun out st => (Ok tt, out +:+ text, st).

(** An operation that returns its exit code and the text it wrote. *)
Definition written (m : RtM (nat * string)) : ExecM nat := '(code, text) ← quiet m; write text ;; mret code.
End Output.

(** ** The document *)

(** The executable declarations met so far, and whether a model hole was. *)
Record Plan := mkPlan {
  plan_solve : option (SolveDecl * nat);
  plan_synth : option (SynthDecl * nat);
  plan_check : option (CheckDecl * nat);
  plan_hole : bool
}.

Definition empty_plan : Plan := mkPlan None None None false.
Definition planned (p : Plan) : bool :=
  bool_decide (is_Some (plan_solve p)) || bool_decide (is_Some (plan_synth p)) || bool_decide (is_Some (plan_check p)).

Section Execute.
Context `{Z3Build} {HS : Z3Solver} {HC : Z3Check} {HF : Z3Fixedpoint}.
Context (term_to_string : Term -> string) (term_ast_id : Term -> N) (fuel : nat).
Let declare_predicate := Predicate.declare_predicate term_to_string term_ast_id.
Let execute_check := Check.execute_check term_to_string term_ast_id.
Let execute_bisimulation := Bisimulation.execute_bisimulation term_to_string term_ast_id.
Let execute_synthesis := Synthesize.execute_synthesis term_to_string term_ast_id fuel.

Definition one_executable : string := "this source slice admits one executable declaration".

(** One declaration: the plan after it, or the exit code of a refuted proof. *)
Definition execute_declaration (plan : Plan) (item : declared) : ExecM (Plan + nat) :=
  let id := declaration_node_id item in
  match declaration item with
  | DEnum d => quiet (declare_enum d) ;; mret (inl plan)
  | DFunction d => quiet (declare_function term_to_string term_ast_id d id) ;; mret (inl plan)
  | DLet d => quiet (declare_let d) ;; mret (inl plan)
  | DModel d =>
      quiet (declare_model d) ;;
      match model_value d with
      | Some _ => mret (inl plan)
      | None =>
          if plan_hole plan
          then quiet (reject (model_span d) "this solve slice admits exactly one model-shaped hole")
          else mret (inl (mkPlan (plan_solve plan) (plan_synth plan) (plan_check plan) true))
      end
  | DSolve d =>
      if planned plan then quiet (reject (solve_span d) one_executable)
      else mret (inl (mkPlan (Some (d, id)) (plan_synth plan) (plan_check plan) (plan_hole plan)))
  | DView d => quiet (declare_view term_to_string term_ast_id d) ;; mret (inl plan)
  | DPredicate d => quiet (declare_predicate d id) ;; mret (inl plan)
  | DSynth d =>
      if planned plan then quiet (reject (synth_span d) one_executable)
      else mret (inl (mkPlan (plan_solve plan) (Some (d, id)) (plan_check plan) (plan_hole plan)))
  | DCheck d =>
      if check_reusable d then
        if planned plan then quiet (reject (check_span d) "a reusable proof must precede the executable declaration")
        else
          result ← written (execute_check d id);
          if negb (result =? 0) then mret (inr result) else mret (inl plan)
      else if planned plan then quiet (reject (check_span d) one_executable)
      else mret (inl (mkPlan (plan_solve plan) (plan_synth plan) (Some (d, id)) (plan_hole plan)))
  | DCounterexample d =>
      quiet (reject (counterexample_span d)
               "a `counterexample` declaration is a returned witness, not an executable check")
  end.

Fixpoint execute_declarations (plan : Plan) (l : list declared) : ExecM (Plan + nat) :=
  match l with
  | [] => mret (inl plan)
  | item :: l' =>
      result ← execute_declaration plan item;
      match result with
      | inl plan' => execute_declarations plan' l'
      | inr code => mret (inr code)
      end
  end.

(** The executable declaration of the plan. *)
Definition execute_plan (document : Document) (plan : Plan) : ExecM nat :=
  predicates ← quiet (gets predicates_);
  if bool_decide (predicates <> ∅) && bool_decide (plan_check plan = None)
  then quiet (reject (document_span document)
                "predicates currently require one ground least-relation membership `check`")
  else
    match plan_synth plan, plan_check plan, plan_solve plan with
    | Some (d, id), _, _ => written (execute_synthesis d id)
    | None, Some (d, id), _ => written (execute_check d id)
    | None, None, None =>
        quiet (reject (document_span document) "expected one `solve`, `synth`, or `check` declaration")
    | None, None, Some (d, id) =>
        if negb (plan_hole plan)
        then quiet (reject (document_span document) "expected one model-shaped hole for the solve result")
        else written (execute_bisimulation d id)
    end.

Definition execute (document : Document) : ExecM nat :=
  quiet (declare_document_sources document) ;;
  result ← execute_declarations empty_plan (declarations document);
  match result with
  | inl plan => execute_plan document plan
  | inr code => mret code
  end.

(** [fine::execute]: a fresh runtime, and what it wrote. *)
Definition run_document (rainfall : option Recorder) (document : Document) : outcome RtError nat * string :=
  let '(result, out, _) := execute document "" (make_runtime rainfall) in (result, out).
End Execute.
