(* ===== verification/Main.v ===== *)
(** * The command line (src/src/fine/main.cpp)

    [run_source] parses, executes and turns what was thrown into a message and
    an exit code; [main] reads the arguments.  The file system, the entropy of
    the clock and the random device, the demo source the build generates, and
    the messages of Z3's exceptions are arguments.  In a rain run the ordinary
    output is discarded and the records are the output. *)

From stdpp Require Import gmap.
From S2P Require Import Prelude Format Syntax Lexer LexerSpec Parser ParserSpec DocumentSpec Diagnostics Source Z3Ast Z3Solver Z3Build Z3Check Z3Fixedpoint Lift Recorder Runtime Values Check Execute.
From Stdlib Require Import NArith.

(** What a process leaves behind. *)
Record Exit := mkExit { exit_code : nat; exit_output : string; exit_error : string }.

Definition EXIT_FAILURE : nat := 1.

Record RainRequest := mkRainRequest { request_document : string; request_revision : nat; request_generation : string }.

(** Opening and reading a file. *)
Inductive FileResult := CannotOpen | ReadFailed | Contents (text : string).

(** [std::from_chars] into a std::size_t: the longest prefix of digits, which
    must not be empty and must fit; with the number, what was not read. *)
Definition digits_value (text : string) : N :=
  foldl (fun n c => n * 10 + (N_of_ascii c - 48))%N 0%N (list_ascii_of_string text).

Definition from_chars (text : string) : option (N * string) :=
  let '(digits, rest) := span_while is_digit text in
  if (digits =? "")%string then None
  else if (digits_value digits <? 2 ^ 64)%N then Some (digits_value digits, rest) else None.

Definition parse_revision (text : string) : option nat :=
  match from_chars text with
  | Some (result, rest) => if (rest =? "")%string then Some (N.to_nat result) else None
  | None => None
  end.

Definition usage : string :=
  "usage: fine demo-bisim" +:+ newline_text +:+
  "       fine run <source.fine>" +:+ newline_text +:+
  "       fine rain <source.fine>" +:+ newline_text +:+
  "       fine rain --document <id> --revision <n> " +:+
  "--generation <id> <source.fine>" +:+ newline_text.

(** An exception that leaves [run_source], with what was written before it. *)
Inductive Uncaught := UncaughtZ3 (output call : string) | UncaughtStd (output message : string).

Section Main.
Context `{Z3Build} {HS : Z3Solver} {HC : Z3Check} {HF : Z3Fixedpoint}.
Context (term_to_string : Term -> string) (term_ast_id : Term -> N) (fuel : nat).
Context (max_size : N) (entropy : Entropy) (read_file : string -> FileResult) (demo_source : string)
  (z3_message : string -> string) (fault_message : fault -> string).
Let execute := Execute.execute term_to_string term_ast_id fuel.

(** A diagnostic on the error stream; formatting may itself throw. *)
Definition diagnosed (output : string) (text : outcome fault string) : outcome Uncaught Exit :=
  match text with
  | Ok text => Ok (mkExit EXIT_FAILURE output (text +:+ newline_text))
  | Err f => Err (UncaughtStd output (fault_message f))
  | Diverge => Diverge
  end.

(** The catch clauses of [run_source]. *)
Definition finish (filename source output : string) (result : outcome RtError nat) : outcome Uncaught Exit :=
  match result with
  | Ok code => Ok (mkExit code output "")
  | Err (Semantic where_ message) => diagnosed output (semantic_error_format max_size filename source where_ message)
  | Err (Witness error) => diagnosed output (parse_error_format max_size filename source error)
  | Err (Internal message) => Err (UncaughtStd output message)
  | Err (Z3Exception call) => Err (UncaughtZ3 output call)
  | Diverge => Diverge
  end.

Definition lines (l : list string) : string := fold_right (fun line rest => line +:+ newline_text +:+ rest) "" l.

Definition recorded (st : RuntimeState) : string :=
  match rainfall_ st with Some r => lines (output_ r) | None => "" end.

Definition run_source (filename source : string) (rainfall : bool) (request : option RainRequest)
    : outcome Uncaught Exit :=
  match parse source with
  | Err error => diagnosed "" (parse_error_format max_size filename source error)
  | Diverge => Diverge
  | Ok document =>
      if rainfall then
        let snapshot := make_source_snapshot entropy filename source (from_option request_revision 0 request)
                          (from_option request_document "" request) in
        let recorder := make_recorder (random entropy) (from_option request_generation "" request) (Some snapshot) in
        let '(result, _, st) := execute document "" (make_runtime (Some recorder)) in
        finish filename source (recorded st) result
      else
        let '(result, output, _) := execute document "" (make_runtime None) in
        finish filename source output result
  end.

Definition run_file (path : string) (rainfall : bool) (request : option RainRequest) : outcome Uncaught Exit :=
  match read_file path with
  | CannotOpen => Ok (mkExit EXIT_FAILURE "" ("fine: cannot open `" +:+ path +:+ "`" +:+ newline_text))
  | ReadFailed => Ok (mkExit EXIT_FAILURE "" ("fine: failed while reading `" +:+ path +:+ "`" +:+ newline_text))
  | Contents source => run_source path source rainfall request
  end.

(** The arguments after the program's name. *)
Definition dispatch (argv : list string) : outcome Uncaught Exit :=
  let refused := Ok (mkExit EXIT_FAILURE "" usage) in
  match argv with
  | [command] =>
      if (command =? "demo-bisim")%string then run_source "<demo-bisim>" demo_source false None else refused
  | [command; path] =>
      if (command =? "run")%string then run_file path false None
      else if (command =? "rain")%string then run_file path true None
      else refused
  | [command; o1; document; o2; text; o3; generation; path] =>
      if (command =? "rain")%string && (o1 =? "--document")%string && (o2 =? "--revision")%string &&
         (o3 =? "--generation")%string then
        match parse_revision text with
        | Some n =>
            if (document =? "")%string || (generation =? "")%string
            then Ok (mkExit EXIT_FAILURE "" ("fine: invalid rain snapshot request" +:+ newline_text))
            else run_file path true (Some (mkRainRequest document n generation))
        | None => Ok (mkExit EXIT_FAILURE "" ("fine: invalid rain snapshot request" +:+ newline_text))
        end
      else refused
  | _ => refused
  end.

(** The handlers around [main]. *)
Definition main (argv : list string) : option Exit :=
  match dispatch argv with
  | Ok exit => Some exit
  | Err (UncaughtZ3 output call) => Some (mkExit EXIT_FAILURE output ("z3: " +:+ z3_message call +:+ newline_text))
  | Err (UncaughtStd output message) => Some (mkExit EXIT_FAILURE output ("fine: " +:+ c_str message +:+ newline_text))
  | Diverge => None
  end.
End Main.
