(* ===== verification/RuntimeSpec.v ===== *)
(** * The runtime's invariant

    [runtime_ok]: the heaps hold what the name tables point at, every type
    is registered under its display, and declarations have the sorts of the
    types they are used at.  Displays are unambiguous, so a compound type
    found by its display is the one asked for. *)

From stdpp Require Import gmap.
From S2P Require Import Prelude Format Syntax Lexer Parser ParserSpec Printer Source Z3Ast Z3Solver Z3Build Z3Fixedpoint Lift Recorder Runtime.
From Stdlib Require Import NArith.

(** ** Displays are unambiguous *)

Definition plain (c : ascii) : bool :=
  negb (c =? "(")%char && negb (c =? ",")%char && negb (c =? ")")%char && negb (c =? " ")%char.

Definition plain_name (n : string) : Prop := all_chars plain n = true /\ n <> "".

Definition pair_display (a b : string) : string := "(" +:+ a +:+ ", " +:+ b +:+ ")".
Definition table_display (a b : string) : string := "Table(" +:+ a +:+ ", " +:+ b +:+ ")".

(** Displays of value types. *)
Inductive display : string -> Prop :=
| display_name n : plain_name n -> display n
| display_pair a b : display a -> display b -> display (pair_display a b).

(** What follows a display inside another. *)
Definition closes (s : string) : Prop :=
  match s with EmptyString => True | String c _ => plain c = false /\ c <> "("%char end.

Lemma plain_split a b x y :
  all_chars plain a = true -> all_chars plain b = true -> closes x -> closes y -> a +:+ x = b +:+ y -> a = b /\ x = y.
Proof.
  revert b; induction a as [|c a IH]; intros [|d b] Ha Hb Hx Hy E; simpl in *.
  - done.
  - subst x. apply andb_true_iff in Hb as [Hb _]. destruct Hx as [Hx _]. congruence.
  - subst y. apply andb_true_iff in Ha as [Ha _]. destruct Hy as [Hy _]. congruence.
  - injection E as -> E. apply andb_true_iff in Ha as [_ Ha], Hb as [_ Hb].
    destruct (IH b Ha Hb Hx Hy E) as [-> ->]. done.
Qed.

Lemma display_unambiguous a b x y :
  display a -> display b -> closes x -> closes y -> a +:+ x = b +:+ y -> a = b /\ x = y.
Proof.
  intros Ha. revert b x y. induction Ha as [n [Hn Hne]|a1 a2 Ha1 IH1 Ha2 IH2]; intros b x y Hb Hx Hy E.
  - destruct Hb as [m [Hm _]|b1 b2 _ _]; [by apply plain_split|].
    destruct n as [|c n]; [done|]. injection E as -> _. done.
  - destruct Hb as [m [Hm Hme]|b1 b2 Hb1 Hb2].
    { destruct m as [|c m]; [done|]. injection E as <- _. done. }
    unfold pair_display in E. rewrite !append_assoc in E. apply append_inv_head in E.
    apply IH1 in E as [-> E]; [|done..]. apply append_inv_head in E.
    apply IH2 in E as [-> E]; [|done..]. injection E as ->. done.
Qed.

Lemma pair_display_inj a b a' b' :
  display a -> display b -> display a' -> display b' -> pair_display a b = pair_display a' b' -> a = a' /\ b = b'.
Proof.
  intros Ha Hb Ha' Hb' E. unfold pair_display in E. apply append_inv_head in E.
  apply display_unambiguous in E as [-> E]; [|done..]. apply append_inv_head in E.
  by apply display_unambiguous in E as [-> _].
Qed.

Lemma table_display_inj a b a' b' :
  display a -> display b -> display a' -> display b' -> table_display a b = table_display a' b' -> a = a' /\ b = b'.
Proof.
  intros Ha Hb Ha' Hb' E. unfold table_display in E. apply append_inv_head in E.
  apply display_unambiguous in E as [-> E]; [|done..]. apply append_inv_head in E.
  by apply display_unambiguous in E as [-> _].
Qed.

Lemma plain_not_pair n a b : plain_name n -> n <> pair_display a b.
Proof. by intros [Hn _] ->. Qed.
Lemma plain_not_table n a b : plain_name n -> n <> table_display a b.
Proof. by intros [Hn _] ->. Qed.

Lemma identifier_plain n : is_identifier n = true -> plain_name n.
Proof.
  intros [Hn _]%andb_true_iff. destruct n as [|c n]; [done|]. apply andb_true_iff in Hn as [Hc Hn].
  assert (Hp : forall x, is_name_continue x = true -> plain x = true) by (intros [[] [] [] [] [] [] [] []]; done).
  assert (Hs : is_name_start c = true -> plain c = true) by (destruct c as [[] [] [] [] [] [] [] []]; done).
  split; [|done]. simpl. rewrite (Hs Hc). simpl. clear Hs Hc. induction n as [|x n IH]; [done|].
  simpl in *. apply andb_true_iff in Hn as [Hx Hn]. by rewrite (Hp x Hx), IH.
Qed.

(** ** Steps that returned *)

Section Returned.
Context `{Z3Data}.

Lemma bind_Ok {A B} (m : RtM A) (k : A -> RtM B) st b st' :
  (m ≫= k) st = (Ok b, st') -> exists a st1, m st = (Ok a, st1) /\ k a st1 = (Ok b, st').
Proof. unfold mbind, RtM_bind. destruct (m st) as [[a|e|] st1]; [by eauto|done..]. Qed.

Lemma deref_Ok {A} what (o : option A) st a st' : deref what o st = (Ok a, st') -> o = Some a /\ st' = st.
Proof. destruct o; [by intros [= <- <-]|done]. Qed.

Lemma z3_call_Ok {A} call (o : option A) st a st' : z3_call call o st = (Ok a, st') -> o = Some a /\ st' = st.
Proof. destruct o; [by intros [= <- <-]|done]. Qed.
Lemma the_type_Ok p st rt st' : the_type p st = (Ok rt, st') -> type_heap st !! p = Some rt /\ st' = st.
Proof. by intros (o & st1 & [= <- <-] & [? ->]%deref_Ok)%bind_Ok. Qed.
End Returned.

(** ** Well-formed runtime states *)

(** The arities the parser guarantees, and integer literals made of digits. *)
Fixpoint source_form (e : Expr) : bool :=
  element_count_ok (kind e) (length (elements e)) &&
  (if bool_decide (kind e = EInteger) then is_integer (integer_text e) else true) && forallb source_form (elements e).

Section Invariant.
Context `{Z3BuildLaws}.

Definition bool_runtime_type : RuntimeType := mkRuntimeType KBoolean bool_sort "Bool" [] None None None.
Definition int_runtime_type : RuntimeType := mkRuntimeType KInteger int_sort "Int" [] None None None.

(** A declared or built-in type, registered under its name. *)
Definition named (st : RuntimeState) (p : TypePtr) (rt : RuntimeType) : Prop :=
  types_ st !! rt_display rt = Some p /\ is_identifier (rt_display rt) = true.

(** A type that can be a component. *)
Definition component (st : RuntimeState) (p : TypePtr) (rt : RuntimeType) : Prop :=
  type_heap st !! p = Some rt /\ rt_kind rt <> KTable /\ display (rt_display rt).

(** The constructor Z3 made for a tuple sort. *)
Definition tuple_declared (c : Decl) : Prop := interpreted c /\ exists n fields, c = tuple_sort n fields.

Inductive type_wf (st : RuntimeState) (p : TypePtr) : RuntimeType -> Prop :=
| wf_bool : p = bool_type_ -> named st p bool_runtime_type -> type_wf st p bool_runtime_type
| wf_int : p = int_type_ -> named st p int_runtime_type -> type_wf st p int_runtime_type
| wf_enum s n ep info :
    enum_heap st !! ep = Some info -> ei_type info = p ->
    named st p (mkRuntimeType KEnumeration s n [] (Some ep) None None) ->
    type_wf st p (mkRuntimeType KEnumeration s n [] (Some ep) None None)
| wf_datatype s n dp info :
    datatype_heap st !! dp = Some info -> di_type info = p ->
    named st p (mkRuntimeType KDatatype s n [] None (Some dp) None) ->
    type_wf st p (mkRuntimeType KDatatype s n [] None (Some dp) None)
| wf_tuple a b ta tb c key :
    component st a ta -> component st b tb -> key = pair_display (rt_display ta) (rt_display tb) ->
    decl_domain c = [rt_sort ta; rt_sort tb] -> tuple_declared c -> compound_types_ st !! key = Some p ->
    type_wf st p (mkRuntimeType KTuple (decl_range c) key [a; b] None None (Some c))
| wf_table a b ta tb key :
    component st a ta -> component st b tb -> key = table_display (rt_display ta) (rt_display tb) ->
    compound_types_ st !! key = Some p ->
    type_wf st p (mkRuntimeType KTable (array_sort (rt_sort ta) (rt_sort tb)) key [a; b] None None None).

(** The cases Z3 made for an enumeration. *)
Definition declared_enumeration (s : Sort) (ds : list Decl) : Prop :=
  Forall (fun d => decl_domain d = [] /\ decl_range d = s /\ interpreted d) ds /\
  exists n names, enumeration_sort n names = (s, ds).

Definition enum_wf (st : RuntimeState) (ep : EnumPtr) (info : EnumInfo) : Prop :=
  exists rt, type_heap st !! ei_type info = Some rt /\ rt_kind rt = KEnumeration /\ rt_enumeration rt = Some ep /\
    length (ei_case_names info) = length (ei_values info) /\
    ei_values info = (fun d => App d []) <$> ei_constructors info /\
    declared_enumeration (rt_sort rt) (ei_constructors info) /\
    NoDup (ei_values info) /\
    forall i n, ei_case_names info !! i = Some n -> cases_ st !! n = Some (ep, i).

(** The types of parameters or fields, with what they point at. *)
Definition typed_as (st : RuntimeState) (ps : list TypePtr) (rts : list RuntimeType) : Prop :=
  Forall2 (fun p rt => type_heap st !! p = Some rt) ps rts.

Definition case_wf (st : RuntimeState) (dp : DatatypePtr) (s : Sort) (i : nat) (item : DatatypeCaseInfo) : Prop :=
  constructors_ st !! dc_name item = Some (dp, i) /\
  exists rts, typed_as st (dc_field_types item) rts /\
    interpreted (dc_constructor item) /\ decl_domain (dc_constructor item) = rt_sort <$> rts /\
    decl_range (dc_constructor item) = s /\
    decl_domain (dc_recognizer item) = [s] /\ decl_range (dc_recognizer item) = bool_sort /\
    Forall2 (fun rt d => decl_domain d = [s] /\ decl_range d = rt_sort rt) rts (dc_accessors item).

(** The declarations Z3 made for a datatype. *)
Definition declared_datatype (s : Sort) (ds : list CtorDecls) : Prop :=
  NoDup (cd_constructor <$> ds) /\ exists n specs, mk_datatype n specs = Some (s, ds).

Definition case_decls (item : DatatypeCaseInfo) : CtorDecls :=
  mkCtorDecls (dc_constructor item) (dc_recognizer item) (dc_accessors item).

Definition datatype_wf (st : RuntimeState) (dp : DatatypePtr) (info : DatatypeInfo) : Prop :=
  exists rt, type_heap st !! di_type info = Some rt /\ rt_kind rt = KDatatype /\ rt_datatype rt = Some dp /\
    di_cases info <> [] /\ declared_datatype (rt_sort rt) (case_decls <$> di_cases info) /\
    forall i item, di_cases info !! i = Some item -> case_wf st dp (rt_sort rt) i item.

(** A declaration with the sorts of its parameter and result types. *)
Definition decl_typed (st : RuntimeState) (ps : list TypePtr) (result : TypePtr) (d : Decl) : Prop :=
  exists rts rt, typed_as st ps rts /\ type_heap st !! result = Some rt /\
    decl_domain d = rt_sort <$> rts /\ decl_range d = rt_sort rt /\ interpreted d.

(** The uninterpreted constants of a table are the holes that name it. *)
Definition over_identifiers (t : Term) : Prop := forall c,
  symbolic c -> occurs c t = true -> exists n s, c = constant n s /\ is_identifier n = true.

Record runtime_ok (st : RuntimeState) : Prop := {
  ok_bool : type_heap st !! bool_type_ = Some bool_runtime_type;
  ok_int : type_heap st !! int_type_ = Some int_runtime_type;
  ok_types p rt : type_heap st !! p = Some rt -> type_wf st p rt;
  ok_enums ep info : enum_heap st !! ep = Some info -> enum_wf st ep info;
  ok_datatypes dp info : datatype_heap st !! dp = Some info -> datatype_wf st dp info;
  ok_cases n ep i : cases_ st !! n = Some (ep, i) ->
    exists info, enum_heap st !! ep = Some info /\ ei_case_names info !! i = Some n;
  ok_constructors n dp i : constructors_ st !! n = Some (dp, i) ->
    exists info item, datatype_heap st !! dp = Some info /\ di_cases info !! i = Some item /\ dc_name item = n;
  ok_disjoint n : is_Some (cases_ st !! n) -> constructors_ st !! n = None;
  ok_reserved n : is_Some (cases_ st !! n) \/ is_Some (constructors_ st !! n) -> n ∈ value_names_ st;
  ok_identifiers n : is_Some (cases_ st !! n) \/ is_Some (constructors_ st !! n) -> is_identifier n = true;
  ok_type_names n p : types_ st !! n = Some p -> exists rt, type_heap st !! p = Some rt /\ rt_display rt = n;
  ok_compound k p : compound_types_ st !! k = Some p -> exists rt, type_heap st !! p = Some rt /\ rt_display rt = k /\
    (rt_kind rt = KTuple \/ rt_kind rt = KTable);
  ok_functions n f : functions_ st !! n = Some f -> decl_typed st (fi_parameter_types f) (fi_result_type f) (fi_declaration f);
  ok_recfuns n f : functions_ st !! n = Some f -> exists m dom r, fi_declaration f = recfun m dom r;
  ok_predicates n q : predicates_ st !! n = Some q -> decl_typed st (pi_index_types q) bool_type_ (pi_relation q);
  ok_predicate_names n : is_Some (predicates_ st !! n) -> n ∈ value_names_ st /\ constructors_ st !! n = None;
  ok_bindings n b : bindings_ st !! n = Some b -> exists rt, type_heap st !! b_type b = Some rt /\ rt_kind rt = KTable /\
    get_sort (b_value b) = rt_sort rt /\ over_identifiers (b_value b);
  ok_recdefs d formals body : (d, formals, body) ∈ recdefs_ st ->
    get_sort <$> formals = decl_domain d /\ get_sort body = decl_range d
}.

(** ** Growth *)

(** The requirements and the witness of a view, as the parser returns them. *)
Definition view_info_form (v : ViewInfo) : Prop :=
  forallb source_form (vi_requirements v) = true /\ from_option (fun w => source_form w = true) True (vi_witness v).
Definition views_form (st : RuntimeState) : Prop := map_Forall (fun _ => view_info_form) (views_ st).

Record grows (st st' : RuntimeState) : Prop := {
  g_types : type_heap st `prefix_of` type_heap st';
  g_enums : enum_heap st `prefix_of` enum_heap st';
  g_datatypes : datatype_heap st `prefix_of` datatype_heap st';
  g_type_names : types_ st ⊆ types_ st';
  g_cases : cases_ st ⊆ cases_ st';
  g_constructors : constructors_ st ⊆ constructors_ st';
  g_compound : compound_types_ st ⊆ compound_types_ st';
  g_functions : functions_ st ⊆ functions_ st';
  g_predicates : predicates_ st = predicates_ st';
  g_proofs : admitted_proofs_ st = admitted_proofs_ st';
  g_views : views_form st -> views_form st'
}.

#[export] Instance grows_preorder : PreOrder grows.
Proof.
  split; [by split|]. intros a b c [] []. split; auto; by etrans.
Qed.

Lemma grows_type st st' p rt : grows st st' -> type_heap st !! p = Some rt -> type_heap st' !! p = Some rt.
Proof. intros Hg Hp. by eapply prefix_lookup_Some; [|apply Hg]. Qed.

Lemma grows_typed_as st st' ps rts : grows st st' -> typed_as st ps rts -> typed_as st' ps rts.
Proof. intros Hg Hf. eapply Forall2_impl; [exact Hf|]. eauto using grows_type. Qed.

Lemma grows_decl_typed st st' ps r d : grows st st' -> decl_typed st ps r d -> decl_typed st' ps r d.
Proof. intros Hg (rts & rt & ? & ? & ? & ? & ?). exists rts, rt. split_and!; eauto using grows_type, grows_typed_as. Qed.

Lemma grows_component st st' p rt : grows st st' -> component st p rt -> component st' p rt.
Proof. intros Hg (? & ? & ?). split; eauto using grows_type. Qed.

Lemma grows_named st st' p rt : grows st st' -> named st p rt -> named st' p rt.
Proof. intros Hg [Hn ?]. split; [|done]. eapply lookup_weaken; [exact Hn|apply Hg]. Qed.

Lemma grows_type_wf st st' p rt : grows st st' -> type_wf st p rt -> type_wf st' p rt.
Proof.
  intros Hg [| | | |a b ta tb c key ? ? ? ? ? Hk|a b ta tb key ? ? ? Hk].
  - apply wf_bool; eauto using grows_named.
  - apply wf_int; eauto using grows_named.
  - eapply wf_enum; eauto using grows_named. by eapply prefix_lookup_Some; [|apply Hg].
  - eapply wf_datatype; eauto using grows_named. by eapply prefix_lookup_Some; [|apply Hg].
  - eapply wf_tuple; eauto using grows_component. eapply lookup_weaken; [exact Hk|apply Hg].
  - eapply wf_table; eauto using grows_component. eapply lookup_weaken; [exact Hk|apply Hg].
Qed.

Lemma grows_enum_wf st st' ep info : grows st st' -> enum_wf st ep info -> enum_wf st' ep info.
Proof.
  intros Hg (rt & ? & ? & ? & ? & ? & ? & ? & Hc). exists rt. split_and!; eauto using grows_type.
  intros i n Hi. eapply lookup_weaken; [by apply Hc|apply Hg].
Qed.

Lemma grows_datatype_wf st st' dp info : grows st st' -> datatype_wf st dp info -> datatype_wf st' dp info.
Proof.
  intros Hg (rt & ? & ? & ? & ? & ? & Hc). exists rt. split_and!; eauto using grows_type.
  intros i item Hi. destruct (Hc i item Hi) as (Hn & rts & ? & ? & ? & ? & ? & ? & ?).
  split; [eapply lookup_weaken; [exact Hn|apply Hg]|]. exists rts. split_and!; eauto using grows_typed_as.
Qed.

(** ** Displays identify types *)

Lemma type_wf_display st p rt : type_wf st p rt -> rt_kind rt <> KTable -> display (rt_display rt).
Proof.
  intros [|? [? ?]|s n ep info ? ? [? ?]|s n dp info ? ? [? ?]|a b ta tb c key Ha Hb -> ? ? ?|] Hk; simpl in *; try done.
  - by apply display_name, identifier_plain.
  - by apply display_name, identifier_plain.
  - by apply display_name, identifier_plain.
  - by apply display_name, identifier_plain.
  - apply display_pair; [apply Ha|apply Hb].
Qed.

Lemma component_intro st p rt : runtime_ok st -> type_heap st !! p = Some rt -> rt_kind rt <> KTable -> component st p rt.
Proof. intros Hok Hp Hk. split_and!; [done..|]. eapply type_wf_display; [|done]. by apply ok_types. Qed.

(** The registry a type's display is a key of. *)
Definition registered (st : RuntimeState) (p : TypePtr) (rt : RuntimeType) : Prop :=
  named st p rt /\ rt_kind rt <> KTuple /\ rt_kind rt <> KTable \/
  compound_types_ st !! rt_display rt = Some p /\ (exists a b, rt_display rt = pair_display a b \/ rt_display rt = table_display a b).

Lemma type_wf_registered st p rt : type_wf st p rt -> registered st p rt.
Proof.
  intros [| | | |a b ta tb c key ? ? ? ? ? ?|a b ta tb key ? ? ? ?];
    [by left|by left|by left|by left|right; simpl; eauto..].
Qed.

Lemma display_identifies st p q rt rt' :
  runtime_ok st -> type_heap st !! p = Some rt -> type_heap st !! q = Some rt' -> rt_display rt = rt_display rt' -> p = q.
Proof.
  intros Hok Hp Hq E. apply (ok_types _ Hok), type_wf_registered in Hp, Hq.
  destruct Hp as [[[Hp Hn] _]|[Hp (a & b & Ha)]], Hq as [[[Hq Hm] _]|[Hq (c & d & Hc)]]; rewrite <- E in *.
  - congruence.
  - exfalso. destruct Hc as [Hc|Hc]; [by eapply plain_not_pair; [apply identifier_plain|]|by eapply plain_not_table; [apply identifier_plain|]].
  - exfalso. destruct Ha as [Ha|Ha];
      [by eapply plain_not_pair; [apply identifier_plain|]|by eapply plain_not_table; [apply identifier_plain|]].
  - congruence.
Qed.

(** ** Safety of operations *)

(** [m] gives [Q], or rejects the source with a [SemanticError]; an internal
    error or divergence comes from the recorder, and Z3 never throws. *)
Definition safe {A} (m : RtM A) (st : RuntimeState) (Q : A -> RuntimeState -> Prop) : Prop :=
  match m st with
  | (Ok a, st') => Q a st' /\ (is_Some (rainfall_ st') -> is_Some (rainfall_ st))
  | (Err (Semantic _ _), _) => True
  | (Err (Z3Exception _), _) | (Err (Witness _), _) => False
  | (Err (Internal _), _) | (Diverge, _) => is_Some (rainfall_ st)
  end.

Lemma safe_bind {A B} (m : RtM A) (k : A -> RtM B) st Q :
  safe m st (fun a st' => safe (k a) st' Q) -> safe (m ≫= k) st Q.
Proof.
  unfold safe, mbind, RtM_bind. destruct (m st) as [[a|[]|] st']; try done.
  intros [Hk Hr]. destruct (k a st') as [[b|[]|] st'']; [destruct Hk; auto|done|auto..].
Qed.

Lemma safe_mono {A} (m : RtM A) st (Q Q' : A -> RuntimeState -> Prop) :
  safe m st Q -> (forall a st', Q a st' -> Q' a st') -> safe m st Q'.
Proof. unfold safe. destruct (m st) as [[a|[]|] st']; intros Hs HQ; [destruct Hs; auto|done..]. Qed.

Lemma safe_ret {A} (a : A) st (Q : A -> RuntimeState -> Prop) : Q a st -> safe (mret a) st Q.
Proof. by unfold safe. Qed.

Lemma safe_gets {A B} (f : RuntimeState -> A) (k : A -> RtM B) st Q : safe (k (f st)) st Q -> safe (gets f ≫= k) st Q.
Proof. intros Hk. by apply safe_bind. Qed.

Lemma safe_modify {B} (f : RuntimeState -> RuntimeState) (k : unit -> RtM B) st Q :
  rainfall_ (f st) = rainfall_ st -> safe (k tt) (f st) Q -> safe (modify f ≫= k) st Q.
Proof. intros Hf Hk. apply safe_bind. unfold safe at 1, modify. split; [exact Hk|by rewrite Hf]. Qed.

Lemma safe_reject {A} span message st (Q : A -> RuntimeState -> Prop) : safe (reject span message) st Q.
Proof. done. Qed.

Lemma safe_deref {A B} what (o : option A) a (k : A -> RtM B) st Q :
  o = Some a -> safe (k a) st Q -> safe (deref what o ≫= k) st Q.
Proof. intros -> Hk. by apply safe_bind. Qed.

Lemma safe_z3 {A B} call (o : option A) a (k : A -> RtM B) st Q :
  o = Some a -> safe (k a) st Q -> safe (z3_call call o ≫= k) st Q.
Proof. intros -> Hk. by apply safe_bind. Qed.

Lemma safe_type {B} p rt (k : RuntimeType -> RtM B) st Q :
  type_heap st !! p = Some rt -> safe (k rt) st Q -> safe (the_type p ≫= k) st Q.
Proof. intros Hp Hk. apply safe_bind. unfold the_type. apply safe_gets. rewrite Hp. by apply safe_ret. Qed.

Lemma safe_enum {B} p info (k : EnumInfo -> RtM B) st Q :
  enum_heap st !! p = Some info -> safe (k info) st Q -> safe (the_enum p ≫= k) st Q.
Proof. intros Hp Hk. apply safe_bind. unfold the_enum. apply safe_gets. rewrite Hp. by apply safe_ret. Qed.

Lemma safe_datatype {B} p info (k : DatatypeInfo -> RtM B) st Q :
  datatype_heap st !! p = Some info -> safe (k info) st Q -> safe (the_datatype p ≫= k) st Q.
Proof. intros Hp Hk. apply safe_bind. unfold the_datatype. apply safe_gets. rewrite Hp. by apply safe_ret. Qed.

(** ** The initial state *)

Lemma make_runtime_ok r : runtime_ok (make_runtime r).
Proof.
  assert (Hb : named (make_runtime r) bool_type_ bool_runtime_type) by (by split).
  assert (Hi : named (make_runtime r) int_type_ int_runtime_type) by (by split).
  split; simpl; try done.
  - intros [|[|p]] rt; simpl; intros [= <-]; [by apply wf_bool|by apply wf_int].
  - by intros n [[? ?]|[? ?]].
  - by intros n [[? ?]|[? ?]].
  - intros n p [[<- <-]|[_ Hp]]%lookup_insert_Some; [by eexists|].
    apply lookup_singleton_Some in Hp as [<- <-]. by eexists.
  - by intros n [? ?].
  - by intros d formals body ?%elem_of_nil.
Qed.

(** ** Adding a compound type *)

Definition compound_state (st : RuntimeState) (key : string) (rt : RuntimeType) : RuntimeState :=
  add_compound key (length (type_heap st)) (add_type rt st).

Lemma lookup_emplace {A} k (v : A) m : m !! k = None -> emplace k v m = <[k := v]> m.
Proof. unfold emplace. by intros ->. Qed.

Lemma grows_compound st key rt : grows st (compound_state st key rt).
Proof.
  split; simpl; try done; [by apply prefix_app_r|]. unfold emplace.
  destruct (compound_types_ st !! key) eqn:E; [done|]. by apply insert_subseteq.
Qed.

Lemma grows_bump st : grows st (bump_tuple st).
Proof. by split. Qed.

Lemma bump_ok st : runtime_ok st -> runtime_ok (bump_tuple st).
Proof.
  intros Hok. split; try apply Hok. intros p rt Hrt. eapply grows_type_wf; [apply grows_bump|by apply Hok].
Qed.

Lemma compound_ok st key rt :
  runtime_ok st -> compound_types_ st !! key = None -> rt_display rt = key -> (rt_kind rt = KTuple \/ rt_kind rt = KTable) ->
  type_wf (compound_state st key rt) (length (type_heap st)) rt -> runtime_ok (compound_state st key rt).
Proof.
  intros Hok Hk Hd Hkind Hwf. pose proof (grows_compound st key rt) as Hg.
  split; simpl.
  - by eapply grows_type in Hg; [|apply ok_bool].
  - by eapply grows_type in Hg; [|apply ok_int].
  - intros p rt' [Hp|[Hge Hp]]%lookup_app_Some; [eapply grows_type_wf; [exact Hg|by apply ok_types]|].
    apply list_lookup_singleton_Some in Hp as [E <-]. by replace p with (length (type_heap st)) by lia.
  - intros ep info Hi. eapply grows_enum_wf; [exact Hg|by apply ok_enums].
  - intros dp info Hi. eapply grows_datatype_wf; [exact Hg|by apply ok_datatypes].
  - apply (ok_cases _ Hok).
  - apply (ok_constructors _ Hok).
  - apply (ok_disjoint _ Hok).
  - apply (ok_reserved _ Hok).
  - apply (ok_identifiers _ Hok).
  - intros n p Hp. destruct (ok_type_names _ Hok n p Hp) as (rt' & Hrt & ?). exists rt'. split; [by apply (grows_type _ _ _ _ Hg)|done].
  - intros k p. rewrite lookup_emplace by done. intros [[<- <-]|[_ Hp]]%lookup_insert_Some.
    + exists rt. split_and!; [|done..]. by apply list_lookup_middle.
    + destruct (ok_compound _ Hok k p Hp) as (rt' & ? & ? & ?). exists rt'. split_and!; [|done..].
      by apply (grows_type _ _ _ _ Hg).
  - intros n f Hf. eapply grows_decl_typed; [exact Hg|by eapply ok_functions].
  - apply (ok_recfuns _ Hok).
  - intros n q Hq. eapply grows_decl_typed; [exact Hg|by eapply ok_predicates].
  - apply (ok_predicate_names _ Hok).
  - intros n b Hb. destruct (ok_bindings _ Hok n b Hb) as (rt' & ? & ? & ? & ?). exists rt'. split_and!; [|done..].
    by apply (grows_type _ _ _ _ Hg).
  - apply (ok_recdefs _ Hok).
Qed.

(** The tuple type of two components. *)
Definition tuple_of (a b : TypePtr) (ta tb : RuntimeType) (c : Decl) : RuntimeType :=
  mkRuntimeType KTuple (decl_range c) (pair_display (rt_display ta) (rt_display tb)) [a; b] None None (Some c).

Definition table_of (a b : TypePtr) (ta tb : RuntimeType) : RuntimeType :=
  mkRuntimeType KTable (array_sort (rt_sort ta) (rt_sort tb)) (table_display (rt_display ta) (rt_display tb)) [a; b]
    None None None.

(** What an operation on types keeps. *)
Definition keeps (st st' : RuntimeState) : Prop := runtime_ok st' /\ grows st st'.

Lemma found_tuple st a b ta tb p :
  runtime_ok st -> component st a ta -> component st b tb ->
  compound_types_ st !! pair_display (rt_display ta) (rt_display tb) = Some p ->
  exists c, type_heap st !! p = Some (tuple_of a b ta tb c) /\ decl_domain c = [rt_sort ta; rt_sort tb] /\ interpreted c.
Proof.
  intros Hok (Ha & _ & Da) (Hb & _ & Db) Hp. destruct (ok_compound _ Hok _ _ Hp) as (rt & Hrt & Hd & Hk).
  pose proof (ok_types _ Hok _ _ Hrt) as Hwf. revert Hrt Hd Hk.
  destruct Hwf as [| | | |a' b' ta' tb' c key (Ha' & _ & Da') (Hb' & _ & Db') -> Hc [? _] _|a' b' ta' tb' key _ _ -> _];
    simpl; intros Hrt Hd Hk; try (by destruct Hk).
  apply pair_display_inj in Hd as [E1 E2]; [|done..]. rewrite <- E1, <- E2 in *.
  pose proof (display_identifies _ _ _ _ _ Hok Ha' Ha E1) as ->.
  pose proof (display_identifies _ _ _ _ _ Hok Hb' Hb E2) as ->. exists c. unfold tuple_of. split_and!; [congruence| |done].
  rewrite Hc. congruence.
Qed.

Lemma found_table st a b ta tb p :
  runtime_ok st -> component st a ta -> component st b tb ->
  compound_types_ st !! table_display (rt_display ta) (rt_display tb) = Some p ->
  type_heap st !! p = Some (table_of a b ta tb).
Proof.
  intros Hok (Ha & _ & Da) (Hb & _ & Db) Hp. destruct (ok_compound _ Hok _ _ Hp) as (rt & Hrt & Hd & Hk).
  pose proof (ok_types _ Hok _ _ Hrt) as Hwf. revert Hrt Hd Hk.
  destruct Hwf as [| | | |a' b' ta' tb' c key _ _ -> _ _ _|a' b' ta' tb' key (Ha' & _ & Da') (Hb' & _ & Db') -> _];
    simpl; intros Hrt Hd Hk; try (by destruct Hk).
  apply table_display_inj in Hd as [E1 E2]; [|done..].
  pose proof (display_identifies _ _ _ _ _ Hok Ha' Ha E1) as ->.
  pose proof (display_identifies _ _ _ _ _ Hok Hb' Hb E2) as ->. unfold table_of. congruence.
Qed.

Lemma safe_tuple_type a b ta tb span st :
  runtime_ok st -> type_heap st !! a = Some ta -> type_heap st !! b = Some tb ->
  safe (tuple_type a b span) st (fun p st' => keeps st st' /\ exists c,
    type_heap st' !! p = Some (tuple_of a b ta tb c) /\ decl_domain c = [rt_sort ta; rt_sort tb] /\ interpreted c /\
    rt_kind ta <> KTable /\ rt_kind tb <> KTable).
Proof.
  intros Hok Ha Hb. unfold tuple_type. eapply safe_type; [done|]. eapply safe_type; [done|].
  destruct (bool_decide_reflect (rt_kind ta = KTable)) as [|Hta]; [done|].
  destruct (bool_decide_reflect (rt_kind tb = KTable)) as [|Htb]; [done|]. cbn [orb].
  pose proof (component_intro _ _ _ Hok Ha Hta) as Ca. pose proof (component_intro _ _ _ Hok Hb Htb) as Cb.
  apply safe_gets. destruct (compound_types_ st !! _) as [p|] eqn:E.
  - destruct (found_tuple st a b ta tb p Hok Ca Cb E) as (c & Hp & Hc & Hi).
    apply safe_ret. split; [done|]. by exists c.
  - apply safe_gets. apply safe_modify; [done|].
    set (c := tuple_sort _ _). destruct (tuple_typed ("Fine.Pair." +:+ to_string (tuple_sequence_ st)) [("first", rt_sort ta); ("second", rt_sort tb)]) as [Hc Hi].
    fold c in Hc, Hi. simpl in Hc.
    apply safe_bind. unfold new_type. apply safe_gets. apply safe_modify; [done|]. apply safe_ret.
    apply safe_modify; [done|]. apply safe_ret.
    change (add_compound _ _ _) with (compound_state (bump_tuple st) (pair_display (rt_display ta) (rt_display tb))
      (tuple_of a b ta tb c)).
    assert (Hg : grows st (compound_state (bump_tuple st) (pair_display (rt_display ta) (rt_display tb)) (tuple_of a b ta tb c))).
    { etrans; [apply grows_bump|apply grows_compound]. }
    split; [split; [|done]|].
    + apply compound_ok; [by apply bump_ok|done|done|by left|]. eapply wf_tuple; [by eapply grows_component..|done|done|by split; [|eexists _, _]|].
      simpl. by rewrite lookup_emplace, lookup_insert_eq.
    + exists c. split_and!; [|done..]. simpl. by apply list_lookup_middle.
Qed.

Lemma safe_table_type a b ta tb span st :
  runtime_ok st -> type_heap st !! a = Some ta -> type_heap st !! b = Some tb ->
  safe (table_type a b span) st (fun p st' => keeps st st' /\ type_heap st' !! p = Some (table_of a b ta tb)).
Proof.
  intros Hok Ha Hb. unfold table_type. eapply safe_type; [done|]. eapply safe_type; [done|].
  destruct (bool_decide_reflect (rt_kind ta = KTable)) as [|Hta]; [done|].
  destruct (bool_decide_reflect (rt_kind tb = KTable)) as [|Htb]; [done|]. cbn [orb].
  pose proof (component_intro _ _ _ Hok Ha Hta) as Ca. pose proof (component_intro _ _ _ Hok Hb Htb) as Cb.
  apply safe_gets. destruct (compound_types_ st !! _) as [p|] eqn:E.
  - apply safe_ret. split; [done|]. by apply found_table.
  - apply safe_bind. unfold new_type. apply safe_gets. apply safe_modify; [done|]. apply safe_ret.
    apply safe_modify; [done|]. apply safe_ret.
    change (add_compound _ _ _) with (compound_state st (table_display (rt_display ta) (rt_display tb)) (table_of a b ta tb)).
    pose proof (grows_compound st (table_display (rt_display ta) (rt_display tb)) (table_of a b ta tb)) as Hg.
    split; [split; [|done]|].
    + apply compound_ok; [done|done|done|by right|]. eapply wf_table; [by eapply grows_component..|done|].
      simpl. by rewrite lookup_emplace, lookup_insert_eq.
    + simpl. by apply list_lookup_middle.
Qed.

Lemma safe_resolve_type t st :
  runtime_ok st -> safe (resolve_type t) st (fun p st' => keeps st st' /\ exists rt, type_heap st' !! p = Some rt).
Proof.
  revert st. induction t as [k sp n l IH] using Type_nested_ind. intros st Hok. destruct k; simpl.
  - apply safe_gets. destruct (types_ st !! n) as [p|] eqn:E; [|done]. apply safe_ret.
    split; [done|]. destruct (ok_type_names _ Hok _ _ E) as (rt & ? & _). by exists rt.
  - destruct l as [|a [|b [|]]]; try done.
    apply Forall_cons in IH as [IHa [IHb _]%Forall_cons]. apply safe_bind. eapply safe_mono; [by apply IHa|].
    intros pa st1 [[Hok1 Hg1] [ta Ha]]. apply safe_bind. eapply safe_mono; [by apply IHb|].
    intros pb st2 [[Hok2 Hg2] [tb Hb]]. eapply safe_mono; [by eapply safe_tuple_type; [|eapply grows_type|]|].
    intros p st3 [[Hok3 Hg3] (c & Hp & _)]. split; [split; [done|]; by do 2 (etrans; [eassumption|])|by eexists].
  - destruct l as [|a [|b [|]]]; try done.
    apply Forall_cons in IH as [IHa [IHb _]%Forall_cons]. apply safe_bind. eapply safe_mono; [by apply IHa|].
    intros pa st1 [[Hok1 Hg1] [ta Ha]]. apply safe_bind. eapply safe_mono; [by apply IHb|].
    intros pb st2 [[Hok2 Hg2] [tb Hb]]. eapply safe_mono; [by eapply safe_table_type; [|eapply grows_type|]|].
    intros p st3 [[Hok3 Hg3] Hp]. split; [split; [done|]; by do 2 (etrans; [eassumption|])|by eexists].
Qed.

(** ** One pointer per type *)

(** What a source type says, without its spans. *)
Fixpoint spelled (t : Type_) : string :=
  match t with
  | mkType TNamed _ n _ => n
  | mkType TTuple _ _ [a; b] => pair_display (spelled a) (spelled b)
  | mkType TTable _ _ [a; b] => table_display (spelled a) (spelled b)
  | _ => ""
  end.

Lemma safe_Ok {A} (m : RtM A) st Q a st' : safe m st Q -> m st = (Ok a, st') -> Q a st'.
Proof. unfold safe. intros Hs E. rewrite E in Hs. by destruct Hs. Qed.

Lemma resolve_keeps t st p st' : runtime_ok st -> resolve_type t st = (Ok p, st') -> keeps st st'.
Proof. intros Hok E. by destruct (safe_Ok _ _ _ _ _ (safe_resolve_type t st Hok) E). Qed.

(** The type found is the one that was spelled. *)
Lemma resolve_display t st p st' :
  runtime_ok st -> resolve_type t st = (Ok p, st') -> exists rt, type_heap st' !! p = Some rt /\ rt_display rt = spelled t.
Proof.
  revert st p st'. induction t as [k sp n l IH] using Type_nested_ind. intros st p st' Hok. destruct k; simpl.
  - unfold gets, mbind, RtM_bind. simpl. destruct (types_ st !! n) as [q|] eqn:E; [|done]. intros [= <- <-]. by apply (ok_type_names _ Hok).
  - destruct l as [|a [|b [|]]]; try done. apply Forall_cons in IH as [IHa [IHb _]%Forall_cons].
    intros (pa & st1 & Ea & (pb & st2 & Eb & E)%bind_Ok)%bind_Ok. pose proof (resolve_keeps _ _ _ _ Hok Ea) as [Hok1 _].
    pose proof (resolve_keeps _ _ _ _ Hok1 Eb) as [Hok2 Hg2]. destruct (IHa _ _ _ Hok Ea) as (ta & Ha & <-), (IHb _ _ _ Hok1 Eb) as (tb & Hb & <-).
    pose proof (safe_Ok _ _ _ _ _ (safe_tuple_type pa pb ta tb sp st2 Hok2 (grows_type _ _ _ _ Hg2 Ha) Hb) E) as (_ & c & Hp & _). by eexists.
  - destruct l as [|a [|b [|]]]; try done. apply Forall_cons in IH as [IHa [IHb _]%Forall_cons].
    intros (pa & st1 & Ea & (pb & st2 & Eb & E)%bind_Ok)%bind_Ok. pose proof (resolve_keeps _ _ _ _ Hok Ea) as [Hok1 _].
    pose proof (resolve_keeps _ _ _ _ Hok1 Eb) as [Hok2 Hg2]. destruct (IHa _ _ _ Hok Ea) as (ta & Ha & <-), (IHb _ _ _ Hok1 Eb) as (tb & Hb & <-).
    pose proof (safe_Ok _ _ _ _ _ (safe_table_type pa pb ta tb sp st2 Hok2 (grows_type _ _ _ _ Hg2 Ha) Hb) E) as [_ Hp]. by eexists.
Qed.

(** A compound type that is registered is found. *)
Lemma compound_found (what : string) (make : RuntimeType -> RuntimeType -> string) (alloc : RuntimeType -> RuntimeType -> RtM TypePtr) a b sp st p st' :
  (f ← the_type a; s ← the_type b;
   if bool_decide (rt_kind f = KTable) || bool_decide (rt_kind s = KTable) then reject sp what
   else compound ← gets compound_types_; match compound !! make f s with Some found => mret found | None => alloc f s end) st = (Ok p, st') ->
  exists ta tb, type_heap st !! a = Some ta /\ type_heap st !! b = Some tb /\ rt_kind ta <> KTable /\ rt_kind tb <> KTable /\
    (is_Some (compound_types_ st !! make ta tb) -> st' = st).
Proof.
  intros (ta & st1 & [Ha ->]%the_type_Ok & (tb & st2 & [Hb ->]%the_type_Ok & E)%bind_Ok)%bind_Ok. exists ta, tb.
  destruct (bool_decide_reflect (rt_kind ta = KTable)) as [|]; [done|].
  destruct (bool_decide_reflect (rt_kind tb = KTable)) as [|]; [done|]. split_and!; [done..|].
  intros [q Hq]. cbn [orb] in E. apply bind_Ok in E as (m & st3 & [= <- <-] & E). rewrite Hq in E. by injection E.
Qed.

Lemma tuple_type_found a b sp st p st' : tuple_type a b sp st = (Ok p, st') ->
  exists ta tb, type_heap st !! a = Some ta /\ type_heap st !! b = Some tb /\ rt_kind ta <> KTable /\ rt_kind tb <> KTable /\
    (is_Some (compound_types_ st !! pair_display (rt_display ta) (rt_display tb)) -> st' = st).
Proof. apply (compound_found _ (fun f s => pair_display (rt_display f) (rt_display s))). Qed.
Lemma table_type_found a b sp st p st' : table_type a b sp st = (Ok p, st') ->
  exists ta tb, type_heap st !! a = Some ta /\ type_heap st !! b = Some tb /\ rt_kind ta <> KTable /\ rt_kind tb <> KTable /\
    (is_Some (compound_types_ st !! table_display (rt_display ta) (rt_display tb)) -> st' = st).
Proof. apply (compound_found _ (fun f s => table_display (rt_display f) (rt_display s))). Qed.

(** The parts of a type that displays as a pair or a table. *)
Lemma displayed_pair st q rt x y : runtime_ok st -> type_heap st !! q = Some rt -> display x -> display y ->
  rt_display rt = pair_display x y -> compound_types_ st !! pair_display x y = Some q /\
  exists a b ta tb, type_heap st !! a = Some ta /\ type_heap st !! b = Some tb /\ rt_display ta = x /\ rt_display tb = y.
Proof.
  intros Hok Hq Hx Hy. pose proof (ok_types _ Hok _ _ Hq) as Hwf.
  destruct Hwf as [? [_ Hn]|? [_ Hn]|? ? ? ? ? ? [_ Hn]|? ? ? ? ? ? [_ Hn]|a b ta tb c key (Ha & _ & Da) (Hb & _ & Db) -> _ _ Hc|a b ta tb key _ _ -> _]; simpl;
    try (intros E; exfalso; eapply plain_not_pair; [by apply identifier_plain|exact E]).
  intros E. rewrite <- E. split; [done|]. apply pair_display_inj in E as [<- <-]; [|done..]. by exists a, b, ta, tb.
Qed.
Lemma displayed_table st q rt x y : runtime_ok st -> type_heap st !! q = Some rt -> display x -> display y ->
  rt_display rt = table_display x y -> compound_types_ st !! table_display x y = Some q /\
  exists a b ta tb, type_heap st !! a = Some ta /\ type_heap st !! b = Some tb /\ rt_display ta = x /\ rt_display tb = y.
Proof.
  intros Hok Hq Hx Hy. pose proof (ok_types _ Hok _ _ Hq) as Hwf.
  destruct Hwf as [? [_ Hn]|? [_ Hn]|? ? ? ? ? ? [_ Hn]|? ? ? ? ? ? [_ Hn]|a b ta tb c key _ _ -> _ _ _|a b ta tb key (Ha & _ & Da) (Hb & _ & Db) -> Hc]; simpl;
    try (intros E; exfalso; eapply plain_not_table; [by apply identifier_plain|exact E]).
  intros E. rewrite <- E. split; [done|]. apply table_display_inj in E as [<- <-]; [|done..]. by exists a, b, ta, tb.
Qed.

(** A type that exists is not made again. *)
Lemma resolve_again t st p st' q rt :
  runtime_ok st -> type_heap st !! q = Some rt -> rt_display rt = spelled t -> resolve_type t st = (Ok p, st') -> st' = st.
Proof.
  revert st p st' q rt. induction t as [k sp n l IH] using Type_nested_ind. intros st p st' q rt Hok Hq Hd. destruct k; simpl.
  { unfold gets, mbind, RtM_bind. simpl. destruct (types_ st !! n) as [r|]; [|done]. by intros [= _ <-]. }
  all: destruct l as [|a [|b [|]]]; try done; apply Forall_cons in IH as [IHa [IHb _]%Forall_cons];
    intros (pa & st1 & Ea & (pb & st2 & Eb & E)%bind_Ok)%bind_Ok; pose proof (resolve_keeps _ _ _ _ Hok Ea) as [Hok1 Hg1];
    pose proof (resolve_keeps _ _ _ _ Hok1 Eb) as [Hok2 Hg2];
    destruct (resolve_display _ _ _ _ Hok Ea) as (ta & Ha%(grows_type _ _ _ _ Hg2) & Ta), (resolve_display _ _ _ _ Hok1 Eb) as (tb & Hb & Tb);
    first [pose proof (tuple_type_found _ _ _ _ _ _ E) as Hf|pose proof (table_type_found _ _ _ _ _ _ E) as Hf];
    destruct Hf as (ta' & tb' & Ha' & Hb' & Ka & Kb & Hf); rewrite Ha in Ha'; injection Ha' as <-; rewrite Hb in Hb'; injection Hb' as <-;
    destruct (component_intro _ _ _ Hok2 Ha Ka) as (_ & _ & Da), (component_intro _ _ _ Hok2 Hb Kb) as (_ & _ & Db); rewrite Ta in Da; rewrite Tb in Db; rewrite Ta, Tb in Hf;
    simpl in Hd; first [pose proof (displayed_pair _ _ _ _ _ Hok Hq Da Db Hd) as Hc|pose proof (displayed_table _ _ _ _ _ Hok Hq Da Db Hd) as Hc];
    destruct Hc as (Hc & a' & b' & xa & xb & Xa & Xb & Ya & Yb);
    pose proof (IHa _ _ _ _ _ Hok Xa Ya Ea) as ->; pose proof (IHb _ _ _ _ _ Hok Xb Yb Eb) as ->; apply Hf; by exists q.
Qed.

End Invariant.
