(* ===== verification/ElaborateSpec.v ===== *)
(** * Elaboration is type safe

    On a well-formed runtime an expression with a source form either is
    rejected with a source location or elaborates to a term of its type's
    sort: no Z3 call throws, no pointer dangles, and the runtime stays
    well formed. *)

From stdpp Require Import gmap.
From S2P Require Import Prelude Format Syntax Lexer Parser ParserSpec Printer Source Z3Ast Z3Solver Z3Build Z3Fixedpoint Lift Recorder Runtime Elaborate RuntimeSpec.
From Stdlib Require Import NArith.

Section Spec.
Context `{Z3BuildLaws} (term_to_string : Term -> string) (term_ast_id : Term -> N).
Abbreviation elaborate_expression := (elaborate_expression term_to_string term_ast_id).
Abbreviation completed_expression := (completed_expression term_to_string term_ast_id).

Definition has_sort (st : RuntimeState) (p : TypePtr) (t : Term) : Prop :=
  exists rt, type_heap st !! p = Some rt /\ get_sort t = rt_sort rt.
Definition has_type (st : RuntimeState) (te : TypedExpression) : Prop := has_sort st (te_type te) (te_expression te).
Definition env_typed (st : RuntimeState) (env : Environment) : Prop :=
  forall n te, env !! n = Some te -> has_type st te.

Lemma grows_has_sort st st' p t : grows st st' -> has_sort st p t -> has_sort st' p t.
Proof. intros Hg (rt & ? & ?). exists rt. split; [by eapply grows_type|done]. Qed.

Lemma grows_env st st' env : grows st st' -> env_typed st env -> env_typed st' env.
Proof. intros Hg He n te Hn. eapply grows_has_sort; [done|by eapply He]. Qed.

Lemma keeps_refl st : runtime_ok st -> keeps st st.
Proof. by split. Qed.

Lemma keeps_trans a b c : keeps a b -> keeps b c -> keeps a c.
Proof. intros [_ Hg] [Hok Hg']. split; [done|by etrans]. Qed.

Lemma set_rainfall_keeps st r : runtime_ok st -> keeps st (set_rainfall r st).
Proof.
  intros Hok. assert (Hg : grows st (set_rainfall r st)) by (by split). split; [|done].
  split; try apply Hok. intros p rt Hrt. eapply grows_type_wf; [exact Hg|by apply Hok].
Qed.

Lemma safe_rain {A} (m : RecM A) st :
  runtime_ok st -> safe (rain m) st (fun _ st' => keeps st st').
Proof.
  intros Hok. unfold safe, rain. destruct (rainfall_ st) as [r|] eqn:E; [|split; [by apply keeps_refl|by rewrite E]].
  destruct (m r) as [[a|e|] r']; simpl; [|done..]. split; [by apply set_rainfall_keeps|done].
Qed.

Lemma safe_completed source p t st :
  runtime_ok st -> has_sort st p t ->
  safe (completed_expression source p t) st (fun te st' => keeps st st' /\ te = mkTyped p t /\ has_type st' te).
Proof.
  intros Hok Ht. unfold Elaborate.completed_expression. apply safe_gets, safe_gets, safe_bind.
  assert (Hm : forall b : bool, safe (if b then rain (source_term term_to_string term_ast_id (node_id source) (span source)
      (expression_syntax_kind source) t (expression_correspondence source) (source_edge_within_ st)) else mret tt) st
      (fun _ st' => keeps st st')).
  { intros []; [by apply safe_rain|by apply safe_ret, keeps_refl]. }
  eapply safe_mono; [apply Hm|]. intros ? st' Hk. apply safe_ret. split_and!; [done..|].
  by eapply grows_has_sort; [apply Hk|].
Qed.

(** ** Applications *)

Definition typed_terms (st : RuntimeState) (ps : list TypePtr) (ts : list Term) : Prop :=
  Forall2 (has_sort st) ps ts.

Lemma grows_typed_terms st st' ps ts : grows st st' -> typed_terms st ps ts -> typed_terms st' ps ts.
Proof. intros Hg Hf. eapply Forall2_impl; [exact Hf|]. eauto using grows_has_sort. Qed.

Lemma typed_terms_sorts st ps ts rts :
  typed_terms st ps ts -> typed_as st ps rts -> get_sort <$> ts = rt_sort <$> rts.
Proof.
  intros Ht. revert rts. induction Ht as [|p t ps ts (rt & Hp & Hs) Ht IH]; intros rts Hr;
    inversion_clear Hr as [|? rt' ? rts' Hp' Hr']; [done|]. simpl. f_equal; [congruence|by apply IH].
Qed.

Lemma apply_typed st ps r d ts :
  decl_typed st ps r d -> typed_terms st ps ts -> mk_app d ts = Some (App d ts) /\ has_sort st r (App d ts).
Proof.
  intros (rts & rt & Hr & Hrt & Hd & Hra & _) Ht. split.
  - apply mk_app_typed. rewrite Hd. by eapply typed_terms_sorts.
  - exists rt. split; [done|]. by rewrite sort_app.
Qed.

(** A constructor with its field types and its datatype. *)
Lemma constructor_typed st dp info i item :
  runtime_ok st -> datatype_heap st !! dp = Some info -> di_cases info !! i = Some item ->
  decl_typed st (dc_field_types item) (di_type info) (dc_constructor item).
Proof.
  intros Hok Hd Hi. destruct (ok_datatypes _ Hok _ _ Hd) as (rt & Hrt & _ & _ & _ & _ & Hc).
  destruct (Hc i item Hi) as (_ & rts & Hr & Hint & Hdom & Hran & _). by exists rts, rt.
Qed.

Lemma enum_value_typed st ep info i n :
  runtime_ok st -> enum_heap st !! ep = Some info -> ei_case_names info !! i = Some n ->
  exists d, ei_values info !! i = Some (App d []) /\ has_sort st (ei_type info) (App d []) /\ interpreted d.
Proof.
  intros Hok He Hi. destruct (ok_enums _ Hok _ _ He) as (rt & Hrt & _ & _ & Hl & Hv & [Hd _] & _).
  apply lookup_lt_Some in Hi. rewrite Hl in Hi. destruct (lookup_lt_is_Some_2 _ _ Hi) as [v Hv'].
  rewrite Hv, list_lookup_fmap in Hv'. destruct (ei_constructors info !! i) as [d|] eqn:E; [|done].
  exists d. rewrite Forall_lookup in Hd. destruct (Hd _ _ E) as (_ & Hr & Hi').
  split_and!; [|exists rt; by rewrite sort_app|done]. by rewrite Hv, list_lookup_fmap, E.
Qed.

(** ** Scope *)

(** Every uninterpreted constant of [t] is one of the environment's. *)
Definition within (env : Environment) (t : Term) : Prop := forall c,
  symbolic c -> occurs c t = true -> exists n te, env !! n = Some te /\ occurs c (te_expression te) = true.

Lemma within_app env d l : interpreted d -> Forall (within env) l -> within env (App d l).
Proof.
  intros Hd Hl c Hc Ho. simpl in Ho. apply orb_true_iff in Ho as [Ho|Ho].
  { apply term_eqb_spec in Ho as ->. by destruct (Hd l). }
  apply existsb_exists in Ho as (x & Hx & Ho). rewrite Forall_forall in Hl. eapply Hl; [by apply list_elem_of_In|done..].
Qed.

Lemma within_op env o l t : z3_op o l = Some t -> Forall (within env) l -> within env t.
Proof.
  intros Ht Hl c Hc Ho. eapply occurs_op in Ho; [|done..]. apply Exists_exists in Ho as (x & Hx & Ho).
  rewrite Forall_forall in Hl. by eapply Hl.
Qed.

(** ** Expressions *)

Definition callee_typed (st : RuntimeState) (c : Callee) : Prop :=
  decl_typed st (callee_types c) (callee_result c) (callee_decl c).

Lemma safe_find_callee source st :
  runtime_ok st -> safe (find_callee source) st (fun c st' => st' = st /\ callee_typed st c).
Proof.
  intros Hok. unfold find_callee. apply safe_gets.
  destruct (constructors_ st !! name source) as [[p i]|] eqn:E.
  - destruct (ok_constructors _ Hok _ _ _ E) as (info & item & Hd & Hi & _).
    eapply safe_datatype; [done|]. eapply safe_deref; [done|]. apply safe_ret. split; [done|].
    by eapply constructor_typed.
  - apply safe_gets. destruct (predicates_ st !! name source) as [q|] eqn:Eq.
    + apply safe_ret. split; [done|]. by eapply ok_predicates.
    + apply safe_gets. destruct (functions_ st !! name source) as [f|] eqn:Ef; [|done].
      apply safe_ret. split; [done|]. by eapply ok_functions.
Qed.

Lemma safe_elaborate_name source env st :
  runtime_ok st -> env_typed st env ->
  safe (elaborate_name term_to_string term_ast_id source env) st (fun te st' => keeps st st' /\ has_type st' te /\ within env (te_expression te)).
Proof.
  intros Hok He. assert (Hc : forall p t, has_sort st p t -> within env t ->
    safe (completed_expression source p t) st (fun te st' => keeps st st' /\ has_type st' te /\ within env (te_expression te))).
  { intros p t Ht Hw. eapply safe_mono; [by apply safe_completed|]. naive_solver. }
  unfold elaborate_name. destruct (env !! name source) as [te|] eqn:E.
  { apply Hc; [by eapply He|]. intros c _ Ho. by exists (name source), te. }
  apply safe_gets. destruct (cases_ st !! name source) as [[p i]|] eqn:Ec.
  - destruct (ok_cases _ Hok _ _ _ Ec) as (info & Hi & Hn).
    destruct (enum_value_typed _ _ _ _ _ Hok Hi Hn) as (d & Hv & Ht & Hd).
    eapply safe_enum; [done|]. eapply safe_deref; [done|]. apply Hc; [done|]. by apply within_app; [|constructor].
  - apply safe_gets. destruct (constructors_ st !! name source) as [[p i]|] eqn:Ed; [|done].
    destruct (ok_constructors _ Hok _ _ _ Ed) as (info & item & Hd & Hi & _).
    eapply safe_datatype; [done|]. eapply safe_deref; [done|].
    destruct (bool_decide_reflect (dc_field_types item <> [])) as [|Hnil]; [done|]. apply dec_stable in Hnil.
    pose proof (constructor_typed _ _ _ _ _ Hok Hd Hi) as Hty. rewrite Hnil in Hty.
    destruct (apply_typed st [] (di_type info) (dc_constructor item) []) as [Ha Ht]; [done|constructor|].
    eapply safe_z3; [exact Ha|]. apply Hc; [done|]. apply within_app; [|constructor].
    by destruct Hty as (_ & _ & _ & _ & _ & _ & Hint).
Qed.

Lemma safe_elaborate_binary source env l r st :
  runtime_ok st -> has_type st l -> has_type st r -> Forall (within env) [te_expression l; te_expression r] ->
  safe (elaborate_binary term_to_string term_ast_id source l r) st (fun te st' => keeps st st' /\ has_type st' te /\ within env (te_expression te)).
Proof.
  intros Hok (lt & Hlt & Hl) (rt & Hrt & Hr) Hw. unfold elaborate_binary. eapply safe_type; [done|].
  assert (Hop : forall p, binary_type (binary_op source) (te_type l) (te_type r) (rt_kind lt) = inr p ->
    exists t, z3_op (binary_z3 (binary_op source)) [te_expression l; te_expression r] = Some t /\ has_sort st p t).
  { intros p Hp.
    assert (Hs : exists prt, type_heap st !! p = Some prt /\
      op_sort (binary_z3 (binary_op source)) (get_sort <$> [te_expression l; te_expression r]) = Some (rt_sort prt)).
    { pose proof (ok_bool _ Hok) as Hb. pose proof (ok_int _ Hok) as Hi. simpl. rewrite Hl, Hr.
      unfold binary_type, same in Hp. destruct (binary_op source); simpl in *;
        repeat match goal with
        | H : context [negb (?a =? ?b)] |- _ => destruct (Nat.eqb_spec a b); simpl in H; [|done]
        | H : context [bool_decide ?P] |- _ => destruct (bool_decide P); [done|]
        end; injection Hp as <-; eexists; (split; [eassumption|]);
        repeat match goal with E : te_type _ = _ |- _ => rewrite E in *; clear E end; simplify_eq;
        by rewrite decide_True. }
    destruct Hs as (prt & Hprt & Hs). apply op_typed in Hs as (t & Ht & Hst). exists t. split; [done|]. by exists prt. }
  destruct (binary_type _ _ _ _) as [m|p]; [done|]. destruct (Hop p eq_refl) as (t & Ht & Hs).
  eapply safe_z3; [exact Ht|]. pose proof (within_op _ _ _ _ Ht Hw).
  eapply safe_mono; [by apply safe_completed|]. naive_solver.
Qed.

Lemma safe_elaborate_conditional source env cs c y n st :
  runtime_ok st -> has_type st c -> has_type st y -> has_type st n ->
  Forall (within env) [te_expression c; te_expression y; te_expression n] ->
  safe (elaborate_conditional term_to_string term_ast_id source cs c y n) st (fun te st' => keeps st st' /\ has_type st' te /\ within env (te_expression te)).
Proof.
  intros Hok (ct & Hct & Hc) (yt & Hyt & Hy) (nt & Hnt & Hn) Hw. unfold elaborate_conditional, same.
  destruct (Nat.eqb_spec (te_type c) bool_type_) as [Ec|]; [|done].
  destruct (Nat.eqb_spec (te_type y) (te_type n)) as [Ey|]; [|done]. simpl.
  destruct (op_typed ZIte [te_expression c; te_expression y; te_expression n] (rt_sort yt)) as (t & Ht & Hs).
  { simpl. rewrite Hc, Hy, Hn. rewrite decide_True; [done|]. rewrite Ec, (ok_bool _ Hok) in Hct.
    rewrite Ey in Hyt. by simplify_eq. }
  eapply safe_z3; [exact Ht|]. pose proof (within_op _ _ _ _ Ht Hw).
  eapply safe_mono; [apply safe_completed; [done|by exists yt]|]. naive_solver.
Qed.

Lemma integer_literal_typed i : is_integer i = true -> exists t, mk_numeral i int_sort = Some t /\ get_sort t = int_sort.
Proof.
  assert (Hd : forall v, is_numeral v = true -> all_chars is_digit v = true /\ v <> "").
  { intros [|c v]; [done|]. by split. }
  intros Hi. destruct i as [|c i]; [done|]. simpl in Hi. destruct (Ascii.eqb_spec c "-") as [->|].
  - destruct (Hd i Hi) as [Hall Hne]. destruct (mk_numeral_typed i Hall Hne "-") as (t & Ht & Hs); [by right|]. by exists t.
  - destruct (Hd (String c i) Hi) as [Hall Hne]. destruct (mk_numeral_typed _ Hall Hne "") as (t & Ht & Hs); [by left|].
    by exists t.
Qed.

(** What elaboration guarantees. *)
Definition elaborates (e : Expr) : Prop := forall env st,
  runtime_ok st -> env_typed st env ->
  safe (elaborate_expression env e) st (fun te st' => keeps st st' /\ has_type st' te /\ within env (te_expression te)).

Lemma safe_arguments env callee st es i ps :
  Forall elaborates es -> runtime_ok st -> env_typed st env -> length es = length ps ->
  (exists rts, typed_as st ps rts) ->
  safe ((fix arguments (callee : Callee) (i : nat) (es : list Expr) (types : list TypePtr) : RtM (list Term) :=
      match es, types with
      | e :: es', p :: types' =>
          argument ← elaborate_expression env e;
          if negb (same (te_type argument) p)
          then t ← the_type p; reject (span e) (callee_mismatch callee i (rt_display t))
          else rest ← arguments callee (S i) es' types'; mret (te_expression argument :: rest)
      | _, _ => mret []
      end) callee i es ps) st (fun ts st' => keeps st st' /\ typed_terms st' ps ts /\ Forall (within env) ts).
Proof.
  intros Hes. revert st i ps. induction Hes as [|e es He Hes IH]; intros st i [|p ps] Hok Henv Hl [rts Hr]; simplify_eq/=.
  { apply safe_ret. split_and!; [by apply keeps_refl|constructor..]. }
  apply safe_bind. eapply safe_mono; [by apply He|]. intros te st1 (K1 & Hte & Hw). pose proof K1 as [Hok1 Hg1].
  inversion Hr as [|? rt ? rts' Hp Hr']; subst. unfold same. destruct (Nat.eqb_spec (te_type te) p) as [<-|]; simpl.
  - apply safe_bind. eapply safe_mono.
    { apply IH; [done|by eapply grows_env|done|]. exists rts'. by eapply grows_typed_as. }
    intros ts st2 (K2 & Hts & Hws). pose proof K2 as [Hok2 Hg2]. apply safe_ret. split_and!; [by eapply keeps_trans| |by constructor].
    constructor; [by eapply grows_has_sort|done].
  - eapply safe_type; [by eapply grows_type|done].
Qed.

Lemma elaborate_scoped e : source_form e = true -> elaborates e.
Proof.
  induction e as [k sp n b i op es id IH] using Expr_nested_ind. simpl.
  intros [[Hcount Hint]%andb_true_iff Hes]%andb_true_iff env st Hok Henv.
  assert (IHs : Forall elaborates es).
  { rewrite forallb_forall in Hes. apply Forall_forall. intros x Hx. rewrite Forall_forall in IH. apply IH; [done|].
    apply Hes. by apply list_elem_of_In. }
  clear IH Hes. destruct k; simpl in Hcount |- *.
  - by apply safe_elaborate_name.
  - eapply safe_mono; [apply safe_completed; [done|]|].
    + exists bool_runtime_type. split; [by apply ok_bool|]. by rewrite sort_bool_val.
    + intros te st' (? & -> & ?). split_and!; [done..|]. intros c Hc. simpl. by rewrite occurs_bool_val.
  - destruct (integer_literal_typed i) as (t & Ht & Hs); [by rewrite bool_decide_true in Hint|].
    eapply safe_z3; [exact Ht|]. eapply safe_mono; [apply safe_completed; [done|]|].
    + exists int_runtime_type. split; [by apply ok_int|done].
    + intros te st' (? & -> & ?). split_and!; [done..|]. intros c Hc. simpl. by rewrite (occurs_numeral _ _ _ _ Hc Ht).
  - destruct es as [|x [|y [|]]]; try done.
    apply Forall_cons in IHs as [IHx [IHy _]%Forall_cons]. apply safe_bind. eapply safe_mono; [by apply IHx|].
    intros tx st1 (K1 & (xt & Hxt & Hx) & Wx). pose proof K1 as [Hok1 Hg1]. apply safe_bind.
    eapply safe_mono; [apply IHy; [done|by eapply grows_env]|].
    intros ty st2 (K2 & (yt & Hyt & Hy) & Wy). pose proof K2 as [Hok2 Hg2]. apply safe_bind.
    eapply safe_mono; [eapply safe_tuple_type; [done|by eapply grows_type|done]|].
    intros p st3 [K3 (c & Hp & Hc & Hi & _)]. pose proof K3 as [Hok3 Hg3]. eapply safe_type; [done|]. eapply safe_deref; [done|].
    eapply safe_z3; [apply mk_app_typed; simpl; by rewrite Hx, Hy, Hc|].
    eapply safe_mono; [apply safe_completed; [done|]|].
    + exists (tuple_of (te_type tx) (te_type ty) xt yt c). split; [done|]. by rewrite sort_app.
    + intros te st4 (Hk & -> & Ht). split_and!; [eauto using keeps_trans|done|]. by apply within_app; [|repeat constructor].
  - apply safe_bind. eapply safe_mono; [by apply safe_find_callee|]. intros callee st' [-> Hc].
    destruct (Nat.eqb_spec (length es) (length (callee_types callee))) as [El|]; [|done]. simpl.
    apply safe_bind. eapply safe_mono; [apply safe_arguments; [done..|]|].
    { destruct Hc as (rts & _ & Hr & _). by exists rts. }
    intros ts st1 (K1 & Hts & Hws). pose proof K1 as [Hok1 Hg1].
    destruct (apply_typed st1 (callee_types callee) (callee_result callee) (callee_decl callee) ts) as [Ha Ht];
      [by eapply grows_decl_typed|done|].
    eapply safe_z3; [exact Ha|]. eapply safe_mono; [by apply safe_completed|].
    intros te st2 (Hk & -> & Hte). split_and!; [eauto using keeps_trans|done|]. apply within_app; [|done].
    by destruct Hc as (_ & _ & _ & _ & _ & _ & Hint').
  - destruct es as [|x [|y [|]]]; try done.
    apply Forall_cons in IHs as [IHx [IHy _]%Forall_cons]. apply safe_bind. eapply safe_mono; [by apply IHx|].
    intros tx st1 (K1 & Hx & Wx). pose proof K1 as [Hok1 Hg1]. apply safe_bind. eapply safe_mono; [apply IHy; [done|by eapply grows_env]|].
    intros ty st2 (K2 & Hy & Wy). pose proof K2 as [Hok2 Hg2]. eapply safe_mono; [apply (safe_elaborate_binary _ env); [done|by eapply grows_has_sort|done|by repeat constructor]|].
    intros te st3 (Hk & Ht & Hw). split_and!; [eauto using keeps_trans|done..].
  - destruct es as [|x [|y [|z [|]]]]; try done.
    apply Forall_cons in IHs as [IHx [IHy [IHz _]%Forall_cons]%Forall_cons]. apply safe_bind.
    eapply safe_mono; [by apply IHx|]. intros tx st1 (K1 & Hx & Wx). pose proof K1 as [Hok1 Hg1]. apply safe_bind.
    eapply safe_mono; [apply IHy; [done|by eapply grows_env]|]. intros ty st2 (K2 & Hy & Wy). pose proof K2 as [Hok2 Hg2]. apply safe_bind.
    eapply safe_mono; [apply IHz; [done|]|]. { eapply grows_env; [|done]. by etrans. }
    intros tz st3 (K3 & Hz & Wz). pose proof K3 as [Hok3 Hg3]. eapply safe_mono.
    { apply (safe_elaborate_conditional _ env); [done| | |done|by repeat constructor];
        [eapply grows_has_sort; [|done]; by etrans|by eapply grows_has_sort]. }
    intros te st4 (Hk & Ht & Hw). split_and!; [eauto using keeps_trans|done..].
  - done.
Qed.

Lemma elaborate_safe e env st :
  source_form e = true -> runtime_ok st -> env_typed st env ->
  safe (elaborate_expression env e) st (fun te st' => keeps st st' /\ has_type st' te).
Proof. intros Hf Hok He. eapply safe_mono; [by apply elaborate_scoped|]. naive_solver. Qed.

(** C12. Elaboration is type safe and scope safe: on a well-formed runtime, an
    expression of the parser's form, in an environment of typed names, elaborates
    to a term that has the Z3 sort of the type it is given, whose uninterpreted
    constants all come from the environment, or is rejected with a
    [SemanticError].  No Z3 call throws, no unchecked index or pointer is out of
    range (an internal error can only come from the recorder), and the runtime
    stays well formed and only grows. *)
Theorem elaboration_type_safe (e : Expr) (env : Environment) (st : RuntimeState) :
  source_form e = true -> runtime_ok st -> env_typed st env ->
  safe (elaborate_expression env e) st (fun te st' =>
    runtime_ok st' /\ grows st st' /\ has_type st' te /\ within env (te_expression te)).
Proof. intros Hf Hok He. eapply safe_mono; [by apply elaborate_scoped|]. by intros te st' ([? ?] & ? & ?). Qed.
End Spec.
