(* ===== verification/DeclareSpec.v ===== *)
(** * Declarations keep the runtime well formed

    Every declaration of a document that is accepted leaves a well-formed
    runtime, and none makes Z3 throw: a datatype without a base case is the
    one exception the code leaves to Z3. *)

From stdpp Require Import gmap.
From S2P Require Import Prelude Format Syntax Lexer Parser ParserSpec Printer Source Z3Ast Z3Solver Z3Build Z3Fixedpoint Lift Recorder Runtime Elaborate Declare RuntimeSpec ElaborateSpec.
From Stdlib Require Import NArith.

(** ** What resolving a type leaves alone *)

Section Frame.
Context `{Z3Build}.

Record frame (st st' : RuntimeState) : Prop := {
  fr_types : types_ st' = types_ st;
  fr_cases : cases_ st' = cases_ st;
  fr_constructors : constructors_ st' = constructors_ st;
  fr_values : value_names_ st' = value_names_ st;
  fr_enums : enum_heap st' = enum_heap st;
  fr_datatypes : datatype_heap st' = datatype_heap st;
  fr_proofs : admitted_proofs_ st' = admitted_proofs_ st;
  fr_heap : type_heap st `prefix_of` type_heap st'
}.

#[export] Instance frame_preorder : PreOrder frame.
Proof. split; [by split|]. intros a b c [] []. split; try congruence. by etrans. Qed.

(** It keeps what the fixedpoint object was told, too. *)
Definition framed {A} (m : RtM A) : Prop := forall st, frame st (m st).2 /\ fixedpoint_ (m st).2 = fixedpoint_ st.

Lemma framed_bind {A B} (m : RtM A) (k : A -> RtM B) : framed m -> (forall a, framed (k a)) -> framed (m ≫= k).
Proof.
  intros Hm Hk st. specialize (Hm st). unfold mbind, RtM_bind.
  destruct (m st) as [[a|e|] st']; simpl in *; [|done..]. destruct Hm as [Hf Hp], (Hk a st') as [Hf' Hp'].
  split; [by etrans|congruence].
Qed.

Lemma framed_ret {A} (a : A) : framed (mret a).
Proof. by intros st. Qed.
Lemma framed_throw {A} e : framed (rt_throw (A := A) e).
Proof. by intros st. Qed.
Lemma framed_gets {A} (f : RuntimeState -> A) : framed (gets f).
Proof. by intros st. Qed.
Lemma framed_deref {A} what (o : option A) : framed (deref what o).
Proof. by intros st; destruct o. Qed.
Lemma framed_modify f : (forall st, frame st (f st) /\ fixedpoint_ (f st) = fixedpoint_ st) -> framed (modify f).
Proof. intros Hf st. apply Hf. Qed.

Lemma framed_the_type p : framed (the_type p).
Proof. apply framed_bind; [apply framed_gets|intros; apply framed_deref]. Qed.

Hint Resolve framed_ret framed_throw framed_gets framed_deref framed_the_type : frame.

Ltac framed :=
  repeat first [ solve [auto with frame]
               | apply framed_bind; [|intros ?]
               | apply framed_modify; intros ?; split; [by split; try apply prefix_app_r|done]
               | case_match ].

Lemma framed_tuple_type a b sp : framed (tuple_type a b sp).
Proof. unfold tuple_type, new_type, reject. framed. Qed.

Lemma framed_table_type a b sp : framed (table_type a b sp).
Proof. unfold table_type, new_type, reject. framed. Qed.

Lemma framed_resolve_type t : framed (resolve_type t).
Proof.
  induction t as [k sp n l IH] using Type_nested_ind. destruct k; simpl.
  - unfold reject. framed.
  - destruct l as [|a [|b [|]]]; try apply framed_throw. apply Forall_cons in IH as [IHa [IHb _]%Forall_cons].
    apply framed_bind; [done|intros ?]. apply framed_bind; [done|intros ?]. apply framed_tuple_type.
  - destruct l as [|a [|b [|]]]; try apply framed_throw. apply Forall_cons in IH as [IHa [IHb _]%Forall_cons].
    apply framed_bind; [done|intros ?]. apply framed_bind; [done|intros ?]. apply framed_table_type.
Qed.
End Frame.

Section Spec.
Context `{Z3BuildLaws}.

(** Safety with the frame of a framed operation. *)
Lemma safe_framed {A} (m : RtM A) st Q :
  framed m -> safe m st Q -> safe m st (fun a st' => Q a st' /\ frame st st').
Proof.
  intros Hf. unfold safe. specialize (Hf st) as [Hf _]. destruct (m st) as [[a|[]|] st']; simpl in *; try done.
  by intros [? ?].
Qed.

(** ** Literal values *)

(** The kind of a type that holds values of an enumeration or a datatype. *)
Lemma enum_type_ptr st p rt : runtime_ok st -> type_heap st !! p = Some rt -> rt_kind rt = KEnumeration ->
  exists ep info, rt_enumeration rt = Some ep /\ enum_heap st !! ep = Some info /\ ei_type info = p.
Proof. intros Hok Hp Hk. apply (ok_types _ Hok) in Hp. destruct Hp; try done. eauto. Qed.

Lemma datatype_type_ptr st p rt : runtime_ok st -> type_heap st !! p = Some rt -> rt_kind rt = KDatatype ->
  exists dp info, rt_datatype rt = Some dp /\ datatype_heap st !! dp = Some info /\ di_type info = p.
Proof. intros Hok Hp Hk. apply (ok_types _ Hok) in Hp. destruct Hp; try done. eauto. Qed.

Lemma tuple_type_parts st p rt : runtime_ok st -> type_heap st !! p = Some rt -> rt_kind rt = KTuple ->
  exists a b ta tb c, rt = tuple_of a b ta tb c /\ component st a ta /\ component st b tb /\
    decl_domain c = [rt_sort ta; rt_sort tb] /\ interpreted c.
Proof.
  intros Hok Hp Hk. apply (ok_types _ Hok) in Hp. destruct Hp as [| | | |a b ta tb c key ? ? -> ? [? _] ?|]; try done.
  by exists a, b, ta, tb, c.
Qed.

Lemma table_type_parts st p rt : runtime_ok st -> type_heap st !! p = Some rt -> rt_kind rt = KTable ->
  exists a b ta tb, rt = table_of a b ta tb /\ component st a ta /\ component st b tb.
Proof.
  intros Hok Hp Hk. apply (ok_types _ Hok) in Hp. destruct Hp as [| | | | |a b ta tb key ? ? -> ?]; try done.
  by exists a, b, ta, tb.
Qed.

Lemma bool_type_sort st p rt : runtime_ok st -> type_heap st !! p = Some rt -> rt_kind rt = KBoolean -> rt_sort rt = bool_sort.
Proof. intros Hok Hp Hk. apply (ok_types _ Hok) in Hp. by destruct Hp. Qed.

Lemma int_type_sort st p rt : runtime_ok st -> type_heap st !! p = Some rt -> rt_kind rt = KInteger -> rt_sort rt = int_sort.
Proof. intros Hok Hp Hk. apply (ok_types _ Hok) in Hp. by destruct Hp. Qed.

Lemma safe_constructor_at source rt p st :
  runtime_ok st -> type_heap st !! p = Some rt -> rt_kind rt = KDatatype ->
  safe (constructor_at source rt) st (fun item st' => st' = st /\ decl_typed st (dc_field_types item) p (dc_constructor item)).
Proof.
  intros Hok Hp Hk. unfold constructor_at. apply safe_gets.
  destruct (constructors_ st !! name source) as [[dp i]|] eqn:E; [|done].
  destruct (ok_constructors _ Hok _ _ _ E) as (info & item & Hd & Hi & _). eapply safe_datatype; [done|].
  destruct (bool_decide_reflect (rt_datatype rt = Some dp)) as [Ed|]; [|done]. simpl. rewrite Hi. apply safe_ret.
  split; [done|]. destruct (datatype_type_ptr _ _ _ Hok Hp Hk) as (dp' & info' & E1 & E2 & <-). simplify_eq.
  by eapply constructor_typed.
Qed.

Lemma safe_enum_value_at source rt p st :
  runtime_ok st -> type_heap st !! p = Some rt ->
  safe (enum_value_at source rt) st (fun t st' => st' = st /\ has_sort st p t /\ within ∅ t).
Proof.
  intros Hok Hp. unfold enum_value_at. destruct (bool_decide_reflect (rt_kind rt = KEnumeration)) as [Hk|]; [|done].
  simpl. apply safe_gets. destruct (cases_ st !! name source) as [[ep i]|] eqn:E; [|done].
  destruct (ok_cases _ Hok _ _ _ E) as (info & He & Hn). eapply safe_enum; [done|].
  destruct (bool_decide_reflect (rt_enumeration rt = Some ep)) as [Ee|]; [|done]. simpl.
  destruct (enum_value_typed _ _ _ _ _ Hok He Hn) as (v & Hv & Ht & Hd). rewrite Hv. apply safe_ret. split; [done|]. split; [|by apply within_app].
  destruct (enum_type_ptr _ _ _ Hok Hp Hk) as (ep' & info' & E1 & E2 & <-). by simplify_eq.
Qed.

Lemma decl_interpreted st ps r d : decl_typed st ps r d -> interpreted d.
Proof. by intros (rts & rt & _ & _ & _ & _ & ?). Qed.

(** What evaluating a literal guarantees; it changes nothing. *)
Definition evaluates (e : Expr) : Prop := forall p rt st,
  runtime_ok st -> type_heap st !! p = Some rt -> safe (value e p) st (fun t st' => st' = st /\ has_sort st p t /\ within ∅ t).

Lemma safe_values es ps st :
  Forall evaluates es -> runtime_ok st -> length es = length ps -> (exists rts, typed_as st ps rts) ->
  safe ((fix values (es : list Expr) (types : list TypePtr) : RtM (list Term) :=
      match es, types with
      | e :: es', p :: types' => v ← value e p; rest ← values es' types'; mret (v :: rest)
      | _, _ => mret []
      end) es ps) st (fun ts st' => st' = st /\ typed_terms st ps ts /\ Forall (within ∅) ts).
Proof.
  intros Hes Hok. revert ps. induction Hes as [|e es He Hes IH]; intros [|p ps] Hl [rts Hr]; simplify_eq/=.
  { apply safe_ret. split_and!; [done|constructor..]. }
  inversion Hr as [|? rt ? rts' Hp Hr']; subst. apply safe_bind. eapply safe_mono; [by eapply He|].
  intros t st' (-> & Ht & Hw). apply safe_bind. eapply safe_mono; [by apply IH; [|exists rts']|].
  intros ts st' (-> & Hts & Hws). apply safe_ret. split_and!; [done|by constructor..].
Qed.

Lemma safe_z3_last {A} call (o : option A) a st Q : o = Some a -> Q a st -> safe (z3_call call o) st Q.
Proof. intros -> HQ. by apply safe_ret. Qed.

Lemma value_safe e : source_form e = true -> evaluates e.
Proof.
  induction e as [k sp n b i op es id IH] using Expr_nested_ind. simpl source_form.
  intros [[Hcount Hint]%andb_true_iff Hes]%andb_true_iff p rt st Hok Hp.
  assert (IHs : Forall evaluates es).
  { rewrite forallb_forall in Hes. apply Forall_forall. intros x Hx. rewrite Forall_forall in IH. apply IH; [done|].
    apply Hes. by apply list_elem_of_In. }
  clear IH Hes. destruct k; simpl in Hcount |- *; (eapply safe_type; [exact Hp|]); try done.
  - destruct (bool_decide_reflect (rt_kind rt = KDatatype)) as [Hk|].
    + apply safe_bind. eapply safe_mono; [by eapply safe_constructor_at|]. intros item st' [-> Hd].
      destruct (bool_decide_reflect (dc_field_types item <> [])) as [|Hnil]; [done|]. apply dec_stable in Hnil.
      rewrite Hnil in Hd. destruct (apply_typed st [] p (dc_constructor item) []) as [Ha Ht]; [done|constructor|].
      eapply safe_z3_last; [exact Ha|]. split_and!; [done..|]. apply within_app; [by apply (decl_interpreted st _ _ _ Hd)|constructor].
    + by apply safe_enum_value_at.
  - destruct (bool_decide_reflect (rt_kind rt = KBoolean)) as [Hk|]; [|done]. apply safe_ret. split_and!; [done| |].
    { exists rt. split; [done|]. rewrite sort_bool_val. symmetry. by eapply bool_type_sort. }
    intros c Hc. by rewrite occurs_bool_val.
  - destruct (bool_decide_reflect (rt_kind rt = KInteger)) as [Hk|]; [|done].
    destruct (integer_literal_typed i) as (t & Ht & Hs); [by rewrite bool_decide_true in Hint|].
    eapply safe_z3_last; [exact Ht|]. split_and!; [done| |].
    { exists rt. split; [done|]. rewrite Hs. symmetry. by eapply int_type_sort. }
    intros c Hc. by rewrite (occurs_numeral _ _ _ _ Hc Ht).
  - destruct (bool_decide_reflect (rt_kind rt = KTuple)) as [Hk|]; [|done]. simpl.
    destruct es as [|x [|y [|]]]; try done. apply Forall_cons in IHs as [IHx [IHy _]%Forall_cons].
    destruct (tuple_type_parts _ _ _ Hok Hp Hk) as (a & c & ta & tc & d & -> & (Ha & _) & (Hc & _) & Hdom & Hint').
    eapply safe_deref; [done|]. eapply safe_deref; [done|].
    apply safe_bind. eapply safe_mono; [by eapply IHx|]. intros tx st' (-> & (rx & Hrx & Hx) & Hwx).
    apply safe_bind. eapply safe_mono; [by eapply IHy|]. intros ty st' (-> & (ry & Hry & Hy) & Hwy). simplify_eq.
    eapply safe_deref; [done|]. eapply safe_z3_last; [apply mk_app_typed; simpl; by rewrite Hdom, Hx, Hy|].
    split_and!; [done| |by apply within_app; [|repeat constructor]]. eexists. split; [exact Hp|]. by rewrite sort_app.
  - destruct (bool_decide_reflect (rt_kind rt = KDatatype)) as [Hk|]; [|done]. simpl.
    apply safe_bind. eapply safe_mono; [by eapply safe_constructor_at|]. intros item st' [-> Hd].
    destruct (Nat.eqb_spec (length es) (length (dc_field_types item))) as [El|]; [|done]. simpl.
    apply safe_bind. eapply safe_mono; [apply safe_values; [done..|]|].
    { destruct Hd as (rts & _ & Hr & _). by exists rts. }
    intros ts st' (-> & Hts & Hws). destruct (apply_typed _ _ _ _ _ Hd Hts) as [Ha Ht]. eapply safe_z3_last; [exact Ha|].
    split_and!; [done..|]. apply within_app; [by apply (decl_interpreted st _ _ _ Hd)|done].
Qed.

(** ** Updates that keep the invariant *)

(** Fields no part of the invariant reads, and a larger set of names. *)
Lemma unread_keeps st st' :
  type_heap st' = type_heap st -> enum_heap st' = enum_heap st -> datatype_heap st' = datatype_heap st ->
  types_ st' = types_ st -> cases_ st' = cases_ st -> constructors_ st' = constructors_ st ->
  compound_types_ st' = compound_types_ st -> functions_ st' = functions_ st -> predicates_ st' = predicates_ st ->
  bindings_ st' = bindings_ st -> recdefs_ st' = recdefs_ st ->
  admitted_proofs_ st' = admitted_proofs_ st -> (views_form st -> views_form st') ->
  value_names_ st ⊆ value_names_ st' -> runtime_ok st -> keeps st st'.
Proof.
  intros E1 E2 E3 E4 E5 E6 E7 E8 E9 E10 E11 E12 Hviews Hv Hok.
  assert (Hg : grows st st') by (split; rewrite ?E1, ?E2, ?E3, ?E4, ?E5, ?E6, ?E7, ?E8, ?E9, ?E12; done).
  split; [|done]. split; rewrite ?E1, ?E2, ?E3, ?E4, ?E5, ?E6, ?E7, ?E8, ?E9, ?E10, ?E11; try apply Hok.
  - intros p rt Hp. eapply grows_type_wf; [exact Hg|by apply Hok].
  - intros ep info Hi. eapply grows_enum_wf; [exact Hg|by apply Hok].
  - intros dp info Hi. eapply grows_datatype_wf; [exact Hg|by apply Hok].
  - intros n Hn. by apply Hv, (ok_reserved _ Hok).
  - intros n f Hf. eapply grows_decl_typed; [exact Hg|by eapply ok_functions].
  - intros n q Hq. eapply grows_decl_typed; [exact Hg|by eapply ok_predicates].
  - intros n Hn. destruct (ok_predicate_names _ Hok n Hn). split; [by apply Hv|done].
Qed.

Lemma add_value_name_keeps n st : runtime_ok st -> keeps st (add_value_name n st).
Proof. apply unread_keeps; try done. simpl. set_solver. Qed.

Lemma set_capture_keeps c w st : runtime_ok st -> keeps st (set_capture c w st).
Proof. by apply unread_keeps. Qed.

Lemma emplace_Some {A} k (v : A) m k' v' :
  emplace k v m !! k' = Some v' -> m !! k' = Some v' \/ k' = k /\ v' = v /\ m !! k = None.
Proof.
  unfold emplace. destruct (m !! k) eqn:E; [by left|].
  intros [[<- <-]|[_ ?]]%lookup_insert_Some; [by right|by left].
Qed.

Lemma add_view_keeps v n st : runtime_ok st -> view_info_form v -> keeps st (add_view v n st).
Proof.
  intros Hok Hv. apply unread_keeps; try done. intros Hf n' v' [?|(-> & -> & _)]%emplace_Some; [by eapply Hf|done].
Qed.

Lemma emplace_subseteq {A} k (v : A) m : m ⊆ emplace k v m.
Proof. unfold emplace. destruct (m !! k) eqn:E; [done|]. by apply insert_subseteq. Qed.

Lemma add_binding_keeps b n st rt :
  runtime_ok st -> type_heap st !! b_type b = Some rt -> rt_kind rt = KTable -> get_sort (b_value b) = rt_sort rt ->
  over_identifiers (b_value b) -> keeps st (add_binding b n st).
Proof.
  intros Hok Hb Hk Hs Ho. assert (Hg : grows st (add_binding b n st)) by (by split). split; [|done].
  split; try apply Hok.
  - intros p rt' Hp. eapply grows_type_wf; [exact Hg|by apply Hok].
  - simpl. intros n' b' [?|(-> & -> & _)]%emplace_Some; [by eapply ok_bindings|by exists rt].
Qed.

Lemma add_function_keeps f n st :
  runtime_ok st -> decl_typed st (fi_parameter_types f) (fi_result_type f) (fi_declaration f) ->
  (exists m dom r, fi_declaration f = recfun m dom r) -> keeps st (add_function f n st).
Proof.
  intros Hok Hf Hr. assert (Hg : grows st (add_function f n st)) by (split; try done; apply emplace_subseteq).
  split; [|done]. split; try apply Hok.
  - intros p rt' Hp. eapply grows_type_wf; [exact Hg|by apply Hok].
  - simpl. intros n' f' [?|(-> & -> & _)]%emplace_Some;
      (eapply grows_decl_typed; [exact Hg|]); [by eapply ok_functions|done].
  - simpl. intros n' f' [?|(-> & -> & _)]%emplace_Some; [by eapply ok_recfuns|done].
Qed.

Lemma add_recdef_keeps d formals body st :
  runtime_ok st -> get_sort <$> formals = decl_domain d -> get_sort body = decl_range d ->
  keeps st (add_recdef d formals body st).
Proof.
  intros Hok Hf Hb. assert (Hg : grows st (add_recdef d formals body st)) by (by split).
  split; [|done]. split; try apply Hok.
  - intros p rt' Hp. eapply grows_type_wf; [exact Hg|by apply Hok].
  - simpl. intros d' fs b' [?|[= -> -> ->]%list_elem_of_singleton]%elem_of_app; [by apply (ok_recdefs _ Hok)|done].
Qed.

Lemma safe_modify_last f st (Q : unit -> RuntimeState -> Prop) :
  rainfall_ (f st) = rainfall_ st -> Q tt (f st) -> safe (modify f) st Q.
Proof. intros Hf HQ. unfold safe, modify. by rewrite Hf. Qed.

Lemma safe_reserve_value_name n sp st :
  runtime_ok st -> safe (reserve_value_name n sp) st (fun _ st' => keeps st st' /\ n ∉ value_names_ st /\ st' = add_value_name n st).
Proof.
  intros Hok. unfold reserve_value_name. apply safe_gets. destruct (decide _) as [|Hn]; [done|].
  apply safe_modify_last; [done|]. split; [by apply add_value_name_keeps|done].
Qed.

(** ** Tables *)

Definition table_form (l : TableLiteral) : bool :=
  source_form (table_default l) &&
  forallb (fun e => source_form (entry_key e) && source_form (entry_value e)) (table_entries l).

Lemma safe_table_entries a b ta tb entries keys result st :
  runtime_ok st -> type_heap st !! a = Some ta -> type_heap st !! b = Some tb ->
  forallb (fun e => source_form (entry_key e) && source_form (entry_value e)) entries = true ->
  get_sort result = array_sort (rt_sort ta) (rt_sort tb) -> within ∅ result ->
  safe (table_entries_value a b entries keys result) st
    (fun t st' => st' = st /\ get_sort t = array_sort (rt_sort ta) (rt_sort tb) /\ within ∅ t).
Proof.
  intros Hok Ha Hb. revert keys result. induction entries as [|e entries IH]; intros keys result Hf Hr Hwr; simpl.
  { by apply safe_ret. }
  simpl in Hf. apply andb_true_iff in Hf as [[Hk Hv]%andb_true_iff Hf].
  apply safe_bind. eapply safe_mono; [by eapply value_safe|]. intros k st' (-> & (rk & Hrk & Hsk) & Hwk).
  destruct (existsb _ _); [done|]. apply safe_bind. eapply safe_mono; [by eapply value_safe|].
  intros v st' (-> & (rv & Hrv & Hsv) & Hwv). simplify_eq.
  destruct (store_typed result k v (rt_sort ta) (rt_sort tb)) as (t & Ht & Hs); [done..|].
  eapply safe_z3; [exact Ht|]. apply IH; [done..|]. eapply within_op; [exact Ht|]. by repeat constructor.
Qed.

Lemma safe_table_value p rt literal st :
  runtime_ok st -> type_heap st !! p = Some rt -> rt_kind rt = KTable -> table_form literal = true ->
  safe (table_value rt literal) st (fun t st' => st' = st /\ get_sort t = rt_sort rt /\ within ∅ t).
Proof.
  intros Hok Hp Hk [Hd He]%andb_true_iff.
  destruct (table_type_parts _ _ _ Hok Hp Hk) as (a & b & ta & tb & -> & (Ha & _) & (Hb & _)).
  unfold table_value. eapply safe_deref; [done|]. eapply safe_deref; [done|]. eapply safe_type; [done|].
  apply safe_bind. eapply safe_mono; [by eapply value_safe|]. intros v st' (-> & (rv & Hrv & Hsv) & Hwv). simplify_eq.
  destruct (op_typed (ZConstArray (rt_sort ta)) [v] (array_sort (rt_sort ta) (rt_sort tb))) as (t & Ht & Hs).
  { simpl. by rewrite Hsv. }
  eapply safe_z3; [exact Ht|]. apply safe_table_entries; [done..|]. eapply within_op; [exact Ht|]. by repeat constructor.
Qed.

Lemma closed_over_identifiers t : within ∅ t -> over_identifiers t.
Proof. intros Hw c Hc Ho. destruct (Hw c Hc Ho) as (n & te & Hn & _). by apply lookup_empty_Some in Hn. Qed.

Lemma declare_let_safe d st :
  runtime_ok st -> table_form (let_value d) = true -> safe (declare_let d) st (fun _ st' => keeps st st').
Proof.
  intros Hok Hf. unfold declare_let. apply safe_bind. eapply safe_mono; [by apply safe_reserve_value_name|].
  intros _ st1 (K1 & _). pose proof K1 as [Hok1 _]. apply safe_bind. eapply safe_mono; [by apply safe_resolve_type|].
  intros p st2 (K2 & rt & Hp). pose proof K2 as [Hok2 _]. eapply safe_type; [done|].
  destruct (bool_decide_reflect (rt_kind rt = KTable)) as [Hk|]; [|done]. simpl.
  apply safe_bind. eapply safe_mono; [by eapply safe_table_value|]. intros t st' (-> & Hs & Hw).
  apply safe_modify_last; [done|]. do 2 (eapply keeps_trans; [eassumption|]). eapply add_binding_keeps; [done..|].
  by apply closed_over_identifiers.
Qed.

Lemma declare_model_safe d st :
  runtime_ok st -> is_identifier (model_name d) = true -> from_option (fun l => table_form l = true) True (model_value d) ->
  safe (declare_model d) st (fun _ st' => keeps st st').
Proof.
  intros Hok Hid Hf. unfold declare_model. apply safe_bind. eapply safe_mono; [by apply safe_reserve_value_name|].
  intros _ st1 (K1 & _). pose proof K1 as [Hok1 _]. apply safe_bind. eapply safe_mono; [by apply safe_resolve_type|].
  intros p st2 (K2 & rt & Hp). pose proof K2 as [Hok2 _]. eapply safe_type; [done|].
  destruct (bool_decide_reflect (rt_kind rt = KTable)) as [Hk|]; [|done]. simpl. apply safe_bind.
  eapply safe_mono with (Q := fun t st' => st' = st2 /\ get_sort t = rt_sort rt /\ over_identifiers t).
  - destruct (model_value d) as [l|]; simpl in Hf.
    + eapply safe_mono; [by eapply safe_table_value|]. intros t st' (-> & Hs & Hw). split_and!; [done..|by apply closed_over_identifiers].
    + apply safe_ret. split_and!; [done|by rewrite sort_constant|]. intros c Hc Ho. apply occurs_constant in Ho as ->; [by eexists _, _|done].
  - intros t st' (-> & Hs & Ho). apply safe_modify_last; [done|]. do 2 (eapply keeps_trans; [eassumption|]).
    by eapply add_binding_keeps.
Qed.
End Spec.
