(* ===== verification/EnumSpec.v ===== *)
(** * Declaring enumerations and datatypes

    An accepted [enum] adds a type, its values or constructors, and the
    names that lead to them; earlier types, names and values stay as they
    were.  Only a datatype Z3 itself refuses makes Z3 throw. *)

From stdpp Require Import gmap.
From S2P Require Import Prelude Format Syntax Lexer Parser ParserSpec Printer Source Z3Ast Z3Solver Z3Build Z3Fixedpoint Lift Recorder Runtime Elaborate Declare RuntimeSpec ElaborateSpec DeclareSpec.
From Stdlib Require Import NArith.

(** ** Names given to positions *)

Section Positions.
Context {A : Type} (key : A -> string) (p : nat).

Definition positions (l : list A) (m : gmap string (nat * nat)) : gmap string (nat * nat) :=
  foldl (fun m ic => emplace (key ic.2) (p, ic.1) m) m (imap pair l).

Lemma positions_snoc l x m :
  positions (l ++ [x]) m = emplace (key x) (p, length l) (positions l m).
Proof. unfold positions. rewrite imap_app, foldl_app. simpl. by rewrite Nat.add_0_r. Qed.

Lemma positions_subseteq l m : m ⊆ positions l m.
Proof.
  induction l as [|x l IH] using rev_ind; [done|]. rewrite positions_snoc. etrans; [exact IH|apply emplace_subseteq].
Qed.

Lemma positions_Some l m k v :
  positions l m !! k = Some v -> m !! k = Some v \/ exists i x, l !! i = Some x /\ key x = k /\ v = (p, i).
Proof.
  induction l as [|x l IH] using rev_ind; [by left|]. rewrite positions_snoc.
  intros [Hv|(-> & -> & _)]%emplace_Some.
  - destruct (IH Hv) as [?|(i & y & Hi & ? & ?)]; [by left|]. right. exists i, y. split; [|done].
    rewrite lookup_app_l; [done|]. by eapply lookup_lt_Some.
  - right. exists (length l), x. split; [|done]. by apply list_lookup_middle.
Qed.

Lemma positions_lookup l m i x :
  NoDup (key <$> l) -> (forall y, y ∈ l -> m !! key y = None) -> l !! i = Some x -> positions l m !! key x = Some (p, i).
Proof.
  induction l as [|y l IH] using rev_ind; [done|]. rewrite fmap_app, positions_snoc. intros Hn Hf Hi.
  apply NoDup_app in Hn as (Hn & Hd & _).
  assert (Hfree : positions l m !! key y = None).
  { destruct (positions l m !! key y) as [v|] eqn:E; [|done].
    apply positions_Some in E as [E|(j & z & Hj & Hz & _)].
    - rewrite Hf in E; [done|]. apply elem_of_app. right. by left.
    - exfalso. apply (Hd (key z)); [|rewrite Hz; by left]. apply list_elem_of_fmap. exists z. split; [done|].
      by eapply list_elem_of_lookup_2. }
  rewrite lookup_emplace by done. apply lookup_app_Some in Hi as [Hi|[Hge Hi]].
  - assert (Hne : key y <> key x).
    { intros E. apply (Hd (key x)); [|simpl; rewrite E; by left]. apply list_elem_of_fmap. exists x. split; [done|].
      by eapply list_elem_of_lookup_2. }
    rewrite lookup_insert_ne by done. apply IH; [done| |done]. intros z Hz. apply Hf, elem_of_app. by left.
  - apply list_lookup_singleton_Some in Hi as [Hi ->]. rewrite lookup_insert_eq.
    by replace i with (length l) by lia.
Qed.
End Positions.

Section Spec.
Context `{Z3BuildLaws}.

(** ** Checking the cases *)

Lemma safe_check_fields case fs seen st : safe (check_fields case fs seen) st (fun _ st' => st' = st).
Proof.
  revert seen. induction fs as [|f fs IH]; intros seen; simpl; [by apply safe_ret|]. destruct (decide _); [done|apply IH].
Qed.

(** The names were free and are reserved; nothing else has changed. *)
Definition reserves (names : list string) (st st' : RuntimeState) : Prop :=
  keeps st st' /\ frame (set_rainfall (rainfall_ st) (mkRuntimeState (type_heap st) (enum_heap st) (datatype_heap st)
      (types_ st) (cases_ st) (constructors_ st) (functions_ st) (views_ st) (predicates_ st) (bindings_ st)
      (admitted_proofs_ st) (compound_types_ st) (value_names_ st') (tuple_sequence_ st) (recdefs_ st) (fixedpoint_ st)
      (capture_source_edges_ st) (source_edge_within_ st) (rainfall_ st))) st' /\
  value_names_ st ⊆ value_names_ st' /\ NoDup names /\
  forall n, n ∈ names -> n ∉ value_names_ st /\ n ∈ value_names_ st'.

Lemma safe_check_cases cs seen st :
  runtime_ok st ->
  safe (check_cases cs seen) st (fun _ st' => reserves (case_name <$> cs) st st' /\ forall n, n ∈ case_name <$> cs -> n ∉ seen).
Proof.
  revert seen st. induction cs as [|c cs IH]; intros seen st Hok; simpl.
  - apply safe_ret. split; [|by intros n ?%elem_of_nil]. split_and!; [by apply keeps_refl|by split|done|constructor|].
    by intros n ?%elem_of_nil.
  - destruct (decide _) as [|Hc]; [done|]. apply safe_bind. eapply safe_mono; [by apply safe_reserve_value_name|].
    intros _ st1 (K1 & Hn & ->). apply safe_bind. eapply safe_mono; [apply safe_check_fields|]. intros _ ? ->.
    eapply safe_mono; [apply IH, K1|]. intros _ st2 [(K2 & F2 & V2 & N2 & R2) S2].
    split; [split_and!|].
    + by eapply keeps_trans.
    + destruct F2. by split.
    + simpl in V2. set_solver.
    + apply NoDup_cons. split; [|done]. intros Hin. apply R2 in Hin as [Hin _]. simpl in Hin. set_solver.
    + intros n [->|Hin]%elem_of_cons; [split; [done|]; simpl in V2; set_solver|].
      destruct (R2 n Hin) as [Hn1 Hn2]. simpl in Hn1. set_solver.
    + intros n [->|Hin]%elem_of_cons; [done|]. specialize (S2 n Hin). set_solver.
Qed.

Lemma reserves_free names st st' n :
  runtime_ok st -> reserves names st st' -> n ∈ names ->
  cases_ st' !! n = None /\ constructors_ st' !! n = None /\ n ∈ value_names_ st'.
Proof.
  intros Hok (_ & F & _ & _ & R) Hn. destruct (R n Hn) as [Hf Hr]. destruct F as [_ Fc Fd _ _ _]. simpl in *.
  rewrite Fc, Fd. split_and!; [| |done]; apply eq_None_not_Some; intros Hs; apply Hf, (ok_reserved _ Hok); auto.
Qed.

Lemma reserves_predicates names st st' n :
  runtime_ok st -> reserves names st st' -> n ∈ names -> predicates_ st' !! n = None.
Proof.
  intros Hok ([_ Hg] & _ & _ & _ & R) Hn. destruct (R n Hn) as [Hf _]. rewrite <- (g_predicates _ _ Hg).
  apply eq_None_not_Some. intros Hs. apply Hf. by apply (ok_predicate_names _ Hok).
Qed.

(** ** Fields *)

Lemma safe_traverse {A B} (f : A -> RtM B) (R : RuntimeState -> A -> B -> Prop) l st :
  (forall st st' x y, keeps st st' -> R st x y -> R st' x y) ->
  (forall x st, runtime_ok st -> safe (f x) st (fun y st' => (keeps st st' /\ frame st st') /\ R st' x y)) ->
  runtime_ok st ->
  safe (traverse_ f l) st (fun ys st' => (keeps st st' /\ frame st st') /\ Forall2 (R st') l ys).
Proof.
  intros Hmono Hf. revert st. induction l as [|x l IH]; intros st Hok; simpl.
  { apply safe_ret. split; [split; [by apply keeps_refl|done]|constructor]. }
  apply safe_bind. eapply safe_mono; [by apply Hf|]. intros y st1 [[K1 F1] R1].
  apply safe_bind. eapply safe_mono; [apply IH, K1|]. intros ys st2 [[K2 F2] R2]. apply safe_ret.
  split; [split; [by eapply keeps_trans|by etrans]|]. constructor; eauto.
Qed.

Definition field_ok (st : RuntimeState) (f : EnumField) (r : option (Sort * TypePtr)) : Prop :=
  match r with None => True | Some (s, p) => exists rt, type_heap st !! p = Some rt /\ s = rt_sort rt end.

Lemma field_ok_mono st st' f r : keeps st st' -> field_ok st f r -> field_ok st' f r.
Proof.
  intros [_ Hg]. destruct r as [[s p]|]; [|done]. intros (rt & ? & ?). exists rt. split; [by eapply grows_type|done].
Qed.

Lemma safe_resolve_field datatype f st :
  runtime_ok st -> safe (resolve_field datatype f) st (fun r st' => (keeps st st' /\ frame st st') /\ field_ok st' f r).
Proof.
  intros Hok. unfold resolve_field. destruct (_ && _).
  { apply safe_ret. by split; [split; [apply keeps_refl|]|]. }
  apply safe_bind. eapply safe_mono; [eapply safe_framed; [apply framed_resolve_type|apply safe_resolve_type, Hok]|].
  intros p st1 [[K1 [rt Hp]] F1]. eapply safe_type; [done|]. destruct (bool_decide _); [done|].
  apply safe_ret. split; [done|]. by exists rt.
Qed.

(** ** Adding a datatype *)

Lemma case_infos_decls self cs rs dss :
  length cs = length rs -> length dss = length cs -> case_decls <$> case_infos self cs rs dss = dss.
Proof.
  revert rs dss. induction cs as [|c cs IH]; intros [|f fs] [|[] dss] Hr Hd; simplify_eq/=; [done|].
  f_equal. by apply IH.
Qed.

Lemma case_infos_lookup self cs rs dss i item :
  case_infos self cs rs dss !! i = Some item -> exists c fs ds, cs !! i = Some c /\ rs !! i = Some fs /\
    dss !! i = Some ds /\ item = case_info self c fs ds.
Proof.
  revert i rs dss. induction cs as [|c cs IH]; intros i [|f fs] [|ds dss]; try done. destruct i as [|i]; simpl.
  - intros [= <-]. by exists c, f, ds.
  - apply IH.
Qed.

Lemma case_infos_names self cs rs dss :
  length cs = length rs -> length dss = length cs -> dc_name <$> case_infos self cs rs dss = case_name <$> cs.
Proof.
  revert rs dss. induction cs as [|c cs IH]; intros [|f fs] [|ds dss] Hr Hd; simplify_eq/=; [done|].
  f_equal. by apply IH.
Qed.

Section Datatype.
Context (d : EnumDecl) (st : RuntimeState) (sort : Sort) (resolved : list (list (option (Sort * TypePtr))))
  (decls : list CtorDecls).
Let p := length (type_heap st).
Let dp := length (datatype_heap st).
Let rt := mkRuntimeType KDatatype sort (enum_name d) [] None (Some dp) None.
Let info := mkDatatypeInfo (enum_name d) p (case_infos p (enum_cases d) resolved decls).
Let st' := add_datatype info (enum_name d) (add_type rt st).

Context (Hok : runtime_ok st) (Hfree : types_ st !! enum_name d = None) (Hname : is_identifier (enum_name d) = true).
Context (Hnodup : NoDup (case_name <$> enum_cases d)).
Context (Hcases : forall n, n ∈ case_name <$> enum_cases d ->
  cases_ st !! n = None /\ constructors_ st !! n = None /\ n ∈ value_names_ st).
Context (Hpredicates : forall n, n ∈ case_name <$> enum_cases d -> predicates_ st !! n = None).
Context (Hne : enum_cases d <> []) (Hids : forall n, n ∈ case_name <$> enum_cases d -> is_identifier n = true).
Context (Hdistinct : declared_datatype sort decls).
Context (Hfields : Forall2 (fun c fs => Forall2 (field_ok st) (case_fields c) fs) (enum_cases d) resolved).
Context (Htyped : Forall2 (ctor_typed sort) (zip_with case_spec (enum_cases d) resolved) decls).

Lemma info_names : dc_name <$> di_cases info = case_name <$> enum_cases d.
Proof.
  apply case_infos_names; [by apply Forall2_length in Hfields|].
  apply Forall2_length in Htyped, Hfields. rewrite length_zip_with in Htyped. lia.
Qed.

Lemma info_decls : case_decls <$> di_cases info = decls.
Proof.
  apply case_infos_decls; [by apply Forall2_length in Hfields|].
  apply Forall2_length in Htyped, Hfields. rewrite length_zip_with in Htyped. lia.
Qed.

Lemma add_datatype_state : st' = mkRuntimeState (type_heap st ++ [rt]) (enum_heap st) (datatype_heap st ++ [info])
    (<[enum_name d := p]> (types_ st)) (cases_ st) (positions dc_name dp (di_cases info) (constructors_ st))
    (functions_ st) (views_ st) (predicates_ st) (bindings_ st) (admitted_proofs_ st) (compound_types_ st)
    (value_names_ st) (tuple_sequence_ st) (recdefs_ st) (fixedpoint_ st) (capture_source_edges_ st) (source_edge_within_ st)
    (rainfall_ st).
Proof. unfold st', add_datatype, add_type. simpl. by rewrite lookup_emplace. Qed.

Lemma grows_datatype : grows st st'.
Proof.
  rewrite add_datatype_state. split; simpl; try done; [by apply prefix_app_r..|by apply insert_subseteq|].
  apply positions_subseteq.
Qed.

Lemma fields_typed c fs :
  Forall2 (field_ok st) (case_fields c) fs ->
  exists rts, typed_as st' ((fun f : option (Sort * TypePtr) => default p (snd <$> f)) <$> fs) rts /\
    (fun f => default sort f.2) <$> zip (Syntax.field_name <$> case_fields c) ((fun f : option (Sort * TypePtr) => fst <$> f) <$> fs)
      = rt_sort <$> rts.
Proof.
  induction 1 as [|f r cf fs Hf _ (rts & Hr & Es)]; [by exists []; split; [constructor|]|].
  destruct r as [[s q]|].
  - destruct Hf as (frt & Hq & ->). exists (frt :: rts). split; [|rewrite !fmap_cons; cbn [zip_with]; rewrite !fmap_cons; f_equal; exact Es].
    constructor; [|done]. by eapply grows_type; [apply grows_datatype|].
  - exists (rt :: rts). split; [|rewrite !fmap_cons; cbn [zip_with]; rewrite !fmap_cons; f_equal; exact Es]. constructor; [|done].
    rewrite add_datatype_state. simpl. by apply list_lookup_middle.
Qed.

Lemma new_cases_wf i item : di_cases info !! i = Some item -> case_wf st' dp sort i item.
Proof.
  intros Hi. split.
  - rewrite add_datatype_state. simpl constructors_. apply positions_lookup; [pose proof Hnodup as Hn; rewrite <- info_names in Hn; exact Hn| |done].
    intros y Hy. apply Hcases. rewrite <- info_names. apply list_elem_of_fmap. eauto.
  - destruct (case_infos_lookup _ _ _ _ _ _ Hi) as (c & fs & ds & Hc & Hfs & Hds & ->).
    destruct (fields_typed c fs) as (rts & Hr & Es).
    { eapply Forall2_lookup_lr in Hfields; [exact Hfields|done|done]. }
    assert (Hspec : ctor_typed sort (case_spec c fs) ds).
    { eapply Forall2_lookup_lr; [exact Htyped| |exact Hds]. by rewrite lookup_zip_with, Hc, Hfs. }
    destruct Hspec as (Hint & Hd & Hra & Hrd & Hrr & Ha). exists rts. simpl. split_and!; try done.
    + etrans; [exact Hd|exact Es].
    + simpl in Ha. rewrite Es in Ha. clear -Ha. apply Forall2_fmap_l in Ha. exact Ha.
Qed.

Lemma add_datatype_keeps : keeps st st'.
Proof.
  pose proof grows_datatype as Hg. split; [|done].
  assert (Hnew : type_heap st' !! p = Some rt) by (rewrite add_datatype_state; by apply list_lookup_middle).
  assert (Hinfo : datatype_heap st' !! dp = Some info) by (rewrite add_datatype_state; by apply list_lookup_middle).
  assert (Hdt : datatype_wf st' dp info).
  { exists rt. split_and!; [done..| |by rewrite info_decls|apply new_cases_wf].
    pose proof info_names as E. intros En. rewrite En in E. by destruct (enum_cases d). }
  pose proof add_datatype_state as Est.
  split.
  - eapply grows_type; [exact Hg|apply Hok].
  - eapply grows_type; [exact Hg|apply Hok].
  - intros q qt Hq. rewrite Est in Hq. apply lookup_app_Some in Hq as [Hq|[Hge Hq]].
    { eapply grows_type_wf; [exact Hg|by apply Hok]. }
    apply list_lookup_singleton_Some in Hq as [E <-]. assert (q = p) as -> by (unfold p; lia).
    eapply wf_datatype; [exact Hinfo|done|]. split; [|done]. rewrite Est. by apply lookup_insert_eq.
  - intros ep ei Hi. rewrite Est in Hi. eapply grows_enum_wf; [exact Hg|by apply Hok].
  - intros q qi Hq. rewrite Est in Hq. apply lookup_app_Some in Hq as [Hq|[Hge Hq]].
    { eapply grows_datatype_wf; [exact Hg|by apply Hok]. }
    apply list_lookup_singleton_Some in Hq as [E <-]. by assert (q = dp) as -> by (unfold dp; lia).
  - rewrite Est. apply Hok.
  - intros n q i. rewrite Est. simpl. intros [Hn|(j & item & Hj & <- & [= -> ->])]%positions_Some.
    + destruct (ok_constructors _ Hok _ _ _ Hn) as (qi & item & Hq & ? & ?). exists qi, item. split; [|done].
      by apply lookup_app_l_Some.
    + exists info, item. split; [by apply list_lookup_middle|done].
  - rewrite Est. simpl. intros n Hn. apply eq_None_not_Some. intros [v Hv]. apply positions_Some in Hv as [Hv|(j & item & Hj & <- & _)].
    + by rewrite (ok_disjoint _ Hok) in Hv.
    + destruct (Hcases (dc_name item)) as (E & _ & _); [|rewrite E in Hn; by destruct Hn].
      rewrite <- info_names. apply list_elem_of_fmap. exists item. split; [done|]. by eapply list_elem_of_lookup_2.
  - rewrite Est. simpl. intros n [Hn|[v Hv]]; [apply (ok_reserved _ Hok); by left|].
    apply positions_Some in Hv as [Hv|(j & item & Hj & <- & _)]; [apply (ok_reserved _ Hok); right; by eexists|].
    apply Hcases. rewrite <- info_names. apply list_elem_of_fmap. exists item. split; [done|]. by eapply list_elem_of_lookup_2.
  - rewrite Est. simpl. intros n [Hn|[v Hv]]; [apply (ok_identifiers _ Hok); by left|].
    apply positions_Some in Hv as [Hv|(j & item & Hj & <- & _)]; [apply (ok_identifiers _ Hok); right; by eexists|].
    apply Hids. rewrite <- info_names. apply list_elem_of_fmap. exists item. split; [done|]. by eapply list_elem_of_lookup_2.
  - rewrite Est. simpl. intros n q [[<- <-]|[_ Hq]]%lookup_insert_Some.
    + eexists. split; [by apply list_lookup_middle|done].
    + destruct (ok_type_names _ Hok _ _ Hq) as (qt & ? & ?). exists qt. split; [by apply lookup_app_l_Some|done].
  - rewrite Est. simpl. intros k q Hq. destruct (ok_compound _ Hok _ _ Hq) as (qt & ? & ? & ?). exists qt.
    split_and!; [by apply lookup_app_l_Some|done..].
  - intros n f Hf. rewrite Est in Hf. eapply grows_decl_typed; [exact Hg|by eapply ok_functions].
  - rewrite Est. apply (ok_recfuns _ Hok).
  - intros n q Hq. rewrite Est in Hq. eapply grows_decl_typed; [exact Hg|by eapply ok_predicates].
  - rewrite Est. simpl. intros n Hn. destruct (ok_predicate_names _ Hok n Hn) as [? Hc]. split; [done|].
    apply eq_None_not_Some. intros [v Hv]. apply positions_Some in Hv as [Hv|(j & item & Hj & <- & _)]; [congruence|].
    rewrite Hpredicates in Hn; [by destruct Hn|]. rewrite <- info_names. apply list_elem_of_fmap. exists item.
    split; [done|]. by eapply list_elem_of_lookup_2.
  - intros n b Hb. rewrite Est in Hb. destruct (ok_bindings _ Hok _ _ Hb) as (qt & ? & ? & ? & ?). exists qt.
    split_and!; [by eapply grows_type; [exact Hg|]|done..].
  - rewrite Est. apply Hok.
Qed.
End Datatype.

(** ** Adding an enumeration *)

Section Enumeration.
Context (name : string) (names : list string) (st : RuntimeState) (sort : Sort) (constructors : list Decl).
Let p := length (type_heap st).
Let ep := length (enum_heap st).
Let rt := mkRuntimeType KEnumeration sort name [] (Some ep) None None.
Let info := mkEnumInfo name p names constructors ((fun d => App d []) <$> constructors).
Let st' := add_enum info name (add_type rt st).

Context (Hok : runtime_ok st) (Hfree : types_ st !! name = None) (Hname : is_identifier name = true) (Hnodup : NoDup names).
Context (Hcases : forall n, n ∈ names -> cases_ st !! n = None /\ constructors_ st !! n = None /\ n ∈ value_names_ st).
Context (Hids : forall n, n ∈ names -> is_identifier n = true).
Context (Hlen : length constructors = length names) (Hdistinct : NoDup constructors).
Context (Htyped : declared_enumeration sort constructors).

Lemma add_enum_state : st' = mkRuntimeState (type_heap st ++ [rt]) (enum_heap st ++ [info]) (datatype_heap st)
    (<[name := p]> (types_ st)) (positions id ep names (cases_ st)) (constructors_ st)
    (functions_ st) (views_ st) (predicates_ st) (bindings_ st) (admitted_proofs_ st) (compound_types_ st)
    (value_names_ st) (tuple_sequence_ st) (recdefs_ st) (fixedpoint_ st) (capture_source_edges_ st) (source_edge_within_ st)
    (rainfall_ st).
Proof. unfold st', add_enum, add_type. simpl. by rewrite lookup_emplace. Qed.

Lemma grows_enum : grows st st'.
Proof.
  rewrite add_enum_state. split; simpl; try done; [by apply prefix_app_r..|by apply insert_subseteq|].
  apply positions_subseteq.
Qed.

Lemma new_enum_wf : enum_wf st' ep info.
Proof.
  exists rt. split_and!; try done.
  - rewrite add_enum_state. by apply list_lookup_middle.
  - unfold info. simpl. by rewrite length_fmap.
  - apply NoDup_fmap_2; [|done]. intros ? ?. congruence.
  - intros i n Hi. rewrite add_enum_state. simpl cases_. apply (positions_lookup id); [by rewrite list_fmap_id| |done].
    intros y Hy. by apply Hcases.
Qed.

Lemma add_enum_keeps : keeps st st'.
Proof.
  pose proof grows_enum as Hg. split; [|done]. pose proof add_enum_state as Est. pose proof new_enum_wf as Hwf.
  split.
  - eapply grows_type; [exact Hg|apply Hok].
  - eapply grows_type; [exact Hg|apply Hok].
  - intros q qt Hq. rewrite Est in Hq. apply lookup_app_Some in Hq as [Hq|[Hge Hq]].
    { eapply grows_type_wf; [exact Hg|by apply Hok]. }
    apply list_lookup_singleton_Some in Hq as [E <-]. assert (q = p) as -> by (unfold p; lia).
    apply (wf_enum _ _ _ _ _ info); [rewrite Est; by apply list_lookup_middle|done|]. split; [|done].
    rewrite Est. by apply lookup_insert_eq.
  - intros q qi Hq. rewrite Est in Hq. apply lookup_app_Some in Hq as [Hq|[Hge Hq]].
    { eapply grows_enum_wf; [exact Hg|by apply Hok]. }
    apply list_lookup_singleton_Some in Hq as [E <-]. by assert (q = ep) as -> by (unfold ep; lia).
  - intros q qi Hq. rewrite Est in Hq. eapply grows_datatype_wf; [exact Hg|by apply Hok].
  - intros n q i. rewrite Est. simpl. intros [Hn|(j & item & Hj & <- & [= -> ->])]%positions_Some.
    + destruct (ok_cases _ Hok _ _ _ Hn) as (qi & Hq & ?). exists qi. split; [|done]. by apply lookup_app_l_Some.
    + exists info. split; [by apply list_lookup_middle|done].
  - rewrite Est. apply Hok.
  - rewrite Est. simpl. intros n [v Hv]. apply positions_Some in Hv as [Hv|(j & item & Hj & <- & _)].
    + apply (ok_disjoint _ Hok). by eexists.
    + apply Hcases. by eapply list_elem_of_lookup_2.
  - rewrite Est. simpl. intros n [[v Hv]|Hn]; [|apply (ok_reserved _ Hok); by right].
    apply positions_Some in Hv as [Hv|(j & item & Hj & <- & _)]; [apply (ok_reserved _ Hok); left; by eexists|].
    apply Hcases. by eapply list_elem_of_lookup_2.
  - rewrite Est. simpl. intros n [[v Hv]|Hn]; [|apply (ok_identifiers _ Hok); by right].
    apply positions_Some in Hv as [Hv|(j & item & Hj & <- & _)]; [apply (ok_identifiers _ Hok); left; by eexists|].
    apply Hids. by eapply list_elem_of_lookup_2.
  - rewrite Est. simpl. intros n q [[<- <-]|[_ Hq]]%lookup_insert_Some.
    + eexists. split; [by apply list_lookup_middle|done].
    + destruct (ok_type_names _ Hok _ _ Hq) as (qt & ? & ?). exists qt. split; [by apply lookup_app_l_Some|done].
  - rewrite Est. simpl. intros k q Hq. destruct (ok_compound _ Hok _ _ Hq) as (qt & ? & ? & ?). exists qt.
    split_and!; [by apply lookup_app_l_Some|done..].
  - intros n f Hf. rewrite Est in Hf. eapply grows_decl_typed; [exact Hg|by eapply ok_functions].
  - rewrite Est. apply (ok_recfuns _ Hok).
  - intros n q Hq. rewrite Est in Hq. eapply grows_decl_typed; [exact Hg|by eapply ok_predicates].
  - rewrite Est. apply (ok_predicate_names _ Hok).
  - intros n b Hb. rewrite Est in Hb. destruct (ok_bindings _ Hok _ _ Hb) as (qt & ? & ? & ? & ?). exists qt.
    split_and!; [by eapply grows_type; [exact Hg|]|done..].
  - rewrite Est. apply Hok.
Qed.
End Enumeration.

(** ** [declare_enum] *)

(** Safety where Z3 may also refuse a datatype. *)
Definition safe_but_datatype {A} (m : RtM A) (st : RuntimeState) (Q : A -> RuntimeState -> Prop) : Prop :=
  match m st with (Err (Z3Exception call), _) => call = "datatype" | _ => safe m st Q end.

Lemma safe_weaken {A} (m : RtM A) st Q : safe m st Q -> safe_but_datatype m st Q.
Proof. unfold safe_but_datatype, safe. by destruct (m st) as [[|[]|] ?]. Qed.

Lemma safe_but_bind {A B} (m : RtM A) (k : A -> RtM B) st Q :
  safe m st (fun a st' => safe_but_datatype (k a) st' Q) -> safe_but_datatype (m ≫= k) st Q.
Proof.
  unfold safe_but_datatype, safe, mbind, RtM_bind. destruct (m st) as [[a|[]|] st']; try done.
  intros [Hk Hr]. destruct (k a st') as [[b|[]|] st'']; [destruct Hk; auto|auto..].
Qed.

Lemma safe_values_loop ds st :
  Forall (fun d => decl_domain d = []) ds ->
  safe (traverse_ (fun c => z3_call "constructor" (mk_app c [])) ds) st
    (fun vs st' => st' = st /\ vs = (fun d => App d []) <$> ds).
Proof.
  induction 1 as [|d ds Hd Hds IH]; simpl; [by apply safe_ret|].
  apply safe_bind. eapply safe_z3_last; [by apply mk_app_typed|]. apply safe_bind. eapply safe_mono; [exact IH|].
  intros vs st' [-> ->]. by apply safe_ret.
Qed.

(** The names the parser gives an [enum]: identifiers. *)
Definition enum_form (d : EnumDecl) : Prop :=
  is_identifier (enum_name d) = true /\ forall n, n ∈ case_name <$> enum_cases d -> is_identifier n = true.

Lemma declare_datatype_safe d st0 st :
  runtime_ok st0 -> types_ st !! enum_name d = None -> enum_form d -> enum_cases d <> [] ->
  reserves (case_name <$> enum_cases d) st0 st ->
  safe_but_datatype (declare_datatype d) st (fun _ st' => keeps st st').
Proof.
  intros Hok0 Hfree [Hname Hids] Hne Hres. pose proof Hres as ([Hok _] & _ & _ & Hnodup & _).
  unfold declare_datatype. apply safe_but_bind.
  eapply safe_mono.
  { apply (safe_traverse _ (fun st c fs => Forall2 (field_ok st) (case_fields c) fs)); [| |done].
    - intros st1 st2 c fs K Hf. eapply Forall2_impl; [exact Hf|]. intros. by eapply field_ok_mono.
    - intros c st1 Hok1. apply safe_traverse; [by intros; eapply field_ok_mono| |done].
      intros f st2 Hok2. by apply safe_resolve_field. }
  intros resolved st1 [[K1 F1] Hfields]. pose proof K1 as [Hok1 _].
  destruct (mk_datatype _ _) as [[sort decls]|] eqn:E; [|done].
  apply safe_but_bind. apply safe_ret. apply safe_weaken. apply safe_gets. apply safe_bind. unfold new_type.
  apply safe_gets. apply safe_modify; [done|]. apply safe_ret. apply safe_modify_last; [done|].
  eapply keeps_trans; [exact K1|]. destruct F1 as [Ft Fc Fd Fv _ _].
  assert (Hnames : ctor_name <$> zip_with case_spec (enum_cases d) resolved = case_name <$> enum_cases d).
  { clear -Hfields. induction Hfields as [|c fs cs rs _ _ IH]; simpl; [done|]. by f_equal. }
  apply add_datatype_keeps; [done|by rewrite Ft|done|done| | |done|done| |done|by eapply datatype_typed];
    [| |split; [eapply datatype_distinct; [exact E|by rewrite Hnames]|by eexists _, _]].
  - intros n Hn. rewrite Fc, Fd, Fv. exact (reserves_free _ _ _ n Hok0 Hres Hn).
  - intros n Hn. destruct K1 as [_ Hg1]. rewrite <- (g_predicates _ _ Hg1). exact (reserves_predicates _ _ _ n Hok0 Hres Hn).
Qed.

Lemma declare_enum_safe d st :
  runtime_ok st -> enum_form d -> safe_but_datatype (declare_enum d) st (fun _ st' => keeps st st').
Proof.
  intros Hok Hform. unfold declare_enum. apply safe_but_bind. unfold reserve_type_name. apply safe_gets.
  destruct (types_ st !! enum_name d) eqn:Hfree; [done|]. apply safe_ret.
  apply safe_but_bind. eapply safe_mono; [by apply safe_check_cases|]. intros _ st1 [Hres _].
  pose proof Hres as (K1 & F1 & _ & Hnodup & _). pose proof K1 as [Hok1 _].
  assert (Hfree1 : types_ st1 !! enum_name d = None) by (destruct F1 as [-> _ _ _ _ _]; done).
  destruct (existsb _ (enum_cases d)) eqn:Ef.
  - assert (Hk : safe_but_datatype (declare_datatype d) st1 (fun _ st' => keeps st1 st')).
    { eapply declare_datatype_safe; [exact Hok|done|done| |done]. intros En. by rewrite En in Ef. }
    revert Hk. unfold safe_but_datatype, safe. destruct (declare_datatype d st1) as [[a|[]|] st2]; try done.
    intros [K2 Hr]. split; [by eapply keeps_trans|done].
  - destruct (enumeration_sort (enum_name d) (case_name <$> enum_cases d)) as [sort ds] eqn:Es.
    destruct (enumeration_typed _ _ _ _ Es) as (Hl & Ht & Hn). apply safe_weaken. apply safe_gets.
    apply safe_bind. unfold new_type. apply safe_gets. apply safe_modify; [done|]. apply safe_ret.
    apply safe_bind. eapply safe_mono.
    { apply safe_values_loop. eapply Forall_impl; [exact Ht|]. by intros x [? _]. }
    intros vs st' [-> ->]. apply safe_modify_last; [done|]. eapply keeps_trans; [exact K1|].
    destruct Hform as [Hname Hids].
    apply add_enum_keeps; [done|done|done|done| |done|done|by apply Hn|split; [done|by eexists _, _]]. intros n Hn'. exact (reserves_free _ _ _ n Hok Hres Hn').
Qed.
End Spec.
