(* ===== verification/FunctionSpec.v ===== *)
(** * Declaring functions and views

    An accepted function is registered with the sorts of its parameters and
    result, and its definition's body has the result's sort; an accepted view
    leaves everything it reads as it was. *)

From stdpp Require Import gmap.
From S2P Require Import Prelude Format Syntax Lexer Parser ParserSpec Printer Source Z3Ast Z3Solver Z3Build Z3Fixedpoint Lift Recorder Runtime Elaborate Declare RuntimeSpec ElaborateSpec DeclareSpec.
From Stdlib Require Import NArith.

Section Spec.
Context `{Z3BuildLaws} (term_to_string : Term -> string) (term_ast_id : Term -> N).

(** ** Parameters *)

Definition formals_ok (st : RuntimeState) (acc : Formals) : Prop :=
  env_typed st (f_environment acc) /\
  exists rts, typed_as st (f_types acc) rts /\ f_sorts acc = rt_sort <$> rts /\ get_sort <$> f_terms acc = f_sorts acc.

Definition matched_ok (st : RuntimeState) (n : nat) (m : Matched) : Prop :=
  match m with None => True | Some (ty, t, i) => has_sort st ty t /\ i < n end.

Lemma grows_formals st st' acc : grows st st' -> formals_ok st acc -> formals_ok st' acc.
Proof.
  intros Hg (? & rts & ? & ? & ?). split; [by eapply grows_env|]. exists rts. split; [by eapply grows_typed_as|done].
Qed.

Lemma grows_matched st st' n m : grows st st' -> matched_ok st n m -> matched_ok st' n m.
Proof. intros Hg. destruct m as [[[ty t] i]|]; [|done]. intros [? ?]. split; [by eapply grows_has_sort|done]. Qed.

Lemma env_insert st (env : gmap string TypedExpression) n te : env_typed st env -> has_type st te -> env_typed st (<[n := te]> env).
Proof. intros He Ht k te' [[_ <-]|[_ ?]]%lookup_insert_Some; [done|by eapply He]. Qed.

Lemma safe_function_parameters owner scrutinee ps i acc m st :
  runtime_ok st -> formals_ok st acc -> matched_ok st i m ->
  safe (function_parameters owner scrutinee i ps acc m) st (fun r st' =>
    keeps st st' /\ formals_ok st' r.1 /\ matched_ok st' (i + length ps) r.2).
Proof.
  revert i acc m st. induction ps as [|p ps IH]; intros i acc m st Hok Hf Hm; simpl.
  { apply safe_ret. rewrite Nat.add_0_r. split; [by apply keeps_refl|done]. }
  apply safe_bind. eapply safe_mono; [by apply safe_resolve_type|]. intros ty st1 (K1 & rt & Hty).
  pose proof K1 as [Hok1 Hg1]. eapply safe_type; [done|]. destruct (bool_decide _); [done|].
  destruct (f_environment acc !! _); [done|].
  set (t := constant _ _). assert (Ht : has_sort st1 ty t) by (exists rt; split; [done|apply sort_constant]).
  destruct (grows_formals _ _ _ Hg1 Hf) as (He & rts & Hr & Es & Et).
  eapply safe_mono; [apply IH; [done| |]|].
  - split; [by apply env_insert|]. exists (rts ++ [rt]). simpl. split_and!.
    + by apply Forall2_app; [|constructor].
    + by rewrite fmap_app, Es.
    + rewrite fmap_app, Et. simpl. f_equal. f_equal. apply sort_constant.
  - destruct (_ =? _)%string; [split; [done|lia]|]. eapply grows_matched; [exact Hg1|].
    destruct m as [[[? ?] ?]|]; [|done]. destruct Hm. split; [done|lia].
  - intros r st2 (K2 & Hf2 & Hm2). split_and!; [by eapply keeps_trans|done|]. by rewrite Nat.add_succ_r.
Qed.

(** ** Arms *)

Lemma safe_arm_bindings dp s idx item mt mterm bs i locals env recursive st :
  runtime_ok st -> case_wf st dp s idx item -> get_sort mterm = s -> env_typed st env ->
  i + length bs = length (dc_field_types item) ->
  safe (arm_bindings_loop item mt mterm i bs locals env recursive) st (fun r st' => st' = st /\ env_typed st r.1).
Proof.
  intros Hok (_ & rts & Hr & _ & _ & _ & _ & _ & Ha) Hm. revert i locals env recursive.
  induction bs as [|b bs IH]; intros i locals env recursive He Hl; simpl in *; [by apply safe_ret|].
  destruct (_ =? _)%string; [apply IH; [done|lia]|]. destruct (_ || _); [done|].
  assert (Hi : i < length (dc_field_types item)) by lia.
  destruct (lookup_lt_is_Some_2 _ _ Hi) as [ty Hty]. pose proof (Forall2_length _ _ _ Hr) as Hlr.
  destruct (lookup_lt_is_Some_2 rts i) as [rt Hrt]; [by rewrite <- Hlr|].
  pose proof (Forall2_length _ _ _ Ha) as Hla.
  destruct (lookup_lt_is_Some_2 (dc_accessors item) i) as [d Hd]; [rewrite <- Hla; by rewrite <- Hlr|].
  destruct (Forall2_lookup_lr _ _ _ _ _ _ Ha Hrt Hd) as [Hdom Hran].
  eapply safe_deref; [exact Hty|]. eapply safe_deref; [exact Hd|].
  eapply safe_z3; [apply mk_app_typed; simpl; by rewrite Hm, Hdom|]. apply IH; [|lia].
  apply env_insert; [done|]. exists rt. split; [exact (Forall2_lookup_lr _ _ _ _ _ _ Hr Hty Hrt)|]. simpl. by rewrite sort_app.
Qed.

Lemma safe_structural_calls owner datatype arity position recursive e st :
  position < arity ->
  safe (check_structural_calls owner datatype arity position recursive e) st (fun _ st' => st' = st).
Proof.
  intros Hp. induction e as [k sp n b i op es id IH] using Expr_nested_ind. simpl. apply safe_bind.
  eapply safe_mono with (Q := fun _ st' => st' = st).
  - destruct (_ && _); [|by apply safe_ret]. destruct (Nat.eqb_spec (length es) arity) as [El|]; [|done]. simpl.
    destruct (lookup_lt_is_Some_2 es position) as [x Hx]; [by rewrite El|]. eapply safe_deref; [exact Hx|].
    destruct (_ || _); [done|by apply safe_ret].
  - intros _ st' ->. induction IH as [|x es Hx Hes IHes]; [by apply safe_ret|]. apply safe_bind.
    eapply safe_mono; [exact Hx|]. intros _ st' ->. exact IHes.
Qed.

(** A branch: a Boolean guard and a value of the result's sort. *)
Definition branch_ok (s : Sort) (b : Term * Term) : Prop := get_sort b.1 = bool_sort /\ get_sort b.2 = s.

Definition context_ok (st : RuntimeState) (c : FunctionContext) (s : Sort) : Prop :=
  env_typed st (fc_environment c) /\
  (exists dp rt, datatype_heap st !! dp = Some (fc_datatype c) /\ datatype_wf st dp (fc_datatype c) /\
     type_heap st !! di_type (fc_datatype c) = Some rt /\ get_sort (fc_matched_term c) = rt_sort rt) /\
  fc_matched_index c < length (Syntax.function_parameters (fc_declaration c)) /\
  exists rt, type_heap st !! fc_result_type c = Some rt /\ rt_sort rt = s.

Lemma grows_context st st' c s : grows st st' -> context_ok st c s -> context_ok st' c s.
Proof.
  intros Hg (? & (dp & rt & ? & ? & ? & ?) & ? & rt' & ? & ?). split_and!; [by eapply grows_env| |done|].
  - exists dp, rt. split_and!; [by eapply prefix_lookup_Some; [|apply Hg]|by eapply grows_datatype_wf|by eapply grows_type|done].
  - exists rt'. split; [by eapply grows_type|done].
Qed.

Lemma safe_function_arm c s seen arm st :
  runtime_ok st -> context_ok st c s -> source_form (arm_value arm) = true ->
  safe (function_arm term_to_string term_ast_id c seen arm) st (fun b st' =>
    keeps st st' /\ branch_ok s b /\ arm_constructor arm ∉ seen).
Proof.
  intros Hok (He & (dp & rt & Hd & (rt' & Hrt' & _ & _ & _ & _ & Hcases) & Hrt & Hm) & Hidx & rrt & Hres & Hs) Hf.
  unfold function_arm. destruct (list_find _ _) as [[i item]|] eqn:E; [|done].
  apply list_find_Some in E as (Hi & _ & _). destruct (decide _) as [|Hseen]; [done|].
  destruct (Nat.eqb_spec (length (arm_bindings arm)) (length (dc_field_types item))) as [El|]; [|done]. simpl.
  simplify_eq. pose proof (Hcases i item Hi) as Hcase. apply safe_bind. eapply safe_mono.
  { eapply safe_arm_bindings; [done|exact Hcase|done|done|done]. }
  intros [env recursive] st' [-> Henv]. simpl in Henv. apply safe_bind.
  eapply safe_mono; [by apply safe_structural_calls|]. intros _ st' ->. apply safe_bind.
  eapply safe_mono; [by apply elaborate_safe|]. intros te st1 [K1 (trt & Htrt & Hts)]. pose proof K1 as [Hok1 Hg1].
  unfold same. destruct (Nat.eqb_spec (te_type te) (fc_result_type c)) as [Ety|]; simpl.
  - destruct Hcase as (_ & rts & _ & _ & _ & _ & Hrd & Hrr & _).
    eapply safe_z3; [apply mk_app_typed; simpl; by rewrite Hm, Hrd|]. apply safe_ret. split_and!; [done| |done].
    split; simpl; [by rewrite sort_app|]. rewrite Hts. f_equal. rewrite Ety in Htrt.
    apply (grows_type _ _ _ _ Hg1) in Hres. congruence.
  - eapply safe_type; [by eapply grows_type|done].
Qed.

Lemma safe_function_arms c s arms seen branches st :
  runtime_ok st -> context_ok st c s -> forallb (fun a => source_form (arm_value a)) arms = true ->
  Forall (branch_ok s) branches -> size seen = length branches ->
  safe (function_arms_loop term_to_string term_ast_id c arms seen branches) st (fun r st' =>
    keeps st st' /\ Forall (branch_ok s) r.2 /\ size r.1 = length r.2).
Proof.
  revert seen branches st. induction arms as [|a arms IH]; intros seen branches st Hok Hc Hf Hb Hs; simpl.
  { apply safe_ret. split; [by apply keeps_refl|done]. }
  simpl in Hf. apply andb_true_iff in Hf as [Ha Hf]. apply safe_bind. eapply safe_mono; [by eapply safe_function_arm|].
  intros b st1 (K1 & Hb1 & Hseen). pose proof K1 as [Hok1 Hg1]. eapply safe_mono.
  { apply IH; [done|by eapply grows_context|done| |].
    - by apply Forall_app; split; [|constructor].
    - rewrite size_union by set_solver. rewrite size_singleton, length_app. simpl. lia. }
  intros r st2 (K2 & ? & ?). split; [by eapply keeps_trans|done].
Qed.

Lemma safe_match_body s branches st :
  Forall (branch_ok s) branches -> branches <> [] ->
  safe (match_body branches) st (fun t st' => st' = st /\ get_sort t = s).
Proof.
  induction 1 as [|b bs [Hg Hv] Hbs IH]; [done|]. intros _. destruct bs as [|b' bs]; [by apply safe_ret|].
  cbn [match_body]. apply safe_bind. eapply safe_mono; [by apply IH|]. intros t st' [-> Ht].
  destruct (op_typed ZIte [b.1; b.2; t] s) as (u & Hu & Hs).
  { simpl. rewrite Hg, Hv, Ht. by rewrite decide_True. }
  by eapply safe_z3_last.
Qed.

Definition function_form (d : FunctionDecl) : bool := forallb (fun a => source_form (arm_value a)) (function_arms d).

Lemma declare_function_safe d id st :
  runtime_ok st -> function_form d = true ->
  safe (declare_function term_to_string term_ast_id d id) st (fun _ st' => keeps st st').
Proof.
  intros Hok Hf. unfold declare_function. apply safe_bind. eapply safe_mono; [by apply safe_reserve_value_name|].
  intros _ st1 (K1 & _). pose proof K1 as [Hok1 _]. destruct (bool_decide _); [done|]. destruct (negb _); [done|].
  apply safe_bind. eapply safe_mono.
  { apply (safe_function_parameters _ _ _ 0 (mkFormals ∅ [] [] []) None); [done| |done].
    split; [intros n te Hn; simpl in Hn; by rewrite lookup_empty in Hn|]. exists []. by split; [constructor|]. }
  intros [formals matched] st2 (K2 & Hform & Hmat). simpl in Hform, Hmat. pose proof K2 as [Hok2 _].
  destruct matched as [[[mt mterm] index]|]; [|done]. destruct Hmat as [(mrt & Hmrt & Hms) Hidx].
  eapply safe_type; [done|]. destruct (bool_decide_reflect (rt_kind mrt = KDatatype)) as [Hk|]; [|done]. simpl.
  apply safe_bind. eapply safe_mono; [by apply safe_resolve_type|]. intros rtype st3 (K3 & rrt & Hrrt).
  pose proof K3 as [Hok3 Hg3]. eapply safe_type; [done|]. destruct (bool_decide _); [done|].
  set (decl := recfun _ _ _). destruct (recfun_typed (function_name d) (f_sorts formals) (rt_sort rrt)) as (Hdom & Hran & Hint).
  destruct (grows_formals _ _ _ Hg3 Hform) as (Henv & rts & Hr & Es & Et).
  set (info := mkFunctionInfo _ _ _ _).
  assert (K4 : keeps st3 (add_function info (function_name d) st3)).
  { apply add_function_keeps; [done| |by eexists _, _, _]. exists rts, rrt. split_and!; [done..| |exact Hran|exact Hint]. simpl. unfold decl. by rewrite Hdom. }
  pose proof K4 as [Hok4 Hg4]. apply safe_modify; [done|].
  destruct (datatype_type_ptr _ _ _ Hok2 Hmrt Hk) as (dp & dinfo & Edp & Hdinfo & Edt).
  assert (Hg24 : grows st2 (add_function info (function_name d) st3)) by (by etrans).
  eapply safe_deref; [exact Edp|]. eapply safe_datatype; [by eapply prefix_lookup_Some; [|apply Hg24]|].
  apply safe_gets. apply safe_gets. apply safe_modify; [done|].
  set (st5 := set_capture _ _ _). assert (K5 : keeps (add_function info (function_name d) st3) st5) by (by apply set_capture_keeps).
  pose proof K5 as [Hok5 Hg5]. assert (Hg25 : grows st2 st5) by (by etrans; [exact Hg24|]).
  apply safe_bind. eapply safe_mono.
  { apply (safe_function_arms _ (rt_sort rrt)); [done| |done|constructor|done].
    split_and!; simpl.
    - eapply grows_env; [|exact Henv]. by etrans; [exact Hg4|].
    - pose proof (ok_datatypes _ Hok2 _ _ Hdinfo) as Hwf.
      exists dp, mrt. split_and!; [by eapply prefix_lookup_Some; [|apply Hg25]|by eapply grows_datatype_wf| |done].
      rewrite Edt. by eapply grows_type.
    - done.
    - exists rrt. split; [exact Hrrt|done]. }
  intros [seen branches] st6 (K6 & Hbr & Hsize). simpl in Hbr, Hsize. pose proof K6 as [Hok6 _].
  apply safe_modify; [done|]. set (st7 := set_capture _ _ _).
  assert (K7 : keeps st6 st7) by (by apply set_capture_keeps). pose proof K7 as [Hok7 _].
  destruct (Nat.eqb_spec (size seen) (length (di_cases dinfo))) as [Esz|]; [|done]. simpl.
  assert (Hne : branches <> []).
  { destruct (ok_datatypes _ Hok2 _ _ Hdinfo) as (_ & _ & _ & _ & Hnn & _). intros ->. simpl in Hsize.
    rewrite Hsize in Esz. by destruct (di_cases dinfo). }
  apply safe_bind. eapply safe_mono; [by apply safe_match_body|]. intros body st' [-> Hbody].
  assert (Hterms : get_sort <$> f_terms formals = decl_domain decl) by (rewrite Et; unfold decl; by rewrite Hdom).
  apply safe_modify; [done|]. set (st8 := add_recdef _ _ _ _).
  assert (K8 : keeps st7 st8). { apply add_recdef_keeps; [done..|]. rewrite Hbody. symmetry. exact Hran. }
  pose proof K8 as [Hok8 _]. assert (K : keeps st st8) by eauto 12 using keeps_trans.
  apply safe_gets. destruct (rainfall_ st8); [|by apply safe_ret].
  eapply safe_z3; [by apply mk_app_typed|]. eapply safe_mono; [by apply safe_rain|].
  intros ? st9 K9. by eapply keeps_trans.
Qed.

(** ** Views *)

Lemma safe_view_parameters owner ps i names (env : gmap string TypedExpression) types st :
  runtime_ok st -> env_typed st env ->
  safe (view_parameters_loop owner i ps names env types) st (fun r st' => keeps st st' /\ env_typed st' r.1).
Proof.
  revert i names env types st. induction ps as [|p ps IH]; intros i names env types st Hok He; simpl.
  { apply safe_ret. split; [by apply keeps_refl|done]. }
  destruct (_ =? _)%string; [done|]. destruct (bool_decide _); [done|]. apply safe_bind.
  eapply safe_mono; [by apply safe_resolve_type|]. intros ty st1 (K1 & rt & Hty). pose proof K1 as [Hok1 Hg1].
  eapply safe_type; [done|]. destruct (bool_decide _); [done|]. eapply safe_mono; [apply IH; [done|]|].
  - unfold emplace. destruct (env !! _); [by eapply grows_env|]. apply env_insert; [by eapply grows_env|].
    exists rt. split; [done|apply sort_constant].
  - intros r st2 [K2 ?]. split; [by eapply keeps_trans|done].
Qed.

Lemma safe_conjoin message env conditions result st :
  runtime_ok st -> env_typed st env -> forallb source_form conditions = true -> get_sort result = bool_sort ->
  safe (conjoin term_to_string term_ast_id message env conditions result) st
    (fun t st' => keeps st st' /\ get_sort t = bool_sort).
Proof.
  revert result st. induction conditions as [|c cs IH]; intros result st Hok He Hf Hr; simpl.
  { apply safe_ret. split; [by apply keeps_refl|done]. }
  simpl in Hf. apply andb_true_iff in Hf as [Hc Hf]. apply safe_bind. eapply safe_mono; [by apply elaborate_safe|].
  intros te st1 [K1 (rt & Hrt & Ht)]. pose proof K1 as [Hok1 Hg1]. unfold same.
  destruct (Nat.eqb_spec (te_type te) bool_type_) as [E|]; [|done]. simpl.
  destruct (op_typed ZAnd [result; te_expression te] bool_sort) as (t & Hop & Hs).
  { simpl. rewrite Hr, Ht. rewrite E, (ok_bool _ Hok1) in Hrt. simplify_eq. by rewrite decide_True. }
  eapply safe_z3; [exact Hop|]. eapply safe_mono; [apply IH; [done|by eapply grows_env|done|done]|].
  intros u st2 [K2 ?]. split; [by eapply keeps_trans|done].
Qed.

Lemma safe_view_witness env carrier rt witness st :
  runtime_ok st -> env_typed st env -> type_heap st !! carrier = Some rt ->
  from_option (fun w => source_form w = true) True witness ->
  safe (view_witness_term term_to_string term_ast_id env carrier witness) st (fun _ st' => keeps st st').
Proof.
  intros Hok He Hc Hf. destruct witness as [w|]; simpl; [|by apply safe_ret, keeps_refl].
  apply safe_bind. eapply safe_mono; [by apply elaborate_safe|]. intros te st1 [K1 _]. pose proof K1 as [_ Hg1].
  destruct (negb _); [|by apply safe_ret]. eapply safe_type; [by eapply grows_type|done].
Qed.

Definition view_form (d : ViewDecl) : Prop :=
  forallb source_form (view_requirements d) = true /\ from_option (fun w => source_form w = true) True (view_witness d).

Lemma declare_view_safe d st :
  runtime_ok st -> view_form d ->
  safe (declare_view term_to_string term_ast_id d) st (fun _ st' => keeps st st').
Proof.
  intros Hok [Hreq Hwit]. unfold declare_view. apply safe_gets. destruct (_ || _); [done|].
  apply safe_bind. eapply safe_mono; [by apply safe_resolve_type|]. intros carrier st1 (K1 & rt & Hc).
  pose proof K1 as [Hok1 _]. eapply safe_type; [done|]. destruct (bool_decide _); [done|].
  apply safe_bind. eapply safe_mono.
  { apply safe_view_parameters; [done|]. intros n te Hn. by rewrite lookup_empty in Hn. }
  intros [env types] st2 [K2 He]. simpl in He. pose proof K2 as [Hok2 Hg2]. apply safe_gets. apply safe_gets.
  apply safe_modify; [done|]. set (st3 := set_capture _ _ _).
  assert (K3 : keeps st2 st3) by (by apply set_capture_keeps). pose proof K3 as [Hok3 Hg3].
  assert (He3 : env_typed st3 env) by (by eapply grows_env).
  assert (Hc3 : type_heap st3 !! carrier = Some rt) by (eapply grows_type; [exact Hg3|by eapply grows_type]).
  apply safe_bind. eapply safe_mono.
  { apply safe_conjoin; [done| |done|apply sort_bool_val]. unfold emplace. destruct (env !! _); [done|].
    apply env_insert; [done|]. exists rt. split; [done|apply sort_constant]. }
  intros requirements st4 [K4 _]. pose proof K4 as [Hok4 Hg4]. apply safe_bind. eapply safe_mono.
  { eapply safe_view_witness; [done|by eapply grows_env|by eapply grows_type|done]. }
  intros witness st5 K5. pose proof K5 as [Hok5 _]. apply safe_modify; [done|]. apply safe_modify; [done|].
  set (st6 := set_capture _ _ _). assert (K6 : keeps st5 st6) by (by apply set_capture_keeps).
  pose proof K6 as [Hok6 _]. set (st7 := add_view _ _ _). assert (K7 : keeps st6 st7) by (by apply add_view_keeps).
  pose proof K7 as [Hok7 _]. eapply safe_mono; [by apply safe_rain|]. intros ? st8 K8. 
  exact (keeps_trans _ _ _ K1 (keeps_trans _ _ _ K2 (keeps_trans _ _ _ K3 (keeps_trans _ _ _ K4 (keeps_trans _ _ _ K5
    (keeps_trans _ _ _ K6 (keeps_trans _ _ _ K7 K8))))))).
Qed.
End Spec.
