(* ===== verification/StructuralSpec.v ===== *)
(** * Recursive functions recurse on direct fields

    What [declare_function] accepts as an arm: every call the arm makes to the
    function it defines passes, at the matched position, a field of the matched
    value, so that calls follow the subterm order of the datatype. *)

From stdpp Require Import gmap.
From S2P Require Import Prelude Format Syntax Source Z3Ast Z3Solver Z3Build Z3Fixedpoint Lift Recorder Runtime Elaborate Declare RuntimeSpec.
From Stdlib Require Import NArith.

(** The expressions inside an expression, itself included. *)
Inductive inside : Expr -> Expr -> Prop :=
| inside_self e : inside e e
| inside_element e x y : x ∈ elements e -> inside x y -> inside e y.

Section Calls.
Context `{Z3Build} (term_to_string : Term -> string) (term_ast_id : Term -> N).

(** A call that passes one of [recursive] at [position]. *)
Definition decreases (arity position : nat) (recursive : gset string) (call : Expr) : Prop :=
  length (elements call) = arity /\ exists argument, elements call !! position = Some argument /\
    kind argument = EName /\ name argument ∈ recursive.

Lemma structural_calls_decrease owner datatype arity position recursive e st st' :
  check_structural_calls owner datatype arity position recursive e st = (Ok tt, st') ->
  forall call, inside e call -> kind call = ECall -> name call = owner -> decreases arity position recursive call.
Proof.
  revert st st'. induction e as [k sp n b i op es id IH] using Expr_nested_ind. intros st st' E call Hin Hk Hn.
  simpl in E. apply bind_Ok in E as ([] & st1 & E1 & E2). inversion Hin as [e'|e' x y Hx Hy]; subst; simpl in *.
  - subst. rewrite bool_decide_true, String.eqb_refl in E1 by done. simpl in E1.
    destruct (Nat.eqb_spec (length es) arity) as [Hl|]; [|done]. simpl in E1.
    apply bind_Ok in E1 as (x & st2 & [Hx ->]%deref_Ok & E1). split; [done|]. exists x. split; [done|].
    destruct (bool_decide_reflect (kind x = EName)) as [Hkind|]; [|done].
    by destruct (bool_decide_reflect (name x ∈ recursive)).
  - clear E1 Hin. revert st1 E2. induction IH as [|z es Hz _ IHes]; intros st1 E2; [by apply elem_of_nil in Hx|].
    apply bind_Ok in E2 as ([] & st2 & E2 & E3). apply elem_of_cons in Hx as [->|Hx]; [by eapply Hz|by eapply IHes].
Qed.

(** A name bound to a direct field of the matched value. *)
Definition direct_field (item : DatatypeCaseInfo) (mt : TypePtr) (mterm : Term) (env : Environment) (n : string) : Prop :=
  exists j accessor field, dc_field_types item !! j = Some mt /\ dc_accessors item !! j = Some accessor /\
    mk_app accessor [mterm] = Some field /\ env !! n = Some (mkTyped mt field).

Lemma arm_bindings_direct item mt mterm i bs locals env recursive st env' recursive' st' :
  arm_bindings_loop item mt mterm i bs locals env recursive st = (Ok (env', recursive'), st') ->
  (forall n, n ∈ recursive -> direct_field item mt mterm env n) ->
  forall n, n ∈ recursive' -> direct_field item mt mterm env' n.
Proof.
  revert i locals env recursive st. induction bs as [|b bs IH]; intros i locals env recursive st E Hr.
  { simpl in E. by injection E as <- <- <-. }
  simpl in E. destruct (binding_name b =? "_")%string; [by eapply IH|].
  destruct (bool_decide _ || bool_decide (is_Some _)) eqn:Eb; [done|]. apply orb_false_iff in Eb as [_ Hfree].
  apply bool_decide_eq_false, eq_None_not_Some in Hfree.
  apply bind_Ok in E as (ty & st1 & [Hty ->]%deref_Ok & E).
  apply bind_Ok in E as (accessor & st1 & [Ha ->]%deref_Ok & E).
  apply bind_Ok in E as (field & st1 & [Hf ->]%z3_call_Ok & E).
  eapply IH; [exact E|]. intros n Hn.
  assert (Hold : n ∈ recursive -> direct_field item mt mterm (<[binding_name b := mkTyped ty field]> env) n).
  { intros (j & a & f & ? & ? & ? & He)%Hr. exists j, a, f. split_and!; [done..|].
    rewrite lookup_insert_ne; [done|]. intros <-. by rewrite Hfree in He. }
  destruct (same ty mt) eqn:Es; [|by apply Hold]. unfold same in Es. apply Nat.eqb_eq in Es as ->.
  apply elem_of_union in Hn as [->%elem_of_singleton|Hn]; [|by apply Hold].
  exists i, accessor, field. split_and!; [done..|]. by rewrite lookup_insert_eq.
Qed.

(** C24. Accepted recursion is structural: in an arm [declare_function]
    accepts, every call to the function being defined, however deep in the arm's
    value, has all its arguments, and the one at the matched position is a name
    that the arm's environment binds, at the matched type, to an accessor of the
    arm's constructor applied to the matched value. *)
Theorem recursion_on_direct_fields (c : FunctionContext) (seen : gset string) (arm : MatchArm) (st st' : RuntimeState)
    (branch : Term * Term) :
  function_arm term_to_string term_ast_id c seen arm st = (Ok branch, st') ->
  exists item env recursive st1, item ∈ di_cases (fc_datatype c) /\ dc_name item = arm_constructor arm /\
    arm_bindings_loop item (fc_matched_type c) (fc_matched_term c) 0 (arm_bindings arm) ∅ (fc_environment c) ∅ st =
      (Ok (env, recursive), st1) /\
    forall call, inside (arm_value arm) call -> kind call = ECall -> name call = function_name (fc_declaration c) ->
      length (elements call) = length (Syntax.function_parameters (fc_declaration c)) /\
      exists argument, elements call !! fc_matched_index c = Some argument /\ kind argument = EName /\
        direct_field item (fc_matched_type c) (fc_matched_term c) env (name argument).
Proof.
  unfold function_arm. destruct (list_find _ _) as [[k item]|] eqn:Ef; [|done].
  apply list_find_Some in Ef as (Hitem & Hname & _). destruct (decide _); [done|]. destruct (negb _); [done|].
  intros E. apply bind_Ok in E as ([env recursive] & st1 & Eb & E). apply bind_Ok in E as ([] & st2 & Ec & _).
  exists item, env, recursive, st1. split_and!; [by eapply list_elem_of_lookup_2|done|done|].
  intros call Hin Hk Hn. destruct (structural_calls_decrease _ _ _ _ _ _ _ _ Ec call Hin Hk Hn) as [Hl (x & Hx & Hkx & Hr)].
  split; [done|]. exists x. split_and!; [done..|]. eapply arm_bindings_direct; [exact Eb| |exact Hr].
  intros x' Hx'. by apply elem_of_empty in Hx'.
Qed.
End Calls.
