(* ===== verification/CheckSpec.v ===== *)
(** * Checks are sound

    The terms of a check mention only its parameters; the constructor
    branches of an [inducts] clause imply the theorem by structural induction;
    an unsatisfiable query therefore makes the theorem valid, and admitted
    proofs are valid assumptions. *)

From stdpp Require Import gmap.
From S2P Require Import Prelude Format Syntax Lexer Printer Parser ParserSpec Source Z3Ast Z3Solver Z3Build Z3Check Z3Fixedpoint Lift Recorder Observers Runtime Elaborate Declare Values Check RuntimeSpec ElaborateSpec DeclareSpec EnumSpec FunctionSpec.
From Stdlib Require Import NArith.

Section Statement.
Context `{Z3BuildLaws} (term_to_string : Term -> string) (term_ast_id : Term -> N).

(** ** Parameters *)

Definition arg_name (owner : string) (i : nat) : string := "Fine.check." +:+ owner +:+ ".arg" +:+ to_string i.

(** The parameters of a check: constants of their types, one per position. *)
Definition parameters_ok (st : RuntimeState) (owner : string) (ps : list CheckParameter) : Prop :=
  forall i p, ps !! i = Some p -> exists rt, type_heap st !! cp_type p = Some rt /\
    check_type_ok (cp_type p) rt = true /\ cp_term p = constant (arg_name owner i) (rt_sort rt).

Definition env_of (env : Environment) (ps : list CheckParameter) : Prop :=
  forall n te, env !! n = Some te -> exists p, p ∈ ps /\ te = mkTyped (cp_type p) (cp_term p).

Lemma grows_parameters st st' owner ps : grows st st' -> parameters_ok st owner ps -> parameters_ok st' owner ps.
Proof. intros Hg Hp i p Hi. destruct (Hp i p Hi) as (rt & ? & ?). exists rt. split; [by eapply grows_type|done]. Qed.

Lemma env_of_typed st owner env ps : parameters_ok st owner ps -> env_of env ps -> env_typed st env.
Proof.
  intros Hp He n te Hn. destruct (He n te Hn) as (p & [i Hi]%list_elem_of_lookup & ->).
  destruct (Hp i p Hi) as (rt & ? & _ & Et). exists rt. split; [done|]. simpl. by rewrite Et, sort_constant.
Qed.

Lemma safe_check_parameters owner ps i env acc st :
  runtime_ok st -> parameters_ok st owner acc -> env_of env acc -> i = length acc ->
  safe (check_parameters_loop owner i ps env acc) st (fun r st' =>
    keeps st st' /\ parameters_ok st' owner r.2 /\ env_of r.1 r.2 /\
    cp_name <$> r.2 = (cp_name <$> acc) ++ (parameter_name <$> ps)).
Proof.
  revert i env acc st. induction ps as [|p ps IH]; intros i env acc st Hok Hacc Henv Hi; simpl.
  { apply safe_ret. split_and!; [by apply keeps_refl|done..|by rewrite app_nil_r]. }
  apply safe_bind. eapply safe_mono; [by apply safe_resolve_type|]. intros ty st1 (K1 & rt & Hty).
  pose proof K1 as [Hok1 Hg1]. eapply safe_type; [done|].
  destruct (check_type_ok ty rt) eqn:Ek; [|done]. simpl. destruct (env !! parameter_name p) eqn:En; [done|].
  eapply safe_mono; [apply IH; [done| | |]|].
  - intros j q [Hj|[Hj Hq]]%lookup_app_Some; [by eapply grows_parameters|].
    apply list_lookup_singleton_Some in Hq as [Ej <-]. exists rt. split_and!; [done..|]. simpl. unfold arg_name.
    by replace j with i by lia.
  - intros n te [[<- <-]|[_ Hn]]%lookup_insert_Some.
    + eexists. split; [apply elem_of_app; right; by apply list_elem_of_singleton|done].
    + destruct (Henv n te Hn) as (q & Hq & ->). exists q. split; [|done]. apply elem_of_app. by left.
  - rewrite length_app. simpl. lia.
  - intros r st2 (K2 & Hp2 & He2 & En2). split_and!; [by eapply keeps_trans|done..|].
    rewrite En2, fmap_app, <- app_assoc. done.
Qed.

(** ** Conditions *)

(** Every uninterpreted constant of [t] is a parameter. *)
Definition closed (ps : list CheckParameter) (t : Term) : Prop :=
  forall c, symbolic c -> occurs c t = true -> c ∈ cp_term <$> ps.

Lemma within_closed st owner env ps t : parameters_ok st owner ps -> env_of env ps -> within env t -> closed ps t.
Proof.
  intros Hp He Hw c Hc Ho. destruct (Hw c Hc Ho) as (n & te & Hn & Ht). destruct (He n te Hn) as (p & Hin & ->).
  apply list_elem_of_fmap. exists p. split; [|done]. apply list_elem_of_lookup in Hin as [i Hi].
  destruct (Hp i p Hi) as (rt & _ & _ & Et). simpl in Ht. rewrite Et in *. by apply occurs_constant in Ht.
Qed.

Lemma safe_conjoin_scoped message env conditions result st :
  runtime_ok st -> env_typed st env -> forallb source_form conditions = true -> get_sort result = bool_sort ->
  within env result ->
  safe (conjoin term_to_string term_ast_id message env conditions result) st
    (fun t st' => keeps st st' /\ get_sort t = bool_sort /\ within env t).
Proof.
  revert result st. induction conditions as [|c cs IH]; intros result st Hok He Hf Hr Hw; simpl.
  { apply safe_ret. split; [by apply keeps_refl|done]. }
  simpl in Hf. apply andb_true_iff in Hf as [Hc Hf]. apply safe_bind. eapply safe_mono; [by apply elaborate_scoped|].
  intros te st1 (K1 & (rt & Hrt & Ht) & Hwt). pose proof K1 as [Hok1 Hg1]. unfold same.
  destruct (Nat.eqb_spec (te_type te) bool_type_) as [E|]; [|done]. simpl.
  destruct (op_typed ZAnd [result; te_expression te] bool_sort) as (t & Hop & Hs).
  { simpl. rewrite Hr, Ht. rewrite E, (ok_bool _ Hok1) in Hrt. simplify_eq. by rewrite decide_True. }
  eapply safe_z3; [exact Hop|]. eapply safe_mono; [apply IH; [done|by eapply grows_env|done|done|]|].
  { eapply within_op; [exact Hop|]. by repeat constructor. }
  intros u st2 (K2 & ? & ?). split_and!; [by eapply keeps_trans|done..].
Qed.

(** What the statement of a check is made of. *)
Definition statement_ok (st : RuntimeState) (d : CheckDecl) (ps : list CheckParameter) (a g : Term) : Prop :=
  parameters_ok st (check_name d) ps /\ cp_name <$> ps = parameter_name <$> check_parameters d /\
  get_sort a = bool_sort /\ get_sort g = bool_sort /\ closed ps a /\ closed ps g.

Definition conditions_form (d : CheckDecl) : Prop :=
  forallb source_form (check_assumes d) = true /\ forallb source_form (check_ensures d) = true.

Lemma safe_check_statement d st :
  runtime_ok st -> conditions_form d ->
  safe (check_statement term_to_string term_ast_id d) st (fun r st' =>
    keeps st st' /\ statement_ok st' d r.1.1 r.1.2 r.2).
Proof.
  intros Hok [Ha Hg]. unfold check_statement. apply safe_bind. eapply safe_mono.
  { apply (safe_check_parameters (check_name d) _ 0 ∅ []); [done|..]; [intros i p Hi|intros n te Hn|]; done. }
  intros [env ps] st1 (K1 & Hp & He & En). simpl in Hp, He, En. pose proof K1 as [Hok1 _]. apply safe_bind.
  eapply safe_mono; [by apply safe_rain|]. intros ? st2 K2; simpl in K2. pose proof K2 as [Hok2 Hg2]. apply safe_modify; [done|].
  set (st3 := set_capture _ _ _). assert (K3 : keeps st2 st3) by (by apply set_capture_keeps).
  pose proof K3 as [Hok3 Hg3]. assert (Hp3 : parameters_ok st3 (check_name d) ps).
  { eapply grows_parameters; [exact Hg3|]. by eapply grows_parameters. }
  assert (Htrue : within env (bool_val true)) by (intros c Hc; by rewrite occurs_bool_val).
  apply safe_bind. eapply safe_mono.
  { apply safe_conjoin_scoped; [done|by eapply env_of_typed|done|apply sort_bool_val|done]. }
  intros t4 st4 (K4 & Sa & Wa). pose proof K4 as [Hok4 Hg4].
  assert (Hp4 : parameters_ok st4 (check_name d) ps) by (by eapply grows_parameters).
  apply safe_bind. eapply safe_mono.
  { apply safe_conjoin_scoped; [done|by eapply env_of_typed|done|apply sort_bool_val|done]. }
  intros t5 st5 (K5 & Sg & Wg). pose proof K5 as [Hok5 Hg5]. apply safe_modify; [done|]. apply safe_ret.
  assert (Hp5 : parameters_ok st5 (check_name d) ps) by (by eapply grows_parameters).
  pose proof (set_capture_keeps false [] st5 Hok5) as K6. split; [eauto 10 using keeps_trans|].
  split_and!; [by eapply grows_parameters; [apply K6|]|done..| |]; by eapply within_closed.
Qed.
End Statement.

(** ** Induction *)

Section Induction.
Context `{HD : Z3Data} {HA : Z3Api} {HX : Z3Exprs} {HB : Z3Build} {HBL : Z3BuildLaws} {HM : Z3Meaning}
  {HML : Z3MeaningLaws} {HBM : Z3BuildMeaning}.
Context (term_to_string : Term -> string) (term_ast_id : Term -> N).

Definition field_name (owner case : string) (i : nat) : string :=
  "Fine.check." +:+ owner +:+ ".case." +:+ case +:+ ".field" +:+ to_string i.
Definition ih_name (owner case : string) (field i : nat) : string :=
  "Fine.check." +:+ owner +:+ ".ih." +:+ case +:+ ".field" +:+ to_string field +:+ ".arg" +:+ to_string i.

Lemma arg_name_inj owner i j : arg_name owner i = arg_name owner j -> i = j.
Proof. intros E. do 3 apply append_inv_head in E. by apply to_string_inj. Qed.
Lemma field_name_inj owner case i j : field_name owner case i = field_name owner case j -> i = j.
Proof. intros E. do 5 apply append_inv_head in E. by apply to_string_inj. Qed.
Lemma ih_name_inj owner case field i j : ih_name owner case field i = ih_name owner case field j -> i = j.
Proof. intros E. do 7 apply append_inv_head in E. by apply to_string_inj. Qed.
Lemma arg_not_field owner i case j : arg_name owner i <> field_name owner case j.
Proof. intros E. do 2 apply append_inv_head in E. done. Qed.
Lemma field_not_ih owner case i case' field j : field_name owner case i <> ih_name owner case' field j.
Proof. intros E. do 2 apply append_inv_head in E. done. Qed.

(** The induction variable among the parameters, and what is proved of it. *)
Record context_ok (st : RuntimeState) (c : InductionContext) (rt : RuntimeType) : Prop := {
  co_parameters : parameters_ok st (ic_name c) (ic_parameters c);
  co_found : ic_parameters c !! ic_index c = Some (ic_found c);
  co_type : type_heap st !! cp_type (ic_found c) = Some rt;
  co_sort : get_sort (ic_theorem c) = bool_sort;
  co_closed : closed (ic_parameters c) (ic_theorem c)
}.

Lemma grows_induction st st' c rt : grows st st' -> context_ok st c rt -> context_ok st' c rt.
Proof. intros Hg []. split; eauto using grows_parameters, grows_type. Qed.

Lemma parameter_terms st owner ps i p :
  parameters_ok st owner ps -> ps !! i = Some p -> cp_term p = constant (arg_name owner i) (get_sort (cp_term p)).
Proof. intros Hp Hi. destruct (Hp i p Hi) as (rt & _ & _ & E). by rewrite E at 2; rewrite sort_constant. Qed.

(** *** The generalized parameters *)

Fixpoint general_pairs (c : InductionContext) (case : string) (field i : nat) (ps : list CheckParameter)
    : list (Term * Term) :=
  match ps with
  | [] => []
  | p :: ps' =>
      if i =? ic_index c then general_pairs c case field (S i) ps'
      else (cp_term p, constant (ih_name (ic_name c) case field i) (get_sort (cp_term p))) ::
           general_pairs c case field (S i) ps'
  end.

Lemma safe_generalize c case field i ps st :
  (forall j p, ps !! j = Some p -> exists rt, type_heap st !! cp_type p = Some rt /\ get_sort (cp_term p) = rt_sort rt) ->
  safe (generalize c case field i ps) st (fun g st' => st' = st /\ g = general_pairs c case field i ps).
Proof.
  revert i. induction ps as [|p ps IH]; intros i Hp; simpl; [by apply safe_ret|].
  assert (Hps : forall j q, ps !! j = Some q -> exists rt, type_heap st !! cp_type q = Some rt /\ get_sort (cp_term q) = rt_sort rt)
    by (intros j; apply (Hp (S j))).
  destruct (i =? ic_index c); [by apply IH|]. destruct (Hp 0 p eq_refl) as (rt & Hrt & Hs).
  eapply safe_type; [exact Hrt|]. apply safe_bind. eapply safe_mono; [by apply IH|].
  intros g st' [-> ->]. apply safe_ret. split; [done|]. by rewrite Hs.
Qed.

Lemma general_pair c case field i ps x y :
  (x, y) ∈ general_pairs c case field i ps -> exists j p, ps !! j = Some p /\ i + j <> ic_index c /\
    x = cp_term p /\ y = constant (ih_name (ic_name c) case field (i + j)) (get_sort (cp_term p)).
Proof.
  revert i. induction ps as [|p ps IH]; intros i; simpl; [by intros ?%elem_of_nil|].
  destruct (Nat.eqb_spec i (ic_index c)).
  - intros (j & q & ? & ? & ? & ?)%IH. exists (S j), q. rewrite <- Nat.add_succ_comm. done.
  - intros [[= -> ->]|Hin]%elem_of_cons; [exists 0, p; by rewrite Nat.add_0_r|].
    apply IH in Hin as (j & q & ? & ? & ? & ?). exists (S j), q. rewrite <- Nat.add_succ_comm. done.
Qed.

Lemma general_sorts c case field i ps :
  get_sort <$> (general_pairs c case field i ps).*1 = get_sort <$> (general_pairs c case field i ps).*2.
Proof.
  revert i. induction ps as [|p ps IH]; intros i; simpl; [done|]. destruct (i =? ic_index c); [apply IH|].
  simpl. by rewrite sort_constant, IH.
Qed.

Lemma general_nodup c case field i ps :
  NoDup (general_pairs c case field i ps).*2.
Proof.
  revert i. induction ps as [|p ps IH]; intros i; simpl; [constructor|]. destruct (i =? ic_index c); [apply IH|].
  simpl. constructor; [|apply IH]. intros ([x y] & Ey & Hin)%list_elem_of_fmap. simpl in Ey. subst y.
  apply general_pair in Hin as (j & q & _ & _ & _ & E%constant_name%ih_name_inj). lia.
Qed.

(** The source terms of the substitution: distinct parameters. *)
Lemma general_sources st c rt case field :
  context_ok st c rt ->
  NoDup (cp_term (ic_found c) :: (general_pairs c case field 0 (ic_parameters c)).*1) /\
  Forall symbolic (cp_term (ic_found c) :: (general_pairs c case field 0 (ic_parameters c)).*1).
Proof.
  intros [Hp Hf _ _ _].
  assert (Hterm : forall j p, ic_parameters c !! j = Some p -> exists s, cp_term p = constant (arg_name (ic_name c) j) s).
  { intros j p Hj. eexists. by eapply parameter_terms. }
  assert (Hin : forall i ps x, (forall j p, ps !! j = Some p -> exists s, cp_term p = constant (arg_name (ic_name c) (i + j)) s) ->
    x ∈ (general_pairs c case field i ps).*1 -> exists j s, i <= j /\ j <> ic_index c /\ x = constant (arg_name (ic_name c) j) s).
  { intros i ps x Hps ([x' y] & -> & Hx)%list_elem_of_fmap. apply general_pair in Hx as (j & p & Hj & Hne & -> & _).
    destruct (Hps j p Hj) as [s Es]. exists (i + j), s. split; [lia|done]. }
  assert (Hnd : forall i ps, (forall j p, ps !! j = Some p -> exists s, cp_term p = constant (arg_name (ic_name c) (i + j)) s) ->
    NoDup (general_pairs c case field i ps).*1).
  { intros i ps. revert i. induction ps as [|p ps IH]; intros i Hps; simpl; [constructor|].
    assert (Hps' : forall j q, ps !! j = Some q -> exists s, cp_term q = constant (arg_name (ic_name c) (S i + j)) s).
    { intros j q Hj. replace (S i + j) with (i + S j) by lia. by apply Hps. }
    destruct (i =? ic_index c); [by apply IH|]. simpl. constructor; [|by apply IH].
    intros (j & s & Hle & _ & E)%Hin; [|done]. destruct (Hps 0 p eq_refl) as [s' Es]. rewrite Es in E.
    apply constant_name, arg_name_inj in E. lia. }
  split.
  - constructor; [|by apply Hnd]. intros (j & s & _ & Hne & E)%Hin; [|done]. destruct (Hterm _ _ Hf) as [s' Es].
    rewrite Es in E. apply constant_name, arg_name_inj in E. lia.
  - constructor; [destruct (Hterm _ _ Hf) as [s ->]; apply constant_symbolic|].
    apply Forall_forall. intros x (j & s & _ & _ & ->)%Hin; [apply constant_symbolic|done].
Qed.

(** *** One hypothesis *)

(** The theorem holds whenever the induction variable has the value [v]. *)
Definition holds_at (w : World) (c : InductionContext) (v : Value) : Prop :=
  forall e, env_ok e -> e (cp_term (ic_found c)) = v -> holds w e (ic_theorem c).

Lemma substituted_env st c rt case field f w e :
  context_ok st c rt -> symbolic f -> get_sort f = rt_sort rt -> env_ok e ->
  let g := general_pairs c case field 0 (ic_parameters c) in
  holds_at w c (e f) ->
  holds w e (expr_substitute (ic_theorem c) (cp_term (ic_found c) :: g.*1) (f :: g.*2)).
Proof.
  intros Hc Hf Hs He g Hat. destruct (general_sources st c rt case field Hc) as [Hnd Hsym]. fold g in Hnd, Hsym.
  assert (Hlen : length (cp_term (ic_found c) :: g.*1) = length (f :: g.*2)) by (simpl; by rewrite !length_fmap).
  assert (Hsym2 : Forall symbolic (f :: g.*2)).
  { constructor; [done|]. apply Forall_forall. intros y ([x y'] & -> & Hin)%list_elem_of_fmap.
    apply general_pair in Hin as (j & p & _ & _ & _ & ->). apply constant_symbolic. }
  unfold holds. rewrite eval_substitute, eval_fmap_symbolic by done. apply Hat.
  - apply env_ok_assign; [done|]. destruct Hc as [Hp Hfound Hty _ _]. constructor.
    + rewrite (He f Hf), Hs. destruct (Hp _ _ Hfound) as (rt' & Hrt & _ & ->). rewrite sort_constant. congruence.
    + pose proof (general_sorts c case field 0 (ic_parameters c)) as Es. fold g in Es.
      apply Forall_cons in Hsym2 as [_ Hsym2]. clear -He Es Hsym2. induction g as [|[x y] g IH]; simpl in *; [constructor|].
      apply Forall_cons in Hsym2 as [Hy Hsym2]. injection Es as E Es. constructor; [|by apply IH]. by rewrite (He y Hy), E.
  - eapply (assign_lookup _ _ _ 0); done.
Qed.

Lemma safe_induction_hypothesis st c rt case field f :
  context_ok st c rt -> symbolic f -> get_sort f = rt_sort rt -> f ∉ (general_pairs c case field 0 (ic_parameters c)).*2 ->
  safe (induction_hypothesis c case field f) st (fun h st' => st' = st /\ get_sort h = bool_sort /\
    forall w e, env_ok e -> holds_at w c (e f) -> holds w e h).
Proof.
  intros Hc Hf Hs Hfresh. pose proof Hc as [Hp Hfound Hty Hsort Hclosed]. unfold induction_hypothesis. apply safe_bind.
  eapply safe_mono; [apply safe_generalize|].
  { intros j p Hj. destruct (Hp j p Hj) as (prt & ? & _ & ->). exists prt. split; [done|apply sort_constant]. }
  intros g st' [-> ->]. set (g := general_pairs _ _ _ _ _) in *.
  assert (Hsub : get_sort (expr_substitute (ic_theorem c) (cp_term (ic_found c) :: g.*1) (f :: g.*2)) = bool_sort).
  { rewrite sort_substitute; [done|]. simpl. f_equal; [|apply general_sorts]. rewrite Hs.
    destruct (Hp _ _ Hfound) as (prt & ? & _ & ->). rewrite sort_constant. congruence. }
  case_bool_decide as Hg.
  - apply safe_ret. split_and!; [done..|]. intros w e He Hat. by eapply substituted_env.
  - destruct (forall_typed ("fine.induction." +:+ ic_name c +:+ "." +:+ case +:+ ".field" +:+ to_string field) g.*2
      (expr_substitute (ic_theorem c) (cp_term (ic_found c) :: g.*1) (f :: g.*2))) as (t & Ht & Hst);
      [done|by destruct g|]. rewrite Ht. apply safe_ret. split_and!; [done..|]. intros w e He Hat.
    eapply holds_forall; [exact Ht| |apply general_nodup|].
    + apply Forall_forall. intros y ([x y'] & -> & Hin)%list_elem_of_fmap.
      apply general_pair in Hin as (j & p & _ & _ & _ & ->). apply constant_symbolic.
    + intros vs Hvs. eapply substituted_env; [done..|by apply env_ok_assign|]. by rewrite assign_other.
Qed.

(** *** The hypotheses of a branch *)

Definition fields_ok (st : RuntimeState) (c : InductionContext) (case : string) (i : nat) (types : list TypePtr)
    (fields : list Term) : Prop :=
  length types = length fields /\
  forall j p f, types !! j = Some p -> fields !! j = Some f -> exists rt, type_heap st !! p = Some rt /\
    f = constant (field_name (ic_name c) case (i + j)) (rt_sort rt).

Lemma safe_field_constants owner case i types rts st :
  typed_as st types rts ->
  safe (field_constants owner case i types) st (fun fields st' => st' = st /\
    fields = imap (fun j rt => constant (field_name owner case (i + j)) (rt_sort rt)) rts).
Proof.
  intros Hr. revert i. induction Hr as [|p rt types rts Hp Hr IH]; intros i; simpl; [by apply safe_ret|].
  eapply safe_type; [exact Hp|]. apply safe_bind. eapply safe_mono; [apply IH|]. intros fields st' [-> ->].
  apply safe_ret. split; [done|]. rewrite Nat.add_0_r. f_equal. apply imap_ext. intros j x _. simpl.
  by rewrite Nat.add_succ_r.
Qed.

Lemma safe_field_hypotheses st c rt case i types fields acc :
  runtime_ok st -> context_ok st c rt -> fields_ok st c case i types fields ->
  get_sort (h_branch acc) = bool_sort -> get_sort (h_all acc) = bool_sort ->
  safe (field_hypotheses term_to_string term_ast_id c case i types fields acc) st (fun hs st' => keeps st st' /\
    get_sort (h_branch hs) = bool_sort /\ get_sort (h_all hs) = bool_sort /\
    forall w e, env_ok e -> holds w e (h_branch acc) ->
      (forall j f, types !! j = Some (cp_type (ic_found c)) -> fields !! j = Some f -> holds_at w c (e f)) ->
      holds w e (h_branch hs)).
Proof.
  revert i fields acc st. induction types as [|p types IH]; intros i [|f fields] acc st Hok Hc [Hl Hf] Hb Ha; try done; simpl.
  assert (Hf' : forall st', grows st st' -> fields_ok st' c case (S i) types fields).
  { intros st' Hg. split; [by injection Hl|]. intros j q x Hq Hx. destruct (Hf (S j) q x Hq Hx) as (qt & ? & ->).
    exists qt. split; [by eapply grows_type|]. by rewrite Nat.add_succ_comm. }
  unfold same. destruct (Nat.eqb_spec p (cp_type (ic_found c))) as [->|Hne]; simpl.
  - destruct (Hf 0 _ f eq_refl eq_refl) as (frt & Hfrt & Ef). rewrite (co_type _ _ _ Hc) in Hfrt. injection Hfrt as <-.
    apply safe_bind. eapply safe_mono.
    { apply (safe_induction_hypothesis st c rt case i f Hc).
      - subst f. apply constant_symbolic.
      - subst f. apply sort_constant.
      - intros ([x y] & -> & Hin)%list_elem_of_fmap. apply general_pair in Hin as (j & q & _ & _ & _ & E). simpl in Ef.
        rewrite Ef in E. by apply constant_name, field_not_ih in E. }
    intros h st' (-> & Hh & Hsem).
    destruct (op_typed ZAnd [h_branch acc; h] bool_sort) as (b & Hop & Hbs); [simpl; rewrite Hb, Hh; by rewrite decide_True|].
    destruct (op_typed ZAnd [h_all acc; h] bool_sort) as (al & Hop' & Has); [simpl; rewrite Ha, Hh; by rewrite decide_True|].
    eapply safe_z3; [exact Hop|]. eapply safe_z3; [exact Hop'|]. apply safe_bind. eapply safe_mono; [by apply safe_rain|].
    intros ? st1 K1. simpl in K1. pose proof K1 as [Hok1 Hg1]. eapply safe_mono.
    { apply IH; [done|by eapply grows_induction|by apply Hf'|done|done]. }
    intros hs st2 (K2 & ? & ? & Hs2). split_and!; [by eapply keeps_trans|done..|]. intros w e He Hacc Hat.
    apply Hs2; [done| |intros j x; apply (Hat (S j))]. simpl. apply (holds_and _ _ _ _ _ Hop). split; [done|].
    apply Hsem; [done|]. by apply (Hat 0).
  - eapply safe_mono; [apply IH; [done|done|by apply Hf'|done|done]|]. intros hs st2 (K2 & ? & ? & Hs2). split_and!; [done..|].
    intros w e He Hacc Hat. apply Hs2; [done..|]. intros j x. apply (Hat (S j)).
Qed.

(** *** One constructor *)

(** The induction step for the values one constructor builds. *)
Definition case_sound (w : World) (c : InductionContext) (item : DatatypeCaseInfo) : Prop :=
  forall vs, Forall2 (fun s v => value_sort v = s) (decl_domain (dc_constructor item)) vs ->
    (forall j v, dc_field_types item !! j = Some (cp_type (ic_found c)) -> vs !! j = Some v -> holds_at w c v) ->
    holds_at w c (apply_decl w (dc_constructor item) vs).

Definition fresh_fields (c : InductionContext) (case : string) (rts : list RuntimeType) : list Term :=
  imap (fun j rt => constant (field_name (ic_name c) case (0 + j)) (rt_sort rt)) rts.

Lemma fresh_field c case rts x :
  x ∈ fresh_fields c case rts -> exists j rt, rts !! j = Some rt /\ x = constant (field_name (ic_name c) case j) (rt_sort rt).
Proof.
  intros [j Hj]%list_elem_of_lookup. unfold fresh_fields in Hj. rewrite list_lookup_imap in Hj.
  destruct (rts !! j) as [rt|] eqn:E; [|done]. injection Hj as <-. by exists j, rt.
Qed.

Lemma fresh_fields_nodup c case rts : NoDup (fresh_fields c case rts).
Proof.
  apply NoDup_alt. intros i j x Hi Hj. unfold fresh_fields in *. rewrite list_lookup_imap in Hi, Hj.
  destruct (rts !! i), (rts !! j); try done. simpl in *. simplify_eq.
  match goal with E : constant _ _ = constant _ _ |- _ => by apply constant_name, field_name_inj in E end.
Qed.

Lemma fresh_fields_parameters st c rt case rts p :
  context_ok st c rt -> p ∈ ic_parameters c -> cp_term p ∉ fresh_fields c case rts.
Proof.
  intros Hc [i Hi]%list_elem_of_lookup (j & frt & _ & E)%fresh_field.
  rewrite (parameter_terms _ _ _ _ _ (co_parameters _ _ _ Hc) Hi) in E. by apply constant_name, arg_not_field in E.
Qed.

(** A branch that holds under every environment is the induction step of its constructor. *)
Lemma branch_sound st c rt item rts guard hs inner step w :
  context_ok st c rt -> typed_as st (dc_field_types item) rts -> interpreted (dc_constructor item) ->
  decl_domain (dc_constructor item) = rt_sort <$> rts ->
  let fields := fresh_fields c (dc_name item) rts in
  z3_op ZEq [cp_term (ic_found c); App (dc_constructor item) fields] = Some guard ->
  z3_op ZImplies [hs; ic_theorem c] = Some inner -> z3_op ZImplies [guard; inner] = Some step ->
  (forall e, env_ok e ->
     (forall j f, dc_field_types item !! j = Some (cp_type (ic_found c)) -> fields !! j = Some f -> holds_at w c (e f)) ->
     holds w e hs) ->
  (forall e, env_ok e -> holds w e step) -> case_sound w c item.
Proof.
  intros Hc Htyped Hint Hdom fields Hguard Hinner Hstep Hhs Hall vs Hvs Hat e He Hfound.
  assert (Hlen : length fields = length vs).
  { apply Forall2_length in Hvs. unfold fields, fresh_fields. rewrite length_imap, <- Hvs, Hdom. by rewrite length_fmap. }
  set (e1 := assign e fields vs).
  assert (He1 : env_ok e1).
  { apply env_ok_assign; [done|]. apply Forall2_same_length_lookup. split; [done|]. intros j x v Hx Hv.
    unfold fields, fresh_fields in Hx. rewrite list_lookup_imap in Hx. destruct (rts !! j) as [frt|] eqn:Er; [|done].
    injection Hx as <-. rewrite sort_constant. eapply Forall2_lookup_lr in Hvs; [exact Hvs| |done].
    by rewrite Hdom, list_lookup_fmap, Er. }
  assert (Hsym : Forall symbolic fields).
  { apply Forall_forall. intros x (j & frt & _ & ->)%fresh_field. apply constant_symbolic. }
  assert (Hkeep : forall p, p ∈ ic_parameters c -> e1 (cp_term p) = e (cp_term p)).
  { intros p Hp. apply assign_other. by eapply fresh_fields_parameters. }
  assert (Hin : ic_found c ∈ ic_parameters c) by (eapply list_elem_of_lookup_2, Hc).
  assert (Hf1 : symbolic (cp_term (ic_found c))).
  { rewrite (parameter_terms _ _ _ _ _ (co_parameters _ _ _ Hc) (co_found _ _ _ Hc)). apply constant_symbolic. }
  assert (Htheorem : holds w e1 (ic_theorem c)).
  { pose proof (Hall e1 He1) as Hst. rewrite (holds_implication _ _ _ _ _ Hstep) in Hst.
    rewrite (holds_implication _ _ _ _ _ Hinner) in Hst. apply Hst.
    - apply (holds_equation _ _ _ _ _ Hguard). rewrite eval_symbolic, eval_app, eval_fmap_symbolic by done.
      rewrite Hkeep, Hfound by done. f_equal. symmetry. apply assign_fmap; [apply fresh_fields_nodup|done].
    - apply Hhs; [done|]. intros j f Hj Hf.
      destruct (lookup_lt_is_Some_2 vs j) as [v Hv]; [rewrite <- Hlen; by eapply lookup_lt_Some|].
      unfold e1. erewrite assign_lookup; [by eapply Hat|apply fresh_fields_nodup|exact Hf|exact Hv]. }
  unfold holds in *. rewrite <- Htheorem. apply eval_agree. intros x Hx Ho.
  apply (co_closed _ _ _ Hc) in Ho as (p & -> & Hp)%list_elem_of_fmap; [|done]. symmetry. by apply Hkeep.
Qed.

Lemma safe_induction_cases st c rt cases ah ab n :
  runtime_ok st -> context_ok st c rt ->
  Forall (fun item => exists rts, typed_as st (dc_field_types item) rts /\ interpreted (dc_constructor item) /\
    decl_domain (dc_constructor item) = rt_sort <$> rts /\ decl_range (dc_constructor item) = rt_sort rt) cases ->
  get_sort ah = bool_sort -> get_sort ab = bool_sort ->
  safe (induction_cases term_to_string term_ast_id c cases ah ab n) st (fun r st' => keeps st st' /\
    get_sort r.1.1 = bool_sort /\ get_sort r.1.2 = bool_sort /\
    forall w, (forall e, env_ok e -> holds w e r.1.2) ->
      (forall e, env_ok e -> holds w e ab) /\ Forall (case_sound w c) cases).
Proof.
  revert ah ab n st. induction cases as [|item cases IH]; intros ah ab n st Hok Hc Hcases Hah Hab; simpl.
  { apply safe_ret. split_and!; [by apply keeps_refl|done..|]. intros w Hw. split; [done|constructor]. }
  apply Forall_cons in Hcases as [(rts & Hr & Hint & Hdom & Hran) Hcases]. apply safe_bind.
  eapply safe_mono; [by apply safe_field_constants|]. intros fields st' [-> Ef].
  change (imap _ _) with (fresh_fields c (dc_name item) rts) in Ef. subst fields. set (fields := fresh_fields _ _ _).
  assert (Hsorts : get_sort <$> fields = decl_domain (dc_constructor item)).
  { rewrite Hdom. unfold fields, fresh_fields. apply list_eq. intros j. rewrite !list_lookup_fmap, list_lookup_imap.
    destruct (rts !! j); simpl; [by rewrite sort_constant|done]. }
  eapply safe_z3; [by apply mk_app_typed|].
  assert (Hfs : get_sort (cp_term (ic_found c)) = rt_sort rt).
  { destruct (co_parameters _ _ _ Hc _ _ (co_found _ _ _ Hc)) as (prt & Hp & _ & ->). rewrite sort_constant.
    rewrite (co_type _ _ _ Hc) in Hp. congruence. }
  destruct (op_typed ZEq [cp_term (ic_found c); App (dc_constructor item) fields] bool_sort) as (guard & Hguard & Sg).
  { simpl. rewrite sort_app, Hran, Hfs. by rewrite decide_True. }
  eapply safe_z3; [exact Hguard|]. apply safe_bind. eapply safe_mono.
  { apply (safe_field_hypotheses st c rt); [done|done| |apply sort_bool_val|done]. split.
    - unfold fields, fresh_fields. rewrite length_imap. by eapply Forall2_length.
    - intros j p f Hp Hf. unfold fields, fresh_fields in Hf. rewrite list_lookup_imap in Hf.
      destruct (rts !! j) as [frt|] eqn:Er; [|done]. injection Hf as <-. exists frt. split; [|done].
      eapply Forall2_lookup_lr in Hr; [exact Hr|done|done]. }
  intros hs st1 (K1 & Sb & Sa & Hhs). pose proof K1 as [Hok1 Hg1]. pose proof (co_sort _ _ _ Hc) as St.
  destruct (op_typed ZImplies [h_branch hs; ic_theorem c] bool_sort) as (inner & Hinner & Si);
    [simpl; by rewrite Sb, St, decide_True|]. eapply safe_z3; [exact Hinner|].
  destruct (op_typed ZImplies [guard; inner] bool_sort) as (step & Hstep & Ss);
    [simpl; by rewrite Sg, Si, decide_True|]. eapply safe_z3; [exact Hstep|].
  destruct (op_typed ZAnd [ab; step] bool_sort) as (all & Hand & Sall); [simpl; by rewrite Hab, Ss, decide_True|].
  eapply safe_z3; [exact Hand|]. apply safe_bind. eapply safe_mono; [by apply safe_rain|]. intros ? st2 K2. simpl in K2.
  pose proof K2 as [Hok2 Hg2]. assert (K12 : keeps st st2) by (by eapply keeps_trans). pose proof K12 as [_ Hg12].
  eapply safe_mono.
  { apply IH; [done|by eapply grows_induction| |done|done]. eapply Forall_impl; [exact Hcases|].
    intros it (irts & ? & ? & ? & ?). exists irts. split; [by eapply grows_typed_as|done]. }
  intros r st3 (K3 & ? & ? & Hsem). split_and!; [by eapply keeps_trans|done..|]. intros w Hw.
  destruct (Hsem w Hw) as [Hall Hcs]. split.
  - intros e He. by apply (holds_and _ _ _ _ _ Hand), Hall.
  - constructor; [|done]. eapply branch_sound; [done..| |].
    + intros e He Hat. apply Hhs; [done|apply holds_true|done].
    + intros e He. by apply (holds_and _ _ _ _ _ Hand), Hall.
Qed.

(** *** The whole induction *)

Definition induction_form (d : CheckDecl) : Prop := is_Some (check_induction_parameter d) -> is_Some (check_induction_span d).

Lemma safe_induction_reject {A} d message st (Q : A -> RuntimeState -> Prop) :
  is_Some (check_induction_span d) -> safe (induction_reject d message) st Q.
Proof. intros [sp Hsp]. unfold induction_reject. by eapply safe_deref. Qed.

(** The branches imply the theorem: structural induction on the parameter. *)
Lemma induction_sound st c rt dp info w :
  runtime_ok st -> context_ok st c rt -> rt_kind rt = KDatatype -> rt_datatype rt = Some dp ->
  datatype_heap st !! dp = Some info -> Forall (case_sound w c) (di_cases info) ->
  forall e, env_ok e -> holds w e (ic_theorem c).
Proof.
  intros Hok Hc Hk Hdp Hd Hcases e He.
  destruct (datatype_type_ptr _ _ _ Hok (co_type _ _ _ Hc) Hk) as (dp' & info' & E1 & E2 & Ety). simplify_eq.
  destruct (ok_datatypes _ Hok _ _ Hd) as (rt' & Hrt' & _ & _ & _ & (_ & n & specs & Hmk) & Hwf).
  rewrite Ety, (co_type _ _ _ Hc) in Hrt'. injection Hrt' as <-.
  enough (forall v, value_sort v = rt_sort rt -> holds_at w c v) as Hind.
  { eapply Hind; [|done|done]. rewrite He.
    - destruct (co_parameters _ _ _ Hc _ _ (co_found _ _ _ Hc)) as (prt & Hp & _ & ->). rewrite sort_constant.
      rewrite (co_type _ _ _ Hc) in Hp. congruence.
    - rewrite (parameter_terms _ _ _ _ _ (co_parameters _ _ _ Hc) (co_found _ _ _ Hc)). apply constant_symbolic. }
  apply (datatype_induction n specs (rt_sort rt) _ w _ Hmk). intros d vs Hin Hvs Hrec. rewrite <- list_fmap_compose in Hin.
  apply list_elem_of_fmap in Hin as (item & -> & Hitem). rewrite Forall_forall in Hcases. apply (Hcases item Hitem vs Hvs).
  intros j v Hj Hv. apply (Hrec j v); [|done]. apply list_elem_of_lookup in Hitem as [i Hi].
  simpl. destruct (Hwf i item Hi) as (_ & rts & Hr & _ & -> & _). rewrite list_lookup_fmap.
  destruct (Forall2_lookup_l _ _ _ _ _ Hr Hj) as (frt & Hfrt & Hty). rewrite Hfrt. simpl.
  rewrite (co_type _ _ _ Hc) in Hty. congruence.
Qed.

Lemma safe_check_induction d id ps theorem st :
  runtime_ok st -> induction_form d -> parameters_ok st (check_name d) ps -> get_sort theorem = bool_sort -> closed ps theorem ->
  safe (check_induction term_to_string term_ast_id d id (run_scope d) ps theorem) st (fun r st' => keeps st st' /\
    get_sort r.1 = bool_sort /\ get_sort r.2 = bool_sort /\
    forall w, (forall e, env_ok e -> holds w e r.2) -> forall e, env_ok e -> holds w e theorem).
Proof.
  intros Hok Hform Hp Hs Hcl. unfold check_induction. unfold induction_form in Hform.
  destruct (check_induction_parameter d) as [parameter|].
  2:{ apply safe_ret. split_and!; [by apply keeps_refl|apply sort_bool_val|done|done]. }
  destruct (list_find _ ps) as [[index found]|] eqn:Ef; [|apply safe_induction_reject; eauto].
  apply list_find_Some in Ef as (Hf & _ & _). destruct (Hp index found Hf) as (rt & Hrt & _ & _).
  eapply safe_type; [exact Hrt|]. destruct (bool_decide_reflect (rt_kind rt = KDatatype)) as [Hk|];
    [simpl|apply safe_induction_reject; eauto].
  destruct (datatype_type_ptr _ _ _ Hok Hrt Hk) as (dp & info & Hdp & Hd & Ety).
  eapply safe_deref; [exact Hdp|]. eapply safe_datatype; [exact Hd|]. set (c := mkInductionContext _ _ _ _ _ _).
  assert (Hc : context_ok st c rt) by (by split).
  apply safe_bind. eapply safe_mono.
  { apply (safe_induction_cases st c rt); [done|done| |apply sort_bool_val|apply sort_bool_val].
    destruct (ok_datatypes _ Hok _ _ Hd) as (rt' & Hrt' & _ & _ & _ & _ & Hwf). rewrite Ety in Hrt'. simplify_eq.
    apply Forall_forall. intros item [i Hi]%list_elem_of_lookup. destruct (Hwf i item Hi) as (_ & rts & ? & ? & ? & ? & _).
    by exists rts. }
  intros [[h step] n] st1 (K1 & Sh & Ss & Hsem). simpl in *. pose proof K1 as [Hok1 Hg1].
  destruct (n =? 0); [apply safe_induction_reject; eauto|]. apply safe_bind. eapply safe_mono; [by apply safe_rain|].
  intros ? st2 K2. simpl in K2. apply safe_ret. split_and!; [by eapply keeps_trans|done..|]. intros w Hw.
  destruct (Hsem w Hw) as [_ Hcases]. by eapply (induction_sound st c).
Qed.

(** C10. The obligation of an induction proves the theorem: for a check whose
    statement is closed over its parameters, [check_induction] builds, without a
    Z3 exception, a Boolean term (the conjunction over the constructors of the
    branch theorems, under the hypotheses for the direct recursive fields,
    generalized over the other parameters) such that in every world where it
    holds under all environments, the theorem holds under all environments.
    Without [inducts] the obligation is the theorem itself. *)
Theorem induction_obligation_sound (d : CheckDecl) (id : nat) (ps : list CheckParameter) (theorem : Term)
    (st : RuntimeState) :
  runtime_ok st -> induction_form d -> parameters_ok st (check_name d) ps -> get_sort theorem = bool_sort ->
  closed ps theorem ->
  safe (check_induction term_to_string term_ast_id d id (run_scope d) ps theorem) st (fun r st' =>
    runtime_ok st' /\ get_sort r.2 = bool_sort /\
    forall w, (forall e, env_ok e -> holds w e r.2) -> forall e, env_ok e -> holds w e theorem).
Proof.
  intros. eapply safe_mono; [by apply safe_check_induction|]. by intros r st' ([? ?] & _ & ? & ?).
Qed.
End Induction.

(** ** The query *)

Section Query.
Context `{HD : Z3Data} {HA : Z3Api} {HX : Z3Exprs} {HB : Z3Build} {HBL : Z3BuildLaws} {HM : Z3Meaning}
  {HML : Z3MeaningLaws} {HBM : Z3BuildMeaning} {HS : Z3Solver} {HSL : Z3SolverLaws} {HC : Z3Check} {HCL : Z3CheckLaws}.
Context (term_to_string : Term -> string) (term_ast_id : Term -> N).

(** True under every interpretation. *)
Definition valid (t : Term) : Prop := forall w e, env_ok e -> holds w e t.

(** The admitted proofs are theorems. *)
Definition proofs_valid (st : RuntimeState) : Prop := Forall (fun p => valid (ap_theorem p)) (admitted_proofs_ st).

Lemma safe_observe_all o events st :
  runtime_ok st -> safe (observe_all term_to_string term_ast_id o events) st (fun _ st' => keeps st st').
Proof.
  revert st. induction events as [|e events IH]; intros st Hok; simpl; [by apply safe_ret, keeps_refl|].
  apply safe_bind. eapply safe_mono.
  { destruct e; simpl; by apply safe_rain. }
  intros ? st1 K1. simpl in K1. pose proof K1 as [Hok1 _]. eapply safe_mono; [by apply IH|]. intros. by eapply keeps_trans.
Qed.

Lemma safe_add_proofs d proofs s f st :
  runtime_ok st -> frames s = [f] ->
  safe (add_proofs term_to_string term_ast_id d proofs s) st (fun s' st' =>
    keeps st st' /\ frames s' = [f ++ (ap_theorem <$> proofs)]).
Proof.
  revert s f st. induction proofs as [|p proofs IH]; intros s f st Hok Hf; simpl.
  { apply safe_ret. split; [by apply keeps_refl|]. by rewrite app_nil_r. }
  apply safe_bind. eapply safe_mono; [by apply safe_rain|]. intros ? st1 K1. simpl in K1. pose proof K1 as [Hok1 _].
  eapply safe_mono; [apply IH; [done|by apply frames_add]|]. intros s' st2 [K2 Es]. split; [by eapply keeps_trans|].
  by rewrite Es, <- app_assoc.
Qed.

(** An unsatisfiable query refutes its assertion under the admitted proofs. *)
Lemma safe_run_query d assertion st :
  runtime_ok st -> proofs_valid st ->
  safe (run_query term_to_string term_ast_id d assertion) st (fun r st' => keeps st st' /\
    (r.1 = unsat -> forall w e, env_ok e -> ~ holds w e assertion)).
Proof.
  intros Hok Hvalid. unfold run_query. apply safe_gets. apply safe_bind. eapply safe_mono.
  { apply (safe_add_proofs d _ _ []); [done|]. destruct (inducts d); [rewrite frames_set|]; apply frames_mk. }
  intros s st1 [K1 Es]. simpl in Es. pose proof K1 as [Hok1 _]. apply safe_bind.
  eapply safe_mono with (Q := fun _ st' => keeps st1 st').
  { destruct (inducts d); [by apply safe_observe_all|by apply safe_ret, keeps_refl]. }
  intros _ st2 K2. pose proof K2 as [Hok2 _]. destruct (s_check (s_add s assertion) []) as [r s'] eqn:Ec.
  apply safe_bind. eapply safe_mono; [by apply safe_rain|]. intros ? st3 K3. simpl in K3. apply safe_ret.
  split; [eauto using keeps_trans|]. simpl. intros -> w e He Hh.
  apply (check_unsat (s_add s assertion) [] w e); [by rewrite Ec|done| |constructor].
  erewrite frames_add by exact Es. simpl. rewrite app_nil_r. apply Forall_app. split; [|by constructor].
  apply Forall_fmap. eapply Forall_impl; [exact Hvalid|]. intros p Hp. by apply Hp.
Qed.
End Query.
