(* ===== verification/CheckSound.v ===== *)
(** * A verified check is a theorem

    Reporting a counterexample admits nothing; verifying a check whose query
    is unsatisfiable makes its theorem valid, and what a reusable proof admits
    stays valid, so that the assumptions of later queries are theorems. *)

From stdpp Require Import gmap.
From S2P Require Import Prelude Format Syntax Lexer Printer Parser ParserSpec Source Z3Ast Z3Solver Z3Build Z3Check Z3Fixedpoint Lift Recorder Observers Runtime Elaborate Declare Values Check RuntimeSpec ElaborateSpec DeclareSpec EnumSpec FunctionSpec CheckSpec.
From Stdlib Require Import NArith.

(** ** What only reads or records *)

Section Frames.
Context `{Z3Build} (term_to_string : Term -> string) (term_ast_id : Term -> N).

Lemma framed_at {A} (m : RtM A) st a st' : framed m -> m st = (Ok a, st') -> frame st st'.
Proof. intros Hf E. specialize (Hf st) as [Hf _]. by rewrite E in Hf. Qed.
Lemma framed_fixedpoint {A} (m : RtM A) st a st' : framed m -> m st = (Ok a, st') -> fixedpoint_ st' = fixedpoint_ st.
Proof. intros Hf E. specialize (Hf st) as [_ Hf]. by rewrite E in Hf. Qed.

Lemma framed_rain {A} (m : RecM A) : framed (rain m).
Proof. intros st. unfold rain. destruct (rainfall_ st) as [r|]; [|done]. by destruct (m r) as [[a|e|] r']. Qed.

Lemma framed_z3 {A} call (o : option A) : framed (z3_call call o).
Proof. destruct o; [apply framed_ret|apply framed_throw]. Qed.

Lemma framed_the_enum p : framed (the_enum p).
Proof. apply framed_bind; [apply framed_gets|intros; apply framed_deref]. Qed.
Lemma framed_the_datatype p : framed (the_datatype p).
Proof. apply framed_bind; [apply framed_gets|intros; apply framed_deref]. Qed.

Hint Resolve framed_ret framed_throw framed_gets framed_deref framed_the_type framed_rain framed_z3 framed_the_enum
  framed_the_datatype framed_tuple_type framed_resolve_type : frame.

Ltac framed :=
  unfold reject in *;
  repeat first [ solve [auto with frame] | apply framed_bind; [|intros ?] | case_match ].

Lemma framed_completed source p t : framed (completed_expression term_to_string term_ast_id source p t).
Proof. unfold completed_expression. framed. Qed.
Hint Resolve framed_completed : frame.

Lemma framed_elaborate env e : framed (elaborate_expression term_to_string term_ast_id env e).
Proof.
  revert env. induction e as [k sp n b i op es id IH] using Expr_nested_ind. intros env.
  assert (Hargs : forall callee i types, framed ((fix arguments (callee : Callee) (i : nat) (es : list Expr)
      (types : list TypePtr) : RtM (list Term) :=
      match es, types with
      | e :: es', p :: types' =>
          argument ← elaborate_expression term_to_string term_ast_id env e;
          if negb (same (te_type argument) p)
          then t ← the_type p; reject (span e) (callee_mismatch callee i (rt_display t))
          else rest ← arguments callee (S i) es' types'; mret (te_expression argument :: rest)
      | _, _ => mret []
      end) callee i es types)).
  { intros callee. induction IH as [|x es Hx _ IHes]; intros j [|p types]; [apply framed_ret..|].
    apply framed_bind; [apply Hx|intros ?]. case_match; [framed|]. apply framed_bind; [apply IHes|intros ?]. framed. }
  destruct k; simpl.
  - unfold elaborate_name. framed.
  - framed.
  - framed.
  - destruct es as [|x [|y [|]]]; try apply framed_throw. apply Forall_cons in IH as [Hx [Hy _]%Forall_cons].
    apply framed_bind; [apply Hx|intros ?]. apply framed_bind; [apply Hy|intros ?]. framed.
  - apply framed_bind; [unfold find_callee; framed|intros callee]. case_match; [framed|].
    apply framed_bind; [apply Hargs|intros ?]. framed.
  - destruct es as [|x [|y [|]]]; try apply framed_throw. apply Forall_cons in IH as [Hx [Hy _]%Forall_cons].
    apply framed_bind; [apply Hx|intros ?]. apply framed_bind; [apply Hy|intros ?]. unfold elaborate_binary. framed.
  - destruct es as [|x [|y [|z [|]]]]; try apply framed_throw.
    apply Forall_cons in IH as [Hx [Hy [Hz _]%Forall_cons]%Forall_cons].
    apply framed_bind; [apply Hx|intros ?]. apply framed_bind; [apply Hy|intros ?].
    apply framed_bind; [apply Hz|intros ?]. unfold elaborate_conditional. framed.
  - apply framed_throw.
Qed.

Lemma framed_lift t p : framed (lift_typed_expression t p).
Proof.
  revert p. induction t as [v s|d l IH|i s|k w q s bs ps ns b _ _ _] using Term_nested_ind; intros p; simpl;
    unfold lift_typed_boolean, lift_typed_integer, lift_typed_enum; try solve [framed].
  assert (Hf : forall types, framed ((fix fields (l : list Term) (types : list TypePtr) : RtM (list Expr) :=
      match l, types with
      | x :: l', p :: types' => e ← lift_typed_expression x p; es ← fields l' types'; mret (e :: es)
      | _, _ => mret []
      end) l types)).
  { clear p. induction IH as [|x l Hx _ IHl]; intros [|p types]; [apply framed_ret..|].
    apply framed_bind; [apply Hx|intros ?]. apply framed_bind; [apply IHl|intros ?]. apply framed_ret. }
  apply framed_bind; [apply framed_the_type|intros rt]. destruct (rt_kind rt); try solve [framed].
  - apply framed_bind; [apply framed_deref|intros ?]. destruct l as [|x [|y [|]]]; try apply framed_throw.
    apply Forall_cons in IH as [Hx [Hy _]%Forall_cons]. case_match; [apply framed_throw|].
    apply framed_bind; [apply framed_deref|intros ?]. apply framed_bind; [apply framed_deref|intros ?].
    apply framed_bind; [apply Hx|intros ?]. apply framed_bind; [apply Hy|intros ?]. apply framed_ret.
Qed.
Hint Resolve framed_elaborate framed_lift : frame.

Context {HS : Z3Solver}.

Lemma framed_assignments d model ps : framed (assignments term_to_string term_ast_id d model ps).
Proof. induction ps as [|p ps IH]; simpl; framed. Qed.

Lemma framed_check_entries ps entries values :
  framed (check_entries term_to_string term_ast_id ps entries values).
Proof. revert entries values. induction ps as [|p ps IH]; intros [|x entries] [|v values]; simpl; framed. Qed.
Hint Resolve framed_assignments framed_check_entries : frame.

Lemma framed_refuted d ps model : framed (refuted term_to_string term_ast_id d ps model).
Proof.
  unfold refuted. apply framed_bind; [apply framed_assignments|intros [values entries]].
  apply framed_bind; [|intros ?; framed]. unfold parse_witness. case_match; [framed..|]. by intros st.
Qed.
End Frames.

(** ** Results of an operation *)

Section Yields.
Context `{Z3Build}.

(** What holds when [m] returns. *)
Definition yields {A} (m : RtM A) (st : RuntimeState) (Q : A -> RuntimeState -> Prop) : Prop :=
  forall a st', m st = (Ok a, st') -> Q a st'.

Lemma yields_bind {A B} (m : RtM A) (k : A -> RtM B) st Q :
  (forall a st1, m st = (Ok a, st1) -> yields (k a) st1 Q) -> yields (m ≫= k) st Q.
Proof.
  intros Hk b st'. unfold mbind, RtM_bind. destruct (m st) as [[a|e|] st1] eqn:E; [|done..]. by apply Hk.
Qed.

Lemma yields_reject {A} sp m st (Q : A -> RuntimeState -> Prop) : yields (reject sp m) st Q.
Proof. by intros a st'. Qed.

Lemma safe_yields {A} (m : RtM A) st Q a st' : safe m st Q -> m st = (Ok a, st') -> Q a st'.
Proof. unfold safe. intros Hs E. rewrite E in Hs. by destruct Hs. Qed.
End Yields.

Section Sound.
Context `{HD : Z3Data} {HA : Z3Api} {HX : Z3Exprs} {HB : Z3Build} {HBL : Z3BuildLaws} {HM : Z3Meaning}
  {HML : Z3MeaningLaws} {HBM : Z3BuildMeaning} {HS : Z3Solver} {HSL : Z3SolverLaws} {HC : Z3Check} {HCL : Z3CheckLaws}.
Context {HF : Z3Fixedpoint} (term_to_string : Term -> string) (term_ast_id : Term -> N).

Definition check_form (d : CheckDecl) : Prop := conditions_form d /\ induction_form d.

Lemma reserve_value_name_Ok n sp st a st' : reserve_value_name n sp st = (Ok a, st') -> st' = add_value_name n st.
Proof. unfold reserve_value_name, gets, mbind, RtM_bind. simpl. destruct (decide _); by intros [= <- <-]. Qed.

Lemma grows_valid st st' : grows st st' -> proofs_valid st -> proofs_valid st'.
Proof. intros Hg. unfold proofs_valid. by rewrite (g_proofs _ _ Hg). Qed.

(** A theorem over the parameters, closed universally, is valid. *)
Lemma closure_valid st owner ps qid theorem t :
  parameters_ok st owner ps -> valid theorem -> mk_forall_const qid (cp_term <$> ps) theorem = Some t -> valid t.
Proof.
  intros Hp Hv Ht w e He.
  assert (Hterm : forall i p, ps !! i = Some p -> cp_term p = constant (arg_name owner i) (get_sort (cp_term p))).
  { intros i p Hi. by eapply parameter_terms. }
  eapply holds_forall; [exact Ht| | |].
  - apply Forall_fmap, Forall_lookup. intros i p Hi. simpl. rewrite (Hterm i p Hi). apply constant_symbolic.
  - apply NoDup_alt. intros i j x Hi Hj. rewrite list_lookup_fmap in Hi, Hj.
    destruct (ps !! i) as [p|] eqn:Ep, (ps !! j) as [q|] eqn:Eq; try done. simpl in *. simplify_eq.
    match goal with E : cp_term _ = cp_term _ |- _ => rewrite (Hterm i p Ep), (Hterm j q Eq) in E;
      by apply constant_name, arg_name_inj in E end.
  - intros vs Hvs. apply Hv. by apply env_ok_assign.
Qed.

Lemma add_proof_ok p st : runtime_ok st -> runtime_ok (add_proof p st).
Proof.
  intros Hok. split; try apply Hok. intros q rt Hq. destruct (ok_types _ Hok q rt Hq);
    [by apply wf_bool|by apply wf_int|by eapply wf_enum|by eapply wf_datatype|by eapply wf_tuple|by eapply wf_table].
Qed.

(** The names of the proofs a check admits when it is verified. *)
Definition admits (d : CheckDecl) : list string := if check_reusable d then [check_name d] else [].
Definition proof_names (st : RuntimeState) : list string := ap_name <$> admitted_proofs_ st.

(** What a proved check leaves besides its proof. *)
Definition unchanged (st st' : RuntimeState) : Prop :=
  runtime_ok st' /\ predicates_ st' = predicates_ st /\ (views_form st -> views_form st').

Lemma unchanged_trans a b c : unchanged a b -> unchanged b c -> unchanged a c.
Proof. intros (? & E1 & ?) (? & E2 & ?). split_and!; [done|by rewrite E2|auto]. Qed.

Lemma keeps_unchanged st st' : keeps st st' -> unchanged st st'.
Proof. intros [Hok G]. split_and!; [done|symmetry; apply G|apply G]. Qed.

Lemma yields_admit st owner d ps theorem :
  runtime_ok st -> parameters_ok st owner ps -> proofs_valid st -> valid theorem ->
  yields (admit_proof term_to_string term_ast_id d ps theorem) st (fun _ st' =>
    unchanged st st' /\ proofs_valid st' /\ proof_names st' = proof_names st ++ admits d).
Proof.
  intros Hok Hp Hv Ht. unfold admit_proof, admits. destruct (check_reusable d).
  - apply yields_bind. intros t st1 E1. destruct (mk_forall_const _ _ _) as [u|] eqn:Et; [|done].
    injection E1 as -> <-. apply yields_bind. intros [] st2 [= <-]. intros [] st' E. set (st2 := add_proof _ _) in *.
    assert (Hok2 : runtime_ok st2) by (by apply add_proof_ok). pose proof (safe_yields _ _ _ _ _ (safe_rain _ _ Hok2) E) as K.
    split; [exact (keeps_unchanged _ _ K)|]. destruct K as [_ G]. unfold proofs_valid, proof_names.
    rewrite <- (g_proofs _ _ G). unfold st2. simpl. rewrite fmap_app, Forall_app, Forall_singleton.
    split_and!; [exact Hv|by eapply closure_valid|done].
  - intros [] st' [= <-]. split; [by apply keeps_unchanged, keeps_refl|]. by rewrite app_nil_r.
Qed.

(** Verifying a check keeps the admitted proofs valid. *)
Lemma yields_verified st owner d ps theorem :
  runtime_ok st -> parameters_ok st owner ps -> proofs_valid st -> valid theorem ->
  yields (verified term_to_string term_ast_id d ps theorem) st (fun r st' => r = (0, verified_text d) /\
    unchanged st st' /\ proofs_valid st' /\ proof_names st' = proof_names st ++ admits d).
Proof.
  intros Hok Hp Hv Ht. unfold verified. apply yields_bind. intros [] st1 E1.
  destruct (yields_admit _ _ _ _ _ Hok Hp Hv Ht _ _ E1) as (U1 & Hv1 & En). pose proof U1 as (Hok1 & _).
  apply yields_bind. intros [] st2 E2. pose proof (safe_yields _ _ _ _ _ (safe_rain _ _ Hok1) E2) as K. simpl in K.
  intros r st' [= <- <-]. split; [done|]. split; [by eapply unchanged_trans, keeps_unchanged|]. destruct K as [_ G].
  unfold proofs_valid, proof_names in *. by rewrite <- (g_proofs _ _ G).
Qed.

Lemma refuted_not_verified d source : refuted_text d source <> verified_text d.
Proof. unfold refuted_text, verified_text. by destruct (check_reusable d). Qed.

Lemma refuted_answer st d ps model :
  yields (refuted term_to_string term_ast_id d ps model) st (fun r _ =>
    exists source, r = (if check_reusable d then 1 else 0, refuted_text d source)).
Proof.
  unfold refuted. apply yields_bind. intros [values entries] st1 _. apply yields_bind. intros doc st2 _.
  destruct (declarations doc) as [|item [|]]; [by intros ??| |by intros ??].
  destruct (declaration item); try by intros ??. case_match; [by intros ??|].
  apply yields_bind. intros ? st3 _. apply yields_bind. intros ? st4 _. intros r st' [= <- <-]. by eexists.
Qed.

(** The theorem a check states, and what its result says of it. *)
Definition check_result_ok (d : CheckDecl) (st : RuntimeState) (r : nat * string) (st' : RuntimeState) : Prop :=
  proofs_valid st' /\
  (r = (0, verified_text d) /\ unchanged st st' /\ proof_names st' = proof_names st ++ admits d \/
   (exists source, r = (if check_reusable d then 1 else 0, refuted_text d source)) /\ proof_names st' = proof_names st) /\
  exists ps a g st1 theorem, check_statement term_to_string term_ast_id d (add_value_name (check_name d) st) = (Ok (ps, a, g), st1) /\
    z3_op ZImplies [a; g] = Some theorem /\ (r.2 = verified_text d -> valid theorem).

Lemma execute_check_yields d id st :
  runtime_ok st -> proofs_valid st -> check_form d -> predicates_ st = ∅ ->
  yields (execute_check term_to_string term_ast_id d id) st (check_result_ok d st).
Proof.
  intros Hok Hv [Hcond Hind] Hpred. unfold execute_check. apply yields_bind. intros q st0 [= <- <-].
  rewrite bool_decide_eq_false_2 by (intros Hne; by apply Hne). destruct (check_predicate_induction d); [by intros ??|].
  apply yields_bind. intros [] st1 ->%reserve_value_name_Ok. pose proof (add_value_name_keeps (check_name d) st Hok) as K1.
  pose proof K1 as [Hok1 Hg1]. destruct (bool_decide _); [by intros ??|].
  apply yields_bind. intros [[ps a] g] st2 E2.
  destruct (safe_yields _ _ _ _ _ (safe_check_statement _ _ d _ Hok1 Hcond) E2) as (K2 & Hp & _ & Sa & Sg & Ca & Cg).
  simpl in *. pose proof K2 as [Hok2 Hg2]. apply yields_bind. intros theorem st3 E3.
  destruct (z3_op ZImplies [a; g]) as [t|] eqn:Et; [|done]. injection E3 as <- <-.
  assert (St : get_sort t = bool_sort).
  { destruct (op_typed ZImplies [a; g] bool_sort) as (t' & Ht' & ?); [simpl; by rewrite Sa, Sg, decide_True|congruence]. }
  assert (Ct : closed ps t).
  { intros c Hc Ho. apply (occurs_op c _ _ _ Hc Et) in Ho. apply Exists_cons in Ho as [Ho|Ho]; [by apply Ca|].
    apply Exists_cons in Ho as [Ho|Ho%Exists_nil]; [by apply Cg|done]. }
  apply yields_bind. intros [h step] st4 E4.
  destruct (safe_yields _ _ _ _ _ (safe_check_induction _ _ d id ps t _ Hok2 Hind Hp St Ct) E4) as (K4 & _ & Ss & Hstep).
  simpl in *. pose proof K4 as [Hok4 Hg4]. apply yields_bind. intros assertion st5 E5.
  destruct (z3_op ZNot [step]) as [n|] eqn:En; [|done]. injection E5 as <- <-.
  apply yields_bind. intros [] st6 E6.
  pose proof (safe_yields _ _ _ _ _ (safe_rain _ _ Hok4) E6) as K6. simpl in K6. pose proof K6 as [Hok6 Hg6].
  assert (Hv6 : proofs_valid st6) by eauto using grows_valid. apply yields_bind. intros [result s] st7 E7.
  destruct (safe_yields _ _ _ _ _ (safe_run_query _ _ d n _ Hok6 Hv6) E7) as (K7 & Hunsat). simpl in Hunsat.
  pose proof K7 as [Hok7 Hg7]. assert (Hv7 : proofs_valid st7) by eauto using grows_valid.
  assert (Hp7 : parameters_ok st7 (check_name d) ps) by eauto 6 using grows_parameters.
  assert (En7 : proof_names st7 = proof_names st).
  { unfold proof_names. by rewrite <- (g_proofs _ _ Hg7), <- (g_proofs _ _ Hg6), <- (g_proofs _ _ Hg4), <- (g_proofs _ _ Hg2). }
  destruct result.
  - intros r st' E. apply (framed_at _ _ _ _ (framed_refuted _ _ _ _ _)) in E as Hf.
    destruct (refuted_answer _ _ _ _ _ _ E) as [source Es]. split; [|split].
    + unfold proofs_valid. by rewrite (fr_proofs _ _ Hf).
    + right. split; [by exists source|]. rewrite <- En7. unfold proof_names. by rewrite (fr_proofs _ _ Hf).
    + exists ps, a, g, st2, t. split_and!; [done..|]. intros Er. rewrite Es in Er. by apply refuted_not_verified in Er.
  - assert (Ht : valid t).
    { intros w. apply Hstep. intros e He. destruct (holds_dec w e step) as [|Hn]; [done|].
      destruct (Hunsat eq_refl w e He). by apply (holds_negation _ _ _ _ En). }
    intros r st' E. destruct (yields_verified _ _ _ _ _ Hok7 Hp7 Hv7 Ht r st' E) as (-> & U & ? & Enames). split; [done|].
    split; [left; rewrite <- En7; split_and!; [done| |done]|].
    { do 5 (eapply unchanged_trans; [apply keeps_unchanged; eassumption|]). exact U. }
    by exists ps, a, g, st2, t.
  - apply yields_reject.
Qed.

(** C8. A verified check is a theorem: when [execute_check] returns, on a
    well-formed runtime whose admitted proofs are valid, either it printed
    `verified`, and then the implication from the assumptions to the guarantees
    holds in every interpretation, induction and the proofs used as assumptions
    included, a reusable proof was admitted, closed over its parameters, and the
    admitted proofs are still all valid; or it printed a refutation and admitted
    nothing. *)
Theorem check_sound (d : CheckDecl) (id : nat) (st st' : RuntimeState) (r : nat * string) :
  runtime_ok st -> proofs_valid st -> check_form d -> predicates_ st = ∅ ->
  execute_check term_to_string term_ast_id d id st = (Ok r, st') ->
  check_result_ok d st r st'.
Proof. intros Hok Hv Hf Hp. by apply execute_check_yields. Qed.
End Sound.
