(* ===== verification/SynthesizeSpec.v ===== *)
(** * What a synthesis returns is right

    [conjoin_holds]: a conjoined specification means all its conditions.
    [match_body_selects]: the conditionals over the recognizers pick the arm of
    the constructor a value was built with.  [synthesis_sound]: the program a
    synthesis prints, arm by arm for a match, makes every ensured condition
    true for every input, and is the very term that was verified. *)

From stdpp Require Import gmap.
From S2P Require Import Prelude Format Syntax Printer Parser Source Z3Ast Z3Solver Z3Build Z3Check Lift Recorder Observers Synthesis SynthesisSpec Runtime Elaborate Declare Values Synthesize RuntimeSpec ElaborateSpec DeclareSpec EnumSpec FunctionSpec CheckSpec CheckSound.
From Stdlib Require Import NArith.

Section Frames.
Context `{Z3Build} {HS : Z3Solver} (term_to_string : Term -> string) (term_ast_id : Term -> N) (fuel : nat).
Abbreviation elaborate := (elaborate_expression term_to_string term_ast_id).

(** In some state that extends [st], [e] elaborates to [t]. *)
Definition elaborates (st : RuntimeState) (env : Environment) (e : Expr) (t : TypedExpression) : Prop :=
  exists s s', frame st s /\ elaborate env e s = (Ok t, s').

Lemma elaborates_frame st st' env e t : frame st st' -> elaborates st' env e t -> elaborates st env e t.
Proof. intros Hf (s & s' & Hs & E). exists s, s'. split; [by etrans|done]. Qed.

Lemma framed_synthesize s : framed (synthesize term_to_string term_ast_id fuel s).
Proof. intros st. unfold synthesize. by destruct (run _ _ _ _ _) as [[]]. Qed.

Lemma framed_reparse source : framed (reparse source).
Proof. unfold reparse. destruct (parse_expression source); [apply framed_ret|apply framed_throw|by intros st]. Qed.

Lemma framed_lift_expression inputs t : framed (lift_expression inputs t).
Proof.
  induction t as [v s|d l IH|i s|k w q s bs ps ns b _ _ _] using Term_nested_ind; simpl;
    (destruct (list_find _ _) as [[? ?]|]; [apply framed_ret|]);
    try (destruct (_ || _)); try apply framed_ret; try apply framed_throw.
  destruct (decl_kind d); destruct l as [|x [|y [|z [|]]]]; try apply framed_throw; try apply framed_ret;
    repeat (apply Forall_cons in IH as [? IH]); repeat (apply framed_bind; [assumption|intros ?]); apply framed_ret.
Qed.

(** The accepted text parses to an expression that elaborates to the witness. *)
Lemma round_trip_yields where_ message inputs env type witness st :
  yields (round_trip term_to_string term_ast_id where_ message inputs env type witness) st (fun r st' =>
    frame st st' /\ r.2 = print_expression r.1 /\
    exists e, parse_expression r.2 = Ok e /\ elaborates st env e (mkTyped type witness)).
Proof.
  unfold round_trip. apply yields_bind. intros lifted st1 E1.
  apply (framed_at _ _ _ _ (framed_lift_expression _ _)) in E1 as F1.
  apply yields_bind. intros e st2 E2. apply (framed_at _ _ _ _ (framed_reparse _)) in E2 as F2.
  apply yields_bind. intros te st3 E3. apply (framed_at _ _ _ _ (framed_elaborate _ _ _ _)) in E3 as F3.
  destruct (_ || _) eqn:Eb; [by intros ? ?|]. apply orb_false_iff in Eb as [Et%negb_false_iff Ew%negb_false_iff].
  unfold same in Et. apply Nat.eqb_eq in Et. apply term_eqb_spec in Ew. intros r st' [= <- <-].
  assert (F : frame st st2) by (by etrans). simpl. split; [by etrans|]. split; [done|]. exists e. split.
  - unfold reparse in E2. destruct (parse_expression _); [|done..]. by injection E2 as -> _.
  - exists st2, st3. split; [done|]. rewrite E3. destruct te as [ty t]. simpl in *. by subst.
Qed.
End Frames.

Section Sound.
Context `{HD : Z3Data} {HA : Z3Api} {HX : Z3Exprs} {HB : Z3Build} {HBL : Z3BuildLaws} {HM : Z3Meaning}
  {HML : Z3MeaningLaws} {HBM : Z3BuildMeaning} {HS : Z3Solver} {HSL : Z3SolverLaws}.
Context (term_to_string : Term -> string) (term_ast_id : Term -> N) (fuel : nat).
Abbreviation elaborate := (elaborate_expression term_to_string term_ast_id).
Abbreviation elaborates := (elaborates term_to_string term_ast_id).

(** ** Specifications *)

(** The terms of Boolean conditions. *)
Definition conditions (st : RuntimeState) (env : Environment) (es : list Expr) (ts : list Term) : Prop :=
  Forall2 (fun e t => elaborates st env e (mkTyped bool_type_ t)) es ts.

Lemma conditions_frame st st' env es ts : frame st st' -> conditions st' env es ts -> conditions st env es ts.
Proof. intros Hf Hc. eapply Forall2_impl; [exact Hc|]. intros e t. by apply elaborates_frame. Qed.

Lemma conjoin_holds message env es acc st :
  yields (conjoin term_to_string term_ast_id message env es acc) st (fun t st' => frame st st' /\
    exists ts, conditions st env es ts /\ forall w e, holds w e t <-> holds w e acc /\ Forall (holds w e) ts).
Proof.
  revert acc st. induction es as [|x es IH]; intros acc st; cbn [conjoin].
  { intros t st' [= <- <-]. split; [done|]. exists []. split; [constructor|]. intros w e. rewrite Forall_nil. tauto. }
  apply yields_bind. intros [ty t] st1 E1. apply (framed_at _ _ _ _ (framed_elaborate _ _ _ _)) in E1 as F1.
  simpl. unfold same. destruct (Nat.eqb_spec ty bool_type_) as [->|]; [|by intros ? ?]. simpl.
  apply yields_bind. intros u st2 E2. destruct (z3_op _ _) as [u'|] eqn:Eu; [|done]. injection E2 as -> <-.
  intros r st' (F & ts & Hts & Hr)%IH. split; [by etrans|]. exists (t :: ts). split.
  - constructor; [by exists st, st1|]. by eapply conditions_frame.
  - intros w e. rewrite Hr, (holds_and w e _ _ _ Eu), Forall_cons. tauto.
Qed.

(** A specification that is valid at a term makes every condition hold there. *)
Lemma specification_conditions result t spec ts :
  symbolic result -> (forall w e, holds w e spec <-> holds w e (bool_val true) /\ Forall (holds w e) ts) ->
  (forall w e, env_ok e -> holds w e (expr_substitute spec [result] [t])) ->
  forall w e, env_ok e -> Forall (holds w (assign e [result] [eval w e t])) ts.
Proof.
  intros Hr Hspec Hv w e He. specialize (Hv w e He). unfold holds in Hv.
  rewrite eval_substitute in Hv; [|by repeat constructor|apply NoDup_singleton|done]. by apply Hspec in Hv as [_ ?].
Qed.

Lemma synthesize_yields s st :
  yields (synthesize term_to_string term_ast_id fuel s) st (fun r st' => frame st st' /\
    forall w e, env_ok e -> holds w e (specification_at s (r_witness r))).
Proof.
  intros r st' E. split; [by apply (framed_at _ _ _ _ (framed_synthesize _ _ _ _)) in E|].
  unfold synthesize in E. destruct (run _ _ _ _ _) as [[r'|e|] rf] eqn:Er; [|done..]. injection E as -> _.
  intros w e. by eapply run_verifies.
Qed.

(** ** Without a match *)

(** The environment of the specification. *)
Definition with_result (d : SynthDecl) (env : Environment) : Environment :=
  emplace "result" (mkTyped int_type_ (synth_result d)) env.

(** The state in which the declaration's name is taken. *)
Definition named_state (d : SynthDecl) (st : RuntimeState) : RuntimeState := add_value_name (synth_name d) st.

(** The program printed is an expression of the parameters that elaborates to
    a term at which every ensured condition holds, for all inputs. *)
Definition plain_result (d : SynthDecl) (st : RuntimeState) (r : nat * string) : Prop :=
  exists env named spec st1 ts result body e,
    synth_statement term_to_string term_ast_id d (named_state d st) = (Ok (int_type_, env, named, spec), st1) /\
    conditions (named_state d st) (with_result d env) (synth_ensures d) ts /\
    r = (0, source_program_text term_ast_id d result body) /\
    parse_expression body = Ok e /\
    elaborates (named_state d st) env e (mkTyped int_type_ (r_witness result)) /\
    forall w e, env_ok e -> Forall (holds w (assign e [synth_result d] [eval w e (r_witness result)])) ts.

Lemma framed_synth_parameters owner i ps env acc : framed (synth_parameters_loop owner i ps env acc).
Proof.
  revert i env acc. induction ps as [|p ps IH]; intros i env acc; cbn [synth_parameters_loop]; [apply framed_ret|].
  case_match; [apply framed_throw|]. apply framed_bind; [apply framed_resolve_type|intros ty].
  case_match; [apply framed_throw|]. case_match; [apply framed_throw|apply IH].
Qed.

Lemma synth_statement_yields d st :
  yields (synth_statement term_to_string term_ast_id d) st (fun '(ty, env, named, spec) st' => frame st st' /\
    ty = int_type_ /\ exists ts, conditions st (with_result d env) (synth_ensures d) ts /\
      forall w e, holds w e spec <-> holds w e (bool_val true) /\ Forall (holds w e) ts).
Proof.
  unfold synth_statement. apply yields_bind. intros ty st1 E1.
  apply (framed_at _ _ _ _ (framed_resolve_type _)) in E1 as F1. unfold same.
  destruct (Nat.eqb_spec ty int_type_) as [->|]; [|by intros ? ?]. simpl. case_match; [by intros ? ?|].
  apply yields_bind. intros [env named] st2 E2. apply (framed_at _ _ _ _ (framed_synth_parameters _ _ _ _ _)) in E2 as F2.
  apply yields_bind. intros spec st3 (F3 & ts & Hts & Hs)%conjoin_holds. intros r st' [= <- <-].
  assert (F : frame st st2) by (by etrans). split; [by etrans|]. split; [done|]. exists ts. split; [|done].
  by eapply conditions_frame.
Qed.

Lemma execute_plain_yields d st :
  yields (execute_plain_synthesis term_to_string term_ast_id fuel d) st (fun r _ => plain_result d st r).
Proof.
  unfold execute_plain_synthesis. apply yields_bind. intros [] st0 ->%reserve_value_name_Ok.
  apply yields_bind. intros [[[ty env] named] spec] st1 E1.
  destruct (synth_statement_yields _ _ _ _ E1) as (F1 & -> & ts & Hts & Hspec).
  apply yields_bind. intros result st2 (F2 & Hv)%synthesize_yields.
  apply yields_bind. intros [lifted body] st3 (_ & _ & e & He & Hel)%round_trip_yields.
  apply yields_bind. intros [] st4 _. intros r st' [= <- _]. simpl in He.
  exists env, named, spec, st1, ts, result, body, e. split_and!; try done.
  - eapply elaborates_frame; [|exact Hel]. by etrans.
  - apply (specification_conditions _ _ spec); [apply constant_symbolic|done|exact Hv].
Qed.

(** ** The match: its parameters *)

Definition match_parameter_ok (owner : string) (st : RuntimeState) (i : nat) (p : MatchParameter) : Prop :=
  exists rt, type_heap st !! mp_type p = Some rt /\ mp_term p = constant (synth_arg owner i) (rt_sort rt).

Lemma match_parameters_yields owner scrutinee ps i env acc found st :
  runtime_ok st -> length acc = i -> (forall j p, acc !! j = Some p -> match_parameter_ok owner st j p) ->
  yields (match_parameters_loop owner scrutinee i ps env acc found) st (fun r st' =>
    runtime_ok st' /\ frame st st' /\ forall j p, r.1.2 !! j = Some p -> match_parameter_ok owner st' j p).
Proof.
  revert i env acc found st. induction ps as [|p ps IH]; intros i env acc found st Hok Hl Hacc; cbn [match_parameters_loop].
  { by intros r st' [= <- <-]. }
  case_match; [by intros ? ?|]. apply yields_bind. intros ty st1 E1.
  apply (framed_at _ _ _ _ (framed_resolve_type _)) in E1 as F1.
  destruct (safe_yields _ _ _ _ _ (safe_resolve_type _ _ Hok) E1) as ([Hok1 Hg1] & rt & Hty).
  apply yields_bind. intros rt' st2 E2. unfold the_type, gets, mbind, RtM_bind in E2. rewrite Hty in E2.
  injection E2 as <- <-. case_match; [by intros ? ?|]. case_match; [by intros ? ?|].
  intros r st' E. apply IH in E as (Hok' & F' & Hr); [|done|rewrite length_app; simpl; lia|].
  - split; [done|]. split; [by etrans|done].
  - intros j q [Hj|[Hge Hj]]%lookup_app_Some.
    + destruct (Hacc j q Hj) as (qt & Hq & Eq). exists qt. split; [by eapply grows_type|done].
    + apply list_lookup_singleton_Some in Hj as [Ej <-]. exists rt. split; [done|]. simpl. f_equal. f_equal. lia.
Qed.

(** What the arms rely on, in the state [base] after the parameters. *)
Record match_ok (base : RuntimeState) (c : MatchContext) (rt : RuntimeType) (dp : DatatypePtr) : Prop := {
  mo_runtime : runtime_ok base;
  mo_type : type_heap base !! di_type (mc_datatype c) = Some rt;
  mo_datatype : datatype_heap base !! dp = Some (mc_datatype c);
  mo_term : exists i, mc_term c = constant (synth_arg (synth_name (mc_declaration c)) i) (rt_sort rt)
}.

Lemma match_statement_yields d scrutinee st :
  runtime_ok st ->
  yields (match_statement term_to_string term_ast_id d scrutinee) st (fun c st' => exists base rt dp ts,
    match_ok base c rt dp /\ frame st base /\ frame base st' /\ mc_declaration c = d /\ mc_result_type c = int_type_ /\
    conditions st (with_result d (mc_environment c)) (synth_ensures d) ts /\
    forall w e, holds w e (mc_specification c) <-> holds w e (bool_val true) /\ Forall (holds w e) ts).
Proof.
  intros Hok. unfold match_statement. apply yields_bind. intros ty st1 E1.
  apply (framed_at _ _ _ _ (framed_resolve_type _)) in E1 as F1.
  destruct (safe_yields _ _ _ _ _ (safe_resolve_type _ _ Hok) E1) as ([Hok1 Hg1] & _). unfold same.
  destruct (Nat.eqb_spec ty int_type_) as [->|]; [|by intros ? ?]. simpl. case_match; [by intros ? ?|].
  apply yields_bind. intros [[env ps] found] st2 (Hok2 & F2 & Hps)%match_parameters_yields; [|done..]. simpl in Hps.
  destruct found as [index|]; [|by intros ? ?]. apply yields_bind. intros m st3 E3.
  destruct (ps !! index) as [m'|] eqn:Em; [|done]. injection E3 as -> <-.
  destruct (Hps index m Em) as (rt & Hrt & Hterm). apply yields_bind. intros rt' st4 E4.
  unfold the_type, gets, mbind, RtM_bind in E4. rewrite Hrt in E4. injection E4 as <- <-.
  destruct (bool_decide_reflect (rt_kind rt = KDatatype)) as [Hk|]; [|by intros ? ?]. simpl.
  destruct (datatype_type_ptr _ _ _ Hok2 Hrt Hk) as (dp & info & Edp & Hinfo & Edt).
  apply yields_bind. intros spec st5 (F5 & ts & Hts & Hs)%conjoin_holds.
  apply yields_bind. intros dp' st6 E6. rewrite Edp in E6. injection E6 as <- <-.
  apply yields_bind. intros info' st7 E7. unfold the_datatype, gets, mbind, RtM_bind in E7.
  rewrite (fr_datatypes _ _ F5), Hinfo in E7. injection E7 as <- <-. intros c st' [= <- <-].
  assert (F : frame st st2) by (by etrans). exists st2, rt, dp, ts. split_and!; try done.
  - split; simpl; [done|by rewrite Edt|done|by exists index].
  - by eapply conditions_frame.
Qed.

(** ** The match: fields *)

Definition field_symbols (c : MatchContext) (constructor : string) (rts : list RuntimeType) : list Term :=
  imap (fun i rt => constant (arm_field_name c constructor i) (rt_sort rt)) rts.
Definition projections (c : MatchContext) (item : DatatypeCaseInfo) : list Term :=
  (fun a => App a [mc_term c]) <$> dc_accessors item.

Lemma field_symbols_symbolic c constructor rts : Forall symbolic (field_symbols c constructor rts).
Proof.
  apply Forall_lookup. intros i t. unfold field_symbols. rewrite list_lookup_imap.
  destruct (rts !! i); intros [= <-]. apply constant_symbolic.
Qed.

Lemma field_symbols_NoDup c constructor rts : NoDup (field_symbols c constructor rts).
Proof.
  apply NoDup_alt. intros i j t. unfold field_symbols. rewrite !list_lookup_imap.
  destruct (rts !! i), (rts !! j); try done. intros [= <-] [= E%constant_name]. unfold arm_field_name in E.
  repeat apply append_inv_head in E. by apply to_string_inj in E.
Qed.

Lemma typed_as_det st ps rts rts' : typed_as st ps rts -> typed_as st ps rts' -> rts = rts'.
Proof.
  intros Hr. revert rts'. induction Hr as [|p x ps xs Hp _ IH]; intros rts' Hr'; inversion Hr'; simplify_eq; [done|].
  f_equal; by apply IH.
Qed.

Lemma bind_fields_yields base c rt dp k item constructor rts i bs s st :
  match_ok base c rt dp -> frame base st -> case_wf base dp (rt_sort rt) k item ->
  typed_as base (dc_field_types item) rts -> i + length bs = length (dc_field_types item) ->
  as_fields s = firstn i (field_symbols c constructor rts) -> as_accessors s = firstn i (projections c item) ->
  yields (bind_fields c item constructor i bs s) st (fun s' st' => st' = st /\
    as_fields s' = field_symbols c constructor rts /\ as_accessors s' = projections c item).
Proof.
  intros Hc Hf (_ & rts' & Hr' & _ & _ & _ & _ & _ & Ha) Hr. assert (rts' = rts) as ->.
  { by eapply typed_as_det. }
  revert i s. induction bs as [|b bs IH]; intros i s Hl Ef Ea; cbn [bind_fields].
  - intros s' st' [= <- <-]. split; [done|]. rewrite Ef, Ea. simpl in Hl.
    pose proof (Forall2_length _ _ _ Hr). pose proof (Forall2_length _ _ _ Ha).
    split; apply take_ge; unfold field_symbols, projections; [rewrite length_imap|rewrite length_fmap]; lia.
  - simpl in Hl. destruct (lookup_lt_is_Some_2 (dc_field_types item) i) as [ty Hty]; [lia|].
    destruct (Forall2_lookup_l _ _ _ _ _ Hr Hty) as (frt & Hfrt & Hp).
    destruct (Forall2_lookup_l _ _ _ _ _ Ha Hfrt) as (a & Hacc & Hdom & _).
    apply yields_bind. intros ty' st1 E1. rewrite Hty in E1. injection E1 as <- <-.
    apply yields_bind. intros frt' st2 E2. unfold the_type, gets, mbind, RtM_bind in E2.
    rewrite (prefix_lookup_Some _ _ _ _ Hp (fr_heap _ _ Hf)) in E2. injection E2 as <- <-.
    apply yields_bind. intros a' st3 E3. rewrite Hacc in E3. injection E3 as <- <-.
    destruct (mo_term _ _ _ _ Hc) as [j Ej].
    apply yields_bind. intros u st4 E4. rewrite mk_app_typed in E4.
    2: { simpl. by rewrite Hdom, Ej, sort_constant. }
    injection E4 as <- <-.
    assert (Ef' : as_fields s ++ [constant (arm_field_name c constructor i) (rt_sort frt)] =
      firstn (S i) (field_symbols c constructor rts)).
    { rewrite Ef. symmetry. apply take_S_r. unfold field_symbols. by rewrite list_lookup_imap, Hfrt. }
    assert (Ea' : as_accessors s ++ [App a [mc_term c]] = firstn (S i) (projections c item)).
    { rewrite Ea. symmetry. apply take_S_r. unfold projections. by rewrite list_lookup_fmap, Hacc. }
    case_match; [apply IH; simpl; [lia|done|done]|]. case_match; [by intros ? ?|]. apply IH; simpl; [lia|done|done].
Qed.

(** ** The match: selecting an arm *)

Lemma match_body_selects branches st :
  yields (match_body branches) st (fun t _ => forall w e i b, branches !! i = Some b ->
    (forall j c, j < i -> branches !! j = Some c -> ~ holds w e c.1) -> holds w e b.1 -> eval w e t = eval w e b.2).
Proof.
  revert st. induction branches as [|b0 bs IH]; intros st; [by intros ? ?|]. destruct bs as [|b1 bs].
  { intros t st' [= <- <-] w e [|i] b; [|done]. by intros [= <-]. }
  change (match_body (b0 :: b1 :: bs)) with (body ← match_body (b1 :: bs); z3_call "ite" (z3_op ZIte [b0.1; b0.2; body])).
  apply yields_bind. intros body st1 Hbody%IH. intros t st' E w e i b Hi Hbefore Hb.
  destruct (z3_op _ _) as [u|] eqn:Eu; [|done]. injection E as -> _. destruct (eval_conditional w e _ _ _ _ Eu) as [Ht Hf].
  destruct i as [|i]; [injection Hi as ->; by apply Ht|].
  rewrite Hf by (by apply (Hbefore 0); [lia|]). apply (Hbody w e i b); [done| |done].
  intros j c Hj. apply (Hbefore (S j)). lia.
Qed.

(** A case of the matched datatype, with its fields. *)
Record case_at (base : RuntimeState) (c : MatchContext) (arm : MatchArm) (k : nat) (item : DatatypeCaseInfo)
    (rts : list RuntimeType) : Prop := {
  ca_item : di_cases (mc_datatype c) !! k = Some item;
  ca_name : dc_name item = arm_constructor arm;
  ca_fields : typed_as base (dc_field_types item) rts
}.

(** The matched value is built by the case's constructor from the values of the fields. *)
Definition built (c : MatchContext) (item : DatatypeCaseInfo) (fields : list Term) (w : World) (e : Env) : Prop :=
  e (mc_term c) = apply_decl w (dc_constructor item) (e <$> fields).

Section Arms.
Context (base : RuntimeState) (c : MatchContext) (rt : RuntimeType) (dp : DatatypePtr).
Context (Hc : match_ok base c rt dp).
Let fields_of (arm : MatchArm) := field_symbols c (arm_constructor arm).

Lemma datatype_ok :
  declared_datatype (rt_sort rt) (case_decls <$> di_cases (mc_datatype c)) /\
  forall i item, di_cases (mc_datatype c) !! i = Some item -> case_wf base dp (rt_sort rt) i item.
Proof.
  pose proof (ok_datatypes _ (mo_runtime _ _ _ _ Hc) _ _ (mo_datatype _ _ _ _ Hc)) as Hwf.
  destruct Hwf as (rt' & Hrt' & _ & _ & _ & Hd & Hcases). rewrite (mo_type _ _ _ _ Hc) in Hrt'.
  by injection Hrt' as <-.
Qed.

Lemma field_values arm k item rts e :
  case_at base c arm k item rts -> env_ok e ->
  Forall2 (fun r v => value_sort v = r) (decl_domain (dc_constructor item)) (e <$> fields_of arm rts).
Proof.
  intros [Hi _ Hr] He. destruct datatype_ok as (_ & Hcases).
  destruct (Hcases k item Hi) as (_ & rts' & Hr' & _ & -> & _). assert (rts' = rts) as ->.
  { by eapply typed_as_det. }
  apply Forall2_fmap_2, Forall2_lookup. intros i. unfold fields_of, field_symbols. rewrite list_lookup_imap.
  destruct (rts !! i) as [frt|]; constructor. rewrite He, sort_constant; [done|apply constant_symbolic].
Qed.

(** The recognizer of a case holds of what the case's constructor built, and no other. *)
Lemma recognizer_holds arm arm' k k' item item' rts rts' w e :
  case_at base c arm k item rts -> case_at base c arm' k' item' rts' -> env_ok e ->
  built c item (fields_of arm rts) w e ->
  (holds w e (App (dc_recognizer item') [mc_term c]) <-> k' = k).
Proof.
  intros Ha Ha' He Hb. destruct datatype_ok as ((Hn & n & specs & Hmk) & _).
  pose proof (datatype_interpreted _ _ _ _ Hmk) as Hint. rewrite Forall_lookup in Hint.
  destruct (Hint k' (case_decls item')) as [Hrec _]; [by rewrite list_lookup_fmap, (ca_item _ _ _ _ _ _ Ha')|].
  unfold holds. rewrite eval_app by done. simpl. rewrite eval_symbolic; [|destruct (mo_term _ _ _ _ Hc) as [i ->]; apply constant_symbolic].
  rewrite Hb. apply (datatype_recognizer n specs _ _ w k' k (case_decls item') (case_decls item) _ Hmk Hn).
  - by rewrite list_lookup_fmap, (ca_item _ _ _ _ _ _ Ha').
  - by rewrite list_lookup_fmap, (ca_item _ _ _ _ _ _ Ha).
  - by eapply field_values.
Qed.

(** Accessors for fields mean the fields. *)
Lemma projected_value arm k item rts t w e :
  case_at base c arm k item rts -> env_ok e -> built c item (fields_of arm rts) w e ->
  eval w e (expr_substitute t (fields_of arm rts) (projections c item)) = eval w e t.
Proof.
  intros Ha He Hb. destruct datatype_ok as ((Hn & n & specs & Hmk) & Hcases).
  pose proof (field_values _ _ _ _ e Ha He) as Hv. pose proof (ca_item _ _ _ _ _ _ Ha) as Hi.
  pose proof (datatype_interpreted _ _ _ _ Hmk) as Hint. rewrite Forall_lookup in Hint.
  destruct (Hint k (case_decls item)) as [_ Hacc]; [by rewrite list_lookup_fmap, Hi|]. simpl in Hacc.
  destruct (Hcases k item Hi) as (_ & rts' & Hr' & _ & Hdom & _ & _ & _ & Hal).
  assert (Hlen : length (fields_of arm rts) = length (projections c item)).
  { pose proof (Forall2_length _ _ _ Hv) as L1. pose proof (Forall2_length _ _ _ Hal) as L2.
    rewrite Hdom, !length_fmap in L1. unfold projections. rewrite length_fmap. unfold fields_of in *. lia. }
  rewrite eval_substitute; [|apply field_symbols_symbolic|apply field_symbols_NoDup|done].
  apply eval_agree. intros x Hx _. destruct (decide (x ∈ fields_of arm rts)) as [Hin|Hout]; [|by rewrite assign_other].
  apply list_elem_of_lookup in Hin as [j Hj].
  destruct (lookup_lt_is_Some_2 (dc_accessors item) j) as [a Hja].
  { unfold projections in Hlen. rewrite length_fmap in Hlen. rewrite <- Hlen. by eapply lookup_lt_Some. }
  eapply assign_lookup; [apply field_symbols_NoDup|exact Hj|]. rewrite list_lookup_fmap. unfold projections.
  rewrite list_lookup_fmap, Hja. simpl. f_equal. rewrite Forall_lookup in Hacc. rewrite eval_app by (by eapply Hacc). simpl.
  rewrite eval_symbolic; [|destruct (mo_term _ _ _ _ Hc) as [i ->]; apply constant_symbolic]. rewrite Hb.
  apply (datatype_accessor n specs _ _ w k (case_decls item) j a _ _ Hmk); [by rewrite list_lookup_fmap, Hi|done|done|].
  by rewrite list_lookup_fmap, Hj.
Qed.
End Arms.

(** What is printed for an arm, as an expression: a filled hole is read back
    from its text, a written arm is its own source. *)
Definition arm_program (arm : MatchArm) (v : ArmValue) (e : Expr) : Prop :=
  if is_hole (arm_value arm) then parse_expression (print_expression (av_surface v)) = Ok e
  else av_surface v = arm_value arm /\ e = arm_value arm.

(** The environment of an arm: the scrutinee stands for the constructed value. *)
Definition arm_environment (c : MatchContext) (item : DatatypeCaseInfo) (s : ArmScope) : Environment :=
  <[mc_scrutinee c := mkTyped (mc_type c) (App (dc_constructor item) (as_fields s))]> (as_environment s).

(** The scope and the program of an arm. *)
Definition arm_source (st : RuntimeState) (c : MatchContext) (arm : MatchArm) (item : DatatypeCaseInfo) (s : ArmScope)
    (v : ArmValue) : Prop :=
  exists st0 e, frame st st0 /\
    bind_fields c item (arm_constructor arm) 0 (arm_bindings arm) (initial_scope c) st0 = (Ok s, st0) /\
    arm_program arm v e /\ elaborates st (arm_environment c item s) e (mkTyped (mc_result_type c) (av_term v)).

Section Loop.
Context (base : RuntimeState) (c : MatchContext) (rt : RuntimeType) (dp : DatatypePtr).
Context (Hc : match_ok base c rt dp).

(** An arm that was accepted: its guard, and its value under the guard. *)
Definition arm_ok (st : RuntimeState) (arm : MatchArm) (b : Term * Term) (v : ArmValue) : Prop :=
  exists k item rts s, case_at base c arm k item rts /\ as_fields s = field_symbols c (arm_constructor arm) rts /\
    arm_source st c arm item s v /\ b.1 = App (dc_recognizer item) [mc_term c] /\
    forall w e, env_ok e -> built c item (as_fields s) w e -> eval w e b.2 = eval w e (av_term v).

Lemma arm_ok_frame st st' arm b v : frame st st' -> arm_ok st' arm b v -> arm_ok st arm b v.
Proof.
  intros Hf (k & item & rts & s & ? & ? & (st0 & x & F & ? & ? & ?) & ? & ?). exists k, item, rts, s. split_and!; try done.
  exists st0, x. split_and!; [by etrans|done..|by eapply elaborates_frame].
Qed.

Lemma framed_nested_hole x : framed (reject_nested_hole x).
Proof.
  induction x as [k sp n b i op es id IH] using Expr_nested_ind. simpl.
  apply framed_bind; [case_match; [apply framed_throw|apply framed_ret]|intros _].
  induction IH as [|y es Hy _ IHes]; [apply framed_ret|]. apply framed_bind; [done|by intros _].
Qed.

Lemma open_arm_yields arm s env spec seen st :
  is_hole (arm_value arm) = true ->
  yields (open_arm term_to_string term_ast_id fuel c arm s env spec seen) st (fun v st' => frame st st' /\
    exists e, arm_program arm v e /\ elaborates st env e (mkTyped (mc_result_type c) (av_term v))).
Proof.
  intros Hh. unfold open_arm. case_match; [by intros ? ?|]. apply yields_bind. intros [] st1 E1.
  apply (framed_at _ _ _ _ (framed_rain _)) in E1 as F1. apply yields_bind. intros r st2 (F2 & _)%synthesize_yields.
  apply yields_bind. intros [lifted body] st3 (F3 & Eb & e & He & Hel)%round_trip_yields. simpl in *.
  apply yields_bind. intros [] st4 E4. apply (framed_at _ _ _ _ (framed_rain _)) in E4 as F4.
  intros v st' [= <- <-]. assert (F : frame st st2) by (by etrans). split; [by do 2 (etrans; [eassumption|])|].
  exists e. split; [|by eapply elaborates_frame]. unfold arm_program. rewrite Hh. simpl. by rewrite <- Eb.
Qed.

Lemma written_arm_yields arm env st :
  is_hole (arm_value arm) = false ->
  yields (written_arm term_to_string term_ast_id c arm env) st (fun v st' => frame st st' /\
    exists e, arm_program arm v e /\ elaborates st env e (mkTyped (mc_result_type c) (av_term v))).
Proof.
  intros Hh. unfold written_arm. apply yields_bind. intros [] st1 E1.
  apply (framed_at _ _ _ _ (framed_nested_hole _)) in E1 as F1. apply yields_bind. intros [ty t] st2 E2.
  apply (framed_at _ _ _ _ (framed_elaborate _ _ _ _)) in E2 as F2. simpl. unfold same.
  destruct (Nat.eqb_spec ty (mc_result_type c)) as [->|]; [|simpl; apply yields_bind; by intros ? ? _ ? ?].
  intros v st' [= <- <-]. split; [by etrans|]. exists (arm_value arm). split; [|by exists st1, st2].
  unfold arm_program. by rewrite Hh.
Qed.

Lemma match_arm_yields cases holes arm st :
  frame base st ->
  yields (match_arm term_to_string term_ast_id fuel c cases holes arm) st (fun r st' =>
    frame st st' /\ arm_constructor arm ∉ cases /\ arm_ok st arm r.1 r.2).
Proof.
  intros Hf. unfold match_arm. destruct (list_find _ _) as [[k item]|] eqn:Ek; [|by intros ? ?].
  apply list_find_Some in Ek as (Hk & Hname & _). destruct (decide _) as [|Hseen]; [by intros ? ?|].
  destruct (Nat.eqb_spec (length (arm_bindings arm)) (length (dc_field_types item))) as [El|]; [|by intros ? ?]. simpl.
  destruct (datatype_ok _ _ _ _ Hc) as [_ Hcases]. pose proof (Hcases k item Hk) as Hcase.
  pose proof Hcase as (_ & rts & Hr & _ & Hdom & _ & Hrd & _). assert (Hat : case_at base c arm k item rts) by done.
  apply yields_bind. intros s st1 E1.
  destruct (bind_fields_yields base c rt dp k item (arm_constructor arm) rts 0 _ (initial_scope c) st Hc Hf Hcase Hr El eq_refl eq_refl s st1 E1) as (-> & Ef & Ea).
  apply yields_bind. intros constructed st2 E2. rewrite mk_app_typed in E2.
  2: { rewrite Ef, Hdom. unfold field_symbols. apply list_eq. intros i. rewrite !list_lookup_fmap, list_lookup_imap.
       destruct (rts !! i); simpl; [by rewrite sort_constant|done]. }
  injection E2 as <- <-. apply yields_bind. intros v st3 E3.
  assert (Hv : frame st st3 /\ exists e, arm_program arm v e /\
    elaborates st (arm_environment c item s) e (mkTyped (mc_result_type c) (av_term v))).
  { destruct (bool_decide_reflect (kind (arm_value arm) = EHole)) as [Hh|Hh].
    - apply open_arm_yields in E3; [done|]. by apply bool_decide_eq_true.
    - apply written_arm_yields in E3; [done|]. by apply bool_decide_eq_false. }
  destruct Hv as (F3 & e & He & Hel). apply yields_bind. intros guard st4 E4.
  rewrite mk_app_typed in E4; [|simpl; destruct (mo_term _ _ _ _ Hc) as [j ->]; by rewrite Hrd, sort_constant].
  injection E4 as <- <-. intros r st' [= <- <-]. split_and!; [done..|]. exists k, item, rts, s. split_and!; try done.
  - by exists st, e.
  - simpl. rewrite Ef. intros w en He' Hb. destruct (bool_decide (field_symbols c _ _ = [])); [done|]. rewrite Ea. by eapply projected_value.
Qed.

Lemma match_arms_yields arms s st :
  frame base st ->
  yields (match_arms_loop term_to_string term_ast_id fuel c arms s) st (fun s' st' => frame st st' /\
    exists bs vs, ms_branches s' = ms_branches s ++ bs /\ ms_values s' = ms_values s ++ vs /\
      Forall3 (arm_ok st) arms bs vs /\ NoDup (arm_constructor <$> arms) /\
      (forall n, n ∈ arm_constructor <$> arms -> n ∉ ms_cases s) /\
      ms_cases s' = ms_cases s ∪ list_to_set (arm_constructor <$> arms)).
Proof.
  revert s st. induction arms as [|arm arms IH]; intros s st Hf; cbn [match_arms_loop].
  { intros s' st' [= <- <-]. split; [done|]. exists [], []. rewrite !app_nil_r. split_and!; try done; [constructor|constructor| |].
    - by intros n ?%elem_of_nil.
    - simpl. set_solver. }
  apply yields_bind. intros [[guard value] v] st1 (F1 & Hseen & Ha)%match_arm_yields; [|done]. simpl in Ha.
  intros s' st' (F2 & bs & vs & Eb & Ev & Hall & Hnd & Hout & Ec)%IH; [|by etrans]. simpl in *. split; [by etrans|].
  exists ((guard, value) :: bs), (v :: vs). rewrite Eb, Ev, Ec, <- !app_assoc. split_and!; try done.
  - constructor; [done|]. eapply Forall3_impl; [exact Hall|]. intros a b u. by apply arm_ok_frame.
  - apply NoDup_cons. split; [|done]. intros Hin. specialize (Hout _ Hin). set_solver.
  - intros n [->|Hn]%elem_of_cons; [done|]. specialize (Hout n Hn). set_solver.
  - set_solver.
Qed.

Lemma case_names_NoDup : NoDup (dc_name <$> di_cases (mc_datatype c)).
Proof.
  destruct (datatype_ok _ _ _ _ Hc) as [_ Hcases]. apply NoDup_alt. intros i j n.
  rewrite !list_lookup_fmap. destruct (di_cases _ !! i) as [x|] eqn:Ei, (di_cases _ !! j) as [y|] eqn:Ej; try done.
  intros [= <-] [= E]. destruct (Hcases i x Ei) as [H1 _], (Hcases j y Ej) as [H2 _]. rewrite E in H2. congruence.
Qed.

Lemma arms_exhaustive st arms bs vs :
  Forall3 (arm_ok st) arms bs vs -> NoDup (arm_constructor <$> arms) ->
  size (list_to_set (C := gset string) (arm_constructor <$> arms)) = length (di_cases (mc_datatype c)) ->
  arm_constructor <$> arms ≡ₚ dc_name <$> di_cases (mc_datatype c).
Proof.
  intros Hall Hnd Hs. apply submseteq_length_Permutation.
  - apply NoDup_submseteq; [done|]. intros n Hn. apply list_elem_of_fmap in Hn as (arm & -> & Hin).
    apply list_elem_of_lookup in Hin as [i Hi]. destruct (Forall3_lookup_l _ _ _ _ _ _ Hall Hi) as (b & v & _ & _ & Ha).
    destruct Ha as (k & item & rts & s & [Hk <- _] & _). apply list_elem_of_fmap. exists item. split; [done|].
    by eapply list_elem_of_lookup_2.
  - rewrite length_fmap, <- Hs, size_list_to_set by done. done.
Qed.

(** The body is the arm of the constructor that built the matched value. *)
Lemma body_selects st arms bs vs body i arm v st1 st2 :
  Forall3 (arm_ok st) arms bs vs -> NoDup (arm_constructor <$> arms) -> match_body bs st1 = (Ok body, st2) ->
  arms !! i = Some arm -> vs !! i = Some v ->
  exists item s, item ∈ di_cases (mc_datatype c) /\ dc_name item = arm_constructor arm /\ arm_source st c arm item s v /\
    forall w e, env_ok e -> built c item (as_fields s) w e -> eval w e body = eval w e (av_term v).
Proof.
  intros Hall Hnd Hbody Hi Hv. destruct (Forall3_lookup_l _ _ _ _ _ _ Hall Hi) as (b & v' & Hb & Hv' & Ha).
  simplify_eq. destruct Ha as (k & item & rts & s & Hat & Ef & Hsrc & Eg & Hval). exists item, s.
  split_and!; [by eapply list_elem_of_lookup_2, Hat|apply Hat|done|]. intros w e He Hbt. rewrite Ef in Hbt.
  rewrite <- Hval by (by rewrite ?Ef). apply (match_body_selects bs st1 body st2 Hbody w e i b Hb).
  - intros j b' Hj Hb'. destruct (Forall3_lookup_m _ _ _ _ _ _ Hall Hb') as (arm' & v2 & Hi' & _ & Ha').
    destruct Ha' as (k' & item' & rts' & s' & Hat' & _ & _ & Eg' & _). rewrite Eg'.
    rewrite (recognizer_holds _ _ _ _ Hc _ _ _ _ _ _ _ _ w e Hat Hat' He Hbt). intros ->.
    assert (i = j); [|lia]. pose proof (ca_item _ _ _ _ _ _ Hat) as I1. rewrite (ca_item _ _ _ _ _ _ Hat') in I1.
    injection I1 as <-. eapply (NoDup_lookup _ i j (arm_constructor arm) Hnd).
    + by rewrite list_lookup_fmap, Hi.
    + rewrite list_lookup_fmap, Hi'. simpl. by rewrite <- (ca_name _ _ _ _ _ _ Hat), <- (ca_name _ _ _ _ _ _ Hat').
  - rewrite Eg. by apply (recognizer_holds _ _ _ _ Hc _ _ _ _ _ _ _ _ w e Hat Hat He Hbt).
Qed.
End Loop.

(** ** The match: its result *)

(** An arm is right: in its scope, whenever the matched value is the
    constructor applied to the fields, every ensured condition holds of it. *)
Definition arm_meets (st : RuntimeState) (c : MatchContext) (ts : list Term) (arm : MatchArm) (v : ArmValue) : Prop :=
  exists item s, item ∈ di_cases (mc_datatype c) /\ dc_name item = arm_constructor arm /\ arm_source st c arm item s v /\
    forall w e, env_ok e -> built c item (as_fields s) w e ->
      Forall (holds w (assign e [synth_result (mc_declaration c)] [eval w e (av_term v)])) ts.

(** One arm per constructor, and each arm right. *)
Definition match_result (d : SynthDecl) (scrutinee : Expr) (st : RuntimeState) (r : nat * string) : Prop :=
  exists c st1 ts s,
    match_statement term_to_string term_ast_id d scrutinee (named_state d st) = (Ok c, st1) /\
    conditions (named_state d st) (with_result d (mc_environment c)) (synth_ensures d) ts /\
    arm_constructor <$> synth_arms d ≡ₚ dc_name <$> di_cases (mc_datatype c) /\
    Forall2 (arm_meets st1 c ts) (synth_arms d) (ms_values s) /\
    r = (0, match_text d (name scrutinee) s).

Lemma verify_match_yields d spec body st :
  yields (verify_match term_to_string term_ast_id d spec body) st (fun _ _ =>
    forall w e, env_ok e -> holds w e (expr_substitute spec [synth_result d] [body])).
Proof.
  unfold verify_match. apply yields_bind. intros n st1 E1. destruct (z3_op _ _) as [n'|] eqn:En; [|done].
  injection E1 as -> <-. apply yields_bind. intros [] st2 _.
  pose proof (fun w e => check_assertion n w e) as Hu. destruct (s_check _ _) as [[| |] g]; simpl in Hu;
    apply yields_bind; intros [] st3 _; [by intros ? ?| |by intros ? ?].
  intros [] st' _ w e He. specialize (Hu w e eq_refl He). rewrite (holds_negation _ _ _ _ En) in Hu.
  by destruct (holds_dec w e (expr_substitute spec [synth_result d] [body])).
Qed.

Lemma execute_match_yields d id scrutinee st :
  runtime_ok st ->
  yields (execute_match_synthesis term_to_string term_ast_id fuel d id scrutinee) st (fun r _ =>
    match_result d scrutinee st r).
Proof.
  intros Hok. unfold execute_match_synthesis. apply yields_bind. intros [] st0 ->%reserve_value_name_Ok.
  pose proof (add_value_name_keeps (synth_name d) st Hok) as [Hok0 _]. apply yields_bind. intros c st1 E1.
  destruct (match_statement_yields _ _ _ Hok0 _ _ E1) as (base & rt & dp & ts & Hc & Fb & F1 & Ed & Er & Hts & Hspec).
  apply yields_bind. intros [] st2 E2. apply (framed_at _ _ _ _ (framed_rain _)) in E2 as F2.
  assert (F : frame base st2) by (by etrans). apply yields_bind.
  intros s st3 (_ & bs & vs & Eb & Ev & Hall & Hnd & _ & Ec)%(match_arms_yields _ _ _ _ Hc); [|done].
  simpl in Eb, Ev, Ec. rewrite union_empty_l_L in Ec. rewrite Ec.
  destruct (Nat.eqb_spec (size (list_to_set (C := gset string) (arm_constructor <$> synth_arms d))) (length (di_cases (mc_datatype c)))) as [Es|]; [|by intros ? ?].
  simpl. apply yields_bind. intros body st4 Ebody. rewrite Eb in Ebody.
  apply yields_bind. intros [] st5 Hv%verify_match_yields. apply yields_bind. intros [] st6 _. intros r st' [= <- _].
  exists c, st1, ts, s. split_and!; try done.
  - by eapply arms_exhaustive.
  - rewrite Ev. apply Forall2_same_length_lookup_2; [by destruct (Forall3_length_lm _ _ _ _ Hall), (Forall3_length_lr _ _ _ _ Hall)|].
    intros i arm v Hi Hvi.
    destruct (body_selects _ _ _ _ Hc _ _ _ _ _ _ _ _ _ _ Hall Hnd Ebody Hi Hvi) as (item & sc & Hin & Hn & Hsrc & Hsel).
    exists item, sc. split_and!; [done..| |].
    + destruct Hsrc as (s0 & x & Fx & ? & ? & ?). exists s0, x. split_and!; [by etrans|done..|by eapply elaborates_frame].
    + intros w e He Hbt. rewrite <- (Hsel w e He Hbt), Ed.
      apply (specification_conditions _ _ (mc_specification c)); [apply constant_symbolic|done|done|done].
Qed.

(** What a synthesis' answer says. *)
Definition synthesis_result (d : SynthDecl) (st : RuntimeState) (r : nat * string) : Prop :=
  match synth_scrutinee d with
  | None => plain_result d st r
  | Some scrutinee => match_result d scrutinee st r
  end.

Lemma execute_synthesis_yields d id st :
  runtime_ok st -> yields (execute_synthesis term_to_string term_ast_id fuel d id) st (fun r _ => synthesis_result d st r).
Proof.
  intros Hok r st' E. unfold synthesis_result. unfold execute_synthesis in E.
  destruct (synth_scrutinee d); [by eapply execute_match_yields|by eapply execute_plain_yields].
Qed.

(** C9. A synthesized program meets its specification: when a synthesis
    returns on a well-formed runtime, the program it printed parses and
    elaborates to the term that was verified, and makes every ensured condition
    true under every interpretation of the parameters.  For a match there is
    exactly one arm per constructor, and each arm, in the scope of its pattern,
    makes every ensured condition true whenever the matched value is its
    constructor applied to the bound fields. *)
Theorem synthesis_sound (d : SynthDecl) (id : nat) (st st' : RuntimeState) (r : nat * string) :
  runtime_ok st -> execute_synthesis term_to_string term_ast_id fuel d id st = (Ok r, st') ->
  synthesis_result d st r.
Proof. intros Hok E. by eapply execute_synthesis_yields. Qed.
End Sound.
