(* ===== verification/PredicateSpec.v ===== *)
(** * What a predicate means

    A predicate's relation is the least one closed under its constructors:
    [derives] is one application of a constructor to a relation, [generated]
    says that a world's relation is that least one.  [constructor_wf] is what
    [declare_predicate] guarantees of the constructors it retains: their terms
    are closed over the constructor's own constants, and the recursive indices
    are those of the recursive premises. *)

From stdpp Require Import gmap.
From S2P Require Import Prelude Format Syntax Lexer Printer Parser ParserSpec Source Z3Ast Z3Solver Z3Build Z3Check Z3Fixedpoint Z3Horn Lift Recorder Observers Runtime Elaborate Declare Values Predicate RuntimeSpec ElaborateSpec DeclareSpec EnumSpec FunctionSpec CheckSpec CheckSound.
From Stdlib Require Import NArith.

(** ** Meaning *)

Section Meaning.
Context `{HD : Z3Data} {HA : Z3Api} {HX : Z3Exprs} {HB : Z3Build} {HM : Z3Meaning} {HBM : Z3BuildMeaning}.

Definition member (w : World) (p : PredicateInfo) (vs : list Value) : Prop :=
  apply_decl w (pi_relation p) vs = vbool true.

(** A premise, with [X] for the predicate being defined. *)
Definition premise (w : World) (e : Env) (relation : Decl) (X : list Value -> Prop) (t : Term) : Prop :=
  (forall l, t = App relation l -> X (eval w e <$> l)) /\ ((forall l, t <> App relation l) -> holds w e t).

(** The premises of a constrained field, for every value the view admits. *)
Definition field_premises (w : World) (e : Env) (relation : Decl) (X : list Value -> Prop) (f : ArbitraryField) : Prop :=
  forall v, value_sort v = get_sort (af_binder_term f) ->
    let e' := assign e [af_binder_term f] [v] in
    holds w e' (af_requirement f) -> Forall (premise w e' relation X) (af_premise_terms f).

(** One application of a constructor. *)
Definition derives (w : World) (relation : Decl) (X : list Value -> Prop) (c : PredicateConstructorInfo)
    (vs : list Value) : Prop :=
  exists e, env_ok e /\ vs = eval w e <$> pc_result_indices c /\
    Forall (premise w e relation X) (pc_premise_terms c) /\
    Forall (field_premises w e relation X) (pc_arbitrary_fields c).

Definition closed_under (w : World) (p : PredicateInfo) (X : list Value -> Prop) : Prop :=
  forall c vs, c ∈ pi_constructors p -> derives w (pi_relation p) X c vs -> X vs.

(** The relation is the least one closed under the constructors. *)
Definition generated (w : World) (p : PredicateInfo) : Prop :=
  closed_under w p (member w p) /\ forall X, closed_under w p X -> forall vs, member w p vs -> X vs.

(** The worlds of a document: every declared predicate is generated. *)
Definition least (st : RuntimeState) (w : World) : Prop := map_Forall (fun _ p => generated w p) (predicates_ st).

(** True in the worlds of the document. *)
Definition holds_in (st : RuntimeState) (t : Term) : Prop := forall w, least st w -> forall e, env_ok e -> holds w e t.

Definition proofs_hold (st : RuntimeState) : Prop := Forall (fun p => holds_in st (ap_theorem p)) (admitted_proofs_ st).

Lemma premise_mono w e relation (X Y : list Value -> Prop) t :
  (forall vs, X vs -> Y vs) -> premise w e relation X t -> premise w e relation Y t.
Proof. intros HXY [H1 H2]. split; [|done]. intros l Hl. by apply HXY, H1. Qed.

Lemma derives_mono w relation (X Y : list Value -> Prop) c vs :
  (forall us, X us -> Y us) -> derives w relation X c vs -> derives w relation Y c vs.
Proof.
  intros HXY (e & He & Hvs & Hp & Hf). exists e. split_and!; [done..| |].
  - eapply Forall_impl; [exact Hp|]. intros t. by apply premise_mono.
  - eapply Forall_impl; [exact Hf|]. intros f Hfield v Hv e' Hr. eapply Forall_impl; [by apply Hfield|].
    intros t. by apply premise_mono.
Qed.

(** A member was derived from members. *)
Lemma generated_inversion w p vs :
  generated w p -> member w p vs -> exists c, c ∈ pi_constructors p /\ derives w (pi_relation p) (member w p) c vs.
Proof.
  intros [Hc Hl]. apply (Hl (fun vs => exists c, c ∈ pi_constructors p /\ derives w (pi_relation p) (member w p) c vs)).
  intros c us Hin Hd. exists c. split; [done|].
  eapply derives_mono; [|exact Hd]. intros vs' (c' & Hin' & Hd'). by eapply Hc.
Qed.
End Meaning.

(** ** Retained constructors *)

Section WellFormed.
Context `{Z3BuildLaws}.

(** The uninterpreted constants of [t] are among [cs]. *)
Definition over (cs : list Term) (t : Term) : Prop := forall c, symbolic c -> occurs c t = true -> c ∈ cs.

(** The constants of constructor schemas. *)
Definition schema_constant (t : Term) : Prop := exists n, t = constant ("Fine.predicate." +:+ n) (get_sort t).

Definition schema (c : PredicateConstructorInfo) : list Term :=
  pc_parameters c ++ (af_binder_term <$> pc_arbitrary_fields c).

Record field_wf (relation : Decl) (parameters : list Term) (f : ArbitraryField) : Prop := {
  fw_requirement : over (parameters ++ [af_binder_term f]) (af_requirement f);
  fw_premises : Forall (fun t => over (parameters ++ [af_binder_term f]) t /\ exists l, t = App relation l)
    (af_premise_terms f);
  fw_indices : af_recursive_premise_indices f = args <$> af_premise_terms f;
  fw_witness w : af_availability_witness f = Some w -> over parameters w
}.

Record constructor_wf (relation : Decl) (c : PredicateConstructorInfo) : Prop := {
  cw_constants : Forall schema_constant (schema c);
  cw_distinct : NoDup (schema c);
  cw_arity : length (pc_result_indices c) = length (decl_domain relation);
  cw_result : Forall (over (pc_parameters c)) (pc_result_indices c);
  cw_premises : Forall (fun t => over (pc_parameters c) t /\ exists d l, t = App d l /\ interpreted d) (pc_premise_terms c);
  cw_recursive : Forall (fun l => App relation l ∈ pc_premise_terms c) (pc_recursive_premise_indices c);
  cw_fields : Forall (field_wf relation (pc_parameters c)) (pc_arbitrary_fields c)
}.

Definition predicate_wf (p : PredicateInfo) : Prop :=
  interpreted (pi_relation p) /\ length (decl_domain (pi_relation p)) = length (pi_index_types p) /\
  Forall (constructor_wf (pi_relation p)) (pi_constructors p).

Definition predicates_wf (st : RuntimeState) : Prop :=
  map_Forall (fun n p => pi_name p = n /\ predicate_wf p) (predicates_ st).

Lemma over_app d l cs : over cs (App d l) -> Forall (over cs) l.
Proof.
  intros Ho. apply Forall_forall. intros t Ht c Hc Hoc. apply Ho; [done|]. simpl. apply orb_true_iff. right.
  apply existsb_exists. exists t. split; [by apply list_elem_of_In|done].
Qed.

Lemma over_mono cs cs' t : cs ⊆ cs' -> over cs t -> over cs' t.
Proof. intros Hs Ho c Hc Hoc. by apply Hs, Ho. Qed.
End WellFormed.

(** ** Rules *)

Section Rules.
Context `{Z3Build}.

(** The clause a constructor is lowered to. *)
Definition clause_of (relation : Decl) (c : PredicateConstructorInfo) : Clause :=
  mkClause (pc_parameters c) (pc_premise_terms c) relation (pc_result_indices c).

(** A retained constructor of a predicate all of whose constructors are rules. *)
Definition lowered (ps : gmap string PredicateInfo) (p : PredicateInfo) (c : PredicateConstructorInfo) : Prop :=
  (exists n, ps !! n = Some p) /\ pi_horn_complete p = true /\ c ∈ pi_constructors p.

(** A premise is an atom of a declared predicate. *)
Definition atom_of (ps : gmap string PredicateInfo) (t : Term) : Prop :=
  exists m q l, ps !! m = Some q /\ t = App (pi_relation q) l.

(** What the fixedpoint object was told, against what is retained for induction. *)
Record rules_told (f : Fixedpoint) (ps : gmap string PredicateInfo) : Prop := {
  rt_names n p : ps !! n = Some p -> exists dom r, dom <> [] /\ pi_relation p = z3_function n dom r;
  rt_relations d : d ∈ fp_relations f <-> exists n p, ps !! n = Some p /\ pi_horn_complete p = true /\ pi_relation p = d;
  rt_rules t : t ∈ (fp_rules f).*2 -> exists p c, lowered ps p c /\ reads (clause_of (pi_relation p) c) t;
  rt_constructors p c : lowered ps p c ->
    pc_arbitrary_fields c = [] /\ exists t, t ∈ (fp_rules f).*2 /\ reads (clause_of (pi_relation p) c) t
}.

(** The premises of a predicate refer to itself and to predicates of lower rank. *)
Definition ranked (rank : string -> nat) (ps : gmap string PredicateInfo) : Prop := forall n p c t,
  ps !! n = Some p -> c ∈ pi_constructors p -> t ∈ pc_premise_terms c ->
  exists m q l, ps !! m = Some q /\ t = App (pi_relation q) l /\ (m = n \/ rank m < rank n).

Definition fixedpoint_ok (st : RuntimeState) : Prop :=
  rules_told (fixedpoint_ st) (predicates_ st) /\ exists rank, ranked rank (predicates_ st).
End Rules.

Section Evaluate.
Context `{HD : Z3Data} {HA : Z3Api} {HX : Z3Exprs} {HB : Z3Build} {HBL : Z3BuildLaws} {HM : Z3Meaning}
  {HML : Z3MeaningLaws} {HBM : Z3BuildMeaning}.

Lemma schema_constant_symbolic t : schema_constant t -> symbolic t.
Proof. intros [n ->]. apply constant_symbolic. Qed.

Lemma over_agree w e e' cs t : over cs t -> (forall c, c ∈ cs -> e c = e' c) -> eval w e t = eval w e' t.
Proof. intros Ho Hc. apply eval_agree. intros c Hs Hoc. by apply Hc, Ho. Qed.

Lemma over_holds w e e' cs t : over cs t -> (forall c, c ∈ cs -> e c = e' c) -> holds w e t <-> holds w e' t.
Proof. intros Ho Hc. unfold holds. by rewrite (over_agree w e e' cs t). Qed.

Lemma over_agree_list w e e' cs l : Forall (over cs) l -> (forall c, c ∈ cs -> e c = e' c) -> eval w e <$> l = eval w e' <$> l.
Proof.
  intros Hl Hc. apply list_fmap_ext. intros i t Hi. rewrite Forall_lookup in Hl. eapply over_agree; [by eapply Hl|done].
Qed.

Lemma holds_atom w e p l : interpreted (pi_relation p) -> holds w e (App (pi_relation p) l) <-> member w p (eval w e <$> l).
Proof. intros Hi. unfold holds, member. by rewrite eval_app. Qed.

(** With the relation itself for [X], a premise holds. *)
Lemma premise_member w e p t :
  interpreted (pi_relation p) -> (exists d l, t = App d l) ->
  premise w e (pi_relation p) (member w p) t <-> holds w e t.
Proof.
  intros Hi (d & l & ->). split.
  - intros [H1 H2]. destruct (decide (d = pi_relation p)) as [->|Hd]; [by apply holds_atom, H1|].
    apply H2. by intros l' [= ->].
  - intros Hh. split; [|done]. intros l' [= -> ->]. by apply holds_atom.
Qed.
End Evaluate.
