(* ===== verification/LayerSpec.v ===== *)
(** * One layer of a predicate

    [one_layer] builds, for an atom, the disjunction over the constructors
    that could conclude it.  [one_layer_meaning]: it holds exactly when some
    constructor applies at the values of the atom's indices; the fresh local
    constants capture nothing.  Where the constrained fields are available,
    that is membership in the generated relation. *)

From stdpp Require Import gmap.
From S2P Require Import Prelude Format Syntax Lexer Printer Parser ParserSpec Source Z3Ast Z3Solver Z3Build Z3Check Z3Fixedpoint Lift Recorder Observers Runtime Elaborate Declare Values Predicate PredicateCheck RuntimeSpec ElaborateSpec DeclareSpec EnumSpec FunctionSpec CheckSpec CheckSound PredicateSpec.
From Stdlib Require Import NArith.

Section Layer.
Context `{HD : Z3Data} {HA : Z3Api} {HX : Z3Exprs} {HB : Z3Build} {HBL : Z3BuildLaws} {HM : Z3Meaning}
  {HML : Z3MeaningLaws} {HBM : Z3BuildMeaning} {HS : Z3Solver}.
Context (term_to_string : Term -> string) (term_ast_id : Term -> N).

(** ** What a layer means *)

(** The view of a field is inhabited: by its witness, or by some value. *)
Definition available (w : World) (e : Env) (f : ArbitraryField) : Prop :=
  match af_availability_witness f with
  | Some t => holds w (assign e [af_binder_term f] [eval w e t]) (af_requirement f)
  | None => exists v, value_sort v = get_sort (af_binder_term f) /\
              holds w (assign e [af_binder_term f] [v]) (af_requirement f)
  end.

Definition field_holds (w : World) (e : Env) (f : ArbitraryField) : Prop :=
  available w e f /\
  forall v, value_sort v = get_sort (af_binder_term f) ->
    let e' := assign e [af_binder_term f] [v] in
    holds w e' (af_requirement f) -> Forall (holds w e') (af_premise_terms f).

(** A constructor concludes [us]. *)
Definition applies (w : World) (c : PredicateConstructorInfo) (us : list Value) : Prop :=
  exists e, env_ok e /\ us = eval w e <$> pc_result_indices c /\ Forall (holds w e) (pc_premise_terms c) /\
    Forall (field_holds w e) (pc_arbitrary_fields c).

Lemma field_premises_holds w e p c f :
  interpreted (pi_relation p) -> field_wf (pi_relation p) (pc_parameters c) f ->
  field_premises w e (pi_relation p) (member w p) f <->
  forall v, value_sort v = get_sort (af_binder_term f) ->
    let e' := assign e [af_binder_term f] [v] in
    holds w e' (af_requirement f) -> Forall (holds w e') (af_premise_terms f).
Proof.
  intros Hi Hf. assert (Hp : forall e', Forall (premise w e' (pi_relation p) (member w p)) (af_premise_terms f) <->
    Forall (holds w e') (af_premise_terms f)).
  { intros e'. pose proof (fw_premises _ _ _ Hf) as Hp. induction Hp as [|t ts [_ [l ->]] _ IH]; [by rewrite !Forall_nil|].
    rewrite !Forall_cons, IH. rewrite premise_member; [done..|by eexists _, _]. }
  unfold field_premises. by setoid_rewrite Hp.
Qed.

Lemma derives_members w p c us :
  interpreted (pi_relation p) -> constructor_wf (pi_relation p) c ->
  derives w (pi_relation p) (member w p) c us <->
  exists e, env_ok e /\ us = eval w e <$> pc_result_indices c /\ Forall (holds w e) (pc_premise_terms c) /\
    Forall (fun f => forall v, value_sort v = get_sort (af_binder_term f) ->
      let e' := assign e [af_binder_term f] [v] in
      holds w e' (af_requirement f) -> Forall (holds w e') (af_premise_terms f)) (pc_arbitrary_fields c).
Proof.
  intros Hi Hc. unfold derives. apply exist_proper. intros e.
  assert (Hp : Forall (premise w e (pi_relation p) (member w p)) (pc_premise_terms c) <-> Forall (holds w e) (pc_premise_terms c)).
  { pose proof (cw_premises _ _ Hc) as Hp. induction Hp as [|t ts (_ & d & l & -> & _) _ IH]; [by rewrite !Forall_nil|].
    rewrite !Forall_cons, IH. rewrite premise_member; [done..|by eexists _, _]. }
  rewrite Hp. do 3 (apply and_iff_compat_l). pose proof (cw_fields _ _ Hc) as Hf.
  induction Hf as [|f fs Hf _ IH]; [by rewrite !Forall_nil|]. rewrite !Forall_cons, IH.
  by rewrite field_premises_holds.
Qed.

(** Construction needs no availability; inversion does. *)
Lemma applies_member w p c us :
  interpreted (pi_relation p) -> constructor_wf (pi_relation p) c -> c ∈ pi_constructors p -> generated w p ->
  applies w c us -> member w p us.
Proof.
  intros Hi Hc Hin [Hclosed _] (e & He & Hus & Hp & Hf). eapply Hclosed; [exact Hin|].
  apply derives_members; [done..|]. exists e. split_and!; [done..|]. eapply Forall_impl; [exact Hf|]. by intros f [_ ?].
Qed.

Lemma member_applies w p us :
  predicate_wf p -> generated w p ->
  Forall (fun c => forall e, env_ok e -> Forall (available w e) (pc_arbitrary_fields c)) (pi_constructors p) ->
  member w p us -> exists c, c ∈ pi_constructors p /\ applies w c us.
Proof.
  intros (Hi & _ & Hwf) Hg Ha Hm. destruct (generated_inversion _ _ _ Hg Hm) as (c & Hin & Hd). exists c. split; [done|].
  rewrite Forall_forall in Hwf, Ha. apply derives_members in Hd as (e & He & Hus & Hp & Hf); [|done|by apply Hwf].
  exists e. split_and!; [done..|]. specialize (Ha c Hin e He). apply Forall_lookup. intros i f Hfi.
  rewrite Forall_lookup in Ha, Hf. split; [by eapply Ha|by eapply Hf].
Qed.

(** ** The local constants *)

Section Locals.
Context (n : PredicateInduction) (u : LayerUse) (c : PredicateConstructorInfo) (relation : Decl).
Hypothesis Hc : constructor_wf relation c.

Definition locals : list Term := local_parameters n u c ++ local_binders n u c.

Lemma local_parameter i p : pc_parameters c !! i = Some p ->
  local_parameters n u c !! i = Some (constant (local_prefix n u c +:+ ".parameter" +:+ to_string i) (get_sort p)).
Proof. intros E. unfold local_parameters. by rewrite list_lookup_imap, E. Qed.

Lemma local_binder i f : pc_arbitrary_fields c !! i = Some f ->
  local_binders n u c !! i = Some (constant (local_prefix n u c +:+ ".arbitrary" +:+ to_string i) (get_sort (af_binder_term f))).
Proof. intros E. unfold local_binders. by rewrite list_lookup_imap, E. Qed.

Lemma local_parameter_inv x : x ∈ local_parameters n u c ->
  exists i s, x = constant (local_prefix n u c +:+ ".parameter" +:+ to_string i) s.
Proof.
  intros [i Hi]%list_elem_of_lookup. unfold local_parameters in Hi. rewrite list_lookup_imap in Hi.
  destruct (pc_parameters c !! i); [|done]. injection Hi as <-. by eexists _, _.
Qed.

Lemma local_parameters_nodup : NoDup (local_parameters n u c).
Proof.
  apply NoDup_alt. intros i j x Hi Hj. unfold local_parameters in *. rewrite list_lookup_imap in Hi, Hj.
  destruct (pc_parameters c !! i) as [p|], (pc_parameters c !! j) as [q|]; try done. cbn [option_map fmap option_fmap] in Hi, Hj.
  assert (E : constant (local_prefix n u c +:+ ".parameter" +:+ to_string i) (get_sort p) =
    constant (local_prefix n u c +:+ ".parameter" +:+ to_string j) (get_sort q)) by congruence.
  apply constant_name in E. do 2 apply append_inv_head in E. by apply to_string_inj in E.
Qed.

Lemma local_binder_parameter i lb j x :
  local_binders n u c !! i = Some lb -> local_parameters n u c !! j = Some x -> lb <> x.
Proof.
  intros Hlb Hx ->. unfold local_binders in Hlb. rewrite list_lookup_imap in Hlb.
  destruct (pc_arbitrary_fields c !! i) as [f|]; [|done]. apply list_elem_of_lookup_2, local_parameter_inv in Hx as (k & s & ->).
  assert (E : constant (local_prefix n u c +:+ ".arbitrary" +:+ to_string i) (get_sort (af_binder_term f)) =
    constant (local_prefix n u c +:+ ".parameter" +:+ to_string k) s) by (cbn [option_map fmap option_fmap] in Hlb; congruence).
  apply constant_name in E. by apply append_inv_head in E.
Qed.

Lemma locals_length : length locals = length (schema c).
Proof. unfold locals, schema, local_parameters, local_binders. by rewrite !length_app, !length_imap, length_fmap. Qed.

Lemma locals_symbolic : Forall symbolic locals.
Proof.
  apply Forall_app. split; apply Forall_forall; intros x [i Hi]%list_elem_of_lookup;
    unfold local_parameters, local_binders in Hi; rewrite list_lookup_imap in Hi;
    (destruct (_ !! i); [|done]); injection Hi as <-; apply constant_symbolic.
Qed.

Lemma locals_sorts i x y : schema c !! i = Some x -> locals !! i = Some y -> get_sort y = get_sort x.
Proof.
  assert (El : length (local_parameters n u c) = length (pc_parameters c)) by apply length_imap.
  unfold schema, locals. intros [Hx|[Hge Hx]]%lookup_app_Some [Hy|[Hge' Hy]]%lookup_app_Some.
  - rewrite (local_parameter _ _ Hx) in Hy. injection Hy as <-. apply sort_constant.
  - apply lookup_lt_Some in Hx. lia.
  - apply lookup_lt_Some in Hy. lia.
  - rewrite El in Hy. rewrite list_lookup_fmap in Hx. destruct (pc_arbitrary_fields c !! _) as [f|] eqn:Ef; [|done].
    injection Hx as <-. rewrite (local_binder _ _ Ef) in Hy. injection Hy as <-. apply sort_constant.
Qed.

(** The environment of the schema that local constants stand for. *)
Definition unlocal (e : Env) : Env := assign e (schema c) (e <$> locals).

Lemma schema_symbolic : Forall symbolic (schema c).
Proof. eapply Forall_impl; [apply (cw_constants _ _ Hc)|]. apply schema_constant_symbolic. Qed.

Lemma unlocal_ok e : env_ok e -> env_ok (unlocal e).
Proof.
  intros He. apply env_ok_assign; [done|]. apply Forall2_same_length_lookup. rewrite length_fmap. split; [by rewrite locals_length|].
  intros i x v Hx Hv. rewrite list_lookup_fmap in Hv. destruct (locals !! i) as [y|] eqn:Ey; [|done]. injection Hv as <-.
  pose proof locals_symbolic as Hs. rewrite Forall_lookup in Hs. rewrite (He y (Hs _ _ Ey)). by eapply locals_sorts.
Qed.

Lemma unlocal_lookup e i x y : schema c !! i = Some x -> locals !! i = Some y -> unlocal e x = e y.
Proof. intros Hx Hy. eapply assign_lookup; [apply (cw_distinct _ _ Hc)|exact Hx|]. by rewrite list_lookup_fmap, Hy. Qed.

Lemma localize_eval w e t : eval w e (localize n u c t) = eval w (unlocal e) t.
Proof.
  unfold localize. fold (schema c) locals. case_bool_decide as Es.
  - unfold unlocal. by rewrite Es.
  - rewrite eval_substitute; [|apply schema_symbolic|apply (cw_distinct _ _ Hc)|by rewrite locals_length].
    unfold unlocal. by rewrite eval_fmap_symbolic by apply locals_symbolic.
Qed.

Lemma localize_holds w e t : holds w e (localize n u c t) <-> holds w (unlocal e) t.
Proof. unfold holds. by rewrite localize_eval. Qed.

Lemma parameter_unlocal e i p y :
  pc_parameters c !! i = Some p -> local_parameters n u c !! i = Some y -> unlocal e p = e y.
Proof. intros Hp Hy. apply (unlocal_lookup e i); by apply lookup_app_l_Some. Qed.

Lemma binder_unlocal e i f y :
  pc_arbitrary_fields c !! i = Some f -> local_binders n u c !! i = Some y -> unlocal e (af_binder_term f) = e y.
Proof.
  intros Hf Hy. apply (unlocal_lookup e (length (pc_parameters c) + i)); unfold schema, locals.
  - rewrite lookup_app_r by lia. replace (_ + i - _) with i by lia. by rewrite list_lookup_fmap, Hf.
  - assert (El : length (local_parameters n u c) = length (pc_parameters c)) by apply length_imap.
    rewrite lookup_app_r by lia. by replace (_ + i - _) with i by lia.
Qed.

Lemma binder_parameter f p : f ∈ pc_arbitrary_fields c -> p ∈ pc_parameters c -> p <> af_binder_term f.
Proof.
  intros Hf Hp ->. pose proof (cw_distinct _ _ Hc) as (_ & Hd & _)%NoDup_app. eapply Hd; [exact Hp|].
  apply list_elem_of_fmap. by exists f.
Qed.

(** A field's terms under its local binder. *)
Lemma field_unlocal w e i f lb v t :
  pc_arbitrary_fields c !! i = Some f -> local_binders n u c !! i = Some lb ->
  over (pc_parameters c ++ [af_binder_term f]) t ->
  eval w (assign e [lb] [v]) (localize n u c t) = eval w (assign (unlocal e) [af_binder_term f] [v]) t.
Proof.
  intros Hf Hlb Ho. rewrite localize_eval. apply (over_agree _ _ _ _ _ Ho). intros x [Hx|Hx]%elem_of_app.
  - pose proof Hx as [j Hj]%list_elem_of_lookup. rewrite (parameter_unlocal _ _ _ _ Hj (local_parameter _ _ Hj)).
    rewrite !assign_other; [by rewrite (parameter_unlocal _ _ _ _ Hj (local_parameter _ _ Hj))| |].
    + rewrite list_elem_of_singleton. eapply binder_parameter; [by eapply list_elem_of_lookup_2|done].
    + rewrite list_elem_of_singleton. apply not_eq_sym. by apply (local_binder_parameter _ _ _ _ Hlb (local_parameter _ _ Hj)).
  - apply list_elem_of_singleton in Hx as ->. rewrite (binder_unlocal _ _ _ _ Hf Hlb).
    transitivity v; [|symmetry]; by eapply (assign_lookup _ _ _ 0); [apply NoDup_singleton|..].
Qed.

Lemma field_unlocal_holds w e i f lb v t :
  pc_arbitrary_fields c !! i = Some f -> local_binders n u c !! i = Some lb ->
  over (pc_parameters c ++ [af_binder_term f]) t ->
  holds w (assign e [lb] [v]) (localize n u c t) <-> holds w (assign (unlocal e) [af_binder_term f] [v]) t.
Proof. intros Hf Hlb Ho. unfold holds. by erewrite field_unlocal. Qed.
End Locals.

(** ** The terms of a layer *)

Lemma yields_z3 {A B} call (o : option A) (k : A -> RtM B) st Q :
  (forall a, o = Some a -> yields (k a) st Q) -> yields (z3_call call o ≫= k) st Q.
Proof. intros Hk. apply yields_bind. intros a st1 E. destruct o as [a'|]; [|done]. injection E as -> <-. by apply Hk. Qed.

Lemma yields_z3_last {A} call (o : option A) st (Q : A -> RuntimeState -> Prop) :
  (forall a, o = Some a -> Q a st) -> yields (z3_call call o) st Q.
Proof. intros Hk a st1 E. destruct o as [a'|]; [|done]. injection E as -> <-. by apply Hk. Qed.

Lemma yields_rain {A B} (m : RecM A) (k : unit -> RtM B) st Q :
  (forall st1, yields (k tt) st1 Q) -> yields (rain m ≫= k) st Q.
Proof. intros Hk. apply yields_bind. intros [] st1 _. apply Hk. Qed.

Lemma conjunctions_yields acc ts st :
  yields (conjunctions acc ts) st (fun r _ => forall w e, holds w e r <-> holds w e acc /\ Forall (holds w e) ts).
Proof.
  clear term_to_string term_ast_id. revert acc st. induction ts as [|t ts IH]; intros acc st; simpl.
  { intros r st' [= <- <-] w e. rewrite Forall_nil. tauto. }
  apply yields_z3. intros a Ha. intros r st' E w e. rewrite (IH _ _ _ _ E w e), (holds_and _ _ _ _ _ Ha), Forall_cons. tauto.
Qed.

Lemma equations_yields f acc actual indices st :
  yields (equations f acc actual indices) st (fun r _ => length actual = length indices -> forall w e,
    holds w e r <-> holds w e acc /\ eval w e <$> actual = eval w e <$> (f <$> indices)).
Proof.
  revert acc indices st. induction actual as [|a actual IH]; intros acc [|i indices] st; cbn [equations].
  { intros r st' [= <- <-] _ w e. simpl. tauto. }
  { by intros r st' _ Hl. }
  { by intros r st' ?. }
  apply yields_z3. intros q Hq. apply yields_z3. intros acc' Ha. intros r st' E Hl w e.
  injection Hl as Hl. rewrite (IH _ _ _ _ _ E Hl w e), (holds_and _ _ _ _ _ Ha), (holds_equation _ _ _ _ _ Hq).
  rewrite !fmap_cons. split; [intros ([? Eq] & Es); split; [done|by rewrite Eq, Es]|].
  intros [? Es]. injection Es as Eq Es. done.
Qed.

Lemma availability_yields requirement binder witness st :
  symbolic binder ->
  yields (open_availability requirement binder witness) st (fun r _ => forall w e,
    holds w e r <-> match witness with
                    | Some t => holds w (assign e [binder] [eval w e t]) requirement
                    | None => exists v, value_sort v = get_sort binder /\ holds w (assign e [binder] [v]) requirement
                    end).
Proof.
  intros Hb. destruct witness as [t|]; simpl.
  - intros r st' [= <- <-] w e. unfold holds. rewrite eval_substitute; [done|by constructor|apply NoDup_singleton|done].
  - apply yields_z3_last. intros r Hr w e. rewrite (holds_exists _ _ _ _ _ Hr); [|by constructor|apply NoDup_singleton].
    split.
    + intros (vs & Hvs & Hh). apply Forall2_cons_inv_l in Hvs as (v & vs' & Hv & ->%Forall2_nil_inv_l & ->). by exists v.
    + intros (v & Hv & Hh). exists [v]. split; [by repeat constructor|done].
Qed.

(** A universally quantified implication over one constant. *)
Lemma total_yields binder body r w e :
  symbolic binder -> mk_forall [binder] body = Some r ->
  holds w e r <-> forall v, value_sort v = get_sort binder -> holds w (assign e [binder] [v]) body.
Proof.
  intros Hb Hr. rewrite (holds_anonymous_forall _ _ _ _ _ Hr); [|by constructor|apply NoDup_singleton]. split.
  - intros Hall v Hv. apply (Hall [v]). by repeat constructor.
  - intros Hall vs Hvs. apply Forall2_cons_inv_l in Hvs as (v & vs' & Hv & ->%Forall2_nil_inv_l & ->). by apply Hall.
Qed.

Section Alternative.
Context (n : PredicateInduction) (u : LayerUse) (item : PredicateInfo) (c : PredicateConstructorInfo) (relation : Decl).
Hypothesis Hc : constructor_wf relation c.
Abbreviation unlocal := (unlocal n u c).

(** The fields with their local binders. *)
Definition local_field (f : ArbitraryField) (lb : Term) : Prop :=
  exists i, pc_arbitrary_fields c !! i = Some f /\ local_binders n u c !! i = Some lb.

Lemma local_field_binder f lb : local_field f lb -> symbolic lb /\ get_sort lb = get_sort (af_binder_term f).
Proof.
  intros (i & Hf & Hlb). rewrite (local_binder _ _ _ _ _ Hf) in Hlb. injection Hlb as <-.
  split; [apply constant_symbolic|apply sort_constant].
Qed.

Lemma local_availability f lb w e :
  local_field f lb ->
  match localize n u c <$> af_availability_witness f with
  | Some t => holds w (assign e [lb] [eval w e t]) (localize n u c (af_requirement f))
  | None => exists v, value_sort v = get_sort lb /\ holds w (assign e [lb] [v]) (localize n u c (af_requirement f))
  end <-> available w (unlocal e) f.
Proof.
  intros Hl. pose proof (local_field_binder _ _ Hl) as [_ Es]. destruct Hl as (i & Hf & Hlb).
  pose proof (cw_fields _ _ Hc) as Hw. rewrite Forall_lookup in Hw. specialize (Hw i f Hf). unfold available.
  destruct (af_availability_witness f) as [t|] eqn:Ew; cbn [fmap option_fmap option_map].
  - rewrite (field_unlocal_holds _ _ _ _ Hc _ _ _ _ _ _ _ Hf Hlb) by apply Hw. by rewrite (localize_eval _ _ _ _ Hc).
  - rewrite Es. apply exist_proper. intros v. apply and_iff_compat_l.
    by rewrite (field_unlocal_holds _ _ _ _ Hc _ _ _ _ _ _ _ Hf Hlb) by apply Hw.
Qed.

Lemma local_premises i f lb v w e :
  pc_arbitrary_fields c !! i = Some f -> local_binders n u c !! i = Some lb ->
  Forall (holds w (assign e [lb] [v])) (localize n u c <$> af_premise_terms f) <->
  Forall (holds w (assign (unlocal e) [af_binder_term f] [v])) (af_premise_terms f).
Proof.
  intros Hf Hlb. pose proof (cw_fields _ _ Hc) as Hw. rewrite Forall_lookup in Hw. specialize (Hw i f Hf).
  rewrite Forall_fmap. pose proof (fw_premises _ _ _ Hw) as Hps.
  induction Hps as [|t ts [Ho _] _ IHt]; [by rewrite !Forall_nil|]. rewrite !Forall_cons, IHt. apply and_iff_compat_r.
  by apply (field_unlocal_holds _ _ _ _ Hc _ _ _ _ _ _ _ Hf Hlb).
Qed.

Lemma layer_fields_yields ordinal fields binders branch st :
  Forall2 local_field fields binders ->
  yields (layer_fields term_to_string term_ast_id n u item c ordinal fields binders branch) st (fun r _ => forall w e,
    holds w e r <-> holds w e branch /\ Forall (field_holds w (unlocal e)) fields).
Proof.
  intros Hfs. revert ordinal branch st. induction Hfs as [|f lb fields binders Hl _ IH]; intros ordinal branch st; cbn [layer_fields].
  { intros r st' [= <- <-] w e. rewrite Forall_nil. tauto. }
  pose proof (local_field_binder _ _ Hl) as [Hs Es]. pose proof (fun w e => local_availability f lb w e Hl) as Hav.
  destruct Hl as (i & Hf & Hlb). pose proof (cw_fields _ _ Hc) as Hw. rewrite Forall_lookup in Hw. specialize (Hw i f Hf).
  apply yields_bind. intros premises st1 Hp%conjunctions_yields.
  apply yields_bind. intros availability st2 Ha%availability_yields; [|done].
  apply yields_z3. intros body Hbody. apply yields_z3. intros total Ht.
  apply yields_bind. intros branch' st3 Hb%conjunctions_yields. apply yields_rain. intros st4 r st' E w e.
  rewrite (IH _ _ _ _ _ E w e), Hb, !Forall_cons, Forall_nil, Ha, Hav, (total_yields _ _ _ _ _ Hs Ht), Es. clear E Hb Ha Hav.
  unfold field_holds. setoid_rewrite (holds_implication _ _ _ _ _ Hbody). setoid_rewrite Hp.
  setoid_rewrite (fun v => local_premises i f lb v w e Hf Hlb).
  setoid_rewrite (fun v => field_unlocal_holds n u c relation Hc w e i f lb v _ Hf Hlb (fw_requirement _ _ _ Hw)).
  pose proof (holds_true w) as Htrue. naive_solver.
Qed.

(** The parameters decide whether a field holds. *)
Lemma assign_binder_agree (e e' : Env) f v t :
  (forall p, p ∈ pc_parameters c -> e p = e' p) -> over (pc_parameters c ++ [af_binder_term f]) t ->
  forall w, holds w (assign e [af_binder_term f] [v]) t <-> holds w (assign e' [af_binder_term f] [v]) t.
Proof.
  intros He Ho w. apply (over_holds _ _ _ _ _ Ho). intros x Hx. simpl. destruct (term_eqb (af_binder_term f) x) eqn:E; [done|].
  apply He. apply elem_of_app in Hx as [Hx|Hx%list_elem_of_singleton]; [done|]. subst x.
  by rewrite (proj2 (term_eqb_spec _ _) eq_refl) in E.
Qed.

Lemma available_agree w e e' f :
  field_wf relation (pc_parameters c) f -> (forall p, p ∈ pc_parameters c -> e p = e' p) ->
  available w e f <-> available w e' f.
Proof.
  intros Hf He. unfold available. destruct (af_availability_witness f) as [t|] eqn:Ew.
  - rewrite (over_agree w e e' _ t (fw_witness _ _ _ Hf _ Ew) He). by apply assign_binder_agree; [|apply Hf].
  - apply exist_proper. intros v. apply and_iff_compat_l. by apply assign_binder_agree; [|apply Hf].
Qed.

Lemma field_holds_agree w e e' f :
  field_wf relation (pc_parameters c) f -> (forall p, p ∈ pc_parameters c -> e p = e' p) ->
  field_holds w e f -> field_holds w e' f.
Proof.
  intros Hf He [Ha Ht]. split; [by apply (available_agree w e e')|]. intros v Hv e1 Hr.
  assert (Hp : Forall (holds w (assign e [af_binder_term f] [v])) (af_premise_terms f)).
  { apply Ht; [done|]. by apply (assign_binder_agree e e'); [done|apply Hf|]. }
  pose proof (fw_premises _ _ _ Hf) as Hw. apply Forall_lookup. intros i t Hi. rewrite Forall_lookup in Hp, Hw.
  apply (assign_binder_agree e e'); [done|by eapply Hw|by eapply Hp].
Qed.

(** The value of a term does not depend on the constants [cs]. *)
Definition unaffected (cs : list Term) (t : Term) : Prop := forall w e vs, eval w (assign e cs vs) t = eval w e t.

(** The body of the existential. *)
Definition local_branch (w : World) (e : Env) (us : list Value) : Prop :=
  us = eval w (unlocal e) <$> pc_result_indices c /\ Forall (holds w (unlocal e)) (pc_premise_terms c) /\
  Forall (field_holds w (unlocal e)) (pc_arbitrary_fields c).

Lemma branch_yields atom st :
  length (args atom) = length (pc_result_indices c) ->
  yields (branch ← equations (localize n u c) (bool_val true) (args atom) (pc_result_indices c);
          branch ← conjunctions branch (localize n u c <$> pc_premise_terms c);
          layer_fields term_to_string term_ast_id n u item c 0 (pc_arbitrary_fields c) (local_binders n u c) branch) st
    (fun r _ => forall w e, holds w e r <-> local_branch w e (eval w e <$> args atom)).
Proof.
  intros Hl. apply yields_bind. intros b1 st1 E1. pose proof (equations_yields _ _ _ _ _ _ _ E1 Hl) as H1.
  apply yields_bind. intros b2 st2 H2%conjunctions_yields. intros b3 st3 E3 w e.
  assert (Hlf : Forall2 local_field (pc_arbitrary_fields c) (local_binders n u c)).
  { apply Forall2_same_length_lookup. split; [by unfold local_binders; rewrite length_imap|]. intros i f lb Hf Hlb. by exists i. }
  rewrite (layer_fields_yields _ _ _ _ _ Hlf _ _ E3 w e), H2, H1, Forall_fmap, <- list_fmap_compose. unfold local_branch.
  assert (Ep : Forall (holds w e ∘ localize n u c) (pc_premise_terms c) <-> Forall (holds w (unlocal e)) (pc_premise_terms c)).
  { apply Forall_iff. intros t. by eapply localize_holds. }
  assert (Ei : eval w e ∘ localize n u c <$> pc_result_indices c = eval w (unlocal e) <$> pc_result_indices c).
  { apply list_fmap_ext. intros i t _. by eapply localize_eval. }
  rewrite Ep, Ei. pose proof (holds_true w e). tauto.
Qed.

(** Some local values make the branch hold exactly when the constructor applies. *)
Lemma local_branch_applies w e us :
  env_ok e ->
  (exists vs, Forall2 (fun x v => value_sort v = get_sort x) (local_parameters n u c) vs /\
     local_branch w (assign e (local_parameters n u c) vs) us) <-> applies w c us.
Proof.
  intros He. set (lp := local_parameters n u c). split.
  { intros (vs & Hvs & Hx). exists (unlocal (assign e lp vs)). split; [|done]. eapply unlocal_ok. by apply env_ok_assign. }
  intros (e0 & He0 & -> & Hp & Hf). exists (e0 <$> pc_parameters c).
  assert (Hu : forall p, p ∈ pc_parameters c -> e0 p = unlocal (assign e lp (e0 <$> pc_parameters c)) p).
  { intros p [i Hi]%list_elem_of_lookup. pose proof (local_parameter n u c i p Hi) as Hli. fold lp in Hli.
    rewrite (parameter_unlocal n u c relation Hc _ i p _ Hi Hli). symmetry.
    eapply assign_lookup; [apply local_parameters_nodup|exact Hli|]. by rewrite list_lookup_fmap, Hi. }
  split; [|split_and!].
  - apply Forall2_same_length_lookup. split; [unfold lp, local_parameters; by rewrite length_fmap, length_imap|].
    intros i x v Hx Hv. rewrite list_lookup_fmap in Hv. destruct (pc_parameters c !! i) as [p|] eqn:Ep; [|done].
    injection Hv as <-. unfold lp in Hx. rewrite (local_parameter _ _ _ _ _ Ep) in Hx. injection Hx as <-.
    rewrite sort_constant. apply He0. pose proof (schema_symbolic c relation Hc) as Hs. apply Forall_app in Hs as [Hs _].
    rewrite Forall_lookup in Hs. by eapply Hs.
  - apply (over_agree_list _ _ _ _ _ (cw_result _ _ Hc) Hu).
  - pose proof (cw_premises _ _ Hc) as Hw. apply Forall_lookup. intros i t Hi. rewrite Forall_lookup in Hp, Hw.
    apply (over_holds w e0 _ (pc_parameters c)); [by eapply Hw|done|by eapply Hp].
  - pose proof (cw_fields _ _ Hc) as Hw. apply Forall_lookup. intros i f Hi. rewrite Forall_lookup in Hf, Hw.
    eapply field_holds_agree; [by eapply Hw|exact Hu|by eapply Hf].
Qed.

Lemma close_locals_yields branch st :
  let lp := local_parameters n u c in
  yields (if bool_decide (lp = []) then mret branch else z3_call "exists" (mk_exists lp branch)) st (fun r _ =>
    forall w e, holds w e r <-> exists vs, Forall2 (fun x v => value_sort v = get_sort x) lp vs /\ holds w (assign e lp vs) branch).
Proof.
  intros lp. case_bool_decide as Elp.
  - intros r st' [= <- <-] w e. rewrite Elp. split; [intros Hh; by exists []|]. by intros (vs & ->%Forall2_nil_inv_l & Hh).
  - apply yields_z3_last. intros r Hr w e. apply (holds_exists _ _ _ _ _ Hr); [|apply local_parameters_nodup].
    pose proof (locals_symbolic n u c) as Hs. by apply Forall_app in Hs as [? _].
Qed.

Lemma alternative_yields atom st :
  length (args atom) = length (pc_result_indices c) -> Forall (unaffected (local_parameters n u c)) (args atom) ->
  yields (layer_alternative term_to_string term_ast_id n u item atom c) st (fun r _ => forall w e, env_ok e ->
    holds w e r <-> applies w c (eval w e <$> args atom)).
Proof.
  intros Hl Ha. unfold layer_alternative. apply yields_rain. intros st0. apply yields_bind. intros b1 st1 E1.
  apply yields_bind. intros b2 st2 E2. apply yields_bind. intros b3 st3 E3.
  assert (Hb : forall w e, holds w e b3 <-> local_branch w e (eval w e <$> args atom)).
  { eapply (branch_yields atom st0 Hl). unfold mbind, RtM_bind. rewrite E1, E2. exact E3. }
  intros r st' Hr%close_locals_yields w e He. rewrite Hr, <- (local_branch_applies w e) by done. setoid_rewrite Hb.
  assert (Hargs : forall vs, eval w (assign e (local_parameters n u c) vs) <$> args atom = eval w e <$> args atom).
  { intros vs. apply list_fmap_ext. intros i t Hi. rewrite Forall_lookup in Ha. by apply (Ha i t Hi). }
  by setoid_rewrite Hargs.
Qed.
End Alternative.

(** ** The layer *)

Lemma alternatives_yields n u item atom cs acc st :
  Forall (fun c => constructor_wf (pi_relation item) c /\ length (args atom) = length (pc_result_indices c) /\
    Forall (unaffected (local_parameters n u c)) (args atom)) cs ->
  yields (alternatives term_to_string term_ast_id n u item atom cs acc) st (fun r _ => forall w e, env_ok e ->
    holds w e r <-> holds w e acc \/ Exists (fun c => applies w c (eval w e <$> args atom)) cs).
Proof.
  intros Hcs. revert acc st. induction Hcs as [|c cs (Hc & Hl & Ha) _ IH]; intros acc st; cbn [alternatives].
  { intros r st' [= <- <-] w e _. rewrite Exists_nil. tauto. }
  apply yields_bind. intros branch st1 Hb%(alternative_yields _ _ _ _ _ Hc); [|done..].
  apply yields_z3. intros acc' Hacc. intros r st' E w e He.
  rewrite (IH _ _ _ _ E w e He), (holds_or _ _ _ _ _ Hacc), Exists_cons, (Hb w e He). tauto.
Qed.

Lemma one_layer_yields n u item atom st :
  predicate_wf item ->
  (forall c, c ∈ pi_constructors item -> Forall (unaffected (local_parameters n u c)) (args atom)) ->
  yields (one_layer term_to_string term_ast_id n u item atom) st (fun r _ => forall w e, env_ok e ->
    holds w e r <-> exists c, c ∈ pi_constructors item /\ applies w c (eval w e <$> args atom)).
Proof.
  intros (Hi & Hd & Hwf) Ha. unfold one_layer. destruct (_ || _) eqn:Eb; [by intros ? ?|].
  apply orb_false_iff in Eb as [_ El%negb_false_iff%Nat.eqb_eq]. intros r st' E w e He.
  apply alternatives_yields in E as Hr.
  - rewrite (Hr w e He), Exists_exists. pose proof (holds_false w e). naive_solver.
  - apply Forall_forall. intros c Hin. rewrite Forall_forall in Hwf. specialize (Hwf c Hin). split_and!; [done| |by apply Ha].
    by rewrite El, (cw_arity _ _ Hwf), Hd.
Qed.
End Layer.
