(* ===== verification/InductionSpec.v ===== *)
(** * Induction over a predicate is sound

    [branches_loop] asks one query per constructor.  When all are
    unsatisfiable, the statement is closed under the constructors, so it
    holds of every member of the generated relation: [induction_sound].  The
    obligations that constrained views are inhabited are discharged in the
    same worlds, and the proofs used as assumptions hold there. *)

From stdpp Require Import gmap.
From S2P Require Import Prelude Format Syntax Lexer Printer Parser ParserSpec Source Z3Ast Z3Solver Z3Build Z3Check Z3Fixedpoint Lift Recorder Observers Runtime Elaborate Declare Values Predicate PredicateCheck RuntimeSpec ElaborateSpec DeclareSpec EnumSpec FunctionSpec CheckSpec CheckSound PredicateSpec LayerSpec.
From Stdlib Require Import NArith.

(** ** Operations that only record *)

Section Rains.
Context `{Z3Build}.

Definition rained (st st' : RuntimeState) : Prop := exists r, st' = set_rainfall r st.
Definition rains {A} (m : RtM A) : Prop := forall st, rained st (m st).2.

Lemma rained_refl st : rained st st.
Proof. exists (rainfall_ st). by destruct st. Qed.
Lemma rained_trans a b c : rained a b -> rained b c -> rained a c.
Proof. intros [r ->] [r' ->]. by exists r'. Qed.

#[export] Instance rained_preorder : PreOrder rained.
Proof. split; [exact rained_refl|exact rained_trans]. Qed.

Lemma rains_bind {A B} (m : RtM A) (k : A -> RtM B) : rains m -> (forall a, rains (k a)) -> rains (m ≫= k).
Proof.
  intros Hm Hk st. specialize (Hm st). unfold mbind, RtM_bind.
  destruct (m st) as [[a|e|] st']; simpl in *; [|done..]. etrans; [exact Hm|apply Hk].
Qed.
Lemma rains_ret {A} (a : A) : rains (mret a).
Proof. intros st. apply rained_refl. Qed.
Lemma rains_throw {A} e : rains (rt_throw (A := A) e).
Proof. intros st. apply rained_refl. Qed.
Lemma rains_reject {A} sp message : rains (reject (A := A) sp message).
Proof. apply rains_throw. Qed.
Lemma rains_gets {A} (f : RuntimeState -> A) : rains (gets f).
Proof. intros st. apply rained_refl. Qed.
Lemma rains_deref {A} what (o : option A) : rains (deref what o).
Proof. destruct o; [apply rains_ret|apply rains_throw]. Qed.
Lemma rains_z3 {A} call (o : option A) : rains (z3_call call o).
Proof. destruct o; [apply rains_ret|apply rains_throw]. Qed.
Lemma rains_rain {A} (m : RecM A) : rains (rain m).
Proof.
  intros st. unfold rain. destruct (rainfall_ st) as [r|]; [|apply rained_refl].
  destruct (m r) as [[a|e|] r']; by eexists.
Qed.
Lemma rains_the_type p : rains (the_type p).
Proof. apply rains_bind; [apply rains_gets|intros; apply rains_deref]. Qed.

Lemma rains_at {A} (m : RtM A) st a st' : rains m -> m st = (Ok a, st') -> rained st st'.
Proof. intros Hm E. specialize (Hm st). by rewrite E in Hm. Qed.
End Rains.

Create HintDb rains.
#[export] Hint Resolve rains_ret rains_throw rains_reject rains_gets rains_deref rains_z3 rains_rain rains_the_type : rains.

Ltac rains := repeat first [ solve [auto with rains] | apply rains_bind; [|intros ?] | case_match ].

Section Recording.
Context `{Z3Build} {HS : Z3Solver} (term_to_string : Term -> string) (term_ast_id : Term -> N).

Lemma rains_conjunctions acc ts : rains (conjunctions acc ts).
Proof. revert acc. induction ts; intros acc; simpl; rains. Qed.
Lemma rains_equations f acc l ix : rains (equations f acc l ix).
Proof. revert acc ix. induction l; intros acc [|i ix]; simpl; rains. Qed.
Lemma rains_availability r b w : rains (open_availability r b w).
Proof. unfold open_availability. rains. Qed.
Hint Resolve rains_conjunctions rains_equations rains_availability : rains.

Lemma rains_layer_fields n u item c i fs bs b : rains (layer_fields term_to_string term_ast_id n u item c i fs bs b).
Proof. revert i bs b. induction fs; intros i [|lb bs] b; simpl; rains. Qed.
Hint Resolve rains_layer_fields : rains.
Lemma rains_alternative n u item atom c : rains (layer_alternative term_to_string term_ast_id n u item atom c).
Proof. unfold layer_alternative. rains. Qed.
Hint Resolve rains_alternative : rains.
Lemma rains_alternatives n u item atom cs acc : rains (alternatives term_to_string term_ast_id n u item atom cs acc).
Proof. revert acc. induction cs; intros acc; simpl; rains. Qed.
Hint Resolve rains_alternatives : rains.
Lemma rains_one_layer n u item atom : rains (one_layer term_to_string term_ast_id n u item atom).
Proof. unfold one_layer. rains. Qed.
Lemma rains_instantiate n t ix : rains (instantiate n t ix).
Proof. unfold instantiate. rains. Qed.
Hint Resolve rains_one_layer rains_instantiate : rains.
Lemma rains_hypothesis n ix s : rains (predicate_hypothesis n ix s).
Proof. unfold predicate_hypothesis. rains. Qed.
Lemma rains_branch_goal n c k : rains (branch_goal term_to_string term_ast_id n c k).
Proof. unfold branch_goal. rains. Qed.
Hint Resolve rains_hypothesis rains_branch_goal : rains.
Lemma rains_resources n c i ts items acc a b : rains (resources_loop term_to_string term_ast_id n c i ts items acc a b).
Proof. revert i items acc a b. induction ts; intros i [|item items] acc x y; simpl; rains. Qed.
Lemma rains_record_hypothesis n c i ix h : rains (record_hypothesis term_to_string term_ast_id n c i ix h).
Proof. unfold record_hypothesis. rains. Qed.
Hint Resolve rains_resources rains_record_hypothesis : rains.
Lemma rains_hypotheses n c i l acc : rains (hypotheses_loop term_to_string term_ast_id n c i l acc).
Proof. revert i acc. induction l; intros i acc; simpl; rains. Qed.
Lemma rains_assume r l s : rains (assume_proofs r l s).
Proof. revert s. induction l; intros s; simpl; rains. Qed.
Hint Resolve rains_hypotheses rains_assume : rains.
Lemma rains_prove r t : rains (prove_query r t).
Proof. unfold prove_query. rains. Qed.
Hint Resolve rains_prove : rains.
Lemma rains_close_availability c t : rains (close_availability c t).
Proof. unfold close_availability. rains. Qed.
Hint Resolve rains_close_availability : rains.
Lemma rains_check_availability n c i f t : rains (check_availability term_to_string term_ast_id n c i f t).
Proof. unfold check_availability. rains. Qed.
Lemma rains_field_hypotheses n c o i f l ps acc :
  rains (field_hypotheses_loop term_to_string term_ast_id n c o i f l ps acc).
Proof. revert i ps acc. induction l; intros i [|p ps] acc; simpl; rains. Qed.
Hint Resolve rains_check_availability rains_field_hypotheses : rains.
Lemma rains_branch_fields n c o fs acc : rains (branch_fields_loop term_to_string term_ast_id n c o fs acc).
Proof. revert o acc. induction fs; intros o acc; simpl; rains. Qed.
Hint Resolve rains_branch_fields : rains.
Lemma rains_branch_query n c k : rains (branch_query term_to_string term_ast_id n c k).
Proof. unfold branch_query. rains. Qed.
Hint Resolve rains_branch_query : rains.
Lemma rains_branches n cs k : rains (branches_loop term_to_string term_ast_id n cs k).
Proof. revert k. induction cs; intros k; simpl; rains. Qed.
Lemma rains_layer_availability n item c i fs : rains (layer_fields_loop term_to_string term_ast_id n item c i fs).
Proof. revert i. induction fs; intros i; simpl; rains. Qed.
Lemma rains_traverse {A B} (f : A -> RtM B) l : (forall a, rains (f a)) -> rains (traverse_ f l).
Proof. intros Hf. induction l; simpl; rains. Qed.
Hint Resolve rains_layer_availability rains_traverse : rains.
Lemma rains_check_layers n : rains (check_layers term_to_string term_ast_id n).
Proof. unfold check_layers. rains. Qed.
End Recording.

#[export] Hint Resolve rains_conjunctions rains_equations rains_availability rains_layer_fields rains_one_layer
  rains_instantiate rains_hypothesis rains_branch_goal rains_resources rains_record_hypothesis rains_hypotheses
  rains_assume rains_prove rains_close_availability rains_check_availability rains_field_hypotheses
  rains_branch_fields rains_branch_query rains_branches rains_layer_availability rains_check_layers : rains.

(** ** Queries *)

Section Sound.
Context `{HD : Z3Data} {HA : Z3Api} {HX : Z3Exprs} {HB : Z3Build} {HBL : Z3BuildLaws} {HM : Z3Meaning}
  {HML : Z3MeaningLaws} {HBM : Z3BuildMeaning} {HS : Z3Solver} {HSL : Z3SolverLaws}.
Context (term_to_string : Term -> string) (term_ast_id : Term -> N).

Lemma rained_least st st' w : rained st st' -> least st w -> least st' w.
Proof. by intros [r ->]. Qed.
Lemma rained_proofs st st' : rained st st' -> proofs_hold st -> proofs_hold st'.
Proof. by intros [r ->]. Qed.

Lemma assume_yields r proofs s fs st :
  frames s = [fs] -> yields (assume_proofs r proofs s) st (fun s' _ => frames s' = [fs ++ (ap_theorem <$> proofs)]).
Proof.
  revert s fs st. induction proofs as [|p proofs IH]; intros s fs st Hs; simpl.
  { intros s' st' [= <- <-]. by rewrite app_nil_r. }
  apply yields_rain. intros st1 s' st' E. rewrite (IH _ (fs ++ [ap_theorem p]) _ (frames_add _ _ _ _ Hs) _ _ E).
  by rewrite <- app_assoc.
Qed.

(** An unsatisfiable query refutes its assertion in the worlds of the document. *)
Lemma prove_yields r assertion st :
  proofs_hold st ->
  yields (prove_query r assertion) st (fun x _ => x.1 = unsat ->
    forall w e, least st w -> env_ok e -> ~ holds w e assertion).
Proof.
  intros Hp. unfold prove_query. apply yields_bind. intros proofs st1 [= <- <-]. apply yields_bind.
  intros s st2 Hs%(assume_yields _ _ _ []); [|apply frames_mk]. intros x st' [= <- _] Hx w e Hw He Hh.
  apply (check_unsat (s_add s assertion) [] w e); [done|done| |constructor].
  rewrite (frames_add _ _ _ _ Hs). simpl. rewrite app_nil_r. apply Forall_app. split; [|by constructor].
  apply Forall_fmap. eapply Forall_impl; [exact Hp|]. intros p Hv. by apply Hv.
Qed.

(** Closing over the parameters, and back at their own values. *)
Lemma close_availability_yields relation c availability st :
  constructor_wf relation c ->
  yields (close_availability c availability) st (fun r _ => forall w e, env_ok e -> holds w e r -> holds w e availability).
Proof.
  intros Hc. unfold close_availability. case_bool_decide as Ep; [by intros r st' [= <- <-]|].
  apply yields_z3_last. intros r Hr w e He. pose proof (schema_symbolic c relation Hc) as [Hs _]%Forall_app.
  pose proof (cw_distinct _ _ Hc) as (Hn & _)%NoDup_app. rewrite (holds_anonymous_forall _ _ _ _ _ Hr) by done.
  intros Hall. specialize (Hall (e <$> pc_parameters c)). unfold holds in *. rewrite <- Hall.
  - apply eval_agree. intros x _ _. symmetry. destruct (decide (x ∈ pc_parameters c)) as [Hx|Hx]; [|by apply assign_other].
    apply list_elem_of_lookup in Hx as [i Hi]. eapply assign_lookup; [done|exact Hi|]. by rewrite list_lookup_fmap, Hi.
  - apply Forall2_fmap_r, Forall_Forall2_diag. eapply Forall_impl; [exact Hs|]. intros x Hx. by apply He.
Qed.

Lemma field_binder_symbolic relation c f : constructor_wf relation c -> f ∈ pc_arbitrary_fields c -> symbolic (af_binder_term f).
Proof.
  intros Hc Hf. pose proof (schema_symbolic c relation Hc) as [_ Hs]%Forall_app. rewrite Forall_fmap, Forall_forall in Hs.
  by apply Hs.
Qed.

(** *** Availability of constrained fields *)

(** The obligation of a field, negated and refuted. *)
Lemma refuted_available f (availability obligation negated : Term) w e :
  (forall w e, holds w e availability <-> available w e f) ->
  (forall w e, env_ok e -> holds w e obligation -> holds w e availability) ->
  z3_op ZNot [obligation] = Some negated -> env_ok e -> ~ holds w e negated -> available w e f.
Proof.
  intros Ha Ho Hn He Hno. apply Ha, Ho; [done|]. rewrite (holds_negation _ _ _ _ Hn) in Hno.
  by destruct (holds_dec w e obligation).
Qed.

Lemma layer_fields_available n item relation c i fs st :
  constructor_wf relation c -> fs ⊆ pc_arbitrary_fields c -> proofs_hold st ->
  yields (layer_fields_loop term_to_string term_ast_id n item c i fs) st (fun _ _ =>
    forall w e, least st w -> env_ok e -> Forall (available w e) fs).
Proof.
  intros Hc. revert i st. induction fs as [|f fs IH]; intros i st Hin Hp; cbn [layer_fields_loop]; [by intros ? ? _|].
  apply yields_bind. intros availability st1 E1. pose proof (rains_at _ _ _ _ (rains_availability _ _ _) E1) as R1.
  apply availability_yields in E1; [|eapply field_binder_symbolic; [done|set_solver]].
  apply yields_bind. intros obligation st2 E2. pose proof (rains_at _ _ _ _ (rains_close_availability _ _) E2) as R2.
  pose proof (close_availability_yields _ _ _ _ Hc _ _ E2) as Hob. apply yields_z3. intros negated Hn.
  apply yields_bind. intros [result s] st3 E3. pose proof (rains_at _ _ _ _ (rains_prove _ _) E3) as R3.
  assert (R02 : rained st st2) by (by etrans). apply prove_yields in E3 as Hu; [|by eapply rained_proofs].
  destruct result; [apply yields_rain; intros st4; by intros ? ?| |by intros ? ?]. apply yields_bind. intros [] st4 E4.
  pose proof (rains_at _ _ _ _ (rains_rain _) E4) as R4. simpl. assert (R : rained st st4) by (by do 2 (etrans; [eassumption|])).
  intros [] st' E w e Hw He. constructor.
  - eapply refuted_available; [exact E1|exact Hob|exact Hn|done|]. apply (Hu eq_refl); [|done]. by eapply rained_least.
  - eapply (IH _ st4); [set_solver|by eapply rained_proofs|exact E|by eapply rained_least|done].
Qed.

Lemma check_availability_yields n relation c i f availability st :
  constructor_wf relation c -> proofs_hold st -> (forall w e, holds w e availability <-> available w e f) ->
  yields (check_availability term_to_string term_ast_id n c i f availability) st (fun _ _ =>
    forall w e, least st w -> env_ok e -> available w e f).
Proof.
  intros Hc Hp Ha. unfold check_availability. apply yields_bind. intros obligation st1 E1.
  pose proof (rains_at _ _ _ _ (rains_close_availability _ _) E1) as R1.
  pose proof (close_availability_yields _ _ _ _ Hc _ _ E1) as Hob. apply yields_z3. intros negated Hn.
  apply yields_bind. intros [result s] st2 E2. apply prove_yields in E2 as Hu; [|by eapply rained_proofs].
  destruct result; [apply yields_rain; intros st4; by intros ? ?| |by intros ? ?]. intros [] st' _ w e Hw He.
  eapply refuted_available; [exact Ha|exact Hob|exact Hn|done|]. apply (Hu eq_refl); [|done]. by eapply rained_least.
Qed.

Lemma traverse_yields {A B} (f : A -> RtM B) (P : A -> Prop) st0 l st :
  (forall a, rains (f a)) -> (forall a st, a ∈ l -> rained st0 st -> yields (f a) st (fun _ _ => P a)) -> rained st0 st ->
  yields (traverse_ f l) st (fun _ _ => Forall P l).
Proof.
  intros Hr. revert st. induction l as [|a l IH]; intros st Hf Hst; simpl; [by intros ? ? _|].
  apply yields_bind. intros b st1 E1. pose proof (rains_at _ _ _ _ (Hr a) E1) as R1. apply Hf in E1; [|set_solver|done].
  apply yields_bind. intros bs st2 E2. apply IH in E2; [|intros; apply Hf; [set_solver|done]|by etrans].
  intros ? ? _. by constructor.
Qed.

(** The constrained fields of a predicate's constructors are available. *)
Definition layers_available (w : World) (item : PredicateInfo) : Prop :=
  Forall (fun c => forall e, env_ok e -> Forall (available w e) (pc_arbitrary_fields c)) (pi_constructors item).

Lemma check_layers_yields n st :
  proofs_hold st -> Forall predicate_wf (one_layer_predicates n) ->
  yields (check_layers term_to_string term_ast_id n) st (fun _ _ =>
    forall w, least st w -> Forall (layers_available w) (one_layer_predicates n)).
Proof.
  intros Hp Hwf. unfold check_layers. apply yields_bind. intros l st1 E1. intros [] st' _ w Hw.
  eapply (traverse_yields _ (layers_available w) st _ _); [| |reflexivity|exact E1].
  - intros item. apply rains_traverse. auto with rains.
  - intros item st2 Hin R2. rewrite Forall_forall in Hwf. destruct (Hwf item Hin) as (_ & _ & Hcs).
    apply (traverse_yields _ _ st); [auto with rains| |done]. intros c st3 Hc R3 r st4 E e He.
    rewrite Forall_forall in Hcs. eapply layer_fields_available; [by apply Hcs|reflexivity| |exact E| |done];
      [by eapply rained_proofs|by eapply rained_least].
Qed.

(** ** The statement *)

Definition induction_arg (d : CheckDecl) (i : nat) : string :=
  "Fine.predicate-induction." +:+ check_name d +:+ ".arg" +:+ to_string i.

Definition variables (n : PredicateInduction) : list Term := pn_indices n ++ pn_context n.

(** A term that is an atom of a declared predicate. *)
Definition atom_of (st : RuntimeState) (t : Term) (item : option PredicateInfo) : Prop :=
  match item with
  | Some q => predicates_ st !! pi_name q = Some q /\ exists l, t = App (pi_relation q) l
  | None => True
  end.

Record induction_ok (st : RuntimeState) (n : PredicateInduction) : Prop := {
  io_predicate : predicates_ st !! pi_name (pn_predicate n) = Some (pn_predicate n);
  io_variables i x : variables n !! i = Some x -> x = constant (induction_arg (pn_declaration n) i) (get_sort x);
  io_over : Forall (over (variables n)) (pn_auxiliary_terms n);
  io_auxiliary w e : holds w e (pn_auxiliary n) <-> Forall (holds w e) (pn_auxiliary_terms n);
  io_alone : length (check_assumes (pn_declaration n)) = 1 -> pn_auxiliary_terms n = [];
  io_items : Forall2 (atom_of st) (pn_auxiliary_terms n) (pn_auxiliary_predicates n);
  io_guarantees : over (variables n) (pn_guarantees n);
  io_goal q t : pn_goal n = Some (q, t) -> atom_of st t (Some q) /\ over (variables n) t /\
    forall w e, holds w e t -> holds w e (pn_guarantees n);
  io_target : pn_target_term n = App (pi_relation (pn_predicate n)) (pn_indices n)
}.

(** What is proved of a member. *)
Definition statement_at (w : World) (n : PredicateInduction) (vs : list Value) : Prop :=
  forall e, env_ok e -> holds w (assign e (pn_indices n) vs) (pn_auxiliary n) ->
    holds w (assign e (pn_indices n) vs) (pn_guarantees n).

Section Statement.
Context (st : RuntimeState) (n : PredicateInduction).
Hypothesis Hn : induction_ok st n.

Lemma variables_symbolic : Forall symbolic (variables n).
Proof. apply Forall_lookup. intros i x Hi. rewrite (io_variables _ _ Hn i x Hi). apply constant_symbolic. Qed.

Lemma variables_nodup : NoDup (variables n).
Proof.
  apply NoDup_alt. intros i j x Hi Hj. apply (io_variables _ _ Hn) in Hi, Hj. rewrite Hi in Hj.
  rewrite sort_constant in Hj. apply constant_name in Hj. do 3 apply append_inv_head in Hj. by apply to_string_inj in Hj.
Qed.

Lemma variable_name x : x ∈ variables n ->
  exists i, x = constant (induction_arg (pn_declaration n) i) (get_sort x).
Proof. intros [i Hi]%list_elem_of_lookup. exists i. by apply (io_variables _ _ Hn). Qed.

Lemma schema_not_variable x : schema_constant x -> x ∉ variables n.
Proof. intros [m ->] Hx. apply variable_name in Hx as [i E]. by apply constant_name in E. Qed.

Lemma indices_nodup : NoDup (pn_indices n).
Proof. pose proof variables_nodup as H. by apply NoDup_app in H as [? _]. Qed.
Lemma context_nodup : NoDup (pn_context n).
Proof. pose proof variables_nodup as H. by apply NoDup_app in H as (_ & _ & ?). Qed.
Lemma indices_symbolic : Forall symbolic (pn_indices n).
Proof. pose proof variables_symbolic as H. by apply Forall_app in H as [? _]. Qed.
Lemma context_symbolic : Forall symbolic (pn_context n).
Proof. pose proof variables_symbolic as H. by apply Forall_app in H as [_ ?]. Qed.
Lemma context_not_index x : x ∈ pn_context n -> x ∉ pn_indices n.
Proof. pose proof variables_nodup as H. apply NoDup_app in H as (_ & Hd & _). intros Hc Hi. by eapply Hd. Qed.

Lemma instantiate_yields t ix st1 :
  yields (instantiate n t ix) st1 (fun r _ => length ix = length (pn_indices n) /\ r = expr_substitute t (pn_indices n) ix).
Proof.
  unfold instantiate. destruct (Nat.eqb_spec (length ix) (length (pn_indices n))); [|by intros ? ?].
  by intros r st' [= <- <-].
Qed.

Lemma instance_eval w e t ix :
  length ix = length (pn_indices n) ->
  eval w e (expr_substitute t (pn_indices n) ix) = eval w (assign e (pn_indices n) (eval w e <$> ix)) t.
Proof. intros Hl. by apply eval_substitute; [apply indices_symbolic|apply indices_nodup|]. Qed.

(** *** Hypotheses *)

Definition generalized (suffix : string) : list Term :=
  imap (fun i t => constant (context_name n suffix i) (get_sort t)) (pn_context n).

Lemma generalized_inv suffix x : x ∈ generalized suffix -> exists i s, x = constant (context_name n suffix i) s.
Proof.
  intros [i Hi]%list_elem_of_lookup. unfold generalized in Hi. rewrite list_lookup_imap in Hi.
  destruct (pn_context n !! i); [|done]. injection Hi as <-. by eexists _, _.
Qed.

Lemma generalized_nodup suffix : NoDup (generalized suffix).
Proof.
  apply NoDup_alt. intros i j x Hi Hj. unfold generalized in *. rewrite list_lookup_imap in Hi, Hj.
  destruct (pn_context n !! i) as [p|], (pn_context n !! j) as [q|]; try done. cbn [option_map fmap option_fmap] in Hi, Hj.
  assert (E : constant (context_name n suffix i) (get_sort p) = constant (context_name n suffix j) (get_sort q)) by congruence.
  apply constant_name in E. unfold context_name in E. do 5 apply append_inv_head in E. by apply to_string_inj in E.
Qed.

Lemma generalized_symbolic suffix : Forall symbolic (generalized suffix).
Proof. apply Forall_forall. intros x (i & s & ->)%generalized_inv. apply constant_symbolic. Qed.

Lemma generalized_values suffix (e : Env) :
  env_ok e -> Forall2 (fun c v => value_sort v = get_sort c) (pn_context n) (e <$> generalized suffix).
Proof.
  intros He. apply Forall2_same_length_lookup. unfold generalized. rewrite length_fmap, length_imap. split; [done|].
  intros i x v Hx Hv. rewrite list_lookup_fmap, list_lookup_imap, Hx in Hv. injection Hv as <-.
  rewrite He by apply constant_symbolic. apply sort_constant.
Qed.

Lemma hypothesis_yields ss ix suffix st1 :
  Forall schema_constant ss -> Forall (over ss) ix ->
  yields (predicate_hypothesis n ix suffix) st1 (fun h _ => forall w e, env_ok e ->
    statement_at w n (eval w e <$> ix) -> holds w e h).
Proof.
  intros Hss Hix. unfold predicate_hypothesis. apply yields_z3. intros contextual Hc. fold (generalized suffix).
  assert (Hctx : forall w e, env_ok e -> statement_at w n (eval w e <$> ix) ->
    holds w (assign e (pn_indices n) (eval w e <$> ix)) contextual).
  { intros w e He Hs. apply (holds_implication _ _ _ _ _ Hc). by apply Hs. }
  case_bool_decide as Ectx.
  - intros h st' [Hl ->]%instantiate_yields w e He Hs. unfold holds. rewrite instance_eval by done.
    destruct (Nat.eqb_spec (length (check_assumes (pn_declaration n))) 1) as [E1|]; [|by apply Hctx].
    apply Hs; [done|]. apply (io_auxiliary _ _ Hn). by rewrite (io_alone _ _ Hn E1).
  - apply yields_bind. intros h st2 [Hl ->]%instantiate_yields. apply yields_z3_last. intros r Hr w e He Hs.
    apply (holds_forall _ _ _ _ _ _ Hr); [apply generalized_symbolic|apply generalized_nodup|]. intros vs Hvs.
    set (e2 := assign e (generalized suffix) vs). assert (He2 : env_ok e2) by (by apply env_ok_assign).
    unfold holds. rewrite eval_substitute; [|apply context_symbolic|apply context_nodup|by unfold generalized; rewrite length_imap].
    rewrite eval_fmap_symbolic by apply generalized_symbolic. set (e3 := assign e2 _ _).
    assert (He3 : env_ok e3) by (apply env_ok_assign; [done|by apply generalized_values]).
    assert (Eix : eval w e3 <$> ix = eval w e <$> ix).
    { apply (over_agree_list _ _ _ ss); [done|]. intros x Hx. rewrite Forall_forall in Hss. unfold e3, e2.
      rewrite !assign_other; [done| |].
      - intros (i & s & E)%generalized_inv. destruct (Hss x Hx) as [m Em]. rewrite Em in E. by apply constant_name in E.
      - intros Hc'. apply (schema_not_variable x (Hss x Hx)). apply elem_of_app. by right. }
    rewrite instance_eval, Eix by done. change (holds w (assign e3 (pn_indices n) (eval w e <$> ix)) contextual).
    rewrite <- Eix. apply Hctx; [done|]. by rewrite Eix.
Qed.

(** *** The branch of a constructor *)

Section Branch.
Context (c : PredicateConstructorInfo).
Hypothesis Hc : constructor_wf (pi_relation (pn_predicate n)) c.

Lemma parameters_schema : Forall schema_constant (pc_parameters c).
Proof. pose proof (cw_constants _ _ Hc) as Hs. by apply Forall_app in Hs as [? _]. Qed.

Lemma field_schema f : f ∈ pc_arbitrary_fields c -> Forall schema_constant (pc_parameters c ++ [af_binder_term f]).
Proof.
  intros Hf. pose proof (cw_constants _ _ Hc) as Hs. apply Forall_app in Hs as [Hs Hb]. apply Forall_app. split; [done|].
  rewrite Forall_fmap, Forall_forall in Hb. constructor; [by apply Hb|constructor].
Qed.

Lemma recursive_over ix : ix ∈ pc_recursive_premise_indices c -> Forall (over (pc_parameters c)) ix.
Proof.
  intros Hix. pose proof (cw_recursive _ _ Hc) as Hr. rewrite Forall_forall in Hr. specialize (Hr _ Hix).
  pose proof (cw_premises _ _ Hc) as Hp. rewrite Forall_forall in Hp. by apply (over_app (pi_relation (pn_predicate n))), Hp.
Qed.

Lemma hypotheses_yields i l acc st1 :
  l ⊆ pc_recursive_premise_indices c ->
  yields (hypotheses_loop term_to_string term_ast_id n c i l acc) st1 (fun r _ => forall w e, env_ok e -> holds w e acc ->
    Forall (fun ix => statement_at w n (eval w e <$> ix)) l -> holds w e r).
Proof.
  revert i acc st1. induction l as [|ix l IH]; intros i acc st1 Hl; cbn [hypotheses_loop]; [by intros r st' [= <- <-]|].
  apply yields_bind. intros h st2 Hh%(hypothesis_yields (pc_parameters c)); [|apply parameters_schema|apply recursive_over; set_solver].
  apply yields_z3. intros acc' Ha. apply yields_bind. intros [] st3 _. intros r st' E w e He Hacc [Hix Hrest]%Forall_cons.
  eapply IH; [set_solver|exact E|done| |done]. apply (holds_and _ _ _ _ _ Ha). split; [done|by apply Hh].
Qed.

Lemma field_hypotheses_yields o i f l ps acc st1 :
  f ∈ pc_arbitrary_fields c -> l ⊆ af_recursive_premise_indices f ->
  yields (field_hypotheses_loop term_to_string term_ast_id n c o i f l ps acc) st1 (fun r _ => forall w e, env_ok e ->
    holds w e acc -> Forall (fun ix => statement_at w n (eval w e <$> ix)) l -> holds w e r).
Proof.
  intros Hf. pose proof (cw_fields _ _ Hc) as Hw. rewrite Forall_forall in Hw. specialize (Hw f Hf).
  revert i ps acc st1. induction l as [|ix l IH]; intros i [|p ps] acc st1 Hl; cbn [field_hypotheses_loop];
    [by intros r st' [= <- <-]..|]. apply yields_bind. intros h st2 Hh%(hypothesis_yields (pc_parameters c ++ [af_binder_term f])).
  - apply yields_z3. intros acc' Ha. apply yields_rain. intros st3 r st' E w e He Hacc [Hix Hrest]%Forall_cons.
    eapply IH; [set_solver|exact E|done| |done]. apply (holds_and _ _ _ _ _ Ha). split; [done|by apply Hh].
  - by apply field_schema.
  - assert (Hin : ix ∈ af_recursive_premise_indices f) by set_solver. rewrite (fw_indices _ _ _ Hw) in Hin.
    apply list_elem_of_fmap in Hin as (t & -> & Ht). pose proof (fw_premises _ _ _ Hw) as Hp. rewrite Forall_forall in Hp.
    destruct (Hp t Ht) as [Ho [l' ->]]. by eapply over_app.
Qed.

(** The statement at the premises of a field, for every value its view admits. *)
Definition field_statement (w : World) (e : Env) (f : ArbitraryField) : Prop :=
  forall v, value_sort v = get_sort (af_binder_term f) ->
    let e' := assign e [af_binder_term f] [v] in
    holds w e' (af_requirement f) -> Forall (fun ix => statement_at w n (eval w e' <$> ix)) (af_recursive_premise_indices f).

Lemma branch_fields_yields o fs acc st1 :
  rained st st1 -> proofs_hold st -> fs ⊆ pc_arbitrary_fields c ->
  yields (branch_fields_loop term_to_string term_ast_id n c o fs acc) st1 (fun r _ => forall w e, least st w -> env_ok e ->
    holds w e acc -> Forall (field_statement w e) fs -> holds w e r).
Proof.
  intros R1 Hp. revert o acc st1 R1. induction fs as [|f fs IH]; intros o acc st1 R1 Hfs; cbn [branch_fields_loop];
    [by intros r st' [= <- <-]|].
  assert (Hf : f ∈ pc_arbitrary_fields c) by set_solver. pose proof (field_binder_symbolic _ _ _ Hc Hf) as Hs.
  apply yields_bind. intros availability st2 E2. pose proof (rains_at _ _ _ _ (rains_availability _ _ _) E2) as R2.
  apply availability_yields in E2 as Hav; [|done]. apply yields_bind. intros [] st3 E3.
  pose proof (rains_at _ _ _ _ (rains_check_availability _ _ _ _ _ _ _) E3) as R3.
  assert (R12 : rained st st2) by (by etrans).
  apply (check_availability_yields _ _ _ _ _ _ _ Hc) in E3 as Hcheck; [|by eapply rained_proofs|done].
  apply yields_bind. intros templates st4 E4. pose proof (rains_at _ _ _ _ (rains_field_hypotheses _ _ _ _ _ _ _ _ _ _) E4) as R4.
  apply field_hypotheses_yields in E4 as Ht; [|done|done]. apply yields_z3. intros body Hbody. apply yields_z3. intros total Htotal.
  apply yields_bind. intros acc' st5 E5. pose proof (rains_at _ _ _ _ (rains_conjunctions _ _) E5) as R5.
  apply conjunctions_yields in E5 as Hacc'. apply yields_bind. intros [] st6 E6. pose proof (rains_at _ _ _ _ (rains_rain _) E6) as R6.
  intros r st' E w e Hw He Hacc [Hfield Hrest]%Forall_cons.
  eapply (IH _ acc' st6); [by do 4 (etrans; [eassumption|])|set_solver|exact E|done|done| |done].
  apply Hacc'. split; [done|]. repeat constructor.
  - apply Hav. apply Hcheck; [by eapply rained_least|done].
  - apply (total_yields _ _ _ _ _ Hs Htotal). intros v Hv. apply (holds_implication _ _ _ _ _ Hbody). intros Hr.
    apply Ht; [|apply holds_true|by apply Hfield]. apply env_ok_assign; [done|by repeat constructor].
Qed.

(** Where the branch is read: the constructor's values with a context. *)
Definition branch_env (e0 e : Env) : Env := assign e0 (pn_context n) (e <$> pn_context n).

Lemma branch_env_ok e0 e : env_ok e0 -> env_ok e -> env_ok (branch_env e0 e).
Proof.
  intros He0 He. apply env_ok_assign; [done|]. apply Forall2_fmap_r, Forall_Forall2_diag.
  eapply Forall_impl; [apply context_symbolic|]. intros x Hx. by apply He.
Qed.

Lemma branch_env_schema e0 e x : schema_constant x -> branch_env e0 e x = e0 x.
Proof. intros Hx. apply assign_other. intros Hc'. apply (schema_not_variable x Hx). apply elem_of_app. by right. Qed.

Lemma branch_env_over w e0 e ss l : Forall schema_constant ss -> Forall (over ss) l -> eval w (branch_env e0 e) <$> l = eval w e0 <$> l.
Proof.
  intros Hss Hl. apply (over_agree_list _ _ _ ss); [done|]. intros x Hx. apply branch_env_schema.
  rewrite Forall_forall in Hss. by apply Hss.
Qed.

(** A term of the statement at the constructor's indices. *)
Lemma specialized_holds w e0 e t :
  over (variables n) t -> length (pc_result_indices c) = length (pn_indices n) ->
  holds w (branch_env e0 e) (expr_substitute t (pn_indices n) (pc_result_indices c)) <->
  holds w (assign e (pn_indices n) (eval w e0 <$> pc_result_indices c)) t.
Proof.
  intros Ho Hl. unfold holds at 1. rewrite instance_eval by done.
  rewrite (branch_env_over _ _ _ (pc_parameters c) _ parameters_schema (cw_result _ _ Hc)).
  apply (over_holds _ _ _ _ _ Ho). intros x [Hx|Hx]%elem_of_app.
  - apply list_elem_of_lookup in Hx as [i Hi].
    destruct (lookup_lt_is_Some_2 (pc_result_indices c) i) as [r Hr]; [rewrite Hl; by eapply lookup_lt_Some|].
    transitivity (eval w e0 r); [|symmetry]; (eapply assign_lookup; [apply indices_nodup|exact Hi|by rewrite list_lookup_fmap, Hr]).
  - rewrite !assign_other by (by apply context_not_index). apply list_elem_of_lookup in Hx as [i Hi].
    eapply assign_lookup; [apply context_nodup|exact Hi|]. by rewrite list_lookup_fmap, Hi.
Qed.

(** The indices of a specialized atom do not mention local constants. *)
Lemma specialized_unaffected u c' t :
  over (variables n) t -> length (pc_result_indices c) = length (pn_indices n) ->
  unaffected (local_parameters n u c') (expr_substitute t (pn_indices n) (pc_result_indices c)).
Proof.
  intros Ho Hl w e vs. rewrite !instance_eval by done.
  assert (Hfresh : forall x, x ∈ local_parameters n u c' -> x ∉ variables n /\ ~ schema_constant x).
  { intros x (i & s & ->)%local_parameter_inv. split.
    - intros [j E]%variable_name. apply constant_name in E. unfold local_prefix, induction_arg in E.
      rewrite !append_assoc in E. by do 2 apply append_inv_head in E.
    - intros [m E]. rewrite sort_constant in E. by apply constant_name in E. }
  rewrite (over_agree_list w (assign e (local_parameters n u c') vs) e (pc_parameters c) _ (cw_result _ _ Hc)).
  - apply (over_agree _ _ _ _ _ Ho). intros x Hx. destruct (decide (x ∈ pn_indices n)) as [Hi|Hi].
    + apply list_elem_of_lookup in Hi as [i Hi].
      destruct (lookup_lt_is_Some_2 (pc_result_indices c) i) as [r Hr]; [rewrite Hl; by eapply lookup_lt_Some|].
      transitivity (eval w e r); [|symmetry]; (eapply assign_lookup; [apply indices_nodup|exact Hi|by rewrite list_lookup_fmap, Hr]).
    + rewrite !(assign_other _ (pn_indices n)) by done. apply assign_other. intros Hx'. by apply Hfresh in Hx' as [? _].
  - intros x Hx. apply assign_other. intros Hx'. apply Hfresh in Hx' as [_ Hno]. apply Hno.
    pose proof parameters_schema as Hs. rewrite Forall_forall in Hs. by apply Hs.
Qed.

(** A specialized atom of a declared predicate, and its layer. *)
Lemma specialized_layer u item t st1 :
  predicate_wf item -> over (variables n) t -> (exists l, t = App (pi_relation item) l) ->
  length (pc_result_indices c) = length (pn_indices n) ->
  let atom := expr_substitute t (pn_indices n) (pc_result_indices c) in
  yields (one_layer term_to_string term_ast_id n u item atom) st1 (fun r _ => forall w e, env_ok e ->
    (generated w item -> holds w e r -> holds w e atom) /\
    (generated w item -> layers_available w item -> holds w e atom -> holds w e r)).
Proof.
  intros Hwf Ho [l ->] Hl atom. pose proof Hwf as (Hi & _ & Hcs).
  assert (Ea : atom = App (pi_relation item) ((fun t => expr_substitute t (pn_indices n) (pc_result_indices c)) <$> l)).
  { apply substitute_app; [done|apply indices_symbolic]. }
  intros r st' E. apply one_layer_yields in E as Hr; [|done|].
  - intros w e He. rewrite (Hr w e He). clear E Hr. rewrite Ea. cbn [args]. rewrite holds_atom by done. split.
    + intros Hg (c' & Hin & Happ). rewrite Forall_forall in Hcs. eapply applies_member; [done|by apply Hcs|done..].
    + intros Hg Hav Hm. by apply member_applies.
  - intros c' _. rewrite Ea. cbn [args]. apply Forall_fmap. apply over_app in Ho. eapply Forall_impl; [exact Ho|].
    intros x Hx. by apply specialized_unaffected.
Qed.

Hypothesis Hwf : predicates_wf st.

Lemma declared_wf q : predicates_ st !! pi_name q = Some q -> predicate_wf q.
Proof. intros Hq. by apply Hwf in Hq as [_ ?]. Qed.

(** One context assumption: the atom with its layer, or the condition itself. *)
Lemma resource_yields i t item a b st1 :
  over (variables n) t -> atom_of st t item -> length (pc_result_indices c) = length (pn_indices n) ->
  let atom := expr_substitute t (pn_indices n) (pc_result_indices c) in
  yields (match item with
          | None => mret (atom, a, b)
          | Some item =>
              unfolded ← one_layer term_to_string term_ast_id n (mkLayerUse (pc_name c) "assumption" i b) item atom;
              resource ← z3_call "and" (z3_op ZAnd [atom; unfolded]);
              rain (invert_record term_to_string term_ast_id n c i item atom unfolded resource) ;;
              mret (resource, S a, S b)
          end) st1 (fun r _ => forall w e, env_ok e -> least st w -> (forall q, Some q = item -> layers_available w q) ->
    holds w e atom -> holds w e r.1.1).
Proof.
  intros Ho Hatom Hl atom. destruct item as [q|]; [|by intros r st' [= <- <-]]. destruct Hatom as [Hq Ht].
  apply yields_bind. intros unfolded st4 Hu%specialized_layer; [|by apply declared_wf|done..].
  apply yields_z3. intros res Hand. apply yields_rain. intros st5 r st' [= <- <-] w e He Hw Hav Hh.
  apply (holds_and _ _ _ _ _ Hand). split; [done|]. apply (Hu w e He); [|by apply Hav|done]. by apply (Hw (pi_name q)).
Qed.

Lemma resources_yields i ts items acc a b st1 :
  Forall (over (variables n)) ts -> Forall2 (atom_of st) ts items -> length (pc_result_indices c) = length (pn_indices n) ->
  yields (resources_loop term_to_string term_ast_id n c i ts items acc a b) st1 (fun r _ => forall w e, env_ok e -> least st w ->
    (forall q, Some q ∈ items -> layers_available w q) -> holds w e acc ->
    Forall (fun t => holds w e (expr_substitute t (pn_indices n) (pc_result_indices c))) ts -> holds w e r.1.1).
Proof.
  intros Ho Hat Hl. revert i acc a b st1. induction Hat as [|t item ts items Hatom _ IH]; intros i acc a b st1; cbn [resources_loop].
  { by intros r st' [= <- <-]. }
  apply Forall_cons in Ho as [Ho Hos]. specialize (IH Hos). apply yields_bind. intros specialized st2 [_ ->]%instantiate_yields.
  set (atom := expr_substitute t _ _). apply yields_bind. intros [[resource inverted] serial] st3 E3.
  apply resource_yields in E3 as Hres; [|done..].
  apply yields_z3. intros acc' Hacc. intros r st' E w e He Hw Hav Ha [Ht Hts]%Forall_cons.
  eapply IH; [exact E|done|done|set_solver| |done]. apply (holds_and _ _ _ _ _ Hacc). split; [done|].
  apply Hres; [done|done| |done]. intros q Hq. apply Hav. rewrite Hq. apply list_elem_of_here.
Qed.

Lemma branch_goal_yields k st1 :
  yields (branch_goal term_to_string term_ast_id n c k) st1 (fun r _ => length (pc_result_indices c) = length (pn_indices n) /\
    forall w e, env_ok e -> least st w -> holds w e r.1.2 ->
      holds w e (expr_substitute (pn_guarantees n) (pn_indices n) (pc_result_indices c))).
Proof.
  unfold branch_goal. apply yields_bind. intros goal st2 [Hl ->]%instantiate_yields.
  destruct (pn_goal n) as [[q t]|] eqn:Eg; [|by intros r st' [= <- <-]].
  destruct (io_goal _ _ Hn _ _ Eg) as ((Hq & Ht) & Ho & Hg). apply yields_bind. intros atom st3 [_ ->]%instantiate_yields.
  apply yields_bind. intros resource st4 Hr%specialized_layer; [|by apply declared_wf|done..].
  apply yields_rain. intros st5 r st' [= <- <-]. split; [done|]. intros w e He Hw Hh.
  apply (Hr w e He) in Hh; [|by apply (Hw (pi_name q))]. unfold holds in *. rewrite instance_eval in * by done. by apply Hg.
Qed.

Lemma field_statement_branch w e0 e f :
  f ∈ pc_arbitrary_fields c -> field_premises w e0 (pi_relation (pn_predicate n)) (statement_at w n) f ->
  field_statement w (branch_env e0 e) f.
Proof.
  intros Hf Hp v Hv e' Hr. pose proof (cw_fields _ _ Hc) as Hw. rewrite Forall_forall in Hw. specialize (Hw f Hf).
  pose proof (field_schema f Hf) as Hss. set (ss := pc_parameters c ++ [af_binder_term f]) in *.
  assert (Hagree : forall x, x ∈ ss -> e' x = assign e0 [af_binder_term f] [v] x).
  { intros x Hx. unfold e'. simpl. destruct (term_eqb _ x); [done|]. apply branch_env_schema. rewrite Forall_forall in Hss. by apply Hss. }
  apply (over_holds w _ _ ss _ (fw_requirement _ _ _ Hw) Hagree) in Hr. specialize (Hp v Hv Hr).
  rewrite (fw_indices _ _ _ Hw), Forall_fmap. apply Forall_lookup. intros i t Ht. pose proof (fw_premises _ _ _ Hw) as Hps.
  rewrite Forall_lookup in Hp, Hps. destruct (Hps i t Ht) as [Ho [l ->]]. destruct (Hp i _ Ht) as [Hx _]. simpl.
  rewrite (over_agree_list w _ _ ss l (over_app _ _ _ Ho) Hagree). by apply Hx.
Qed.

(** An unsatisfiable branch makes the statement closed under its constructor. *)
Lemma branch_query_yields k st1 :
  rained st st1 -> proofs_hold st ->
  yields (branch_query term_to_string term_ast_id n c k) st1 (fun r _ => forall w, least st w ->
    (forall q, Some q ∈ pn_auxiliary_predicates n -> layers_available w q) ->
    (forall e, env_ok e -> ~ holds w e (br_query r.1)) ->
    forall vs, derives w (pi_relation (pn_predicate n)) (statement_at w n) c vs -> statement_at w n vs).
Proof.
  intros R1 Hp. unfold branch_query. case_match; [by intros ? ?|]. apply yields_z3. intros result _.
  apply yields_bind. intros [[goal resource] k'] st2 E2. pose proof (rains_at _ _ _ _ (rains_branch_goal _ _ _ _ _) E2) as R2.
  apply branch_goal_yields in E2 as [Hl Hgoal]. apply yields_bind. intros assumptions st3 E3.
  pose proof (rains_at _ _ _ _ (rains_instantiate _ _ _) E3) as R3. apply yields_bind. intros [[resources inverted] k''] st4 E4.
  pose proof (rains_at _ _ _ _ (rains_resources _ _ _ _ _ _ _ _ _ _) E4) as R4.
  apply resources_yields in E4 as Hres; [|apply Hn..|done]. apply yields_bind. intros h1 st5 E5.
  pose proof (rains_at _ _ _ _ (rains_hypotheses _ _ _ _ _ _ _) E5) as R5. apply hypotheses_yields in E5 as Hh1; [|done].
  apply yields_bind. intros h2 st6 Hh2%branch_fields_yields; [|by do 4 (etrans; [eassumption|])|done|done].
  apply yields_z3. intros conj Hconj. apply yields_z3. intros negated Hneg. apply yields_z3. intros query Hq.
  intros r st' [= <- <-] w Hw Hav Hun vs (e0 & He0 & -> & Hprem & Hfields) e He Haux. cbn [br_query fst] in Hun. cbn [fst snd] in Hgoal, Hres.
  pose proof (branch_env_ok e0 e He0 He) as HE. apply specialized_holds; [apply Hn|done|]. apply Hgoal; [done..|].
  destruct (holds_dec w (branch_env e0 e) resource) as [|Hno]; [done|]. exfalso. apply (Hun _ HE).
  apply (holds_and _ _ _ _ _ Hq). rewrite (holds_negation _ _ _ _ Hneg). split; [|done].
  apply (holds_and _ _ _ _ _ Hconj). split.
  - apply Hh2; [done|done| |].
    + apply Hh1; [done|apply holds_true|]. apply Forall_forall. intros ix Hix.
      rewrite (branch_env_over _ _ _ (pc_parameters c)); [|apply parameters_schema|by apply recursive_over].
      pose proof (cw_recursive _ _ Hc) as Hr. rewrite Forall_forall in Hr. rewrite Forall_forall in Hprem. by apply (Hprem _ (Hr ix Hix)).
    + apply Forall_forall. intros f Hf. apply field_statement_branch; [done|]. rewrite Forall_forall in Hfields. by apply Hfields.
  - apply Hres; [done|done|done|apply holds_true|]. apply (io_auxiliary _ _ Hn) in Haux. pose proof (io_over _ _ Hn) as Ho.
    apply Forall_lookup. intros i t Hi. rewrite Forall_lookup in Haux, Ho. apply specialized_holds; [by eapply Ho|done|by eapply Haux].
Qed.
End Branch.

(** ** All branches *)

Hypothesis Hwf : predicates_wf st.

Lemma branches_yields cs k st1 :
  rained st st1 -> proofs_hold st -> cs ⊆ pi_constructors (pn_predicate n) ->
  yields (branches_loop term_to_string term_ast_id n cs k) st1 (fun failed _ => failed = None -> forall w, least st w ->
    (forall q, Some q ∈ pn_auxiliary_predicates n -> layers_available w q) ->
    forall c vs, c ∈ cs -> derives w (pi_relation (pn_predicate n)) (statement_at w n) c vs -> statement_at w n vs).
Proof.
  intros R1 Hp. revert k st1 R1. induction cs as [|c cs IH]; intros k st1 R1 Hcs; cbn [branches_loop].
  { intros r st' _ _ w _ _ c vs Hc. by apply elem_of_nil in Hc. }
  assert (Hc : constructor_wf (pi_relation (pn_predicate n)) c).
  { destruct (declared_wf Hwf _ (io_predicate _ _ Hn)) as (_ & _ & Hall). rewrite Forall_forall in Hall. apply Hall. set_solver. }
  apply yields_bind. intros [b k'] st2 E2. pose proof (rains_at _ _ _ _ (rains_branch_query _ _ _ _ _) E2) as R2.
  apply (branch_query_yields c Hc Hwf) in E2 as Hb; [|done|done]. apply yields_bind. intros [] st3 E3.
  pose proof (rains_at _ _ _ _ (rains_rain _) E3) as R3. apply yields_bind. intros [result s] st4 E4.
  pose proof (rains_at _ _ _ _ (rains_prove _ _) E4) as R4. assert (R03 : rained st st3) by (by do 2 (etrans; [eassumption|])).
  apply prove_yields in E4 as Hu; [|by eapply rained_proofs]. destruct result; [| |by intros ? ?].
  { apply yields_bind. intros [] st5 _. by intros r st' [= <- <-]. }
  apply yields_bind. intros [] st5 E5. pose proof (rains_at _ _ _ _ (rains_rain _) E5) as R5. simpl. intros r st' E Hr w Hw Hav c' vs Hin.
  apply elem_of_cons in Hin as [->|Hin].
  - apply Hb; [done|done|]. intros e He. apply (Hu eq_refl); [by eapply rained_least|done].
  - eapply (IH _ st5); [by do 2 (etrans; [eassumption|])|set_solver|exact E|done..].
Qed.

(** The statement holds of the members, so of the variables when the target does. *)
Lemma statement_members w e :
  generated w (pn_predicate n) -> closed_under w (pn_predicate n) (statement_at w n) -> env_ok e ->
  holds w e (pn_target_term n) -> holds w e (pn_auxiliary n) -> holds w e (pn_guarantees n).
Proof.
  intros [_ Hleast] Hclosed He Ht Ha. rewrite (io_target _ _ Hn) in Ht. destruct (declared_wf Hwf _ (io_predicate _ _ Hn)) as (Hi & _).
  apply holds_atom in Ht; [|done]. rewrite eval_fmap_symbolic in Ht by apply indices_symbolic.
  assert (Esame : forall x, assign e (pn_indices n) (e <$> pn_indices n) x = e x).
  { intros x. destruct (decide (x ∈ pn_indices n)) as [Hx|Hx]; [|by apply assign_other].
    apply list_elem_of_lookup in Hx as [i Hx]. eapply assign_lookup; [apply indices_nodup|exact Hx|]. by rewrite list_lookup_fmap, Hx. }
  assert (Eh : forall t, holds w (assign e (pn_indices n) (e <$> pn_indices n)) t <-> holds w e t).
  { intros t. unfold holds. by rewrite (eval_agree w _ e t (fun x _ _ => Esame x)). }
  apply Eh. apply (Hleast _ Hclosed _ Ht); [done|]. by apply Eh.
Qed.

Definition layered : list PredicateInfo :=
  omap id (pn_auxiliary_predicates n) ++ match pn_goal n with Some (item, _) => [item] | None => [] end.

Lemma one_layer_covers q : q ∈ layered -> exists q', q' ∈ one_layer_predicates n /\ pi_name q' = pi_name q.
Proof.
  unfold one_layer_predicates. fold layered. set (add := fun (l : list PredicateInfo) item => _).
  assert (Hmono : forall l acc q, q ∈ acc -> q ∈ foldl add acc l).
  { clear. induction l as [|x l IH]; intros acc q Hq; simpl; [done|]. apply IH. unfold add. case_match; [done|]. apply elem_of_app. by left. }
  generalize (@nil PredicateInfo). induction layered as [|x l IH]; intros acc Hq; simpl; [by apply elem_of_nil in Hq|].
  apply elem_of_cons in Hq as [->|Hq]; [|by apply IH]. destruct (existsb (fun other => pi_name other =? pi_name x)%string acc) eqn:Eb.
  - apply existsb_exists in Eb as (q' & Hq' & En%String.eqb_eq). exists q'. split; [|done]. apply Hmono. unfold add.
    case_match; [by apply list_elem_of_In|]. apply elem_of_app. left. by apply list_elem_of_In.
  - exists x. split; [|done]. apply Hmono. unfold add. rewrite Eb. apply elem_of_app. right. by apply list_elem_of_singleton.
Qed.

Lemma one_layer_inv q : q ∈ one_layer_predicates n -> q ∈ layered.
Proof.
  unfold one_layer_predicates. fold layered. set (add := fun (l : list PredicateInfo) item => _).
  assert (Hin : forall l acc, q ∈ foldl add acc l -> q ∈ acc \/ q ∈ l).
  { clear. induction l as [|x l IH]; intros acc Hq; simpl in *; [by left|]. apply IH in Hq as [Hq|Hq]; [|right; by apply list_elem_of_further].
    unfold add in Hq. case_match; [by left|]. apply elem_of_app in Hq as [?| ->%list_elem_of_singleton]; [by left|]. right. apply list_elem_of_here. }
  intros Hq%Hin. destruct Hq as [Hq|Hq]; [by apply elem_of_nil in Hq|done].
Qed.

Lemma layered_declared q : q ∈ layered -> predicates_ st !! pi_name q = Some q.
Proof.
  intros [Hq|Hq]%elem_of_app.
  - apply list_elem_of_omap in Hq as (item & Hin & [= ->]). pose proof (io_items _ _ Hn) as Hi.
    apply list_elem_of_lookup in Hin as [i Hi']. destruct (Forall2_lookup_r _ _ _ _ _ Hi Hi') as (t & _ & Hat). by destruct Hat.
  - destruct (pn_goal n) as [[q' t]|] eqn:Eg; [|by apply elem_of_nil in Hq]. apply list_elem_of_singleton in Hq as ->.
    by destruct (io_goal _ _ Hn _ _ Eg) as ([? _] & _).
Qed.

Lemma layers_cover w q :
  Forall (layers_available w) (one_layer_predicates n) -> Some q ∈ pn_auxiliary_predicates n -> layers_available w q.
Proof.
  intros Hall Hq. assert (Hl : q ∈ layered). { apply elem_of_app. left. apply list_elem_of_omap. by exists (Some q). }
  destruct (one_layer_covers q Hl) as (q' & Hq' & En). pose proof (layered_declared _ (one_layer_inv _ Hq')) as E'.
  pose proof (layered_declared _ Hl) as E. rewrite En, E in E'. injection E' as ->. rewrite Forall_forall in Hall. by apply Hall.
Qed.

(** Every constructor verified makes the theorem true in the worlds of the document. *)
Lemma branches_prove antecedent theorem st1 :
  rained st st1 -> proofs_hold st ->
  z3_op ZAnd [pn_target_term n; pn_auxiliary n] = Some antecedent ->
  z3_op ZImplies [antecedent; pn_guarantees n] = Some theorem ->
  yields (check_layers term_to_string term_ast_id n ;;
          branches_loop term_to_string term_ast_id n (pi_constructors (pn_predicate n)) 0) st1 (fun failed st' =>
    rained st st' /\ (failed = None -> holds_in st theorem)).
Proof.
  intros R1 Hp Hand Himp. apply yields_bind. intros [] st2 E2. pose proof (rains_at _ _ _ _ (rains_check_layers _ _ _) E2) as R2.
  apply check_layers_yields in E2 as Hlayers; [|by eapply rained_proofs|].
  2:{ apply Forall_forall. intros q Hq. by apply (declared_wf Hwf), layered_declared, one_layer_inv. }
  intros failed st' E. pose proof (rains_at _ _ _ _ (rains_branches _ _ _ _ _) E) as R3.
  apply branches_yields in E as Hb; [|by etrans|done|done]. split; [by do 2 (etrans; [eassumption|])|].
  intros Hf w Hw e He. apply (holds_implication _ _ _ _ _ Himp). intros [Ht Ha]%(holds_and _ _ _ _ _ Hand).
  apply (statement_members w e); [by apply (Hw _ _ (io_predicate _ _ Hn))| |done..].
  intros c vs Hc. apply (Hb Hf w Hw); [|done]. intros q. apply layers_cover, Hlayers. by eapply rained_least.
Qed.
End Statement.
End Sound.
