(* ===== verification/DeclarePredicateSpec.v ===== *)
(** * Declared predicates are well formed

    Elaborating an expression again, in a later state, gives the same term
    ([elaborate_stable]): the indices [declare_predicate] elaborates a second
    time are those of the premises it asserted.  [declare_predicate_yields]:
    the constructors it retains satisfy [constructor_wf]. *)

From stdpp Require Import gmap.
From S2P Require Import Prelude Format Syntax Lexer Printer Parser ParserSpec Source Z3Ast Z3Solver Z3Build Z3Check Z3Fixedpoint Z3Horn Lift Recorder Observers Runtime Elaborate Declare Values Predicate RuntimeSpec ElaborateSpec DeclareSpec EnumSpec FunctionSpec CheckSpec CheckSound PredicateSpec.
From Stdlib Require Import NArith.

Section Stable.
Context `{Z3BuildLaws} (term_to_string : Term -> string) (term_ast_id : Term -> N).
Abbreviation elaborate_expression := (elaborate_expression term_to_string term_ast_id).
Abbreviation completed_expression := (completed_expression term_to_string term_ast_id).

(** What elaborating leaves: a well-formed state with the same names. *)
Definition later (st st' : RuntimeState) : Prop := keeps st st' /\ frame st st'.

Lemma later_refl st : runtime_ok st -> later st st.
Proof. intros Hok. split; [by apply keeps_refl|done]. Qed.
Lemma later_trans a b c : later a b -> later b c -> later a c.
Proof. intros [? ?] [? ?]. split; [by eapply keeps_trans|by etrans]. Qed.
Lemma later_ok a b : later a b -> runtime_ok b.
Proof. by intros [[? _] _]. Qed.
Lemma later_grows a b : later a b -> grows a b.
Proof. by intros [[_ ?] _]. Qed.
Lemma later_type a b p rt : later a b -> type_heap a !! p = Some rt -> type_heap b !! p = Some rt.
Proof. intros Hl. by apply grows_type, later_grows. Qed.

Lemma completed_Ok source p t st te st' : completed_expression source p t st = (Ok te, st') -> te = mkTyped p t.
Proof.
  intros (cap & st1 & _ & E)%bind_Ok. apply bind_Ok in E as (wi & st2 & _ & E). apply bind_Ok in E as (u & st3 & _ & E).
  by injection E as <- _.
Qed.

Lemma rain_later {A} (m : RecM A) st u st' : runtime_ok st -> rain m st = (Ok u, st') -> later st st'.
Proof.
  intros Hok E. split; [|by apply (framed_at _ _ _ _ (framed_rain m) E)]. exact (safe_yields _ _ _ _ _ (safe_rain m st Hok) E).
Qed.

Lemma completed_later source p t st te st' :
  runtime_ok st -> completed_expression source p t st = (Ok te, st') -> later st st'.
Proof.
  intros Hok (cap & st1 & [= <- <-] & E)%bind_Ok. apply bind_Ok in E as (wi & st2 & [= <- <-] & E).
  apply bind_Ok in E as (u & st3 & E3 & [= _ <-]). destruct (capture_source_edges_ st); [by eapply rain_later|].
  injection E3 as _ ->. by apply later_refl.
Qed.

Lemma elaborate_yields e env st :
  source_form e = true -> runtime_ok st -> env_typed st env ->
  yields (elaborate_expression env e) st (fun te st' => later st st' /\ has_type st' te /\ within env (te_expression te)).
Proof.
  intros Hf Hok He te st' E. pose proof (framed_at _ _ _ _ (framed_elaborate _ _ _ _) E) as Hfr.
  destruct (safe_yields _ _ _ _ _ (elaborate_scoped _ _ e Hf env st Hok He) E) as (K & ? & ?). done.
Qed.

(** The callee a name denotes. *)
Definition callee_of (st : RuntimeState) (n : string) : option Callee :=
  match constructors_ st !! n with
  | Some (p, i) =>
      info ← datatype_heap st !! p; item ← di_cases info !! i; Some (constructor_callee n info item)
  | None =>
      match predicates_ st !! n with
      | Some item => Some (predicate_callee n item)
      | None => function_callee n <$> functions_ st !! n
      end
  end.

Lemma find_callee_Ok source st c st' : find_callee source st = (Ok c, st') -> callee_of st (name source) = Some c /\ st' = st.
Proof.
  unfold find_callee, callee_of, the_datatype, gets, mbind, RtM_bind, deref. simpl.
  destruct (constructors_ st !! name source) as [[p i]|].
  - destruct (datatype_heap st !! p) as [info|]; simpl; [|done]. destruct (di_cases info !! i) as [item|]; simpl; [|done].
    by intros [= <- <-].
  - destruct (predicates_ st !! name source); [by intros [= <- <-]|].
    destruct (functions_ st !! name source); simpl; [by intros [= <- <-]|done].
Qed.

Lemma callee_of_later st st' n c : later st st' -> callee_of st n = Some c -> callee_of st' n = Some c.
Proof.
  intros [[_ Hg] Hf] Hc. unfold callee_of in *. rewrite (fr_constructors _ _ Hf), (fr_datatypes _ _ Hf), <- (g_predicates _ _ Hg).
  destruct (constructors_ st !! n) as [[p i]|]; [done|]. destruct (predicates_ st !! n); [done|].
  destruct (functions_ st !! n) as [f|] eqn:E; [|done]. by rewrite (lookup_weaken _ _ _ _ E (g_functions _ _ Hg)).
Qed.

(** The value a name denotes. *)
Definition value_of_name (st : RuntimeState) (env : Environment) (n : string) : option TypedExpression :=
  match env !! n with
  | Some te => Some te
  | None =>
      match cases_ st !! n with
      | Some (p, i) => info ← enum_heap st !! p; v ← ei_values info !! i; Some (mkTyped (ei_type info) v)
      | None =>
          '(p, i) ← constructors_ st !! n; info ← datatype_heap st !! p; item ← di_cases info !! i;
          t ← mk_app (dc_constructor item) []; Some (mkTyped (di_type info) t)
      end
  end.

Lemma elaborate_name_Ok source env st te st' :
  elaborate_name term_to_string term_ast_id source env st = (Ok te, st') -> value_of_name st env (name source) = Some te.
Proof.
  unfold elaborate_name, value_of_name. destruct (env !! name source) as [found|].
  { intros ->%completed_Ok. by destruct found. }
  intros (cases & st1 & [= <- <-] & E)%bind_Ok. destruct (cases_ st !! name source) as [[p i]|].
  - apply bind_Ok in E as (info & st2 & (o & st3 & [= <- <-] & [Hi ->]%deref_Ok)%bind_Ok & E).
    apply bind_Ok in E as (v & st4 & [Hv ->]%deref_Ok & ->%completed_Ok). simpl. rewrite Hi. simpl. by rewrite Hv.
  - apply bind_Ok in E as (cs & st1 & [= <- <-] & E). destruct (constructors_ st !! name source) as [[p i]|]; [|done].
    apply bind_Ok in E as (info & st2 & (o & st3 & [= <- <-] & [Hi ->]%deref_Ok)%bind_Ok & E).
    apply bind_Ok in E as (item & st4 & [Hitem ->]%deref_Ok & E). destruct (bool_decide _); [done|].
    apply bind_Ok in E as (t & st5 & [Ht ->]%z3_call_Ok & ->%completed_Ok). simpl. rewrite Hi. simpl. rewrite Hitem. simpl. by rewrite Ht.
Qed.

Lemma value_of_name_frame st st' env n : frame st st' -> value_of_name st' env n = value_of_name st env n.
Proof.
  intros Hf. unfold value_of_name.
  by rewrite (fr_cases _ _ Hf), (fr_enums _ _ Hf), (fr_constructors _ _ Hf), (fr_datatypes _ _ Hf).
Qed.

(** Tuple types are found again. *)
Lemma tuple_type_stable a b ta tb sp st p st1 st2 p' st3 :
  runtime_ok st -> type_heap st !! a = Some ta -> type_heap st !! b = Some tb ->
  tuple_type a b sp st = (Ok p, st1) -> later st1 st2 -> tuple_type a b sp st2 = (Ok p', st3) -> p' = p.
Proof.
  intros Hok Ha Hb E L E'.
  destruct (safe_yields _ _ _ _ _ (safe_tuple_type a b ta tb sp st Hok Ha Hb) E) as ([_ Hg] & c & Hp & _).
  pose proof (later_ok _ _ L) as Hok2.
  assert (Hg2 : grows st st2) by (etrans; [exact Hg|by apply later_grows]).
  destruct (safe_yields _ _ _ _ _ (safe_tuple_type a b ta tb sp st2 Hok2 (grows_type _ _ _ _ Hg2 Ha) (grows_type _ _ _ _ Hg2 Hb)) E')
    as ([Hok3 Hg3] & c' & Hp' & _).
  eapply (display_identifies st3); [done|exact Hp'| |].
  - eapply grows_type; [exact Hg3|]. by eapply later_type.
  - done.
Qed.

(** ** Elaborating again *)

Definition stable (e : Expr) : Prop := forall env st te st1 st2 te' st3,
  runtime_ok st -> env_typed st env -> elaborate_expression env e st = (Ok te, st1) -> later st1 st2 ->
  elaborate_expression env e st2 = (Ok te', st3) -> te' = te.

Lemma env_later st st' env : later st st' -> env_typed st env -> env_typed st' env.
Proof. intros L. by apply grows_env, later_grows. Qed.

(** Elaborating several expressions in turn. *)
Fixpoint runs (env : Environment) (es : list Expr) (st : RuntimeState) (tes : list TypedExpression) (st' : RuntimeState) : Prop :=
  match es, tes with
  | [], [] => st' = st
  | e :: es', te :: tes' => exists st1, elaborate_expression env e st = (Ok te, st1) /\ runs env es' st1 tes' st'
  | _, _ => False
  end.

Lemma runs_later env es st tes st' :
  forallb source_form es = true -> runtime_ok st -> env_typed st env -> runs env es st tes st' ->
  later st st' /\ Forall (has_type st') tes /\ Forall (fun te => within env (te_expression te)) tes.
Proof.
  revert st tes. induction es as [|e es IH]; intros st [|te tes] Hf Hok He E; try done.
  { simpl in E. subst. split; [by apply later_refl|done]. }
  simpl in Hf. apply andb_true_iff in Hf as [Hf Hfs]. destruct E as (st1 & E1 & E2).
  destruct (elaborate_yields _ _ _ Hf Hok He _ _ E1) as (L1 & Ht & Hw).
  destruct (IH st1 tes Hfs (later_ok _ _ L1) (env_later _ _ _ L1 He) E2) as (L2 & Hts & Hws).
  split_and!; [by eapply later_trans| |by constructor]. constructor; [|done]. eapply grows_has_sort; [by apply later_grows|exact Ht].
Qed.

Lemma runs_stable env es st tes st1 st2 tes' st3 :
  Forall stable es -> forallb source_form es = true -> runtime_ok st -> env_typed st env ->
  runs env es st tes st1 -> later st1 st2 -> runs env es st2 tes' st3 -> tes' = tes /\ later st2 st3.
Proof.
  intros Hs. revert st tes st2 tes'. induction Hs as [|e es He Hes IH]; intros st tes st2 tes' Hf Hok Henv E L E';
    destruct tes as [|te tes], tes' as [|te' tes']; try done.
  { simpl in E'. subst. split; [done|]. by eapply later_refl, later_ok. }
  simpl in Hf. apply andb_true_iff in Hf as [Hf Hfs]. destruct E as (s1 & E1 & E2), E' as (s1' & E1' & E2').
  destruct (elaborate_yields _ _ _ Hf Hok Henv _ _ E1) as (L1 & _). pose proof (later_ok _ _ L1) as Hok1.
  pose proof (env_later _ _ _ L1 Henv) as Henv1. destruct (runs_later _ _ _ _ _ Hfs Hok1 Henv1 E2) as (L2 & _).
  assert (L12 : later s1 st2) by (by eapply later_trans). pose proof (later_ok _ _ L) as Hok2.
  destruct (elaborate_yields _ _ _ Hf Hok2 (env_later _ _ _ L12 Henv1) _ _ E1') as (L1' & _).
  destruct (IH s1 tes s1' tes' Hfs Hok1 Henv1 E2 (later_trans _ _ _ L L1') E2') as [-> L2'].
  rewrite (He _ _ _ _ _ _ _ Hok Henv E1 L12 E1'). split; [done|by eapply later_trans].
Qed.

(** The arguments of a call. *)
Definition arguments_of (env : Environment) : Callee -> nat -> list Expr -> list TypePtr -> RtM (list Term) :=
  fix arguments (callee : Callee) (i : nat) (es : list Expr) (types : list TypePtr) : RtM (list Term) :=
    match es, types with
    | e :: es', p :: types' =>
        argument ← elaborate_expression env e;
        if negb (same (te_type argument) p)
        then t ← the_type p; reject (span e) (callee_mismatch callee i (rt_display t))
        else rest ← arguments callee (S i) es' types'; mret (te_expression argument :: rest)
    | _, _ => mret []
    end.

Lemma arguments_run env callee i es types st ts st' :
  length es = length types -> arguments_of env callee i es types st = (Ok ts, st') ->
  exists tes, runs env es st tes st' /\ ts = te_expression <$> tes /\ te_type <$> tes = types.
Proof.
  revert i types st ts. induction es as [|e es IH]; intros i [|p types] st ts Hl E; try done.
  { injection E as <- <-. by exists []. }
  cbn [arguments_of] in E. apply bind_Ok in E as (te & st1 & E1 & E). unfold same in E.
  destruct (Nat.eqb_spec (te_type te) p) as [<-|]; simpl in E; [|by apply bind_Ok in E as (t & st2 & _ & ?)].
  apply bind_Ok in E as (rest & st2 & E2 & [= <- <-]). injection Hl as Hl. destruct (IH _ _ _ _ Hl E2) as (tes & R & -> & <-).
  exists (te :: tes). split_and!; [by exists st1|done..].
Qed.

(** A call is the application of its callee to its arguments. *)
Lemma elaborate_call e env st te st' :
  kind e = ECall -> elaborate_expression env e st = (Ok te, st') ->
  exists c tes st1, callee_of st (name e) = Some c /\ runs env (elements e) st tes st1 /\ te_type <$> tes = callee_types c /\
    mk_app (callee_decl c) (te_expression <$> tes) = Some (te_expression te) /\ te_type te = callee_result c /\
    (runtime_ok st1 -> later st1 st').
Proof.
  destruct e as [k sp n b i op es id]. simpl. intros ->. intros (c & st1 & [Hc ->]%find_callee_Ok & E)%bind_Ok.
  destruct (Nat.eqb_spec (length es) (length (callee_types c))) as [Hl|]; [|done]. simpl in E.
  apply bind_Ok in E as (ts & st2 & E2 & E). apply arguments_run in E2 as (tes & R & -> & Ht); [|done].
  apply bind_Ok in E as (t & st3 & [Hm ->]%z3_call_Ok & E). pose proof (fun Hok => completed_later _ _ _ _ _ _ Hok E) as F.
  apply completed_Ok in E as ->. by exists c, tes, st2.
Qed.

Section Operands.
Context (env : Environment) (st st1 st2 st3 : RuntimeState) (te te' : TypedExpression) (source : Expr).
Hypothesis Hok : runtime_ok st.
Hypothesis Henv : env_typed st env.
Hypothesis L : later st1 st2.

Lemma tuple_stable x y sp :
  Forall stable [x; y] -> forallb source_form [x; y] = true ->
  let body := (first ← elaborate_expression env x; second ← elaborate_expression env y;
    type ← tuple_type (te_type first) (te_type second) sp; t ← the_type type;
    constructor ← deref "tuple constructor" (rt_tuple_constructor t);
    e ← z3_call "tuple" (mk_app constructor [te_expression first; te_expression second]);
    completed_expression source type e) in
  body st = (Ok te, st1) -> body st2 = (Ok te', st3) -> te' = te.
Proof.
  intros Hs Hes body E E'.
  apply bind_Ok in E as (tx & s1 & E1 & E). apply bind_Ok in E as (ty & s2 & E2 & E). apply bind_Ok in E as (p & s3 & E3 & E).
  apply bind_Ok in E as (rt & s4 & [Hrt ->]%the_type_Ok & E). apply bind_Ok in E as (c & s5 & [Hc ->]%deref_Ok & E).
  apply bind_Ok in E as (t & s6 & [Ht ->]%z3_call_Ok & E).
  apply bind_Ok in E' as (tx' & s1' & E1' & E'). apply bind_Ok in E' as (ty' & s2' & E2' & E').
  apply bind_Ok in E' as (p' & s3' & E3' & E'). apply bind_Ok in E' as (rt' & s4' & [Hrt' ->]%the_type_Ok & E').
  apply bind_Ok in E' as (c' & s5' & [Hc' ->]%deref_Ok & E'). apply bind_Ok in E' as (t' & s6' & [Ht' ->]%z3_call_Ok & E').
  assert (R : runs env [x; y] st [tx; ty] s2) by (exists s1; split; [done|by exists s2]).
  assert (R' : runs env [x; y] st2 [tx'; ty'] s2') by (exists s1'; split; [done|by exists s2']).
  destruct (runs_later _ _ _ _ _ Hes Hok Henv R) as (L2 & Hty & _).
  apply Forall_cons in Hty as [(xt & Hxt & _) [(yt & Hyt & _) _]%Forall_cons]. pose proof (later_ok _ _ L2) as Hok2.
  destruct (safe_yields _ _ _ _ _ (safe_tuple_type _ _ _ _ sp s2 Hok2 Hxt Hyt) E3) as (K3 & _).
  assert (L3 : later s2 s3) by (split; [done|exact (framed_at _ _ _ _ (framed_tuple_type _ _ _) E3)]).
  pose proof (completed_later _ _ _ _ _ _ (later_ok _ _ L3) E) as L4. assert (L32 : later s3 st2) by (by eapply later_trans).
  destruct (runs_stable _ _ _ _ _ _ _ _ Hs Hes Hok Henv R (later_trans _ _ _ L3 L32) R') as [Ete L2'].
  injection Ete as -> ->. assert (L22' : later s2 s2') by (eapply later_trans; [exact L3|by eapply later_trans]).
  assert (p' = p) as ->.
  { eapply (tuple_type_stable _ _ _ _ _ s2); [exact Hok2|exact Hxt|exact Hyt|exact E3|by eapply later_trans|exact E3']. }
  destruct (safe_yields _ _ _ _ _ (safe_tuple_type _ _ _ _ sp s2' (later_ok _ _ L2') (later_type _ _ _ _ L22' Hxt)
    (later_type _ _ _ _ L22' Hyt)) E3') as ([_ Hg3'] & _).
  assert (Hsame : type_heap s3' !! p = Some rt).
  { eapply grows_type; [exact Hg3'|]. eapply later_type; [exact L2'|]. by eapply later_type. }
  apply completed_Ok in E, E'. subst te te'. congruence.
Qed.

Lemma binary_stable x y :
  Forall stable [x; y] -> forallb source_form [x; y] = true ->
  let body := (l ← elaborate_expression env x; r ← elaborate_expression env y;
    elaborate_binary term_to_string term_ast_id source l r) in
  body st = (Ok te, st1) -> body st2 = (Ok te', st3) -> te' = te.
Proof.
  intros Hs Hes body E E'.
  apply bind_Ok in E as (tx & s1 & E1 & E). apply bind_Ok in E as (ty & s2 & E2 & E).
  apply bind_Ok in E' as (tx' & s1' & E1' & E'). apply bind_Ok in E' as (ty' & s2' & E2' & E').
  assert (R : runs env [x; y] st [tx; ty] s2) by (exists s1; split; [done|by exists s2]).
  assert (R' : runs env [x; y] st2 [tx'; ty'] s2') by (exists s1'; split; [done|by exists s2']).
  destruct (runs_later _ _ _ _ _ Hes Hok Henv R) as (L2 & _). unfold elaborate_binary in E, E'.
  apply bind_Ok in E as (rt & s3 & [Hrt ->]%the_type_Ok & E). apply bind_Ok in E' as (rt' & s3' & [Hrt' ->]%the_type_Ok & E').
  destruct (binary_type _ _ _ (rt_kind rt)) as [m|p] eqn:Eb; [done|]. apply bind_Ok in E as (t & s3 & [Ht ->]%z3_call_Ok & E).
  pose proof (completed_later _ _ _ _ _ _ (later_ok _ _ L2) E) as L3.
  destruct (runs_stable _ _ _ _ _ _ _ _ Hs Hes Hok Henv R (later_trans _ _ _ L3 L) R') as [Ete L2'].
  injection Ete as -> ->. assert (type_heap s2' !! te_type tx = Some rt) as Hsame.
  { eapply later_type; [exact L2'|]. eapply later_type; [exact L|]. by eapply later_type. }
  rewrite Hsame in Hrt'. injection Hrt' as <-. rewrite Eb in E'.
  apply bind_Ok in E' as (t' & s3' & [Ht' ->]%z3_call_Ok & E'). apply completed_Ok in E, E'. congruence.
Qed.

Lemma conditional_stable x y z :
  Forall stable [x; y; z] -> forallb source_form [x; y; z] = true ->
  let body := (c ← elaborate_expression env x; l ← elaborate_expression env y; r ← elaborate_expression env z;
    elaborate_conditional term_to_string term_ast_id source x c l r) in
  body st = (Ok te, st1) -> body st2 = (Ok te', st3) -> te' = te.
Proof.
  intros Hs Hes body E E'.
  apply bind_Ok in E as (tx & s1 & E1 & E). apply bind_Ok in E as (ty & s2 & E2 & E). apply bind_Ok in E as (tz & s3 & E3 & E).
  apply bind_Ok in E' as (tx' & s1' & E1' & E'). apply bind_Ok in E' as (ty' & s2' & E2' & E'). apply bind_Ok in E' as (tz' & s3' & E3' & E').
  assert (R : runs env [x; y; z] st [tx; ty; tz] s3) by (exists s1; split; [done|exists s2; split; [done|by exists s3]]).
  assert (R' : runs env [x; y; z] st2 [tx'; ty'; tz'] s3') by (exists s1'; split; [done|exists s2'; split; [done|by exists s3']]).
  destruct (runs_later _ _ _ _ _ Hes Hok Henv R) as (L3 & _). unfold elaborate_conditional in E, E'.
  destruct (negb _); [done|]. destruct (negb _); [done|]. destruct (negb _); [done|]. destruct (negb _); [done|].
  apply bind_Ok in E as (t & s4 & [Ht ->]%z3_call_Ok & E). apply bind_Ok in E' as (t' & s4' & [Ht' ->]%z3_call_Ok & E').
  pose proof (completed_later _ _ _ _ _ _ (later_ok _ _ L3) E) as L4.
  destruct (runs_stable _ _ _ _ _ _ _ _ Hs Hes Hok Henv R (later_trans _ _ _ L4 L) R') as [Ete L2'].
  injection Ete as -> -> ->. apply completed_Ok in E, E'. congruence.
Qed.
End Operands.

Lemma call_stable e : kind e = ECall -> Forall stable (elements e) -> forallb source_form (elements e) = true -> stable e.
Proof.
  intros Hk Hs Hes env st te st1 st2 te' st3 Hok Henv E L E'.
  apply (elaborate_call e) in E as (c & tes & s1 & Hc & R & Hty & Ht & Er & Lc); [|done].
  apply (elaborate_call e) in E' as (c' & tes' & s1' & Hc' & R' & Hty' & Ht' & Er' & _); [|done].
  destruct (runs_later _ _ _ _ _ Hes Hok Henv R) as (L1 & _). specialize (Lc (later_ok _ _ L1)).
  assert (L12 : later s1 st2) by (by eapply later_trans).
  rewrite (callee_of_later _ _ _ _ (later_trans _ _ _ L1 L12) Hc) in Hc'. injection Hc' as <-.
  destruct (runs_stable _ _ _ _ _ _ _ _ Hs Hes Hok Henv R L12 R') as [-> _]. rewrite Ht in Ht'. injection Ht' as Ht'.
  destruct te, te'. simpl in *. congruence.
Qed.

Lemma elaborate_stable e : source_form e = true -> stable e.
Proof.
  induction e as [k sp n b i op es id IH] using Expr_nested_ind. simpl. intros [_ Hes]%andb_true_iff.
  assert (Hs : Forall stable es).
  { rewrite forallb_forall in Hes. apply Forall_forall. intros x Hx. rewrite Forall_forall in IH. apply IH; [done|].
    apply Hes. by apply list_elem_of_In. }
  destruct k; [..|by apply call_stable| | |]; intros env st te st1 st2 te' st3 Hok Henv E L E'.
  - apply elaborate_name_Ok in E as V, E' as V'.
    assert (F : frame st st2). { etrans; [|apply L]. by apply (framed_at _ _ _ _ (framed_elaborate term_to_string term_ast_id env _) E). }
    rewrite (value_of_name_frame _ _ _ _ F), V in V'. by injection V'.
  - apply completed_Ok in E, E'. congruence.
  - apply bind_Ok in E as (t & s & [Ht ->]%z3_call_Ok & ->%completed_Ok). apply bind_Ok in E' as (t' & s & [Ht' ->]%z3_call_Ok & ->%completed_Ok).
    congruence.
  - destruct es as [|x [|y [|]]]; try done. eapply (tuple_stable env st st1 st2 st3); [done..|exact E|exact E'].
  - destruct es as [|x [|y [|]]]; try done. eapply (binary_stable env st st1 st2 st3); [done..|exact E|exact E'].
  - destruct es as [|x [|y [|z [|]]]]; try done. eapply (conditional_stable env st st1 st2 st3); [done..|exact E|exact E'].
  - done.
Qed.
End Stable.

(** ** Constructors *)

Section Declare.
Context `{HD : Z3Data} {HA : Z3Api} {HX : Z3Exprs} {HB : Z3Build} {HBL : Z3BuildLaws} {HM : Z3Meaning} {HML : Z3MeaningLaws}.
Context (term_to_string : Term -> string) (term_ast_id : Term -> N).
Abbreviation elaborate_expression := (elaborate_expression term_to_string term_ast_id).
Abbreviation runs := (runs term_to_string term_ast_id).

(** Every constant of the environment is one of [cs]. *)
Definition env_over (cs : list Term) (env : Environment) : Prop := forall n te, env !! n = Some te -> over cs (te_expression te).

Lemma within_over cs env t : env_over cs env -> within env t -> over cs t.
Proof. intros He Hw c Hc Ho. destruct (Hw c Hc Ho) as (n & te & Hn & Ht). by eapply He. Qed.

Lemma env_over_mono cs cs' env : cs ⊆ cs' -> env_over cs env -> env_over cs' env.
Proof. intros Hs He n te Hn. eapply over_mono; [exact Hs|by eapply He]. Qed.

Lemma env_over_insert cs n te (env : Environment) : over cs (te_expression te) -> env_over cs env -> env_over cs (<[n := te]> env).
Proof. intros Ho He m te' [[<- <-]|[_ Hm]]%lookup_insert_Some; [done|by eapply He]. Qed.

Lemma env_over_emplace cs n te env : over cs (te_expression te) -> env_over cs env -> env_over cs (emplace n te env).
Proof. intros Ho He. unfold emplace. destruct (env !! n); [done|by apply env_over_insert]. Qed.

Lemma env_typed_emplace st n te (env : Environment) : env_typed st env -> has_type st te -> env_typed st (emplace n te env).
Proof. intros He Ht. unfold emplace. destruct (env !! n); [done|by apply env_insert]. Qed.

Lemma over_constant n s cs : constant n s ∈ cs -> over cs (constant n s).
Proof. intros Hin c Hc Ho. by apply occurs_constant in Ho as ->. Qed.

Lemma resolve_later t st p st' : runtime_ok st -> resolve_type t st = (Ok p, st') ->
  later st st' /\ exists rt, type_heap st' !! p = Some rt.
Proof.
  intros Hok E. destruct (safe_yields _ _ _ _ _ (safe_resolve_type t st Hok) E) as (K & Hrt). split; [|done].
  split; [done|]. exact (framed_at _ _ _ _ (framed_resolve_type _) E).
Qed.

(** *** Parameters *)

Definition parameter_constant (prefix : string) (i : nat) (x : Term) : Prop :=
  x = constant (prefix +:+ ".arg" +:+ to_string i) (get_sort x).

Definition parameters_wf (prefix : string) (ps : list Term) : Prop := forall i x, ps !! i = Some x -> parameter_constant prefix i x.

Lemma parameters_yields prefix i ps (env : Environment) acc st :
  runtime_ok st -> env_typed st env -> env_over acc env -> parameters_wf prefix acc -> i = length acc ->
  yields (predicate_parameters_loop prefix i ps env acc) st (fun r st' =>
    later st st' /\ env_typed st' r.1 /\ env_over r.2 r.1 /\ parameters_wf prefix r.2).
Proof.
  revert i env acc st. induction ps as [|p ps IH]; intros i env acc st Hok He Ho Hp Hi; cbn [predicate_parameters_loop].
  { intros r st' [= <- <-]. split; [by apply later_refl|done]. }
  destruct (env !! _) eqn:En; [by intros ? ?|]. apply yields_bind. intros ty st1 E1.
  apply resolve_later in E1 as [L1 _]; [|done]. apply yields_bind. intros rt st2 [Hrt ->]%the_type_Ok.
  destruct (bool_decide _); [by intros ? ?|]. intros r st' E. set (c := constant _ _) in E.
  apply IH in E as (L2 & ? & ? & ?); [by split; [eapply later_trans|]|by eapply later_ok| | | |rewrite length_app; simpl; lia].
  - apply env_insert; [by eapply env_later|]. exists rt. split; [done|]. apply sort_constant.
  - apply env_over_insert; [apply over_constant; set_solver|]. eapply env_over_mono; [|exact Ho]. set_solver.
  - intros j x [Hj|[Hj Hx]]%lookup_app_Some; [by apply Hp|]. apply list_lookup_singleton_Some in Hx as [Ej <-].
    unfold parameter_constant, c. rewrite sort_constant. replace j with i by lia. done.
Qed.

(** *** Atoms *)

(** [t] is an atom of [q] whose indices are those elaborated from [e]. *)
Definition atom_from (env : Environment) (e : Expr) (st : RuntimeState) (q : PredicateInfo) (l : list Term) (st' : RuntimeState) : Prop :=
  exists tes s1, runs env (elements e) st tes s1 /\ l = te_expression <$> tes /\ length l = length (pi_index_types q) /\ later s1 st'.

Lemma call_predicate env e st te st' q :
  kind e = ECall -> source_form e = true -> runtime_ok st -> env_typed st env -> predicates_ st !! name e = Some q ->
  elaborate_expression env e st = (Ok te, st') ->
  exists l, te_expression te = App (pi_relation q) l /\ te_type te = bool_type_ /\ atom_from env e st q l st' /\
    get_sort <$> l = decl_domain (pi_relation q).
Proof.
  intros Hk Hf Hok He Hq E. destruct (elaborate_call _ _ e env st te st' Hk E) as (c & tes & s1 & Hc & R & Hty & Hm & Hres & L).
  unfold callee_of in Hc. destruct (ok_predicate_names _ Hok (name e)) as [_ En]; [by eexists|].
  rewrite En, Hq in Hc. injection Hc as <-.
  destruct e as [k sp n b i op es id]. simpl in *. apply andb_true_iff in Hf as [_ Hes].
  destruct (runs_later _ _ _ _ _ _ _ Hes Hok He R) as (L1 & Hts & _). specialize (L (later_ok _ _ L1)).
  exists (te_expression <$> tes). destruct (ok_predicates _ Hok _ _ Hq) as (rts & _ & Hrts & _ & Hdom & _).
  assert (Hs : get_sort <$> (te_expression <$> tes) = decl_domain (pi_relation q)).
  { rewrite Hdom. apply (typed_terms_sorts s1 (pi_index_types q)); [|by eapply grows_typed_as; [apply later_grows|]].
    rewrite <- Hty. clear -Hts. induction Hts; simpl; by constructor. }
  rewrite (mk_app_typed _ _ Hs) in Hm. injection Hm as <-. split_and!; [done..| |done].
  exists tes, s1. split_and!; [done..| |done]. by rewrite <- Hty, !length_fmap.
Qed.

Lemma atom_yields direct indexed env e st :
  source_form e = true -> runtime_ok st -> env_typed st env ->
  yields (predicate_atom term_to_string term_ast_id direct indexed env e) st (fun t st' => later st st' /\ within env t /\
    exists q l, predicates_ st !! name e = Some q /\ t = App (pi_relation q) l /\ atom_from env e st q l st').
Proof.
  intros Hf Hok He. unfold predicate_atom. apply yields_bind. intros preds st1 [= <- <-].
  destruct (bool_decide_reflect (kind e = ECall)) as [Hk|]; [|by intros ? ?].
  destruct (predicates_ st !! name e) as [q|] eqn:Eq; [|by intros ? ?]. simpl.
  apply yields_bind. intros te st1 E1. destruct (elaborate_yields _ _ _ _ _ Hf Hok He _ _ E1) as (L1 & _ & Hw).
  destruct (call_predicate _ _ _ _ _ _ Hk Hf Hok He Eq E1) as (l & Ht & _ & Ha & _).
  destruct (negb _); [by intros ? ?|]. intros t st' [= <- <-]. split; [done|]. split; [done|]. by exists q, l.
Qed.

Lemma indices_run env es st l st' :
  elaborate_indices term_to_string term_ast_id env es st = (Ok l, st') -> exists tes, runs env es st tes st' /\ l = te_expression <$> tes.
Proof.
  revert st l. induction es as [|e es IH]; intros st l; cbn [elaborate_indices traverse_].
  { intros [= <- <-]. by exists []. }
  intros (t & st1 & E1 & E)%bind_Ok. apply bind_Ok in E1 as (te & s & E1 & [= <- <-]).
  apply bind_Ok in E as (ts & st2 & E2 & [= <- <-]). apply IH in E2 as (tes & R & ->). exists (te :: tes).
  split; [by exists s|done].
Qed.

(** The indices of an atom, elaborated again. *)
Lemma indices_again env e st q l st1 st2 :
  source_form e = true -> runtime_ok st -> env_typed st env -> atom_from env e st q l st1 -> later st1 st2 ->
  yields (elaborate_indices term_to_string term_ast_id env (elements e)) st2 (fun l' st' => l' = l /\ later st2 st').
Proof.
  intros Hf Hok He (tes & s1 & R & -> & _ & L1) L2 l' st' (tes' & R' & ->)%indices_run.
  destruct e as [k sp n b i op es id]. simpl in *. apply andb_true_iff in Hf as [_ Hes].
  assert (Hs : Forall (stable term_to_string term_ast_id) es).
  { apply Forall_forall. intros x Hx. apply elaborate_stable. rewrite forallb_forall in Hes. apply Hes. by apply list_elem_of_In. }
  by destruct (runs_stable _ _ _ _ _ _ _ _ _ _ Hs Hes Hok He R (later_trans _ _ _ L1 L2) R') as [-> ?].
Qed.

(** *** Premises *)

Record premises_wf (preds : gmap string PredicateInfo) (relation : Decl) (ps : list Term) (p : Premises) : Prop := {
  pw_atoms : Forall (atom_of preds) (p_terms p);
  pw_conjunction : conjunction_of (p_conjunction p) (p_terms p);
  pw_terms : Forall (fun t => over ps t /\ exists d l, t = App d l /\ interpreted d) (p_terms p);
  pw_recursive : Forall (fun l => App relation l ∈ p_terms p) (p_recursive p)
}.

Lemma premises_yields owner info env ps es acc st :
  forallb source_form es = true -> runtime_ok st -> env_typed st env -> env_over ps env ->
  predicates_ st !! owner = Some info -> premises_wf (predicates_ st) (pi_relation info) ps acc ->
  yields (premise_loop term_to_string term_ast_id owner env es acc) st (fun r st' =>
    later st st' /\ premises_wf (predicates_ st) (pi_relation info) ps r).
Proof.
  revert acc st. induction es as [|e es IH]; intros acc st Hf Hok He Ho Hinfo [Hat Hcj Ht Hr]; cbn [premise_loop].
  { intros r st' [= <- <-]. split; [by apply later_refl|done]. }
  simpl in Hf. apply andb_true_iff in Hf as [Hf Hfs]. apply yields_bind. intros t st1 E1.
  apply atom_yields in E1 as (L1 & Hw & q & l & Hq & -> & Ha); [|done..]. pose proof (later_ok _ _ L1) as Hok1.
  apply yields_bind. intros conj st2 [Hand ->]%z3_call_Ok. apply yields_bind. intros recursive st2 E2.
  assert (Hstep : later st1 st2 /\ Forall (fun l' => l' = l /\ q = info) recursive).
  { destruct (String.eqb_spec (name e) owner) as [En|].
    - apply bind_Ok in E2 as (ix & s & E2 & [= <- <-]). rewrite En in Hq.
      destruct (indices_again _ _ _ _ _ _ _ Hf Hok He Ha (later_refl _ Hok1) _ _ E2) as [-> L2]. split; [done|].
      constructor; [|done]. split; [done|congruence].
    - injection E2 as <- <-. split; [by apply later_refl|done]. }
  destruct Hstep as [L2 Hrec]. assert (L12 : later st st2) by (by eapply later_trans).
  pose proof (g_predicates _ _ (later_grows _ _ L12)) as Ep. intros r st' E. rewrite Ep.
  apply IH in E as [L3 Hw3]; [by split; [eapply later_trans|]|done|by eapply later_ok|by eapply env_later|done| |].
  - by rewrite <- Ep.
  - rewrite <- Ep. split; simpl.
    + apply Forall_app. split; [done|]. constructor; [|done]. by eexists _, _, _.
    + apply (conjunction_and _ _ _ _ [_] Hand Hcj). constructor.
    + apply Forall_app. split; [done|]. constructor; [|done]. split; [by eapply within_over|].
      eexists _, _. split; [done|]. by destruct (ok_predicates _ Hok _ _ Hq) as (_ & _ & _ & _ & _ & _ & ?).
    + apply Forall_app. split; (eapply Forall_impl; [eassumption|]).
      * intros l' Hin. apply elem_of_app. by left.
      * intros l' [-> ->]. apply elem_of_app. right. by apply list_elem_of_singleton.
Qed.

(** *** Constrained fields *)

Lemma view_arguments_yields env ps i es types st :
  forallb source_form es = true -> runtime_ok st -> env_typed st env -> env_over ps env ->
  yields (view_arguments_loop term_to_string term_ast_id env i es types) st (fun l st' =>
    later st st' /\ Forall (has_type st') l /\ Forall (fun te => over ps (te_expression te)) l).
Proof.
  revert i types st. induction es as [|e es IH]; intros i types st Hf Hok He Ho; cbn [view_arguments_loop].
  { intros l st' [= <- <-]. split; [by apply later_refl|done]. }
  destruct types as [|p types]; [intros l st' [= <- <-]; split; [by apply later_refl|done]|].
  simpl in Hf. apply andb_true_iff in Hf as [Hf Hfs]. apply yields_bind. intros te st1 E1.
  destruct (elaborate_yields _ _ _ _ _ Hf Hok He _ _ E1) as (L1 & Ht & Hw). destruct (negb _).
  { apply yields_bind. intros ? ? _. by intros ? ?. }
  apply yields_bind. intros rest st2 E2. apply IH in E2 as (L2 & Hts & Hos); [|done|by eapply later_ok|by eapply env_later|done].
  intros l st' [= <- <-]. split; [by eapply later_trans|]. split; constructor; try done.
  - eapply grows_has_sort; [by apply later_grows|exact Ht].
  - by eapply within_over.
Qed.

Lemma bind_view_env st ps v l :
  Forall (has_type st) l -> Forall (fun te => over ps (te_expression te)) l ->
  env_typed st (bind_view v l) /\ env_over ps (bind_view v l).
Proof.
  intros Ht Ho. unfold bind_view. set (f := fun (m : Environment) na => _).
  assert (Hinv : forall nas m, Forall (fun na => has_type st na.2 /\ over ps (te_expression na.2)) nas ->
    env_typed st m /\ env_over ps m -> env_typed st (foldl f m nas) /\ env_over ps (foldl f m nas)).
  { induction nas as [|na nas IH]; intros m Hn Hm; simpl; [done|]. apply Forall_cons in Hn as [[Hnt Hno] Hn]. apply IH; [done|].
    destruct Hm as [Hmt Hmo]. split; [by apply env_typed_emplace|by apply env_over_emplace]. }
  apply Hinv; [|by split; intros n te Hn; rewrite lookup_empty in Hn].
  apply Forall_forall. intros [n te] Hin. apply elem_of_zip_r in Hin. rewrite Forall_forall in Ht, Ho. split; [by apply Ht|by apply Ho].
Qed.

Lemma over_op cs op ts t : z3_op op ts = Some t -> Forall (over cs) ts -> over cs t.
Proof.
  intros Hop Hts c Hc Hoc. apply (occurs_op c _ _ _ Hc Hop), Exists_exists in Hoc as (x & Hx & Hox).
  rewrite Forall_forall in Hts. by apply (Hts x Hx).
Qed.

Lemma requirements_yields env cs es acc st :
  forallb source_form es = true -> runtime_ok st -> env_typed st env -> env_over cs env -> over cs acc ->
  yields (requirement_loop term_to_string term_ast_id env es acc) st (fun t st' => later st st' /\ over cs t).
Proof.
  revert acc st. induction es as [|e es IH]; intros acc st Hf Hok He Ho Ha; cbn [requirement_loop].
  { intros l st' [= <- <-]. split; [by apply later_refl|done]. }
  simpl in Hf. apply andb_true_iff in Hf as [Hf Hfs]. apply yields_bind. intros te st1 E1.
  destruct (elaborate_yields _ _ _ _ _ Hf Hok He _ _ E1) as (L1 & _ & Hw). destruct (negb _); [by intros ? ?|].
  apply yields_bind. intros acc' st2 [Hop ->]%z3_call_Ok. intros t st' E.
  apply IH in E as [L2 ?]; [by split; [eapply later_trans|]|done|by eapply later_ok|by eapply env_later|done|].
  eapply over_op; [exact Hop|]. constructor; [done|]. constructor; [|done]. by eapply within_over.
Qed.

Lemma witness_yields env cs carrier w st :
  from_option (fun w => source_form w = true) True w -> runtime_ok st -> env_typed st env -> env_over cs env ->
  yields (availability_witness term_to_string term_ast_id env carrier w) st (fun r st' =>
    later st st' /\ forall t, r = Some t -> over cs t).
Proof.
  intros Hf Hok He Ho. destruct w as [w|]; simpl in *.
  - apply yields_bind. intros te st1 E1. destruct (elaborate_yields _ _ _ _ _ Hf Hok He _ _ E1) as (L1 & _ & Hw).
    destruct (negb _); [by intros ? ?|]. intros r st' [= <- <-]. split; [done|]. intros t [= <-]. by eapply within_over.
  - intros r st' [= <- <-]. split; [by apply later_refl|done].
Qed.

Lemma scoped_premises_yields owner info env cs es st :
  forallb source_form es = true -> runtime_ok st -> env_typed st env -> env_over cs env ->
  predicates_ st !! owner = Some info ->
  yields (scoped_premise_loop term_to_string term_ast_id owner env es) st (fun ts st' =>
    later st st' /\ Forall (fun t => over cs t /\ exists l, t = App (pi_relation info) l) ts).
Proof.
  revert st. induction es as [|e es IH]; intros st Hf Hok He Ho Hinfo; cbn [scoped_premise_loop].
  { intros l st' [= <- <-]. split; [by apply later_refl|done]. }
  simpl in Hf. apply andb_true_iff in Hf as [Hf Hfs]. apply yields_bind. intros t st1 E1.
  apply atom_yields in E1 as (L1 & Hw & q & l & Hq & -> & Ha); [|done..].
  destruct (String.eqb_spec (name e) owner) as [En|]; [|by intros ? ?]. simpl. apply yields_bind. intros rest st2 E2.
  apply IH in E2 as (L2 & Hts); [|done|by eapply later_ok|by eapply env_later|done|
    by rewrite <- (g_predicates _ _ (later_grows _ _ L1))].
  intros r st' [= <- <-]. split; [by eapply later_trans|]. constructor; [|done]. split; [by eapply within_over|].
  exists l. rewrite En, Hinfo in Hq. by injection Hq as ->.
Qed.

Lemma later_capture c w st : runtime_ok st -> later st (set_capture c w st).
Proof. intros Hok. split; [by apply set_capture_keeps|by split]. Qed.

Definition field_form (f : ArbitraryPremise) : Prop :=
  forallb source_form (arbitrary_arguments f) = true /\ forallb source_form (arbitrary_premises f) = true.

Definition field_binder (d : PredicateDecl) (c : PredicateConstructor) (ordinal : nat) (x : Term) : Prop :=
  x = constant (constructor_prefix d (constructor_name c) +:+ ".arbitrary" +:+ to_string ordinal) (get_sort x).

Lemma field_yields d c info env ps ordinal f st :
  field_form f -> runtime_ok st -> views_form st -> env_typed st env -> env_over ps env ->
  predicates_ st !! predicate_name d = Some info ->
  yields (arbitrary_field term_to_string term_ast_id d c env ordinal f) st (fun r st' =>
    later st st' /\ field_wf (pi_relation info) ps r /\ field_binder d c ordinal (af_binder_term r)).
Proof.
  intros [Hfa Hfp] Hok Hv He Ho Hinfo. unfold arbitrary_field. apply yields_bind. intros cap st0 [= <- <-].
  apply yields_bind. intros wi st0 [= <- <-]. apply yields_bind. intros [] st1 [= <-]. set (st1 := set_capture true _ _).
  assert (L1 : later st st1) by (by apply later_capture). do 2 (case_match; [by intros ? ?|]).
  apply yields_bind. intros views st2 [= <- <-]. destruct (_ !! arbitrary_view f) as [v|] eqn:Ev; [|by intros ? ?].
  assert (Hvf : view_info_form v) by (by eapply Hv). destruct Hvf as [Hvr Hvw]. case_match; [by intros ? ?|].
  apply yields_bind. intros l st2 E2. apply (view_arguments_yields env ps) in E2 as (L2 & Hlt & Hlo); [|done|by eapply later_ok|by eapply env_later|done].
  apply yields_bind. intros rt st3 [Hrt ->]%the_type_Ok. set (b := constant _ _). apply yields_bind. intros [] st3 E3.
  apply rain_later in E3 as L3; [|by eapply later_ok].
  assert (Hlt3 : Forall (has_type st3) l).
  { eapply Forall_impl; [exact Hlt|]. intros te. eapply grows_has_sort. by apply later_grows. }
  destruct (bind_view_env st3 ps v l Hlt3 Hlo) as [Hbt Hbo]. set (bound := mkTyped (vi_carrier v) b).
  assert (Hb : has_type st3 bound).
  { exists rt. split; [by eapply later_type|]. apply sort_constant. }
  assert (Hbover : over (ps ++ [b]) b) by (apply over_constant; set_solver).
  assert (L03 : later st st3) by (eapply later_trans; [exact L1|by eapply later_trans]).
  apply yields_bind. intros requirement st4 E4. apply (requirements_yields _ (ps ++ [b])) in E4 as [L4 Hreq];
    [|done|by eapply later_ok|by apply env_typed_emplace| |].
  2:{ apply env_over_emplace; [done|]. eapply env_over_mono; [|exact Hbo]. set_solver. }
  2:{ intros x Hx. by rewrite occurs_bool_val. }
  apply yields_bind. intros witness st5 E5. apply (witness_yields _ ps) in E5 as [L5 Hwit];
    [|done|by eapply later_ok|by eapply env_later|done].
  assert (L05 : later st st5) by (eapply later_trans; [exact L03|by eapply later_trans]).
  apply yields_bind. intros premises st6 E6. apply (scoped_premises_yields _ info _ (ps ++ [b])) in E6 as [L6 Hprem];
    [|done|by eapply later_ok| | |by rewrite <- (g_predicates _ _ (later_grows _ _ L05))].
  2:{ apply env_typed_emplace; [by eapply env_later|]. eapply grows_has_sort; [|exact Hb]. apply later_grows. by eapply later_trans. }
  2:{ apply env_over_emplace; [done|]. eapply env_over_mono; [|exact Ho]. set_solver. }
  apply yields_bind. intros [] st7 E7. apply rain_later in E7 as L7; [|by eapply later_ok].
  apply yields_bind. intros [] st8 [= <-]. intros r st' [= <- <-]. split; [|split].
  - eapply later_trans; [exact L05|]. eapply later_trans; [exact L6|]. eapply later_trans; [exact L7|].
    apply later_capture. by eapply later_ok.
  - by split.
  - unfold field_binder. simpl. unfold b. by rewrite sort_constant.
Qed.

Lemma fields_yields d c info env ps ordinal fs st :
  Forall field_form fs -> runtime_ok st -> views_form st -> env_typed st env -> env_over ps env ->
  predicates_ st !! predicate_name d = Some info ->
  yields (arbitrary_loop term_to_string term_ast_id d c env ordinal fs) st (fun r st' =>
    later st st' /\ Forall (field_wf (pi_relation info) ps) r /\
    forall i f, r !! i = Some f -> field_binder d c (ordinal + i) (af_binder_term f)).
Proof.
  revert ordinal st. induction fs as [|f fs IH]; intros ordinal st Hf Hok Hv He Ho Hinfo; cbn [arbitrary_loop].
  { intros r st' [= <- <-]. split; [by apply later_refl|done]. }
  apply Forall_cons in Hf as [Hf Hfs]. apply yields_bind. intros r1 st1 E1.
  apply (field_yields _ _ info _ ps) in E1 as (L1 & Hw1 & Hb1); [|done..]. pose proof (later_grows _ _ L1) as Hg1.
  apply yields_bind. intros rs st2 E2.
  apply IH in E2 as (L2 & Hws & Hbs); [|done|by eapply later_ok|by apply (g_views _ _ Hg1)|by eapply env_later|done|
    by rewrite <- (g_predicates _ _ Hg1)].
  intros r st' [= <- <-]. split; [by eapply later_trans|]. split; [by constructor|].
  intros [|i] f'; simpl; [intros [= <-]; by rewrite Nat.add_0_r|]. intros Hi. rewrite <- Nat.add_succ_comm. by apply Hbs.
Qed.

(** *** Rules *)

Lemma later_fixedpoint f st : runtime_ok st -> later st (set_fixedpoint f st).
Proof. intros Hok. split; [by apply unread_keeps|by split]. Qed.

(** The rule of a constructor is read back as its clause. *)
Lemma constructor_rule_reads ps premises rel ix st t st' :
  conjunction_of (p_conjunction premises) (p_terms premises) ->
  constructor_rule ps premises (App rel ix) st = (Ok t, st') ->
  st' = st /\ reads (mkClause ps (p_terms premises) rel ix) t.
Proof.
  intros Hc. unfold constructor_rule. set (c := mkClause _ _ _ _). intros (r & s & E1 & E2)%bind_Ok.
  assert (Hr : s = st /\ implication_of c r).
  { unfold c. destruct (bool_decide_reflect (p_terms premises = [])); [injection E1 as <- ->; split; [done|by apply fact]|].
    apply z3_call_Ok in E1 as [E1 ->]. split; [done|]. by apply (implied_by _ (p_conjunction premises)). }
  destruct Hr as [-> Hr]. destruct (bool_decide_reflect (ps = [])); [injection E2 as <- ->; split; [done|by apply reads_ground]|].
  apply z3_call_Ok in E2 as [E2 ->]. split; [done|by eapply reads_forall].
Qed.

Lemma lower_yields d id n horn ps premises rel ix st :
  runtime_ok st -> conjunction_of (p_conjunction premises) (p_terms premises) ->
  yields (lower_constructor term_to_string term_ast_id d id n horn ps premises (App rel ix)) st (fun _ st' => later st st' /\
    exists t m, reads (mkClause ps (p_terms premises) rel ix) t /\
      fixedpoint_ st' = if horn : bool then add_rule t m (fixedpoint_ st) else fixedpoint_ st).
Proof.
  intros Hok Hc. unfold lower_constructor. apply yields_bind. intros rule st1 E1. apply constructor_rule_reads in E1 as [-> Hr]; [|done].
  apply yields_bind. intros [] st2 E2. assert (L2 : later st st2 /\
    fixedpoint_ st2 = if horn : bool then add_rule rule (predicate_name d +:+ "." +:+ n) (fixedpoint_ st) else fixedpoint_ st).
  { destruct horn; [|injection E2 as <-; split; [by apply later_refl|done]].
    apply bind_Ok in E2 as (f & s & [= <- <-] & [= <-]). split; [by apply later_fixedpoint|done]. }
  destruct L2 as [L2 Ef]. intros [] st' E. rewrite <- (framed_fixedpoint _ _ _ _ (framed_rain _) E) in Ef. split.
  - eapply later_trans; [exact L2|]. eapply rain_later; [by eapply later_ok|exact E].
  - eexists _, _. split; [exact Hr|exact Ef].
Qed.

(** *** What the fixedpoint object is not told *)

Hint Resolve framed_ret framed_throw framed_gets framed_deref framed_the_type framed_rain framed_z3 framed_resolve_type
  framed_elaborate : frame.
Ltac framed :=
  unfold reject in *;
  repeat first [ solve [auto with frame]
               | apply framed_bind; [|intros ?]
               | apply framed_modify; intros ?; split; by split
               | case_match ].

Lemma framed_predicate_parameters prefix i ps env acc : framed (predicate_parameters_loop prefix i ps env acc).
Proof. revert i env acc. induction ps; intros i env acc; simpl; framed. Qed.
Lemma framed_index_loop ps seen : framed (index_loop ps seen).
Proof. revert seen. induction ps; intros seen; simpl; framed. Qed.
Lemma framed_predicate_atom direct indexed env e : framed (predicate_atom term_to_string term_ast_id direct indexed env e).
Proof. unfold predicate_atom. framed. Qed.
Lemma framed_indices env es : framed (elaborate_indices term_to_string term_ast_id env es).
Proof. unfold elaborate_indices. induction es; simpl; framed. Qed.
Hint Resolve framed_predicate_parameters framed_predicate_atom framed_indices : frame.
Lemma framed_premises owner env es acc : framed (premise_loop term_to_string term_ast_id owner env es acc).
Proof. revert acc. induction es; intros acc; simpl; unfold atom; framed. Qed.
Lemma framed_view_arguments env i es types : framed (view_arguments_loop term_to_string term_ast_id env i es types).
Proof. revert i types. induction es; intros i [|p types]; simpl; framed. Qed.
Lemma framed_requirements env es t : framed (requirement_loop term_to_string term_ast_id env es t).
Proof. revert t. induction es; intros t; simpl; framed. Qed.
Lemma framed_scoped owner env es : framed (scoped_premise_loop term_to_string term_ast_id owner env es).
Proof. induction es; simpl; framed. Qed.
Lemma framed_availability env p w : framed (availability_witness term_to_string term_ast_id env p w).
Proof. unfold availability_witness. framed. Qed.
Hint Resolve framed_premises framed_view_arguments framed_requirements framed_scoped framed_availability : frame.
Lemma framed_fields d c env i fs : framed (arbitrary_loop term_to_string term_ast_id d c env i fs).
Proof. revert i. induction fs; intros i; simpl; unfold arbitrary_field; framed. Qed.

(** *** One constructor *)

Definition constructor_form (c : PredicateConstructor) : Prop :=
  forallb source_form (constructor_premises c) = true /\ source_form (constructor_result c) = true /\
  Forall field_form (constructor_arbitrary c).

(** The constants of a constructor: parameters by position, then binders. *)
Lemma schema_constants d c ps fs :
  parameters_wf (constructor_prefix d (constructor_name c)) ps ->
  (forall i f, fs !! i = Some f -> field_binder d c (0 + i) (af_binder_term f)) ->
  Forall schema_constant (ps ++ (af_binder_term <$> fs)) /\ NoDup (ps ++ (af_binder_term <$> fs)).
Proof.
  intros Hp Hf. assert (Hname : forall suffix, exists m, constructor_prefix d (constructor_name c) +:+ suffix = "Fine.predicate." +:+ m).
  { intros suffix. unfold constructor_prefix. rewrite !append_assoc. by eexists. }
  assert (Hbind : forall i x, (af_binder_term <$> fs) !! i = Some x -> field_binder d c i x).
  { intros i x Hx. rewrite list_lookup_fmap in Hx. destruct (fs !! i) eqn:E; [|done]. injection Hx as <-. by apply Hf. }
  split; [|apply NoDup_app; split_and!].
  - apply Forall_app. split; apply Forall_lookup; intros i x Hx.
    + rewrite (Hp i x Hx). unfold schema_constant. rewrite sort_constant. destruct (Hname (".arg" +:+ to_string i)) as [m ->]. by exists m.
    + rewrite (Hbind i x Hx). unfold schema_constant. rewrite sort_constant.
      destruct (Hname (".arbitrary" +:+ to_string i)) as [m ->]. by exists m.
  - apply NoDup_alt. intros i j x Hi%Hp Hj%Hp. unfold parameter_constant in *. rewrite Hj in Hi at 1. apply constant_name in Hi.
    do 2 apply append_inv_head in Hi. by apply to_string_inj in Hi.
  - intros x [i Hi%Hp]%list_elem_of_lookup [j Hj%Hbind]%list_elem_of_lookup. unfold parameter_constant, field_binder in *.
    rewrite Hj in Hi at 1. apply constant_name in Hi. by apply append_inv_head in Hi.
  - apply NoDup_alt. intros i j x Hi%Hbind Hj%Hbind. unfold field_binder in *. rewrite Hj in Hi at 1. apply constant_name in Hi.
    do 2 apply append_inv_head in Hi. by apply to_string_inj in Hi.
Qed.

(** What the fixedpoint object is told of a constructor. *)
Definition told (horn : bool) (relation : Decl) (arbitrary : bool) (r : PredicateConstructorInfo) (f f' : Fixedpoint) : Prop :=
  if arbitrary then f' = f
  else pc_arbitrary_fields r = [] /\
       exists t m, reads (clause_of relation r) t /\ f' = if horn then add_rule t m f else f.

(** What [declare_constructor] retains. *)
Lemma constructor_yields d id horn c info st :
  constructor_form c -> runtime_ok st -> views_form st -> predicates_ st !! predicate_name d = Some info ->
  yields (declare_constructor term_to_string term_ast_id d id horn c) st (fun _ st' => exists st1 r,
    later st st1 /\ st' = retain_constructor r (predicate_name d) st1 /\ constructor_wf (pi_relation info) r /\
    Forall (atom_of (predicates_ st)) (pc_premise_terms r) /\
    told horn (pi_relation info) (negb (bool_decide (constructor_arbitrary c = []))) r (fixedpoint_ st) (fixedpoint_ st1)).
Proof.
  intros (Hfp & Hfr & Hff) Hok Hv Hinfo. unfold declare_constructor. apply yields_bind. intros [env ps] st1 E1. pose proof E1 as F1.
  apply parameters_yields in E1 as (L1 & He & Ho & Hp); [|done|by intros n te ?%lookup_empty_Some|by intros n te ?%lookup_empty_Some|by intros ? ?|done].
  cbn [fst snd] in *. apply yields_bind. intros conclusion st2 E2. pose proof E2 as F2. pose proof (later_ok _ _ L1) as Hok1.
  apply atom_yields in E2 as (L2 & Hw & q & l & Hq & -> & Ha); [|done..].
  destruct (String.eqb_spec (name (constructor_result c)) (predicate_name d)) as [En|]; [|by intros ? ?]. simpl.
  rewrite En, <- (g_predicates _ _ (later_grows _ _ L1)), Hinfo in Hq. injection Hq as <-.
  apply yields_bind. intros ix st3 E3. pose proof E3 as F3.
  destruct (indices_again _ _ _ _ _ _ _ Hfr Hok1 He Ha (later_refl _ (later_ok _ _ L2)) _ _ E3) as [-> L3].
  destruct (list_find _ _) as [[? ?]|]; [by intros ? ?|]. assert (L13 : later st1 st3) by (by eapply later_trans).
  assert (L03 : later st st3) by (by eapply later_trans). apply yields_bind. intros premises st4 E4. pose proof E4 as F4.
  apply (premises_yields _ info _ ps) in E4 as [L4 Hprem];
    [|done|by eapply later_ok|exact (env_later _ _ _ L13 He)|done|by rewrite <- (g_predicates _ _ (later_grows _ _ L03))|split; [done|constructor|done..]].
  assert (L04 : later st st4) by (by eapply later_trans). assert (L14 : later st1 st4) by (by eapply later_trans).
  apply yields_bind. intros fs st5 E5. pose proof E5 as F5. apply (fields_yields _ _ info _ ps) in E5 as (L5 & Hfw & Hfb);
    [|done|by eapply later_ok|by apply (g_views _ _ (later_grows _ _ L04))|exact (env_later _ _ _ L14 He)|done|
     by rewrite <- (g_predicates _ _ (later_grows _ _ L04))].
  assert (Ef : fixedpoint_ st5 = fixedpoint_ st).
  { rewrite (framed_fixedpoint _ _ _ _ (framed_fields _ _ _ _ _) F5), (framed_fixedpoint _ _ _ _ (framed_premises _ _ _ _) F4),
      (framed_fixedpoint _ _ _ _ (framed_indices _ _) F3), (framed_fixedpoint _ _ _ _ (framed_predicate_atom _ _ _ _) F2).
    apply (framed_fixedpoint _ _ _ _ (framed_predicate_parameters _ _ _ _ _) F1). }
  apply yields_bind. intros [] st6 E6. set (r := mkPredicateConstructorInfo _ _ _ _ _ _ _).
  assert (L6 : later st5 st6 /\
    told horn (pi_relation info) (negb (bool_decide (constructor_arbitrary c = []))) r (fixedpoint_ st) (fixedpoint_ st6)).
  { pose proof (later_ok _ _ L5) as Hok5. rewrite <- Ef. destruct (bool_decide_reflect (constructor_arbitrary c = [])) as [Ea|]; simpl.
    - apply lower_yields in E6 as [L6 Ht]; [|done|by destruct Hprem]. split; [done|]. split; [|exact Ht].
      rewrite Ea in F5. by injection F5 as <- _.
    - injection E6 as <-. split; [by apply later_refl|done]. }
  destruct L6 as [L6 Htold]. intros [] st' [= <-]. exists st6, r. split_and!; [|done| |by rewrite (g_predicates _ _ (later_grows _ _ L03)); apply Hprem|done].
  { eapply later_trans; [exact L04|]. by eapply later_trans. }
  destruct (schema_constants d c ps fs Hp Hfb) as [Hsc Hnd]. destruct Hprem as [Hpa Hpc Hpt Hpr].
  destruct Ha as (tes & s1 & _ & _ & Hl & _). split; simpl; try done.
  - destruct (ok_predicates _ Hok _ _ Hinfo) as (rts & _ & Hrts & _ & Hdom & _). rewrite Hl, Hdom, length_fmap. by eapply Forall2_length.
  - apply (over_app (pi_relation info)). by eapply within_over.
Qed.

(** *** The whole declaration *)

(** Changing only the constructors of a predicate. *)
Lemma predicates_ok st st' :
  runtime_ok st -> type_heap st' = type_heap st -> enum_heap st' = enum_heap st -> datatype_heap st' = datatype_heap st ->
  types_ st' = types_ st -> cases_ st' = cases_ st -> constructors_ st' = constructors_ st ->
  compound_types_ st' = compound_types_ st -> functions_ st' = functions_ st -> bindings_ st' = bindings_ st ->
  recdefs_ st' = recdefs_ st -> value_names_ st' = value_names_ st ->
  (forall n q, predicates_ st' !! n = Some q -> n ∈ value_names_ st /\ constructors_ st !! n = None /\
     decl_typed st (pi_index_types q) bool_type_ (pi_relation q)) -> runtime_ok st'.
Proof.
  intros Hok E1 E2 E3 E4 E5 E6 E7 E8 E9 E10 E11 Hp. destruct st, st'. simpl in *. subst. destruct Hok as [? ? Ht He Hd ? ? ? ? ? ? ? Hf ? _ _ Hb ?].
  split; simpl in *; try done.
  - intros p rt Hrt. destruct (Ht p rt Hrt);
      [by apply wf_bool|by apply wf_int|by eapply wf_enum|by eapply wf_datatype|by eapply wf_tuple|by eapply wf_table].
  - intros n q Hq. by apply Hp in Hq as (_ & _ & ?).
  - intros n [q Hq]. by apply Hp in Hq as (? & ? & _).
Qed.

Lemma retain_lookup r n st m q :
  predicates_ (retain_constructor r n st) !! m = Some q -> exists q', predicates_ st !! m = Some q' /\
    (m <> n /\ q = q' \/ m = n /\ q = push_constructor r q').
Proof.
  simpl. destruct (decide (m = n)) as [->|Hne].
  - rewrite lookup_alter_eq. destruct (predicates_ st !! n) as [q'|]; [|done]. intros [= <-]. exists q'. by split; [|right].
  - rewrite lookup_alter_ne by done. intros Hq. exists q. by split; [|left].
Qed.

Lemma retain_ok r n st : runtime_ok st -> runtime_ok (retain_constructor r n st).
Proof.
  intros Hok. apply (predicates_ok st); try done. intros m q (q' & Hq & Hc)%retain_lookup.
  destruct (ok_predicate_names _ Hok m) as [? ?]; [by eexists|]. pose proof (ok_predicates _ Hok _ _ Hq).
  destruct Hc as [[_ ->]|[_ ->]]; done.
Qed.

Lemma retain_wf r n info st :
  predicates_wf st -> predicates_ st !! n = Some info -> constructor_wf (pi_relation info) r ->
  predicates_wf (retain_constructor r n st).
Proof.
  intros Hwf Hinfo Hr m q (q' & Hq & Hc)%retain_lookup. destruct (Hwf _ _ Hq) as (En & Hi & Hl & Hcs).
  destruct Hc as [[_ ->]|[-> ->]]; [done|]. rewrite Hinfo in Hq. injection Hq as <-. split; [done|]. split_and!; [done..|].
  apply Forall_app. split; [done|by constructor].
Qed.

(** *** The rules of the retained constructors *)

(** No predicate ranks above [n]. *)
Definition newest (n : string) (ps : gmap string PredicateInfo) : Prop :=
  exists rank, ranked rank ps /\ forall m, is_Some (ps !! m) -> m = n \/ rank m < rank n.

Lemma pushed_lookup r n (ps : gmap string PredicateInfo) m q :
  alter (push_constructor r) n ps !! m = Some q <->
  exists q', ps !! m = Some q' /\ q = if decide (m = n) then push_constructor r q' else q'.
Proof.
  destruct (decide (m = n)) as [->|Hne].
  - rewrite lookup_alter_eq. destruct (ps !! n) as [q'|]; simpl; [|naive_solver]. split; [intros [= <-]; by exists q'|].
    by intros (q'' & [= <-] & ->).
  - rewrite lookup_alter_ne by done. split; [intros Hq; by exists q|]. by intros (q' & Hq & ->).
Qed.

Lemma pushed_kept r n (ps : gmap string PredicateInfo) m q :
  ps !! m = Some q -> exists q', alter (push_constructor r) n ps !! m = Some q' /\ pi_relation q' = pi_relation q /\
    pi_horn_complete q' = pi_horn_complete q /\ forall c, c ∈ pi_constructors q -> c ∈ pi_constructors q'.
Proof.
  intros Hq. exists (if decide (m = n) then push_constructor r q else q). rewrite pushed_lookup. split; [by exists q|].
  destruct (decide (m = n)); [|done]. split_and!; [done..|]. intros c Hc. simpl. set_solver.
Qed.

Lemma retain_ranked r n info ps rank :
  ps !! n = Some info -> ranked rank ps -> (forall m, is_Some (ps !! m) -> m = n \/ rank m < rank n) ->
  Forall (atom_of ps) (pc_premise_terms r) -> ranked rank (alter (push_constructor r) n ps).
Proof.
  intros Hn Hr Htop Hat m p c t (p' & Hp & ->)%pushed_lookup Hc Ht.
  assert (Hold : exists k q l, ps !! k = Some q /\ t = App (pi_relation q) l /\ (k = m \/ rank k < rank m)).
  { destruct (decide (m = n)) as [->|]; [|by eapply Hr]. simpl in Hc. apply elem_of_app in Hc as [Hc|Hc%list_elem_of_singleton].
    - by eapply Hr.
    - subst c. rewrite Forall_forall in Hat. destruct (Hat t Ht) as (k & q & l & Hk & ->). exists k, q, l.
      split_and!; [done..|]. apply Htop. by eexists. }
  destruct Hold as (k & q & l & Hk & -> & Hrank). destruct (pushed_kept r n ps k q Hk) as (q' & Hq' & Er & _).
  exists k, q', l. by rewrite Er.
Qed.

Lemma retain_newest r n info ps :
  ps !! n = Some info -> newest n ps -> Forall (atom_of ps) (pc_premise_terms r) -> newest n (alter (push_constructor r) n ps).
Proof.
  intros Hn (rank & Hr & Htop) Hat. exists rank. split; [by eapply retain_ranked|].
  intros m [q (q' & Hq & _)%pushed_lookup]. apply Htop. by eexists.
Qed.

Lemma retain_told r n info ps f f' arbitrary :
  ps !! n = Some info -> rules_told f ps -> (pi_horn_complete info = true -> arbitrary = false) ->
  told (pi_horn_complete info) (pi_relation info) arbitrary r f f' -> rules_told f' (alter (push_constructor r) n ps).
Proof.
  intros Hn [Hnm Hd Ht Hc] Ha Htold.
  assert (Hf : fp_relations f' = fp_relations f /\ (fp_rules f).*2 ⊆ (fp_rules f').*2 /\
    forall t, t ∈ (fp_rules f').*2 -> t ∈ (fp_rules f).*2 \/
      pi_horn_complete info = true /\ reads (clause_of (pi_relation info) r) t).
  { unfold told in Htold. destruct arbitrary; [subst f'; split_and!; [done..|by left]|]. destruct Htold as (_ & t & m & Hr & ->).
    destruct (pi_horn_complete info); [|split_and!; [done..|by left]]. simpl. rewrite fmap_app. split_and!; [done|set_solver|].
    intros t' [?|Hs]%elem_of_app; [by left|]. apply list_elem_of_singleton in Hs as ->. by right. }
  destruct Hf as (Er & Hsub & Hnew).
  assert (Hpush : alter (push_constructor r) n ps !! n = Some (push_constructor r info)).
  { apply pushed_lookup. exists info. by rewrite decide_True. }
  split.
  - intros m q (q' & Hq & ->)%pushed_lookup. destruct (Hnm _ _ Hq) as (dom & rng & E). exists dom, rng. by destruct (decide (m = n)).
  - intros d. rewrite Er, Hd. split.
    + intros (m & q & Hq & Hh & <-). destruct (pushed_kept r n ps m q Hq) as (q' & Hq' & E & Eh & _). exists m, q'. by rewrite Eh.
    + intros (m & q & (q' & Hq & ->)%pushed_lookup & Hh & <-). exists m, q'. by destruct (decide (m = n)).
  - intros t [Hold|[Hh Hr]]%Hnew.
    + destruct (Ht _ Hold) as (p & c & ((m & Hm) & Hh & Hin) & Hr). destruct (pushed_kept r n ps m p Hm) as (q' & Hq' & E & Eh & Hcs).
      exists q', c. rewrite E. split; [|done]. split_and!; [by exists m|by rewrite Eh|by apply Hcs].
    + exists (push_constructor r info), r. split; [|done]. split_and!; [by exists n|done|]. simpl. set_solver.
  - intros p c ((m & (q & Hq & ->)%pushed_lookup) & Hh & Hin).
    assert (Hcase : lowered ps q c \/ m = n /\ c = r).
    { destruct (decide (m = n)) as [->|]; [|left; by split_and!; [exists m|..]]. simpl in *.
      apply elem_of_app in Hin as [Hin|Hin%list_elem_of_singleton]; [left; by split_and!; [exists n|..]|by right]. }
    assert (Erel : pi_relation (if decide (m = n) then push_constructor r q else q) = pi_relation q) by (by destruct (decide (m = n))).
    rewrite Erel. destruct Hcase as [Hl|[-> ->]].
    + destruct (Hc _ _ Hl) as (? & t & Hin' & ?). split; [done|]. exists t. split; [by apply Hsub|done].
    + rewrite Hn in Hq. injection Hq as <-. rewrite decide_True in Hh by done. simpl in Hh. specialize (Ha Hh) as ->.
      destruct Htold as (? & t & m & Hr & ->). rewrite Hh. split; [done|]. exists t. split; [|done]. simpl. rewrite fmap_app. set_solver.
Qed.

Lemma register_told info n ps f :
  ps !! n = None -> pi_constructors info = [] -> (exists dom r, dom <> [] /\ pi_relation info = z3_function n dom r) -> rules_told f ps ->
  rules_told (if pi_horn_complete info then register_relation (pi_relation info) f else f) (<[n := info]> ps).
Proof.
  intros Hn Hnil Hrel [Hnm Hd Ht Hc].
  assert (Hrules : fp_rules (if pi_horn_complete info then register_relation (pi_relation info) f else f) = fp_rules f)
    by (by destruct (pi_horn_complete info)).
  assert (Hlow : forall p c, lowered (<[n := info]> ps) p c <-> lowered ps p c).
  { intros p c. split.
    - intros ((m & Hm) & Hh & Hin). apply lookup_insert_Some in Hm as [[<- <-]|[_ Hm]]; [rewrite Hnil in Hin; by apply elem_of_nil in Hin|].
      by split_and!; [exists m|..].
    - intros ((m & Hm) & Hh & Hin). split_and!; [|done..]. exists m. rewrite lookup_insert_ne; [done|]. intros ->. congruence. }
  split; rewrite ?Hrules.
  - intros m p [[<- <-]|[_ Hm]]%lookup_insert_Some; [done|by apply Hnm].
  - intros d. assert (Hins : (exists m p, <[n := info]> ps !! m = Some p /\ pi_horn_complete p = true /\ pi_relation p = d) <->
      pi_horn_complete info = true /\ pi_relation info = d \/ exists m p, ps !! m = Some p /\ pi_horn_complete p = true /\ pi_relation p = d).
    { split.
      - intros (m & p & [[<- <-]|[_ Hm]]%lookup_insert_Some & Hp); [by left|right; by exists m, p].
      - intros [Hi|(m & p & Hm & Hp)]; [exists n, info; by rewrite lookup_insert_eq|exists m, p].
        rewrite lookup_insert_ne; [done|]. intros ->. congruence. }
    rewrite Hins, <- Hd. destruct (pi_horn_complete info); simpl; [|naive_solver]. rewrite elem_of_app, list_elem_of_singleton. naive_solver.
  - intros t Hin. destruct (Ht _ Hin) as (p & c & Hl & Hr). exists p, c. by rewrite Hlow.
  - intros p c Hl%Hlow. by apply Hc.
Qed.

Lemma register_newest info n (ps : gmap string PredicateInfo) rank :
  ps !! n = None -> pi_constructors info = [] -> ranked rank ps -> newest n (<[n := info]> ps).
Proof.
  intros Hn Hnil Hr. set (top := S (max_list (rank <$> (map_to_list ps).*1))).
  assert (Hb : forall m, is_Some (ps !! m) -> rank m < top).
  { intros m [q Hq]. unfold top. apply Nat.lt_succ_r. apply max_list_elem_of_le. apply list_elem_of_fmap_2. apply list_elem_of_fmap.
    exists (m, q). split; [done|]. by apply elem_of_map_to_list. }
  exists (fun m => if decide (m = n) then top else rank m). split.
  - intros m p c t [[<- <-]|[Hne Hm]]%lookup_insert_Some Hc Ht; [rewrite Hnil in Hc; by apply elem_of_nil in Hc|].
    destruct (Hr _ _ _ _ Hm Hc Ht) as (k & q & l & Hk & -> & Hrank). assert (k <> n) by congruence.
    exists k, q, l. rewrite lookup_insert_ne by done. split_and!; [done..|]. rewrite !decide_False by done. exact Hrank.
  - intros m [q [[<- <-]|[Hne Hm]]%lookup_insert_Some]; [by left|]. right.
    destruct (decide (n = n)); [|done]. destruct (decide (m = n)); [congruence|]. apply Hb. by eexists.
Qed.

Definition declared_from (n : string) (st st' : RuntimeState) : Prop :=
  runtime_ok st' /\ views_form st' /\ predicates_wf st' /\ admitted_proofs_ st' = admitted_proofs_ st /\
  forall m, m <> n -> predicates_ st' !! m = predicates_ st !! m.

Lemma later_wf st st' : later st st' -> predicates_wf st -> predicates_wf st'.
Proof. intros L Hwf. unfold predicates_wf. by rewrite <- (g_predicates _ _ (later_grows _ _ L)). Qed.

(** The rules are told along with the constructors. *)
Definition told_from (n : string) (st st' : RuntimeState) : Prop :=
  rules_told (fixedpoint_ st) (predicates_ st) -> newest n (predicates_ st) ->
  rules_told (fixedpoint_ st') (predicates_ st') /\ newest n (predicates_ st').

Lemma constructors_yields d id cs seen info st :
  Forall constructor_form cs -> runtime_ok st -> views_form st -> predicates_wf st ->
  predicates_ st !! predicate_name d = Some info ->
  (pi_horn_complete info = true -> Forall (fun c => constructor_arbitrary c = []) cs) ->
  yields (constructor_loop term_to_string term_ast_id d id (pi_horn_complete info) cs seen) st (fun _ st' =>
    declared_from (predicate_name d) st st' /\ told_from (predicate_name d) st st').
Proof.
  revert seen info st. induction cs as [|c cs IH]; intros seen info st Hf Hok Hv Hwf Hinfo Hhorn; cbn [constructor_loop].
  { by intros [] st' [= <-]. }
  apply Forall_cons in Hf as [Hf Hfs]. destruct (decide _); [by intros ? ?|]. apply yields_bind. intros [] st1 E1.
  apply (constructor_yields _ _ _ _ info) in E1 as (s & r & L & -> & Hr & Hat & Htold); [|done..]. pose proof (later_grows _ _ L) as Hg.
  assert (Hinfo' : predicates_ s !! predicate_name d = Some info) by (by rewrite <- (g_predicates _ _ Hg)).
  intros [] st' E. apply (IH _ (push_constructor r info)) in E as ((Hok' & Hv' & Hwf' & Ep & Em) & Htf).
  - split; [split_and!; try done|].
    + rewrite Ep. simpl. by rewrite <- (g_proofs _ _ Hg).
    + intros m Hm. rewrite Em by done. simpl. rewrite lookup_alter_ne by done. by rewrite <- (g_predicates _ _ Hg).
    + intros Hrt Hnew. rewrite (g_predicates _ _ Hg) in *. apply Htf; simpl.
      * eapply retain_told; [done..| |exact Htold]. intros Hh. apply Hhorn, Forall_cons in Hh as [-> _]. done.
      * by eapply retain_newest.
  - done.
  - apply retain_ok. by eapply later_ok.
  - by apply (g_views _ _ Hg).
  - eapply retain_wf; [by eapply later_wf|done|done].
  - simpl. by rewrite lookup_alter_eq, Hinfo'.
  - simpl. intros Hh. by apply Hhorn, Forall_cons in Hh as [_ ?].
Qed.

Definition predicate_form (d : PredicateDecl) : Prop :=
  predicate_indices d <> [] /\ Forall constructor_form (predicate_constructors d).

Lemma indices_yields ps seen st :
  runtime_ok st ->
  yields (index_loop ps seen) st (fun l st' => later st st' /\ length l = length ps /\
    exists rts, typed_as st' l.*1 rts /\ l.*2 = rt_sort <$> rts).
Proof.
  revert seen st. induction ps as [|p ps IH]; intros seen st Hok; cbn [index_loop].
  { intros l st' [= <- <-]. split; [by apply later_refl|]. split; [done|]. exists []. split; [constructor|done]. }
  destruct (decide _); [by intros ? ?|]. apply yields_bind. intros ty st1 E1. apply resolve_later in E1 as [L1 _]; [|done].
  apply yields_bind. intros rt st2 [Hrt ->]%the_type_Ok. destruct (bool_decide _); [by intros ? ?|].
  apply yields_bind. intros rest st2 E2. apply IH in E2 as (L2 & Hl & rts & Hr & Es); [|by eapply later_ok].
  intros l st' [= <- <-]. split; [by eapply later_trans|]. split; [simpl; by rewrite Hl|]. exists (rt :: rts). split.
  - constructor; [by eapply later_type|done].
  - simpl. f_equal. exact Es.
Qed.

(** A predicate is registered before its constructors. *)
Lemma register_predicate info n st :
  runtime_ok st -> predicates_wf st -> predicates_ st !! n = None -> n ∈ value_names_ st -> constructors_ st !! n = None ->
  decl_typed st (pi_index_types info) bool_type_ (pi_relation info) -> pi_name info = n -> pi_constructors info = [] ->
  predicates_ (add_predicate info n st) = <[n := info]> (predicates_ st) /\ runtime_ok (add_predicate info n st) /\
  predicates_wf (add_predicate info n st).
Proof.
  intros Hok Hwf Hfree Hv Hc Hdt Hn Hnil. assert (Ep : predicates_ (add_predicate info n st) = <[n := info]> (predicates_ st)).
  { simpl. by rewrite lookup_emplace. }
  split_and!; [done| |].
  - apply (predicates_ok st); try done. rewrite Ep. intros m q [[<- <-]|[_ Hq]]%lookup_insert_Some; [done|].
    destruct (ok_predicate_names _ Hok m) as [? ?]; [by eexists|]. pose proof (ok_predicates _ Hok _ _ Hq). done.
  - unfold predicates_wf. rewrite Ep. apply map_Forall_insert_2; [|done]. split; [done|].
    destruct Hdt as (rts & _ & Hr & _ & Hd & _ & Hi). split_and!; [done| |by rewrite Hnil].
    rewrite Hd, length_fmap. symmetry. by eapply Forall2_length.
Qed.

Lemma declare_predicate_yields d id st :
  predicate_form d -> runtime_ok st -> views_form st -> predicates_wf st ->
  yields (declare_predicate term_to_string term_ast_id d id) st (fun _ st' =>
    declared_from (predicate_name d) st st' /\ predicates_ st ⊆ predicates_ st' /\ (fixedpoint_ok st -> fixedpoint_ok st')).
Proof.
  intros [Hne Hf] Hok Hv Hwf. unfold declare_predicate. apply yields_bind. intros [] st1 E1.
  destruct (safe_yields _ _ _ _ _ (safe_reserve_value_name _ _ _ Hok) E1) as (K1 & Hfree & ->). clear E1.
  pose proof K1 as [Hok1 Hg1]. assert (Hfresh : predicates_ st !! predicate_name d = None).
  { apply eq_None_not_Some. intros Hs. by apply (ok_predicate_names _ Hok) in Hs as [? _]. }
  assert (Hcon : constructors_ st !! predicate_name d = None).
  { apply eq_None_not_Some. intros Hs. apply Hfree, (ok_reserved _ Hok). by right. }
  set (st1 := add_value_name _ _) in *. apply yields_bind. intros l st2 E2. pose proof E2 as F2. apply indices_yields in E2 as (L2 & Hl & rts & Hr & Es); [|done].
  set (rel := z3_function _ _ _). set (info := mkPredicateInfo _ _ _ _ _). apply yields_bind. intros [] st3 E3.
  assert (L3 : later st2 st3 /\ fixedpoint_ st3 = if horn_complete d then register_relation rel (fixedpoint_ st2) else fixedpoint_ st2).
  { pose proof (later_ok _ _ L2). destruct (horn_complete d); [|injection E3 as <-; split; [by apply later_refl|done]].
    apply bind_Ok in E3 as (f & s & [= <- <-] & [= <-]). split; [by apply later_fixedpoint|done]. }
  destruct L3 as [L3 Ef3]. rewrite (framed_fixedpoint _ _ _ _ (framed_index_loop _ _) F2) in Ef3.
  assert (L13 : later st1 st3) by (by eapply later_trans). pose proof (later_ok _ _ L13) as Hok3. pose proof (later_grows _ _ L13) as Hg13.
  assert (Ep : predicates_ st3 = predicates_ st) by (by rewrite <- (g_predicates _ _ Hg13)).
  assert (Hsorts : l.*2 <> []).
  { intros En. apply (f_equal length) in En. rewrite length_fmap, Hl in En. simpl in En. by destruct (predicate_indices d). }
  assert (Hdt : decl_typed st3 (pi_index_types info) bool_type_ (pi_relation info)).
  { destruct (function_typed (predicate_name d) l.*2 bool_sort) as (Hdom & Hran & Hint). exists rts, bool_runtime_type.
    split_and!; [|apply ok_bool, Hok3|simpl; unfold rel; congruence|done|].
    - exact (grows_typed_as _ _ _ _ (later_grows _ _ L3) Hr).
    - by apply Hint. }
  destruct (register_predicate info (predicate_name d) st3) as (Epred & Hok4 & Hwf4);
    [done|exact (later_wf st1 st3 L13 Hwf)|by rewrite Ep| | |done|done|done|].
  { destruct L13 as [_ F13]. rewrite (fr_values _ _ F13). unfold st1. simpl. set_solver. }
  { destruct L13 as [_ F13]. by rewrite (fr_constructors _ _ F13). }
  rewrite Ep in Epred. apply yields_bind. intros [] st4 [= <-]. apply yields_bind. intros [] st5 E5. set (st4 := add_predicate _ _ _) in *.
  pose proof (rain_later _ _ _ _ Hok4 E5) as L5. pose proof (later_grows _ _ L5) as Hg5. intros [] st' E.
  apply (constructors_yields _ _ _ _ info) in E as ((Hok' & Hv' & Hwf' & Epr & Em) & Htf).
  - assert (Hpr : admitted_proofs_ st3 = admitted_proofs_ st) by (by rewrite <- (g_proofs _ _ Hg13)).
    assert (Hm : forall m, m <> predicate_name d -> predicates_ st' !! m = predicates_ st !! m).
    { intros m Hm. rewrite Em by done. rewrite <- (g_predicates _ _ Hg5), Epred. by rewrite lookup_insert_ne. }
    split; [split_and!; try done|split].
    + rewrite Epr, <- (g_proofs _ _ Hg5). exact Hpr.
    + apply map_subseteq_spec. intros m q Hq. rewrite Hm; [done|]. intros ->. congruence.
    + intros [Hrt [rank Hrank]]. unfold told_from in Htf. rewrite (framed_fixedpoint _ _ _ _ (framed_rain _) E5) in Htf.
      rewrite <- (g_predicates _ _ Hg5), Epred in Htf. simpl in Htf. rewrite Ef3 in Htf.
      destruct Htf as [Hrt' (rank' & ? & _)]; [exact (register_told info _ _ _ Hfresh eq_refl (ex_intro _ _ (ex_intro _ _ (conj Hsorts eq_refl))) Hrt)|by eapply register_newest|].
      split; [done|by exists rank'].
  - done.
  - by eapply later_ok.
  - apply (g_views _ _ Hg5). unfold views_form, st4. simpl. apply (g_views _ _ Hg13). by apply (g_views _ _ Hg1).
  - by eapply later_wf.
  - rewrite <- (g_predicates _ _ Hg5), Epred. apply lookup_insert_eq.
  - simpl. unfold horn_complete. intros Hh. rewrite forallb_forall in Hh. apply Forall_forall. intros c Hc.
    apply list_elem_of_In in Hc. by specialize (Hh c Hc) as ?%bool_decide_eq_true.
Qed.
End Declare.
