(* ===== verification/PredicateSound.v ===== *)
(** * A verified predicate induction is a theorem

    The statement an induction elaborates is well formed ([statement_yields]),
    so that verifying every constructor makes its theorem true in the worlds
    where the declared predicates are generated; a reusable proof is admitted
    closed over its variables, and the admitted proofs keep holding there. *)

From stdpp Require Import gmap.
From S2P Require Import Prelude Format Syntax Lexer Printer Parser ParserSpec Source Z3Ast Z3Solver Z3Build Z3Check Z3Fixedpoint Lift Recorder Observers Runtime Elaborate Declare Values Predicate PredicateCheck RuntimeSpec ElaborateSpec DeclareSpec EnumSpec FunctionSpec CheckSpec CheckSound PredicateSpec LayerSpec InductionSpec DeclarePredicateSpec.
From Stdlib Require Import NArith.

Section Sound.
Context `{HD : Z3Data} {HA : Z3Api} {HX : Z3Exprs} {HB : Z3Build} {HBL : Z3BuildLaws} {HM : Z3Meaning}
  {HML : Z3MeaningLaws} {HBM : Z3BuildMeaning} {HS : Z3Solver} {HSL : Z3SolverLaws}.
Context (term_to_string : Term -> string) (term_ast_id : Term -> N).
Abbreviation runs := (runs term_to_string term_ast_id).

(** ** Parameters *)

Definition ip_variables (acc : InductionParameters) : list Term := ip_indices acc ++ ip_context acc.

(** What the loop has built after [i] parameters. *)
Record parameters_built (d : CheckDecl) (target : Expr) (p : PredicateInfo) (st : RuntimeState) (i : nat)
    (acc : InductionParameters) : Prop := {
  pb_typed : env_typed st (ip_environment acc);
  pb_over : env_over (ip_variables acc) (ip_environment acc);
  pb_constants (j : nat) x : ip_variables acc !! j = Some x -> x = constant (induction_arg d j) (get_sort x);
  pb_length : length (ip_variables acc) = i;
  pb_context : i <= length (pi_index_types p) -> ip_context acc = [];
  pb_indices : length (ip_indices acc) = i `min` length (pi_index_types p);
  pb_target (j : nat) x : ip_indices acc !! j = Some x -> exists e te, elements target !! j = Some e /\ kind e = EName /\
    ip_environment acc !! name e = Some te /\ te_expression te = x
}.

Lemma check_index_yields target p (i : nat) q ty st :
  yields (check_index target p i q ty) st (fun b st' => st' = st /\ b = bool_decide (i < length (pi_index_types p)) /\
    (b = true -> exists e, elements target !! i = Some e /\ kind e = EName /\ name e = parameter_name q)).
Proof.
  unfold check_index. destruct (pi_index_types p !! i) as [ex|] eqn:Ei.
  - case_match; [apply yields_bind; intros ? ? _; by intros ? ?|]. apply yields_bind. intros e st1 [He ->]%deref_Ok.
    destruct (bool_decide_reflect (kind e = EName)) as [Hk|]; [|by intros ? ?].
    destruct (String.eqb_spec (name e) (parameter_name q)) as [En|]; [|by intros ? ?]. intros b st' [= <- <-].
    apply lookup_lt_Some in Ei. rewrite bool_decide_eq_true_2 by done. split_and!; [done..|]. intros _. by exists e.
  - intros b st' [= <- <-]. apply lookup_ge_None in Ei. rewrite bool_decide_eq_false_2 by lia. done.
Qed.

Lemma parameters_step d target p st (i : nat) acc q ty rt b :
  parameters_built d target p st i acc -> runtime_ok st -> ip_environment acc !! parameter_name q = None ->
  type_heap st !! ty = Some rt -> b = bool_decide (i < length (pi_index_types p)) ->
  (b = true -> exists e, elements target !! i = Some e /\ kind e = EName /\ name e = parameter_name q) ->
  let c := constant (induction_arg d i) (rt_sort rt) in
  parameters_built d target p st (S i)
    (mkInductionParameters (<[parameter_name q := mkTyped ty c]> (ip_environment acc))
       (if b then ip_indices acc ++ [c] else ip_indices acc) (if b then ip_context acc else ip_context acc ++ [c])).
Proof.
  intros [Ht Ho Hc Hl Hctx Hix Htg] Hok Hfree Hrt Hb He c.
  assert (Ev : ip_variables (mkInductionParameters (<[parameter_name q := mkTyped ty c]> (ip_environment acc))
    (if b then ip_indices acc ++ [c] else ip_indices acc) (if b then ip_context acc else ip_context acc ++ [c])) =
    ip_variables acc ++ [c]).
  { unfold ip_variables. simpl. destruct b; [|by rewrite app_assoc]. symmetry in Hb. apply bool_decide_eq_true in Hb.
    rewrite Hctx by lia. by rewrite !app_nil_r. }
  split; rewrite ?Ev; cbn [ip_environment ip_indices ip_context].
  - apply env_insert; [done|]. exists rt. split; [done|apply sort_constant].
  - apply env_over_insert; [apply over_constant; set_solver|]. eapply env_over_mono; [|exact Ho]. set_solver.
  - intros j x [Hj|[Hj Hx]]%lookup_app_Some; [by apply Hc|]. apply list_lookup_singleton_Some in Hx as [Ej <-].
    assert (j = i) as -> by (clear -Hl Hj Ej; lia). unfold c. by rewrite sort_constant.
  - rewrite length_app. simpl. lia.
  - intros Hle. destruct b; [apply Hctx; lia|]. symmetry in Hb. apply bool_decide_eq_false in Hb. lia.
  - destruct b; symmetry in Hb; [apply bool_decide_eq_true in Hb|apply bool_decide_eq_false in Hb];
      rewrite ?length_app, Hix; cbn [length]; lia.
  - intros j x Hj. assert (Hold : ip_indices acc !! j = Some x -> exists e te, elements target !! j = Some e /\ kind e = EName /\
      <[parameter_name q := mkTyped ty c]> (ip_environment acc) !! name e = Some te /\ te_expression te = x).
    { intros Hx. destruct (Htg j x Hx) as (e & te & ? & ? & Hn & ?). exists e, te. split_and!; [done..| |done].
      rewrite lookup_insert_ne; [done|]. intros En. congruence. }
    destruct b; [|by apply Hold]. apply lookup_app_Some in Hj as [Hj|[Hge Hj]]; [by apply Hold|].
    apply list_lookup_singleton_Some in Hj as [Ej <-]. symmetry in Hb. apply bool_decide_eq_true in Hb.
    destruct (He eq_refl) as (e & Hel & Hk & En). exists e, (mkTyped ty c). replace j with i by lia. rewrite En.
    by rewrite lookup_insert_eq.
Qed.

Lemma parameters_loop_yields d target p (i : nat) ps acc st :
  runtime_ok st -> parameters_built d target p st i acc ->
  yields (induction_parameters_loop (check_name d) target p i ps acc) st (fun r st' =>
    later st st' /\ parameters_built d target p st' (i + length ps) r).
Proof.
  revert i acc st. induction ps as [|q ps IH]; intros i acc st Hok Hb; cbn [induction_parameters_loop].
  { intros r st' [= <- <-]. rewrite Nat.add_0_r. split; [by apply later_refl|done]. }
  destruct (ip_environment acc !! parameter_name q) eqn:En; [by intros ? ?|]. apply yields_bind. intros ty st1 E1.
  apply resolve_later in E1 as [L1 _]; [|done]. apply yields_bind. intros b st2 (-> & Eb & Hb')%check_index_yields.
  apply yields_bind. intros rt st2 [Hrt ->]%the_type_Ok. intros r st' E. cbn [length]. rewrite <- Nat.add_succ_comm.
  apply IH in E as [L2 ?]; [by split; [eapply later_trans|]|by eapply later_ok|].
  apply (parameters_step d target p st1 i acc q ty rt b); [|by eapply later_ok|done..].
  destruct Hb. split; try done. by eapply env_later.
Qed.

(** ** Conditions *)

Lemma auxiliary_Ok predicates es st l st' :
  auxiliary_loop predicates es st = (Ok l, st') -> l = direct_predicate predicates <$> es /\ st' = st.
Proof.
  revert l st'. induction es as [|e es IH]; intros l st'; cbn [auxiliary_loop]; [by intros [= <- <-]|].
  destruct (_ && _); [done|]. intros (rest & st1 & [-> ->]%IH & [= <- <-])%bind_Ok. done.
Qed.

(** A predicate guarantee is the one ensured atom. *)
Lemma goal_Ok predicates count es g st r st' :
  goal_loop predicates count es g st = (Ok r, st') ->
  st' = st /\ (r = g \/ count = 1 /\ exists e, e ∈ es /\ direct_predicate predicates e = r).
Proof.
  revert g. induction es as [|e es IH]; intros g; cbn [goal_loop]; [intros [= <- <-]; by split; [|left]|].
  destruct (negb (contains_predicate predicates e)).
  - intros [-> [->|(Hc & e' & He & Hd)]]%IH; [by split; [|left]|]. split; [done|]. right. split; [done|]. exists e'. set_solver.
  - destruct (direct_predicate predicates e) as [item|] eqn:Ed; [|done]. destruct (Nat.eqb_spec count 1) as [Hc|]; [|done]. simpl.
    intros [-> Hr]%IH. split; [done|]. right. split; [done|]. destruct Hr as [->|(_ & e' & He & Hd)]; [exists e|exists e']; set_solver.
Qed.

(** The term of a direct predicate call is its atom. *)
Definition atom_form (st : RuntimeState) (t : Term) (e : Expr) : Prop :=
  forall q, direct_predicate (predicates_ st) e = Some q -> exists l, t = App (pi_relation q) l.

Record conditions_built (st : RuntimeState) (cs : list Term) (es : list Expr) (acc : Term) (ts : list Term) (r : Term) : Prop := {
  cb_over : Forall (over cs) ts;
  cb_over_acc : over cs r;
  cb_meaning w e : holds w e r <-> holds w e acc /\ Forall (holds w e) ts;
  cb_atoms : Forall2 (atom_form st) ts es
}.

Lemma condition_loop_yields message env cs es acc st :
  forallb source_form es = true -> runtime_ok st -> env_typed st env -> env_over cs env -> over cs acc ->
  yields (condition_loop term_to_string term_ast_id message env es acc) st (fun r st' =>
    later st st' /\ conditions_built st cs es acc r.1 r.2).
Proof.
  revert acc st. induction es as [|e es IH]; intros acc st Hf Hok He Ho Ha; cbn [condition_loop].
  { intros r st' [= <- <-]. split; [by apply later_refl|]. split; simpl; [done|done| |constructor]. intros w e. rewrite Forall_nil. tauto. }
  simpl in Hf. apply andb_true_iff in Hf as [Hf Hfs]. apply yields_bind. intros te st1 E1.
  destruct (elaborate_yields _ _ _ _ _ Hf Hok He _ _ E1) as (L1 & _ & Hw). destruct (negb _); [by intros ? ?|].
  apply yields_bind. intros acc' st2 [Hop ->]%z3_call_Ok. pose proof (within_over _ _ _ Ho Hw) as Hte.
  apply yields_bind. intros [ts r] st2 E2. apply IH in E2 as (L2 & [Hts Hr Hm Hat]); [|done|by eapply later_ok|by eapply env_later|done|].
  2:{ eapply over_op; [exact Hop|by repeat constructor]. }
  cbn [fst snd] in *. intros r' st' [= <- <-]. split; [by eapply later_trans|]. split; cbn [fst snd]; [by constructor|done| |].
  - intros w e'. rewrite Hm, (holds_and _ _ _ _ _ Hop), Forall_cons. tauto.
  - constructor.
    + intros q Hq. unfold direct_predicate in Hq. destruct (bool_decide_reflect (kind e = ECall)) as [Hk|]; [|done].
      destruct (call_predicate _ _ _ _ _ _ _ _ Hk Hf Hok He Hq E1) as (l & -> & _). by exists l.
    + eapply Forall2_impl; [exact Hat|]. intros t x. unfold atom_form. by rewrite (g_predicates _ _ (later_grows _ _ L1)).
Qed.

(** ** The statement *)

Lemma runs_lookup env es st tes st' (j : nat) e :
  runs env es st tes st' -> es !! j = Some e ->
  exists te s s', tes !! j = Some te /\ elaborate_expression term_to_string term_ast_id env e s = (Ok te, s').
Proof.
  revert st tes j. induction es as [|x es IH]; intros st [|te tes] [|j] R He; try done; destruct R as (s1 & E1 & R).
  - injection He as ->. by exists te, st, s1.
  - exact (IH _ _ _ R He).
Qed.

Lemma name_elaborates env e st te st' found :
  kind e = EName -> env !! name e = Some found -> elaborate_expression term_to_string term_ast_id env e st = (Ok te, st') -> te = found.
Proof.
  destruct e as [k sp n b i op es id]. simpl. intros -> Hn E%elaborate_name_Ok. unfold value_of_name in E. simpl in E.
  rewrite Hn in E. by injection E.
Qed.

(** The target's indices are the leading parameters. *)
Lemma target_indices env target st tes st' indices :
  runs env (elements target) st tes st' -> length indices = length (elements target) ->
  (forall j x, indices !! j = Some x -> exists e te, elements target !! j = Some e /\ kind e = EName /\
    env !! name e = Some te /\ te_expression te = x) ->
  te_expression <$> tes = indices.
Proof.
  intros R Hl Hx. assert (Ht : length tes = length (elements target)).
  { clear -R. revert st tes R. induction (elements target) as [|x es IH]; intros st [|te tes] R; try done.
    destruct R as (s & _ & R). simpl. f_equal. by eapply IH. }
  apply list_eq_same_length with (length indices); [done|by rewrite length_fmap, Ht|]. intros j x y Hj Ex Ey.
  destruct (Hx j y Ey) as (e & te & He & Hk & Hn & <-). destruct (runs_lookup _ _ _ _ _ _ _ R He) as (te' & s & s' & Hte & E).
  rewrite list_lookup_fmap, Hte in Ex. injection Ex as <-. f_equal. by eapply name_elaborates.
Qed.

Definition predicate_check_form (d : CheckDecl) : Prop :=
  conditions_form d /\ forall target, check_predicate_induction d = Some target -> kind target = ECall /\ source_form target = true.

Lemma direct_name predicates (Hwf : forall n p, predicates !! n = Some p -> pi_name p = n) e q :
  direct_predicate predicates e = Some q -> predicates !! pi_name q = Some q.
Proof. unfold direct_predicate. case_bool_decide; [|done]. intros Hq. by rewrite (Hwf _ _ Hq). Qed.

Lemma parameters_start d target p st : parameters_built d target p st 0 (mkInductionParameters ∅ [] []).
Proof. split; simpl; try done; by intros n te ?%lookup_empty_Some. Qed.

(** The predicate guarantee, where there is one. *)
Lemma goal_atom st st1 cs es acc ts r e q t :
  conditions_built st1 cs es acc ts r -> length es = 1 -> e ∈ es -> predicates_ st = predicates_ st1 ->
  (item ← direct_predicate (predicates_ st) e; x ← last ts; Some (item, x)) = Some (q, t) ->
  (forall n p, predicates_ st !! n = Some p -> pi_name p = n) -> (forall w e, holds w e acc) ->
  atom_of st t (Some q) /\ over cs t /\ forall w e, holds w e t -> holds w e r.
Proof.
  intros [Ho _ Hm Hat] Hlen He G Hqt Hnames Hacc. destruct es as [|x [|]]; try done. apply list_elem_of_singleton in He as ->.
  apply Forall2_cons_inv_r in Hat as (t' & ts' & Hat & ->%Forall2_nil_inv_r & ->). simpl in Hqt.
  destruct (direct_predicate (predicates_ st) x) as [item|] eqn:Ed; [|done]. simpl in Hqt. injection Hqt as -> ->.
  apply Forall_cons in Ho as [Ho _]. split_and!; [split; [by eapply direct_name|apply Hat; by rewrite <- G]|done|].
  intros w e Hh. apply Hm. split; [done|by constructor].
Qed.

(** The target's term is the predicate at the leading parameters. *)
Lemma target_atom d target p st st1 ps i te st' :
  kind target = ECall -> source_form target = true -> runtime_ok st -> env_typed st (ip_environment ps) ->
  predicates_ st !! name target = Some p -> parameters_built d target p st1 i ps -> length (pi_index_types p) <= i ->
  length (elements target) = length (pi_index_types p) ->
  elaborate_expression term_to_string term_ast_id (ip_environment ps) target st = (Ok te, st') ->
  te_expression te = App (pi_relation p) (ip_indices ps).
Proof.
  intros Hk Hf Hok Ht Hp Hb Hi Hl E. destruct (call_predicate _ _ _ _ _ _ _ _ Hk Hf Hok Ht Hp E) as (l & -> & _ & Ha & _).
  destruct Ha as (tes & s1 & R & -> & _). f_equal. eapply target_indices; [exact R| |apply (pb_target _ _ _ _ _ _ Hb)].
  rewrite (pb_indices _ _ _ _ _ _ Hb), Hl. lia.
Qed.

(** The induction the statement describes is well formed. *)
Lemma statement_yields d id target st :
  conditions_form d -> kind target = ECall -> source_form target = true -> runtime_ok st -> predicates_wf st ->
  yields (induction_statement term_to_string term_ast_id d id target) st (fun n st' =>
    later st st' /\ induction_ok st n /\ pn_declaration n = d).
Proof.
  intros [Hfa Hfe] Hk Hft Hok Hwf. unfold induction_statement. apply yields_bind. intros predicates st0 [= <- <-].
  destruct (predicates_ st !! name target) as [p|] eqn:Ep; [|by intros ? ?].
  destruct (check_assumes d) as [|assumed auxiliary] eqn:Ea; [by intros ? ?|]. destruct (_ || _); [by intros ? ?|].
  destruct (_ || _) eqn:Earity; [by intros ? ?|]. apply orb_false_iff in Earity as [Hps%Nat.ltb_ge Hes].
  apply negb_false_iff, Nat.eqb_eq in Hes. simpl in Hfa. apply andb_true_iff in Hfa as [Hfas Hfaux].
  assert (Hnames : forall n q, predicates_ st !! n = Some q -> pi_name q = n) by (by intros n q [? _]%Hwf).
  apply yields_bind. intros ps st1 E1. apply parameters_loop_yields in E1 as [L1 Hb]; [|done|apply parameters_start].
  pose proof (later_ok _ _ L1) as Hok1. apply yields_bind. intros items st2 [-> ->]%auxiliary_Ok.
  apply yields_bind. intros goal st2 [-> Hgoal]%goal_Ok. apply yields_bind. intros [] st2 [= <-]. set (st2 := set_capture true _ _).
  assert (L12 : later st1 st2) by (by apply later_capture). pose proof (later_ok _ _ L12) as Hok2.
  assert (Ht2 : env_typed st2 (ip_environment ps)) by (eapply env_later; [exact L12|apply Hb]).
  apply yields_bind. intros te st3 E3. destruct (elaborate_yields _ _ _ _ _ Hft Hok2 Ht2 _ _ E3) as (L3 & _).
  pose proof (later_ok _ _ L3) as Hok3. pose proof (env_later _ _ _ L3 Ht2) as Ht3.
  apply yields_bind. intros ta st4 E4. destruct (elaborate_yields _ _ _ _ _ Hfas Hok3 Ht3 _ _ E4) as (L4 & _).
  pose proof (later_ok _ _ L4) as Hok4. pose proof (env_later _ _ _ L4 Ht3) as Ht4. destruct (negb _); [by intros ? ?|].
  assert (L04 : later st st4) by (eapply later_trans; [exact L1|]; eapply later_trans; [exact L12|]; by eapply later_trans).
  assert (Htrue : over (ip_variables ps) (bool_val true)) by (intros x Hx; by rewrite occurs_bool_val).
  apply yields_bind. intros [ats aux] st5 E5.
  apply (condition_loop_yields _ _ (ip_variables ps)) in E5 as (L5 & Hcb); [|done|done|done|apply Hb|done].
  apply yields_bind. intros [gts gs] st6 E6.
  apply (condition_loop_yields _ _ (ip_variables ps)) in E6 as (L6 & Hcg); [|done|by eapply later_ok|by eapply env_later|apply Hb|done].
  apply yields_bind. intros [] st7 [= <-]. intros n st' [= <- <-].
  assert (L06 : later st st6) by (eapply later_trans; [exact L04|]; by eapply later_trans).
  split; [eapply later_trans; [exact L06|]; apply later_capture; by eapply later_ok|]. split; [|done].
  pose proof (g_predicates _ _ (later_grows _ _ L04)) as G4. pose proof (g_predicates _ _ (later_grows _ _ L5)) as G5.
  split; cbn [pn_predicate pn_indices pn_context pn_declaration pn_auxiliary_terms pn_auxiliary pn_auxiliary_predicates pn_guarantees pn_goal pn_target_term variables].
  - by rewrite (Hnames _ _ Ep).
  - intros i x. apply (pb_constants _ _ _ _ _ _ Hb).
  - apply Hcb.
  - intros w e. rewrite (cb_meaning _ _ _ _ _ _ Hcb). pose proof (holds_true w e). tauto.
  - rewrite Ea. intros [= Hnil%nil_length_inv]. pose proof (cb_atoms _ _ _ _ _ _ Hcb) as Hat. rewrite Hnil in Hat. by inversion Hat.
  - apply Forall2_fmap_r. eapply Forall2_impl; [apply Hcb|]. intros t e Hat. unfold compose, atom_of.
    destruct (direct_predicate (predicates_ st) e) as [q|] eqn:Eq; [|done]. split; [by eapply direct_name|]. apply Hat. by rewrite <- G4.
  - apply Hcg.
  - intros q t Hqt. destruct Hgoal as [->|(Hlen & e & He & <-)]; [discriminate Hqt|].
    eapply goal_atom; [exact Hcg|done|done| |exact Hqt|done|intros; apply holds_true].
    etrans; [exact G4|exact G5].
  - apply (target_atom d target p st2 st1 ps (length (check_parameters d)) te st3 Hk Hft Hok2 Ht2); [|exact Hb|done|done|exact E3]. rewrite <- (g_predicates _ _ (later_grows _ _ L12)).
    by rewrite <- (g_predicates _ _ (later_grows _ _ L1)).
Qed.

(** ** The command *)

Lemma induction_ok_later st st' n : later st st' -> induction_ok st n -> induction_ok st' n.
Proof.
  intros L [Hp ? ? ? ? Hi ? Hg ?]. pose proof (g_predicates _ _ (later_grows _ _ L)) as G. split; try done; unfold atom_of in *; by rewrite <- G.
Qed.

Lemma holds_in_same st st' t : predicates_ st' = predicates_ st -> holds_in st t -> holds_in st' t.
Proof. intros Ep Hh w. unfold least. rewrite Ep. apply Hh. Qed.

(** Fewer worlds once more predicates are declared. *)
Lemma holds_in_mono st st' t : predicates_ st ⊆ predicates_ st' -> holds_in st t -> holds_in st' t.
Proof. intros Hs Hh w Hw. apply Hh. intros n p Hp. by eapply Hw, lookup_weaken. Qed.

Lemma proofs_hold_mono st st' :
  predicates_ st ⊆ predicates_ st' -> admitted_proofs_ st' = admitted_proofs_ st -> proofs_hold st -> proofs_hold st'.
Proof. intros Hs Ep. unfold proofs_hold. rewrite Ep. intros Hp. eapply Forall_impl; [exact Hp|]. intros p. by apply holds_in_mono. Qed.

Lemma later_proofs st st' : later st st' -> proofs_hold st -> proofs_hold st'.
Proof.
  intros L. pose proof (later_grows _ _ L) as G. apply proofs_hold_mono; [by rewrite (g_predicates _ _ G)|symmetry; apply (g_proofs _ _ G)].
Qed.

Lemma proofs_valid_hold st : proofs_valid st -> proofs_hold st.
Proof. intros Hv. eapply Forall_impl; [exact Hv|]. intros p Hp w _. apply Hp. Qed.

(** Without predicates every world is one of the document. *)
Lemma proofs_hold_valid st : predicates_ st = ∅ -> proofs_hold st -> proofs_valid st.
Proof.
  intros Ep Hv. eapply Forall_impl; [exact Hv|]. intros p Hp w. apply Hp. unfold least. rewrite Ep. apply map_Forall_empty.
Qed.

Lemma rained_later st st' : runtime_ok st -> rained st st' -> later st st'.
Proof. intros Hok [r ->]. split; [by apply unread_keeps|by split]. Qed.

(** The statement closed over its variables. *)
Lemma closure_holds st n qid theorem t :
  induction_ok st n -> holds_in st theorem -> mk_forall_const qid (variables n) theorem = Some t -> holds_in st t.
Proof.
  intros Hn Hh Ht w Hw e He. eapply holds_forall; [exact Ht|by eapply variables_symbolic|by eapply variables_nodup|].
  intros vs Hvs. apply Hh; [done|]. by apply env_ok_assign.
Qed.

Definition induction_state (st st' : RuntimeState) (names : list string) : Prop :=
  runtime_ok st' /\ proofs_hold st' /\ views_form st' /\ predicates_ st' = predicates_ st /\
  proof_names st' = proof_names st ++ names.

Lemma later_state st st' : later st st' -> proofs_hold st -> views_form st -> induction_state st st' [].
Proof.
  intros L Hp Hv. pose proof (later_grows _ _ L) as G. split_and!; [by eapply later_ok|by eapply later_proofs|by apply (g_views _ _ G)|
    symmetry; apply (g_predicates _ _ G)|]. unfold proof_names. by rewrite <- (g_proofs _ _ G), app_nil_r.
Qed.

Lemma state_later a b c names : later a b -> induction_state b c names -> induction_state a c names.
Proof.
  intros L (Hok & Hp & Hv & Ep & En). pose proof (later_grows _ _ L) as G. split_and!; [done..| |].
  - by rewrite Ep, <- (g_predicates _ _ G).
  - rewrite En. unfold proof_names. by rewrite <- (g_proofs _ _ G).
Qed.

Lemma later_after a b c names : induction_state a b names -> later b c -> induction_state a c names.
Proof.
  intros (Hok & Hp & Hv & Ep & En) L. destruct (later_state _ _ L Hp Hv) as (? & ? & ? & Ep' & En'). split_and!; [done..| |].
  - by rewrite Ep'.
  - by rewrite En', app_nil_r.
Qed.

Lemma induction_yields_admitted n theorem st :
  runtime_ok st -> proofs_hold st -> views_form st -> induction_ok st n -> holds_in st theorem ->
  yields (admit_induction term_to_string term_ast_id n theorem) st (fun _ st' =>
    induction_state st st' [check_name (pn_declaration n)]).
Proof.
  intros Hok Hp Hv Hn Hh. unfold admit_induction. apply yields_bind. intros t st1 E1.
  assert (st1 = st /\ holds_in st t) as [-> Ht].
  { case_bool_decide; [by injection E1 as -> ->|]. apply z3_call_Ok in E1 as [E1 ->]. split; [done|]. by eapply closure_holds. }
  apply yields_bind. intros [] st2 [= <-]. set (st2 := add_proof _ _). intros [] st' E.
  eapply later_after; [|eapply rain_later; [|exact E]; by apply add_proof_ok].
  split_and!; [by apply add_proof_ok| |done|done|]; unfold proofs_hold, proof_names, st2; simpl; [|by rewrite fmap_app].
  apply Forall_app. split; [exact Hp|by constructor].
Qed.

(** What an induction's result says: the constructor that failed, or that the
    guarantees follow from the assumptions. *)
Definition induction_result (d : CheckDecl) (id : nat) (target : Expr) (st : RuntimeState) (r : nat * string) (st' : RuntimeState) : Prop :=
  exists n st1 failed, induction_statement term_to_string term_ast_id d id target st = (Ok n, st1) /\
    r = (if check_reusable d && bool_decide (failed <> None) then 1 else 0, induction_text n failed) /\
    induction_state st st' (if bool_decide (failed = None) then admits d else []) /\
    (failed = None -> forall w e, least st w -> env_ok e ->
      member w (pn_predicate n) (e <$> pn_indices n) -> Forall (holds w e) (pn_auxiliary_terms n) ->
      holds w e (pn_guarantees n)).

Lemma theorem_members st n antecedent theorem w e :
  induction_ok st n -> predicates_wf st ->
  z3_op ZAnd [pn_target_term n; pn_auxiliary n] = Some antecedent -> z3_op ZImplies [antecedent; pn_guarantees n] = Some theorem ->
  holds w e theorem -> member w (pn_predicate n) (e <$> pn_indices n) -> Forall (holds w e) (pn_auxiliary_terms n) ->
  holds w e (pn_guarantees n).
Proof.
  intros Hn Hwf Hand Himp Hh Hm Ha. apply (holds_implication _ _ _ _ _ Himp) in Hh; [done|]. apply (holds_and _ _ _ _ _ Hand).
  split; [|by apply (io_auxiliary _ _ Hn)]. rewrite (io_target _ _ Hn). destruct (declared_wf st Hwf _ (io_predicate _ _ Hn)) as (Hi & _).
  apply holds_atom; [done|]. by rewrite eval_fmap_symbolic by (by eapply indices_symbolic).
Qed.

Lemma execute_induction_yields d id target st :
  conditions_form d -> kind target = ECall -> source_form target = true -> runtime_ok st -> predicates_wf st ->
  proofs_hold st -> views_form st ->
  yields (execute_predicate_induction term_to_string term_ast_id d id target) st (induction_result d id target st).
Proof.
  intros Hf Hk Hft Hok Hwf Hp Hv. unfold execute_predicate_induction. apply yields_bind. intros n st1 E1.
  apply statement_yields in E1 as Hst; [|done..]. destruct Hst as (L1 & Hn & Ed). pose proof (later_ok _ _ L1) as Hok1.
  pose proof (induction_ok_later _ _ _ L1 Hn) as Hn1. pose proof (later_wf _ _ L1 Hwf) as Hwf1. pose proof (later_proofs _ _ L1 Hp) as Hp1.
  apply yields_bind. intros [] st2 E2. pose proof (rains_at _ _ _ _ (rains_rain _) E2) as R2.
  apply yields_z3. intros antecedent Hand. apply yields_z3. intros theorem Himp.
  apply yields_bind. intros [] st3 E3. apply yields_bind. intros failed st4 E4.
  assert (E : (check_layers term_to_string term_ast_id n ;;
     branches_loop term_to_string term_ast_id n (pi_constructors (pn_predicate n)) 0) st2 = (Ok failed, st4)).
  { unfold mbind, RtM_bind. by rewrite E3. }
  apply (branches_prove _ _ st1 n Hn1 Hwf1 antecedent theorem) in E as [R4 Hverified]; [|done..].
  pose proof (rained_later _ _ Hok1 R4) as L4. pose proof (later_ok _ _ L4) as Hok4. pose proof (later_grows _ _ L4) as G4.
  pose proof (g_views _ _ (later_grows _ _ L1) Hv) as Hv1.
  apply yields_bind. intros [] st5 E5.
  assert (S5 : induction_state st4 st5 (if bool_decide (failed = None) then admits d else [])).
  { unfold admits. case_bool_decide as Hfail; simpl in E5; [|injection E5 as <-; apply later_state; [by apply later_refl|by eapply later_proofs|by apply G4]].
    destruct (check_reusable d); [|injection E5 as <-; apply later_state; [by apply later_refl|by eapply later_proofs|by apply G4]].
    rewrite <- Ed. eapply induction_yields_admitted; [done|by eapply later_proofs|by apply G4|by eapply induction_ok_later| |exact E5].
    apply (holds_in_same st1); [symmetry; apply (g_predicates _ _ G4)|by apply Hverified]. }
  apply yields_bind. intros [] st6 E6. intros r st' [= <- <-]. exists n, st1, failed. split_and!; [done..| |].
  - apply (state_later st st1); [done|]. apply (state_later st1 st4); [done|]. eapply later_after; [exact S5|].
    eapply rain_later; [|exact E6]. apply S5.
  - intros Hfail w e Hw He. apply (theorem_members st n antecedent theorem w e Hn Hwf Hand Himp). apply Hverified; [done| |done].
    unfold least. by rewrite <- (g_predicates _ _ (later_grows _ _ L1)).
Qed.

(** ** Queries of the fixedpoint object *)

Context {HF : Z3Fixedpoint}.

Lemma spacer_later scope query st result st' :
  runtime_ok st -> spacer_query term_to_string term_ast_id scope query st = (Ok result, st') -> later st st'.
Proof.
  intros Hok. unfold spacer_query. destruct (rainfall_ st) as [r|]; [|intros [_ ->]%z3_call_Ok; by apply later_refl].
  destruct (observe_spacer _ _ _ _) as [[o r']|e|]; [|done..]. intros (x & st1 & [_ ->]%z3_call_Ok & E)%bind_Ok.
  assert (st' = set_rainfall (Some r') (set_fixedpoint (share_lemmas (fixedpoint_ st)) st)) as ->.
  { destruct (rethrow_if_failed o); by injection E. }
  eapply later_trans; [by apply (later_fixedpoint (share_lemmas (fixedpoint_ st)))|].
  apply rained_later; [by eapply later_ok, later_fixedpoint|by eexists].
Qed.

Lemma horn_atom_info e direct what st u st' :
  horn_atom e direct what st = (Ok u, st') ->
  st' = st /\ kind e = ECall /\ exists p, predicates_ st !! name e = Some p /\ pi_horn_complete p = true.
Proof.
  intros (predicates & st1 & [= <- <-] & E)%bind_Ok. destruct (bool_decide_reflect (kind e = ECall)) as [Hk|]; [|done].
  destruct (predicates_ st !! name e) as [p|]; [|done]. destruct (pi_horn_complete p) eqn:Hh; [|done]. injection E as _ <-.
  split_and!; [done..|]. by exists p.
Qed.

(** Commands that leave a later state. *)
Definition laters {A} (m : RtM A) : Prop := forall st, runtime_ok st -> yields m st (fun _ st' => later st st').

Lemma laters_bind {A B} (m : RtM A) (k : A -> RtM B) : laters m -> (forall a, laters (k a)) -> laters (m ≫= k).
Proof.
  intros Hm Hk st Hok. apply yields_bind. intros a st1 L1%Hm b st' L2%Hk; [by eapply later_trans|by eapply later_ok|done].
Qed.
Lemma laters_ret {A} (a : A) : laters (mret a).
Proof. intros st Hok b st' [= <- <-]. by apply later_refl. Qed.
Lemma laters_reject {A} sp message : laters (reject (A := A) sp message).
Proof. by intros st Hok. Qed.
Lemma laters_rain {A} (m : RecM A) : laters (rain m).
Proof. intros st Hok u st'. by apply rain_later. Qed.
Lemma laters_z3 {A} call (o : option A) : laters (z3_call call o).
Proof. intros st Hok a st' [_ ->]%z3_call_Ok. by apply later_refl. Qed.
Lemma laters_gets {A} (f : RuntimeState -> A) : laters (gets f).
Proof. intros st Hok a st' [= _ <-]. by apply later_refl. Qed.
Lemma laters_capture c w : laters (modify (set_capture c w)).
Proof. intros st Hok [] st' [= <-]. by apply later_capture. Qed.
Lemma laters_fixedpoint f : laters (modify (set_fixedpoint f)).
Proof. intros st Hok [] st' [= <-]. by apply later_fixedpoint. Qed.
Lemma laters_spacer scope query : laters (spacer_query term_to_string term_ast_id scope query).
Proof. intros st Hok a st'. by apply spacer_later. Qed.
Lemma laters_horn e direct what : laters (horn_atom e direct what).
Proof. intros st Hok a st' [-> _]%horn_atom_info. by apply later_refl. Qed.
Lemma laters_closed e : source_form e = true -> laters (elaborate_expression term_to_string term_ast_id ∅ e).
Proof. intros Hf st Hok te st' E. apply elaborate_yields in E as [? _]; [done|done|done|by intros n t ?%lookup_empty_Some]. Qed.
Hint Resolve laters_ret laters_reject laters_rain laters_z3 laters_gets laters_capture laters_fixedpoint laters_spacer laters_horn
  laters_closed : rains.
Ltac laters := repeat first [ solve [auto with rains] | apply laters_bind; [|intros ?] | case_match ].

Lemma laters_membership d e : source_form e = true -> laters (execute_membership term_to_string term_ast_id d e).
Proof. intros Hf. unfold execute_membership. laters. Qed.

Lemma reject_predicate_Ok predicates e st u st' : reject_predicate_in_guarantee predicates e st = (Ok u, st') -> st' = st.
Proof.
  revert st u st'. induction e as [k sp n b i op es id IH] using Expr_nested_ind. intros st u st'. simpl.
  intros (v & st1 & E1 & E)%bind_Ok. assert (st1 = st) as -> by (destruct (_ && _); [done|by injection E1]). clear E1.
  revert st E. induction IH as [|x es Hx _ IHes]; intros st E; [by injection E|].
  apply bind_Ok in E as (v' & st1 & ->%Hx & E). by apply IHes.
Qed.
Lemma guarantees_Ok predicates es st us st' : traverse_ (reject_predicate_in_guarantee predicates) es st = (Ok us, st') -> st' = st.
Proof.
  revert st us st'. induction es as [|e es IH]; intros st us st'; simpl; [by intros [= _ <-]|].
  intros (v & st1 & ->%reject_predicate_Ok & E)%bind_Ok. by apply bind_Ok in E as (vs & st2 & ->%IH & [= _ <-]).
Qed.

Lemma invariant_parameters_yields owner i ps (env : Environment) acc st :
  runtime_ok st -> env_typed st env -> env_over acc env -> parameters_wf ("Fine.predicate-check." +:+ owner) acc -> i = length acc ->
  yields (invariant_parameters_loop owner i ps env acc) st (fun r st' =>
    later st st' /\ env_typed st' r.1 /\ env_over r.2 r.1 /\ parameters_wf ("Fine.predicate-check." +:+ owner) r.2).
Proof.
  revert i env acc st. induction ps as [|p ps IH]; intros i env acc st Hok He Ho Hp Hi; cbn [invariant_parameters_loop].
  { intros r st' [= <- <-]. split; [by apply later_refl|done]. }
  destruct (env !! _); [by intros ? ?|]. apply yields_bind. intros ty st1 [L1 _]%resolve_later; [|done].
  apply yields_bind. intros rt st2 [Hrt ->]%the_type_Ok. destruct (bool_decide _); [by intros ? ?|]. intros r st' E.
  set (c := constant _ _) in E.
  apply IH in E as (L2 & ? & ? & ?); [by split; [eapply later_trans|]|by eapply later_ok| | | |rewrite length_app; simpl; lia].
  - apply env_insert; [by eapply env_later|]. exists rt. split; [done|apply sort_constant].
  - apply env_over_insert; [apply over_constant; set_solver|]. eapply env_over_mono; [|exact Ho]. set_solver.
  - intros j x [Hj|[Hj Hx]]%lookup_app_Some; [by apply Hp|]. apply list_lookup_singleton_Some in Hx as [Ej <-].
    unfold parameter_constant, c. rewrite sort_constant. replace j with i by lia. by rewrite append_assoc.
Qed.

Lemma conjoin_later message env cs es acc st :
  forallb source_form es = true -> runtime_ok st -> env_typed st env -> env_over cs env -> over cs acc ->
  yields (conjoin term_to_string term_ast_id message env es acc) st (fun t st' => later st st' /\ over cs t).
Proof.
  revert acc st. induction es as [|e es IH]; intros acc st Hf Hok He Ho Ha; cbn [conjoin].
  { intros t st' [= <- <-]. split; [by apply later_refl|done]. }
  simpl in Hf. apply andb_true_iff in Hf as [Hf Hfs]. apply yields_bind. intros te st1 E1.
  destruct (elaborate_yields _ _ _ _ _ Hf Hok He _ _ E1) as (L1 & _ & Hw). destruct (negb _); [by intros ? ?|].
  apply yields_bind. intros t st2 [Ht ->]%z3_call_Ok. intros r st' E.
  apply IH in E as [L2 ?]; [by split; [eapply later_trans|]|done|by eapply later_ok|by eapply env_later|done|].
  apply (over_op _ _ _ _ Ht). constructor; [done|]. constructor; [by eapply within_over|constructor].
Qed.

Lemma framed_invariant_parameters owner i ps env acc : framed (invariant_parameters_loop owner i ps env acc).
Proof.
  revert i env acc. induction ps; intros i env acc; simpl; [apply framed_ret|]. case_match; [apply framed_throw|].
  apply framed_bind; [apply framed_resolve_type|intros ?]. apply framed_bind; [apply framed_the_type|intros ?].
  case_match; [apply framed_throw|done].
Qed.
Lemma framed_conjoined message env es acc : framed (conjoin term_to_string term_ast_id message env es acc).
Proof.
  revert acc. induction es; intros acc; simpl; [apply framed_ret|]. apply framed_bind; [apply framed_elaborate|intros ?].
  case_match; [apply framed_throw|]. apply framed_bind; [apply framed_z3|done].
Qed.

(** The statement of an invariant: an atom and guarantees over the parameters. *)
Lemma invariant_statement_yields d e st :
  runtime_ok st -> source_form e = true -> forallb source_form (check_ensures d) = true ->
  yields (invariant_statement term_to_string term_ast_id d e) st (fun r st' => later st st' /\
    fixedpoint_ st' = fixedpoint_ st /\ parameters_wf ("Fine.predicate-check." +:+ check_name d) r.1.1 /\
    over r.1.1 r.1.2 /\ over r.1.1 r.2 /\ exists p l, predicates_ st !! name e = Some p /\ pi_horn_complete p = true /\
      r.1.2 = App (pi_relation p) l /\ get_sort <$> l = decl_domain (pi_relation p)).
Proof.
  intros Hok Hf Hfe. unfold invariant_statement. apply yields_bind. intros [] st1 (-> & Hk & p & Hp & Hh)%horn_atom_info.
  apply yields_bind. intros predicates st1 [= <- <-]. apply yields_bind. intros us st1 ->%guarantees_Ok.
  apply yields_bind. intros [env ps] st1 E1. pose proof (framed_fixedpoint _ _ _ _ (framed_invariant_parameters _ _ _ _ _) E1) as F1.
  apply invariant_parameters_yields in E1 as (L1 & He & Ho & Hps);
    [|done|by intros n te ?%lookup_empty_Some|by intros n te ?%lookup_empty_Some|by intros ? ?|done].
  cbn [fst snd] in *. apply yields_bind. intros [] st2 [= <-]. set (st2 := set_capture true _ _).
  assert (L2 : later st1 st2) by (by eapply later_capture, later_ok). pose proof (env_later _ _ _ L2 He) as He2.
  pose proof (later_ok _ _ L2) as Hok2. apply yields_bind. intros te st3 E3.
  assert (Hp2 : predicates_ st2 !! name e = Some p) by (by rewrite <- (g_predicates _ _ (later_grows _ _ (later_trans _ _ _ L1 L2)))).
  destruct (call_predicate _ _ _ _ _ _ _ _ Hk Hf Hok2 He2 Hp2 E3) as (l & Ht & _ & _ & Hsort).
  pose proof (framed_fixedpoint _ _ _ _ (framed_elaborate _ _ _ _) E3) as F3.
  apply elaborate_yields in E3 as (L3 & _ & Hw); [|done..]. apply yields_bind. intros g st4 E4.
  pose proof (framed_fixedpoint _ _ _ _ (framed_conjoined _ _ _ _) E4) as F4.
  apply (conjoin_later _ _ ps) in E4 as [L4 Hg]; [|done|by eapply later_ok|exact (env_later _ _ _ L3 He2)|done|
    by intros x Hx; rewrite occurs_bool_val].
  apply yields_bind. intros [] st5 [= <-]. intros r st' [= <- <-]. split_and!; [| |done|by eapply within_over|done|by exists p, l].
  - do 4 (eapply later_trans; [eassumption|]). by eapply later_capture, later_ok.
  - simpl. rewrite F4, F3. exact F1.
Qed.

Lemma laters_invariant d id :
  conditions_form d -> laters (execute_predicate_invariant term_to_string term_ast_id d id).
Proof.
  intros [Hfa Hfe]. unfold execute_predicate_invariant. destruct (check_assumes d) as [|e [|]]; [laters| |laters].
  simpl in Hfa. apply andb_true_iff in Hfa as [Hfa _]. apply laters_bind; [|intros [[ps m] g]; laters].
  intros st Hok r st' [? _]%invariant_statement_yields; done.
Qed.

(** ** Checks in a document with predicates *)

Lemma reserved_state n st : runtime_ok st -> proofs_hold st -> views_form st -> predicates_wf st ->
  let st' := add_value_name n st in runtime_ok st' /\ proofs_hold st' /\ views_form st' /\ predicates_wf st'.
Proof. intros Hok Hp Hv Hwf st'. pose proof (add_value_name_keeps n st Hok) as [Hok' G]. done. Qed.

Lemma predicate_check_yields d id st :
  runtime_ok st -> proofs_hold st -> views_form st -> predicates_wf st -> predicate_check_form d ->
  yields (execute_predicate_check term_to_string term_ast_id d id) st (fun r st' =>
    induction_state st st' (if r.1 =? 0 then admits d else []) /\
    forall target, check_predicate_induction d = Some target -> induction_result d id target (add_value_name (check_name d) st) r st').
Proof.
  intros Hok Hp Hv Hwf [Hf Hft]. unfold execute_predicate_check. apply yields_bind. intros [] st1 ->%reserve_value_name_Ok.
  destruct (reserved_state (check_name d) st Hok Hp Hv Hwf) as (Hok1 & Hp1 & Hv1 & Hwf1). set (st1 := add_value_name _ _) in *.
  assert (Hstart : forall st' names, induction_state st1 st' names -> induction_state st st' names) by done.
  destruct (bool_decide _); [apply yields_bind; intros ? ? _; by intros ? ?|].
  destruct (check_predicate_induction d) as [target|].
  { destruct (Hft target eq_refl) as [Hk Hs]. intros r st' E. apply execute_induction_yields in E as Hr; [|done..].
    split; [|by intros t [= <-]]. apply Hstart. destruct Hr as (n & s & failed & _ & -> & Hst & _). simpl.
    unfold admits in *. destruct (check_reusable d), failed; exact Hst. }
  destruct (check_reusable d) eqn:Er; [by intros ? ?|].
  assert (Hq : forall m : RtM (nat * string), laters m -> yields m st1 (fun r st' =>
    induction_state st st' (if r.1 =? 0 then admits d else []) /\
    forall target, None = Some target -> induction_result d id target st1 r st')).
  { intros m Hm r st' L%Hm; [|done]. split; [|done]. unfold admits. rewrite Er. replace (if r.1 =? 0 then [] else []) with (@nil string) by (by destruct (_ =? _)).
    by apply Hstart, later_state. }
  apply Hq. destruct Hf as [Hfa Hfe]. case_match; [by apply laters_invariant|]. case_match; [laters|].
  destruct (check_ensures d) as [|e [|]]; [laters| |laters]. simpl in Hfe. apply andb_true_iff in Hfe as [Hfe _]. by apply laters_membership.
Qed.

(** C5. A verified predicate induction is a theorem of the least relations:
    when a check that inducts over a predicate returns, on a well-formed runtime
    whose admitted proofs hold, its answer is `verified` only if the guarantees
    hold at every member of the predicate's least relation that satisfies the
    further assumptions, whatever the context parameters; assumed atoms were
    inverted and the guaranteed atom constructed one layer, with every constrained
    field it relies on shown inhabited.  A reusable proof is admitted exactly then,
    closed over all its variables, and the admitted proofs keep holding. *)
Theorem predicate_induction_sound (d : CheckDecl) (id : nat) (target : Expr) (st st' : RuntimeState) (r : nat * string) :
  runtime_ok st -> proofs_hold st -> views_form st -> predicates_wf st -> predicate_check_form d ->
  check_predicate_induction d = Some target ->
  execute_predicate_check term_to_string term_ast_id d id st = (Ok r, st') ->
  induction_result d id target (add_value_name (check_name d) st) r st'.
Proof. intros Hok Hp Hv Hwf Hf Ht E. apply predicate_check_yields in E as [_ Hr]; [by apply Hr|done..]. Qed.
End Sound.
