(* ===== verification/Mentions.v ===== *)
(** * Elaboration without predicates

    An expression that calls no predicate elaborates to a term that applies
    no predicate's relation: operators, literals, constructors, tuples and
    recursive functions are not declared functions, and everything else comes
    from the environment. *)

From stdpp Require Import gmap.
From S2P Require Import Prelude Format Syntax Lexer Printer Parser ParserSpec Source Z3Ast Z3Solver Z3Build Z3Check Z3Fixedpoint Z3Horn Lift Recorder Observers Runtime Elaborate Declare Values Predicate PredicateCheck RuntimeSpec ElaborateSpec DeclareSpec EnumSpec FunctionSpec CheckSpec CheckSound PredicateSpec LayerSpec InductionSpec DeclarePredicateSpec PredicateSound.
From Stdlib Require Import NArith.

Section Mentions.
Context `{HD : Z3Data} {HA : Z3Api} {HX : Z3Exprs} {HB : Z3Build} {HBL : Z3BuildLaws} {HM : Z3Meaning} {HF : Z3Fixedpoint}
  {HFL : Z3FixedpointLaws}.
Context (term_to_string : Term -> string) (term_ast_id : Term -> N).
Context (relations : list Decl).
Hypothesis Hdeclared : Forall declared_function relations.
Abbreviation elaborate_expression := (elaborate_expression term_to_string term_ast_id).
Abbreviation completed_expression := (completed_expression term_to_string term_ast_id).

Definition unmentioned (t : Term) : Prop := mentions relations t = false.
Definition env_unmentioned (env : Environment) : Prop := map_Forall (fun _ te => unmentioned (te_expression te)) env.

Lemma unmentioned_app d l : d ∉ relations -> Forall unmentioned l -> unmentioned (App d l).
Proof.
  intros Hd Hl. unfold unmentioned. simpl. rewrite bool_decide_eq_false_2 by done. simpl. apply not_true_is_false.
  intros (x & Hx & Hm)%existsb_exists. rewrite Forall_forall in Hl. apply list_elem_of_In in Hx. by rewrite (Hl x Hx) in Hm.
Qed.
Lemma unmentioned_op o l t : z3_op o l = Some t -> Forall unmentioned l -> unmentioned t.
Proof.
  intros Ht Hl. apply not_true_is_false. intros Hm. apply (operator_mentions _ _ _ _ Hdeclared Ht), Exists_exists in Hm as (x & Hx & Hm).
  rewrite Forall_forall in Hl. by rewrite (Hl x Hx) in Hm.
Qed.
Lemma undeclared d : ~ declared_function d -> d ∉ relations.
Proof. intros Hd Hin. rewrite Forall_forall in Hdeclared. by apply Hd, Hdeclared. Qed.

(** The declarations of a well-formed runtime. *)
Lemma constructor_undeclared st dp info i item :
  runtime_ok st -> datatype_heap st !! dp = Some info -> di_cases info !! i = Some item -> dc_constructor item ∉ relations.
Proof.
  intros Hok Hd Hi. apply undeclared. destruct (ok_datatypes _ Hok _ _ Hd) as (rt & _ & _ & _ & _ & (_ & n & specs & Hmk) & _).
  eapply (datatype_declared n specs _ _ (case_decls item)); [exact Hmk|]. apply list_elem_of_fmap. exists item. split; [done|].
  by eapply list_elem_of_lookup_2.
Qed.
Lemma enum_undeclared st ep info i v :
  runtime_ok st -> enum_heap st !! ep = Some info -> ei_values info !! i = Some v -> unmentioned v.
Proof.
  intros Hok Hi Hv. destruct (ok_enums _ Hok _ _ Hi) as (rt & _ & _ & _ & _ & Ev & (_ & n & names & Hmk) & _). rewrite Ev, list_lookup_fmap in Hv.
  destruct (ei_constructors info !! i) as [d|] eqn:Ed; [|done]. injection Hv as <-. apply unmentioned_app; [|constructor].
  apply undeclared. eapply enumeration_declared; [exact Hmk|]. by eapply list_elem_of_lookup_2.
Qed.
Lemma tuple_undeclared st p a b ta tb c :
  runtime_ok st -> type_heap st !! p = Some (tuple_of a b ta tb c) -> c ∉ relations.
Proof.
  intros Hok Hp. pose proof (ok_types _ Hok _ _ Hp) as Hwf. inversion Hwf as [| | | |? ? ? ? ? ? _ _ _ _ [_ (n & fs & ->)] _|]; subst.
  apply undeclared, tuple_sort_declared.
Qed.

(** ** Elaboration *)

Lemma the_enum_Ok p st info st' : the_enum p st = (Ok info, st') -> enum_heap st !! p = Some info /\ st' = st.
Proof. by intros (o & st1 & [= <- <-] & [? ->]%deref_Ok)%bind_Ok. Qed.
Lemma the_datatype_Ok p st info st' : the_datatype p st = (Ok info, st') -> datatype_heap st !! p = Some info /\ st' = st.
Proof. by intros (o & st1 & [= <- <-] & [? ->]%deref_Ok)%bind_Ok. Qed.

Lemma elaborated_keeps e env st te st' :
  source_form e = true -> runtime_ok st -> env_typed st env -> elaborate_expression env e st = (Ok te, st') -> keeps st st' /\ has_type st' te.
Proof. intros Hf Hok He E. exact (safe_Ok _ _ _ _ _ (elaborate_safe term_to_string term_ast_id e env st Hf Hok He) E). Qed.

Lemma name_unmentioned source env st te st' :
  runtime_ok st -> env_unmentioned env -> elaborate_name term_to_string term_ast_id source env st = (Ok te, st') -> unmentioned (te_expression te).
Proof.
  intros Hok Henv. unfold elaborate_name. destruct (env !! name source) as [found|] eqn:E.
  { intros ->%completed_Ok. exact (Henv _ _ E). }
  intros (cases & st1 & [= <- <-] & E1)%bind_Ok. destruct (cases_ st !! name source) as [[p i]|] eqn:Ec.
  - apply bind_Ok in E1 as (info & st1 & [Hi ->]%the_enum_Ok & (v & st2 & [Hv ->]%deref_Ok & ->%completed_Ok)%bind_Ok). by eapply enum_undeclared.
  - apply bind_Ok in E1 as (cs & st1 & [= <- <-] & E1). destruct (constructors_ st !! name source) as [[p i]|] eqn:Ed; [|done].
    destruct (ok_constructors _ Hok _ _ _ Ed) as (info & item & Hd & Hi & _).
    apply bind_Ok in E1 as (info' & st1 & [Hd' ->]%the_datatype_Ok & (item' & st2 & [Hi' ->]%deref_Ok & E1)%bind_Ok).
    rewrite Hd in Hd'. injection Hd' as <-. rewrite Hi in Hi'. injection Hi' as <-.
    destruct (bool_decide_reflect (dc_field_types item <> [])) as [|Hnil]; [done|]. apply dec_stable in Hnil.
    pose proof (constructor_typed _ _ _ _ _ Hok Hd Hi) as Hty. rewrite Hnil in Hty.
    destruct (apply_typed st [] (di_type info) (dc_constructor item) []) as [Ha _]; [done|constructor|].
    apply bind_Ok in E1 as (t & st2 & [Ht ->]%z3_call_Ok & ->%completed_Ok). rewrite Ha in Ht. injection Ht as <-.
    apply unmentioned_app; [by eapply constructor_undeclared|constructor].
Qed.

(** What a call of no predicate applies. *)
Lemma callee_undeclared source st c st' :
  runtime_ok st -> predicates_ st !! name source = None -> find_callee source st = (Ok c, st') -> st' = st /\ callee_decl c ∉ relations.
Proof.
  intros Hok Hn. unfold find_callee. intros (cs & st1 & [= <- <-] & E)%bind_Ok.
  destruct (constructors_ st !! name source) as [[p i]|] eqn:Ed.
  - apply bind_Ok in E as (info & st1 & [Hd ->]%the_datatype_Ok & (item & st2 & [Hi ->]%deref_Ok & E)%bind_Ok). injection E as <- <-.
    split; [done|]. by eapply constructor_undeclared.
  - apply bind_Ok in E as (ps & st1 & [= <- <-] & E). rewrite Hn in E. apply bind_Ok in E as (fs & st1 & [= <- <-] & E).
    destruct (functions_ st !! name source) as [f|] eqn:Ef; [|done]. injection E as <- <-. split; [done|].
    destruct (ok_recfuns _ Hok _ _ Ef) as (m & dom & r & E). simpl. rewrite E. apply undeclared, recfun_declared.
Qed.

Definition elaborates_unmentioned (e : Expr) : Prop := forall env st te st',
  source_form e = true -> runtime_ok st -> env_typed st env -> env_unmentioned env -> contains_predicate (predicates_ st) e = false ->
  elaborate_expression env e st = (Ok te, st') -> unmentioned (te_expression te).

Lemma arguments_unmentioned env callee st es i ps ts st' :
  Forall elaborates_unmentioned es -> forallb source_form es = true -> runtime_ok st -> env_typed st env -> env_unmentioned env ->
  Forall (fun e => contains_predicate (predicates_ st) e = false) es ->
  (fix arguments (callee : Callee) (i : nat) (es : list Expr) (types : list TypePtr) : RtM (list Term) :=
      match es, types with
      | e :: es', p :: types' =>
          argument ← elaborate_expression env e;
          if negb (same (te_type argument) p)
          then t ← the_type p; reject (span e) (callee_mismatch callee i (rt_display t))
          else rest ← arguments callee (S i) es' types'; mret (te_expression argument :: rest)
      | _, _ => mret []
      end) callee i es ps st = (Ok ts, st') -> Forall unmentioned ts.
Proof.
  intros Hes. revert st i ps ts st'. induction Hes as [|e es He Hes IH]; intros st i ps ts st' Hf Hok Henv Hun Hno; destruct ps as [|p ps];
    try (by intros [= <- _]). simpl in Hf. apply andb_true_iff in Hf as [Hf Hfs]. apply Forall_cons in Hno as [Hno Hnos].
  intros (te & st1 & E1 & E)%bind_Ok. destruct (elaborated_keeps _ _ _ _ _ Hf Hok Henv E1) as [[Hok1 Hg1] _].
  destruct (negb _); [by apply bind_Ok in E as (? & ? & _ & ?)|]. apply bind_Ok in E as (rest & st2 & E2 & [= <- <-]).
  constructor; [exact (He _ _ _ _ Hf Hok Henv Hun Hno E1)|]. eapply IH; [done|exact Hok1|by eapply grows_env|done| |exact E2]. by rewrite <- (g_predicates _ _ Hg1).
Qed.

(** A call's term. *)
Lemma call_applies env callee st es ts st' :
  forallb source_form es = true -> runtime_ok st -> env_typed st env -> length es = length (callee_types callee) -> callee_typed st callee ->
  (fix arguments (callee : Callee) (i : nat) (es : list Expr) (types : list TypePtr) : RtM (list Term) :=
      match es, types with
      | e :: es', p :: types' =>
          argument ← elaborate_expression env e;
          if negb (same (te_type argument) p)
          then t ← the_type p; reject (span e) (callee_mismatch callee i (rt_display t))
          else rest ← arguments callee (S i) es' types'; mret (te_expression argument :: rest)
      | _, _ => mret []
      end) callee 0 es (callee_types callee) st = (Ok ts, st') -> mk_app (callee_decl callee) ts = Some (App (callee_decl callee) ts).
Proof.
  intros Hes Hok Henv El Hty Ea. assert (Hsc : Forall (elaborates term_to_string term_ast_id) es).
  { rewrite forallb_forall in Hes. apply Forall_forall. intros x Hx. by apply elaborate_scoped, Hes, list_elem_of_In. }
  assert (Hrts : exists rts, typed_as st (callee_types callee) rts). { destruct Hty as (rts & _ & Hr & _). by exists rts. }
  pose proof (safe_Ok _ _ _ _ _ (safe_arguments _ _ env callee st es 0 (callee_types callee) Hsc Hok Henv El Hrts) Ea) as ([_ Hg2] & Hts & _).
  by destruct (apply_typed st' (callee_types callee) (callee_result callee) (callee_decl callee) ts) as [Happ _]; [by eapply grows_decl_typed|..].
Qed.

Lemma elaborate_unmentioned e : elaborates_unmentioned e.
Proof.
  induction e as [k sp n b i op es id IH] using Expr_nested_ind. intros env st te st' Hsource Hok Henv Hun Hno. pose proof Hsource as Hf.
  simpl in Hf. apply andb_true_iff in Hf as [[Hcount Hint]%andb_true_iff Hes]. simpl in Hno. apply orb_false_iff in Hno as [Hcall Hno].
  assert (Hnos : Forall (fun e => contains_predicate (predicates_ st) e = false) es).
  { apply Forall_forall. intros x Hx. apply not_true_is_false. intros Hc. apply not_true_iff_false in Hno. destruct Hno.
    apply existsb_exists. exists x. split; [by apply list_elem_of_In|done]. }
  assert (Hsub : forall x st1 tx st2, x ∈ es -> keeps st st1 -> elaborate_expression env x st1 = (Ok tx, st2) ->
    unmentioned (te_expression tx) /\ keeps st st2 /\ grows st1 st2 /\ has_type st2 tx).
  { intros x st1 tx st2 Hx [Hok1 Hg1] E. rewrite Forall_forall in IH, Hnos. rewrite forallb_forall in Hes.
    assert (Hfx : source_form x = true) by (by apply Hes, list_elem_of_In). assert (He1 : env_typed st1 env) by (by eapply grows_env).
    destruct (elaborated_keeps _ _ _ _ _ Hfx Hok1 He1 E) as [K2 Ht]. split_and!; [|by eapply keeps_trans|apply K2|done].
    eapply (IH x Hx env st1); [done..| |exact E]. rewrite <- (g_predicates _ _ Hg1). by apply Hnos. }
  pose proof (keeps_refl _ Hok) as K0. destruct k; simpl in Hcount |- *.
  - by apply name_unmentioned.
  - intros ->%completed_Ok. by apply truth_mentions.
  - intros (t & st1 & [Ht ->]%z3_call_Ok & ->%completed_Ok)%bind_Ok. by eapply numeral_mentions.
  - destruct es as [|x [|y [|]]]; try done. intros (tx & st1 & Ex & (ty & st2 & Ey & E)%bind_Ok)%bind_Ok.
    destruct (Hsub x _ _ _ ltac:(set_solver) K0 Ex) as (Ux & K1 & _ & xt & Hxt & Hx).
    destruct (Hsub y _ _ _ ltac:(set_solver) K1 Ey) as (Uy & [Hok2 _] & G2 & yt & Hyt & Hy).
    apply bind_Ok in E as (p & st3 & Ep & (t & st4 & [Ht ->]%the_type_Ok & (c & st5 & [Hc ->]%deref_Ok & (e & st6 & [He ->]%z3_call_Ok & ->%completed_Ok)%bind_Ok)%bind_Ok)%bind_Ok).
    pose proof (safe_Ok _ _ _ _ _ (safe_tuple_type _ _ _ _ sp _ Hok2 (grows_type _ _ _ _ G2 Hxt) Hyt) Ep) as ([Hok3 _] & c' & Hp & Hdom & _).
    rewrite Ht in Hp. injection Hp as ->. injection Hc as <-. rewrite mk_app_typed in He by (simpl; by rewrite Hx, Hy, Hdom).
    injection He as <-. apply unmentioned_app; [by eapply tuple_undeclared|by repeat constructor].
  - intros (callee & st1 & Ec & E)%bind_Ok. destruct (negb _) eqn:El; [done|]. apply bind_Ok in E as (ts & st2 & Ea & (t & st3 & [Ht ->]%z3_call_Ok & ->%completed_Ok)%bind_Ok).
    assert (Hname : predicates_ st !! n = None).
    { apply eq_None_not_Some. intros Hp. simpl in Hcall. by rewrite bool_decide_eq_true_2 in Hcall. }
    pose proof (safe_Ok _ _ _ _ _ (safe_find_callee _ _ Hok) Ec) as [_ Hty]. apply callee_undeclared in Ec as [-> Hc]; [|done..].
    apply negb_false_iff, Nat.eqb_eq in El. rewrite (call_applies _ _ _ _ _ _ Hes Hok Henv El Hty Ea) in Ht. injection Ht as <-.
    apply unmentioned_app; [done|].
    by eapply (arguments_unmentioned env callee st es 0 (callee_types callee) ts st2).
  - destruct es as [|x [|y [|]]]; try done. intros (tx & st1 & Ex & (ty & st2 & Ey & E)%bind_Ok)%bind_Ok.
    destruct (Hsub x _ _ _ ltac:(set_solver) K0 Ex) as (Ux & K1 & _). destruct (Hsub y _ _ _ ltac:(set_solver) K1 Ey) as (Uy & _).
    unfold elaborate_binary in E. apply bind_Ok in E as (lt & st3 & _ & E). destruct (binary_type _ _ _ _); [done|].
    apply bind_Ok in E as (t & st4 & [Ht ->]%z3_call_Ok & ->%completed_Ok). eapply unmentioned_op; [exact Ht|]. by repeat constructor.
  - destruct es as [|x [|y [|z [|]]]]; try done. intros (tx & st1 & Ex & (ty & st2 & Ey & (tz & st3 & Ez & E)%bind_Ok)%bind_Ok)%bind_Ok.
    destruct (Hsub x _ _ _ ltac:(set_solver) K0 Ex) as (Ux & K1 & _). destruct (Hsub y _ _ _ ltac:(set_solver) K1 Ey) as (Uy & K2 & _).
    destruct (Hsub z _ _ _ ltac:(set_solver) K2 Ez) as (Uz & _). unfold elaborate_conditional in E. do 2 (destruct (negb _); [done|]).
    apply bind_Ok in E as (t & st4 & [Ht ->]%z3_call_Ok & ->%completed_Ok). eapply unmentioned_op; [exact Ht|]. by repeat constructor.
  - done.
Qed.

(** ** Calls of predicates *)

(** No predicate is called inside the arguments of a call. *)
Definition indices_direct (st : RuntimeState) (e : Expr) : Prop :=
  Forall (fun x => contains_predicate (predicates_ st) x = false) (elements e).

Lemma indices_unmentioned e env st te st' d l :
  kind e = ECall -> source_form e = true -> runtime_ok st -> env_typed st env -> env_unmentioned env -> indices_direct st e ->
  elaborate_expression env e st = (Ok te, st') -> te_expression te = App d l -> Forall unmentioned l.
Proof.
  destruct e as [k sp n b i op es id]. intros Hk. simpl in Hk. subst k. intros Hf Hok Henv Hun Hd. simpl in Hf, Hd |- *.
  rename Hf into Hes. intros (callee & st1 & Ec & E)%bind_Ok Ht.
  pose proof (safe_Ok _ _ _ _ _ (safe_find_callee _ _ Hok) Ec) as [-> Hty]. destruct (negb _) eqn:El; [done|]. apply negb_false_iff, Nat.eqb_eq in El.
  apply bind_Ok in E as (ts & st2 & Ea & (t & st3 & [Ha ->]%z3_call_Ok & ->%completed_Ok)%bind_Ok).
  rewrite (call_applies _ _ _ _ _ _ Hes Hok Henv El Hty Ea) in Ha. injection Ha as <-. simpl in Ht. injection Ht as <- <-.
  eapply (arguments_unmentioned env callee st es 0); [|done..|exact Ea]. apply Forall_forall. intros x _. apply elaborate_unmentioned.
Qed.

(** ** The statement of an invariant *)

(** The guard on guarantees. *)
Lemma guarantee_direct predicates e st u st' : reject_predicate_in_guarantee predicates e st = (Ok u, st') -> contains_predicate predicates e = false.
Proof.
  revert st u st'. induction e as [k sp n b i op es id IH] using Expr_nested_ind. intros st u st'. simpl.
  intros (v & st1 & E1 & E)%bind_Ok. apply orb_false_iff. split; [by destruct (_ && _)|]. clear E1.
  revert st1 E. induction IH as [|x es Hx _ IHes]; intros st1 E; [done|]. simpl.
  apply bind_Ok in E as (v' & st2 & ->%Hx & E). by eapply IHes.
Qed.
Lemma guarantees_direct predicates es st us st' :
  traverse_ (reject_predicate_in_guarantee predicates) es st = (Ok us, st') -> Forall (fun e => contains_predicate predicates e = false) es.
Proof.
  revert st us st'. induction es as [|e es IH]; intros st us st'; simpl; [constructor|].
  intros (v & st1 & E1%guarantee_direct & E)%bind_Ok. apply bind_Ok in E as (vs & st2 & E2%IH & _). by constructor.
Qed.

Lemma conjoin_unmentioned message env es acc st t st' :
  forallb source_form es = true -> runtime_ok st -> env_typed st env -> env_unmentioned env -> unmentioned acc ->
  Forall (fun e => contains_predicate (predicates_ st) e = false) es ->
  conjoin term_to_string term_ast_id message env es acc st = (Ok t, st') -> unmentioned t.
Proof.
  revert acc st. induction es as [|e es IH]; intros acc st Hf Hok He Hun Ha Hno; cbn [conjoin]; [by intros [= <- _]|].
  simpl in Hf. apply andb_true_iff in Hf as [Hf Hfs]. apply Forall_cons in Hno as [Hno Hnos]. intros (te & st1 & E1 & E)%bind_Ok.
  destruct (elaborated_keeps _ _ _ _ _ Hf Hok He E1) as [[Hok1 Hg1] _]. destruct (negb _); [done|].
  apply bind_Ok in E as (t' & st2 & [Ht ->]%z3_call_Ok & E). eapply IH in E; [done..|by eapply grows_env|done| |by rewrite <- (g_predicates _ _ Hg1)].
  eapply unmentioned_op; [exact Ht|]. constructor; [done|]. constructor; [|constructor].
  exact (elaborate_unmentioned e _ _ _ _ Hf Hok He Hun Hno E1).
Qed.

Context {HML : Z3MeaningLaws} {HBM : Z3BuildMeaning}.
Hypothesis Hdomain : Forall (fun d => decl_domain d <> []) relations.

Lemma constant_unmentioned n s : unmentioned (constant n s).
Proof.
  rewrite <- function_constant. apply unmentioned_app; [|constructor]. intros Hin. rewrite Forall_forall in Hdomain. apply Hdomain in Hin.
  destruct (function_typed n [] s) as [E _]. exact (Hin E).
Qed.

Lemma invariant_env_unmentioned owner i ps (env : Environment) acc st r st' :
  env_unmentioned env -> invariant_parameters_loop owner i ps env acc st = (Ok r, st') -> env_unmentioned r.1.
Proof.
  revert i env acc st. induction ps as [|p ps IH]; intros i env acc st Hun; cbn [invariant_parameters_loop]; [by intros [= <- _]|].
  destruct (env !! _); [done|]. intros (ty & st1 & _ & (rt & st2 & _ & E)%bind_Ok)%bind_Ok. destruct (bool_decide _); [done|].
  apply IH in E; [done|]. apply map_Forall_insert_2; [|done]. apply constant_unmentioned.
Qed.

(** The guarantees apply no predicate, since the code refuses those that do, and
    neither do the indices of the atom when they are direct. *)
Lemma invariant_unmentioned d e st ps m g st' :
  runtime_ok st -> source_form e = true -> forallb source_form (check_ensures d) = true ->
  invariant_statement term_to_string term_ast_id d e st = (Ok (ps, m, g), st') ->
  unmentioned g /\ (indices_direct st e -> forall p l, m = App p l -> Forall unmentioned l).
Proof.
  intros Hok Hf Hfe. unfold invariant_statement. intros ([] & st1 & (-> & Hk & p & Hp & Hh)%horn_atom_info & E)%bind_Ok.
  apply bind_Ok in E as (predicates & st1 & [= <- <-] & (us & st1 & Eg & E)%bind_Ok).
  pose proof (guarantees_direct _ _ _ _ _ Eg) as Hdirect. apply guarantees_Ok in Eg as ->.
  apply bind_Ok in E as ([env ps'] & st1 & E1 & E). assert (Hempty : env_unmentioned ∅) by apply map_Forall_empty.
  pose proof (invariant_env_unmentioned _ _ _ _ _ _ _ _ Hempty E1) as Hun.
  apply (invariant_parameters_yields term_to_string term_ast_id) in E1 as (L1 & He & _);
    [|done|by intros n te ?%lookup_empty_Some|by intros n te ?%lookup_empty_Some|by intros ? ?|done].
  cbn [fst snd] in *. apply bind_Ok in E as ([] & st2 & [= <-] & E). set (st2 := set_capture true _ _) in *.
  assert (L2 : later st1 st2) by (by eapply later_capture, later_ok). pose proof (env_later _ _ _ L2 He) as He2.
  pose proof (later_ok _ _ L2) as Hok2. assert (Ep : predicates_ st2 = predicates_ st) by (by rewrite <- (g_predicates _ _ (later_grows _ _ (later_trans _ _ _ L1 L2)))).
  apply bind_Ok in E as (te & st3 & E3 & E). destruct (elaborated_keeps _ _ _ _ _ Hf Hok2 He2 E3) as [[Hok3 Hg3] _].
  apply bind_Ok in E as (g' & st4 & E4 & ([] & st5 & _ & [= <- <- <- _])%bind_Ok). split.
  - eapply conjoin_unmentioned in E4; [done..|by eapply grows_env|done|by apply truth_mentions|by rewrite <- (g_predicates _ _ Hg3), Ep].
  - intros Hi q l Hm. eapply (indices_unmentioned e env st2); [done..| |exact E3|exact Hm]. unfold indices_direct. by rewrite Ep.
Qed.
End Mentions.
