(* ===== verification/FixedpointSound.v ===== *)
(** * Questions to the fixedpoint object

    The rules Fine tells Z3's fixedpoint object are true in the worlds of the
    document, and the least relations of such a world are a least model of
    them.  So a membership answered `derived` holds in every world and one
    answered `not-derived` in none, and an invariant answered `verified` is
    true of all members of its predicate and one answered `refuted` is not. *)

From stdpp Require Import gmap.
From S2P Require Import Prelude Format Syntax Lexer Printer Parser ParserSpec Source Z3Ast Z3Solver Z3Build Z3Check Z3Fixedpoint Z3Horn Lift Recorder Observers Runtime Elaborate Declare Values Predicate PredicateCheck Check RuntimeSpec ElaborateSpec DeclareSpec EnumSpec FunctionSpec CheckSpec CheckSound PredicateSpec LayerSpec InductionSpec DeclarePredicateSpec PredicateSound Mentions.
From Stdlib Require Import NArith.

(** ** The meaning of a rule *)

Section Rules.
Context `{HD : Z3Data} {HA : Z3Api} {HX : Z3Exprs} {HB : Z3Build} {HBL : Z3BuildLaws} {HM : Z3Meaning}
  {HML : Z3MeaningLaws} {HBM : Z3BuildMeaning}.

Lemma conjunction_holds w e t l : conjunction_of t l -> holds w e t <-> Forall (holds w e) l.
Proof.
  induction 1 as [|t|a b t la lb Hand _ IHa _ IHb].
  - split; [constructor|]. intros _. apply holds_true.
  - by rewrite Forall_singleton.
  - by rewrite (holds_and _ _ _ _ _ Hand), IHa, IHb, Forall_app.
Qed.

Lemma implication_holds w e c t :
  implication_of c t -> holds w e t <-> (Forall (holds w e) (hc_body c) -> holds w e (App (hc_relation c) (hc_indices c))).
Proof.
  intros [->|b r Hb Hr]; [split; [done|]; intros Hh; by apply Hh|].
  by rewrite (holds_implication _ _ _ _ _ Hr), (conjunction_holds _ _ _ _ Hb).
Qed.

Lemma reads_holds w e c t :
  Forall symbolic (hc_parameters c) -> NoDup (hc_parameters c) -> reads c t ->
  holds w e t <-> forall vs, Forall2 (fun x v => value_sort v = get_sort x) (hc_parameters c) vs ->
    let e' := assign e (hc_parameters c) vs in
    Forall (holds w e') (hc_body c) -> holds w e' (App (hc_relation c) (hc_indices c)).
Proof.
  intros Hs Hn [t' Hnil Hi|r t' Hi Hf].
  - rewrite (implication_holds _ _ _ _ Hi), Hnil. split; [by intros Hh vs ->%Forall2_nil_inv_l|].
    intros Hh. by apply (Hh []).
  - rewrite (holds_anonymous_forall _ _ _ _ _ Hf Hs Hn). split; intros Hh vs Hvs; by apply (implication_holds _ _ _ _ Hi), Hh.
Qed.

(** The values an environment gives the parameters. *)
Lemma parameters_typed e ps : env_ok e -> Forall symbolic ps -> Forall2 (fun x v => value_sort v = get_sort x) ps (e <$> ps).
Proof. intros He Hs. apply Forall2_fmap_r, Forall_Forall2_diag. eapply Forall_impl; [exact Hs|]. intros x Hx. by apply He. Qed.

Lemma parameters_kept e e0 ps c : NoDup ps -> c ∈ ps -> assign e ps (e0 <$> ps) c = e0 c.
Proof.
  intros Hn [i Hi]%list_elem_of_lookup. eapply assign_lookup; [done|exact Hi|]. by rewrite list_lookup_fmap, Hi.
Qed.
End Rules.

(** ** The worlds of a document are models of its rules *)

Section Models.
Context `{HD : Z3Data} {HA : Z3Api} {HX : Z3Exprs} {HB : Z3Build} {HBL : Z3BuildLaws} {HM : Z3Meaning}
  {HML : Z3MeaningLaws} {HBM : Z3BuildMeaning} {HF : Z3Fixedpoint} {HFL : Z3FixedpointLaws}.
Context (st : RuntimeState).
Hypothesis Hwf : predicates_wf st.
Hypothesis Hfix : fixedpoint_ok st.
Abbreviation rules := (fp_rules (fixedpoint_ st)).*2.
Abbreviation relations := (fp_relations (fixedpoint_ st)).

(** The clauses of the document. *)
Definition document_clause (c : Clause) : Prop :=
  exists p k, lowered (predicates_ st) p k /\ c = clause_of (pi_relation p) k.

Lemma document_rules : rules_read document_clause rules.
Proof.
  destruct Hfix as [Hrt _]. split.
  - intros t (p & k & Hl & Hr)%(rt_rules _ _ Hrt). exists (clause_of (pi_relation p) k). split; [by exists p, k|done].
  - intros c (p & k & Hl & ->). by destruct (rt_constructors _ _ Hrt _ _ Hl) as [_ ?].
Qed.

Lemma lowered_wf p k : lowered (predicates_ st) p k ->
  interpreted (pi_relation p) /\ constructor_wf (pi_relation p) k /\ Forall symbolic (pc_parameters k) /\ NoDup (pc_parameters k).
Proof.
  intros ((n & Hn) & _ & Hk). destruct (Hwf _ _ Hn) as (_ & Hi & _ & Hcs). rewrite Forall_forall in Hcs. pose proof (Hcs _ Hk) as Hc.
  split_and!; [done..| |].
  - pose proof (cw_constants _ _ Hc) as Hs. apply Forall_app in Hs as [Hs _]. eapply Forall_impl; [exact Hs|]. apply schema_constant_symbolic.
  - pose proof (cw_distinct _ _ Hc) as Hn'. by apply NoDup_app in Hn' as [? _].
Qed.

Lemma lowered_true w e p k vs :
  least st w -> env_ok e -> lowered (predicates_ st) p k -> Forall2 (fun x v => value_sort v = get_sort x) (pc_parameters k) vs ->
  let e' := assign e (pc_parameters k) vs in
  Forall (holds w e') (pc_premise_terms k) -> holds w e' (App (pi_relation p) (pc_result_indices k)).
Proof.
  intros Hw He Hl Hvs e' Hp. destruct (lowered_wf _ _ Hl) as (Hi & Hc & _). pose proof Hl as ((n & Hn) & _ & Hk).
  apply holds_atom; [done|]. destruct (Hw _ _ Hn) as [Hclosed _]. apply (Hclosed k); [done|].
  exists e'. split_and!; [by apply env_ok_assign|done| |].
  - pose proof (cw_premises _ _ Hc) as Hap. rewrite Forall_forall in Hp, Hap. apply Forall_forall. intros t Ht.
    destruct (Hap _ Ht) as (_ & d & l & -> & _). apply premise_member; [done|by eexists _, _|by apply Hp].
  - destruct Hfix as [Hrt _]. destruct (rt_constructors _ _ Hrt _ _ Hl) as [-> _]. constructor.
Qed.

Lemma rules_true w e : least st w -> env_ok e -> Forall (holds w e) rules.
Proof.
  intros Hw He. apply Forall_forall. intros t Ht. destruct (proj1 document_rules _ Ht) as (c & (p & k & Hl & ->) & Hr).
  destruct (lowered_wf _ _ Hl) as (_ & _ & Hs & Hn). apply (reads_holds _ _ (clause_of (pi_relation p) k) _ Hs Hn Hr). intros vs Hvs e' Hb.
  by apply lowered_true.
Qed.

(** A predicate with a registered relation is one whose constructors are rules. *)
Lemma registered m q : predicates_ st !! m = Some q -> pi_relation q ∈ relations -> pi_horn_complete q = true.
Proof.
  intros Hq Hd. destruct Hfix as [Hrt _]. apply (rt_relations _ _ Hrt) in Hd as (n & p & Hp & Hh & E).
  destruct (rt_names _ _ Hrt _ _ Hp) as (? & ? & _ & Ep), (rt_names _ _ Hrt _ _ Hq) as (? & ? & _ & Eq). rewrite Ep, Eq in E.
  apply function_name in E as ->. rewrite Hp in Hq. by injection Hq as <-.
Qed.

(** Relations closed under the clauses contain the predicates of a world. [extra] are relations of no predicate. *)
Lemma contained w e X extra :
  least st w -> env_ok e -> (forall n p, predicates_ st !! n = Some p -> pi_relation p ∉ extra) ->
  (forall c, document_clause c -> closed_clause (relations ++ extra) w e X c) ->
  forall n p vs, predicates_ st !! n = Some p -> pi_horn_complete p = true -> member w p vs -> X (pi_relation p) vs.
Proof.
  intros Hw He Hextra Hclosed. destruct Hfix as [Hrt [rank Hrank]].
  enough (H : forall k n p vs, rank n < k -> predicates_ st !! n = Some p -> pi_horn_complete p = true -> member w p vs ->
    X (pi_relation p) vs).
  { intros n p vs. by apply (H (S (rank n))), Nat.lt_succ_diag_r. }
  induction k as [|k IH]; [lia|]. intros n p vs Hk Hn Hh. destruct (Hw _ _ Hn) as [_ Hleast]. revert vs. apply Hleast.
  intros c vs Hc (e0 & He0 & -> & Hp & _). assert (Hl : lowered (predicates_ st) p c) by (by split_and!; [exists n|..]).
  destruct (lowered_wf _ _ Hl) as (Hi & Hcw & Hs & Hnd). set (ps := pc_parameters c) in *.
  assert (Hag : forall x, x ∈ ps -> assign e ps (e0 <$> ps) x = e0 x) by (intros x; by apply parameters_kept).
  rewrite <- (over_agree_list w (assign e ps (e0 <$> ps)) e0 ps _ (cw_result _ _ Hcw) Hag).
  apply (Hclosed (clause_of (pi_relation p) c)); [by exists p, c|by apply parameters_typed|]. apply Forall_forall. intros t Ht.
  destruct (Hrank _ _ _ _ Hn Hc Ht) as (m & q & l & Hq & -> & Hm). rewrite Forall_forall in Hp. destruct (Hp _ Ht) as [Hp1 Hp2].
  pose proof (cw_premises _ _ Hcw) as Hcp. rewrite Forall_forall in Hcp. destruct (Hcp _ Ht) as [Ho _]. destruct (Hwf _ _ Hq) as (_ & Hiq & _).
  assert (Hall : eval w (assign e ps (e0 <$> ps)) <$> l = eval w e0 <$> l) by (eapply over_agree_list; [by eapply over_app|done]).
  assert (Hother : pi_relation q <> pi_relation p -> holds w e0 (App (pi_relation q) l)) by (intros Hne; apply Hp2; by intros l' [= ?]).
  split.
  - intros d l' [= <- <-] Hd. change (X (pi_relation q) (eval w (assign e ps (e0 <$> ps)) <$> l)). rewrite Hall.
    destruct (decide (pi_relation q = pi_relation p)) as [E|Hne].
    { rewrite E in *. by apply Hp1. }
    destruct Hm as [->|Hm]; [congruence|]. apply elem_of_app in Hd as [Hd|Hd]; [|by destruct (Hextra _ _ Hq)].
    apply (IH m); [lia|done|by eapply registered|]. by apply holds_atom, Hother.
  - intros Hd. apply (over_holds _ _ e0 ps _ Ho Hag). apply Hother. intros E. apply (Hd _ _ eq_refl), elem_of_app. left. rewrite E.
    apply (rt_relations _ _ Hrt). by exists n, p.
Qed.

Lemma document_least_model w e : least st w -> env_ok e -> least_model relations document_clause w e.
Proof.
  intros Hw He X Hclosed d l Hd _ Hh. destruct Hfix as [Hrt _]. apply (rt_relations _ _ Hrt) in Hd as (n & p & Hp & Hhorn & <-).
  destruct (Hwf _ _ Hp) as (_ & Hi & _). apply (contained w e X [] Hw He) with n; [by intros ? ? ? ?%elem_of_nil| |done..|by apply holds_atom].
  intros c Hc. rewrite app_nil_r. by apply Hclosed.
Qed.
End Models.

(** ** Ground membership *)

Section Questions.
Context `{HD : Z3Data} {HA : Z3Api} {HX : Z3Exprs} {HB : Z3Build} {HBL : Z3BuildLaws} {HM : Z3Meaning}
  {HML : Z3MeaningLaws} {HBM : Z3BuildMeaning} {HS : Z3Solver} {HF : Z3Fixedpoint} {HFL : Z3FixedpointLaws}.
Context (term_to_string : Term -> string) (term_ast_id : Term -> N).

(** Registered relations occur in the retained constructors only as premises and results. *)
Definition first_order (st : RuntimeState) (relations : list Decl) : Prop :=
  forall p k, lowered (predicates_ st) p k ->
    Forall (flat relations) (pc_premise_terms k) /\ Forall (fun x => mentions relations x = false) (pc_result_indices k).

Lemma document_horn st relations c :
  predicates_wf st -> fixedpoint_ok st -> fp_relations (fixedpoint_ st) ⊆ relations -> first_order st relations ->
  document_clause st c -> horn_clause relations c.
Proof.
  intros Hwf [Hrt _] Hsub Hflat (p & k & Hl & ->). destruct (lowered_wf st Hwf _ _ Hl) as (_ & _ & Hs & Hn), (Hflat _ _ Hl) as [Hb Hh].
  split; [done..|]. split; [|done]. apply Hsub, (rt_relations _ _ Hrt). destruct Hl as ((n & ?) & ? & _). by exists n, p.
Qed.

(** The registered relations are functions with arguments. *)
Lemma relations_declared st : fixedpoint_ok st ->
  Forall declared_function (fp_relations (fixedpoint_ st)) /\ Forall (fun d => decl_domain d <> []) (fp_relations (fixedpoint_ st)).
Proof.
  intros [Hrt _]. split; apply Forall_forall; intros d (n & p & Hp & _ & <-)%(rt_relations _ _ Hrt);
    destruct (rt_names _ _ Hrt _ _ Hp) as (dom & r & Hdom & ->); [by eexists _, _, _|]. by destruct (function_typed n dom r) as [-> _].
Qed.

(** What a query asks, and where. *)
Lemma spacer_answer scope query st result st' :
  spacer_query term_to_string term_ast_id scope query st = (Ok result, st') -> exists f,
    fp_query f query = Some result /\ fp_rules f = fp_rules (fixedpoint_ st) /\ fp_relations f = fp_relations (fixedpoint_ st).
Proof.
  unfold spacer_query. destruct (rainfall_ st) as [r|]; [|intros [Hq _]%z3_call_Ok; by eexists].
  destruct (observe_spacer _ _ _ _) as [[o r']|e|]; [|done..]. intros (x & st1 & [Hq ->]%z3_call_Ok & E)%bind_Ok.
  exists (share_lemmas (fixedpoint_ st)). split; [|done]. rewrite Hq. destruct (rethrow_if_failed o); [by injection E as ->|done..].
Qed.

(** What a membership's answer says. *)
Definition membership_result (d : CheckDecl) (source : Expr) (st : RuntimeState) (r : nat * string) : Prop :=
  exists p l derived te st1 st2, predicates_ st !! name source = Some p /\ pi_horn_complete p = true /\
    later st st1 /\ elaborate_expression term_to_string term_ast_id ∅ source st1 = (Ok te, st2) /\
    te_expression te = App (pi_relation p) l /\ r = (0, membership_text d (name source) derived) /\
    if derived : bool then forall w e, least st w -> env_ok e -> member w p (eval w e <$> l)
    else first_order st (fp_relations (fixedpoint_ st)) -> indices_direct st source ->
         forall w e, least st w -> env_ok e -> ~ member w p (eval w e <$> l).

Lemma membership_yields d source st :
  runtime_ok st -> predicates_wf st -> fixedpoint_ok st -> source_form source = true ->
  yields (execute_membership term_to_string term_ast_id d source) st (fun r _ => membership_result d source st r).
Proof.
  intros Hok Hwf Hfix Hf. unfold execute_membership. apply yields_bind. intros [] st1 (-> & Hk & p & Hp & Hh)%horn_atom_info.
  apply yields_bind. intros [] st1 [= <-]. set (st1 := set_capture true _ _). assert (L1 : later st st1) by (by apply later_capture).
  pose proof (later_ok _ _ L1) as Hok1. apply yields_bind. intros te st2 E2.
  assert (Henv : env_typed st1 ∅) by (by intros n t ?%lookup_empty_Some).
  destruct (call_predicate _ _ _ _ _ _ _ _ Hk Hf Hok1 Henv Hp E2) as (l & Ht & _ & _ & Hsort).
  pose proof (framed_fixedpoint _ _ _ _ (framed_elaborate _ _ _ _) E2) as Ef2. apply yields_bind. intros [] st3 [= <-].
  apply yields_bind. intros [] st4 E4. pose proof (framed_fixedpoint _ _ _ _ (framed_rain _) E4) as Ef4.
  apply yields_bind. intros result st5 E5. apply spacer_answer in E5 as (f & Hq & Er & Ed). rewrite Ef4 in Er, Ed. simpl in Er, Ed.
  rewrite Ef2 in Er, Ed. change (fixedpoint_ st1) with (fixedpoint_ st) in Er, Ed. apply yields_bind. intros f' st6 [= <- <-]. rewrite Ht in Hq |- *.
  destruct (Hwf _ _ Hp) as (_ & Hi & _). destruct result; [| |by intros ? ?];
    apply yields_bind; intros [] st7 _ r st' [= <- _]; eexists p, l, _, te, st1, st2; (split_and!; [done..|]); simpl.
  - intros w e Hw He. apply (holds_atom _ _ _ _ Hi). apply (query_derivable f _ _ _ Hq He). rewrite Er. by apply (rules_true st).
  - intros Hflat Hdirect w e Hw He Hm. apply (holds_atom _ _ _ _ Hi) in Hm. revert Hm. destruct (relations_declared st Hfix) as [Hdec _].
    assert (Hl : Forall (fun x => mentions (fp_relations (fixedpoint_ st)) x = false) l).
    { eapply (indices_unmentioned _ _ _ Hdec source ∅ st1); [done..|apply map_Forall_empty|exact Hdirect|exact E2|exact Ht]. }
    apply (query_underivable f (document_clause st) _ _ w e Hq); rewrite ?Er, ?Ed; try done.
    + by apply document_rules.
    + intros c. by apply document_horn.
    + destruct Hfix as [Hrt _]. apply (rt_relations _ _ Hrt). by exists (name source), p.
    + by apply (rules_true st).
    + by apply document_least_model.
Qed.

(** ** Invariants *)

Definition counterexample_name (d : CheckDecl) : string := "Fine.predicate-check." +:+ check_name d +:+ ".counterexample".
Definition counterexample (d : CheckDecl) : Decl := z3_function (counterexample_name d) [] bool_sort.

(** The relations while an invariant is asked. *)
Definition invariant_relations (d : CheckDecl) (st : RuntimeState) : list Decl :=
  fp_relations (fixedpoint_ st) ++ [counterexample d].

Lemma counterexample_symbolic d : symbolic (App (counterexample d) []).
Proof. unfold counterexample. rewrite function_constant. apply constant_symbolic. Qed.

Lemma counterexample_apart d ps : parameters_wf ("Fine.predicate-check." +:+ check_name d) ps -> App (counterexample d) [] ∉ ps.
Proof.
  intros Hps [i Hi%Hps]%list_elem_of_lookup. unfold counterexample, counterexample_name, parameter_constant in Hi.
  rewrite function_constant in Hi. apply constant_name in Hi. rewrite append_assoc in Hi. by do 2 apply append_inv_head in Hi.
Qed.

Lemma invariant_parameters_wf d ps : parameters_wf ("Fine.predicate-check." +:+ check_name d) ps -> Forall symbolic ps /\ NoDup ps.
Proof.
  intros Hps. split.
  - apply Forall_lookup. intros i x Hx%Hps. rewrite Hx. apply constant_symbolic.
  - apply NoDup_alt. intros i j x Hi%Hps Hj%Hps. unfold parameter_constant in *. rewrite Hj in Hi at 1. apply constant_name in Hi.
    do 2 apply append_inv_head in Hi. by apply to_string_inj in Hi.
Qed.

(** An environment with a truth value for the counterexample. *)
Definition decided_env (d : CheckDecl) (e : Env) (b : bool) : Env := assign e [App (counterexample d) []] [vbool b].

Lemma decided_env_ok d e b : env_ok e -> env_ok (decided_env d e b).
Proof.
  intros He. apply env_ok_assign; [done|]. constructor; [|constructor]. unfold counterexample.
  by rewrite vbool_sort, function_constant, sort_constant.
Qed.

Lemma counterexample_value d w e b ps vs :
  App (counterexample d) [] ∉ ps -> eval w (assign (decided_env d e b) ps vs) (App (counterexample d) []) = vbool b.
Proof.
  intros Hps. rewrite eval_symbolic by apply counterexample_symbolic. rewrite assign_other by done. unfold decided_env.
  by apply (assign_lookup e [App (counterexample d) []] [vbool b] 0); [apply NoDup_singleton|..].
Qed.

Lemma decided_value d w e b : eval w (decided_env d e b) (App (counterexample d) []) = vbool b.
Proof. exact (counterexample_value d w e b [] [] (not_elem_of_nil _)). Qed.

(** The rule that asks for a counterexample. *)
Record asks (d : CheckDecl) (ps : list Term) (m g ng rule : Term) : Prop := {
  as_parameters : parameters_wf ("Fine.predicate-check." +:+ check_name d) ps;
  as_membership : over ps m;
  as_guarantees : over ps g;
  as_negated : z3_op ZNot [g] = Some ng;
  as_rule : reads (mkClause ps [m; ng] (counterexample d) []) rule
}.

Lemma asks_rule d ps m ng body implication rule :
  z3_op ZAnd [m; ng] = Some body -> z3_op ZImplies [body; App (counterexample d) []] = Some implication ->
  mk_forall ps implication = Some rule -> reads (mkClause ps [m; ng] (counterexample d) []) rule.
Proof.
  intros Hb Hi Hr. eapply reads_forall; [|exact Hr]. apply (implied_by _ body); [|exact Hi].
  apply (conjunction_and m ng body [m] [ng] Hb); apply conjunct.
Qed.

(** Where the invariant fails, its rule forces the counterexample. *)
Lemma asked_true d ps m g ng rule w e b :
  asks d ps m g ng rule -> env_ok e ->
  (b = false -> forall e', env_ok e' -> holds w e' m -> holds w e' g) -> holds w (decided_env d e b) rule.
Proof.
  intros [Hps _ _ Hn Hr] He Hg. destruct (invariant_parameters_wf _ _ Hps) as [Hs Hd].
  apply (reads_holds _ _ (mkClause ps [m; ng] (counterexample d) []) _ Hs Hd Hr). simpl. intros vs Hvs Hbody.
  unfold holds. rewrite counterexample_value by (by apply counterexample_apart). destruct b; [done|].
  apply Forall_cons in Hbody as [Hm [Hng _]%Forall_cons]. apply (holds_negation _ _ _ _ Hn) in Hng. destruct Hng.
  apply Hg; [done|by apply env_ok_assign; [apply decided_env_ok|]|done].
Qed.

Lemma invariant_relations_declared d st d' : fixedpoint_ok st -> d' ∈ invariant_relations d st -> declared_function d'.
Proof.
  intros Hfix [Hd| ->%list_elem_of_singleton]%elem_of_app; [|by eexists _, _, _]. destruct (relations_declared st Hfix) as [Hdec _].
  rewrite Forall_forall in Hdec. by apply Hdec.
Qed.

(** The world's relations and a true counterexample are a least model of the rules, when there is a counterexample. *)
Lemma asked_least_model st d p l n ps g ng rule w e :
  predicates_wf st -> fixedpoint_ok st -> least st w -> env_ok e -> predicates_ st !! n = Some p -> pi_horn_complete p = true ->
  asks d ps (App (pi_relation p) l) g ng rule -> member w p (eval w e <$> l) -> ~ holds w e g ->
  least_model (invariant_relations d st)
    (fun c => document_clause st c \/ c = mkClause ps [App (pi_relation p) l; ng] (counterexample d) []) w (decided_env d e true).
Proof.
  intros Hwf Hfix Hw He Hn Hh [Hps Hom Hog Hneg _] Hm Hg X Hclosed d' l' Hd Hsort Hhold.
  pose proof Hfix as [Hrt _]. destruct (invariant_parameters_wf _ _ Hps) as [Hs Hnd]. set (e1 := decided_env d e true) in *.
  assert (Hin : forall n p vs, predicates_ st !! n = Some p -> pi_horn_complete p = true -> member w p vs -> X (pi_relation p) vs).
  { apply (contained st Hwf Hfix w e1 X [counterexample d]); [done|by apply decided_env_ok| |intros c Hc; apply Hclosed; by left].
    intros m q Hq E%list_elem_of_singleton. destruct (Hwf _ _ Hq) as (_ & Hi & _). rewrite E in Hi.
    exact (Hi [] (counterexample_symbolic d)). }
  apply elem_of_app in Hd as [Hd|Hd].
  { apply (rt_relations _ _ Hrt) in Hd as (m & q & Hq & Hhq & <-). apply (Hin m); [done..|]. destruct (Hwf _ _ Hq) as (_ & Hi & _).
    by apply holds_atom. }
  apply list_elem_of_singleton in Hd as ->. destruct (function_typed (counterexample_name d) [] bool_sort) as (Edom & _).
  unfold counterexample in Hsort. rewrite Edom in Hsort. apply fmap_nil_inv in Hsort as ->.
  assert (Hag : forall x, x ∈ ps -> assign e1 ps (e <$> ps) x = e x) by (intros x; by apply parameters_kept).
  pose proof (Hclosed _ (or_intror eq_refl) (e <$> ps) (parameters_typed _ _ He Hs)) as Hcex. simpl in Hcex. apply Hcex.
  constructor; [|constructor; [|constructor]]; split.
  - intros d' l' [= <- <-] _. rewrite (over_agree_list w _ e ps _ (over_app _ _ _ Hom) Hag). by apply (Hin n).
  - intros Hno. destruct (Hno _ _ eq_refl). apply elem_of_app. left. apply (rt_relations _ _ Hrt). by exists n, p.
  - intros d' l' -> Hd'. exfalso. apply (operator_head _ _ _ _ Hneg). exact (invariant_relations_declared _ _ _ Hfix Hd').
  - intros _. apply (holds_negation _ _ _ _ Hneg). by rewrite (over_holds w _ e ps g Hog Hag).
Qed.

(** ** The counterexample is new *)

Lemma mentions_app rels rels' t : mentions (rels ++ rels') t = true -> mentions rels t = true \/ mentions rels' t = true.
Proof.
  assert (Hex : forall l, Forall (fun t => mentions (rels ++ rels') t = true -> mentions rels t = true \/ mentions rels' t = true) l ->
    existsb (mentions (rels ++ rels')) l = true -> existsb (mentions rels) l = true \/ existsb (mentions rels') l = true).
  { intros l Hl. rewrite !existsb_exists. intros (x & Hx & Hm). rewrite Forall_forall in Hl. destruct (Hl x (proj2 (list_elem_of_In _ _) Hx) Hm); eauto. }
  induction t as [v s|d l IH|i s|k wt q s bs ps ns b Hps Hns Hb] using Term_nested_ind; try done; simpl; rewrite !orb_true_iff.
  - intros [[Hd%bool_decide_eq_true Hl]%andb_true_iff|Hl].
    + rewrite !Hl, !andb_true_r. apply elem_of_app in Hd as [Hd|Hd]; [left|right]; left; by apply bool_decide_eq_true.
    + destruct (Hex l IH Hl); auto.
  - intros [[Hp|Hn]|Hm]; [|destruct (Hex ns Hns Hn); auto|destruct (Hb Hm); auto]. rewrite existsb_exists in Hp. destruct Hp as (l & Hl & Hm).
    rewrite Forall_forall in Hps. destruct (Hex l (Hps l (proj2 (list_elem_of_In _ _) Hl)) Hm); [left|right]; do 2 left;
      apply existsb_exists; by exists l.
Qed.

Lemma mentions_constant c t : decl_domain c = [] -> mentions [c] t = true -> occurs (App c []) t = true.
Proof.
  intros Hc. assert (Hex : forall l, Forall (fun t => mentions [c] t = true -> occurs (App c []) t = true) l ->
    existsb (mentions [c]) l = true -> existsb (occurs (App c [])) l = true).
  { intros l Hl. rewrite !existsb_exists. intros (x & Hx & Hm). rewrite Forall_forall in Hl. exists x. split; [done|].
    apply Hl; [by apply list_elem_of_In|done]. }
  induction t as [v s|d l IH|i s|k wt q s bs ps ns b Hps Hns Hb] using Term_nested_ind; try done; simpl; rewrite !orb_true_iff.
  - intros [[->%bool_decide_eq_true%list_elem_of_singleton Hl]%andb_true_iff|Hl]; [|right; by apply Hex].
    left. rewrite Hc in Hl. destruct l; [|done]. apply (proj2 (term_eqb_spec (App c []) (App c []))). done.
  - intros [[Hp|Hn]|Hm]; [do 2 left|left; right; by apply Hex|right; by apply Hb]. rewrite existsb_exists in Hp |- *.
    destruct Hp as (l & Hl & Hm). exists l. split; [done|]. rewrite Forall_forall in Hps. apply Hex; [|done]. by apply Hps, list_elem_of_In.
Qed.

Lemma counterexample_unmentioned d st cs t :
  over cs t -> App (counterexample d) [] ∉ cs -> unmentioned (fp_relations (fixedpoint_ st)) t -> unmentioned (invariant_relations d st) t.
Proof.
  intros Ho Hc Hu. apply not_true_is_false. intros [Hm|Hm]%mentions_app; [by rewrite Hu in Hm|].
  apply mentions_constant in Hm; [|by destruct (function_typed (counterexample_name d) [] bool_sort)].
  apply Hc, Ho; [apply counterexample_symbolic|done].
Qed.

Lemma counterexample_schema d st p k : predicates_wf st -> lowered (predicates_ st) p k -> App (counterexample d) [] ∉ pc_parameters k.
Proof.
  intros Hwf Hl Hin. destruct (lowered_wf st Hwf _ _ Hl) as (_ & Hc & _). pose proof (cw_constants _ _ Hc) as Hs.
  apply Forall_app in Hs as [Hs _]. rewrite Forall_forall in Hs. destruct (Hs _ Hin) as [n Hn].
  unfold counterexample, counterexample_name in Hn. rewrite function_constant in Hn. by apply constant_name in Hn.
Qed.

Lemma invariant_first_order st d p l ps g ng rule :
  predicates_wf st -> fixedpoint_ok st -> asks d ps (App (pi_relation p) l) g ng rule -> first_order st (fp_relations (fixedpoint_ st)) ->
  Forall (unmentioned (fp_relations (fixedpoint_ st))) l -> unmentioned (fp_relations (fixedpoint_ st)) g ->
  first_order st (invariant_relations d st) /\ Forall (unmentioned (invariant_relations d st)) l /\ unmentioned (invariant_relations d st) ng.
Proof.
  intros Hwf Hfix [Hps Hom Hog Hneg _] Hflat Hl Hg. pose proof (counterexample_apart d ps Hps) as Hc.
  assert (Hall : forall cs l, Forall (over cs) l -> App (counterexample d) [] ∉ cs -> Forall (unmentioned (fp_relations (fixedpoint_ st))) l ->
    Forall (unmentioned (invariant_relations d st)) l).
  { intros cs l' Ho Hc' Hu. rewrite Forall_forall in Ho, Hu |- *. intros x Hx. by eapply counterexample_unmentioned; [apply Ho|..|apply Hu]. }
  split_and!.
  - intros q k Hk. destruct (Hflat q k Hk) as [Hb Hh]. pose proof (counterexample_schema d st q k Hwf Hk) as Hck.
    destruct (lowered_wf st Hwf _ _ Hk) as (_ & Hcw & _). split; [|by eapply (Hall _ _ (cw_result _ _ Hcw))].
    pose proof (cw_premises _ _ Hcw) as Hprem. rewrite Forall_forall in Hb, Hprem |- *. intros t Ht.
    destruct (Hprem t Ht) as [Ho _]. destruct (Hb t Ht) as [Hu|(d' & l' & -> & Hd' & Hl')]; [left; by eapply counterexample_unmentioned|].
    right. exists d', l'. split_and!; [done|apply elem_of_app; by left|]. eapply Hall; [by apply over_app in Ho|done..].
  - by eapply Hall; [apply over_app in Hom|..].
  - eapply unmentioned_op; [apply Forall_forall; intros d'; by apply invariant_relations_declared|exact Hneg|].
    constructor; [by eapply counterexample_unmentioned|constructor].
Qed.

(** What an invariant's answer says. *)
Definition invariant_result (d : CheckDecl) (source : Expr) (st : RuntimeState) (r : nat * string) : Prop :=
  exists p l ps g verified st1,
    predicates_ st !! name source = Some p /\ pi_horn_complete p = true /\
    invariant_statement term_to_string term_ast_id d source st = (Ok (ps, App (pi_relation p) l, g), st1) /\
    r = (0, invariant_text d (name source) verified) /\
    if verified : bool then
      first_order st (fp_relations (fixedpoint_ st)) -> indices_direct st source ->
      forall w e, least st w -> env_ok e -> member w p (eval w e <$> l) -> holds w e g
    else forall w, least st w -> ~ forall e, env_ok e -> member w p (eval w e <$> l) -> holds w e g.

Lemma asked_answer st d p l n ps g ng rule f result :
  predicates_wf st -> fixedpoint_ok st -> predicates_ st !! n = Some p -> pi_horn_complete p = true ->
  asks d ps (App (pi_relation p) l) g ng rule -> fp_query f (App (counterexample d) []) = Some result ->
  (fp_rules f).*2 = (fp_rules (fixedpoint_ st)).*2 ++ [rule] -> fp_relations f = invariant_relations d st ->
  match result with
  | sat => forall w, least st w -> ~ forall e, env_ok e -> member w p (eval w e <$> l) -> holds w e g
  | unsat =>
      first_order st (fp_relations (fixedpoint_ st)) -> Forall (unmentioned (fp_relations (fixedpoint_ st))) l ->
      unmentioned (fp_relations (fixedpoint_ st)) g ->
      forall w e, least st w -> env_ok e -> member w p (eval w e <$> l) -> holds w e g
  | unknown => True
  end.
Proof.
  intros Hwf Hfix Hn Hh Hasks Hq Er Ed. destruct (Hwf _ _ Hn) as (_ & Hi & _). pose proof (as_parameters _ _ _ _ _ _ Hasks) as Hps.
  assert (Htrue : forall w e b, least st w -> env_ok e ->
    (b = false -> forall e', env_ok e' -> holds w e' (App (pi_relation p) l) -> holds w e' g) ->
    Forall (holds w (decided_env d e b)) (fp_rules f).*2).
  { intros w e b Hw He Hb. rewrite Er. apply Forall_app. split; [by apply (rules_true st); [..|apply decided_env_ok]|].
    constructor; [by eapply asked_true|constructor]. }
  destruct result; [| |done].
  - intros w Hw Hinv. destruct meaning_inhabited as (_ & e & He).
    assert (Hc : holds w (decided_env d e false) (App (counterexample d) [])).
    { apply (query_derivable f _ _ _ Hq); [by apply decided_env_ok|]. apply Htrue; [done..|]. intros _ e' He' Hm.
      apply Hinv; [done|by apply holds_atom]. }
    unfold holds in Hc. rewrite decided_value in Hc. by destruct vbool_true_false.
  - intros Hflat0 Hl0 Hg0 w e Hw He Hm. destruct (invariant_first_order st d p l ps g ng rule Hwf Hfix Hasks Hflat0 Hl0 Hg0) as (Hflat & Hl & Hng). destruct (holds_dec w e g) as [|Hg]; [done|]. exfalso.
    apply (query_underivable f (fun c => document_clause st c \/ c = mkClause ps [App (pi_relation p) l; ng] (counterexample d) [])
      (counterexample d) [] w (decided_env d e true) Hq); rewrite ?Ed; try done.
    + rewrite Er. destruct (document_rules st Hfix) as [Hto Hfrom]. split.
      * intros t [Ht| ->%list_elem_of_singleton]%elem_of_app; [destruct (Hto _ Ht) as (c & ? & ?); exists c; split; [by left|done]|].
        eexists. split; [by right|]. apply Hasks.
      * intros c [Hc| ->]; [destruct (Hfrom _ Hc) as (t & ? & ?); exists t; split; [apply elem_of_app; by left|done]|].
        exists rule. split; [apply elem_of_app; right; by apply list_elem_of_singleton|]. apply Hasks.
    + intros c [Hc| ->]; [apply (document_horn st); [done..| |done|done]; unfold invariant_relations; set_solver|].
      split; simpl; [by apply (invariant_parameters_wf d)| |split; [unfold invariant_relations; set_solver|constructor]].
      constructor; [|constructor; [by left|constructor]]. right. eexists _, _. split_and!; [done| |done].
      apply elem_of_app. left. destruct Hfix as [Hrt _]. apply (rt_relations _ _ Hrt). by exists n, p.
    + unfold invariant_relations. set_solver.
    + unfold counterexample. by destruct (function_typed (counterexample_name d) [] bool_sort) as (-> & _).
    + by apply decided_env_ok.
    + by apply Htrue.
    + by eapply asked_least_model.
    + unfold holds. by rewrite decided_value.
Qed.

Lemma invariant_yields d id source st :
  runtime_ok st -> predicates_wf st -> fixedpoint_ok st -> check_assumes d = [source] -> source_form source = true ->
  forallb source_form (check_ensures d) = true ->
  yields (execute_predicate_invariant term_to_string term_ast_id d id) st (fun r _ => invariant_result d source st r).
Proof.
  intros Hok Hwf Hfix Ha Hf Hfe. unfold execute_predicate_invariant. rewrite Ha. apply yields_bind. intros [[ps m] g] st1 E1.
  destruct (invariant_statement_yields _ _ _ _ _ Hok Hf Hfe _ _ E1) as (L1 & Ef1 & Hps & Hom & Hog & p & l & Hp & Hh & Em & Hsort).
  cbn [fst snd] in *. subst m. fold (counterexample_name d). fold (counterexample d).
  apply yields_bind. intros f st2 [= <- <-]. apply yields_bind. intros [] st2 [= <-]. set (st2 := set_fixedpoint _ st1).
  apply yields_bind. intros query st3 [Hquery ->]%z3_call_Ok. destruct (function_typed (counterexample_name d) [] bool_sort) as (Edom & _).
  rewrite mk_app_typed in Hquery by (symmetry; exact Edom). injection Hquery as <-.
  apply yields_bind. intros ng st3 [Hng ->]%z3_call_Ok. apply yields_bind. intros body st3 [Hbody ->]%z3_call_Ok.
  apply yields_bind. intros imp st3 [Himp ->]%z3_call_Ok. apply yields_bind. intros rule st3 [Hrule ->]%z3_call_Ok.
  apply yields_bind. intros f st3 [= <- <-]. apply yields_bind. intros [] st3 [= <-]. set (st3 := set_fixedpoint _ st2).
  apply yields_bind. intros [] st4 E4. pose proof (framed_fixedpoint _ _ _ _ (framed_rain _) E4) as Ef4.
  apply yields_bind. intros result st5 E5. apply spacer_answer in E5 as (f & Hq & Er & Ed). rewrite Ef4 in Er, Ed. simpl in Er, Ed.
  rewrite Ef1 in Er, Ed. assert (Hasks : asks d ps (App (pi_relation p) l) g ng rule).
  { split; try done. by eapply asks_rule. }
  pose proof (asked_answer st d p l (name source) ps g ng rule f result Hwf Hfix Hp Hh Hasks Hq) as Hans. rewrite Er, Ed, fmap_app in Hans.
  specialize (Hans eq_refl eq_refl). destruct (relations_declared st Hfix) as [Hdec Hdom].
  destruct (invariant_unmentioned _ _ _ Hdec Hdom d source st ps _ g st1 Hok Hf Hfe E1) as [Hug Hul]. apply yields_bind. intros f' st6 [= <- <-].
  destruct result; [| |by intros ? ?]; apply yields_bind; intros [] st7 _ r st' [= <- _]; (eexists p, l, ps, g, _, st1; split_and!; [done..|]); [done|].
  intros Hflat Hdirect. apply Hans; [done| |done]. by eapply Hul.
Qed.

(** ** Checks of least relations *)

(** What a check that does not induct over a predicate answers. *)
Definition question_result (d : CheckDecl) (st : RuntimeState) (r : nat * string) : Prop :=
  if decide (check_parameters d = [])
  then exists source, check_ensures d = [source] /\ membership_result d source st r
  else exists source, check_assumes d = [source] /\ invariant_result d source st r.

Lemma question_yields d id st :
  runtime_ok st -> predicates_wf st -> fixedpoint_ok st -> predicate_check_form d -> check_predicate_induction d = None ->
  yields (execute_predicate_check term_to_string term_ast_id d id) st (fun r _ =>
    check_reusable d = false /\ question_result d (add_value_name (check_name d) st) r).
Proof.
  intros Hok Hwf Hfix [[Hfa Hfe] _] Ei. unfold execute_predicate_check. apply yields_bind. intros [] st1 ->%reserve_value_name_Ok.
  destruct (add_value_name_keeps (check_name d) st Hok) as [Hok1 _]. set (st1 := add_value_name _ _) in *.
  destruct (bool_decide _); [apply yields_bind; intros ? ? _; by intros ? ?|]. rewrite Ei.
  destruct (check_reusable d); [by intros ? ?|]. unfold question_result. destruct (decide (check_parameters d = [])) as [E|E].
  - rewrite bool_decide_eq_false_2 by tauto. case_bool_decide; [by intros ? ?|].
    destruct (check_ensures d) as [|source [|]]; [by intros ? ?| |by intros ? ?]. simpl in Hfe. apply andb_true_iff in Hfe as [Hfe _].
    intros r st' Hr. split; [done|]. exists source. split; [done|]. by eapply membership_yields.
  - rewrite bool_decide_eq_true_2 by done. intros r st' Hr. split; [done|].
    destruct (check_assumes d) as [|source [|]] eqn:Ea; [by unfold execute_predicate_invariant in Hr; rewrite Ea in Hr| |
      by unfold execute_predicate_invariant in Hr; rewrite Ea in Hr].
    simpl in Hfa. apply andb_true_iff in Hfa as [Hfa _]. exists source. split; [done|]. by eapply invariant_yields.
Qed.

(** C6. The answers on least relations are right: when a check after predicates
    that inducts over none returns, on a well-formed runtime whose fixedpoint
    object was told the rules of the declared constructors, it answers either a
    membership, `derived` only if the atom's indices are a member of the
    predicate in every world where the predicates are the least relations closed
    under their constructors and `not-derived` only if they are one in none, or
    an invariant, `verified` only if the guarantees hold at all members in all
    those worlds and `refuted` only if they fail at a member in each.  The
    negative membership and the verified invariant are about predicates whose
    calls are direct: no index, of a retained constructor or of the atom asked
    about, contains one.  The guarantees contain none, since the code refuses
    those that do. *)
Theorem least_relation_sound (d : CheckDecl) (id : nat) (st st' : RuntimeState) (r : nat * string) :
  runtime_ok st -> predicates_wf st -> fixedpoint_ok st -> predicate_check_form d -> check_predicate_induction d = None ->
  execute_predicate_check term_to_string term_ast_id d id st = (Ok r, st') ->
  question_result d (add_value_name (check_name d) st) r.
Proof. intros Hok Hwf Hfix Hf Hi E. by apply question_yields in E as [_ Hr]. Qed.
End Questions.
