(* ===== verification/ValuesSpec.v ===== *)
(** * Model values round trip through Fine source

    A literal value of a type lifts to an expression with a source form;
    any expression that says the same (the one the parser reads back from
    the printed text, whatever its spans) elaborates, in no environment, to
    the identical term at the identical type pointer. *)

From stdpp Require Import gmap.
From S2P Require Import Prelude Format Syntax Lexer Parser ParserSpec Printer PrintParse Source Z3Ast Z3Solver Z3Build Z3Fixedpoint Lift Recorder Runtime Elaborate Declare Values RuntimeSpec ElaborateSpec DeclareSpec.
From Stdlib Require Import NArith.

(** ** Running an operation that changes nothing *)

Section Run.
Context `{Z3Data}.

(** [m] returns [a] and leaves [st] as it is. *)
Definition gives {A} (m : RtM A) (st : RuntimeState) (a : A) : Prop := m st = (Ok a, st).

Lemma gives_bind {A B} (m : RtM A) (k : A -> RtM B) st a b : gives m st a -> gives (k a) st b -> gives (m ≫= k) st b.
Proof. unfold gives, mbind, RtM_bind. by intros ->. Qed.
Lemma gives_ret {A} (a : A) st : gives (mret a) st a.
Proof. done. Qed.
Lemma gives_gets {A B} (f : RuntimeState -> A) (k : A -> RtM B) st b : gives (k (f st)) st b -> gives (gets f ≫= k) st b.
Proof. by apply gives_bind. Qed.
Lemma gives_deref {A B} what (o : option A) a (k : A -> RtM B) st b :
  o = Some a -> gives (k a) st b -> gives (deref what o ≫= k) st b.
Proof. intros ->. by apply gives_bind. Qed.
Lemma gives_z3 {A B} call (o : option A) a (k : A -> RtM B) st b :
  o = Some a -> gives (k a) st b -> gives (z3_call call o ≫= k) st b.
Proof. intros ->. by apply gives_bind. Qed.
Lemma gives_type {B} p rt (k : RuntimeType -> RtM B) st b :
  type_heap st !! p = Some rt -> gives (k rt) st b -> gives (the_type p ≫= k) st b.
Proof. intros Hp. apply gives_bind. unfold the_type. apply gives_gets. by rewrite Hp. Qed.
Lemma gives_enum {B} p info (k : EnumInfo -> RtM B) st b :
  enum_heap st !! p = Some info -> gives (k info) st b -> gives (the_enum p ≫= k) st b.
Proof. intros Hp. apply gives_bind. unfold the_enum. apply gives_gets. by rewrite Hp. Qed.
Lemma gives_datatype {B} p info (k : DatatypeInfo -> RtM B) st b :
  datatype_heap st !! p = Some info -> gives (k info) st b -> gives (the_datatype p ≫= k) st b.
Proof. intros Hp. apply gives_bind. unfold the_datatype. apply gives_gets. by rewrite Hp. Qed.
End Run.

Section Spec.
Context `{Z3BuildLaws} {HZ : Z3Laws} (term_to_string : Term -> string) (term_ast_id : Term -> N).
Abbreviation elaborate_expression := (elaborate_expression term_to_string term_ast_id).
Abbreviation completed_expression := (completed_expression term_to_string term_ast_id).

(** The literal values of a type: what a completed model returns. *)
Inductive value_term (st : RuntimeState) : TypePtr -> Term -> Prop :=
| vt_bool b : value_term st bool_type_ (bool_val b)
| vt_int v : live (Numeral v int_sort) -> is_integer v = true -> value_term st int_type_ (Numeral v int_sort)
| vt_enum ep info i t :
    enum_heap st !! ep = Some info -> ei_values info !! i = Some t -> value_term st (ei_type info) t
| vt_datatype dp info i item l :
    datatype_heap st !! dp = Some info -> di_cases info !! i = Some item ->
    Forall2 (value_term st) (dc_field_types item) l -> value_term st (di_type info) (App (dc_constructor item) l)
| vt_tuple p a b ta tb c x y :
    type_heap st !! p = Some (tuple_of a b ta tb c) -> value_term st a x -> value_term st b y ->
    value_term st p (App c [x; y]).

Context (st : RuntimeState) (Hok : runtime_ok st) (Hcapture : capture_source_edges_ st = false).

Lemma gives_completed source p t : gives (completed_expression source p t) st (mkTyped p t).
Proof. unfold Elaborate.completed_expression. apply gives_gets. rewrite Hcapture. by apply gives_gets. Qed.

(** [e] lifts from a value [t] of type [p], and what says the same as [e] elaborates to it. *)
Definition returns (p : TypePtr) (t : Term) (e : Expr) : Prop :=
  printable e = true /\
  forall e', erase e' = erase e -> gives (elaborate_expression ∅ e') st (mkTyped p t).

Definition lifts (t : Term) : Prop := forall p,
  value_term st p t -> exists e, gives (lift_typed_expression t p) st e /\ returns p t e.

(** ** Leaves *)

Lemma erase_leaf k n b i op e' : erase e' = erase (plain_expr k n b i op []) -> kind e' = k /\ elements e' = [].
Proof.
  destruct e' as [k' sp n' b' i' op' es id]. simpl. intros [= -> _ _ _ _ Ees].
  by destruct es.
Qed.

Lemma returns_boolean b : returns bool_type_ (bool_val b) (boolean_expr b).
Proof.
  split; [done|]. intros [k sp n b' i op es id] [= -> _ Eb _ _ _]. subst b'. apply gives_completed.
Qed.

Lemma returns_integer v :
  live (Numeral v int_sort) -> is_integer v = true -> returns int_type_ (Numeral v int_sort) (integer_expr v).
Proof.
  intros Hl Hi. split; [simpl; by rewrite Hi|]. intros [k sp n b i op es id] [= -> _ _ Ei _ _]. subst i. simpl.
  eapply gives_z3; [by apply live_numeral|]. apply gives_completed.
Qed.

Lemma enum_position_value info i t :
  NoDup (ei_values info) -> ei_values info !! i = Some t -> enum_position info t = Some i.
Proof.
  intros Hn Hi. unfold enum_position.
  destruct (list_find (fun v => term_eqb t v = true) (ei_values info)) as [[j v]|] eqn:E.
  - apply list_find_Some in E as (Hj & Ev%term_eqb_spec & _). subst v. simpl. f_equal. by eapply NoDup_lookup.
  - apply list_find_None in E. rewrite Forall_lookup in E. exfalso. apply (E i t Hi), term_eqb_spec. done.
Qed.

Lemma returns_name n e' : erase e' = erase (name_expr n) -> kind e' = EName /\ name e' = n.
Proof. destruct e' as [k sp n' b i op es id]. by intros [= -> -> _ _ _ _]. Qed.

Lemma returns_enum ep info i t n :
  enum_heap st !! ep = Some info -> ei_values info !! i = Some t -> ei_case_names info !! i = Some n ->
  returns (ei_type info) t (name_expr n).
Proof.
  intros He Ht Hn. destruct (ok_enums _ Hok _ _ He) as (_ & _ & _ & _ & _ & _ & _ & _ & Hc). specialize (Hc i n Hn).
  split; [simpl; rewrite (ok_identifiers _ Hok); [done|left; by eexists]|].
  intros [k sp n' b i' op es id] [= -> -> _ _ _ _]. simpl. unfold elaborate_name. simpl.
  apply gives_gets. rewrite Hc. eapply gives_enum; [done|]. eapply gives_deref; [exact Ht|]. apply gives_completed.
Qed.

Lemma lifts_enum ep info i t :
  enum_heap st !! ep = Some info -> ei_values info !! i = Some t ->
  exists e, gives (lift_typed_expression t (ei_type info)) st e /\ returns (ei_type info) t e.
Proof.
  intros He Ht. destruct (ok_enums _ Hok _ _ He) as (rt & Hrt & Hk & Hep & Hlen & _ & _ & Hnd & Hc).
  destruct (lookup_lt_is_Some_2 (ei_case_names info) i) as [n Hn]; [rewrite Hlen; by eapply lookup_lt_Some|].
  exists (name_expr n). split; [|by eapply returns_enum].
  assert (Hlift : gives (lift_typed_enum rt t) st (name_expr n)).
  { unfold lift_typed_enum. eapply gives_deref; [exact Hep|]. eapply gives_enum; [exact He|].
    rewrite (enum_position_value info i t) by done. by eapply gives_deref. }
  destruct t; simpl; (eapply gives_type; [exact Hrt|]); by rewrite Hk.
Qed.

(** ** Constructors and tuples *)

Lemma datatype_position_value dp info i item l :
  datatype_heap st !! dp = Some info -> di_cases info !! i = Some item ->
  datatype_position info (App (dc_constructor item) l) = Some (i, item).
Proof.
  intros Hd Hi. destruct (ok_datatypes _ Hok _ _ Hd) as (_ & _ & _ & _ & _ & [Hnd _] & _).
  unfold datatype_position. apply list_find_Some. split_and!; [done|simpl; by apply bool_decide_eq_true|].
  intros j y Hj Hlt E. simpl in E. apply bool_decide_eq_true in E.
  assert (j = i); [|lia].
  apply (NoDup_lookup _ j i (dc_constructor item) Hnd); rewrite <- list_fmap_compose, list_lookup_fmap; [rewrite Hj|by rewrite Hi].
  simpl. by rewrite E.
Qed.

(** The field loops of lifting and of elaboration. *)
Abbreviation lift_fields := (fix fields (l : list Term) (types : list TypePtr) : RtM (list Expr) :=
  match l, types with
  | x :: l', p :: types' => e ← lift_typed_expression x p; es ← fields l' types'; mret (e :: es)
  | _, _ => mret []
  end).

Abbreviation elaborate_arguments := (fix arguments (callee : Callee) (i : nat) (es : list Expr) (types : list TypePtr) : RtM (list Term) :=
  match es, types with
  | e :: es', p :: types' =>
      argument ← elaborate_expression ∅ e;
      if negb (same (te_type argument) p)
      then t ← the_type p; reject (span e) (callee_mismatch callee i (rt_display t))
      else rest ← arguments callee (S i) es' types'; mret (te_expression argument :: rest)
  | _, _ => mret []
  end).

Lemma lifts_fields ps l :
  Forall lifts l -> Forall2 (value_term st) ps l ->
  exists es, gives (lift_fields l ps) st es /\ forallb printable es = true /\ length es = length l /\
    forall callee i es', List.map erase es' = List.map erase es -> gives (elaborate_arguments callee i es' ps) st l.
Proof.
  intros Hl Hv. induction Hv as [|p t ps l Ht Hv IH].
  { exists []. split_and!; [done..|]. intros callee i [|]; [done|]. by intros [=]. }
  apply Forall_cons in Hl as [Hlt Hl]. destruct (Hlt p Ht) as (e & He & Hp & Hr).
  destruct (IH Hl) as (es & Hes & Hps & Hlen & Hargs). exists (e :: es). split_and!.
  - eapply gives_bind; [exact He|]. eapply gives_bind; [exact Hes|]. done.
  - simpl. by rewrite Hp, Hps.
  - simpl. by rewrite Hlen.
  - intros callee i [|e' es'] E; [done|]. injection E as Ee Ees. eapply gives_bind; [by apply Hr|].
    unfold same. simpl. rewrite Nat.eqb_refl. simpl. eapply gives_bind; [by apply Hargs|]. done.
Qed.

Lemma constructor_name_free dp info i item :
  datatype_heap st !! dp = Some info -> di_cases info !! i = Some item ->
  constructors_ st !! dc_name item = Some (dp, i) /\ cases_ st !! dc_name item = None.
Proof.
  intros Hd Hi. destruct (ok_datatypes _ Hok _ _ Hd) as (rt & _ & _ & _ & _ & _ & Hc).
  destruct (Hc i item Hi) as [Hn _]. split; [done|]. apply eq_None_not_Some. intros Hs.
  by rewrite (ok_disjoint _ Hok) in Hn.
Qed.

(** A literal value has the sort of its type. *)
Lemma value_term_sort p t : value_term st p t -> has_sort st p t.
Proof.
  intros [b|v Hl Hi|ep info i u He Hu|dp info i item l Hd Hi _|q a b ta tb c x y Hq _ _].
  - exists bool_runtime_type. split; [apply Hok|apply sort_bool_val].
  - exists int_runtime_type. split; [apply Hok|apply sort_numeral].
  - destruct (ok_enums _ Hok _ _ He) as (_ & _ & _ & _ & Hlen & _).
    destruct (lookup_lt_is_Some_2 (ei_case_names info) i) as [n Hn]; [rewrite Hlen; by eapply lookup_lt_Some|].
    destruct (enum_value_typed _ _ _ _ _ Hok He Hn) as (d & Hv & Hs & _). congruence.
  - destruct (constructor_typed _ _ _ _ _ Hok Hd Hi) as (rts & rt & _ & Hrt & _ & Hr & _). exists rt.
    split; [done|]. by rewrite sort_app.
  - exists (tuple_of a b ta tb c). split; [done|apply sort_app].
Qed.

Lemma value_terms_sort ps l : Forall2 (value_term st) ps l -> typed_terms st ps l.
Proof. intros Hv. eapply Forall2_impl; [exact Hv|]. apply value_term_sort. Qed.

Lemma erase_named k n es e' : k = EName \/ k = ECall ->
  erase e' = erase (plain_expr k n false "" OpEqual es) ->
  exists sp b i op es' id, e' = mkExpr k sp n b i op es' id /\ List.map erase es' = List.map erase es.
Proof.
  destruct e' as [k' sp n' b i op es' id]. simpl. intros Hk E. assert (k' = k) as -> by congruence.
  exists sp, b, i, op, es', id. injection E as En _ _ _ Ees. split; [|done]. by destruct Hk; subst.
Qed.

Lemma map_erase_length es es' : List.map erase es' = List.map erase es -> length es' = length es.
Proof. intros E. by rewrite <- (length_map erase es'), E, length_map. Qed.

Lemma lifts_datatype dp info i item l :
  datatype_heap st !! dp = Some info -> di_cases info !! i = Some item ->
  Forall lifts l -> Forall2 (value_term st) (dc_field_types item) l ->
  exists e, gives (lift_typed_expression (App (dc_constructor item) l) (di_type info)) st e /\
    returns (di_type info) (App (dc_constructor item) l) e.
Proof.
  intros Hd Hi Hl Hv. destruct (ok_datatypes _ Hok _ _ Hd) as (rt & Hrt & Hk & Hdp & _).
  destruct (constructor_name_free _ _ _ _ Hd Hi) as [Hcon Hcase].
  destruct (lifts_fields _ _ Hl Hv) as (es & Hes & Hps & Hlen & Hargs).
  pose proof (Forall2_length _ _ _ Hv) as Hlv.
  destruct (apply_typed _ _ _ _ _ (constructor_typed _ _ _ _ _ Hok Hd Hi) (value_terms_sort _ _ Hv)) as [Happ _].
  exists (plain_expr (if bool_decide (dc_field_types item = []) then EName else ECall) (dc_name item) false "" OpEqual es).
  split.
  { simpl. eapply gives_type; [exact Hrt|]. rewrite Hk. eapply gives_deref; [exact Hdp|].
    eapply gives_datatype; [exact Hd|]. rewrite (datatype_position_value _ _ _ _ l Hd Hi).
    rewrite Hlv, Nat.eqb_refl. simpl. eapply gives_bind; [exact Hes|]. done. }
  assert (Hid : is_identifier (dc_name item) = true) by (apply (ok_identifiers _ Hok); right; by eexists).
  case_bool_decide as Hn.
  - rewrite Hn in *. destruct l; [|done]. destruct es; [|done]. split; [simpl; by rewrite Hid|].
    intros e' (sp & b & i' & op & es' & id & -> & _)%erase_named; [|by left]. simpl. unfold elaborate_name. simpl. apply gives_gets. rewrite Hcase.
    apply gives_gets. rewrite Hcon. eapply gives_datatype; [exact Hd|]. eapply gives_deref; [exact Hi|].
    rewrite Hn. eapply gives_z3; [exact Happ|]. apply gives_completed.
  - split; [simpl; by rewrite Hid, Hps|].
    intros e' (sp & b & i' & op & es' & id & -> & E)%erase_named; [|by right]. simpl. eapply gives_bind.
    { unfold find_callee. simpl. apply gives_gets. rewrite Hcon. eapply gives_datatype; [exact Hd|].
      eapply gives_deref; [exact Hi|]. done. }
    simpl. rewrite (map_erase_length es es'), Hlen, <- Hlv, Nat.eqb_refl by done. simpl.
    eapply gives_bind; [by apply Hargs|]. eapply gives_z3; [exact Happ|]. apply gives_completed.
Qed.

(** The tuple type of two types that have one is found again. *)
Lemma gives_tuple_type p a b ta tb c sp :
  type_heap st !! p = Some (tuple_of a b ta tb c) -> gives (tuple_type a b sp) st p /\
  (exists ra rb, type_heap st !! a = Some ra /\ type_heap st !! b = Some rb /\ decl_domain c = [rt_sort ra; rt_sort rb]).
Proof.
  intros Hp. pose proof (ok_types _ Hok _ _ Hp) as Hwf.
  inversion Hwf as [| | | |a' b' ta' tb' c' key (Ha & Ka & _) (Hb & Kb & _) Ek Hd Hi Hc Er|]; subst.
  split; [|by exists ta', tb']. unfold tuple_type. eapply gives_type; [exact Ha|]. eapply gives_type; [exact Hb|].
  rewrite !bool_decide_eq_false_2 by done. cbn [orb]. apply gives_gets.
  change ("(" +:+ _) with (pair_display (rt_display ta') (rt_display tb')). by rewrite <- Ek, Hc.
Qed.

Lemma lifts_tuple p a b ta tb c x y :
  type_heap st !! p = Some (tuple_of a b ta tb c) -> Forall lifts [x; y] -> value_term st a x -> value_term st b y ->
  exists e, gives (lift_typed_expression (App c [x; y]) p) st e /\ returns p (App c [x; y]) e.
Proof.
  intros Hp Hl Hx Hy. apply Forall_cons in Hl as [Lx Hl]. apply Forall_cons in Hl as [Ly _].
  destruct (Lx a Hx) as (ex & Ex & Px & Rx), (Ly b Hy) as (ey & Ey & Py & Ry).
  exists (plain_expr ETuple "" false "" OpEqual [ex; ey]). split.
  { simpl. eapply gives_type; [exact Hp|]. cbn [tuple_of rt_kind]. eapply gives_deref; [done|].
    rewrite bool_decide_eq_true_2 by done. cbn [negb]. eapply gives_deref; [done|]. eapply gives_deref; [done|]. eapply gives_bind; [exact Ex|].
    eapply gives_bind; [exact Ey|]. done. }
  split; [simpl; by rewrite Px, Py|].
  intros [k sp n b' i op es id] E. injection E as -> _ _ _ _ Ees.
  destruct es as [|e1 [|e2 [|]]]; try done. injection Ees as E1 E2. simpl.
  destruct (gives_tuple_type p a b ta tb c sp Hp) as (Ht & ra & rb & Ha & Hb & Hd).
  eapply gives_bind; [by apply Rx|]. eapply gives_bind; [by apply Ry|]. eapply gives_bind; [exact Ht|].
  eapply gives_type; [exact Hp|]. eapply gives_deref; [done|]. eapply gives_z3; [|apply gives_completed].
  apply mk_app_typed. rewrite Hd. simpl.
  destruct (value_term_sort _ _ Hx) as (rx & Hrx & ->), (value_term_sort _ _ Hy) as (ry & Hry & ->). congruence.
Qed.

(** ** Every value *)

Lemma lifts_boolean b :
  exists e, gives (lift_typed_expression (bool_val b) bool_type_) st e /\ returns bool_type_ (bool_val b) e.
Proof.
  exists (boolean_expr b). split; [|apply returns_boolean].
  assert (Hl : gives (lift_typed_boolean (bool_val b)) st (boolean_expr b)).
  { unfold lift_typed_boolean. rewrite is_true_bool_val, is_false_bool_val. by destruct b. }
  destruct (bool_val b); (eapply gives_type; [apply Hok|]); exact Hl.
Qed.

Lemma lifts_step p t :
  (forall d l, t = App d l -> Forall lifts l) -> value_term st p t ->
  exists e, gives (lift_typed_expression t p) st e /\ returns p t e.
Proof.
  intros Hsub Hv. revert Hsub.
  destruct Hv as [b|v Hl Hi|ep info i u He Hu|dp info i item l Hd Hi Hv|q a b ta tb c x y Hq Hx Hy]; intros Hsub.
  - apply lifts_boolean.
  - exists (integer_expr v). split; [|by apply returns_integer].
    simpl. eapply gives_type; [apply Hok|]. apply gives_ret.
  - by eapply lifts_enum.
  - eapply lifts_datatype; [done|done|eapply Hsub; reflexivity|done].
  - eapply lifts_tuple; [done|eapply Hsub; reflexivity|done|done].
Qed.

Lemma lifts_all t : lifts t.
Proof.
  induction t as [v s|d l IH|i s|] using Term_nested_ind; intros p Hv; apply lifts_step; try done.
  by intros d' l' [= _ <-].
Qed.

(** C23. A value of a model comes back as the source the user can paste: on a
    well-formed runtime that is not recording, [lift_typed_expression] turns
    every literal value of a type (Booleans, integers, enum cases, datatype
    constructors with their fields, tuples, nested) into an expression whose
    printed text parses, and elaborating what the parser read, in no environment,
    returns the identical term at the identical type pointer. *)
Theorem counterexample_round_trip p t (Hv : value_term st p t) :
  exists e e', lift_typed_expression t p st = (Ok e, st) /\ parse_expression (print_expression e) = Ok e' /\
    elaborate_expression ∅ e' st = (Ok (mkTyped p t), st).
Proof.
  destruct (lifts_all t p Hv) as (e & He & Hp & Hr). destruct (read_back e) as (e' & Hparse & E).
  { by rewrite Hp. }
  exists e, e'. split_and!; [exact He|exact Hparse|by apply Hr].
Qed.
End Spec.
