(* ===== verification/CheckRefuted.v ===== *)
(** * A refuted check returns its counterexample

    Lifting, printing, parsing and elaborating the values of a model never
    fails: the checks [execute_check] makes on its own witness hold. *)

From stdpp Require Import gmap.
From S2P Require Import Prelude Format Syntax Lexer Printer LexerSpec Parser ParserSpec PrintParse WitnessParse Source Z3Ast Z3Solver Z3Build Z3Check Z3Fixedpoint Lift Recorder Observers Runtime Elaborate Declare Values Check RuntimeSpec ElaborateSpec DeclareSpec ValuesSpec.
From Stdlib Require Import NArith.

Section Refuted.
Context `{Z3BuildLaws} {HZ : Z3Laws} {HS : Z3Solver} (term_to_string : Term -> string) (term_ast_id : Term -> N).
Context (st : RuntimeState) (Hok : runtime_ok st) (Hcapture : capture_source_edges_ st = false)
  (Hquiet : rainfall_ st = None).

Lemma gives_rain {A} (m : RecM A) : gives (rain m) st tt.
Proof. unfold gives, rain. by rewrite Hquiet. Qed.

(** ** Displays are read as the types they display *)

Definition resolves (p : TypePtr) (t : Type_) : Prop := gives (resolve_type t) st p.

Lemma named_display p rt : named st p rt -> type_text (rt_display rt) (resolves p).
Proof.
  intros [Hn Hi]. apply named_text; [by rewrite Hi|]. intros sp. unfold resolves. simpl. apply gives_gets. by rewrite Hn.
Qed.

Lemma display_text n p rt :
  String.length (rt_display rt) < n -> type_heap st !! p = Some rt -> rt_kind rt <> KTable ->
  type_text (rt_display rt) (resolves p).
Proof.
  revert p rt. induction n as [|n IH]; intros p rt Hn Hp Hk; [lia|]. pose proof (ok_types _ Hok _ _ Hp) as Hwf.
  destruct Hwf as [| | | |a b ta tb c key (Ha & Ka & _) (Hb & Kb & _) Ekey Hd Hi Hc|]; try done; try by apply named_display.
  simpl in *. subst key. unfold pair_display in *. rewrite ?length_append in Hn. simpl in Hn. rewrite ?length_append in Hn. simpl in Hn.
  eapply pair_text; [apply (IH a ta); [lia|done|done]|apply (IH b tb); [lia|done|done]|].
  intros sp x y Hx Hy. unfold resolves. simpl. eapply gives_bind; [exact Hx|]. eapply gives_bind; [exact Hy|].
  by eapply (gives_tuple_type st Hok p a b ta tb c).
Qed.

(** ** The values of the parameters *)

Lemma value_term_type p t : value_term st p t -> exists rt, type_heap st !! p = Some rt /\ rt_kind rt <> KTable.
Proof.
  intros [b|v _ _|ep info i u He _|dp info i item l Hd _ _|q a b ta tb c x y Hq _ _].
  - exists bool_runtime_type. split; [apply Hok|done].
  - exists int_runtime_type. split; [apply Hok|done].
  - destruct (ok_enums _ Hok _ _ He) as (rt & Hrt & Hk & _). exists rt. split; [done|]. by rewrite Hk.
  - destruct (ok_datatypes _ Hok _ _ Hd) as (rt & Hrt & Hk & _). exists rt. split; [done|]. by rewrite Hk.
  - by exists (tuple_of a b ta tb c).
Qed.

(** A parameter with its type and the source of its value. *)
Abbreviation Item := (CheckParameter * RuntimeType * Expr)%type.
Definition name_of (x : Item) : string := cp_name x.1.1.
Definition display_of (x : Item) : string := rt_display x.1.2.
Definition source_of (x : Item) : Expr := x.2.
Definition type_of (x : Item) : Type_ -> Prop := resolves (cp_type x.1.1).

Definition item_value (m : Model) (x : Item) : Prop :=
  gives (lift_typed_expression (model_eval m (cp_term x.1.1)) (cp_type x.1.1)) st x.2 /\
  returns term_to_string term_ast_id st (cp_type x.1.1) (model_eval m (cp_term x.1.1)) x.2 /\
  type_heap st !! cp_type x.1.1 = Some x.1.2 /\ rt_kind x.1.2 <> KTable.

Lemma gives_assignments d m l :
  Forall (item_value m) l ->
  gives (assignments term_to_string term_ast_id d m (l.*1.*1)) st
    ((fun p => model_eval m (cp_term p)) <$> l.*1.*1, items_text name_of display_of source_of l).
Proof.
  induction 1 as [|[[p rt] e] l (Hl & _ & Ht & _) _ IH]; simpl; [done|]. simpl in *.
  eapply gives_bind; [exact Hl|]. eapply gives_type; [exact Ht|]. eapply gives_bind; [apply gives_rain|].
  eapply gives_bind; [exact IH|]. done.
Qed.

Lemma parameter_items m ps :
  Forall (fun p => value_term st (cp_type p) (model_eval m (cp_term p))) ps ->
  exists l, l.*1.*1 = ps /\ Forall (item_value m) l.
Proof.
  induction 1 as [|p ps Hp _ (l & <- & Hl)]; [by exists []|].
  destruct (lifts_all term_to_string term_ast_id st Hok Hcapture _ _ Hp) as (e & He & Hr).
  destruct (value_term_type _ _ Hp) as (rt & Hrt & Hk). exists ((p, rt, e) :: l). split; [done|]. by constructor.
Qed.

Lemma gives_check_entries m l entries :
  Forall (item_value m) l -> Forall2 (entry_of name_of source_of type_of) l entries ->
  gives (check_entries term_to_string term_ast_id l.*1.*1 entries ((fun p => model_eval m (cp_term p)) <$> l.*1.*1)) st tt.
Proof.
  intros Hl He. induction He as [|x c l entries (En & Ht & Ev) _ IH]; [done|]. apply Forall_cons in Hl as [Hx Hl].
  destruct Hx as (_ & (_ & Hr) & _ & _). destruct x as [[p rt] e]. simpl in *. unfold name_of in En. simpl in En.
  rewrite En, String.eqb_refl. simpl. eapply gives_bind; [exact Ht|]. eapply gives_bind; [by apply Hr|].
  unfold same. simpl. rewrite !Nat.eqb_refl. rewrite (proj2 (term_eqb_spec _ _) eq_refl). simpl. by apply IH.
Qed.

(** The witness of a refuted check: what its text parses to. *)
Definition witness_of (d : CheckDecl) (ps : list CheckParameter) (m : Model) (source : string) : Prop :=
  exists document item witness, parse source = Ok document /\ declarations document = [item] /\
    declaration item = DCounterexample witness /\ counterexample_name witness = check_name d /\
    Forall2 (fun p c => cex_entry_name c = cp_name p /\ resolve_type (cex_entry_type c) st = (Ok (cp_type p), st) /\
      elaborate_expression term_to_string term_ast_id ∅ (cex_entry_value c) st =
        (Ok (mkTyped (cp_type p) (model_eval m (cp_term p))), st)) ps (counterexample_entries witness).

Lemma refuted_gives d ps m :
  is_identifier (check_name d) = true -> Forall (fun p => is_identifier (cp_name p) = true) ps ->
  Forall (fun p => value_term st (cp_type p) (model_eval m (cp_term p))) ps ->
  exists source, refuted term_to_string term_ast_id d ps m st =
    (Ok (if check_reusable d then 1 else 0, refuted_text d source), st) /\ witness_of d ps m source.
Proof.
  intros Hn Hids Hv. destruct (parameter_items m ps Hv) as (l & <- & Hl).
  set (source := counterexample_text name_of display_of source_of (check_name d) l).
  destruct (read_counterexample name_of display_of source_of type_of (check_name d) l) as (doc & item & w & Hp & Hd & Hi & Hw & He).
  { by rewrite Hn. }
  { apply Forall_forall. intros [[p rt] e] Hx. rewrite Forall_forall in Hl. destruct (Hl _ Hx) as (_ & (Hpr & _) & Ht & Hk).
    split_and!; simpl; [|by eapply display_text; [apply Nat.lt_succ_diag_r|..]|by apply Is_true_true].
    rewrite Forall_forall in Hids. unfold name_of. simpl. rewrite Hids; [done|].
    apply list_elem_of_fmap. exists (p, rt). split; [done|]. apply list_elem_of_fmap. by exists (p, rt, e). }
  exists source. split.
  - assert (Hlen : length (counterexample_entries w) = length l.*1.*1).
    { rewrite !length_fmap. symmetry. by eapply Forall2_length. }
    change (gives (refuted term_to_string term_ast_id d l.*1.*1 m) st
      (if check_reusable d then 1 else 0, refuted_text d source)). unfold refuted.
    eapply gives_bind; [by apply gives_assignments|]. cbn beta iota.
    change (witness_text _ _) with source. eapply gives_bind.
    { unfold parse_witness. change source with (counterexample_text name_of display_of source_of (check_name d) l).
      rewrite Hp. apply gives_ret. }
    rewrite Hd, Hi, Hw, String.eqb_refl, Hlen, Nat.eqb_refl. simpl.
    eapply gives_bind; [by apply gives_check_entries|]. eapply gives_bind; [apply gives_rain|]. done.
  - exists doc, item, w. split_and!; [done..|]. clear -Hl He. induction He as [|x c l entries (En & Ht & Ev) _ IH]; [constructor|].
    apply Forall_cons in Hl as [(_ & (_ & Hr) & _ & _) Hl]. constructor; [|by apply IH]. split_and!; [done|exact Ht|by apply Hr].
Qed.

(** C11. A refuted check returns its counterexample: on a well-formed runtime
    that records nothing, when the solver's model gives every parameter a literal
    value of its type, [refuted] always succeeds (none of its internal checks can
    fail), changes no state, and the `counterexample` text it prints parses to one
    declaration, named after the check, with one entry per parameter in order,
    each resolving to the parameter's type and elaborating to the model's term. *)
Theorem refuted_reports (d : CheckDecl) (ps : list CheckParameter) (m : Model) :
  is_identifier (check_name d) = true -> Forall (fun p => is_identifier (cp_name p) = true) ps ->
  Forall (fun p => value_term st (cp_type p) (model_eval m (cp_term p))) ps ->
  exists source, refuted term_to_string term_ast_id d ps m st =
    (Ok (if check_reusable d then 1 else 0, refuted_text d source), st) /\ witness_of d ps m source.
Proof. apply refuted_gives. Qed.
End Refuted.
