(* ===== verification/BisimulationSpec.v ===== *)
(** * A solved bisimulation is one

    [bisimulation] is the abstract contract: related states have the same
    label and answer each other's steps, so that they have the same labelled
    runs ([bisimulation_runs]).  The table [execute_bisimulation] prints is
    such a relation between the two systems the tables describe, and relates
    the initial pair: the four clauses say so of the model's relation, and
    reading it cell by cell into a table with default [false] loses nothing,
    because an enumeration has only its cases. *)

From stdpp Require Import gmap.
From S2P Require Import Prelude Format Syntax Lexer Printer Parser ParserSpec Source Z3Ast Z3Solver Z3Build Z3Check Z3Model Z3Fixedpoint Lift Recorder Observers Runtime Elaborate Declare Values Check Bisimulation RuntimeSpec ElaborateSpec DeclareSpec EnumSpec FunctionSpec CheckSpec CheckSound PredicateSpec LayerSpec InductionSpec.
From Stdlib Require Import NArith.

(** ** Bisimulations *)

Section Abstract.
Context {A B : Type} (step_left : A -> A -> Prop) (step_right : B -> B -> Prop) (agree : A -> B -> Prop).

Record bisimulation (R : A -> B -> Prop) : Prop := {
  bisim_labels a b : R a b -> agree a b;
  bisim_left a b a' : R a b -> step_left a a' -> exists b', step_right b b' /\ R a' b';
  bisim_right a b b' : R a b -> step_right b b' -> exists a', step_left a a' /\ R a' b'
}.

(** The states a run visits after its first. *)
Fixpoint run {X} (step : X -> X -> Prop) (x : X) (l : list X) : Prop :=
  match l with [] => True | y :: l' => step x y /\ run step y l' end.

Lemma bisimulation_runs R a b l :
  bisimulation R -> R a b -> run step_left a l -> exists l', run step_right b l' /\ Forall2 agree (a :: l) (b :: l').
Proof.
  intros HR. revert a b. induction l as [|a' l IH]; intros a b Hab Hrun.
  { exists []. split; [done|]. constructor; [by apply HR|constructor]. }
  destruct Hrun as [Hstep Hrun]. destruct (bisim_left _ HR _ _ _ Hab Hstep) as (b' & Hb & Hab').
  destruct (IH a' b' Hab' Hrun) as (l' & Hl & Hall). exists (b' :: l'). split; [done|]. constructor; [by apply HR|done].
Qed.
End Abstract.

Lemma bisimulation_converse {A B} (step_left : A -> A -> Prop) (step_right : B -> B -> Prop) agree R :
  bisimulation step_left step_right agree R -> bisimulation step_right step_left (flip agree) (flip R).
Proof.
  intros HR. split; unfold flip; intros b a; [apply HR|intros b'..]; intros Hab Hs.
  - by apply (bisim_right _ _ _ _ HR _ _ _ Hab Hs).
  - by apply (bisim_left _ _ _ _ HR _ _ _ Hab Hs).
Qed.

(** ** Commands that change only the recording *)

Section Recording.
Context `{Z3Build} {HS : Z3Solver} {HC : Z3Check} (term_to_string : Term -> string) (term_ast_id : Term -> N).

Lemma rains_recorded {A} (a : A) (m : RecM A) : rains (recorded a m).
Proof.
  intros st. unfold recorded. destruct (rainfall_ st) as [r|]; [|apply rained_refl]. destruct (m r) as [[x|e|] r']; by eexists.
Qed.
Lemma rains_enum p : rains (the_enum p).
Proof. unfold the_enum. rains. Qed.
Lemma rains_datatype p : rains (the_datatype p).
Proof. unfold the_datatype. rains. Qed.
Hint Resolve rains_recorded rains_enum rains_datatype : rains.
Lemma rains_constructor_at e rt : rains (constructor_at e rt).
Proof. unfold constructor_at. rains. Qed.
Lemma rains_enum_value_at e rt : rains (enum_value_at e rt).
Proof. unfold enum_value_at. rains. Qed.
Hint Resolve rains_constructor_at rains_enum_value_at : rains.

Lemma rains_value e p : rains (value e p).
Proof.
  revert p. induction e as [k sp n b i op es id IH] using Expr_nested_ind. intros p.
  assert (Hes : forall types, rains ((fix values (es : list Expr) (types : list TypePtr) : RtM (list Term) :=
      match es, types with
      | e :: es', p :: types' => v ← value e p; rest ← values es' types'; mret (v :: rest)
      | _, _ => mret []
      end) es types)).
  { induction IH; intros [|q types]; rains. }
  simpl. apply rains_bind; [rains|intros rt]. destruct k; try solve [rains].
  case_match; [rains|]. destruct es as [|x [|y [|]]]; try solve [rains].
  apply Forall_cons in IH as [Hx [Hy _]%Forall_cons]. rains.
Qed.
Lemma rains_entries p q entries keys acc : rains (table_entries_value p q entries keys acc).
Proof. pose proof rains_value. revert keys acc. induction entries; intros keys acc; simpl; rains. Qed.
Lemma rains_table_value rt l : rains (table_value rt l).
Proof. pose proof rains_value. pose proof rains_entries. unfold table_value. rains. Qed.

Lemma rains_lift_value t p : rains (lift_value t p).
Proof.
  revert p. induction t as [v s|d l IH|i s|k w q s bs ps ns b _ _ _] using Term_nested_ind; intros p; simpl;
    unfold lift_boolean, lift_enum; try solve [rains].
  assert (Hl : forall types, rains ((fix fields (l : list Term) (types : list TypePtr) : RtM (list SurfaceValue) :=
      match l with
      | [] => mret []
      | x :: l' =>
          match types with
          | p :: types' => v ← lift_value x p; vs ← fields l' types'; mret (v :: vs)
          | [] => deref "field type" None
          end
      end) l types)).
  { induction IH; intros [|q types]; rains. }
  apply rains_bind; [rains|intros rt]. destruct (rt_kind rt); try solve [rains].
  apply rains_bind; [rains|intros c]. destruct l as [|x [|y [|]]]; try solve [rains].
  apply Forall_cons in IH as [Hx [Hy _]%Forall_cons]. rains.
Qed.
Lemma rains_lift_into rt p q t : rains (lift_table_into rt p q t).
Proof.
  pose proof rains_lift_value. induction t as [v s|d l IH|i s|k w r s bs ps ns b _ _ _] using Term_nested_ind; simpl; try solve [rains].
  case_match; [rains|]. destruct (decl_kind d), l as [|x [|y [|z l]]]; try solve [rains].
  apply Forall_cons in IH as [Hx _]. rains.
Qed.
Lemma rains_print_value v : rains (print_value v).
Proof.
  revert v. fix IH 1. intros [k b e i es d].
  assert (Hes : rains ((fix elements (l : list SurfaceValue) : RtM (list string) :=
      match l with
      | [] => mret []
      | x :: l' => s ← print_value x; ss ← elements l'; mret (s :: ss)
      end) es)).
  { induction es as [|x es IHes]; [rains|]. apply rains_bind; [apply IH|intros ?]. rains. }
  clear IH. destruct k; simpl; rains.
Qed.
Lemma rains_print_entries l : rains (print_entries l).
Proof. pose proof rains_print_value. induction l; simpl; rains. Qed.
Hint Resolve rains_value rains_table_value rains_lift_value rains_lift_into rains_print_value
  rains_print_entries : rains.

Lemma rains_collect l m : rains (collect_takes l m).
Proof. revert m. induction l; intros m; simpl; rains. Qed.
Lemma rains_observe o l : rains (observe_all term_to_string term_ast_id o l).
Proof. induction l as [|x l IH]; simpl; [rains|]. apply rains_bind; [destruct x; simpl; rains|intros ?; exact IH]. Qed.
Lemma rains_clauses p l s : rains (assert_clauses term_to_string term_ast_id p l s).
Proof. revert s. induction l as [|[role t] l IH]; intros s; simpl; rains. Qed.
Lemma rains_cells p c m l acc : rains (read_cells term_to_string term_ast_id p c m l acc).
Proof. revert acc. induction l as [|[a b] l IH]; intros acc; simpl; unfold read_cell; rains. Qed.
Lemma rains_parse source : rains (parse_witness source).
Proof. intros st. unfold parse_witness. destruct (parse source); apply rained_refl. Qed.
Hint Resolve rains_parse rains_collect rains_observe rains_clauses rains_cells : rains.

End Recording.
#[export] Hint Resolve rains_recorded rains_value rains_table_value rains_lift_value rains_lift_into rains_print_value
  rains_print_entries rains_parse rains_collect rains_observe rains_clauses rains_cells : rains.

(** ** Tables *)

Section Tables.
Context `{HD : Z3Data} {HA : Z3Api} {HX : Z3Exprs} {HB : Z3Build} {HBL : Z3BuildLaws} {HM : Z3Meaning}
  {HML : Z3MeaningLaws} {HBM : Z3BuildMeaning} {HT : Z3TableMeaning} {HS : Z3Solver} {HSL : Z3SolverLaws}
  {HMM : Z3ModelLaws} {HC : Z3Check} {HCL : Z3CheckLaws}.
Context (term_to_string : Term -> string) (term_ast_id : Term -> N).

(** The constructor of the pairs a table is indexed by. *)
Definition pair_of (st : RuntimeState) (b : Binding) : option Decl :=
  t ← type_heap st !! b_type b; p ← rt_arguments t !! 0; d ← type_heap st !! p; rt_tuple_constructor d.

(** Pairs of values of two sorts. *)
Definition pairs_sorts (st : RuntimeState) (b : Binding) (s s' : Sort) : Prop :=
  exists c, pair_of st b = Some c /\ decl_domain c = [s; s'] /\ interpreted c.

(** A table is true at a pair. *)
Definition true_at (w : World) (e : Env) (t : Term) (c : Decl) (a b : Value) : Prop :=
  vselect (eval w e t) (apply_decl w c [a; b]) = vbool true.

Lemma select_pair_yields b x y st s s' c :
  pair_of st b = Some c -> decl_domain c = [s; s'] -> interpreted c -> get_sort x = s -> get_sort y = s' ->
  yields (select_pair b x y) st (fun t st' => st' = st /\
    forall w e, holds w e t <-> true_at w e (b_value b) c (eval w e x) (eval w e y)).
Proof.
  intros Hc Hd Hi Hx Hy. unfold select_pair, domain_of, pair_of in *.
  intros t st' (p & st1 & (rt & st2 & [Hrt ->]%the_type_Ok & [Hp ->]%deref_Ok)%bind_Ok & E)%bind_Ok.
  rewrite Hrt in Hc. simpl in Hc. rewrite Hp in Hc. simpl in Hc. apply bind_Ok in E as (d & st3 & [Hdt ->]%the_type_Ok & E).
  rewrite Hdt in Hc. simpl in Hc. apply bind_Ok in E as (c' & st4 & [Hc' ->]%deref_Ok & E). rewrite Hc in Hc'. injection Hc' as <-.
  apply bind_Ok in E as (k & st5 & [Hk ->]%z3_call_Ok & [Ht ->]%z3_call_Ok). split; [done|]. intros w e.
  rewrite mk_app_typed in Hk by (simpl; congruence). injection Hk as <-. unfold holds, true_at.
  by rewrite (eval_select _ _ _ _ _ Ht), eval_app by done.
Qed.

(** ** The problem *)

Definition bound_in (st : RuntimeState) (b : Binding) : Prop := exists n, bindings_ st !! n = Some b.

(** The sort of an enumeration of the runtime. *)
Definition state_sort (st : RuntimeState) (p : TypePtr) (s : Sort) : Prop :=
  exists rt, type_heap st !! p = Some rt /\ rt_kind rt = KEnumeration /\ rt_sort rt = s.

(** A case of an enumeration. *)
Definition case_of (st : RuntimeState) (p : TypePtr) (x : Term) : Prop :=
  exists rt ep info, type_heap st !! p = Some rt /\ rt_enumeration rt = Some ep /\ enum_heap st !! ep = Some info /\ x ∈ ei_values info.

Record problem_ok (st : RuntimeState) (p : Problem) : Prop := {
  po_bound : Forall (bound_in st) [bp_relation p; bp_left_step p; bp_right_step p; bp_left_label p; bp_right_label p];
  po_sorts : exists sl sr, state_sort st (bp_left p) sl /\ state_sort st (bp_right p) sr /\
    pairs_sorts st (bp_relation p) sl sr /\ pairs_sorts st (bp_left_step p) sl sl /\ pairs_sorts st (bp_right_step p) sr sr;
  po_domain : exists d, type_heap st !! bp_domain p = Some d /\ rt_tuple_constructor d = pair_of st (bp_relation p);
  po_initial : exists c x y, pair_of st (bp_relation p) = Some c /\ mk_app c [x; y] = Some (bp_initial p) /\
    case_of st (bp_left p) x /\ case_of st (bp_right p) y
}.

Lemma binding_Ok e role st b st' : binding e role st = (Ok b, st') -> bound_in st b /\ st' = st.
Proof.
  unfold binding. destruct (negb _); [done|]. intros (bs & st1 & [= <- <-] & E)%bind_Ok.
  destruct (bindings_ st !! name e) eqn:Eb; [|done]. injection E as <- <-. split; [by eexists|done].
Qed.

Lemma expect_bool_range_Ok b sp role st u st' : expect_bool_range b sp role st = (Ok u, st') -> st' = st.
Proof.
  intros (t & st1 & (t' & st2 & [_ ->]%the_type_Ok & E1)%bind_Ok & E)%bind_Ok. destruct (negb _); [done|]. injection E1 as _ ->.
  apply bind_Ok in E as (r & st3 & [_ ->]%deref_Ok & E). apply bind_Ok in E as (rt & st4 & [_ ->]%the_type_Ok & E).
  destruct (negb _); [done|]. by injection E.
Qed.

Lemma domain_of_Ok b st p st' :
  domain_of b st = (Ok p, st') -> st' = st /\ exists t, type_heap st !! b_type b = Some t /\ rt_arguments t !! 0 = Some p.
Proof. intros (t & st1 & [Ht ->]%the_type_Ok & [Hp ->]%deref_Ok)%bind_Ok. split; [done|by exists t]. Qed.

(** The domain of a table that is a tuple gives its pairs. *)
Lemma pairs_of_domain st b t p d a a' ta ta' :
  runtime_ok st -> type_heap st !! b_type b = Some t -> rt_arguments t !! 0 = Some p -> type_heap st !! p = Some d ->
  rt_kind d = KTuple -> rt_arguments d !! 0 = Some a -> rt_arguments d !! 1 = Some a' ->
  type_heap st !! a = Some ta -> type_heap st !! a' = Some ta' ->
  pairs_sorts st b (rt_sort ta) (rt_sort ta') /\ rt_tuple_constructor d = pair_of st b.
Proof.
  intros Hok Ht Hp Hd Hk H0 H1 Ha Ha'.
  destruct (tuple_type_parts _ _ _ Hok Hd Hk) as (x & y & tx & ty & c & -> & (Hx & _) & (Hy & _) & Hdom & Hi).
  simpl in H0, H1. simplify_eq. unfold pairs_sorts, pair_of. rewrite Ht. simpl. rewrite Hp. simpl. rewrite Hd. simpl.
  split; [|done]. by exists c.
Qed.

Lemma validate_step_Ok b state sp role st u st' rt :
  runtime_ok st -> type_heap st !! state = Some rt -> validate_step b state sp role st = (Ok u, st') ->
  st' = st /\ pairs_sorts st b (rt_sort rt) (rt_sort rt).
Proof.
  intros Hok Hrt (v & st1 & ->%expect_bool_range_Ok & E)%bind_Ok. apply bind_Ok in E as (p & st1 & [-> (t & Ht & Hp)]%domain_of_Ok & E).
  apply bind_Ok in E as (d & st1 & [Hd ->]%the_type_Ok & E). destruct (is_pair_of d state) eqn:Ep; simpl in E.
  2:{ by apply bind_Ok in E as (s & st1 & _ & E). }
  injection E as _ <-. split; [done|]. apply andb_true_iff in Ep as [Hk%bool_decide_eq_true Ep].
  destruct (rt_arguments d) as [|a [|a' l]] eqn:Ea; try done.
  apply andb_true_iff in Ep as [E1%Nat.eqb_eq E2%Nat.eqb_eq]. subst a a'.
  eapply (pairs_of_domain st b t p d); [done..|by rewrite Ea|by rewrite Ea|done|done].
Qed.

Lemma validate_label_Ok b state sp role st u st' : validate_label b state sp role st = (Ok u, st') -> st' = st.
Proof.
  intros (v & st1 & ->%expect_bool_range_Ok & E)%bind_Ok. apply bind_Ok in E as (p & st1 & [-> _]%domain_of_Ok & E).
  destruct (negb _); [by apply bind_Ok in E as (s & st1 & _ & E)|]. by injection E.
Qed.

Lemma collect_takes_Ok l m st r st' : collect_takes l m st = (Ok r, st') -> st' = st.
Proof.
  revert m. induction l as [|a l IH]; intros m; simpl; [by intros [= _ <-]|]. destruct (m !! _); [done|]. apply IH.
Qed.

Lemma take_map_Ok solve st r st' : take_map solve st = (Ok r, st') -> st' = st.
Proof.
  intros (m & st1 & ->%collect_takes_Ok & E)%bind_Ok. destruct (Bisimulation.least _); [done|]. destruct (filter _ _); [|done]. by injection E.
Qed.

(** A literal of an enumeration is one of its cases, a literal pair of enumerations a pair of cases. *)
Lemma value_case e p rt st t st' :
  type_heap st !! p = Some rt -> rt_kind rt = KEnumeration -> value e p st = (Ok t, st') -> case_of st p t /\ st' = st.
Proof.
  intros Hp Hk E. destruct e as [k sp n b i op es id]. simpl in E. apply bind_Ok in E as (rt' & s & [Hrt ->]%the_type_Ok & E).
  rewrite Hp in Hrt. injection Hrt as <-. rewrite Hk in E. destruct k; try done. simpl in E. unfold enum_value_at in E. rewrite Hk in E. simpl in E.
  apply bind_Ok in E as (cs & s & [= <- <-] & E). destruct (cases_ st !! n) as [[ep j]|]; [|done].
  apply bind_Ok in E as (info & s & (o & s2 & [= <- <-] & [Hi ->]%deref_Ok)%bind_Ok & E).
  destruct (bool_decide_reflect (rt_enumeration rt = Some ep)) as [Hep|]; [|done]. apply deref_Ok in E as [Ht ->]. split; [|done].
  exists rt, ep, info. split_and!; [done..|]. by eapply list_elem_of_lookup_2.
Qed.

Lemma value_pair e p d c lt rt l r st t st' :
  type_heap st !! p = Some d -> rt_kind d = KTuple -> rt_tuple_constructor d = Some c ->
  rt_arguments d !! 0 = Some lt -> rt_arguments d !! 1 = Some rt ->
  type_heap st !! lt = Some l -> rt_kind l = KEnumeration -> type_heap st !! rt = Some r -> rt_kind r = KEnumeration ->
  value e p st = (Ok t, st') -> st' = st /\ exists x y, mk_app c [x; y] = Some t /\ case_of st lt x /\ case_of st rt y.
Proof.
  intros Hp Hk Hc H0 H1 Hl Hkl Hr Hkr E. destruct e as [k sp n b i op es id]. simpl in E.
  apply bind_Ok in E as (d' & s & [Hd ->]%the_type_Ok & E). rewrite Hp in Hd. injection Hd as <-. rewrite Hk in E. destruct k; try done.
  { simpl in E. unfold enum_value_at in E. by rewrite Hk in E. }
  simpl in E. destruct es as [|ea [|eb [|]]]; try done. apply bind_Ok in E as (pa & s & [Ha ->]%deref_Ok & E).
  apply bind_Ok in E as (pb & s & [Hb ->]%deref_Ok & E). rewrite H0 in Ha. rewrite H1 in Hb. injection Ha as <-. injection Hb as <-.
  apply bind_Ok in E as (x & s & [Hx ->]%(value_case _ _ _ _ _ _ Hl Hkl) & E).
  apply bind_Ok in E as (y & s & [Hy ->]%(value_case _ _ _ _ _ _ Hr Hkr) & E).
  apply bind_Ok in E as (c' & s & [Hc' ->]%deref_Ok & [Ht ->]%z3_call_Ok). rewrite Hc in Hc'. injection Hc' as <-.
  split; [done|]. by exists x, y.
Qed.

Lemma tuple_constructor st p d : runtime_ok st -> type_heap st !! p = Some d -> rt_kind d = KTuple -> is_Some (rt_tuple_constructor d).
Proof. intros Hok Hd Hk. destruct (tuple_type_parts _ _ _ Hok Hd Hk) as (x & y & tx & ty & c & -> & _). by eexists. Qed.

Lemma input_Ok inputs n st e st' : input inputs n st = (Ok e, st') -> inputs !! n = Some e /\ st' = st.
Proof. apply deref_Ok. Qed.

Lemma read_problem_yields solve id st :
  runtime_ok st ->
  yields (read_problem solve id) st (fun p st' => st' = st /\ problem_ok st p).
Proof.
  intros Hok p st' E. unfold read_problem in E. destruct (negb _); [done|]. apply bind_Ok in E as (inputs & st1 & ->%take_map_Ok & E).
  apply bind_Ok in E as (re & s & [_ ->]%input_Ok & E). apply bind_Ok in E as (rel & s & [Hrel ->]%binding_Ok & E).
  apply bind_Ok in E as (lse & s & [_ ->]%input_Ok & E). apply bind_Ok in E as (ls & s & [Hls ->]%binding_Ok & E).
  apply bind_Ok in E as (rse & s & [_ ->]%input_Ok & E). apply bind_Ok in E as (rs & s & [Hrs ->]%binding_Ok & E).
  apply bind_Ok in E as (lle & s & [_ ->]%input_Ok & E). apply bind_Ok in E as (ll & s & [Hll ->]%binding_Ok & E).
  apply bind_Ok in E as (rle & s & [_ ->]%input_Ok & E). apply bind_Ok in E as (rl & s & [Hrl ->]%binding_Ok & E).
  apply bind_Ok in E as (u & s & ->%expect_bool_range_Ok & E). destruct (negb _); [done|].
  apply bind_Ok in E as (dom & s & [-> (t & Ht & Hdom)]%domain_of_Ok & E). apply bind_Ok in E as (d & s & [Hd ->]%the_type_Ok & E).
  destruct (bool_decide_reflect (rt_kind d = KTuple)) as [Hk|]; [|done]. simpl in E.
  apply bind_Ok in E as (lt & s & [Hlt ->]%deref_Ok & E). apply bind_Ok in E as (rt & s & [Hrt ->]%deref_Ok & E).
  apply bind_Ok in E as (l & s & [Hl ->]%the_type_Ok & E). apply bind_Ok in E as (r & s & [Hr ->]%the_type_Ok & E).
  destruct (bool_decide_reflect (rt_kind l = KEnumeration)) as [Hkl|]; [|done].
  destruct (bool_decide_reflect (rt_kind r = KEnumeration)) as [Hkr|]; [|done]. simpl in E.
  apply bind_Ok in E as (u1 & s & [-> Pl]%(validate_step_Ok _ _ _ _ _ _ _ l Hok Hl) & E).
  apply bind_Ok in E as (u2 & s & [-> Pr]%(validate_step_Ok _ _ _ _ _ _ _ r Hok Hr) & E).
  apply bind_Ok in E as (u3 & s & ->%validate_label_Ok & E). apply bind_Ok in E as (u4 & s & ->%validate_label_Ok & E).
  destruct (_ || _); [done|]. apply bind_Ok in E as (ie & s & [_ ->]%input_Ok & E). apply bind_Ok in E as (init & s & E1 & E).
  destruct (tuple_constructor _ _ _ Hok Hd Hk) as [c Ec].
  destruct (value_pair ie dom d c lt rt l r st init s) as [-> Hinit]; [done..|]. injection E as <- <-. split; [done|].
  destruct (pairs_of_domain st rel t dom d lt rt l r) as [Prel Edom]; [done..|]. split; simpl.
  - by repeat constructor.
  - exists (rt_sort l), (rt_sort r). split_and!; [by exists l|by exists r|done..].
  - by exists d.
  - destruct Hinit as (x & y & Hx). exists c, x, y. by rewrite <- Edom.
Qed.

(** ** The clauses *)

(** The variables of the clauses are not identifiers, so no table mentions them. *)
Definition clause_variable (c : Term) : Prop := exists n s, c = constant n s /\ is_identifier n = false.

Lemma clause_symbolic l : Forall clause_variable l -> Forall symbolic l.
Proof. intros Hl. eapply Forall_impl; [exact Hl|]. intros c (n & s & -> & _). apply constant_symbolic. Qed.

Lemma table_stable w e bound vs t :
  over_identifiers t -> Forall clause_variable bound -> eval w (assign e bound vs) t = eval w e t.
Proof.
  intros Ho Hb. apply eval_agree. intros c Hc Hoc. apply assign_other. intros Hin. destruct (Ho c Hc Hoc) as (n & s & -> & Hid).
  rewrite Forall_forall in Hb. destruct (Hb _ Hin) as (n' & s' & E & Hid'). apply constant_name in E. congruence.
Qed.

Lemma eval_bound w e bound vs (i : nat) c v :
  Forall clause_variable bound -> NoDup bound -> bound !! i = Some c -> vs !! i = Some v -> eval w (assign e bound vs) c = v.
Proof.
  intros Hb Hn Hi Hv. rewrite eval_symbolic; [by eapply assign_lookup|]. apply clause_symbolic in Hb. rewrite Forall_lookup in Hb. by eapply Hb.
Qed.

Lemma eval_unbound w e bound vs c : clause_variable c -> c ∉ bound -> eval w (assign e bound vs) c = eval w e c.
Proof. intros (n & s & -> & _) Hc. rewrite !eval_symbolic by apply constant_symbolic. by apply assign_other. Qed.

Lemma true_at_stable w e bound vs t c a b :
  over_identifiers t -> Forall clause_variable bound -> true_at w (assign e bound vs) t c a b <-> true_at w e t c a b.
Proof. intros Ho Hb. unfold true_at. by rewrite table_stable. Qed.

Lemma bound_over st b : runtime_ok st -> bound_in st b -> over_identifiers (b_value b).
Proof. intros Hok [n Hn]. by destruct (ok_bindings _ Hok _ _ Hn) as (rt & _ & _ & _ & ?). Qed.
End Tables.

(** Membership and distinctness of the variables, by their names. *)
Ltac distinct_names :=
  repeat match goal with
  | |- NoDup (_ :: _) => apply NoDup_cons_2
  | |- NoDup [] => apply NoDup_nil_2
  | |- ~ _ ∈ _ => rewrite not_elem_of_cons; split
  | |- ~ _ ∈ [] => apply not_elem_of_nil
  | |- _ <> _ => intros E; apply constant_name in E; discriminate E
  end.
Ltac clause_variables := repeat (constructor; [by eexists _, _|]); try constructor.

Section Clauses.
Context `{HD : Z3Data} {HA : Z3Api} {HX : Z3Exprs} {HB : Z3Build} {HBL : Z3BuildLaws} {HM : Z3Meaning}
  {HML : Z3MeaningLaws} {HBM : Z3BuildMeaning} {HT : Z3TableMeaning} {HS : Z3Solver} {HSL : Z3SolverLaws}
  {HMM : Z3ModelLaws} {HC : Z3Check} {HCL : Z3CheckLaws}.
Context (term_to_string : Term -> string) (term_ast_id : Term -> N).
Context (st : RuntimeState) (p : Problem) (sl sr : Sort) (c cl cr : Decl).
Hypothesis Hok : runtime_ok st.
Hypothesis Hbound : Forall (bound_in st) [bp_relation p; bp_left_step p; bp_right_step p; bp_left_label p; bp_right_label p].
Hypothesis Hc : pair_of st (bp_relation p) = Some c /\ decl_domain c = [sl; sr] /\ interpreted c.
Hypothesis Hcl : pair_of st (bp_left_step p) = Some cl /\ decl_domain cl = [sl; sl] /\ interpreted cl.
Hypothesis Hcr : pair_of st (bp_right_step p) = Some cr /\ decl_domain cr = [sr; sr] /\ interpreted cr.

Let l := constant "Fine.left" sl.
Let r := constant "Fine.right" sr.
Let l' := constant "Fine.left_next" sl.
Let r' := constant "Fine.right_next" sr.

(** What the tables say at values. *)
Definition related (w : World) (e : Env) : Value -> Value -> Prop := true_at w e (b_value (bp_relation p)) c.
Definition left_steps (w : World) (e : Env) : Value -> Value -> Prop := true_at w e (b_value (bp_left_step p)) cl.
Definition right_steps (w : World) (e : Env) : Value -> Value -> Prop := true_at w e (b_value (bp_right_step p)) cr.
Definition labels (w : World) (e : Env) (a b : Value) : Prop :=
  vselect (eval w e (b_value (bp_left_label p))) a = vselect (eval w e (b_value (bp_right_label p))) b.

Lemma bindings_over :
  over_identifiers (b_value (bp_relation p)) /\ over_identifiers (b_value (bp_left_step p)) /\
  over_identifiers (b_value (bp_right_step p)) /\ over_identifiers (b_value (bp_left_label p)) /\
  over_identifiers (b_value (bp_right_label p)).
Proof. pose proof Hbound as Hb. rewrite !Forall_cons in Hb. destruct Hb as (? & ? & ? & ? & ? & _). split_and!; by eapply bound_over. Qed.

Lemma related_pair x y st1 : st1 = st -> get_sort x = sl -> get_sort y = sr ->
  yields (select_pair (bp_relation p) x y) st1 (fun t st' => st' = st /\ forall w e, holds w e t <-> related w e (eval w e x) (eval w e y)).
Proof. intros -> Hx Hy. destruct Hc as (E & Hd & Hi). by eapply select_pair_yields. Qed.
Lemma left_pair x y st1 : st1 = st -> get_sort x = sl -> get_sort y = sl ->
  yields (select_pair (bp_left_step p) x y) st1 (fun t st' => st' = st /\ forall w e, holds w e t <-> left_steps w e (eval w e x) (eval w e y)).
Proof. intros -> Hx Hy. destruct Hcl as (E & Hd & Hi). by eapply select_pair_yields. Qed.
Lemma right_pair x y st1 : st1 = st -> get_sort x = sr -> get_sort y = sr ->
  yields (select_pair (bp_right_step p) x y) st1 (fun t st' => st' = st /\ forall w e, holds w e t <-> right_steps w e (eval w e x) (eval w e y)).
Proof. intros -> Hx Hy. destruct Hcr as (E & Hd & Hi). by eapply select_pair_yields. Qed.

Lemma labels_yields :
  yields (labels_agree p l r) st (fun t st' => st' = st /\ forall w e, holds w e t ->
    forall a b, value_sort a = sl -> value_sort b = sr -> related w e a b -> labels w e a b).
Proof.
  destruct bindings_over as (Or & _ & _ & Ol & Orl). unfold labels_agree, implication, named_forall. apply yields_bind. intros rel st1 E1.
  apply related_pair in E1 as [-> Hrel]; [|done|apply sort_constant..]. apply yields_bind. intros tl st1 [Htl ->]%z3_call_Ok.
  apply yields_bind. intros tr st1 [Htr ->]%z3_call_Ok. apply yields_bind. intros eq st1 [Heq ->]%z3_call_Ok.
  apply yields_bind. intros body st1 [Hbody ->]%z3_call_Ok. intros t st' [Ht ->]%z3_call_Ok. split; [done|].
  intros w e Hh a b Ha Hb Hab. assert (Hv : Forall clause_variable [l; r]) by clause_variables.
  assert (Hn : NoDup [l; r]) by (unfold l, r; distinct_names).
  apply (holds_forall _ _ _ _ _ _ Ht) with (vs := [a; b]) in Hh; [|by apply clause_symbolic|done|].
  2:{ repeat constructor; unfold l, r; by rewrite sort_constant. }
  set (e1 := assign e [l; r] [a; b]) in *. assert (El : eval w e1 l = a) by (by apply (eval_bound w e _ _ 0)).
  assert (Er : eval w e1 r = b) by (by apply (eval_bound w e _ _ 1)).
  apply (holds_implication _ _ _ _ _ Hbody) in Hh; [|apply Hrel; rewrite El, Er; by apply true_at_stable].
  apply (holds_equation _ _ _ _ _ Heq) in Hh. rewrite (eval_select _ _ _ _ _ Htl), (eval_select _ _ _ _ _ Htr), El, Er in Hh.
  unfold e1 in Hh. by rewrite !table_stable in Hh.
Qed.

(** A clause that asks an answer of every instance of its hypothesis. *)
Lemma answered w e qid bound v hyp matched witness body t vs :
  mk_exists [v] matched = Some witness -> z3_op ZImplies [hyp; witness] = Some body -> mk_forall_const qid bound body = Some t ->
  Forall clause_variable (v :: bound) -> NoDup bound -> Forall2 (fun x a => value_sort a = get_sort x) bound vs ->
  holds w e t -> holds w (assign e bound vs) hyp ->
  exists x, value_sort x = get_sort v /\ holds w (assign (assign e bound vs) [v] [x]) matched.
Proof.
  intros Hwit Hbody Ht Hv Hn Hvs Hh Hhyp. apply Forall_cons in Hv as [Hv Hb].
  apply (holds_forall _ _ _ _ _ _ Ht) with (vs := vs) in Hh; [|by apply clause_symbolic|done|done].
  apply (holds_implication _ _ _ _ _ Hbody) in Hh; [|done].
  apply (holds_exists _ _ _ _ _ Hwit) in Hh as (xs & Hxs & Hh); [|apply clause_symbolic; by constructor|distinct_names].
  apply Forall2_cons_inv_l in Hxs as (x & xs' & Hx & ->%Forall2_nil_inv_l & ->). by exists x.
Qed.

(** The values of the variables, before and after the answer is chosen. *)
Lemma answered_values w e bound vs v x (i : nat) u a :
  Forall clause_variable (v :: bound) -> NoDup bound -> v ∉ bound -> bound !! i = Some u -> vs !! i = Some a ->
  eval w (assign e bound vs) u = a /\ eval w (assign (assign e bound vs) [v] [x]) u = a /\
  eval w (assign (assign e bound vs) [v] [x]) v = x.
Proof.
  intros [Hv Hb]%Forall_cons Hn Hd Hu Ha. assert (E : eval w (assign e bound vs) u = a) by (by eapply eval_bound).
  assert (Huv : clause_variable u) by (rewrite Forall_lookup in Hb; by eapply Hb). split_and!; [done| |].
  - rewrite eval_unbound; [done|done|]. intros ->%list_elem_of_singleton. apply Hd. by eapply list_elem_of_lookup_2.
  - apply (eval_bound _ _ _ _ 0); [by constructor|distinct_names|done..].
Qed.

Lemma true_at_answered w e bound vs v x t d a b :
  over_identifiers t -> Forall clause_variable (v :: bound) ->
  true_at w (assign (assign e bound vs) [v] [x]) t d a b <-> true_at w e t d a b.
Proof. intros Ho [Hv Hb]%Forall_cons. rewrite !true_at_stable; [done|done|done|done|by constructor]. Qed.

Lemma left_matched_yields st1 :
  st1 = st ->
  yields (left_step_matched p l r l' r') st1 (fun t st' => st' = st /\ forall w e, holds w e t ->
    forall a b a', value_sort a = sl -> value_sort b = sr -> value_sort a' = sl -> related w e a b -> left_steps w e a a' ->
    exists b', value_sort b' = sr /\ right_steps w e b b' /\ related w e a' b').
Proof.
  intros ->. destruct bindings_over as (Or & Ol & Ors & _). unfold left_step_matched, implication, conjunction, named_forall.
  apply yields_bind. intros rel st1 E1. apply related_pair in E1 as [-> Hrel]; [|done|apply sort_constant..].
  apply yields_bind. intros step st1 E1. apply left_pair in E1 as [-> Hstep]; [|done|apply sort_constant..].
  apply yields_bind. intros hyp st1 [Hhyp ->]%z3_call_Ok.
  apply yields_bind. intros answer st1 E1. apply right_pair in E1 as [-> Hans]; [|done|apply sort_constant..].
  apply yields_bind. intros rel' st1 E1. apply related_pair in E1 as [-> Hrel']; [|done|apply sort_constant..].
  apply yields_bind. intros matched st1 [Hmat ->]%z3_call_Ok. apply yields_bind. intros witness st1 [Hwit ->]%z3_call_Ok.
  apply yields_bind. intros body st1 [Hbody ->]%z3_call_Ok. intros t st' [Ht ->]%z3_call_Ok. split; [done|].
  intros w e Hh a b a' Ha Hb Ha' Hab Hs. assert (Hv : Forall clause_variable [r'; l; r; l']) by clause_variables.
  assert (Hn : NoDup [l; r; l']) by (unfold l, r, l'; distinct_names).
  assert (Hd : r' ∉ [l; r; l']) by (unfold l, r, l', r'; distinct_names).
  pose proof (fun x i u v => answered_values w e [l; r; l'] [a; b; a'] r' x i u v Hv Hn Hd) as Hval.
  destruct (answered w e _ _ _ _ _ _ _ _ [a; b; a'] Hwit Hbody Ht Hv Hn) as (b' & Hb' & Hm); [|done| |].
  - repeat constructor; unfold l, r, l'; by rewrite sort_constant.
  - apply (holds_and _ _ _ _ _ Hhyp). destruct (Hval a 0 _ _ eq_refl eq_refl) as (El & _), (Hval a 1 _ _ eq_refl eq_refl) as (Er & _),
      (Hval a 2 _ _ eq_refl eq_refl) as (El' & _). rewrite Hrel, Hstep, El, Er, El'. apply Forall_cons in Hv as [_ Hv]. split; by apply true_at_stable.
  - destruct (Hval b' 1 _ _ eq_refl eq_refl) as (_ & Er & Er'), (Hval b' 2 _ _ eq_refl eq_refl) as (_ & El' & _).
    apply (holds_and _ _ _ _ _ Hmat) in Hm. rewrite Hans, Hrel', Er, Er', El' in Hm. exists b'.
    unfold right_steps, related in Hm. rewrite !true_at_answered in Hm by done. unfold r' in Hb'. by rewrite sort_constant in Hb'.
Qed.

Lemma right_matched_yields st1 :
  st1 = st ->
  yields (right_step_matched p l r l' r') st1 (fun t st' => st' = st /\ forall w e, holds w e t ->
    forall a b b', value_sort a = sl -> value_sort b = sr -> value_sort b' = sr -> related w e a b -> right_steps w e b b' ->
    exists a', value_sort a' = sl /\ left_steps w e a a' /\ related w e a' b').
Proof.
  intros ->. destruct bindings_over as (Or & Ol & Ors & _). unfold right_step_matched, implication, conjunction, named_forall.
  apply yields_bind. intros rel st1 E1. apply related_pair in E1 as [-> Hrel]; [|done|apply sort_constant..].
  apply yields_bind. intros step st1 E1. apply right_pair in E1 as [-> Hstep]; [|done|apply sort_constant..].
  apply yields_bind. intros hyp st1 [Hhyp ->]%z3_call_Ok.
  apply yields_bind. intros answer st1 E1. apply left_pair in E1 as [-> Hans]; [|done|apply sort_constant..].
  apply yields_bind. intros rel' st1 E1. apply related_pair in E1 as [-> Hrel']; [|done|apply sort_constant..].
  apply yields_bind. intros matched st1 [Hmat ->]%z3_call_Ok. apply yields_bind. intros witness st1 [Hwit ->]%z3_call_Ok.
  apply yields_bind. intros body st1 [Hbody ->]%z3_call_Ok. intros t st' [Ht ->]%z3_call_Ok. split; [done|].
  intros w e Hh a b b' Ha Hb Hb' Hab Hs. assert (Hv : Forall clause_variable [l'; l; r; r']) by clause_variables.
  assert (Hn : NoDup [l; r; r']) by (unfold l, r, r'; distinct_names).
  assert (Hd : l' ∉ [l; r; r']) by (unfold l, r, l', r'; distinct_names).
  pose proof (fun x i u v => answered_values w e [l; r; r'] [a; b; b'] l' x i u v Hv Hn Hd) as Hval.
  destruct (answered w e _ _ _ _ _ _ _ _ [a; b; b'] Hwit Hbody Ht Hv Hn) as (a' & Ha' & Hm); [|done| |].
  - repeat constructor; unfold l, r, r'; by rewrite sort_constant.
  - apply (holds_and _ _ _ _ _ Hhyp). destruct (Hval a 0 _ _ eq_refl eq_refl) as (El & _), (Hval a 1 _ _ eq_refl eq_refl) as (Er & _),
      (Hval a 2 _ _ eq_refl eq_refl) as (Er' & _). rewrite Hrel, Hstep, El, Er, Er'. apply Forall_cons in Hv as [_ Hv]. split; by apply true_at_stable.
  - destruct (Hval a' 0 _ _ eq_refl eq_refl) as (_ & El & El'), (Hval a' 2 _ _ eq_refl eq_refl) as (_ & Er' & _).
    apply (holds_and _ _ _ _ _ Hmat) in Hm. rewrite Hans, Hrel', El, El', Er' in Hm. exists a'.
    unfold left_steps, related in Hm. rewrite !true_at_answered in Hm by done. unfold l' in Ha'. by rewrite sort_constant in Ha'.
Qed.

(** *** The clauses together *)

(** The relation of a world satisfies the clauses. *)
Record solves (w : World) (e : Env) : Prop := {
  so_labels a b : value_sort a = sl -> value_sort b = sr -> related w e a b -> labels w e a b;
  so_left a b a' : value_sort a = sl -> value_sort b = sr -> value_sort a' = sl -> related w e a b -> left_steps w e a a' ->
    exists b', value_sort b' = sr /\ right_steps w e b b' /\ related w e a' b';
  so_right a b b' : value_sort a = sl -> value_sort b = sr -> value_sort b' = sr -> related w e a b -> right_steps w e b b' ->
    exists a', value_sort a' = sl /\ left_steps w e a a' /\ related w e a' b';
  so_initial : vselect (eval w e (b_value (bp_relation p))) (eval w e (bp_initial p)) = vbool true
}.

Hypothesis Hleft : state_sort st (bp_left p) sl.
Hypothesis Hright : state_sort st (bp_right p) sr.

Lemma clauses_yields :
  yields (clauses p) st (fun cs st' => st' = st /\ forall w e, Forall (holds w e) (snd <$> cs) -> solves w e).
Proof.
  destruct Hleft as (lt & Hlt & _ & El), Hright as (rt & Hrt & _ & Er). unfold clauses.
  apply yields_bind. intros lt' st1 [Hlt' ->]%the_type_Ok. rewrite Hlt in Hlt'. injection Hlt' as <-.
  apply yields_bind. intros rt' st1 [Hrt' ->]%the_type_Ok. rewrite Hrt in Hrt'. injection Hrt' as <-. rewrite El, Er.
  apply yields_bind. intros t1 st1 [-> H1]%labels_yields. apply yields_bind. intros t2 st1 E2.
  apply left_matched_yields in E2 as [-> H2]; [|done]. apply yields_bind. intros t3 st1 E3.
  apply right_matched_yields in E3 as [-> H3]; [|done]. apply yields_bind. intros t4 st1 [H4 ->]%z3_call_Ok.
  intros cs st' [= <- <-]. split; [done|]. intros w e Hall. cbn [fmap list_fmap snd] in Hall. rewrite !Forall_cons in Hall.
  destruct Hall as (A1 & A2 & A3 & A4 & _). split; [by apply H1|by apply H2|by apply H3|].
  unfold holds in A4. by rewrite (eval_select _ _ _ _ _ H4) in A4.
Qed.

Lemma assert_clauses_yields cs s fs st1 :
  frames s = [fs] ->
  yields (assert_clauses term_to_string term_ast_id p cs s) st1 (fun r st' => frames r.1 = [fs ++ (snd <$> cs)] /\ rained st1 st').
Proof.
  revert s fs st1. induction cs as [|[role t] cs IH]; intros s fs st1 Hs; simpl.
  { intros r0 st' [= <- <-]. rewrite app_nil_r. split; [done|apply rained_refl]. }
  apply yields_bind. intros x st2 E2. pose proof (rains_at _ _ _ _ (rains_recorded _ _) E2) as R2.
  apply yields_bind. intros [s' refs] st3 E3. apply (IH _ (fs ++ [t])) in E3 as [Hf R3]; [|by apply frames_add].
  intros r0 st' [= <- <-]. simpl in *. split; [by rewrite Hf, <- app_assoc|by etrans].
Qed.

(** The model of the query. *)
Definition model_of (m : Model) (w : World) (e : Env) : Prop :=
  env_ok e /\ forall t, eval w e (model_eval m t) = eval w e t.

Lemma bisim_query_yields :
  yields (bisim_query term_to_string term_ast_id p) st (fun x st' => rained st st' /\
    (x.1 = sat -> exists w e, model_of (s_get_model x.2) w e /\ solves w e)).
Proof.
  unfold bisim_query. apply yields_bind. intros cs st1 [-> Hcs]%clauses_yields.
  apply yields_bind. intros [s refs] st2 E2. apply (assert_clauses_yields _ _ []) in E2 as [Hf R2].
  2:{ rewrite frames_set. apply frames_mk. }
  simpl in Hf. apply yields_bind. intros [] st3 E3. pose proof (rains_at _ _ _ _ (rains_rain _) E3) as R3.
  apply yields_bind. intros [] st4 E4. pose proof (rains_at _ _ _ _ (rains_observe _ _ _ _) E4) as R4.
  destruct (s_check s []) as [result s'] eqn:Es. apply yields_bind. intros [] st5 E5. pose proof (rains_at _ _ _ _ (rains_rain _) E5) as R5.
  intros x st' [= <- <-]. split; [by do 3 (etrans; [eassumption|])|]. simpl. intros ->.
  destruct (model_satisfies s) as (w & e & He & Hall & Hm); [by rewrite Es|]. rewrite Es in Hm. exists w, e. split; [done|].
  apply Hcs. rewrite Hf in Hall. simpl in Hall. by rewrite app_nil_r in Hall.
Qed.

(** ** Reading the model *)

(** One cell keeps what the table says elsewhere. *)
Lemma read_cell_yields m x y acc st1 w e :
  model_of m w e -> get_sort x = sl -> get_sort y = sr ->
  yields (read_cell term_to_string term_ast_id p c m x y acc) st1 (fun r st' => rained st1 st' /\
    forall v, vselect (eval w e r.1) v = vbool true <->
      vselect (eval w e acc) v = vbool true \/
      v = apply_decl w c [eval w e x; eval w e y] /\ vselect (eval w e (b_value (bp_relation p))) v = vbool true).
Proof.
  intros [_ Hm] Hx Hy. unfold read_cell. apply yields_bind. intros key st2 [Hk ->]%z3_call_Ok. destruct Hc as (_ & Hdom & Hi).
  rewrite mk_app_typed in Hk by (simpl; congruence). injection Hk as <-. set (key := App c [x; y]).
  assert (Ekey : eval w e key = apply_decl w c [eval w e x; eval w e y]) by (unfold key; by rewrite eval_app).
  apply yields_bind. intros sel st2 [Hsel ->]%z3_call_Ok.
  assert (Esel : eval w e (model_eval m sel) = vselect (eval w e (b_value (bp_relation p))) (eval w e key)).
  { by rewrite Hm, (eval_select _ _ _ _ _ Hsel). }
  destruct (_ && _) eqn:Eb; [by intros ? ?|]. apply yields_bind. intros ev st2 E2. pose proof (rains_at _ _ _ _ (rains_recorded _ _) E2) as R2.
  destruct (is_true (model_eval m sel)) eqn:Et.
  - apply (is_true_holds w e) in Et. unfold holds in Et. rewrite Esel in Et.
    apply yields_bind. intros acc' st3 [Hst ->]%z3_call_Ok. intros r0 st' [= <- <-]. split; [done|]. intros v. simpl. rewrite <- Ekey.
    destruct (eval_store w e _ _ _ _ v Hst) as [[-> ->]|[Hne ->]].
    + split; [by right|]. intros _. apply holds_true.
    + split; [by left|]. by intros [?|[? _]].
  - intros r0 st' [= <- <-]. split; [done|]. intros v. simpl. split; [by left|]. intros [?|[-> Hv]]; [done|].
    simpl in Eb. apply negb_false_iff in Eb. apply (is_false_holds w e) in Eb. destruct Eb. unfold holds. by rewrite Esel, Ekey.
Qed.

Lemma read_cells_yields m cells acc st1 w e :
  model_of m w e -> Forall (fun xy => get_sort xy.1 = sl /\ get_sort xy.2 = sr) cells ->
  yields (read_cells term_to_string term_ast_id p c m cells acc) st1 (fun r st' => rained st1 st' /\
    forall v, vselect (eval w e r.1) v = vbool true <->
      vselect (eval w e acc) v = vbool true \/
      exists x y, (x, y) ∈ cells /\ v = apply_decl w c [eval w e x; eval w e y] /\
        vselect (eval w e (b_value (bp_relation p))) v = vbool true).
Proof.
  intros Hm Hcells. revert acc st1. induction Hcells as [|[x y] cells [Hx Hy] _ IH]; intros acc st1; simpl.
  { intros r0 st' [= <- <-]. split; [apply rained_refl|]. intros v. split; [by left|].
    intros [?|(x & y & Hin & _)]; [done|by apply elem_of_nil in Hin]. }
  apply yields_bind. intros [acc1 ev] st2 E2. apply (read_cell_yields _ _ _ _ _ w e) in E2 as [R2 H2]; [|done..].
  apply yields_bind. intros [acc2 evs] st3 E3. apply IH in E3 as [R3 H3]. intros r0 st' [= <- <-]. split; [by etrans|].
  intros v. cbn [fst] in *. rewrite H3, H2. split.
  - intros [[?|[-> ?]]|(x' & y' & Hin & Hv)]; [by left| |].
    + right. exists x, y. split; [apply list_elem_of_here|done].
    + right. exists x', y'. split; [by apply list_elem_of_further|done].
  - intros [?|(x' & y' & Hin & Hv)]; [by left; left|]. apply elem_of_cons in Hin as [[= -> ->]|Hin]; [left; by right|].
    right. by exists x', y'.
Qed.

(** The cases of an enumeration are its values. *)
Lemma state_cases q s rt ep info w e v :
  type_heap st !! q = Some rt -> rt_sort rt = s -> rt_enumeration rt = Some ep -> enum_heap st !! ep = Some info ->
  (value_sort v = s -> ei_values info <> [] -> exists x, x ∈ ei_values info /\ eval w e x = v) /\
  Forall (fun x => get_sort x = s /\ value_sort (eval w e x) = s) (ei_values info).
Proof.
  intros Hq Es Hep He. destruct (ok_enums _ Hok _ _ He) as (rt' & Hrt' & _ & Hep' & _ & Hv & [Hds (n & names & En)] & _).
  assert (rt' = rt) as ->.
  { assert (Hk : rt_kind rt = KEnumeration). { pose proof (ok_types _ Hok _ _ Hq) as Hwf. by destruct Hwf. }
    destruct (enum_type_ptr _ _ _ Hok Hq Hk) as (ep2 & info2 & E2 & He2 & <-). by simplify_eq. }
  rewrite Hv. split.
  - intros Hs Hne. subst s. destruct (enumeration_cases n names _ _ w v En ltac:(by intros E; rewrite E in Hne) Hs) as (d & Hd & ->). exists (App d []). split.
    + apply list_elem_of_fmap. by exists d.
    + rewrite Forall_forall in Hds. rewrite eval_app; [done|]. by apply Hds.
  - apply Forall_fmap, Forall_forall. intros d Hd. rewrite Forall_forall in Hds. destruct (Hds _ Hd) as (_ & Hr & Hi). simpl.
    rewrite sort_app, Hr, eval_app by done. split; [done|]. subst s. by eapply enumeration_value.
Qed.

Lemma case_nonempty q rt ep info x :
  type_heap st !! q = Some rt -> rt_enumeration rt = Some ep -> enum_heap st !! ep = Some info -> case_of st q x -> ei_values info <> [].
Proof. intros Hq Hep He (rt' & ep' & info' & Hq' & Hep' & He' & Hx) E. simplify_eq. rewrite E in Hx. by apply elem_of_nil in Hx. Qed.

Lemma case_value q s x w e : state_sort st q s -> case_of st q x -> get_sort x = s /\ value_sort (eval w e x) = s.
Proof.
  intros (rt & Hq & _ & Es) (rt' & ep & info & Hq' & Hep & He & Hx). rewrite Hq in Hq'. injection Hq' as <-.
  destruct (state_cases q s rt ep info w e (eval w e x) Hq Es Hep He) as [_ Hall]. rewrite Forall_forall in Hall. by apply Hall.
Qed.

Lemma pairs_elem (ls rs : list Term) x y : (x, y) ∈ pairs ls rs <-> x ∈ ls /\ y ∈ rs.
Proof.
  unfold pairs. rewrite list_elem_of_bind. split.
  - intros (x' & (y' & [= -> ->] & Hy)%list_elem_of_fmap & Hx). done.
  - intros [Hx Hy]. exists x. split; [|done]. apply list_elem_of_fmap. by exists y.
Qed.

Hypothesis Hinhabited : (exists x, case_of st (bp_left p) x) /\ (exists y, case_of st (bp_right p) y).
Hypothesis Hdomain : exists d, type_heap st !! bp_domain p = Some d /\ rt_tuple_constructor d = pair_of st (bp_relation p).

(** The table read from the model says what its relation says, on every pair of states. *)
Lemma extensionalize_yields m w e :
  model_of m w e ->
  yields (extensionalize term_to_string term_ast_id p m) st (fun t st' => rained st st' /\
    forall a b, value_sort a = sl -> value_sort b = sr -> true_at w e t c a b <-> related w e a b).
Proof.
  intros Hm. destruct Hdomain as (d & Hd & Ed), Hleft as (lt & Hlt & _ & El), Hright as (rt & Hrt & _ & Er). unfold extensionalize.
  apply yields_bind. intros d' st1 [Hd' ->]%the_type_Ok. rewrite Hd in Hd'. injection Hd' as <-.
  apply yields_bind. intros c' st1 [Hc' ->]%deref_Ok. destruct Hc as (Epair & _). rewrite Ed, Epair in Hc'. injection Hc' as <-.
  apply yields_bind. intros acc st1 [Hacc ->]%z3_call_Ok.
  apply yields_bind. intros lt' st1 [Hlt' ->]%the_type_Ok. rewrite Hlt in Hlt'. injection Hlt' as <-.
  apply yields_bind. intros rt' st1 [Hrt' ->]%the_type_Ok. rewrite Hrt in Hrt'. injection Hrt' as <-.
  apply yields_bind. intros le st1 [Hle ->]%deref_Ok. apply yields_bind. intros re st1 [Hre ->]%deref_Ok.
  apply yields_bind. intros li st1 (o & st2 & [= <- <-] & [Hli ->]%deref_Ok)%bind_Ok.
  apply yields_bind. intros ri st1 (o & st2 & [= <- <-] & [Hri ->]%deref_Ok)%bind_Ok.
  apply yields_bind. intros [t ev] st1 E1. apply (read_cells_yields _ _ _ _ w e) in E1 as [R1 Ht]; [|done|].
  2:{ apply Forall_forall. intros [x y] [Hx Hy]%pairs_elem.
      destruct (state_cases (bp_left p) sl lt le li w e (e x) Hlt El Hle Hli) as [_ Hl].
      destruct (state_cases (bp_right p) sr rt re ri w e (e x) Hrt Er Hre Hri) as [_ Hr].
      rewrite Forall_forall in Hl, Hr. split; [by apply Hl|by apply Hr]. }
  apply yields_bind. intros [] st2 E2. pose proof (rains_at _ _ _ _ (rains_rain _) E2) as R2. intros t' st' [= <- <-].
  split; [by etrans|]. intros a b Ha Hb. cbn [fst] in Ht. unfold true_at, related, true_at. rewrite Ht. split.
  - intros [Hf|(x & y & _ & -> & Hv)]; [|done]. rewrite (eval_const_array _ _ _ _ _ _ Hacc) in Hf. by destruct (holds_false w e).
  - intros Hv. right. destruct (state_cases (bp_left p) sl lt le li w e a Hlt El Hle Hli) as [Hca _].
    destruct (state_cases (bp_right p) sr rt re ri w e b Hrt Er Hre Hri) as [Hcb _].
    destruct Hinhabited as [[x0 Hx0] [y0 Hy0]]. destruct (Hca Ha (case_nonempty _ _ _ _ _ Hlt Hle Hli Hx0)) as (x & Hx & <-).
    destruct (Hcb Hb (case_nonempty _ _ _ _ _ Hrt Hre Hri Hy0)) as (y & Hy & <-). exists x, y. split; [by apply pairs_elem|done].
Qed.
End Clauses.

(** ** The witness *)

Section Solved.
Context `{HD : Z3Data} {HA : Z3Api} {HX : Z3Exprs} {HB : Z3Build} {HBL : Z3BuildLaws} {HM : Z3Meaning}
  {HML : Z3MeaningLaws} {HBM : Z3BuildMeaning} {HT : Z3TableMeaning} {HS : Z3Solver} {HSL : Z3SolverLaws}
  {HMM : Z3ModelLaws} {HC : Z3Check} {HCL : Z3CheckLaws}.
Context (term_to_string : Term -> string) (term_ast_id : Term -> N).

(** The source of a witness declares the model's name and type with a literal whose value is the table. *)
Definition reads_back (st : RuntimeState) (source n : string) (type : TypePtr) (t : Term) : Prop :=
  exists document item witness literal st1 st2 rt,
    parse source = Ok document /\ declarations document = [item] /\ declaration item = DModel witness /\
    model_name witness = n /\ model_value witness = Some literal /\
    rained st st1 /\ resolve_type (model_type witness) st1 = (Ok type, st2) /\
    type_heap st2 !! type = Some rt /\ (table_value rt literal st2).1 = Ok t.

Lemma return_witness_yields p t st :
  yields (return_witness term_to_string term_ast_id p t) st (fun r _ => exists source,
    r = (0, bisim_text term_ast_id p source t) /\ reads_back st source (bp_name p) (b_type (bp_relation p)) t).
Proof.
  unfold return_witness. apply yields_bind. intros rt st1 [_ ->]%the_type_Ok. apply yields_bind. intros lifted st1 E1.
  assert (R1 : rained st st1) by (eapply rains_at, E1; unfold lift_table; rains).
  apply yields_bind. intros source st2 E2.
  assert (R2 : rained st1 st2) by (eapply rains_at, E2; unfold render_model_witness, print_table_expression; rains).
  apply yields_bind. intros document st3 Ed. assert (Hp : parse source = Ok document /\ st3 = st2).
  { unfold parse_witness in Ed. destruct (parse source) as [x|x|]; [|done..]. by injection Ed as -> ->. }
  destruct Hp as [Hp ->]. destruct (declarations document) as [|item [|]] eqn:Edecls; [done| |done].
  destruct (declaration item) as [d|d|witness|d|d|d|d|d|d|d] eqn:Eitem; try done.
  destruct (model_value witness) as [literal|] eqn:El; [|done].
  destruct (negb (model_name witness =? bp_name p)%string) eqn:En; [done|]. apply negb_false_iff, String.eqb_eq in En.
  apply yields_bind. intros type st4 E4. destruct (negb (same type _)) eqn:Et; [done|].
  apply negb_false_iff, Nat.eqb_eq in Et. subst type. apply yields_bind. intros pt st5 [Hpt ->]%the_type_Ok.
  apply yields_bind. intros t' st5 E5. destruct (negb (term_eqb t t')) eqn:Eq; [done|].
  apply negb_false_iff, term_eqb_spec in Eq as <-. apply yields_bind. intros [] st6 _. intros r0 st7 [= <- _].
  exists source. split; [done|]. exists document, item, witness, literal, st2, st4, pt. rewrite E5. split_and!; try done. by etrans.
Qed.

(** ** The systems of the tables *)

(** The steps a table with pairs [c] allows between values of a sort. *)
Definition system (w : World) (e : Env) (s : Sort) (c : Decl) (b : Binding) (a a' : Value) : Prop :=
  value_sort a = s /\ value_sort a' = s /\ true_at w e (b_value b) c a a'.

(** The pairs of states the printed table is true at. *)
Definition printed (w : World) (e : Env) (sl sr : Sort) (c : Decl) (t : Term) (a b : Value) : Prop :=
  value_sort a = sl /\ value_sort b = sr /\ true_at w e t c a b.

(** [t] is a bisimulation between the systems of the problem, and relates the initial states [x] and [y]. *)
Record bisimulates (w : World) (e : Env) (sl sr : Sort) (c cl cr : Decl) (p : Problem) (t x y : Term) : Prop := {
  bs_relation : bisimulation (system w e sl cl (bp_left_step p)) (system w e sr cr (bp_right_step p)) (labels p w e)
    (printed w e sl sr c t);
  bs_initial : mk_app c [x; y] = Some (bp_initial p) /\ printed w e sl sr c t (eval w e x) (eval w e y)
}.

Lemma solves_bisimulates st p sl sr c cl cr w e t x y :
  runtime_ok st -> decl_domain c = [sl; sr] -> interpreted c ->
  state_sort st (bp_left p) sl -> state_sort st (bp_right p) sr -> case_of st (bp_left p) x -> case_of st (bp_right p) y ->
  mk_app c [x; y] = Some (bp_initial p) -> solves p sl sr c cl cr w e ->
  (forall a b, value_sort a = sl -> value_sort b = sr -> true_at w e t c a b <-> related p c w e a b) ->
  bisimulates w e sl sr c cl cr p t x y.
Proof.
  intros Hok Hd Hi Hl Hr Hx Hy Hinit Hs Ht. destruct (case_value _ Hok _ _ _ w e Hl Hx) as [Sx Vx], (case_value _ Hok _ _ _ w e Hr Hy) as [Sy Vy].
  split; [split|split; [done|]].
  - intros a b (Ha & Hb & Hab). apply (so_labels _ _ _ _ _ _ _ _ Hs); [done..|by apply Ht].
  - intros a b a' (Ha & Hb & Hab) (_ & Ha' & Hstep).
    destruct (so_left _ _ _ _ _ _ _ _ Hs a b a') as (b' & Hb' & Hstep' & Hab'); [done..|by apply Ht|done|].
    exists b'. split; [done|]. split_and!; [done..|by apply Ht].
  - intros a b b' (Ha & Hb & Hab) (_ & Hb' & Hstep).
    destruct (so_right _ _ _ _ _ _ _ _ Hs a b b') as (a' & Ha' & Hstep' & Hab'); [done..|by apply Ht|done|].
    exists a'. split; [done|]. split_and!; [done..|by apply Ht].
  - split_and!; [done..|]. apply Ht; [done..|]. pose proof (so_initial _ _ _ _ _ _ _ _ Hs) as H0.
    rewrite mk_app_typed in Hinit by (simpl; congruence). injection Hinit as Hinit. by rewrite <- Hinit, eval_app in H0.
Qed.

(** Every labelled run of one system is one of the other. *)
Definition same_runs (w : World) (e : Env) (sl sr : Sort) (cl cr : Decl) (p : Problem) (x y : Term) : Prop :=
  (forall l, run (system w e sl cl (bp_left_step p)) (eval w e x) l -> exists l',
    run (system w e sr cr (bp_right_step p)) (eval w e y) l' /\ Forall2 (labels p w e) (eval w e x :: l) (eval w e y :: l')) /\
  (forall l', run (system w e sr cr (bp_right_step p)) (eval w e y) l' -> exists l,
    run (system w e sl cl (bp_left_step p)) (eval w e x) l /\ Forall2 (labels p w e) (eval w e x :: l) (eval w e y :: l')).

Lemma bisimulates_runs w e sl sr c cl cr p t x y : bisimulates w e sl sr c cl cr p t x y -> same_runs w e sl sr cl cr p x y.
Proof.
  intros [HR [_ Hxy]]. split; intros l Hl; [by eapply bisimulation_runs|].
  destruct (bisimulation_runs _ _ _ _ (eval w e y) (eval w e x) l (bisimulation_converse _ _ _ _ HR) Hxy Hl) as (l' & Hrun & Hall).
  exists l'. split; [done|]. by apply Forall2_flip.
Qed.

(** What an answer of a solve means. *)
Definition solve_result (solve : SolveDecl) (id : nat) (st : RuntimeState) (r : nat * string) : Prop :=
  exists p source t w e sl sr c cl cr x y,
    read_problem solve id st = (Ok p, st) /\ env_ok e /\
    state_sort st (bp_left p) sl /\ state_sort st (bp_right p) sr /\
    pair_of st (bp_relation p) = Some c /\ pair_of st (bp_left_step p) = Some cl /\ pair_of st (bp_right_step p) = Some cr /\
    case_of st (bp_left p) x /\ case_of st (bp_right p) y /\
    bisimulates w e sl sr c cl cr p t x y /\ same_runs w e sl sr cl cr p x y /\
    r = (0, bisim_text term_ast_id p source t) /\ reads_back st source (bp_name p) (b_type (bp_relation p)) t.

Lemma problem_rained st st' p : rained st st' -> problem_ok st p -> problem_ok st' p.
Proof. intros [r ->] [Hb Hs Hd Hi]. by split. Qed.
Lemma runtime_rained st st' : rained st st' -> runtime_ok st -> runtime_ok st'.
Proof. intros [r ->] Hok. eapply (unread_keeps st); done. Qed.

Lemma execute_bisimulation_yields solve id st :
  runtime_ok st -> yields (execute_bisimulation term_to_string term_ast_id solve id) st (fun r _ => solve_result solve id st r).
Proof.
  intros Hok. unfold execute_bisimulation. apply yields_bind. intros p st1 Ep.
  destruct (read_problem_yields _ _ _ Hok _ _ Ep) as [-> Hp]. apply yields_bind. intros [] st1 E1.
  pose proof (rains_at _ _ _ _ (rains_rain _) E1) as R1. pose proof (runtime_rained _ _ R1 Hok) as Hok1.
  pose proof (problem_rained _ _ _ R1 Hp) as [Hb (sl & sr & Hl & Hr & (c & Hc) & (cl & Hcl) & (cr & Hcr)) _ _].
  apply yields_bind. intros [result s] st2 E2.
  apply (bisim_query_yields _ _ _ _ sl sr c cl cr Hok1 Hb Hc Hcl Hcr Hl Hr) in E2 as [R2 Hsat].
  destruct result; [|done..]. destruct (Hsat eq_refl) as (w & e & Hm & Hs). assert (R : rained st st2) by (by etrans).
  pose proof (runtime_rained _ _ R Hok) as Hok2. pose proof (problem_rained _ _ _ R2 (problem_rained _ _ _ R1 Hp)) as [Hb2 _ Hd2 _].
  destruct R1 as [r1 ->], R2 as [r2 ->]. apply yields_bind. intros t st3 E3.
  destruct (po_initial _ _ Hp) as (c0 & x & y & Ec & Hinit & Hx & Hy).
  apply (extensionalize_yields _ _ _ p sl sr c Hok2 Hc Hl Hr (conj (ex_intro _ x Hx) (ex_intro _ y Hy)) Hd2 _ w e Hm) in E3 as [[r3 ->] Ht].
  intros r st' E4. apply return_witness_yields in E4 as (source & -> & Hback). destruct Hc as (Hc & Dc & Ic).
  assert (c0 = c) as -> by (unfold pair_of in *; simpl in Hc; congruence).
  exists p, source, t, w, e, sl, sr, c, cl, cr, x, y. destruct Hm as [He _]. assert (Hbis : bisimulates w e sl sr c cl cr p t x y) by (by eapply (solves_bisimulates st)).
  split_and!; try done; [apply Hcl|apply Hcr|by eapply bisimulates_runs].
Qed.

(** C7. When [execute_bisimulation] answers a solve, there are a model of the tables and a table [t] with the following
    properties: as a set of pairs of states, [t] is a bisimulation of the left and the right transition system that preserves
    labels, it relates the initial states, so the labelled runs from them are the same on both sides; the answer is zero with
    the text of a model declaration, and that text parses back to one declaration of the relation's name and type whose
    literal has exactly the value [t]. *)
Theorem bisimulation_sound solve id st r st' :
  runtime_ok st -> execute_bisimulation term_to_string term_ast_id solve id st = (Ok r, st') -> solve_result solve id st r.
Proof. intros Hok E. exact (execute_bisimulation_yields solve id st Hok r st' E). Qed.


End Solved.
