(* ===== verification/Unasked.v ===== *)
(** * What does not talk to the fixedpoint object

    Only a predicate's declaration and the two questions on least relations
    change what the fixedpoint object was told: every other declaration,
    and every check or proof by SMT, leaves it as it is. *)

From stdpp Require Import gmap.
From S2P Require Import Prelude Format Syntax Lexer Printer Parser ParserSpec Source Z3Ast Z3Solver Z3Build Z3Check Z3Model Z3Fixedpoint Lift Recorder Observers Runtime Elaborate Declare Values Predicate PredicateCheck Check Bisimulation RuntimeSpec ElaborateSpec DeclareSpec EnumSpec FunctionSpec CheckSpec CheckSound PredicateSpec LayerSpec InductionSpec BisimulationSpec.
From Stdlib Require Import NArith.

Section Unasked.
Context `{Z3Build}.

Definition unasked {A} (m : RtM A) : Prop := forall st, fixedpoint_ (m st).2 = fixedpoint_ st.

Lemma unasked_bind {A B} (m : RtM A) (k : A -> RtM B) : unasked m -> (forall a, unasked (k a)) -> unasked (m ≫= k).
Proof.
  intros Hm Hk st. specialize (Hm st). unfold mbind, RtM_bind.
  destruct (m st) as [[a|e|] st']; simpl in *; [|done..]. by rewrite Hk.
Qed.
Lemma framed_unasked {A} (m : RtM A) : framed m -> unasked m.
Proof. intros Hm st. apply Hm. Qed.
Lemma rains_unasked {A} (m : RtM A) : rains m -> unasked m.
Proof. intros Hm st. by destruct (Hm st) as [r ->]. Qed.
Lemma unasked_modify f : (forall st, fixedpoint_ (f st) = fixedpoint_ st) -> unasked (modify f).
Proof. intros Hf st. apply Hf. Qed.
Lemma unasked_traverse {A B} (f : A -> RtM B) l : (forall a, unasked (f a)) -> unasked (traverse_ f l).
Proof.
  intros Hf. induction l as [|x l IH]; simpl; [by intros st|]. apply unasked_bind; [apply Hf|intros y].
  apply unasked_bind; [exact IH|by intros ys st].
Qed.
Lemma unasked_at {A} (m : RtM A) st a st' : unasked m -> m st = (Ok a, st') -> fixedpoint_ st' = fixedpoint_ st.
Proof. intros Hm E. specialize (Hm st). by rewrite E in Hm. Qed.
End Unasked.

Create HintDb unasked.
#[export] Hint Resolve rains_unasked framed_resolve_type framed_elaborate framed_refuted framed_unasked : unasked.
Ltac unasked :=
  repeat first [ solve [auto with unasked rains]
               | apply unasked_bind; [|intros ?]
               | apply unasked_modify; by intros ?
               | case_match ].

(** ** Declarations *)

Section Declarations.
Context `{Z3Build} (term_to_string : Term -> string) (term_ast_id : Term -> N).

Lemma unasked_reserve n sp : unasked (reserve_value_name n sp).
Proof. unfold reserve_value_name. unasked. Qed.
Lemma unasked_reserve_type n sp : unasked (reserve_type_name n sp).
Proof. unfold reserve_type_name. unasked. Qed.
Lemma unasked_new_type t : unasked (new_type t).
Proof. unfold new_type. unasked. Qed.
Hint Resolve unasked_reserve unasked_reserve_type unasked_new_type : unasked.
Lemma unasked_check_fields n fs seen : unasked (check_fields n fs seen).
Proof. revert seen. induction fs; intros seen; simpl; unasked. Qed.
Hint Resolve unasked_check_fields : unasked.
Lemma unasked_check_cases cs seen : unasked (check_cases cs seen).
Proof. revert seen. induction cs; intros seen; simpl; unasked. Qed.
Hint Resolve unasked_check_cases : unasked.
Lemma unasked_resolve_field n f : unasked (resolve_field n f).
Proof. unfold resolve_field. unasked. Qed.

Lemma unasked_enum d : unasked (declare_enum d).
Proof.
  unfold declare_enum, declare_datatype.
  assert (Hr : unasked (traverse_ (fun c => traverse_ (resolve_field (enum_name d)) (case_fields c)) (enum_cases d))).
  { do 2 (apply unasked_traverse; intros ?). apply unasked_resolve_field. }
  assert (Hc : forall cs : list Decl, unasked (traverse_ (fun c => z3_call "constructor" (mk_app c [])) cs)).
  { intros cs. apply unasked_traverse. intros c. unasked. }
  unasked.
Qed.
Lemma unasked_let d : unasked (declare_let d).
Proof. unfold declare_let. unasked. Qed.
Lemma unasked_model d : unasked (declare_model d).
Proof. unfold declare_model. unasked. Qed.

Lemma unasked_view_parameters owner i ps ns env ts : unasked (view_parameters_loop owner i ps ns env ts).
Proof. revert i ns env ts. induction ps; intros i ns env ts; simpl; unasked. Qed.
Lemma unasked_conjoin message env es acc : unasked (conjoin term_to_string term_ast_id message env es acc).
Proof. revert acc. induction es; intros acc; simpl; unasked. Qed.
Hint Resolve unasked_view_parameters unasked_conjoin : unasked.
Lemma unasked_view d : unasked (declare_view term_to_string term_ast_id d).
Proof. unfold declare_view, view_witness_term. unasked. Qed.

Lemma unasked_function_parameters owner s i ps fs m : unasked (function_parameters owner s i ps fs m).
Proof. revert i fs m. induction ps; intros i fs m; simpl; unasked. Qed.
Lemma unasked_arm_bindings item ty t i bs seen env rec : unasked (arm_bindings_loop item ty t i bs seen env rec).
Proof. revert i seen env rec. induction bs; intros i seen env rec; simpl; unasked. Qed.
Lemma unasked_structural owner n a i rec e : unasked (check_structural_calls owner n a i rec e).
Proof.
  induction e as [k sp m b z op es id IH] using Expr_nested_ind. simpl. apply unasked_bind; [unasked|intros _].
  induction IH; unasked.
Qed.
Lemma unasked_match_body l : unasked (match_body l).
Proof. induction l as [|x [|y l] IH]; [unasked..|]. simpl in *. unasked. Qed.
Hint Resolve unasked_function_parameters unasked_arm_bindings unasked_structural unasked_match_body : unasked.
Lemma unasked_arms c arms seen bs : unasked (function_arms_loop term_to_string term_ast_id c arms seen bs).
Proof. revert seen bs. induction arms; intros seen bs; simpl; unfold function_arm; unasked. Qed.
Hint Resolve unasked_arms : unasked.
Lemma unasked_function d id : unasked (declare_function term_to_string term_ast_id d id).
Proof. unfold declare_function. unasked. Qed.
End Declarations.

(** ** Checks *)

Section Checks.
Context `{Z3Build} {HS : Z3Solver} {HC : Z3Check} {HF : Z3Fixedpoint} (term_to_string : Term -> string) (term_ast_id : Term -> N).
Hint Resolve unasked_reserve unasked_conjoin : unasked.

Lemma unasked_check_parameters owner i ps env acc : unasked (check_parameters_loop owner i ps env acc).
Proof. revert i env acc. induction ps; intros i env acc; simpl; unasked. Qed.
Lemma unasked_field_constants owner n i ts : unasked (field_constants owner n i ts).
Proof. revert i. induction ts; intros i; simpl; unasked. Qed.
Lemma unasked_generalize c n f i ps : unasked (generalize c n f i ps).
Proof. revert i. induction ps; intros i; simpl; unasked. Qed.
Hint Resolve unasked_check_parameters unasked_field_constants unasked_generalize : unasked.
Lemma unasked_field_hypotheses c n i ts fs acc : unasked (field_hypotheses term_to_string term_ast_id c n i ts fs acc).
Proof. revert i fs acc. induction ts; intros i [|f fs] acc; simpl; unfold induction_hypothesis; unasked. Qed.
Hint Resolve unasked_field_hypotheses : unasked.
Lemma unasked_induction_cases c cases a b n : unasked (induction_cases term_to_string term_ast_id c cases a b n).
Proof. revert a b n. induction cases; intros x y n; simpl; unasked. Qed.
Lemma unasked_add_proofs d l s : unasked (add_proofs term_to_string term_ast_id d l s).
Proof. revert s. induction l; intros s; simpl; unasked. Qed.
Hint Resolve unasked_induction_cases unasked_add_proofs : unasked.

(** A check by SMT, in a document without predicates. *)
Lemma unasked_check d id st : predicates_ st = ∅ ->
  fixedpoint_ (execute_check term_to_string term_ast_id d id st).2 = fixedpoint_ st.
Proof.
  intros E0. unfold execute_check. match goal with |- fixedpoint_ ((gets predicates_ ≫= ?k) st).2 = _ =>
    cut (unasked (k (predicates_ st))); [intros Hk; exact (Hk st)|] end.
  cbn beta. rewrite E0, bool_decide_eq_false_2 by tauto.
  unfold check_statement, check_induction, induction_reject, run_query, verified, admit_proof. unasked.
Qed.

Lemma unasked_induction_parameters owner t p i ps acc : unasked (induction_parameters_loop owner t p i ps acc).
Proof. revert i acc. induction ps; intros i acc; simpl; unfold check_index; unasked. Qed.
Lemma unasked_auxiliary predicates es : unasked (auxiliary_loop predicates es).
Proof. induction es; simpl; unasked. Qed.
Lemma unasked_goal predicates n es g : unasked (goal_loop predicates n es g).
Proof. revert g. induction es; intros g; simpl; unasked. Qed.
Lemma unasked_conditions message env es acc : unasked (condition_loop term_to_string term_ast_id message env es acc).
Proof. revert acc. induction es; intros acc; simpl; unasked. Qed.
Hint Resolve unasked_induction_parameters unasked_auxiliary unasked_goal unasked_conditions rains_branches rains_check_layers : unasked.

Lemma unasked_predicate_induction d id target : unasked (execute_predicate_induction term_to_string term_ast_id d id target).
Proof. unfold execute_predicate_induction, induction_statement, admit_induction. unasked. Qed.

(** A reusable proof after predicates inducts over one of them. *)
Lemma unasked_reusable d id st :
  check_reusable d = true -> fixedpoint_ (execute_predicate_check term_to_string term_ast_id d id st).2 = fixedpoint_ st.
Proof.
  intros Hr. revert st. change (unasked (execute_predicate_check term_to_string term_ast_id d id)).
  unfold execute_predicate_check. rewrite Hr. apply unasked_bind; [unasked|intros _].
  case_match; [unasked|]. case_match; [apply unasked_predicate_induction|unasked].
Qed.
End Checks.
