(* ===== verification/ExecuteSpec.v ===== *)
(** * Executing declarations

    What the parser returns has the forms the runtime relies on, declarations
    keep the runtime well formed, and [returns] reasons about the commands that
    execute a document. *)

From stdpp Require Import gmap.
From S2P Require Import Prelude Format Syntax Lexer Printer LexerSpec Parser ParserSpec DocumentSpec Source Z3Ast Z3Solver Z3Build Z3Check Z3Fixedpoint Lift Recorder Observers Runtime Elaborate Declare Values Check Execute RuntimeSpec ElaborateSpec DeclareSpec EnumSpec FunctionSpec CheckSpec CheckSound.
From Stdlib Require Import NArith.

(** ** What the parser returns has the forms the runtime relies on *)

Lemma printable_form e : Is_true (printable e) -> source_form e = true.
Proof.
  intros Hp%Is_true_true. revert Hp. induction e as [k sp n b i op es id IH] using Expr_nested_ind. simpl.
  intros [Hk Hes]%andb_true_iff. rewrite !andb_true_iff. split_and!.
  - destruct k; simpl in *; rewrite ?andb_true_iff in Hk; naive_solver.
  - case_bool_decide; [|done]. subst k. simpl in Hk. by apply andb_true_iff in Hk as [].
  - rewrite forallb_forall in Hes |- *. intros x Hx. rewrite Forall_forall in IH.
    apply IH; [by apply list_elem_of_In|by apply Hes].
Qed.

Lemma printable_forms l : Forall (fun e => Is_true (printable e)) l -> forallb source_form l = true.
Proof. induction 1; simpl; [done|]. apply andb_true_iff. by split; [apply printable_form|]. Qed.

Lemma table_shape_form (l : TableLiteral) : shape_of l -> table_form l = true.
Proof.
  intros [Hd He]. apply andb_true_iff. split; [by apply printable_form|]. simpl in He.
  induction He as [|x entries [Hk Hv] _ IH]; simpl; [done|].
  apply andb_true_iff. split; [|done]. apply andb_true_iff. by split; apply printable_form.
Qed.

Lemma enum_shape_form (d : EnumDecl) : shape_of d -> enum_form d.
Proof.
  intros (Hn & _ & Hc). split; [done|]. intros n (c & -> & Hin)%list_elem_of_fmap. simpl in Hc.
  rewrite Forall_forall in Hc. by destruct (Hc c Hin).
Qed.

Lemma function_shape_form (d : FunctionDecl) : shape_of d -> function_form d = true.
Proof.
  intros (_ & _ & _ & _ & _ & Ha). unfold function_form. simpl in Ha.
  induction Ha as [|a arms (_ & _ & Hv) _ IH]; simpl; [done|]. apply andb_true_iff. by split; [apply printable_form|].
Qed.

Lemma view_shape_form (d : ViewDecl) : shape_of d -> view_form d.
Proof.
  intros (_ & _ & _ & _ & Hr & Hw). split; [by apply printable_forms|]. destruct (view_witness d); [|done].
  by apply printable_form.
Qed.

Lemma check_shape_form (d : CheckDecl) : shape_of d -> check_form d.
Proof. intros (_ & _ & _ & _ & Hi & Ha & _ & He). split; [split; by apply printable_forms|exact Hi]. Qed.

Lemma parsed_shape src document : parse src = Ok document -> shape_of document.
Proof. intros Hd. pose proof (parse_wp src) as H. rewrite Hd in H. by destruct H as (?&?&?). Qed.

(** ** Documents *)

(** The names of the reusable proofs. *)
Definition proofs_of (l : list declared) : list string :=
  l ≫= fun d => match declaration d with DCheck c => admits c | _ => [] end.

Section Document.
Context `{HD : Z3Data} {HA : Z3Api} {HX : Z3Exprs} {HB : Z3Build} {HBL : Z3BuildLaws} {HM : Z3Meaning}
  {HML : Z3MeaningLaws} {HBM : Z3BuildMeaning} {HS : Z3Solver} {HSL : Z3SolverLaws} {HC : Z3Check} {HCL : Z3CheckLaws}.
Context {HF : Z3Fixedpoint} (term_to_string : Term -> string) (term_ast_id : Term -> N) (fuel : nat).
Abbreviation execute_declaration := (execute_declaration term_to_string term_ast_id).
Abbreviation execute_declarations := (execute_declarations term_to_string term_ast_id).
Abbreviation execute := (execute term_to_string term_ast_id fuel).
Abbreviation check_result_ok := (check_result_ok term_to_string term_ast_id).

(** What holds when [m] returns, with the output. *)
Definition returns {A} (m : ExecM A) (out : string) (st : RuntimeState) (Q : A -> string -> RuntimeState -> Prop) : Prop :=
  forall a out' st', m out st = (Ok a, out', st') -> Q a out' st'.

Lemma returns_bind {A B} (m : ExecM A) (k : A -> ExecM B) out st Q :
  returns m out st (fun a out' st' => returns (k a) out' st' Q) -> returns (m ≫= k) out st Q.
Proof.
  intros Hm b out' st'. unfold mbind, ExecM_bind. destruct (m out st) as [[[a|e|] out1] st1] eqn:E; [|done..].
  by apply (Hm a out1 st1).
Qed.

Lemma returns_ret {A} (a : A) out st (Q : A -> string -> RuntimeState -> Prop) : Q a out st -> returns (mret a) out st Q.
Proof. by intros HQ ? ? ? [= <- <- <-]. Qed.

Lemma returns_quiet {A} (m : RtM A) out st (Q : A -> string -> RuntimeState -> Prop) :
  yields m st (fun a st' => Q a out st') -> returns (quiet m) out st Q.
Proof. intros Hm a out' st'. unfold quiet. destruct (m st) as [r st1] eqn:E. intros [= -> <- <-]. by apply Hm. Qed.

Lemma returns_reject {A} sp message out st (Q : A -> string -> RuntimeState -> Prop) :
  returns (quiet (reject sp message)) out st Q.
Proof. by apply returns_quiet, yields_reject. Qed.

Lemma yields_safe {A} (m : RtM A) st Q : safe_but_datatype m st Q -> yields m st Q.
Proof. unfold safe_but_datatype. intros Hs a st' E. rewrite E in Hs. by eapply safe_yields. Qed.

Lemma returns_mono {A} (m : ExecM A) out st (Q Q' : A -> string -> RuntimeState -> Prop) :
  returns m out st Q -> (forall a out' st', Q a out' st' -> Q' a out' st') -> returns m out st Q'.
Proof. intros Hm HQ a out' st' E. by apply HQ, Hm. Qed.

(** The handler of a declaration that only declares. *)
Definition declares (d : Declaration) (id : nat) : option (RtM unit) :=
  match d with
  | DEnum d => Some (declare_enum d)
  | DLet d => Some (declare_let d)
  | DModel d => Some (declare_model d)
  | DView d => Some (declare_view term_to_string term_ast_id d)
  | DFunction d => Some (declare_function term_to_string term_ast_id d id)
  | _ => None
  end.

(** C13. Declarations keep the runtime well formed: whatever the source text,
    declaring an enumeration, a datatype, a table, a model, a view or a recursive
    function of the parsed document on a well-formed runtime rejects it with a
    [SemanticError], or leaves a well-formed runtime that extends the old one.
    The one Z3 call that may throw is the creation of a datatype (Z3 refuses an
    uninhabited one); no unchecked pointer or index is out of range. *)
Theorem declarations_safe (src : string) (document : Document) (item : declared) (m : RtM unit) (st : RuntimeState) :
  parse src = Ok document -> item ∈ declarations document ->
  declares (declaration item) (declaration_node_id item) = Some m -> runtime_ok st ->
  safe_but_datatype m st (fun _ st' => runtime_ok st' /\ grows st st').
Proof.
  intros Hparse Hin Hm Hok. apply parsed_shape in Hparse. simpl in Hparse. rewrite Forall_forall in Hparse.
  specialize (Hparse _ Hin). destruct item as [d id]. simpl in *. destruct d; try done; simpl in Hm; injection Hm as <-.
  - by apply declare_enum_safe, enum_shape_form.
  - destruct Hparse as (_ & _ & _ & Hs). by apply safe_weaken, declare_let_safe, table_shape_form.
  - destruct Hparse as (Hid & _ & _ & Hs). apply safe_weaken, declare_model_safe; [done|done|].
    destruct (model_value _); [|done]. by apply table_shape_form.
  - by apply safe_weaken, declare_view_safe, view_shape_form.
  - by apply safe_weaken, declare_function_safe, function_shape_form.
Qed.
End Document.
