(* ===== verification/ExecuteSound.v ===== *)
(** * Executing any document

    Whatever the declarations of a document: when [execute] returns, the
    proofs it admitted hold in the worlds of the document, those where every
    predicate is the least relation its constructors generate; when it
    returns zero, it admitted every reusable proof of the document and its
    last text is a true answer. *)

From stdpp Require Import gmap.
From S2P Require Import Prelude Format Syntax Lexer Printer LexerSpec Parser ParserSpec DocumentSpec Source Z3Ast Z3Solver Z3Build Z3Check Z3Model Z3Fixedpoint Z3Horn Lift Recorder Observers Synthesis Runtime Elaborate Declare Values Predicate PredicateCheck Check Bisimulation Synthesize Execute RuntimeSpec ElaborateSpec DeclareSpec EnumSpec FunctionSpec CheckSpec CheckSound SynthesizeSpec PredicateSpec InductionSpec DeclarePredicateSpec PredicateSound FixedpointSound BisimulationSpec Unasked ExecuteSpec.
From Stdlib Require Import NArith.

(** ** Commands that admit no proof *)

Section Proofless.
Context `{Z3Build}.

Definition proofless {A} (m : RtM A) : Prop := forall st, admitted_proofs_ (m st).2 = admitted_proofs_ st.

Lemma proofless_bind {A B} (m : RtM A) (k : A -> RtM B) : proofless m -> (forall a, proofless (k a)) -> proofless (m ≫= k).
Proof.
  intros Hm Hk st. specialize (Hm st). unfold mbind, RtM_bind.
  destruct (m st) as [[a|e|] st']; simpl in *; [|done..]. by rewrite Hk.
Qed.
Lemma framed_proofless {A} (m : RtM A) : framed m -> proofless m.
Proof. intros Hm st. apply (fr_proofs _ _ (proj1 (Hm st))). Qed.
Lemma proofless_ret {A} (a : A) : proofless (mret a).
Proof. by intros st. Qed.
Lemma proofless_throw {A} e : proofless (rt_throw (A := A) e).
Proof. by intros st. Qed.
Lemma proofless_reject {A} sp message : proofless (reject (A := A) sp message).
Proof. by intros st. Qed.
Lemma proofless_gets {A} (f : RuntimeState -> A) : proofless (gets f).
Proof. by intros st. Qed.
Lemma proofless_deref {A} what (o : option A) : proofless (deref what o).
Proof. by intros st; destruct o. Qed.
Lemma proofless_z3 {A} call (o : option A) : proofless (z3_call call o).
Proof. by intros st; destruct o. Qed.
Lemma rains_proofless {A} (m : RtM A) : rains m -> proofless m.
Proof. intros Hm st. by destruct (Hm st) as [r ->]. Qed.
Lemma proofless_rain {A} (m : RecM A) : proofless (rain m).
Proof. apply rains_proofless, rains_rain. Qed.
Lemma proofless_capture c w : proofless (modify (set_capture c w)).
Proof. by intros st. Qed.
Lemma proofless_type p : proofless (the_type p).
Proof. apply framed_proofless, framed_the_type. Qed.
Lemma proofless_reserve n sp : proofless (reserve_value_name n sp).
Proof. intros st. unfold reserve_value_name, gets, mbind, RtM_bind. simpl. by destruct (decide _). Qed.
End Proofless.

Create HintDb proofless.
#[export] Hint Resolve rains_proofless proofless_ret proofless_throw proofless_reject proofless_gets proofless_deref proofless_z3 proofless_rain
  proofless_capture proofless_type proofless_reserve : proofless.
Ltac proofless := repeat first [ solve [auto with proofless rains] | apply proofless_bind; [|intros ?] | case_match ].

Section Commands.
Context `{Z3Build} {HS : Z3Solver} {HC : Z3Check} (term_to_string : Term -> string) (term_ast_id : Term -> N) (fuel : nat).

Lemma proofless_enum p : proofless (the_enum p).
Proof. unfold the_enum. proofless. Qed.
Lemma proofless_datatype p : proofless (the_datatype p).
Proof. unfold the_datatype. proofless. Qed.
Lemma proofless_resolve t : proofless (resolve_type t).
Proof. apply framed_proofless, framed_resolve_type. Qed.
Lemma proofless_elaborate env e : proofless (elaborate_expression term_to_string term_ast_id env e).
Proof. apply framed_proofless, framed_elaborate. Qed.
Lemma proofless_lift t p : proofless (lift_typed_expression t p).
Proof. apply framed_proofless, framed_lift. Qed.
Lemma proofless_synthesize s : proofless (synthesize term_to_string term_ast_id fuel s).
Proof. apply framed_proofless, framed_synthesize. Qed.
Lemma proofless_reparse s : proofless (reparse s).
Proof. apply framed_proofless, framed_reparse. Qed.
Lemma proofless_lift_expression i t : proofless (lift_expression i t).
Proof. apply framed_proofless, framed_lift_expression. Qed.
Lemma proofless_nested_hole x : proofless (reject_nested_hole x).
Proof. apply framed_proofless, framed_nested_hole. Qed.
Hint Resolve proofless_enum proofless_datatype proofless_resolve proofless_elaborate proofless_lift proofless_synthesize
  proofless_reparse proofless_lift_expression proofless_nested_hole : proofless.

Lemma proofless_conjoin message env es acc : proofless (conjoin term_to_string term_ast_id message env es acc).
Proof. revert acc. induction es; intros acc; simpl; proofless. Qed.
Lemma proofless_synth_parameters owner i ps env acc : proofless (synth_parameters_loop owner i ps env acc).
Proof. apply framed_proofless, framed_synth_parameters. Qed.
Lemma proofless_match_parameters owner s i ps env acc f : proofless (match_parameters_loop owner s i ps env acc f).
Proof. revert i env acc f. induction ps; intros i env acc f; simpl; proofless. Qed.
Lemma proofless_bind_fields c item con i bs s : proofless (bind_fields c item con i bs s).
Proof. revert i s. induction bs; intros i s; simpl; proofless. Qed.
Lemma proofless_match_body l : proofless (match_body l).
Proof. unfold match_body. induction l; simpl; proofless. Qed.
Hint Resolve proofless_conjoin proofless_synth_parameters proofless_match_parameters proofless_bind_fields proofless_match_body : proofless.

Lemma proofless_arm c a b arm : proofless (match_arm term_to_string term_ast_id fuel c a b arm).
Proof. unfold match_arm, open_arm, written_arm, round_trip. proofless. Qed.
Hint Resolve proofless_arm : proofless.
Lemma proofless_arms c arms s : proofless (match_arms_loop term_to_string term_ast_id fuel c arms s).
Proof. revert s. induction arms; intros s; simpl; proofless. Qed.
Hint Resolve proofless_arms : proofless.

Lemma proofless_synthesis d id : proofless (execute_synthesis term_to_string term_ast_id fuel d id).
Proof.
  unfold execute_synthesis, execute_match_synthesis, execute_plain_synthesis, match_statement, synth_statement, synth_specification,
    round_trip, verify_match. proofless.
Qed.

Lemma proofless_bisimulation d id : proofless (execute_bisimulation term_to_string term_ast_id d id).
Proof.
  unfold execute_bisimulation. apply proofless_bind; [|intros p].
  { unfold read_problem, take_map, input, binding, validate_step, validate_label, expect_bool_range, expect_table, domain_of. proofless. }
  apply proofless_bind; [proofless|intros _]. apply proofless_bind; [|intros [result s]].
  { unfold bisim_query, clauses, labels_agree, left_step_matched, right_step_matched, select_pair, domain_of, conjunction, implication,
      named_forall. proofless. }
  destruct result; [|proofless..]. unfold extensionalize, return_witness, lift_table, render_model_witness, print_table_expression. proofless.
Qed.
End Commands.

(** ** What the parser returns *)

Lemma predicate_shape_form (d : PredicateDecl) : shape_of d -> predicate_form d.
Proof.
  intros (_ & Hi & _ & _ & Hc). split; [done|]. simpl in Hc. eapply Forall_impl; [exact Hc|].
  intros c (_ & _ & Hp & Ha & Hr). split_and!; [by apply printable_forms|by apply printable_form|].
  simpl in Ha. eapply Forall_impl; [exact Ha|]. intros f (Hf & _ & Hq). split; by apply printable_forms.
Qed.

Lemma predicate_check_shape (d : CheckDecl) : shape_of d -> predicate_check_form d.
Proof.
  intros (_ & _ & Ht & Hk & _ & Ha & _ & He). split; [split; by apply printable_forms|]. intros target E.
  split; [by apply Hk|]. rewrite E in Ht. by apply printable_form.
Qed.

(** ** Documents *)

Section Document.
Context `{HD : Z3Data} {HA : Z3Api} {HX : Z3Exprs} {HB : Z3Build} {HBL : Z3BuildLaws} {HM : Z3Meaning}
  {HML : Z3MeaningLaws} {HBM : Z3BuildMeaning} {HT : Z3TableMeaning} {HS : Z3Solver} {HSL : Z3SolverLaws} {HMM : Z3ModelLaws}
  {HC : Z3Check} {HCL : Z3CheckLaws}.
Context {HF : Z3Fixedpoint} {HFL : Z3FixedpointLaws} (term_to_string : Term -> string) (term_ast_id : Term -> N) (fuel : nat).
Abbreviation execute_declaration := (execute_declaration term_to_string term_ast_id).
Abbreviation execute_declarations := (execute_declarations term_to_string term_ast_id).
Abbreviation execute := (execute term_to_string term_ast_id fuel).
Abbreviation check_result_ok := (check_result_ok term_to_string term_ast_id).

(** The state between declarations. *)
Definition sound (st : RuntimeState) : Prop := runtime_ok st /\ proofs_hold st /\ views_form st /\ predicates_wf st /\ fixedpoint_ok st.

Lemma same_fixedpoint_ok st st' :
  predicates_ st' = predicates_ st -> fixedpoint_ st' = fixedpoint_ st -> fixedpoint_ok st -> fixedpoint_ok st'.
Proof. unfold fixedpoint_ok. by intros -> ->. Qed.

Lemma keeps_sound st st' :
  keeps st st' -> fixedpoint_ st' = fixedpoint_ st -> sound st -> sound st' /\ proof_names st' = proof_names st.
Proof.
  intros [Hok G] Ef (_ & Hp & Hv & Hwf & Hfix). unfold sound, proof_names, predicates_wf.
  rewrite <- (g_proofs _ _ G), <- (g_predicates _ _ G).
  split_and!; [done| |by apply G|done| |done]; [|eapply same_fixedpoint_ok; [symmetry; apply G|done..]]. eapply proofs_hold_mono; [|symmetry; apply G|done]. by rewrite (g_predicates _ _ G).
Qed.

Lemma initial_fixedpoint_ok r : fixedpoint_ok (make_runtime r).
Proof.
  split; [split|exists (fun _ => 0)]; simpl.
  - intros n p Hn. by apply lookup_empty_Some in Hn.
  - intros d. split; [by intros ?%elem_of_nil|]. intros (n & p & Hn & _). by apply lookup_empty_Some in Hn.
  - by intros t ?%elem_of_nil.
  - intros p c [[n Hn] _]. by apply lookup_empty_Some in Hn.
  - intros n p c t Hn. by apply lookup_empty_Some in Hn.
Qed.

(** What a check leaves, and what its answer says. *)
Definition check_outcome (d : CheckDecl) (id : nat) (st : RuntimeState) (r : nat * string) (st' : RuntimeState) : Prop :=
  if decide (predicates_ st = ∅) then check_result_ok d st r st'
  else match check_predicate_induction d with
    | Some target => induction_result term_to_string term_ast_id d id target (add_value_name (check_name d) st) r st'
    | None => question_result term_to_string term_ast_id d (add_value_name (check_name d) st) r
    end.

Lemma execute_check_sound d id st :
  sound st -> shape_of d ->
  yields (execute_check term_to_string term_ast_id d id) st (fun r st' =>
    proofs_hold st' /\ check_outcome d id st r st' /\
    (r.1 = 0 -> proof_names st' = proof_names st ++ admits d) /\ (r.1 = 0 -> check_reusable d = true -> sound st')).
Proof.
  intros (Hok & Hp & Hv & Hwf & Hfix) Hs r st' E. unfold check_outcome. destruct (decide (predicates_ st = ∅)) as [E0|E0].
  - pose proof (execute_check_yields _ _ d id st Hok (proofs_hold_valid _ E0 Hp) (check_shape_form d Hs) E0 _ _ E) as Hr.
    pose proof Hr as (Hv' & Hcase & _). split; [by apply proofs_valid_hold|]. split; [done|].
    destruct Hcase as [(-> & (Hok' & Ep & Hviews) & En)|[[source ->] En]]; simpl.
    + split; [done|]. intros _ _. split_and!; [done|by apply proofs_valid_hold|by apply Hviews|unfold predicates_wf; by rewrite Ep|].
      eapply same_fixedpoint_ok; [done| |done]. pose proof (unasked_check term_to_string term_ast_id d id st E0) as Hu. by rewrite E in Hu.
    + unfold admits. destruct (check_reusable d); [done|]. by rewrite app_nil_r.
  - assert (Ex : execute_predicate_check term_to_string term_ast_id d id st = (Ok r, st')).
    { revert E. unfold execute_check, gets, mbind, RtM_bind. simpl. by rewrite bool_decide_eq_true_2. }
    pose proof (predicate_check_shape d Hs) as Hform.
    pose proof (predicate_check_yields _ _ d id st Hok Hp Hv Hwf Hform _ _ Ex) as [(Hok' & Hp' & Hv' & Ep & En) Hr].
    split_and!; [done| |intros Hc; by rewrite Hc in En|].
    { destruct (check_predicate_induction d) as [target|] eqn:Et; [by apply Hr|]. by apply question_yields in Ex as [_ ?]. }
    intros _ Hreuse. split_and!; [done..|unfold predicates_wf; by rewrite Ep|]. eapply same_fixedpoint_ok; [done| |done].
    pose proof (unasked_reusable term_to_string term_ast_id d id st Hreuse) as Hu. by rewrite Ex in Hu.
Qed.

(** The executable declarations a plan may hold. *)
Definition planned_in (l : list declared) (p : Plan) : Prop :=
  (plan_check p = None \/ plan_synth p = None) /\
  (forall d id, plan_check p = Some (d, id) -> mkDeclared (DCheck d) id ∈ l /\ check_reusable d = false) /\
  (forall d id, plan_synth p = Some (d, id) -> mkDeclared (DSynth d) id ∈ l) /\
  (forall d id, plan_solve p = Some (d, id) -> mkDeclared (DSolve d) id ∈ l).

Lemma unplanned p : planned p = false -> plan_solve p = None /\ plan_synth p = None /\ plan_check p = None.
Proof. unfold planned. rewrite !orb_false_iff, !bool_decide_eq_false, <- !eq_None_not_Some. tauto. Qed.

(** What one declaration, or several, leave. *)
Definition declared_sound (document l : list declared) (st : RuntimeState) (r : Plan + nat) (st' : RuntimeState) : Prop :=
  match r with
  | inl plan => sound st' /\ planned_in document plan /\ proof_names st' = proof_names st ++ proofs_of l
  | inr code => proofs_hold st' /\ code <> 0
  end.

Lemma declares_soundly {A} (m : RtM A) document item plan' out st :
  sound st -> planned_in document plan' -> proofs_of [item] = [] -> unasked m -> yields m st (fun _ st' => keeps st st') ->
  returns (quiet m ;; mret (inl plan')) out st (fun r _ => declared_sound document [item] st r).
Proof.
  intros Hg Hp E1 Hu Hm. apply returns_bind, returns_quiet. intros a st' E. pose proof (unasked_at _ _ _ _ Hu E) as Ef. apply Hm in E.
  destruct (keeps_sound _ _ E Ef Hg) as [Hg' En]. apply returns_ret. unfold declared_sound. by rewrite E1, app_nil_r.
Qed.

Lemma returns_predicate document d id plan out st :
  sound st -> planned_in document plan -> shape_of d ->
  returns (quiet (declare_predicate term_to_string term_ast_id d id) ;; mret (inl plan)) out st
    (fun r _ => declared_sound document [mkDeclared (DPredicate d) id] st r).
Proof.
  intros (Hok & Hp & Hv & Hwf & Hfix) Hplan Hs. apply returns_bind, returns_quiet. intros [] st' E.
  apply declare_predicate_yields in E as ((Hok' & Hv' & Hwf' & Epr & _) & Hsub & Hfix'); [|by apply predicate_shape_form|done..].
  apply returns_ret. split; [|split; [done|]].
  - split_and!; [done| |done|done|by apply Hfix']. by eapply proofs_hold_mono.
  - unfold proof_names. by rewrite Epr, app_nil_r.
Qed.

Lemma returns_proof_sound document d id plan out st :
  sound st -> planned_in document plan -> shape_of d -> check_reusable d = true ->
  returns (result ← written (execute_check term_to_string term_ast_id d id);
           if negb (result =? 0) then mret (inr result) else mret (inl plan)) out st
    (fun r _ => declared_sound document [mkDeclared (DCheck d) id] st r).
Proof.
  intros Hg Hplan Hs Hr. apply returns_bind. unfold written. apply returns_bind, returns_quiet. intros [code text] st' E.
  apply execute_check_sound in E as (Hp' & _ & En & Hsound); [|done..]. apply returns_bind. intros [] out' st2 [= <- <-]. apply returns_ret.
  simpl in *. destruct (Nat.eqb_spec code 0) as [->|Hne]; simpl; apply returns_ret; [|done].
  split; [by apply Hsound|]. split; [done|]. rewrite En by done. unfold proofs_of. simpl. by rewrite app_nil_r.
Qed.

Lemma returns_declaration_sound document plan item out st :
  sound st -> planned_in document plan -> item ∈ document -> shape_of item ->
  returns (execute_declaration plan item) out st (fun r _ => declared_sound document [item] st r).
Proof.
  intros Hg Hplan Hin Hs. pose proof Hg as (Hok & _). destruct item as [d id]. unfold Execute.execute_declaration.
  simpl in Hs. destruct d as [d|d|d|d|d|d|d|d|d|d]; cbn [declaration declaration_node_id].
  - apply declares_soundly; try done; [apply unasked_enum|]. by apply yields_safe, declare_enum_safe, enum_shape_form.
  - apply declares_soundly; try done; [apply unasked_let|]. destruct Hs as (_ & _ & _ & Hs).
    by apply yields_safe, safe_weaken, declare_let_safe, table_shape_form.
  - destruct Hs as (Hid & _ & _ & Hs).
    assert (Hm : yields (declare_model d) st (fun _ st' => keeps st st')).
    { apply yields_safe, safe_weaken, declare_model_safe; [done|done|]. destruct (model_value d); [|done].
      by apply table_shape_form. }
    destruct (model_value d) as [l|]; [by apply declares_soundly; [..|apply unasked_model|]|].
    destruct (plan_hole plan); [|by apply declares_soundly; [..|apply unasked_model|]].
    apply returns_bind, returns_quiet. intros a st' _. apply returns_reject.
  - destruct (planned plan) eqn:Ep; [apply returns_reject|]. apply unplanned in Ep as (_ & _ & Ec).
    apply returns_ret. split; [done|]. split; [|by rewrite app_nil_r]. destruct Hplan as (? & ? & ? & _).
    split_and!; [done..|]. by intros d' id' [= <- <-].
  - apply declares_soundly; try done; [apply unasked_view|]. by apply yields_safe, safe_weaken, declare_view_safe, view_shape_form.
  - by apply returns_predicate.
  - apply declares_soundly; try done; [apply unasked_function|].
    by apply yields_safe, safe_weaken, declare_function_safe, function_shape_form.
  - destruct (planned plan) eqn:Ep; [apply returns_reject|]. apply unplanned in Ep as (_ & _ & Ec).
    apply returns_ret. split; [done|]. split; [|by rewrite app_nil_r]. destruct Hplan as (_ & ? & _ & ?).
    split_and!; [by left|done| |done]. by intros d' id' [= <- <-].
  - destruct (check_reusable d) eqn:Hr; (destruct (planned plan) eqn:Ep; [apply returns_reject|]); [by apply returns_proof_sound|].
    apply unplanned in Ep as (_ & Es & _).
    apply returns_ret. split; [done|]. unfold proofs_of, admits. simpl. unfold admits. rewrite Hr, !app_nil_r. split; [|done].
    destruct Hplan as (_ & _ & ? & ?). split_and!; [by right| |done..]. by intros d' id' [= <- <-].
  - apply returns_reject.
Qed.

Lemma returns_declarations_sound document l plan out st :
  sound st -> planned_in document plan -> l ⊆ document -> Forall shape_of l ->
  returns (execute_declarations plan l) out st (fun r _ => declared_sound document l st r).
Proof.
  revert plan out st. induction l as [|item l IH]; intros plan out st Hg Hplan Hin Hs; simpl.
  { apply returns_ret. split; [done|]. split; [done|]. by rewrite app_nil_r. }
  apply Forall_cons in Hs as [Hs Hss]. apply returns_bind.
  eapply returns_mono; [apply returns_declaration_sound; [done..|set_solver|done]|].
  intros [plan'|code] out1 st1; simpl; [|intros; by apply returns_ret].
  intros (Hg1 & Hplan1 & En). eapply returns_mono; [apply IH; [done..|set_solver|done]|].
  intros [plan''|code] out2 st2; simpl; [|done]. intros (Hg2 & Hplan2 & En2). split_and!; [done..|].
  rewrite En2, En, <- (app_assoc _ _ (proofs_of l)). simpl. by rewrite app_nil_r.
Qed.

(** The last step: what the executable declaration answered. *)
Definition final_outcome (document : list declared) (out : string) (st : RuntimeState) : Prop :=
  exists st0 text d id, sound st0 /\ (exists before, out = before +:+ text) /\ mkDeclared d id ∈ document /\
    match d with
    | DCheck d => check_reusable d = false /\ check_outcome d id st0 (0, text) st
    | DSynth d => predicates_ st0 = ∅ /\ synthesis_result term_to_string term_ast_id d st0 (0, text)
    | DSolve d => predicates_ st0 = ∅ /\ solve_result term_ast_id d id st0 (0, text)
    | _ => False
    end.

Lemma returns_proofless (m : RtM (nat * string)) (Q : nat * string -> Prop) out st :
  sound st -> predicates_ st = ∅ -> proofless m -> yields m st (fun r _ => Q r) ->
  returns (written m) out st (fun code out' st' => proofs_hold st' /\ proof_names st' = proof_names st /\
    exists text, out' = out +:+ text /\ Q (code, text)).
Proof.
  intros (_ & Hp & _) E0 Hm HQ. unfold written. apply returns_bind, returns_quiet. intros [code text] st' E. pose proof (HQ _ _ E) as Hr.
  specialize (Hm st). rewrite E in Hm. simpl in Hm. apply returns_bind. intros [] out' st2 [= <- <-]. apply returns_ret.
  split; [|split; [unfold proof_names; by rewrite Hm|by exists text]]. apply proofs_valid_hold. unfold proofs_valid. rewrite Hm.
  by apply proofs_hold_valid.
Qed.

(** The plan's command, after the declarations. *)
Lemma returns_plan document plan out st :
  shape_of document -> sound st -> planned_in (declarations document) plan -> proof_names st = proofs_of (declarations document) ->
  returns (execute_plan term_to_string term_ast_id fuel document plan) out st (fun code out st =>
    proofs_hold st /\ (code = 0 -> proof_names st = proofs_of (declarations document) /\ final_outcome (declarations document) out st)).
Proof.
  intros Hs Hg (Hexcl & Hcheck & Hsynth & Hsolve) En. unfold execute_plan. apply returns_bind, returns_quiet.
  intros predicates st' [= <- <-]. destruct (_ && _) eqn:Eb; [apply returns_reject|].
  assert (Hnone : plan_check plan = None -> predicates_ st = ∅).
  { intros Ec. rewrite Ec, andb_true_r in Eb. apply bool_decide_eq_false in Eb. by destruct (decide (predicates_ st = ∅)). }
  pose proof Hg as (Hok & _). destruct (plan_synth plan) as [[d id]|].
  { destruct Hexcl as [Ec|]; [|done]. eapply returns_mono; [apply returns_proofless; [done|by apply Hnone|apply proofless_synthesis|]|].
    { by apply execute_synthesis_yields. }
    intros code out' st' (? & Hn & text & -> & Hr). split; [done|]. intros ->. split; [by rewrite Hn|].
    exists st, text, (DSynth d), id. split_and!; [done|by exists out|by apply Hsynth|by apply Hnone|done]. }
  destruct (plan_check plan) as [[d id]|].
  - destruct (Hcheck d id eq_refl) as [Hin Hr]. unfold written. apply returns_bind, returns_quiet. intros [code text] st3 E.
    assert (Hd : shape_of d) by (simpl in Hs; rewrite Forall_forall in Hs; exact (Hs _ Hin)).
    apply execute_check_sound in E as (Hp' & Ho & Hn & _); [|done..]. apply returns_bind. intros [] out' st4 [= <- <-]. apply returns_ret.
    split; [done|]. intros ->. simpl in Hn. rewrite Hn, En by done. unfold admits. rewrite Hr, app_nil_r. split; [done|].
    exists st, text, (DCheck d), id. split_and!; [done|by exists out|done..].
  - destruct (plan_solve plan) as [[d id]|]; [|apply returns_reject]. destruct (negb _); [apply returns_reject|].
    eapply returns_mono; [apply returns_proofless; [done|by apply Hnone|apply proofless_bisimulation|]|].
    { by apply execute_bisimulation_yields. }
    intros code out' st' (? & Hn & text & -> & Hr). split; [done|]. intros ->. split; [by rewrite Hn|].
    exists st, text, (DSolve d), id. split_and!; [done|by exists out|by apply Hsolve|by apply Hnone|done].
Qed.

Lemma execute_returns_sound document r :
  shape_of document ->
  returns (execute document) "" (make_runtime r) (fun code out st =>
    proofs_hold st /\ (code = 0 -> proof_names st = proofs_of (declarations document) /\ final_outcome (declarations document) out st)).
Proof.
  intros Hs. unfold Execute.execute. apply returns_bind, returns_quiet. intros [] st1 E1.
  pose proof (make_runtime_ok r) as Hok. assert (Hg0 : sound (make_runtime r)).
  { split_and!; [done|by apply Forall_nil|apply map_Forall_empty|apply map_Forall_empty|apply initial_fixedpoint_ok]. }
  pose proof (safe_yields _ _ _ _ _ (safe_rain _ _ Hok) E1) as K1. simpl in K1.
  pose proof (framed_fixedpoint _ _ _ _ (framed_rain _) E1) as Ef1. destruct (keeps_sound _ _ K1 Ef1 Hg0) as [Hg1 En1].
  apply returns_bind. eapply returns_mono;
    [apply (returns_declarations_sound (declarations document)); [done|by split_and!; [left|..]|done|exact Hs]|].
  intros [plan|code] out2 st2; simpl; [|by intros [? ?]; apply returns_ret].
  rewrite En1. intros (Hg2 & Hplan & En). by apply returns_plan.
Qed.

(** C4. Every document is executed soundly: whatever the source text, when
    [execute] returns on a fresh runtime, every proof it admitted holds in all
    worlds where the document's predicates are the least relations closed under
    their constructors (all worlds, in a document without predicates); when it
    returns zero it admitted exactly the document's reusable proofs, in order,
    and the text it ends with is the answer of a check: a theorem where it says
    `verified`, by induction over the predicate's constructors where the check
    inducts over a predicate, and the truth about the least relations where it
    asks for a membership or an invariant; or, in a document without predicates, that of a
    synthesis, whose program meets its specification, or of a solve, whose table
    is a bisimulation that relates the initial states. *)
Theorem document_sound (src : string) (document : Document) (r : option Recorder) (code : nat) (out : string)
    (st : RuntimeState) :
  parse src = Ok document ->
  execute document "" (make_runtime r) = (Ok code, out, st) ->
  proofs_hold st /\
  (code = 0 -> proof_names st = proofs_of (declarations document) /\ final_outcome (declarations document) out st).
Proof. intros Hparse. apply execute_returns_sound. by eapply parsed_shape. Qed.
End Document.
