(* ===== verification/MainSpec.v ===== *)
(** * The command line: revisions and rejected sources *)

From stdpp Require Import gmap.
From S2P Require Import Prelude Format Syntax Lexer LexerSpec Parser ParserSpec DocumentSpec Diagnostics Source Z3Ast Z3Solver Z3Build Z3Check Z3Fixedpoint Lift Recorder Runtime Values Check Execute Main.
From Stdlib Require Import NArith.

Lemma digits_value_decimal n : digits_value (decimal n) = n.
Proof.
  unfold digits_value, decimal, numeral. rewrite list_ascii_of_string_of_list_ascii.
  rewrite <- (digits_eval 10 n) at 2 by lia. unfold Format.eval, eval_from.
  pose proof (digits_bound 10 n ltac:(lia)) as Hb. revert Hb. generalize 0%N.
  induction (digits 10 n) as [|d l IH]; intros a Hb; simpl; [done|]. apply Forall_cons in Hb as [Hd Hb].
  rewrite IH by done. f_equal. unfold digit_char. rewrite (proj2 (N.ltb_lt d 10)) by done.
  rewrite N_ascii_embedding by lia. lia.
Qed.

(** The number a text of digits writes, by the weight of each place. *)
Fixpoint place_value (text : string) : N :=
  match text with
  | EmptyString => 0
  | String c rest => (N_of_ascii c - 48) * 10 ^ N.of_nat (String.length rest) + place_value rest
  end.

Lemma digits_value_places text : digits_value text = place_value text.
Proof.
  enough (H : forall n, foldl (fun n c => n * 10 + (N_of_ascii c - 48))%N n (list_ascii_of_string text) =
    (n * 10 ^ N.of_nat (String.length text) + place_value text)%N) by (unfold digits_value; by rewrite H).
  induction text as [|c text IH]; intros n; simpl; [lia|]. rewrite IH.
  replace (N.of_nat (S (String.length text))) with (N.succ (N.of_nat (String.length text))) by lia. rewrite N.pow_succ_r'. lia.
Qed.

Lemma span_while_whole p s : all_chars p s = true -> span_while p s = (s, "").
Proof. induction s as [|c s IH]; simpl; [done|]. intros [-> Hs]%andb_true_iff. by rewrite IH. Qed.
Lemma span_while_exhausts p s t : span_while p s = (t, "") -> t = s /\ all_chars p s = true.
Proof.
  revert t. induction s as [|c s IH]; intros t; simpl; [by intros [= <-]|]. destruct (p c) eqn:Hc; [|by intros [= _ ?]].
  destruct (span_while p s) as [u r]. intros [= <- ->]. by destruct (IH u eq_refl) as [-> ->].
Qed.

(** C27. A revision argument is read exactly: whatever the text, it is accepted
    as [n] if and only if it is not empty, consists of digits and nothing else,
    and writes [n] in decimal, with [n] below two to the 64th; so the decimal
    text of every such number is accepted, and no text has two readings. *)
Theorem parse_revision_exact (text : string) (n : nat) :
  parse_revision text = Some n <->
  text <> "" /\ all_chars is_digit text = true /\ place_value text = N.of_nat n /\ (N.of_nat n < 2 ^ 64)%N.
Proof.
  unfold parse_revision, from_chars. rewrite <- digits_value_places. split.
  - destruct (span_while is_digit text) as [digits rest] eqn:E. destruct (String.eqb_spec digits "") as [|Hne]; [done|].
    destruct (N.ltb_spec (digits_value digits) (2 ^ 64)) as [Hlt|]; [|done]. destruct (String.eqb_spec rest "") as [->|]; [|done].
    intros [= <-]. apply span_while_exhausts in E as [-> Hall]. rewrite N2Nat.id. done.
  - intros (Hne & Hall & Hv & Hlt). rewrite (span_while_whole _ _ Hall), (proj2 (String.eqb_neq _ _) Hne), Hv, (proj2 (N.ltb_lt _ _) Hlt).
    simpl. by rewrite Nat2N.id.
Qed.

(** A number's own text is read back. *)
Example parse_revision_decimal n : (N.of_nat n < 2 ^ 64)%N -> parse_revision (to_string n) = Some n.
Proof.
  intros Hn. pose proof (decimal_digits (N.of_nat n)) as Hd. pose proof (digits_value_decimal (N.of_nat n)) as Hv.
  destruct (decimal_cons (N.of_nat n)) as (c & s & E & _). unfold parse_revision, from_chars, to_string.
  rewrite (span_while_whole _ _ Hd), Hv, (proj2 (N.ltb_lt _ _) Hn). rewrite E. simpl. by rewrite Nat2N.id.
Qed.

Section Rejected.
Context `{Z3Build} {HS : Z3Solver} {HC : Z3Check} {HF : Z3Fixedpoint}.
Context (term_to_string : Term -> string) (term_ast_id : Term -> N) (fuel : nat).
Context (max_size : N) (entropy : Entropy) (read_file : string -> FileResult) (demo_source : string)
  (z3_message : string -> string) (fault_message : fault -> string).
Abbreviation main := (main term_to_string term_ast_id fuel
  max_size entropy read_file demo_source z3_message fault_message).

(** C26. A rejected source is reported: when a file's text does not parse, both
    `run` and `rain` exit with failure, write nothing to the output, not even the
    first records of a trace, and print exactly the diagnostic of the parse
    error; formatting it never fails. *)
Theorem rejected_source_reported (path source : string) (e : ParseError) :
  read_file path = Contents source -> parse source = Err e ->
  (N.of_nat (String.length source) <= max_size < 2 ^ 63)%N ->
  exists text, parse_error_format max_size path source e = Ok text /\
    forall command, command = "run" \/ command = "rain" ->
      main [command; path] = Some (mkExit EXIT_FAILURE "" (text +:+ newline_text)).
Proof.
  intros Hr Hp Hs.
  assert (exists text, parse_error_format max_size path source e = Ok text) as [text E].
  { destruct (parse_error_format_lines max_size path source e Hp Hs) as (b & fin & _ & _ & E). by eexists. }
  exists text. split; [exact E|]. intros command [-> | ->]; unfold Main.main, dispatch, run_file, run_source;
    simpl; by rewrite Hr, Hp, E.
Qed.
End Rejected.
