(* ===== verification/RuntimeSample.v ===== *)
(** * A runtime on concrete terms

    The interfaces of Z3Solver, Z3Build and Z3Check instantiated on the
    structural terms of Z3Ast: operators check the sorts of their arguments,
    declared datatypes have the shape of the natural numbers, a substitution is
    kept as a closure at the leaves, and a quantifier ranges over all values of its sort.  The
    hypotheses of the runtime's theorems hold on it, and declarations run on it. *)

From stdpp Require Import gmap.
From S2P Require Import Prelude Format Z3Ast Z3Solver Z3Build Z3Check Z3Model Z3Fixedpoint Z3Horn.
From Stdlib Require Import NArith ZArith ClassicalEpsilon.

Module RuntimeSample.
Import Structural.

(** ** Declarations *)

Definition decl (k : DeclKind) (n : string) (domain : list string) (range : string) : Decl :=
  mkStructuralDecl k (SString n) [] domain range.

(** A declaration Z3 made, told apart from an uninterpreted constant by a parameter. *)
Definition made (n : string) (domain : list string) (range : string) : Decl :=
  mkStructuralDecl OP_OTHER (SString n) [PInternal] domain range.

(** A recognizer or an accessor, with what it does as a parameter. *)
Definition tagged (tag : Z) (n : string) (domain : list string) (range : string) : Decl :=
  mkStructuralDecl OP_OTHER (SString n) [PInternal; PInt tag] domain range.

(** A relation of the world, a case of an enumeration, the constructor of pairs. *)
Definition related (n : string) (domain : list string) (range : string) : Decl :=
  mkStructuralDecl OP_OTHER (SString n) [PInternal; PInternal] domain range.
Definition enumerated (range : string) (i : nat) (n : string) : Decl :=
  mkStructuralDecl OP_OTHER (SString n) [PInternal; PInternal; PInt (Z.of_nat i)] [] range.
Definition paired (n : string) (domain : list string) : Decl :=
  mkStructuralDecl OP_OTHER (SString n) [PInternal; PSymbol SNull] domain n.

Definition const (name sort : string) : Term := App (decl OP_OTHER name [] sort) [].

Definition is_symbolic (t : Term) : bool :=
  match t with
  | App (mkStructuralDecl OP_OTHER (SString _) [] [] _) [] => true
  | _ => false
  end.

#[local] Arguments is_symbolic : simpl never.

Lemma symbolic_const t : is_symbolic t = true <-> exists n s, t = const n s.
Proof.
  split; [|by intros (n & s & ->)].
  destruct t as [| [[] [] [|] [|] r] [|] | |]; try done. intros _. by eexists _, _.
Qed.

Fixpoint sort_of (t : Term) : string :=
  match t with
  | Numeral _ s => s
  | App d _ => sd_range d
  | Var _ s => s
  | Quant QLambda _ _ _ _ _ _ b => sort_of b
  | Quant _ _ _ _ _ _ _ _ => "Bool"
  end.

(** ** Expressions *)

Definition operation (k : DeclKind) (args : list Term) (range : string) : Term :=
  App (decl k "op" (sort_of <$> args) range) args.

(** Substitution below applications; constants and quantifiers keep a closure. *)
Fixpoint substitute (t : Term) (from to : list Term) : Term :=
  match t with
  | App d l =>
      if is_symbolic t then Quant QLambda 0 SNull SNull [] [from; to] [] t
      else App d ((fun x => substitute x from to) <$> l)
  | _ => Quant QLambda 0 SNull SNull [] [from; to] [] t
  end.

#[export] Instance exprs : Z3Exprs := {|
  int_sort := "Int" : @Sort data;
  bool_sort := "Bool" : @Sort data;
  get_sort := sort_of;
  int_val := fun n => Numeral (decimal (Z.to_N n)) "Int";
  constant := const;
  expr_add := fun a b => operation OP_ADD [a; b] "Int";
  expr_sub := fun a b => operation OP_SUB [a; b] "Int";
  expr_not := fun a => operation OP_NOT [a] "Bool";
  expr_implies := fun a b => operation OP_IMPLIES [a; b] "Bool";
  expr_ite := fun c a b => operation OP_ITE [c; a; b] (sort_of a);
  expr_substitute := substitute;
  symbolic := fun t => is_symbolic t = true
|}.

Definition array_of (a b : string) : string := "(Array " +:+ a +:+ " " +:+ b +:+ ")".

Definition op_kind (o : @Z3Op data) : DeclKind :=
  match o with
  | ZEq => OP_EQ | ZGe => OP_GE | ZLe => OP_LE | ZAnd => OP_AND | ZOr => OP_OR | ZAdd => OP_ADD | ZSub => OP_SUB
  | ZIte => OP_ITE | ZImplies => OP_IMPLIES | ZNot => OP_NOT | ZSelect => OP_SELECT | ZStore => OP_STORE
  | ZConstArray _ => OP_CONST_ARRAY
  end.

(** The range of an array sort written with its domain. *)
Definition range_of (a s : string) : string :=
  substring (String.length s + 8) (String.length a - String.length s - 9) a.

Definition sort_of_op (o : @Z3Op data) (l : list string) : option string :=
  match o, l with
  | ZEq, [a; b] => if decide (a = b) then Some "Bool" else None
  | (ZGe | ZLe), [a; b] => if decide (a = "Int" /\ b = "Int") then Some "Bool" else None
  | (ZAnd | ZOr | ZImplies), [a; b] => if decide (a = "Bool" /\ b = "Bool") then Some "Bool" else None
  | (ZAdd | ZSub), [a; b] => if decide (a = "Int" /\ b = "Int") then Some "Int" else None
  | ZIte, [c; a; b] => if decide (c = "Bool" /\ a = b) then Some a else None
  | ZNot, [a] => if decide (a = "Bool") then Some "Bool" else None
  | ZSelect, [a; i] => if decide (a = array_of i (range_of a i)) then Some (range_of a i) else None
  | ZStore, [a; i; v] => if decide (a = array_of i v) then Some a else None
  | ZConstArray s, [a] => Some (array_of s a)
  | _, _ => None
  end.

(** Datatypes with a constant and a unary constructor. *)
Definition nat_sort (n : string) : string := "Nat:" +:+ n.

(** The sort of an enumeration says how many cases it has. *)
Fixpoint ones (n : nat) (rest : string) : string := match n with O => rest | S n => String "1" (ones n rest) end.
Definition enum_sort (n : string) (cases : nat) : string := "Enum:" +:+ ones cases (":" +:+ n).

Fixpoint count_ones (s : string) : nat := match s with String "1" s' => S (count_ones s') | _ => 0 end.
Definition enum_count (s : string) : nat :=
  match s with String "E" (String "n" (String "u" (String "m" (String ":" r)))) => count_ones r | _ => 0 end.

Lemma enum_count_sort n cases : enum_count (enum_sort n cases) = cases.
Proof. simpl. by induction cases as [|k IH]; simpl; [|rewrite IH]. Qed.

Definition ctor_decls (s : string) (c : @CtorSpec data) : @CtorDecls data :=
  let fields := (fun f : string * option string => default s f.2) <$> ctor_fields c in
  mkCtorDecls (made (ctor_name c) fields s) (tagged (Z.of_nat (length fields)) (ctor_recognizer c) [s] "Bool")
    (zip_with (fun f s' => tagged 2 f.1 [s] s') (ctor_fields c) fields).

Definition nat_like (specs : list (@CtorSpec data)) : bool :=
  match specs with
  | [mkCtorSpec _ _ []; mkCtorSpec _ _ [(_, None)]] => true
  | _ => false
  end.

(** A bound constant, by its name and sort. *)
Definition binder (t : Term) : Symbol * string :=
  match t with App d _ => (sd_name d, sd_range d) | _ => (SNull, sort_of t) end.
Definition bound_constant (b : Symbol * string) : Term :=
  match b.1 with SString n => const n b.2 | _ => Var 0 b.2 end.

#[export] Instance build : Z3Build := {|
  array_sort := array_of : @Sort data -> @Sort data -> @Sort data;
  bool_val := fun b => App (decl (if b then OP_TRUE else OP_FALSE) (if b then "true" else "false") [] "Bool") [];
  z3_op := fun o l => operation (op_kind o) l <$> sort_of_op o (sort_of <$> l);
  enumeration_sort := fun n names => (enum_sort n (length names), imap (enumerated (enum_sort n (length names))) names);
  tuple_sort := fun n fields => paired n fields.*2;
  mk_datatype := fun n specs => if nat_like specs then Some (nat_sort n, ctor_decls (nat_sort n) <$> specs) else None;
  recfun := fun n dom r => made n dom r;
  mk_forall_const := fun qid bound body =>
    if bool_decide (bound = []) then None
    else Some (Quant QForall 0 (SString qid) SNull (binder <$> bound) [] [] body);
  mk_forall := fun bound body =>
    if bool_decide (bound = []) then None else Some (Quant QForall 0 SNull SNull (binder <$> bound) [] [] body);
  mk_exists := fun bound body =>
    if bool_decide (bound = []) then None else Some (Quant QExists 0 SNull SNull (binder <$> bound) [] [] body);
  z3_function := fun n dom r => if bool_decide (dom = []) then decl OP_OTHER n [] r else related n dom r
|}.

Lemma substring_between (a b c : string) : substring (String.length a) (String.length b) (a +:+ b +:+ c) = b.
Proof.
  induction a as [|x a IH]; simpl; [|done]. induction b as [|y b IH]; simpl; [by destruct c|]. by rewrite IH.
Qed.

Lemma range_of_array a b : range_of (array_of a b) a = b.
Proof.
  unfold range_of, array_of. rewrite !length_append.
  transitivity (substring (String.length ("(Array " +:+ a +:+ " ")) (String.length b) (("(Array " +:+ a +:+ " ") +:+ b +:+ ")"));
    [|apply substring_between].
  rewrite !length_append, !append_assoc. f_equal; simpl; lia.
Qed.

#[local] Instance SString_inj : Inj eq eq SString.
Proof. by intros ? ? [= ->]. Qed.

#[export] Instance build_laws : Z3BuildLaws.
Proof.
  split; simpl; try done.
  - by intros [].
  - by intros [].
  - intros d l E. apply (f_equal length) in E. rewrite length_fmap in E. by rewrite E, Nat.eqb_refl.
  - intros v _ _ sign _. by eexists.
  - intros o l s Hs.
    assert (E : sort_of_op o (sort_of <$> l) = Some s) by (revert Hs; destruct o; simpl; by repeat case_match).
    rewrite E. by eexists.
  - intros a i s r Ha Hi. rewrite Ha, Hi, range_of_array, decide_True by done. by eexists.
  - intros a i v s r Ha Hi Hv. rewrite Ha, Hi, Hv, decide_True by done. by eexists.
  - intros n names s ds [= <- <-]. rewrite length_imap. split_and!; [done| |].
    + apply Forall_lookup. intros i d. rewrite list_lookup_imap. by destruct (names !! i); intros [= <-].
    + intros _. apply NoDup_alt. intros i j d. rewrite !list_lookup_imap.
      destruct (names !! i), (names !! j); simpl; try done. intros ? ?. simplify_eq. lia.
  - intros n specs s ds E. destruct (nat_like specs); [|done]. injection E as <- <-.
    apply Forall2_fmap_r, Forall_Forall2_diag, Forall_true. intros c.
    unfold ctor_typed. simpl. split_and!; [done..|]. induction (ctor_fields c); simpl; by constructor.
  - intros n specs s ds E Hn. destruct (nat_like specs); [|done]. injection E as <- <-. rewrite <- list_fmap_compose.
    apply (NoDup_fmap_1 sd_name). rewrite <- list_fmap_compose. apply (NoDup_fmap_2 SString) in Hn.
    by rewrite <- list_fmap_compose in Hn.
  - intros n specs s ds E. destruct (nat_like specs); [|done]. injection E as <- <-. apply Forall_fmap, Forall_true.
    intros c. simpl. split; [done|]. induction (ctor_fields c); simpl; by constructor.
  - intros qid bound body _ Hb. rewrite bool_decide_eq_false_2 by done. by eexists.
  - intros bound body _ Hb. rewrite bool_decide_eq_false_2 by done. by eexists.
  - intros bound body _ Hb. rewrite bool_decide_eq_false_2 by done. by eexists.
  - intros n dom r. destruct (decide (dom = [])) as [->|Hd]; [by rewrite bool_decide_eq_true_2|].
    by rewrite bool_decide_eq_false_2.
  - intros t from to _. destruct t as [|d l| |]; try done. simpl. by destruct (is_symbolic (App d l)).
  - intros d l from to Hd _. by rewrite (not_true_is_false _ (Hd l)).
  - intros c n s _. rewrite orb_false_r. by intros ?%term_eqb_spec.
  - intros c b Hc. apply not_true_iff_false. intros [Ho%term_eqb_spec|Ho]%orb_true_iff; [subst c; by destruct b|done].
  - intros c v s t Hc [= <-]. apply not_true_iff_false. intros [Ho%term_eqb_spec|Ho]%orb_true_iff; [by subst c|done].
  - intros c o l t Hc Ht Ho. destruct (sort_of_op o _); [|done]. injection Ht as <-. simpl in Ho.
    apply orb_true_iff in Ho as [Ho%term_eqb_spec|Ho]; [subst c; by destruct o|].
    apply existsb_exists in Ho as (x & Hx & Ho). apply Exists_exists. exists x. split; [by apply list_elem_of_In|done].
Qed.

(** ** Values *)

Inductive V :=
| VInt (z : Z) | VBool (b : bool) | VNat (s : string) (k : nat) | VEnum (s : string) (i : nat)
| VPair (s : string) (a b : V) | VArray (s : string) (default : V) (entries : list (V * V)) | VOther (s : string).

#[export] Instance V_eq_dec : EqDecision V.
Proof.
  notypeclasses refine (fix IH x y {struct x} : Decision (x = y) := _).
  destruct x as [a|a|s a|s a|s a a'|s d l|s], y as [b|b|t b|t b|t b b'|t d' l'|t]; try (by right).
  - by destruct (decide (a = b)) as [->|]; [left|right; congruence].
  - by destruct (decide (a = b)) as [->|]; [left|right; congruence].
  - by destruct (decide (s = t)) as [->|]; [|right; congruence]; destruct (decide (a = b)) as [->|]; [left|right; congruence].
  - by destruct (decide (s = t)) as [->|]; [|right; congruence]; destruct (decide (a = b)) as [->|]; [left|right; congruence].
  - destruct (decide (s = t)) as [->|]; [|right; congruence]. destruct (IH a b) as [->|]; [|right; congruence].
    by destruct (IH a' b') as [->|]; [left|right; congruence].
  - destruct (decide (s = t)) as [->|]; [|right; congruence]. destruct (IH d d') as [->|]; [|right; congruence].
    assert (Hl : Decision (l = l')); [|by destruct Hl as [->|]; [left|right; congruence]]. revert l'.
    induction l as [|[k v] l IHl]; intros [|[k' v'] l']; try (by right); [by left|].
    destruct (IH k k') as [->|]; [|right; congruence]. destruct (IH v v') as [->|]; [|right; congruence].
    by destruct (IHl l') as [->|]; [left|right; congruence].
  - by destruct (decide (s = t)) as [->|]; [left|right; congruence].
Defined.

Definition nat_name (s : string) : option string :=
  match s with String "N" (String "a" (String "t" (String ":" r))) => Some r | _ => None end.

Definition reserved (s : string) : bool :=
  (s =? "Int")%string || (s =? "Bool")%string || bool_decide (is_Some (nat_name s)) || (0 <? enum_count s).
Definition unreserved (s : string) : string := if reserved s then "?" else s.

Definition sort_of_value (v : V) : string :=
  match v with
  | VInt _ => "Int" | VBool _ => "Bool" | VNat s _ => nat_sort s
  | VEnum s i => if i <? enum_count s then s else "?"
  | VPair s _ _ => unreserved s | VArray s _ _ => unreserved s | VOther s => unreserved s
  end.

Definition default_value (s : string) : V :=
  if (s =? "Int")%string then VInt 0 else if (s =? "Bool")%string then VBool true
  else match nat_name s with
       | Some n => VNat n 0
       | None => if 0 <? enum_count s then VEnum s 0 else VOther s
       end.

Lemma nat_name_sort s n : nat_name s = Some n -> s = nat_sort n.
Proof. unfold nat_name. repeat case_match; try done. by intros [= ->]. Qed.

Lemma default_value_sort s : sort_of_value (default_value s) = s.
Proof.
  unfold default_value. destruct (String.eqb_spec s "Int") as [->|]; [done|].
  destruct (String.eqb_spec s "Bool") as [->|]; [done|]. destruct (nat_name s) eqn:E; [by rewrite (nat_name_sort _ _ E)|].
  destruct (0 <? enum_count s) eqn:Ec; simpl; [by rewrite Ec|]. unfold unreserved, reserved.
  rewrite (proj2 (String.eqb_neq s "Int")), (proj2 (String.eqb_neq s "Bool")), Ec by done.
  rewrite E, bool_decide_eq_false_2; [done|]. by intros [? ?].
Qed.

Lemma unreserved_sort s t : unreserved s = t -> reserved t = true -> False.
Proof. unfold unreserved. destruct (reserved s) eqn:E; [by intros <-|intros ->; congruence]. Qed.

Lemma nat_value v s : sort_of_value v = nat_sort s -> exists k, v = VNat s k.
Proof.
  destruct v as [| |s' k|s' i|s' a b|s' d l|s']; simpl; try done;
    [intros [= ->]; eauto| |intros E%unreserved_sort; done..].
  destruct (i <? enum_count s') eqn:E; [|done]. intros ->. done.
Qed.

Lemma enum_value v s : 0 < enum_count s -> sort_of_value v = s -> exists i, v = VEnum s i /\ i < enum_count s.
Proof.
  intros Hs. assert (Hr : reserved s = true) by (unfold reserved; apply orb_true_iff; right; by apply Nat.ltb_lt).
  destruct v as [| |s' k|s' i|s' a b|s' d l|s']; simpl; try (by intros E%unreserved_sort); intros E;
    try (rewrite <- E in Hs; simpl in Hs; lia).
  destruct (i <? enum_count s') eqn:Ei; [|rewrite <- E in Hs; simpl in Hs; lia]. subst s'. exists i.
  split; [done|by apply Nat.ltb_lt].
Qed.

(** ** Meaning *)

Definition truth (v : V) : bool := match v with VBool b => b | _ => false end.

Definition select_value (a k : V) : V :=
  match a with
  | VArray _ d l => default d (snd <$> list_find (fun kv => kv.1 = k) l ≫= fun p => Some p.2)
  | _ => VBool false
  end.
Definition store_value (a k v : V) : V :=
  match a with
  | VArray s d l => VArray s d ((k, v) :: l)
  | _ => VArray (sort_of_value a) (VBool false) [(k, v)]
  end.

Definition apply_op (k : DeclKind) (range : string) (vs : list V) : V :=
  match k, vs with
  | OP_TRUE, _ => VBool true
  | OP_ADD, [VInt a; VInt b] => VInt (a + b)
  | OP_SUB, [VInt a; VInt b] => VInt (a - b)
  | OP_NOT, [a] => VBool (negb (truth a))
  | OP_AND, [a; b] => VBool (truth a && truth b)
  | OP_OR, [a; b] => VBool (truth a || truth b)
  | OP_IMPLIES, [a; b] => VBool (implb (truth a) (truth b))
  | OP_ITE, [c; a; b] => if truth c then a else b
  | OP_EQ, [a; b] => VBool (bool_decide (a = b))
  | OP_CONST_ARRAY, [v] => VArray range v []
  | OP_SELECT, [a; i] => select_value a i
  | OP_STORE, [a; i; v] => store_value a i v
  | _, _ => VBool false
  end.

(** The value a made declaration builds. *)
Definition construct (d : StructuralDecl) (vs : list V) : V :=
  match nat_name (sd_range d), vs with
  | Some s, [VNat _ k] => VNat s (S k)
  | _, _ => default_value (sd_range d)
  end.

(** Zero, a successor, and the predecessor. *)
Definition apply_tag (tag : Z) (d : StructuralDecl) (vs : list V) : V :=
  match tag, vs with
  | 0%Z, [VNat _ k] => VBool (k =? 0)
  | 1%Z, [VNat _ k] => VBool (negb (k =? 0))
  | 2%Z, [VNat s (S k)] => VNat s k
  | _, _ => default_value (sd_range d)
  end.

(** A world interprets the relations. *)
Definition W : Type := string -> list V -> bool.

Definition apply_relation (w : W) (d : StructuralDecl) (vs : list V) : V :=
  match sd_name d with
  | SString n => if (sd_range d =? "Bool")%string then VBool (w n vs) else default_value (sd_range d)
  | _ => default_value (sd_range d)
  end.

Definition apply_made (w : W) (d : StructuralDecl) (vs : list V) : V :=
  match sd_kind d, sd_parameters d with
  | OP_TRUE, _ => VBool true
  | OP_FALSE, _ => VBool false
  | _, [PInternal] => construct d vs
  | _, [PInternal; PInt tag] => apply_tag tag d vs
  | _, [PInternal; PInternal] => apply_relation w d vs
  | _, [PInternal; PInternal; PInt i] => VEnum (sd_range d) (Z.to_nat i)
  | _, [PInternal; PSymbol _] => match vs with [a; b] => VPair (sd_range d) a b | _ => default_value (sd_range d) end
  | _, _ => apply_op (sd_kind d) (sd_range d) vs
  end.

Fixpoint set_constants (e : Term -> V) (from : list Term) (vs : list V) : Term -> V :=
  match from, vs with
  | c :: from', v :: vs' => fun t => if term_eqb c t then v else set_constants e from' vs' t
  | _, _ => e
  end.

Definition digits_of (v : string) : Z :=
  foldl (fun z c => (z * 10 + Z.of_N (N_of_ascii c - 48))%Z) 0%Z (list_ascii_of_string v).

Definition decided (P : Prop) : V := if excluded_middle_informative P then VBool true else VBool false.

Fixpoint value_of (w : W) (t : Term) (e : Term -> V) : V :=
  if is_symbolic t then e t
  else match t with
       | Numeral v _ => VInt (digits_of v)
       | App d l => apply_made w d ((fun x => value_of w x e) <$> l)
       | Var _ s => default_value s
       | Quant QLambda _ _ _ _ [from; to] _ b => value_of w b (set_constants e from ((fun x => value_of w x e) <$> to))
       | Quant QForall _ _ _ bs _ _ b =>
           decided (forall vs, Forall2 (fun c v => sort_of_value v = sort_of c) (bound_constant <$> bs) vs ->
                      value_of w b (set_constants e (bound_constant <$> bs) vs) = VBool true)
       | Quant QExists _ _ _ bs _ _ b =>
           decided (exists vs, Forall2 (fun c v => sort_of_value v = sort_of c) (bound_constant <$> bs) vs /\
                      value_of w b (set_constants e (bound_constant <$> bs) vs) = VBool true)
       | _ => VBool false
       end.

#[export] Instance meaning : Z3Meaning := {|
  World := W;
  Value := V;
  value_sort := sort_of_value : V -> @Sort data;
  vbool := VBool;
  eval := fun w e t => value_of w t e
|}.

Lemma set_constants_assign e from vs : set_constants e from vs = assign e from vs.
Proof. reflexivity. Qed.

Definition default_env (c : Term) : V := default_value (sort_of c).

Lemma values_env_ok : env_ok default_env.
Proof. intros c _. apply default_value_sort. Qed.

Lemma set_constants_agree e e' from vs c : e c = e' c -> set_constants e from vs c = set_constants e' from vs c.
Proof. intros E. revert vs. induction from as [|d from IH]; intros [|v vs]; simpl; try done. by destruct (term_eqb d c). Qed.

Lemma decided_iff P Q : (P <-> Q) -> decided P = decided Q.
Proof. intros E. unfold decided. do 2 destruct (excluded_middle_informative _); tauto. Qed.

Lemma occurs_self c : is_symbolic c = true -> occurs c c = true.
Proof. intros (n & s & ->)%symbolic_const. simpl. by rewrite !bool_decide_true. Qed.

Lemma existsb_elem {A} (f : A -> bool) l i x : l !! i = Some x -> f x = true -> existsb f l = true.
Proof. intros Hi Hf. apply existsb_exists. exists x. split; [|done]. by eapply list_elem_of_In, list_elem_of_lookup_2. Qed.

Lemma value_of_ext w t : forall e e',
  (forall c, is_symbolic c = true -> occurs c t = true -> e c = e' c) -> value_of w t e = value_of w t e'.
Proof.
  induction t as [v s|d l IH|i s|k wt q s bs ps ns b Hps _ Hb] using Term_nested_ind; intros e e' Hc; try done.
  - simpl. destruct (is_symbolic (App d l)) eqn:E; [apply Hc; [done|by apply occurs_self]|].
    f_equal. apply list_fmap_ext. intros i t Hi. rewrite Forall_lookup in IH. apply (IH i t Hi).
    intros c Hs Ho. apply Hc; [done|]. simpl. apply orb_true_iff. right. by eapply existsb_elem.
  - assert (Hbody : forall c, is_symbolic c = true -> occurs c b = true -> e c = e' c).
    { intros c Hs Ho. apply Hc; [done|]. simpl. by rewrite Ho, !orb_true_r. }
    destruct k; simpl.
    + apply decided_iff. split; intros Hall vs Hvs; rewrite <- (Hall vs Hvs); apply Hb; intros c Hs Ho;
        apply set_constants_agree; [symmetry|]; by apply Hbody.
    + apply decided_iff. split; intros (vs & Hvs & Hv); exists vs; split; try done; rewrite <- Hv; apply Hb;
        intros c Hs Ho; apply set_constants_agree; [symmetry|]; by apply Hbody.
    + destruct ps as [|from [|to [|]]]; [done|done| |done].
      assert (Eto : (fun x => value_of w x e) <$> to = (fun x => value_of w x e') <$> to).
      { apply list_fmap_ext. intros i t Hi. rewrite Forall_lookup in Hps. pose proof (Hps 1 to eq_refl) as Hto.
        rewrite Forall_lookup in Hto. apply (Hto i t Hi). intros c Hs Ho. apply Hc; [done|]. simpl.
        pose proof (existsb_elem (occurs c) to i t Hi Ho). rewrite !orb_true_iff. tauto. }
      rewrite Eto. apply Hb. intros c Hs Ho. apply set_constants_agree. by apply Hbody.
Qed.

Lemma is_symbolic_map d l (f : Term -> Term) : is_symbolic (App d (f <$> l)) = is_symbolic (App d l).
Proof. by destruct d as [[] [] [|] [|] r], l. Qed.

Lemma substitute_value w e t from to :
  value_of w (substitute t from to) e = value_of w t (set_constants e from ((fun x => value_of w x e) <$> to)).
Proof.
  induction t as [v s|d l IH|i s|k wt q s bs ps ns b _ _ _] using Term_nested_ind; try done. simpl substitute.
  destruct (is_symbolic (App d l)) eqn:E; [done|]. cbn [value_of]. rewrite is_symbolic_map, E.
  f_equal. rewrite <- list_fmap_compose. apply list_fmap_ext. intros i t Hi. rewrite Forall_lookup in IH. by apply (IH i t Hi).
Qed.

Lemma truth_holds v : truth v = true <-> v = VBool true.
Proof. destruct v as [|[]| | | | |]; simpl; split; congruence. Qed.

Lemma value_of_operation w k l r e :
  k <> OP_OTHER -> value_of w (operation k l r) e = apply_op k r ((fun x => value_of w x e) <$> l).
Proof. intros Hk. simpl. by destruct k. Qed.

Lemma sample_not w a e : holds w e (expr_not a) <-> ~ holds w e a.
Proof.
  unfold holds. simpl. pose proof (truth_holds (value_of w a e)) as Ht.
  unfold apply_made. simpl. destruct (truth (value_of w a e)); simpl; split; [done|by intros []; apply Ht|by intros _ ?%Ht|done].
Qed.

#[export] Instance meaning_laws : Z3MeaningLaws.
Proof.
  split; simpl.
  - exists (fun _ _ => true), default_env. apply values_env_ok.
  - done.
  - done.
  - by intros n n' s s' [= ->].
  - done.
  - done.
  - intros w e c (n & s & ->)%symbolic_const. done.
  - intros w e e' t Hc. by apply value_of_ext.
  - intros w e t from to _ _ _. apply substitute_value.
  - intros w e t. apply sample_not.
  - intros w e a b. unfold holds. simpl. pose proof (truth_holds (value_of w a e)) as Ha.
    pose proof (truth_holds (value_of w b e)) as Hb. unfold apply_made. simpl.
    destruct (truth (value_of w a e)), (truth (value_of w b e)); simpl; split; intros; intuition congruence.
  - intros w e t. unfold holds. simpl. destruct (decide (value_of w t e = VBool true)); auto.
  - intros w e c a b Hc. unfold holds in Hc. simpl in *. unfold apply_made. simpl. by rewrite Hc.
  - intros w e c a b Hc. unfold holds in Hc. simpl in *. rewrite <- truth_holds in Hc. unfold apply_made. simpl.
    by destruct (truth _).
  - intros c a b (n & s & ->)%symbolic_const. simpl. rewrite !orb_true_iff. naive_solver.
  - intros c a b (n & s & ->)%symbolic_const. simpl. rewrite !orb_true_iff. naive_solver.
  - by intros c n (m & s & ->)%symbolic_const.
Qed.

Lemma bound_constants bound : Forall symbolic bound -> bound_constant <$> (binder <$> bound) = bound.
Proof.
  induction 1 as [|c bound Hc _ IH]; [done|]. simpl. f_equal; [|exact IH].
  by apply symbolic_const in Hc as (n & s & ->).
Qed.

Lemma op_value w o l t e :
  z3_op o l = Some t -> value_of w t e = apply_op (op_kind o) (sort_of t) ((fun x => value_of w x e) <$> l).
Proof.
  simpl. destruct (sort_of_op o (sort_of <$> l)); [|done]. intros [= <-]. apply value_of_operation. by destruct o.
Qed.

Lemma decided_holds P : decided P = VBool true <-> P.
Proof. unfold decided. by destruct (excluded_middle_informative P). Qed.

(** The declarations of the natural numbers, on values. *)
Lemma nat_like_decls specs n s ds :
  nat_like specs = true -> Some (nat_sort n, ctor_decls (nat_sort n) <$> specs) = Some (s, ds) ->
  s = nat_sort n /\ exists z zr c r f, ds =
    [mkCtorDecls (made z [] s) (tagged 0 zr [s] "Bool") [];
     mkCtorDecls (made c [s] s) (tagged 1 r [s] "Bool") [tagged 2 f [s] s]].
Proof.
  intros El [= <- <-]. split; [done|]. unfold nat_like in El. repeat case_match; try done. simplify_eq/=. by eexists _, _, _, _, _.
Qed.

#[export] Instance build_meaning : Z3BuildMeaning.
Proof.
  refine {| apply_decl := apply_made |}; simpl.
  - intros w e d l Hd. by rewrite (not_true_is_false _ (Hd l)).
  - done.
  - done.
  - intros w e a b t Ht. unfold holds. simpl. rewrite (op_value w ZAnd [a; b] t e Ht). simpl.
    rewrite <- !truth_holds. by destruct (truth (value_of w a e)), (truth (value_of w b e)); simpl; intuition.
  - intros w e a b t Ht. unfold holds. simpl. rewrite (op_value w ZImplies [a; b] t e Ht). simpl.
    rewrite <- !truth_holds. destruct (truth (value_of w a e)), (truth (value_of w b e)); simpl; intuition done.
  - intros w e a b t Ht. unfold holds. simpl. rewrite (op_value w ZOr [a; b] t e Ht). simpl.
    rewrite <- !truth_holds. by destruct (truth (value_of w a e)), (truth (value_of w b e)); simpl; intuition.
  - intros w e a t Ht. unfold holds. simpl. rewrite (op_value w ZNot [a] t e Ht). simpl.
    rewrite <- !truth_holds. destruct (truth (value_of w a e)); simpl; intuition done.
  - intros w e a b t Ht. unfold holds. simpl. rewrite (op_value w ZEq [a; b] t e Ht). simpl. split.
    + intros [= E]. by apply bool_decide_eq_true in E.
    + intros E. by rewrite bool_decide_true.
  - intros w e c a b t Ht. unfold holds. simpl. rewrite (op_value w ZIte [c; a; b] t e Ht). simpl.
    rewrite <- !truth_holds. by destruct (truth (value_of w c e)).
  - intros w e qid bound body t Ht Hs _. case_bool_decide; [done|]. injection Ht as <-. unfold holds. simpl.
    rewrite bound_constants by done. apply decided_holds.
  - intros w e bound body t Ht Hs _. case_bool_decide; [done|]. injection Ht as <-. unfold holds. simpl.
    rewrite bound_constants by done. apply decided_holds.
  - intros w e bound body t Ht Hs _. case_bool_decide; [done|]. injection Ht as <-. unfold holds. simpl.
    rewrite bound_constants by done. apply decided_holds.
  - intros n specs s ds w i j r q vs E _ Hi Hj Hvs. destruct (nat_like specs) eqn:El; [|done].
    destruct (nat_like_decls _ _ _ _ El E) as (-> & z & zr & c & cr & f & ->).
    destruct j as [|[|j]]; [| |done]; injection Hj as <-; simpl in Hvs.
    + apply Forall2_nil_inv_l in Hvs as ->. by destruct i as [|[|i]]; [| |done]; injection Hi as <-.
    + apply Forall2_cons_inv_l in Hvs as (v & vs' & Hv & ->%Forall2_nil_inv_l & ->).
      apply nat_value in Hv as [k ->]. by destruct i as [|[|i]]; [| |done]; injection Hi as <-.
  - intros n specs s ds w i r j a vs v E Hi Ha Hvs Hv. destruct (nat_like specs) eqn:El; [|done].
    destruct (nat_like_decls _ _ _ _ El E) as (-> & z & zr & c & cr & f & ->).
    destruct i as [|[|i]]; [| |done]; injection Hi as <-; [done|]. simpl in Hvs, Ha.
    destruct j as [|j]; [|done]. injection Ha as <-.
    apply Forall2_cons_inv_l in Hvs as (u & vs' & Hu & ->%Forall2_nil_inv_l & ->). injection Hv as <-.
    by apply nat_value in Hu as [k ->].
  - intros n specs s ds w P E Hstep v Hv. destruct (nat_like specs) eqn:El; [|done].
    destruct (nat_like_decls _ _ _ _ El E) as (-> & z & zr & c & cr & f & ->).
    apply nat_value in Hv as [k ->]. simpl in Hstep. induction k as [|k IH].
    + apply (Hstep _ [] (list_elem_of_here _ _)); [constructor|]. by intros j v.
    + apply (Hstep _ [VNat n k] (list_elem_of_further _ _ _ (list_elem_of_here _ _))).
      * by repeat constructor.
      * intros [|j] v; [|done]. by intros _ [= <-].
Defined.

Lemma select_store a k v i :
  i = k /\ select_value (store_value a k v) i = v \/ i <> k /\ select_value (store_value a k v) i = select_value a i.
Proof.
  destruct (decide (i = k)) as [->|Hi]; [left|right]; (split; [done|]).
  - by destruct a; simpl; rewrite decide_True.
  - destruct a as [| | | | |s d l|]; simpl; rewrite decide_False by congruence; try done. by destruct (list_find _ l) as [[j [x y]]|].
Qed.

#[export] Instance table_meaning : Z3TableMeaning.
Proof.
  refine {| vselect := select_value |}; simpl.
  - intros w e a i t Ht. by rewrite (op_value w ZSelect [a; i] t e Ht).
  - intros w e s x t v [= <-]. done.
  - intros w e a i x t v Ht. rewrite (op_value w ZStore [a; i; x] t e Ht). apply select_store.
  - intros n names s ds w v [= <- <-] Hne Hv. apply enum_value in Hv as (i & -> & Hi).
    2:{ rewrite enum_count_sort. destruct names; [done|simpl; lia]. }
    rewrite enum_count_sort in Hi. destruct (lookup_lt_is_Some_2 names i Hi) as [x Hx].
    exists (enumerated (enum_sort n (length names)) i x). split.
    + apply (list_elem_of_lookup_2 _ i). by rewrite list_lookup_imap, Hx.
    + unfold apply_made. simpl. by rewrite Nat2Z.id.
  - intros n names s ds w d [= <- <-] (i & Hd)%list_elem_of_lookup. rewrite list_lookup_imap in Hd.
    destruct (names !! i) eqn:Ei; [|done]. injection Hd as <-. unfold apply_made. cbn [sd_kind sd_parameters enumerated sd_range sort_of_value].
    rewrite Nat2Z.id, enum_count_sort. apply lookup_lt_Some in Ei. by apply Nat.ltb_lt in Ei as ->.
  - intros w e [|[k n ps dom r] l| |]; try done. simpl. intros ->%bool_decide_eq_true. done.
  - intros w e [|[k n ps dom r] l| |]; try done. simpl. intros ->%bool_decide_eq_true. done.
Defined.

(** ** A solver that recognizes some tautologies *)

Fixpoint tautology (t : Term) : bool :=
  match t with
  | App d [] => bool_decide (sd_kind d = OP_TRUE) && bool_decide (sd_parameters d = [])
  | App d [a; b] =>
      bool_decide (sd_parameters d = []) &&
      match sd_kind d with
      | OP_AND => tautology a && tautology b
      | OP_IMPLIES => tautology b
      | OP_EQ => term_eqb a b
      | _ => false
      end
  | Quant QLambda _ _ _ _ [_; _] _ b => tautology b
  | _ => false
  end.

Lemma tautology_value w t e : tautology t = true -> value_of w t e = VBool true.
Proof.
  revert e. induction t as [v s|d l IH|i s|k wt q s bs ps ns b _ _ IHb] using Term_nested_ind; intros e; try done.
  - destruct l as [|a [|b [|]]]; try done; simpl.
    + intros [Hk%bool_decide_eq_true Hp%bool_decide_eq_true]%andb_true_iff. unfold apply_made. rewrite Hp, Hk. simpl.
      destruct d as [k ? ? ? ?]. simpl in *. by subst.
    + apply Forall_cons in IH as [IHa [IHb _]%Forall_cons]. intros [Hp%bool_decide_eq_true Hk]%andb_true_iff.
      assert (is_symbolic (App d [a; b]) = false) as -> by (by destruct d as [[] [] [|] [|] r]).
      unfold apply_made. rewrite Hp. simpl. destruct (sd_kind d); try done; simpl.
      * apply term_eqb_spec in Hk as ->. by rewrite (bool_decide_true _ eq_refl).
      * apply andb_true_iff in Hk as [Ha Hb]. by rewrite IHa, IHb.
      * rewrite (IHb e Hk). by rewrite implb_true_r.
  - destruct k; try done. destruct ps as [|from [|to [|]]]; try done. simpl. apply IHb.
Qed.

(** The conjuncts of an assertion. *)
Fixpoint conjuncts (t : Term) : list Term :=
  match t with
  | App d [a; b] => if bool_decide (d = decl OP_AND "op" [sort_of a; sort_of b] "Bool") then conjuncts a ++ conjuncts b else [t]
  | _ => [t]
  end.

Lemma conjuncts_value w t e : value_of w t e = VBool true -> Forall (fun c => value_of w c e = VBool true) (conjuncts t).
Proof.
  induction t as [v s|d l IH|i s|k wt q s bs ps ns b _ _ _] using Term_nested_ind; intros Ht; try by constructor.
  destruct l as [|a [|b [|]]]; try by constructor. simpl conjuncts. case_bool_decide as Hd; [|by constructor]. subst d.
  apply Forall_cons in IH as [IHa [IHb _]%Forall_cons]. simpl in Ht. unfold apply_made in Ht. simpl in Ht.
  injection Ht as [Ha%truth_holds Hb%truth_holds]%andb_true_iff. apply Forall_app. split; [by apply IHa|by apply IHb].
Qed.

(** What a list of facts gives. *)
Fixpoint entailed (facts : list Term) (t : Term) : bool :=
  tautology t || existsb (term_eqb t) facts ||
  match t with
  | App d [a; b] => bool_decide (d = decl OP_AND "op" [sort_of a; sort_of b] "Bool") && entailed facts a && entailed facts b
  | _ => false
  end.

Lemma entailed_value w facts t e :
  Forall (fun c => value_of w c e = VBool true) facts -> entailed facts t = true -> value_of w t e = VBool true.
Proof.
  intros Hf. rewrite Forall_forall in Hf.
  assert (Hbase : forall t, tautology t || existsb (term_eqb t) facts = true -> value_of w t e = VBool true).
  { intros u [Hu|(c & Hc & ->%term_eqb_spec)%existsb_exists]%orb_true_iff; [by apply tautology_value|]. apply Hf. by apply list_elem_of_In. }
  induction t as [v s|d l IH|i s|k wt q s bs ps ns b _ _ _] using Term_nested_ind; intros Ht;
    try (apply Hbase; revert Ht; cbn [entailed]; rewrite orb_false_r; exact id).
  cbn [entailed] in Ht. apply orb_true_iff in Ht as [Hb|Hl]; [by apply Hbase|]. destruct l as [|a [|b [|]]]; try done.
  apply andb_true_iff in Hl as [[Hd%bool_decide_eq_true Ha]%andb_true_iff Hb]. subst d.
  apply Forall_cons in IH as [IHa [IHb _]%Forall_cons]. simpl. unfold apply_made. simpl. by rewrite IHa, IHb.
Qed.

(** A fact is the negation of what the facts give. *)
Definition refutable (facts : list Term) (t : Term) : bool :=
  match t with App d [a] => bool_decide (d = decl OP_NOT "op" [sort_of a] "Bool") && entailed facts a | _ => false end.

Lemma refutable_value w facts t e :
  Forall (fun c => value_of w c e = VBool true) facts -> refutable facts t = true -> value_of w t e <> VBool true.
Proof.
  intros Hf. destruct t as [|d [|a [|]]| |]; try done. simpl. intros [->%bool_decide_eq_true Ha]%andb_true_iff.
  unfold apply_made. simpl. rewrite (entailed_value w facts a e Hf Ha). done.
Qed.

Definition check_sample (s : list (list Term)) (assumptions : list Term) : check_result * list (list Term) :=
  let facts := List.concat s ≫= conjuncts in (if existsb (refutable facts) facts then unsat else unknown, s).

#[export] Instance sample_solver : Z3Solver := {|
  solver := list (list Term);
  Model := Term -> Term;
  mk_solver := [[]];
  s_push := fun s => [] :: s;
  s_pop := tail;
  s_add := fun s t => match s with f :: fs => (f ++ [t]) :: fs | [] => [] end;
  s_check := check_sample;
  s_unsat_core := fun _ => [];
  s_get_model := fun _ => id;
  s_reason_unknown := fun _ => "incomplete";
  model_eval := fun m => m;
  simplify := fun t => t;
  theory_rewrite := fun t => ([], t)
|}.

#[export] Instance sample_laws : Z3SolverLaws.
Proof.
  assert (Hunsat : forall (s : list (list Term)) l (w : World) (e : Env),
    (check_sample s l).1 = unsat -> ~ all_hold w e (List.concat s)).
  { intros s l w e E Hall. unfold check_sample in E. simpl in E. destruct (existsb _ _) eqn:Ex; [|done].
    assert (Hf : Forall (fun c => value_of w c e = VBool true) (List.concat s ≫= conjuncts)).
    { clear -Hall. unfold all_hold in Hall. induction Hall as [|t l Ht _ IH]; simpl; [constructor|].
      apply Forall_app. split; [by apply conjuncts_value|exact IH]. }
    apply existsb_exists in Ex as (t & Ht & Hr). rewrite Forall_forall in Hf.
    eapply (refutable_value w _ t e); [by apply Forall_forall|exact Hr|]. apply Hf. by apply list_elem_of_In. }
  refine {| frames := id : solver -> list (list Term) |}; simpl; try done.
  - by intros s f fs ->.
  - by intros s t f fs ->.
  - intros s l. by destruct (existsb _ _).
  - intros s l w e E _ Ha _. by eapply (Hunsat s l w e).
  - intros s l _. set_solver.
  - intros s l w e E _ Ha _. by eapply (Hunsat s l w e).
Qed.

#[export] Instance sample_models : Z3ModelLaws.
Proof. split. intros s. simpl. by destruct (existsb _ _). Qed.

#[export] Instance sample_check : Z3Check := {| s_set := fun s _ => s; s_events := fun _ => [] |}.

#[export] Instance sample_check_laws : Z3CheckLaws.
Proof. by split. Qed.

(** A fixedpoint engine that never decides. *)
#[export] Instance sample_fixedpoint : Z3Fixedpoint := {|
  fp_query := fun _ _ => Some unknown;
  fp_events := fun _ _ => [];
  fp_answer := fun _ t => t;
  fp_reason_unknown := fun _ _ => "incomplete"
|}.

Lemma sample_function_name n n' dom dom' r r' : z3_function n dom r = z3_function n' dom' r' -> n = n'.
Proof. simpl. by repeat case_bool_decide; intros [= ->]. Qed.

Lemma sample_declared d : declared_function d -> sd_kind d = OP_OTHER /\ (sd_parameters d = [] \/ sd_parameters d = [PInternal; PInternal]).
Proof. intros (n & dom & r & ->). simpl. case_bool_decide; split; auto. Qed.

Lemma sample_operator_head o l d l' : z3_op o l = Some (App d l') -> ~ declared_function d.
Proof. simpl. destruct (sort_of_op _ _); [|done]. intros [= <- _] [Hk _]%sample_declared. by destruct o. Qed.
Lemma sample_operator_mentions relations o l t : Forall declared_function relations -> z3_op o l = Some t ->
  mentions relations t = true -> Exists (fun x => mentions relations x = true) l.
Proof.
  intros Hd Ht Hm. pose proof Ht as Hop. simpl in Ht. destruct (sort_of_op _ _); [|done]. injection Ht as <-. simpl in Hm.
  apply orb_true_iff in Hm as [[Hin%bool_decide_eq_true _]%andb_true_iff|(x & Hx & Hm)%existsb_exists].
  - rewrite Forall_forall in Hd. by destruct (sample_operator_head _ _ _ _ Hop); apply Hd.
  - apply Exists_exists. exists x. split; [by apply list_elem_of_In|done].
Qed.
Lemma sample_truth_mentions relations b : Forall declared_function relations -> mentions relations (bool_val b) = false.
Proof.
  intros Hd. apply not_true_is_false. intros Hm. apply orb_true_iff in Hm as [[Hin%bool_decide_eq_true _]%andb_true_iff|Hm]; [|done].
  rewrite Forall_forall in Hd. apply Hd, sample_declared in Hin as [Hk _]. by destruct b.
Qed.
Lemma sample_numeral_mentions relations v s t : mk_numeral v s = Some t -> mentions relations t = false.
Proof. by intros [= <-]. Qed.
Lemma sample_datatype_declared n specs s ds c : mk_datatype n specs = Some (s, ds) -> c ∈ ds -> ~ declared_function (cd_constructor c).
Proof.
  simpl. destruct (nat_like specs); [|done]. intros [= <- <-] (x & -> & _)%list_elem_of_fmap [_ [Hp|Hp]]%sample_declared; done.
Qed.
Lemma sample_enumeration_declared n names s ds d : enumeration_sort n names = (s, ds) -> d ∈ ds -> ~ declared_function d.
Proof.
  intros [= <- <-] (i & Hi)%list_elem_of_lookup [_ Hp]%sample_declared. rewrite list_lookup_imap in Hi.
  destruct (names !! i); [|done]. injection Hi as <-. by destruct Hp.
Qed.
Lemma sample_tuple_declared n fields : ~ declared_function (tuple_sort n fields).
Proof. intros [_ Hp]%sample_declared. by destruct Hp. Qed.
Lemma sample_recfun_declared n dom r : ~ declared_function (recfun n dom r).
Proof. intros [_ Hp]%sample_declared. by destruct Hp. Qed.

(** The laws on declarations, whatever the engine answers. *)
Ltac declaration_laws :=
  split; [reflexivity|exact sample_function_name|exact sample_operator_head|exact sample_operator_mentions|exact sample_truth_mentions|
    exact sample_numeral_mentions|exact sample_datatype_declared|exact sample_enumeration_declared|exact sample_tuple_declared|
    exact sample_recfun_declared| |].

#[export] Instance sample_fixedpoint_laws : Z3FixedpointLaws.
Proof. by declaration_laws. Qed.
End RuntimeSample.
