(* ===== verification/RuntimeWitness.v ===== *)
(** * The runtime on a concrete document

    The theorems on the runtime applied to the sample instance of its
    interfaces: a document that declares the natural numbers and a recursive
    function, proves a fact by induction, and checks another one. *)

From stdpp Require Import gmap.
From S2P Require Import Prelude Format Syntax Lexer Printer LexerSpec Parser ParserSpec DocumentSpec PrintParse WitnessParse Diagnostics Source Z3Ast Z3Solver Z3Build Z3Check Z3Fixedpoint Lift Recorder Observers Runtime Elaborate Declare Values Check Execute Main RuntimeSpec ElaborateSpec DeclareSpec EnumSpec FunctionSpec CheckSpec CheckSound Synthesize SynthesizeSpec ValuesSpec CheckRefuted ExecuteSpec StructuralSpec MainSpec RuntimeSample.
From Stdlib Require Import NArith.

Module RuntimeWitness.
Import Structural RuntimeSample.

Definition source : string :=
  "enum Nat { zero, succ(p: Nat) }
function dup(n: Nat): Nat { match n { zero => zero(), succ(p) => succ(succ(dup(p))) } }
proof refl(n: Nat) { inducts(n); assumes {} ensures { n == n; } }
check again(n: Nat, b: Bool) { assumes { b; } ensures { n == n; } }".

Definition document : Document :=
  Eval vm_compute in match parse source with Ok d => d | _ => mkDocument default_span [] end.

Lemma document_parsed : parse source = Ok document.
Proof. vm_compute. reflexivity. Qed.

Definition show (_ : Term) : string := "t".
Definition ast_id (_ : Term) : N := 0%N.

Lemma pair_intro {A B} (p : A * B) (a : A) : p.1 = a -> p = (a, p.2).
Proof. by destruct p; intros [= <-]. Qed.

(** ** The natural numbers declared *)

Definition nat_decl : EnumDecl :=
  Eval vm_compute in match declarations document with mkDeclared (DEnum d) _ :: _ => d | _ => mkEnumDecl default_span "" [] end.
Definition dup_decl : FunctionDecl :=
  Eval vm_compute in match declarations document with
  | [_; mkDeclared (DFunction d) _; _; _] => d
  | _ => mkFunctionDecl default_span "" [] (mkType TNamed default_span "" []) (name_expr "") []
  end.
Definition refl_decl : CheckDecl :=
  Eval vm_compute in match declarations document with
  | [_; _; mkDeclared (DCheck d) _; _] => d
  | _ => mkCheckDecl default_span false "" [] None None None [] []
  end.

Abbreviation declared_nat := (declare_enum nat_decl (make_runtime None)).
Definition nat_state : RuntimeState := declared_nat.2.

Lemma nat_declared : declared_nat = (Ok tt, nat_state).
Proof. unfold nat_state. refine (pair_intro declared_nat (Ok tt) _). vm_compute. reflexivity. Qed.

Lemma nat_form : enum_form nat_decl.
Proof. split; [reflexivity|]. intros n Hn. vm_compute in Hn. repeat (apply elem_of_cons in Hn as [->|Hn]; [reflexivity|]). by apply elem_of_nil in Hn. Qed.

Lemma nat_keeps : keeps (make_runtime None) nat_state.
Proof. exact (yields_safe _ _ _ (declare_enum_safe nat_decl _ (make_runtime_ok None) nat_form) _ _ nat_declared). Qed.

Lemma nat_state_ok : runtime_ok nat_state.
Proof. exact (proj1 nat_keeps). Qed.

Lemma nat_state_predicates : predicates_ nat_state = ∅.
Proof. symmetry. exact (g_predicates _ _ (proj2 nat_keeps)). Qed.

Lemma nat_state_proofs : proofs_valid nat_state.
Proof.
  unfold proofs_valid. assert (E : admitted_proofs_ nat_state = []) by (vm_compute; reflexivity).
  rewrite E. constructor.
Qed.

Lemma nat_state_capture : capture_source_edges_ nat_state = false.
Proof. vm_compute. reflexivity. Qed.

Lemma nat_state_quiet : rainfall_ nat_state = None.
Proof. vm_compute. reflexivity. Qed.

Definition nat_rt : RuntimeType := mkRuntimeType KDatatype "Nat:Nat" "Nat" [] None (Some 0) None.

Lemma nat_state_type : type_heap nat_state !! 2 = Some nat_rt.
Proof. vm_compute. reflexivity. Qed.

Lemma declarations_safe_witness :
  safe_but_datatype (declare_enum nat_decl) (make_runtime None) (fun _ st' => runtime_ok st' /\ grows (make_runtime None) st').
Proof.
  apply (declarations_safe show ast_id source document (mkDeclared (DEnum nat_decl) 0) (declare_enum nat_decl) (make_runtime None)
    document_parsed); [|reflexivity|apply make_runtime_ok].
  vm_compute. apply list_elem_of_here.
Defined.

(** A pair of a number and a truth value, at two places of a source. *)
Definition pair_at (column : nat) : Type_ :=
  let sp := mkSpan (mkPosition column 1 column) (mkPosition column 1 column) in
  mkType TTuple sp "" [mkType TNamed sp "Nat" []; mkType TNamed sp "Bool" []].
Abbreviation pair_resolved := (resolve_type (pair_at 3) nat_state).
Definition pair_state : RuntimeState := pair_resolved.2.
Abbreviation pair_again := (resolve_type (pair_at 9) (add_value_name "x" pair_state)).

Lemma pair_first : pair_resolved = (Ok 3, pair_state).
Proof. refine (pair_intro pair_resolved (Ok 3) _). vm_compute. reflexivity. Qed.
Lemma pair_second : pair_again = (Ok 3, pair_again.2).
Proof. refine (pair_intro pair_again (Ok 3) _). vm_compute. reflexivity. Qed.


(** ** Elaboration *)

Definition sum : Expr :=
  plain_expr EBinary "" false "" OpGreaterEqual
    [plain_expr EBinary "" false "" OpAdd [name_expr "x"; integer_expr "1"]; integer_expr "-2"].
Definition sum_env : Environment := {["x" := mkTyped int_type_ (constant "x" int_sort)]}.

Lemma elaboration_type_safe_witness :
  safe (elaborate_expression show ast_id sum_env sum) nat_state (fun te st' =>
    runtime_ok st' /\ grows nat_state st' /\ has_type st' te /\ within sum_env (te_expression te)).
Proof.
  apply elaboration_type_safe; [reflexivity|exact nat_state_ok|].
  intros n te Hn. unfold sum_env in Hn. apply lookup_singleton_Some in Hn as [<- <-]. exists int_runtime_type.
  split; [exact (ok_int _ nat_state_ok)|reflexivity].
Defined.

(** ** A proof by induction *)

Abbreviation checked := (execute_check show ast_id refl_decl 0 nat_state).
Definition checked_state : RuntimeState := checked.2.

Lemma refl_form : check_form refl_decl.
Proof. split; [split; vm_compute; reflexivity|]. intros _. vm_compute. by eexists. Qed.

Lemma refl_checked : checked = (Ok (0, verified_text refl_decl), checked_state).
Proof.
  unfold checked_state. refine (pair_intro checked (Ok (0, verified_text refl_decl)) _). vm_compute. reflexivity.
Qed.

Lemma check_sound_witness :
  check_result_ok show ast_id refl_decl nat_state (0, verified_text refl_decl) checked_state.
Proof.
  exact (check_sound show ast_id refl_decl 0 nat_state checked_state (0, verified_text refl_decl)
    nat_state_ok nat_state_proofs refl_form nat_state_predicates refl_checked).
Defined.

Definition nat_type : TypePtr := 2.
Definition nat_term (owner : string) : Term := constant (arg_name owner 0) "Nat:Nat".
Definition nat_parameter : CheckParameter := mkCheckParameter "n" nat_type (nat_term "refl").
Definition refl_theorem : Term := operation OP_EQ [nat_term "refl"; nat_term "refl"] "Bool".

Lemma nat_parameter_ok : parameters_ok nat_state "refl" [nat_parameter].
Proof.
  intros [|i] p; [|done]. intros [= <-]. exists nat_rt. split; [exact nat_state_type|]. split; reflexivity.
Qed.

Lemma induction_obligation_sound_witness :
  safe (check_induction show ast_id refl_decl 0 (run_scope refl_decl) [nat_parameter] refl_theorem) nat_state (fun r st' =>
    runtime_ok st' /\ get_sort r.2 = bool_sort /\
    forall w, (forall e, env_ok e -> holds w e r.2) -> forall e, env_ok e -> holds w e refl_theorem).
Proof.
  apply (induction_obligation_sound show ast_id refl_decl 0 [nat_parameter] refl_theorem nat_state nat_state_ok);
    [intros _; vm_compute; by eexists|exact nat_parameter_ok|reflexivity|].
  assert (E : z3_op ZEq [nat_term "refl"; nat_term "refl"] = Some refl_theorem) by reflexivity. intros c Hc Ho.
  apply (occurs_op c _ _ _ Hc E), Exists_exists in Ho as (x & Hx & Ho).
  assert (x = nat_term "refl") as -> by set_solver. apply (occurs_constant c _ _ Hc) in Ho as ->. apply list_elem_of_here.
Defined.

(** ** Counterexamples *)

(** succ(zero()) *)
Definition zero_decl : Decl := made "zero" [] "Nat:Nat".
Definition succ_decl : Decl := made "succ" ["Nat:Nat"] "Nat:Nat".
Definition one : Term := App succ_decl [App zero_decl []].

Definition nat_info : DatatypeInfo := Eval vm_compute in default (mkDatatypeInfo "" 0 []) (datatype_heap nat_state !! 0).

Definition no_case : DatatypeCaseInfo := mkDatatypeCaseInfo "" [] [] zero_decl zero_decl [].
Definition zero_case : DatatypeCaseInfo := Eval vm_compute in default no_case (di_cases nat_info !! 0).
Definition succ_case : DatatypeCaseInfo := Eval vm_compute in default no_case (di_cases nat_info !! 1).

Lemma nat_info_found : datatype_heap nat_state !! 0 = Some nat_info.
Proof. vm_compute. reflexivity. Qed.

Lemma one_value : value_term nat_state nat_type one.
Proof.
  refine (vt_datatype nat_state 0 nat_info 1 succ_case [App zero_decl []] nat_info_found eq_refl _).
  apply Forall2_cons_2; [|apply Forall2_nil_2].
  refine (vt_datatype nat_state 0 nat_info 0 zero_case [] nat_info_found eq_refl _). apply Forall2_nil_2.
Qed.

Lemma counterexample_round_trip_witness :
  exists e e', lift_typed_expression one nat_type nat_state = (Ok e, nat_state) /\
    parse_expression (print_expression e) = Ok e' /\
    elaborate_expression show ast_id ∅ e' nat_state = (Ok (mkTyped nat_type one), nat_state).
Proof. exact (counterexample_round_trip show ast_id nat_state nat_state_ok nat_state_capture nat_type one one_value). Defined.

Definition model (t : Term) : Term := if term_eqb t (nat_term "refl") then one else bool_val true.
Definition parameters : list CheckParameter :=
  [nat_parameter; mkCheckParameter "b" bool_type_ (constant "b" bool_sort)].

Lemma refuted_reports_witness :
  exists text, refuted show ast_id refl_decl parameters model nat_state = (Ok (1, refuted_text refl_decl text), nat_state) /\
    witness_of show ast_id nat_state refl_decl parameters model text.
Proof.
  refine (refuted_reports show ast_id nat_state nat_state_ok nat_state_capture nat_state_quiet refl_decl parameters model eq_refl _ _).
  - repeat constructor.
  - constructor; [exact one_value|]. constructor; [exact (vt_bool nat_state true)|constructor].
Defined.

(** ** A recursive arm *)

Definition dup_state : RuntimeState :=
  add_function (mkFunctionInfo "dup" [nat_type] nat_type (made "dup" ["Nat:Nat"] "Nat:Nat")) "dup" nat_state.
Definition dup_context : FunctionContext :=
  mkFunctionContext dup_decl nat_info nat_type (nat_term "dup") 0
    {["n" := mkTyped nat_type (nat_term "dup")]} nat_type.
Definition dup_arm : MatchArm := default (mkMatchArm default_span "" [] (name_expr "")) (function_arms dup_decl !! 1).

Abbreviation dup_branch := (function_arm show ast_id dup_context ∅ dup_arm dup_state).

Definition dup_value : Term * Term := Eval vm_compute in match dup_branch.1 with Ok b => b | _ => (one, one) end.
Definition dup_after : RuntimeState := dup_branch.2.

Lemma dup_accepted : dup_branch = (Ok dup_value, dup_after).
Proof. unfold dup_after. refine (pair_intro dup_branch (Ok dup_value) _). vm_compute. reflexivity. Qed.

Lemma recursion_on_direct_fields_witness :
  exists item env recursive st1,
    item ∈ di_cases nat_info /\ dc_name item = arm_constructor dup_arm /\
    arm_bindings_loop item nat_type (nat_term "dup") 0 (arm_bindings dup_arm) ∅ (fc_environment dup_context) ∅ dup_state =
      (Ok (env, recursive), st1) /\
    forall call, inside (arm_value dup_arm) call -> kind call = ECall -> name call = function_name dup_decl ->
      length (elements call) = length (Syntax.function_parameters dup_decl) /\
      exists argument, elements call !! 0 = Some argument /\ kind argument = EName /\
        direct_field item nat_type (nat_term "dup") env (name argument).
Proof. exact (recursion_on_direct_fields show ast_id dup_context ∅ dup_arm dup_state dup_after dup_value dup_accepted). Defined.

(** ** A synthesis by cases *)

Definition size_decl : SynthDecl :=
  Eval vm_compute in
  match parse "synth size(n: Nat, k: Int): Int { match n { zero => k, succ(p) => k + 1, } ensures { result == result; } }" with
  | Ok (mkDocument _ [mkDeclared (DSynth d) _]) => d
  | _ => mkSynthDecl default_span "" [] (mkType TNamed default_span "" []) None [] []
  end.

Abbreviation synthesized := (execute_synthesis show ast_id 0 size_decl 0 nat_state).
Definition size_state : RuntimeState := synthesized.2.
Definition size_result : nat * string := Eval vm_compute in match synthesized.1 with Ok r => r | _ => (7, "") end.

Lemma size_synthesized : synthesized = (Ok size_result, size_state).
Proof. unfold size_state. refine (pair_intro synthesized (Ok size_result) _). vm_compute. reflexivity. Qed.

Lemma synthesis_sound_witness :
  size_result.1 = 0 /\ match_result show ast_id size_decl (default (name_expr "") (synth_scrutinee size_decl)) nat_state size_result.
Proof.
  split; [reflexivity|].
  exact (synthesis_sound show ast_id 0 size_decl 0 nat_state size_state size_result nat_state_ok size_synthesized).
Defined.

(** ** A rejected source *)

Definition only_bad (path : string) : FileResult := Contents bad_source.

Lemma rejected_source_reported_witness :
  exists text, parse_error_format 1000 "f.fine" bad_source bad_error = Ok text /\
    main show ast_id 0 1000 (mkEntropy 0 0 []) only_bad ""
      id (fun _ => "") ["run"; "f.fine"] = Some (mkExit EXIT_FAILURE "" (text +:+ newline_text)).
Proof.
  destruct (rejected_source_reported show ast_id 0 1000
    (mkEntropy 0 0 []) only_bad "" id (fun _ => "") "f.fine" bad_source bad_error) as (text & E & Hm).
  - reflexivity.
  - vm_compute. reflexivity.
  - vm_compute. split; [discriminate|reflexivity].
  - exists text. split; [exact E|]. apply Hm. by left.
Defined.
End RuntimeWitness.
