(* ===== verification/PredicateWitness.v ===== *)
(** * Predicates on a concrete document

    The theorems on predicates applied to the sample instance: a document
    that declares the even numbers as a predicate, proves a fact by induction
    over it, and checks another one.  [even_world] is a world in which the
    predicate is the least relation, so that the theorems are not vacuous. *)

From stdpp Require Import gmap.
From S2P Require Import Prelude Format Syntax Lexer Printer LexerSpec Parser ParserSpec DocumentSpec Source Z3Ast Z3Solver Z3Build Z3Check Z3Fixedpoint Lift Recorder Observers Runtime Elaborate Declare Values Predicate PredicateCheck Check Execute RuntimeSpec ElaborateSpec DeclareSpec EnumSpec FunctionSpec CheckSpec CheckSound PredicateSpec LayerSpec InductionSpec DeclarePredicateSpec PredicateSound ExecuteSpec ExecuteSound RuntimeSample RuntimeWitness.
From Stdlib Require Import NArith.

Module PredicateWitness.
Import Structural RuntimeSample RuntimeWitness.

Definition source : string :=
  "enum Nat { zero, succ(p: Nat) }
predicate Even(n: Nat) {
  constructor none() { takes {} gives Even(zero); }
  constructor two(m: Nat) { takes { Even(m); } gives Even(succ(succ(m))); }
}
proof kept(n: Nat, b: Bool) { inducts(Even(n)); assumes { Even(n); b; } ensures { b; } }
check again(n: Nat) { inducts(Even(n)); assumes { Even(n); } ensures { n == n; } }".

Definition document : Document :=
  Eval vm_compute in match parse source with Ok d => d | _ => mkDocument default_span [] end.

Lemma even_document_parsed : parse source = Ok document.
Proof. vm_compute. reflexivity. Qed.

Abbreviation executed := (execute show ast_id 0 document "" (make_runtime None)).
Definition final_state : RuntimeState := executed.2.

Definition output : string :=
  "verified-proof: kept
predicate: Even
constructor-branches: 2 verified
derivation-witness: erased after compiler-owned branch construction
verified-predicate-induction: again
predicate: Even
constructor-branches: 2 verified
derivation-witness: erased after compiler-owned branch construction
".

Lemma executed_output : executed = (Ok 0, output, final_state).
Proof. unfold final_state. refine (pair_intro executed (Ok 0, output) _). vm_compute. reflexivity. Qed.

(** ** The predicate *)

Definition even_decl : PredicateDecl :=
  Eval vm_compute in match declarations document with
  | [_; mkDeclared (DPredicate d) _; _; _] => d
  | _ => mkPredicateDecl default_span "" [] []
  end.
Definition kept_decl : CheckDecl :=
  Eval vm_compute in match declarations document with
  | [_; _; mkDeclared (DCheck d) _; _] => d
  | _ => mkCheckDecl default_span false "" [] None None None [] []
  end.

Abbreviation declared_even := (declare_predicate show ast_id even_decl 1 nat_state).
Definition even_state : RuntimeState := declared_even.2.

Lemma even_declared : declared_even = (Ok tt, even_state).
Proof. unfold even_state. refine (pair_intro declared_even (Ok tt) _). vm_compute. reflexivity. Qed.

Definition even_info : PredicateInfo :=
  Eval vm_compute in default (mkPredicateInfo "" [] (made "" [] "") [] false) (predicates_ even_state !! "Even").

Lemma even_predicates : predicates_ even_state = {["Even" := even_info]}.
Proof. vm_compute. reflexivity. Qed.
Lemma final_predicates : predicates_ final_state = {["Even" := even_info]}.
Proof. vm_compute. reflexivity. Qed.

(** ** A world where it is the least relation *)

Definition even_world : W := fun n vs =>
  match vs with [VNat s k] => (n =? "Even")%string && (s =? "Nat")%string && Nat.even k | _ => false end.

Definition parameter : Term := constant "Fine.predicate.Even.two.arg0" "Nat:Nat".

Lemma member_even vs : member even_world even_info vs <-> exists k, vs = [VNat "Nat" (k + k)].
Proof.
  unfold member. change apply_decl with apply_made. unfold apply_made, apply_relation. simpl. split.
  - intros [= Hv]. destruct vs as [|[| |s k| | | |] [|]]; try done. simpl in Hv.
    apply andb_true_iff in Hv as [->%String.eqb_eq [j ->]%Nat.even_spec]. exists j. do 2 f_equal. lia.
  - intros [k ->]. simpl. f_equal. apply Nat.even_spec. exists k. lia.
Qed.

(** The values of the two constructors' results. *)
Lemma two_value e k : e parameter = VNat "Nat" k ->
  eval even_world e <$> pc_result_indices (default (mkPredicateConstructorInfo "" [] [] [] [] [] 0) (pi_constructors even_info !! 1)) =
    [VNat "Nat" (S (S k))].
Proof. intros E. vm_compute in E |- *. by rewrite E. Qed.

Lemma even_generated : generated even_world even_info.
Proof.
  split.
  - intros c vs Hc (e & He & -> & Hp & _). apply member_even. apply elem_of_cons in Hc as [->|Hc]; [by exists 0|].
    apply list_elem_of_singleton in Hc as ->. apply Forall_cons in Hp as [[Hp _] _].
    destruct (nat_value (e parameter) "Nat") as [k Ek]; [by apply He|]. specialize (Hp _ eq_refl). apply member_even in Hp as [j Hj].
    change ([e parameter] = [VNat "Nat" (j + j)]) in Hj. rewrite Ek in Hj. injection Hj as ->.
    exists (S j). etrans; [apply (two_value e _ Ek)|]. do 2 f_equal. lia.
  - intros X Hclosed vs [k ->]%member_even. induction k as [|k IH].
    + apply (Hclosed (default (mkPredicateConstructorInfo "" [] [] [] [] [] 0) (pi_constructors even_info !! 0)));
        [apply list_elem_of_here|]. exists default_env. split_and!; [apply values_env_ok|done|by constructor..].
    + set (e := set_constants default_env [parameter] [VNat "Nat" (k + k)]).
      assert (Ee : e parameter = VNat "Nat" (k + k)) by (vm_compute; reflexivity).
      apply (Hclosed (default (mkPredicateConstructorInfo "" [] [] [] [] [] 0) (pi_constructors even_info !! 1)));
        [apply list_elem_of_further, list_elem_of_here|]. exists e. split_and!; [| | |by constructor].
      * unfold e. rewrite set_constants_assign. apply env_ok_assign; [apply values_env_ok|]. by repeat constructor.
      * rewrite (two_value e _ Ee). do 2 f_equal. lia.
      * constructor; [|constructor]. split; [|intros Hn; by destruct (Hn [parameter])]. intros l [= <-]. change (X [e parameter]).
        by rewrite Ee.
Qed.

Lemma even_least st : predicates_ st = {["Even" := even_info]} -> least st even_world.
Proof. intros E. unfold least. rewrite E. apply map_Forall_singleton, even_generated. Qed.

Lemma document_sound_witness :
  executed = (Ok 0, output, final_state) /\ least final_state even_world /\ proofs_hold final_state /\
  proof_names final_state = ["kept"] /\ final_outcome show ast_id (declarations document) output final_state.
Proof.
  pose proof (document_sound show ast_id 0 source document None 0 output final_state even_document_parsed executed_output) as [Hp Hok].
  destruct (Hok eq_refl) as [Hn Ho]. split; [exact executed_output|]. split; [exact (even_least _ final_predicates)|].
  split; [exact Hp|]. split; [exact Hn|exact Ho].
Defined.

(** ** One induction *)

Lemma even_form : predicate_form even_decl.
Proof. split; [discriminate|]. vm_compute. repeat constructor. Qed.

Lemma even_from : declared_from "Even" nat_state even_state.
Proof.
  refine (proj1 (declare_predicate_yields show ast_id even_decl 1 nat_state even_form nat_state_ok _ _ _ _ even_declared)).
  - apply (g_views _ _ (proj2 nat_keeps)). apply map_Forall_empty.
  - unfold predicates_wf. rewrite nat_state_predicates. apply map_Forall_empty.
Qed.

Lemma even_proofs : proofs_hold even_state.
Proof.
  destruct even_from as (_ & _ & _ & E & _). unfold proofs_hold. rewrite E.
  assert (E0 : admitted_proofs_ nat_state = []) by (vm_compute; reflexivity). rewrite E0. constructor.
Qed.

Definition kept_target : Expr := default (name_expr "") (check_predicate_induction kept_decl).

Lemma kept_form : predicate_check_form kept_decl.
Proof. split; [split; vm_compute; reflexivity|]. intros target [= <-]. split; vm_compute; reflexivity. Qed.

Abbreviation proved := (execute_predicate_check show ast_id kept_decl 2 even_state).
Definition kept_state : RuntimeState := proved.2.
Definition kept_result : nat * string := Eval vm_compute in match proved.1 with Ok r => r | _ => (7, "") end.

Lemma kept_proved : proved = (Ok kept_result, kept_state).
Proof. unfold kept_state. refine (pair_intro proved (Ok kept_result) _). vm_compute. reflexivity. Qed.

Lemma predicate_induction_sound_witness :
  kept_result.1 = 0 /\ least even_state even_world /\
  induction_result show ast_id kept_decl 2 kept_target (add_value_name "kept" even_state) kept_result kept_state.
Proof.
  split; [reflexivity|]. split; [exact (even_least _ even_predicates)|]. destruct even_from as (Hok & Hv & Hwf & _).
  exact (predicate_induction_sound show ast_id kept_decl 2 kept_target even_state kept_state kept_result Hok even_proofs Hv Hwf
    kept_form eq_refl kept_proved).
Defined.
End PredicateWitness.
