(* ===== verification/FixedpointWitness.v ===== *)
(** * Least relations on a concrete document

    The theorem on memberships and invariants applied to the even numbers,
    with a fixedpoint object that knows the answers to three queries. *)

From stdpp Require Import gmap.
From S2P Require Import Prelude Format Syntax Lexer Printer LexerSpec Parser ParserSpec DocumentSpec Source Z3Ast Z3Solver Z3Build Z3Check Z3Fixedpoint Z3Horn Lift Recorder Observers Runtime Elaborate Declare Values Predicate PredicateCheck Check Execute RuntimeSpec ElaborateSpec DeclareSpec EnumSpec FunctionSpec CheckSpec CheckSound PredicateSpec LayerSpec InductionSpec DeclarePredicateSpec PredicateSound FixedpointSound ExecuteSpec ExecuteSound RuntimeSample RuntimeWitness PredicateWitness.
From Stdlib Require Import NArith.

Lemma mentions_relation `{Z3Data} rels d l : d ∈ rels -> length l = length (decl_domain d) -> mentions rels (App d l) = true.
Proof. intros Hd Hl. simpl. by rewrite bool_decide_eq_true_2, Hl, Nat.eqb_refl. Qed.
Lemma mentions_argument `{Z3Data} rels d l x : x ∈ l -> mentions rels x = true -> mentions rels (App d l) = true.
Proof.
  intros Hx Hm. simpl. apply orb_true_iff. right. apply existsb_exists. exists x. split; [by apply list_elem_of_In|done].
Qed.

Module FixedpointWitness.
Import Structural RuntimeSample RuntimeWitness PredicateWitness.

Definition source : string :=
  "check two() { assumes {} ensures { Even(succ(succ(zero))); } }
check one() { assumes {} ensures { Even(succ(zero)); } }
check same(n: Nat) { assumes { Even(n); } ensures { n == n; } }".

Definition checks : list CheckDecl :=
  Eval vm_compute in match parse source with
  | Ok d => declarations d ≫= fun item => match declaration item with DCheck c => [c] | _ => [] end
  | _ => []
  end.

Definition no_check : CheckDecl := mkCheckDecl default_span false "" [] None None None [] [].
Definition two : CheckDecl := Eval vm_compute in nth 0 checks no_check.
Definition one : CheckDecl := Eval vm_compute in nth 1 checks no_check.
Definition same : CheckDecl := Eval vm_compute in nth 2 checks no_check.

(** ** The queries *)

Definition even_relation : Decl := related "Even" ["Nat:Nat"] "Bool".
Definition zero : Term := App (made "zero" [] "Nat:Nat") [].
Definition succ (t : Term) : Term := App (made "succ" ["Nat:Nat"] "Nat:Nat") [t].
Definition even_atom (t : Term) : Term := App even_relation [t].

Definition told : Fixedpoint := Eval vm_compute in fixedpoint_ even_state.

(** What an invariant adds. *)
Definition asked_same : Decl := counterexample same.
Definition same_parameter : Term := constant "Fine.predicate-check.same.arg0" "Nat:Nat".
Definition same_equation : Term := operation OP_EQ [same_parameter; same_parameter] "Bool".
Definition same_guarantee : Term := operation OP_AND [bool_val true; same_equation] "Bool".
Definition same_failed : Term := operation OP_NOT [same_guarantee] "Bool".
Definition same_rule : Term :=
  Quant QForall 0 SNull SNull (binder <$> [same_parameter]) [] []
    (operation OP_IMPLIES [operation OP_AND [even_atom same_parameter; same_failed] "Bool"; App asked_same []] "Bool").

Definition known (f : Fixedpoint) (q : Term) : check_result :=
  if decide (fp_relations f = fp_relations told /\ (fp_rules f).*2 = (fp_rules told).*2)
  then if decide (q = even_atom (succ (succ zero))) then sat else if decide (q = even_atom (succ zero)) then unsat else unknown
  else if decide (fp_relations f = fp_relations told ++ [asked_same] /\ (fp_rules f).*2 = (fp_rules told).*2 ++ [same_rule])
  then if decide (q = App asked_same []) then unsat else unknown
  else unknown.

#[local] Instance knowing : Z3Fixedpoint := {|
  fp_query := fun f q => Some (known f q);
  fp_events := fun _ _ => [];
  fp_answer := fun _ t => t;
  fp_reason_unknown := fun _ _ => "incomplete"
|}.

(** ** The clauses the rules are read as *)

Lemma read_implication c (rels : list Decl) b d l :
  hc_relation c ∈ rels -> decl OP_IMPLIES "op" [sort_of b; sd_range d] "Bool" ∉ rels ->
  implication_of c (operation OP_IMPLIES [b; App d l] "Bool") ->
  conjunction_of b (hc_body c) /\ hc_relation c = d /\ hc_indices c = l.
Proof.
  intros Hin Hout Hi. inversion Hi as [_ E|b' t' Hb Ht E]; [by rewrite E in Hin|]. simpl in Ht. case_decide; [|done].
  by injection Ht as _ _ -> -> ->.
Qed.

Lemma read_quantified c ps body :
  Forall symbolic (hc_parameters c) -> Forall symbolic ps ->
  reads c (Quant QForall 0 SNull SNull (binder <$> ps) [] [] body) -> hc_parameters c = ps /\ implication_of c body.
Proof.
  intros Hc Hps Hr. inversion Hr as [t _ Hi|r t Hi Hf]; [inversion Hi as [|b t' _ Ht E]; simpl in Ht; by case_decide|].
  simpl in Hf. case_bool_decide; [done|]. injection Hf as E ->. split; [|done].
  by rewrite <- (bound_constants _ Hc), E, (bound_constants _ Hps).
Qed.

Lemma read_fact c d l : reads c (App d l) -> d <> decl OP_IMPLIES "op" (sd_domain d) "Bool" -> hc_relation c = d /\ hc_indices c = l.
Proof.
  intros Hr Hd. inversion Hr as [t _ Hi|r t _ Hf]; [|simpl in Hf; by case_bool_decide].
  inversion Hi as [_ E|b t' _ Ht E]; [done|]. simpl in Ht. case_decide; [|done]. injection Ht as <- _. by destruct Hd.
Qed.

(** The conjuncts of a conjunction that is not flat. *)
Lemma read_conjunction (rels : list Decl) a b l :
  conjunction_of (operation OP_AND [a; b] "Bool") l -> Forall (flat rels) l ->
  mentions rels (operation OP_AND [a; b] "Bool") = true -> decl OP_AND "op" [sort_of a; sort_of b] "Bool" ∉ rels ->
  exists la lb, l = la ++ lb /\ conjunction_of a la /\ conjunction_of b lb.
Proof.
  intros Hc Hf Hm Hout. inversion Hc as [|t|a' b' t la lb Ht Ha Hb]; subst.
  - apply Forall_cons in Hf as [[Hf|(d & l & [= <- <-] & Hd & _)] _]; [by rewrite Hf in Hm|done].
  - simpl in Ht. case_decide; [|done]. injection Ht as _ _ -> ->. by exists la, lb.
Qed.

Lemma read_conjunct d l body : sd_kind d = OP_OTHER \/ sd_kind d = OP_NOT -> conjunction_of (App d l) body -> body = [App d l].
Proof.
  intros Hd Hc. inversion Hc as [|t|a b t la lb Ht]; subst; [by destruct Hd|done|].
  simpl in Ht. case_decide; [|done]. injection Ht as <- _. by destruct Hd.
Qed.

(** ** The even numbers are closed under them *)

Definition none_rule : Term := even_atom zero.
Definition two_premise : Term := operation OP_AND [bool_val true; even_atom parameter] "Bool".
Definition two_body : Term := operation OP_IMPLIES [two_premise; even_atom (succ (succ parameter))] "Bool".
Definition two_rule : Term := Quant QForall 0 SNull SNull (binder <$> [parameter]) [] [] two_body.

Lemma told_rules : fp_relations told = [even_relation] /\ (fp_rules told).*2 = [none_rule; two_rule].
Proof. split; reflexivity. Qed.

(** The even numbers, and no counterexample. *)
Definition evens (d : Decl) (vs : list V) : Prop :=
  (d = even_relation -> exists k, vs = [VNat "Nat" (k + k)]) /\ d <> asked_same.

Lemma single_value {A B} (f : A -> B) x y : f <$> [x] = [y] -> f x = y.
Proof. by intros [= ->]. Qed.
Lemma single_fmap {A B} (f : A -> B) x : f <$> [x] = [f x].
Proof. done. Qed.
Lemma succ_value (w : World) (e : Env) t k : eval w e t = VNat "Nat" k -> eval w e (succ t) = VNat "Nat" (S k).
Proof. simpl. by intros ->. Qed.

Lemma even_atom_holds (w : World) (e : Env) t : holds w e (even_atom t) <-> w "Even" [eval w e t] = true.
Proof.
  unfold holds. change (eval w e (even_atom t)) with (VBool (w "Even" [eval w e t])). split; [|by intros ->].
  by intros [= ?].
Qed.

Lemma never_failed w e : ~ holds w e same_failed.
Proof.
  assert (En : z3_op ZNot [same_guarantee] = Some same_failed) by reflexivity.
  assert (Ea : z3_op ZAnd [bool_val true; same_equation] = Some same_guarantee) by reflexivity.
  assert (Ee : z3_op ZEq [same_parameter; same_parameter] = Some same_equation) by reflexivity.
  rewrite (holds_negation _ _ _ _ En), (holds_and _ _ _ _ _ Ea), (holds_equation _ _ _ _ _ Ee). intros Hh. by destruct Hh.
Qed.

Section Closed.
Context (rels : list Decl) (w : W) (e : Term -> V).
Hypothesis Heven : even_relation ∈ rels.
Hypothesis Hkinds : Forall (fun d => sd_kind d = OP_OTHER) rels.

Lemma operator_outside k domain : k <> OP_OTHER -> decl k "op" domain "Bool" ∉ rels.
Proof. intros Hk Hin. rewrite Forall_forall in Hkinds. by apply Hkinds in Hin. Qed.

Lemma none_closed c : reads c none_rule -> closed_clause rels w e evens c.
Proof. intros [Hr Hi]%read_fact vs _ e' _; [|done]. rewrite Hr, Hi. split; [|done]. intros _. by exists 0. Qed.

Lemma two_closed c : horn_clause rels c -> reads c two_rule -> closed_clause rels w e evens c.
Proof.
  intros [[Hs _] Hb [Hin _]] [Hp Hi]%read_quantified; [|done|by repeat constructor].
  apply (read_implication _ rels) in Hi as (Hc & Hr & Hx); [|done|by apply operator_outside].
  apply (read_conjunction rels) in Hc as (la & lb & El & _ & Hlb); [|done| |by apply operator_outside].
  2: { apply (mentions_argument _ _ _ (even_atom parameter)); [apply list_elem_of_further, list_elem_of_here|by apply mentions_relation]. }
  apply read_conjunct in Hlb as ->; [|by left]. intros vs Hvs e' Hbody. rewrite Hr, Hx. split; [|done]. intros _.
  rewrite El in Hbody. apply Forall_app in Hbody as [_ [Ha _]%Forall_cons].
  destruct (proj1 (proj1 Ha _ _ eq_refl Heven) eq_refl) as [k Hk%single_value]. exists (S k).
  rewrite single_fmap, (succ_value _ _ _ (S (k + k))) by (by apply succ_value). do 2 f_equal. lia.
Qed.

Lemma same_closed c : horn_clause rels c -> reads c same_rule -> closed_clause rels w e evens c.
Proof.
  intros [[Hs _] Hb [Hin _]] [Hp Hi]%read_quantified; [|done|by repeat constructor].
  apply (read_implication _ rels) in Hi as (Hc & Hr & Hx); [|done|by apply operator_outside].
  apply (read_conjunction rels) in Hc as (la & lb & El & _ & Hlb); [|done| |by apply operator_outside].
  2: { apply (mentions_argument _ _ _ (even_atom same_parameter)); [apply list_elem_of_here|by apply mentions_relation]. }
  apply read_conjunct in Hlb as ->; [|by right]. intros vs Hvs e' Hbody. exfalso.
  rewrite El in Hbody. apply Forall_app in Hbody as [_ [[_ Ha] _]%Forall_cons].
  apply (never_failed w e'), Ha. intros d l [= <- <-]. by apply operator_outside.
Qed.
End Closed.

Lemma knowing_least f w e clauses d l :
  (forall t, t ∈ (fp_rules f).*2 -> t ∈ [none_rule; two_rule; same_rule]) -> even_relation ∈ fp_relations f ->
  Forall (fun d => sd_kind d = OP_OTHER) (fp_relations f) -> rules_read clauses (fp_rules f).*2 ->
  (forall c, clauses c -> horn_clause (fp_relations f) c) -> least_model (fp_relations f) clauses w e ->
  d ∈ fp_relations f -> get_sort <$> l = decl_domain d -> holds w e (App d l) -> evens d (eval w e <$> l).
Proof.
  intros Hrules Hin Hk [_ Hfrom] Hhorn Hleast Hd Hl. apply (Hleast evens); [|done..]. intros c Hc.
  destruct (Hfrom c Hc) as (t & Ht%Hrules & Hr). pose proof (Hhorn c Hc) as Hh.
  apply elem_of_cons in Ht as [->|[->|Ht]%elem_of_cons]; [by apply none_closed|by apply two_closed|].
  apply list_elem_of_singleton in Ht as ->. by apply same_closed.
Qed.

Lemma two_derivable w e : Forall (holds w e) [none_rule; two_rule] -> holds w e (even_atom (succ (succ zero))).
Proof.
  intros [H0 [H2 _]%Forall_cons]%Forall_cons. assert (Er : mk_forall [parameter] two_body = Some two_rule) by reflexivity.
  assert (Eb : z3_op ZImplies [two_premise; even_atom (succ (succ parameter))] = Some two_body) by reflexivity.
  assert (Ep : z3_op ZAnd [bool_val true; even_atom parameter] = Some two_premise) by reflexivity.
  assert (Hs : Forall symbolic [parameter]) by (by repeat constructor).
  rewrite (holds_anonymous_forall _ _ _ _ _ Er Hs (NoDup_singleton _)) in H2.
  specialize (H2 [VNat "Nat" 0] ltac:(by repeat constructor)). rewrite (holds_implication _ _ _ _ _ Eb), (holds_and _ _ _ _ _ Ep) in H2.
  assert (Ev : eval w (assign e [parameter] [VNat "Nat" 0]) parameter = VNat "Nat" 0) by reflexivity.
  pose proof (succ_value _ _ _ _ (succ_value _ _ _ _ Ev)) as Ev2.
  assert (Ez : eval w e zero = VNat "Nat" 0) by reflexivity. pose proof (succ_value _ _ _ _ (succ_value _ _ _ _ Ez)) as Ez2.
  unfold none_rule in H0. rewrite even_atom_holds in H0. rewrite 2!even_atom_holds in H2. rewrite even_atom_holds, Ez2. rewrite Ez in H0. rewrite Ev, Ev2 in H2.
  apply H2. split; [apply holds_true|done].
Qed.

Lemma known_sat f q : known f q = sat -> (fp_rules f).*2 = [none_rule; two_rule] /\ q = even_atom (succ (succ zero)).
Proof. destruct told_rules as [_ Et]. unfold known. rewrite Et. repeat case_decide; try done. by destruct_and!. Qed.

Lemma known_unsat f q : known f q = unsat ->
  (forall t, t ∈ (fp_rules f).*2 -> t ∈ [none_rule; two_rule; same_rule]) /\ even_relation ∈ fp_relations f /\
  Forall (fun d => sd_kind d = OP_OTHER) (fp_relations f) /\ (q = even_atom (succ zero) \/ q = App asked_same []).
Proof.
  destruct told_rules as [Er Et]. unfold known. rewrite Er, Et.
  destruct (decide (fp_relations f = _ /\ _)) as [[-> ->]|_]; [|destruct (decide (fp_relations f = _ /\ _)) as [[-> ->]|_]; [|done]].
  - case_decide; [done|]. case_decide as Hq; [|done]. intros _. split_and!; [set_solver|by left|by repeat constructor|by left].
  - case_decide as Hq; [|done]. intros _. split_and!; [set_solver|by left|by repeat constructor|by right].
Qed.

#[local] Instance knowing_laws : Z3FixedpointLaws.
Proof.
  declaration_laws.
  - intros f q w e [= Hq] _ Hrules. apply known_sat in Hq as [E ->]. apply two_derivable. by rewrite <- E.
  - intros f clauses d l w e [= Hq] Hread Hhorn Hd Hl _ _ _ Hleast Hh. apply known_unsat in Hq as (Hr & Hin & Hk & Hq).
    apply (knowing_least f w e clauses d l) in Hh as [Heven Hasked]; [|done..].
    destruct Hq as [[= -> ->]|[= -> ->]]; [|done]. destruct (Heven eq_refl) as [k [= Hk']%single_value]. lia.
Qed.

(** ** The three checks *)

Definition answer (d : CheckDecl) : outcome RtError (nat * string) * RuntimeState := execute_predicate_check show ast_id d 7 even_state.

Lemma question_answered d r : (answer d).1 = Ok r -> answer d = (Ok r, (answer d).2).
Proof. apply pair_intro. Qed.

Lemma two_answer : (answer two).1 = Ok (0, membership_text two "Even" true).
Proof. vm_compute. reflexivity. Qed.
Lemma one_answer : (answer one).1 = Ok (0, membership_text one "Even" false).
Proof. vm_compute. reflexivity. Qed.
Lemma same_answer : (answer same).1 = Ok (0, invariant_text same "Even" true).
Proof. vm_compute. reflexivity. Qed.

Lemma question_form d :
  forallb source_form (check_assumes d) = true -> forallb source_form (check_ensures d) = true ->
  check_predicate_induction d = None -> predicate_check_form d.
Proof. intros Ha He Hi. split; [done|]. intros target. by rewrite Hi. Qed.

Lemma even_fixedpoint : fixedpoint_ok even_state.
Proof.
  refine (proj2 (proj2 (declare_predicate_yields show ast_id even_decl 1 nat_state even_form nat_state_ok _ _ _ _ even_declared)) _).
  - apply (g_views _ _ (proj2 nat_keeps)). apply map_Forall_empty.
  - unfold predicates_wf. rewrite nat_state_predicates. apply map_Forall_empty.
  - eapply (same_fixedpoint_ok (make_runtime None)); [by rewrite nat_state_predicates|vm_compute; reflexivity|apply initial_fixedpoint_ok].
Qed.

(** The premises of the negative answers hold: the relations occur only as atoms. *)
Lemma even_first_order st rels :
  predicates_ st = {["Even" := even_info]} -> rels = [even_relation] \/ rels = [even_relation; asked_same] -> first_order st rels.
Proof.
  intros E Hrels p k ([n Hp] & _ & Hk). rewrite E in Hp. apply lookup_singleton_Some in Hp as [_ <-].
  apply elem_of_cons in Hk as [->|Hk]; [|apply list_elem_of_singleton in Hk as ->]; simpl; (split; [|destruct Hrels as [->| ->]; by repeat constructor]).
  - constructor.
  - constructor; [|constructor]. right. exists even_relation, [parameter]. split; [done|].
    destruct Hrels as [->| ->]; (split; [by left|by repeat constructor]).
Qed.

Lemma least_relation_sound_witness :
  least even_state even_world /\
  question_result show ast_id two (add_value_name "two" even_state) (0, membership_text two "Even" true) /\
  question_result show ast_id one (add_value_name "one" even_state) (0, membership_text one "Even" false) /\
  question_result show ast_id same (add_value_name "same" even_state) (0, invariant_text same "Even" true) /\
  first_order even_state (fp_relations (fixedpoint_ even_state)) /\ first_order even_state (invariant_relations same even_state).
Proof.
  split; [exact (even_least _ even_predicates)|]. destruct even_from as (Hok & _ & Hwf & _).
  split; [|split; [|split; [|split]]].
  - exact (least_relation_sound show ast_id two 7 even_state _ _ Hok Hwf even_fixedpoint
      (question_form two eq_refl eq_refl eq_refl) eq_refl (question_answered _ _ two_answer)).
  - exact (least_relation_sound show ast_id one 7 even_state _ _ Hok Hwf even_fixedpoint
      (question_form one eq_refl eq_refl eq_refl) eq_refl (question_answered _ _ one_answer)).
  - exact (least_relation_sound show ast_id same 7 even_state _ _ Hok Hwf even_fixedpoint
      (question_form same eq_refl eq_refl eq_refl) eq_refl (question_answered _ _ same_answer)).
  - apply even_first_order; [exact even_predicates|left; vm_compute; reflexivity].
  - apply even_first_order; [exact even_predicates|right; vm_compute; reflexivity].
Defined.
End FixedpointWitness.
