(* ===== verification/BisimulationWitness.v ===== *)
(** * A solve on a concrete document

    The theorem on bisimulations applied to the two systems of
    src/fine/fixtures/two-state-bisim.fine, with a solver that knows a model of
    their clauses: the relation that pairs the states of equal label. *)

From stdpp Require Import gmap.
From S2P Require Import Prelude Format Syntax Lexer Printer LexerSpec Parser ParserSpec DocumentSpec Source Z3Ast Z3Solver Z3Build Z3Check Z3Model Z3Fixedpoint Lift Recorder Observers Runtime Elaborate Declare Values Predicate Check Bisimulation Execute RuntimeSpec ElaborateSpec DeclareSpec CheckSound PredicateSound BisimulationSpec ExecuteSpec ExecuteSound RuntimeSample RuntimeWitness.
From Stdlib Require Import NArith.

Module BisimulationWitness.
Import Structural RuntimeSample RuntimeWitness.

Definition source : string :=
  "enum LeftState { left_0, left_1 }
enum RightState { right_0, right_1 }
let left_step: Table((LeftState, LeftState), Bool) = table(default: false) {
    (left_0, left_1): true,
    (left_1, left_0): true,
};
let right_step: Table((RightState, RightState), Bool) = table(default: false) {
    (right_0, right_1): true,
    (right_1, right_0): true,
};
let left_label: Table(LeftState, Bool) = table(default: false) {
    left_1: true,
};
let right_label: Table(RightState, Bool) = table(default: false) {
    right_1: true,
};
model bisim: Table((LeftState, RightState), Bool);
solve bisimulation {
    takes(
        relation: bisim,
        left_step: left_step,
        right_step: right_step,
        left_label: left_label,
        right_label: right_label,
        initial: (left_0, right_0),
    );
    gives(bisim);
}".

Definition document : Document :=
  Eval vm_compute in match parse source with Ok d => d | _ => mkDocument default_span [] end.

Lemma systems_parsed : parse source = Ok document.
Proof. vm_compute. reflexivity. Qed.

Definition solve : SolveDecl :=
  Eval vm_compute in match list.last (declarations document) with
  | Some (mkDeclared (DSolve d) _) => d
  | _ => mkSolveDecl default_span "" [] (name_expr "")
  end.

(** ** The tables declared *)

Abbreviation tables := (firstn 7 (declarations document)).
Abbreviation declaring := (execute_declarations show ast_id empty_plan tables "" (make_runtime None)).
Definition tables_state : RuntimeState := declaring.2.
Definition hole_plan : Plan := mkPlan None None None true.

Lemma tables_declared : declaring = (Ok (inl hole_plan), "", tables_state).
Proof. unfold tables_state. refine (pair_intro declaring (Ok (inl hole_plan), "") _). vm_compute. reflexivity. Qed.

Lemma tables_ok : runtime_ok tables_state.
Proof.
  assert (Hs : shape_of document) by exact (parsed_shape _ _ systems_parsed).
  assert (H : declared_sound tables tables (make_runtime None) (inl hole_plan) tables_state).
  { eapply (returns_declarations_sound show ast_id tables tables empty_plan "" (make_runtime None)); [| | | |exact tables_declared].
    - split_and!; [apply make_runtime_ok|by apply Forall_nil|apply map_Forall_empty..|apply initial_fixedpoint_ok].
    - split_and!; [by left|done..].
    - done.
    - simpl in Hs. by apply Forall_take. }
  by destruct H as [[Hok _] _].
Qed.

Definition no_binding : Binding := mkBinding 0 (bool_val false) false default_span.
Definition problem : Problem :=
  match (read_problem solve 0 tables_state).1 with
  | Ok p => p
  | _ => mkProblem solve 0 "" no_binding no_binding no_binding
           no_binding no_binding 0 0 0 (bool_val false)
  end.
Definition asserted : list Term :=
  Eval vm_compute in match (clauses problem tables_state).1 with Ok l => snd <$> l | _ => [] end.

(** ** A model of the clauses *)

Definition left_sort : string := "Enum:11:LeftState".
Definition right_sort : string := "Enum:11:RightState".
Definition pair_sort : string := "Fine.Pair.2".
Definition hole : Term := const "bisim" (array_of pair_sort "Bool").

(** The states with the same number. *)
Definition diagonal : V :=
  VArray (array_of pair_sort "Bool") (VBool false)
    [(VPair pair_sort (VEnum left_sort 0) (VEnum right_sort 0), VBool true);
     (VPair pair_sort (VEnum left_sort 1) (VEnum right_sort 1), VBool true)].

Definition bisim_world : W := fun _ _ => false.
Definition bisim_env : Term -> V := set_constants default_env [hole] [diagonal].

Lemma bisim_env_ok : env_ok bisim_env.
Proof.
  unfold bisim_env. rewrite set_constants_assign. apply env_ok_assign; [apply values_env_ok|].
  constructor; [vm_compute; reflexivity|constructor].
Qed.

Lemma two_cases v s : enum_count s = 2 -> sort_of_value v = s -> v = VEnum s 0 \/ v = VEnum s 1.
Proof.
  intros Hs Hv. apply enum_value in Hv as (i & -> & Hi); [|lia]. rewrite Hs in Hi.
  destruct i as [|[|i]]; [by left|by right|lia].
Qed.

Lemma implied w k n ps dom r a b e :
  k = OP_IMPLIES -> ps = [] -> (value_of w a e = VBool true -> value_of w b e = VBool true) ->
  value_of w (App (mkStructuralDecl k n ps dom r) [a; b]) e = VBool true.
Proof.
  intros -> -> H. simpl. unfold apply_made. simpl. f_equal. destruct (truth (value_of w a e)) eqn:E; [|done].
  apply truth_holds in E. by rewrite (H E).
Qed.

(** Every assignment of states to the variables of a clause, one by one. *)
Ltac states :=
  repeat match goal with
  | H : Forall2 _ (_ :: _) _ |- _ => apply Forall2_cons_inv_l in H as (? & ? & ? & H & ->)
  | H : Forall2 _ [] _ |- _ => apply Forall2_nil_inv_l in H as ->
  | H : sort_of_value ?v = _ |- _ => apply two_cases in H as [->| ->]; [| |vm_compute; reflexivity]
  end.

(** A clause with an answer of sort [s]. *)
Ltac answer s :=
  apply (proj2 (decided_holds _));
  first [ exists [VEnum s 0]; split; [repeat constructor|vm_compute; reflexivity]
        | exists [VEnum s 1]; split; [repeat constructor|vm_compute; reflexivity] ].

Lemma asserted_hold : Forall (holds bisim_world bisim_env) asserted.
Proof.
  unfold asserted. constructor; [|constructor; [|constructor; [|constructor; [|constructor]]]].
  - apply (proj2 (decided_holds _)). intros vs Hvs. cbn in Hvs. states; vm_compute; reflexivity.
  - apply (proj2 (decided_holds _)). intros vs Hvs. cbn in Hvs. states;
      (apply implied; [reflexivity..|]; intros Hh; try (vm_compute in Hh; discriminate Hh); answer right_sort).
  - apply (proj2 (decided_holds _)). intros vs Hvs. cbn in Hvs. states;
      (apply implied; [reflexivity..|]; intros Hh; try (vm_compute in Hh; discriminate Hh); answer left_sort).
  - vm_compute. reflexivity.
Qed.

(** ** A solver that knows it *)

Definition state_term (s : string) (i : nat) (n : string) : Term := App (enumerated s i n) [].
Definition selection (l r : Term) : Term :=
  operation OP_SELECT [hole; App (paired pair_sort [left_sort; right_sort]) [l; r]] "Bool".
Definition left_states : list (nat * Term) := [(0, state_term left_sort 0 "left_0"); (1, state_term left_sort 1 "left_1")].
Definition right_states : list (nat * Term) := [(0, state_term right_sort 0 "right_0"); (1, state_term right_sort 1 "right_1")].

(** The cells of the relation. *)
Definition cells : list (Term * bool) :=
  left_states ≫= fun l => (fun r => (selection l.2 r.2, l.1 =? r.1)) <$> right_states.

Lemma cells_hold : Forall (fun c => value_of bisim_world c.1 bisim_env = VBool c.2) cells.
Proof. unfold cells. repeat (apply Forall_cons_2; [vm_compute; reflexivity|]). apply Forall_nil_2. Qed.

Definition cell (t : Term) : Term := match list_find (fun c => term_eqb t c.1 = true) cells with Some (_, c) => bool_val c.2 | None => t end.

Lemma cell_value t : value_of bisim_world (cell t) bisim_env = value_of bisim_world t bisim_env.
Proof.
  unfold cell. destruct (list_find _ _) as [[i c]|] eqn:E; [|done]. apply list_find_Some in E as (Hi & Ht%term_eqb_spec & _).
  pose proof cells_hold as Hc. rewrite Forall_lookup in Hc. rewrite Ht, (Hc _ _ Hi). by destruct c.2.
Qed.

Definition knows (l : list Term) : bool := (length l =? length asserted) && forallb (fun p => term_eqb p.1 p.2) (zip l asserted).

Lemma knows_hold l : knows l = true -> all_hold bisim_world bisim_env l.
Proof.
  unfold knows. intros [Hl%Nat.eqb_eq Hz]%andb_true_iff. assert (l = asserted) as ->; [|apply asserted_hold].
  revert Hl Hz. generalize asserted. induction l as [|t l IH]; intros [|u us] Hl Hz; simplify_eq/=; [done|].
  apply andb_true_iff in Hz as [->%term_eqb_spec Hz]. f_equal. by apply IH.
Qed.

Definition table_check (s : list (list Term)) (assumptions : list Term) : check_result * list (list Term) :=
  (if knows (List.concat s) && bool_decide (assumptions = []) then sat else unknown, s).

#[export] Instance table_solver : Z3Solver := {|
  solver := list (list Term);
  Model := unit;
  mk_solver := [[]];
  s_push := fun s => [] :: s;
  s_pop := tail;
  s_add := fun s t => match s with f :: fs => (f ++ [t]) :: fs | [] => [] end;
  s_check := table_check;
  s_unsat_core := fun _ => [];
  s_get_model := fun _ => tt;
  s_reason_unknown := fun _ => "incomplete";
  model_eval := fun _ => cell;
  simplify := fun t => t;
  theory_rewrite := fun t => ([], t)
|}.

Lemma table_sat s l : (table_check s l).1 = sat -> l = [] /\ all_hold bisim_world bisim_env (List.concat s).
Proof.
  unfold table_check. simpl. destruct (_ && _) eqn:E; [|done]. intros _. apply andb_true_iff in E as [E ->%bool_decide_eq_true].
  split; [done|by apply knows_hold].
Qed.

#[export] Instance table_laws : Z3SolverLaws (Z := table_solver).
Proof.
  refine {| frames := id : solver -> list (list Term) |}; simpl; try done.
  - by intros s f fs ->.
  - by intros s t f fs ->.
  - intros s l [-> Hs]%table_sat. exists bisim_world, bisim_env. split_and!; [apply bisim_env_ok|done|constructor].
  - intros s l w e E. by destruct (_ && _).
  - intros s l E. by destruct (_ && _).
  - intros s l w e E. by destruct (_ && _).
Defined.

#[export] Instance table_models : Z3ModelLaws (HSL := table_laws).
Proof.
  split. intros s [_ Hs]%table_sat. exists bisim_world, bisim_env. split_and!; [apply bisim_env_ok|done|]. intros t. apply cell_value.
Qed.

#[export] Instance table_checks : Z3Check := {| s_set := fun s _ => s; s_events := fun _ => [] |}.

#[export] Instance table_check_laws : Z3CheckLaws (HL := table_laws) (HC := table_checks).
Proof. by split. Qed.

(** ** The solve *)

Abbreviation solving := (execute_bisimulation (HS := table_solver) (HC := table_checks) show ast_id solve 0 tables_state).
Definition answer_text : string :=
  "sat: z3 filled model-shaped hole bisim
model bisim: Table((LeftState, RightState), Bool) = table(default: false) {
  (left_0, right_0): true,
  (left_1, right_1): true,
};
parse(print(lift(x))): exact ast identity (diagnostic ast_id: 0)
".

Lemma solved : solving = (Ok (0, answer_text), solving.2).
Proof. refine (pair_intro solving (Ok (0, answer_text)) _). vm_compute. reflexivity. Qed.

Lemma bisimulation_sound_witness :
  solving = (Ok (0, answer_text), solving.2) /\ solve_result ast_id solve 0 tables_state (0, answer_text).
Proof. split; [exact solved|]. exact (bisimulation_sound show ast_id solve 0 tables_state _ _ tables_ok solved). Defined.
End BisimulationWitness.
